(* ===== verification/_CoqProject ===== *)
-Q . S2P
Prelude.v
AccessFilter.v
CqlLike.v
EsLeaf.v
AccessEs.v
CqlEs.v
EsItems.v
EsFields.v
Joins.v
AccessPg.v
AttributePredicates.v
Conditions.v
Policies.v
EnvelopeDoc.v
Demo.v
Drift.v
Engine.v
EffectivePolicies.v
Listing.v
AccessScope.v
CircuitBreaker.v
Leases.v
Scaling.v
TtlGate.v
UsageCounter.v
BindingCache.v
RuleCache.v
LocalCache.v
TieredCache.v
Cached.v
Handlers.v
TaskRouting.v
Pmtiles.v
TaskQueue.v
TaskQueueProofs.v
TaskQueueCases.v
Dispatcher.v
TaskListing.v
StoragePlane.v
StorageIndexer.v
StorageDrain.v
StoragePlaneProofs.v
StorageDrainProofs.v
StorageSync.v
StorageSweep.v
StorageEs.v
StorageCases.v
ItemWrite.v
ItemWriteProofs.v
ItemVersions.v
ItemCases.v
Routing.v
RoutingProofs.v
ConfigStore.v
ConfigProofs.v
ConfigVersions.v
ConfigCases.v
IamStore.v
IamStoreProofs.v
IamIdentity.v
