(* ===== verification/Prelude.v ===== *)
(** * Verification of the GeoID / dynastore core

    The program is a multi-tenant geospatial catalog.  This development models
    the part of its core package ([packages/core/src/dynastore]) that decides
    who a caller is and who may read what, the task queue that runs its background work, the
    PMTiles archives it publishes, the outbox that keeps its search index in step
    with its primary store, the search requests that read that index, and the
    small concurrent and routing components that protect it under load, and the
    write path that stores items and their versions.  Paths
    below are relative to that package, and to its [modules] directory where
    they start with [iam], [storage], [catalog], [elasticsearch], [tasks],
    [tiles], [joins], [scaling], [gcp] or [db_config].

    ** The parts and how they interact

    Who the caller is comes first: the identity of a validated token is linked to a
    principal, registered at its first login, whose roles are the grants in force for
    it on the platform and in the catalog of the request, with what they include in
    the hierarchy of roles; some roles are kept in step with those of the token.

    The request then reaches the middleware, which asks the policy engine whether the
    principal may perform the method on the path ([evaluate_access]).  The engine
    resolves the policies in force (roles, custom policies, grant rows), and
    evaluates their conditions; [rate_limit] and [max_count] conditions change
    usage counters.  A read of many documents cannot be decided per path: the
    same policies are compiled to a backend-neutral [AccessFilter]
    ([compile_read_filter]), which is translated to an Elasticsearch query or a
    PostgreSQL WHERE clause.  Listings of catalogs, collections and assets compile
    one filter per entry and cache the answer.  Behind writes, a circuit breaker
    guards each indexer, a TTL gate throttles repeated work, and task routing
    picks the runner of a job.

    Long work is a row of the table [tasks].  Workers claim pending rows under a
    lease, renew it while they run, and write the result back if they still own
    the row; a reaper returns the rows of dead workers to the queue until their
    retries are used up.  When a result has been written, the routing target of
    the task may ask for a follow-on task.  One of these tasks renders the tiles
    of a collection and packs them into a PMTiles archive.

    Features are ingested in chunks.  A rule of the collection's write policy says
    which stored item a feature is a new state of (by external id, by geometry),
    and a conflict action says what follows: the row is updated, closed and
    succeeded by a new version, or kept.  A chunk is written as a batch, and row by
    row when that fails.

    Which store an operation reaches is configured: a tier of entities has a lane of
    drivers for reads, one for writes and one for indexing, to which installed
    drivers add themselves unless an operator has spoken; a request chooses among
    readers by hints.

    These and all other settings are configurations: classes with a row per tier
    (platform, catalog, collection) of which each sets what it wants to differ.  A
    read overlays the tiers; a write is checked against what stored data depends on.

    Every write of an item leaves an obligation for each index in the table
    [storage].  A drain claims obligations, reads the items back from the primary
    store, sends documents and deletes to the index in bulk, and marks each row by
    what the index answered.  A periodic sweep looks for recent writes whose
    obligation was lost and enqueues it again.

    A search reaches the index as a request with structural dimensions (ids,
    collections, a box, a time), attribute predicates and a CQL2 filter.  The
    driver builds one query of them, and the envelope driver adds the caller's
    access filter; a filter it cannot translate is answered from PostgreSQL
    instead, so both back ends have to read it alike.  A join streams the
    features of one collection past an index of another.

    Periodic services run on one process at a time, elected through a lease
    table.  One of them reads the load signals the processes publish and sets
    the minimum number of instances.

    Answers are kept in caches.  A process has local ones under one byte budget;
    a second tier shared by all processes lies behind them, and invalidations
    travel through it as tombstones.  The roles and bindings of a caller are
    cached under a key with a version that every writer increments.

    ** Files

    - [Prelude]: JSON-shaped Python values, strings, insertion-ordered
      dictionaries, the class [PyRuntime], the state-and-exception monad [M],
      tactics, hints and shared lemmas.
    - [AccessFilter]: [models/protocols/access_filter.py].  One definition per
      class and method; [admits] is the reference semantics.
    - [AccessEs]: [storage/drivers/elasticsearch_envelope/access_translate.py],
      [merge_es_filter] of [es_common/cql_to_es.py], the driver's
      [_query_request_to_es] and the mapping of the envelope index.  [EnvelopeDoc]:
      the documents of that index ([elasticsearch_envelope/doc_builder.py]), and that
      the compiled filters fit them.
    - [EsLeaf]: the leaf clauses of the query language.  [CqlLike]: [LIKE] patterns
      and quoted literals, [es_common/cql_to_es.py] and [modules/tools/cql.py].
      [CqlEs]: the evaluator [_CqlToEsEvaluator] with all its handlers, and the
      [LIKE] and temporal handlers of the SQL back end.  [EsItems]:
      [elasticsearch/items_query.py] and [_query_request_to_es] of
      [storage/drivers/elasticsearch.py], under the seam of [AccessEs].
      [EsFields]: the field paths ([build_es_field_mapping],
      [classify_container] of [storage/computed_fields.py]).
    - [Joins]: [joins/executor.py] and [modules/tools/item_stream.py].
    - [AccessPg]: [storage/access_filter_pg.py] and the query and upsert hooks of
      [storage/drivers/pg_sidecars/access_envelope.py].
    - [AttributePredicates]: [iam/attribute_predicates.py].
    - [Conditions]: [iam/conditions.py] and [iam/audience_handlers.py], one
      definition per handler and the registry dispatch; [Handlers] has the
      theorems about single handlers.
    - [Policies]: [Policy] of [models/auth.py]; the ranking of [evaluate_access]
      and the compiler [compile_read_filter] of [iam/policies.py].
    - [Engine]: the decision against its documented rule.
    - [Drift]: the compiled filter against the decision.
    - [EffectivePolicies]: [_resolve_effective_policies], quota synthesis
      ([iam/scale_config.py]), inline statements, and the service-level entry
      points that start from stored roles and grants.
    - [Listing]: [models/protocols/visibility.py] and [iam/listing_visibility.py].
    - [AccessScope]: [storage/access_scope.py], on top of the policy service.
    - [UsageCounter]: [iam/usage_counter_{bucket,pg,valkey,layered}.py] and the
      counting primitives of [tools/cache_valkey.py].
    - [BindingCache]: [iam/phantom_token.py], and which write of the storage bumps
      which version; [RuleCache]: [iam/compiled_rule_cache.py].
    - [LocalCache]: the local backends of [tools/cache.py] and their byte budget.
      [TieredCache]: the tiered backend of the same file over Valkey, against the
      interface [CacheTier], of which a local backend is an instance.  [Cached]: the
      decorator [cached]: keys, shared rebuilds, stale serving, clears.
    - [CircuitBreaker]: [storage/circuit_breaker.py].
    - [Leases]: leader election of [db_config/locking_tools.py], on the breaker, and
      the retention of its rows ([catalog/maintenance_supervisor.py]).
    - [Scaling]: [scaling/aggregator.py] and [gcp/scaling_reconciler.py].
    - [TtlGate]: [tools/ttl_gate.py].
    - [TaskRouting]: [tasks/routing/{exec_hints,matrix,model,resolver}.py] and the
      offload rules of [tasks/execution.py].
    - [TaskQueue]: the table and the statements of [tasks/tasks_module.py],
      [tasks/maintenance.py], [tasks/dispatcher.py] and [tasks/execution.py] on
      it, as functions from table to table, and [op]/[exec]/[run], a history of
      them, and [qstep], in which the check and the insert of a creation are apart.
      [TaskQueueProofs] has its invariants, [TaskQueueCases] the witnesses
      and the histories in which code and documentation part.
    - [Dispatcher]: [_dispatch_one] and the heartbeat registry of
      [tasks/dispatcher.py], [apply_terminal_action] of [tasks/execution.py], and
      the reconciliation of lapsed runs ([tasks/reconciliation.py]).
    - [TaskListing]: the three keyset listings and the page helper of the tasks
      extension.
    - [Pmtiles]: [tiles/writers/pmtiles_writer.py], the archive assembly of
      [tasks/tiles_preseed/task.py] (a file of the package itself), and a reader
      written from the format the writer names.
    - [StoragePlane]: the table of obligations ([tasks/workclass_ddl.py]), its
      producers ([storage/storage_emit.py], the item tier of
      [storage/index_dispatcher.py]) and the row-level statements of the drain.
    - [StorageIndexer]: [elasticsearch/bulk_classify.py], [geo_shape_ladder.py]
      and the adapter [tasks/workclass_drain/es_indexer_adapter.py].
    - [StorageDrain]: [tasks/workclass_drain/storage_drain_task.py], one batch and
      the loop around it.  [StoragePlaneProofs] and [StorageDrainProofs] have the
      fence, the fate of every claimed row and the end of the loop; [StorageSync]
      the contract of an indexer ([BulkIndexer], [IndexPlane]) and the invariant of
      the outbox; [StorageEs] shows that the adapter keeps the contract;
      [StorageCases] has a cluster in memory, the witnesses and the limits;
      [StorageSweep] is [storage/obligation_sweep.py].
    - [ItemWrite]: [catalog/item_distributed.py], the write policy of
      [storage/driver_config.py], the chunk loop of [catalog/item_service.py] and the
      statements of the attributes and geometries sidecars
      ([storage/drivers/pg_sidecars]).  [ItemWriteProofs]: the batch path against the
      per-row path.  [ItemVersions]: the history of versions.  [ItemCases]: the
      witnesses and the limits of both.
    - [Routing]: [storage/routing_config.py], [storage/router.py] and
      [storage/hints.py].  [RoutingProofs]: its theorems and cases.
    - [ConfigStore]: [catalog/config_service.py], [catalog/config_snapshot.py],
      [db_config/platform_config_service.py], [db_config/stored_config_read.py] and
      the queries under them.  [ConfigProofs]: reads and checked writes.
      [ConfigVersions]: batch reads, snapshots of defaults, version tokens.
      [ConfigCases]: a class, the witnesses and the limits.
    - [IamStore]: [iam/postgres_iam_storage.py] over [iam/iam_queries.py],
      [iam/oidc_role_sync.py] and the identities of [iam/iam_service.py].
      [IamStoreProofs]: hierarchy, grants and reconciliation.  [IamIdentity]: what an
      identity resolves to, isolation of catalogs, witnesses and the limits.
    - [Demo]: the concrete deployment the access-control witnesses run on.

    ** What the theorems show

    - Translation: on filters over the fields of the envelope index the
      Elasticsearch query returns exactly the documents [admits] admits, and the
      driver conjoins it with the caller's query; the filters the compiler builds
      are such filters, and the attributes they ask for are not where the documents
      have them; the SQL clause is exact on attribute filters over text and integers
      without a deny side, never splices an unsafe key, binds every
      parameter, and fails closed; attribute predicates compile exactly.
    - Search: a covered CQL2 filter returns what its three-valued meaning says, with
      [LIKE] and the temporal operators as the SQL back end reads them; what
      cannot be translated is refused, never dropped; the whole query of a
      request is the conjunction of its parts and the access filter; doubled
      quotes survive the grammar; the streaming join is the join.
    - Decision: [evaluate_access] implements "highest priority wins, DENY on a
      tie, deny by default" and does not depend on the order of the policies; the
      compiled filter is equal to or stricter than the decision, and complete
      where it is expressible, for policies without [regex] that match the paths
      they are relevant to; the first deny grant on a role is enforced end to end.
    - Task queue, over every history of guarded statements: a task whose lease is
      renewed is taken by nobody else and only its owner's report counts, a
      completed task stays completed, attempts are bounded by the retry limits,
      a key has one live task unless two creations for it overlap, claims are
      fair, a waiting task is started, and the rows stay well formed.
    - Dispatch: one follow-on per terminal write that took effect, the heartbeat
      keeps a running task from the reaper, and chains of follow-ons end after
      [MAX_ROUTE_DEPTH] hops.
    - Task listings: resuming at a row continues exactly behind it, and what a
      client that follows the cursors of the pages sees.
    - Index outbox: no write is lost between the primary and the index (an item
      is indexed as the primary has it, or an open obligation names it, or it is
      in the seam before its obligation; a delete obligation that outlives the
      re-creation of its item breaks this for that item); terminal writes are fenced; a batch
      settles every row it claims; a drain ends; the Elasticsearch adapters keep
      the contract this rests on; the response classifier loses no document; a
      write whose obligation was lost gets one within a lookback.
    - Item writes: an ingestion of new versions completes and leaves a history in
      which every instant sees exactly the last version that starts by then; the
      batch path writes what the row-by-row path writes.
    - Routing: a lane an operator has written stays as written, whatever drivers
      are discovered later; a hinted read resolves to every reader of its lane, the
      best match first; strict lanes resolve only to drivers that honour the hints.
    - Configuration: a read gives each field the value of the nearest tier that sets
      it, and the batch read agrees; what is written is read back; a checked write
      does not change an immutable field under stored data; a snapshot of defaults
      shields a catalog from writes elsewhere; a write with a version token
      overwrites nothing unseen.
    - Identities: the roles of a caller are exactly those in force for its principal
      and what they include; a blocked principal has none; a reconciliation leaves of
      the mapped roles exactly those of the token; what is in another catalog plays no
      part; the guarded hierarchy never gets a cycle.
    - Operation: at most one process leads, and its epoch is a fencing token
      between two deletions of the row; the scaling loop stays within a connection
      budget its floor fits.
    - Caches: a revocation takes effect in every process within a bounded time, as
      long as the versions can be read and are not lost; a
      cleared value does not come back on any pod; what a cached function serves
      is of bounded age; the local caches stay within their budget.
    - PMTiles: a reader finds every tile at the bytes written for it and nothing
      else, tile ids are a bijection, and the streaming writer produces the bytes
      of the in-memory one.
    - Listings and scope: exactness, failing closed, bounded staleness,
      termination of the enumeration, isolation of the collections of one query.
    - Protection: the breaker's invariant and trip point; single flight and
      throttling of the gate over all interleavings; exact limits of
      [rate_limit] and agreement of the counter drivers.
    - Handlers and routing: who passes [catalog_admin_required], and coherent
      default routing of tasks.

    Theorems without a claim number are results of the same kind about parts of
    these components; the numbered ones are the main line.
    Several files close with lemmas, on concrete inputs, in which the code and
    its own documentation part; they also show that the hypotheses of the
    theorems of the file are needed.

    ** Parameters

    Code outside the repository is a class or an argument, and the theorems hold
    for every instance of it: [PyRuntime] (regular expressions, floats, ISO
    dates; [PyFloats]: doubles are exact on small integers), [EsEngine] (queries on
    keyword fields, whose terms are the texts of the values, and on absent fields)
    with [EnvelopeIndex] (the keyword fields are those of the mapping), [PgEngine]
    (the emitted operators, with casts of integer texts to NUMERIC), an evaluator
    being an instance of each, [Services]
    (protocols the handlers look up, the clock, handlers registered from
    elsewhere), [IamBackend] (role, policy and grant storage, identifier
    resolution, the iteration order of a Python set).  The optional package
    [pmtiles], the answers of the capability oracle and of the liveness probes,
    the result of a runner, the text PostgreSQL gives a JSON value, and the set
    of rows another transaction holds under SKIP LOCKED are arguments.
    [EsCluster] is the bulk API of Elasticsearch, and [drain_env] what a drain asks
    of others: the indexers, the re-reads, the document builders and the routing
    configuration.
    [LeafEngine] adds to [EsEngine] the documented meaning of the leaf clauses;
    the evaluator of [EsLeaf] is an instance.  The grammar of CQL2 text is
    represented by how it delimits string literals, [grammar_literals].  The fates and clocks of
    database transactions, the rounding of a percentile rank ([pct_rank]) and the
    services the sweep asks ([sweep_env]) are arguments, as are the bindings a
    revision of the database yields ([bindings_at]), the longest time between a
    commit and its bump or a read and its answer ([lag]), the size of a cached
    value ([size_of]), the values a cached function computes ([F]) and the digest
    of a long key.  The hashes and geohashes PostgreSQL generates for stored
    geometries and attributes are [hash_of], [ghash] and [ahash].  The drivers a
    deployment discovers are [registry].  What pydantic makes of a value is given
    with each field of a configuration class ([f_parse], [f_dump]), its round trips
    being the hypothesis [class_ok].
    [BoundedCounter] is the interface between the condition handlers and the
    counter drivers: the client's theorems ([rate_limit_exact] and [max_count_exact]) are proved
    against it, and the three drivers are instances.

    ** Bounds

    Times are integers (ticks or milliseconds).  JSON numbers are integers and
    strings are sequences of bytes.  The clock of the queue counts seconds and is
    an argument of each statement; task ids are integers.  Fuel: [enumerate_ids]
    has 20 pages of 500 entries, the source's ceiling of 10 000 entries, which
    is shown to be enough; a varint has [log2 n + 1] steps, the leaf directories one
    per entry, the search for the zoom level of a tile id one per level, and a
    walk over pages one per row and one more; each is shown to suffice.  A drain
    loop that runs until a time has one batch per row claimable by then and second
    gone by, and one more, which is shown to be enough; the paging of a write batch has an argument [page_fuel], and running
    out of it counts as a failed read.  An ingestion has one chunk per feature, each
    of at least one, which the history theorem shows to be enough.  The closure of a
    role hierarchy has one round per edge, which [descend_closed] shows to be enough,
    cycles included.  The sweep reads 50 pages of 200 catalogs,
    and of collections, the source's ceilings; coordinates and load signals are
    rationals where the source has floats.  Counters are unbounded integers, as in Python; the columns
    and keys behind them are 64-bit.

    ** Not modelled

    Logging, tracing ([trace_collector]) and exception messages; the [extra]
    hints of [AccessFilter]; the [filter] condition of [filter_inspectors.py],
    which is one of the handlers of [Services]; the stash of quota conditions in
    the request context by the service-level [evaluate_access] (the collection
    itself is modelled); of the tasks package the generic [update_task] (which writes
    any column without a guard, and is outside the theorems on the queue), the
    ingestion bookkeeping columns, partition maintenance, the dispatcher's polling
    loop, the runners and the base64 text of a cursor; tile rendering and upload;
    of the index outbox the synchronous fan-out of the dispatcher, retention,
    geometry simplification and the building of documents; the grammar of CQL2
    (a library), SRIDs and sorting of searches; the processes that publish load
    signals; the advisory locks beside the lease table;
    of the caches the serializers, the registry of backends, clock skew between
    processes and the token deny list;
    the storage of policies, token handling and the HTTP middleware; of identities the
    memo of role hierarchies, the attributes and custom policies of a principal, audit
    and listings;
    of item writes the preparation of features by the sidecars, collections
    partitioned by validity, place statistics and the events after the write;
    of routing the apply handlers and the routers of catalog and collection
    envelopes; of configurations the rows with a ref of their own, listings, the
    apply handlers, the memo of validated configurations and validators over
    several fields.

    ** What is left

    Of the core package: [filter_inspectors.py], [check_permission] and the
    condition step of the middleware; catalog merge-patch and life cycle; the
    execution engine around the dispatcher. *)

From stdpp Require Export base tactics list gmap strings pretty option sorting.
From Stdlib Require Export ZArith Lia Bool String Ascii.

#[global] Set Default Goal Selector "!".
#[global] Set Warnings "-register-all".
Open Scope string_scope.
Open Scope bool_scope.
Open Scope list_scope.
Open Scope Z_scope.
Abbreviation length := List.length.

(** ** Notations

    String tests of the source ([==], [in], [startswith]) are boolean
    functions; they get a scope of their own. *)

Declare Scope py_scope.
Delimit Scope py_scope with py.
Notation "a ==s b" := (String.eqb a b) (at level 70, no associativity) : py_scope.
Open Scope py_scope.

(** ** Python values

    The JSON-shaped values that the source passes around in config
    dictionaries and principal attributes.  Dictionaries keep their insertion
    order, as Python's do.  JSON numbers are integers. *)

Inductive pyval : Type :=
| VNone
| VBool (b : bool)
| VInt (z : Z)
| VStr (s : string)
| VList (l : list pyval)
| VDict (d : list (string * pyval)).

(** [d.get(k)] on an insertion-ordered dictionary. *)
Fixpoint dict_get {A} (k : string) (d : list (string * A)) : option A :=
  match d with
  | [] => None
  | (k', v) :: d' => if k ==s k' then Some v else dict_get k d'
  end.

(** [d[k] = v]: overwrite in place, or append at the end. *)
Fixpoint dict_set {A} (k : string) (v : A) (d : list (string * A)) : list (string * A) :=
  match d with
  | [] => [(k, v)]
  | (k', v') :: d' => if k ==s k' then (k', v) :: d' else (k', v') :: dict_set k v d'
  end.

(** [d.get(k)] where the value [None] and the absent key are the same. *)
Definition cfg_get (d : list (string * pyval)) (k : string) : pyval :=
  match dict_get k d with Some v => v | None => VNone end.

(** [d.get(k, default)]. *)
Definition cfg_get_or (d : list (string * pyval)) (k : string) (dflt : pyval) : pyval :=
  match dict_get k d with Some v => v | None => dflt end.

(** Truth value of an object ([bool(v)], [if v:]). *)
Definition truthy (v : pyval) : bool :=
  match v with
  | VNone => false
  | VBool b => b
  | VInt z => negb (z =? 0)
  | VStr s => negb (s ==s "")
  | VList l => match l with [] => false | _ => true end
  | VDict d => match d with [] => false | _ => true end
  end.

Definition is_VNone (v : pyval) : bool := match v with VNone => true | _ => false end.

(** ** Strings of the standard library *)

(** [needle in hay]. *)
Fixpoint str_contains (needle hay : string) : bool :=
  String.prefix needle hay ||
  match hay with
  | EmptyString => false
  | String _ hay' => str_contains needle hay'
  end.

(** [s[n:]]. *)
Fixpoint str_drop (n : nat) (s : string) : string :=
  match n, s with
  | S n', String _ s' => str_drop n' s'
  | _, _ => s
  end.

(** [s.split(c)] for a one-character separator. *)
Fixpoint str_split (c : ascii) (s : string) : list string :=
  match s with
  | EmptyString => [""]
  | String a s' =>
      if Ascii.eqb a c then "" :: str_split c s'
      else match str_split c s' with
           | w :: ws => String a w :: ws
           | [] => [String a ""]
           end
  end.

(** [str.upper] on ASCII letters. *)
Definition ascii_upper (a : ascii) : ascii :=
  let n := nat_of_ascii a in
  if (97 <=? n)%nat && (n <=? 122)%nat then ascii_of_nat (n - 32) else a.

Fixpoint str_upper (s : string) : string :=
  match s with
  | EmptyString => EmptyString
  | String a s' => String (ascii_upper a) (str_upper s')
  end.

Definition ascii_lower (a : ascii) : ascii :=
  let n := nat_of_ascii a in
  if (65 <=? n)%nat && (n <=? 90)%nat then ascii_of_nat (n + 32) else a.

(** [str.lower] on ASCII letters. *)
Fixpoint str_lower (s : string) : string :=
  match s with
  | EmptyString => EmptyString
  | String a s' => String (ascii_lower a) (str_lower s')
  end.

Definition ascii_isspace (a : ascii) : bool :=
  let n := nat_of_ascii a in
  ((9 <=? n)%nat && (n <=? 13)%nat) || ((28 <=? n)%nat && (n <=? 32)%nat).

Fixpoint str_lstrip (s : string) : string :=
  match s with
  | String a s' => if ascii_isspace a then str_lstrip s' else s
  | EmptyString => EmptyString
  end.

Fixpoint str_rev_app (s acc : string) : string :=
  match s with
  | EmptyString => acc
  | String a s' => str_rev_app s' (String a acc)
  end.

(** [s.strip()]. *)
Definition str_strip (s : string) : string :=
  str_rev_app (str_lstrip (str_rev_app (str_lstrip s) "")) "".

(** [sep.join(parts)]. *)
Definition str_join (sep : string) (parts : list string) : string :=
  String.concat sep parts.

(** Every character of [s] satisfies [p]. *)
Fixpoint str_forallb (p : ascii -> bool) (s : string) : bool :=
  match s with
  | EmptyString => true
  | String a s' => p a && str_forallb p s'
  end.

Definition str_mem (s : string) (l : list string) : bool := existsb (String.eqb s) l.

(** [list(dict.fromkeys(l))]: first occurrences, in order. *)
Fixpoint dict_fromkeys (l : list string) : list string :=
  match l with
  | [] => []
  | x :: l' => x :: filter (fun y => x <> y) (dict_fromkeys l')
  end.

(** ** The Python runtime

    The parts of the standard library whose behaviour no theorem fixes:
    regular expressions, binary floats, the textual form of containers and ISO
    dates.  Every theorem below is proved for all of them; [None] is the
    exception each call can raise ([re.error], [ValueError], [OverflowError]). *)

Class PyRuntime := {
  re_match : string -> string -> option bool;
  re_search : string -> string -> option bool;
  re_fullmatch : string -> string -> option bool;
  pyfloat : Type;
  float_of_str : string -> option pyfloat;
  float_of_int : Z -> option pyfloat;
  float_lt : pyfloat -> pyfloat -> bool;
  container_repr : pyval -> string;
  int_of_str : string -> option Z;
  (** a naive datetime, which has no place on the UTC axis, is [Some None] *)
  fromisoformat : string -> option (option Z);
}.

Section runtime.
Context `{PyRuntime}.

(** [str(v)]. *)
Definition py_str (v : pyval) : string :=
  match v with
  | VNone => "None"
  | VBool b => if b then "True" else "False"
  | VInt z => pretty z
  | VStr s => s
  | VList _ | VDict _ => container_repr v
  end.

(** [int(v)]; [None] is [ValueError] or [TypeError]. *)
Definition py_int (v : pyval) : option Z :=
  match v with
  | VInt z => Some z
  | VBool b => Some (if b then 1 else 0)
  | VStr s => int_of_str s
  | VNone | VList _ | VDict _ => None
  end.

(** [float(v)]; [None] is [ValueError], [TypeError] or [OverflowError]. *)
Definition py_float (v : pyval) : option pyfloat :=
  match v with
  | VStr s => float_of_str s
  | VInt z => float_of_int z
  | VBool b => float_of_int (if b then 1 else 0)
  | VNone | VList _ | VDict _ => None
  end.
End runtime.

(** [a == b] on JSON values: [True == 1], and dictionaries compare without
    regard to order. *)
Fixpoint py_eq (a b : pyval) {struct a} : bool :=
  match a, b with
  | VNone, VNone => true
  | VStr s, VStr t => s ==s t
  | VBool x, VBool y => Bool.eqb x y
  | VInt x, VInt y => x =? y
  | VBool x, VInt y => (if x then 1 else 0) =? y
  | VInt x, VBool y => x =? (if y then 1 else 0)
  | VList l1, VList l2 =>
      (fix go (l1 l2 : list pyval) : bool :=
         match l1, l2 with
         | [], [] => true
         | x :: l1', y :: l2' => py_eq x y && go l1' l2'
         | _, _ => false
         end) l1 l2
  | VDict d1, VDict d2 =>
      (length d1 =? length d2)%nat &&
      forallb (fun kv => match dict_get kv.1 d2 with
                         | Some v2 => py_eq kv.2 v2
                         | None => false
                         end) d1
  | _, _ => false
  end.

(** ** Exceptions and state

    Effectful code runs in [M W]: a state [W] (counters, caches, stores) is
    threaded through every call and survives a raised exception, as a mutated
    Python object does.  Exception messages are not modelled. *)

Inductive exn : Type :=
| RateLimitExceededError
| QuotaExceededError
| AccessDeniedError
| IamError
| ReError
| ValueError
| TableNotFoundError
| OtherError.

#[global] Instance exn_eq_dec : EqDecision exn.
Proof. solve_decision. Defined.

Definition M (W A : Type) : Type := W -> (exn + A) * W.

#[global] Instance M_ret W : MRet (M W) := fun A x w => (inr x, w).
#[global] Instance M_bind W : MBind (M W) := fun A B f c w =>
  match c w with
  | (inl e, w') => (inl e, w')
  | (inr x, w') => f x w'
  end.

(** Code that only raises. *)
#[global] Instance err_ret : MRet (sum exn) := fun A x => inr x.
#[global] Instance err_bind : MBind (sum exn) := fun A B f c =>
  match c with inl e => inl e | inr x => f x end.

Definition raise {W A} (e : exn) : M W A := fun w => (inl e, w).
Definition get_state {W} : M W W := fun w => (inr w, w).
Definition put_state {W} (w : W) : M W () := fun _ => (inr (), w).

(** The computation returns [x] in every state and changes nothing. *)
Definition pure_result {W A} (c : M W A) (x : A) : Prop := forall w, c w = (inr x, w).

(** ** Automation *)

Create HintDb dyn.

(** Split boolean conjunctions and equations in the context. *)
Ltac bool_hyps :=
  repeat match goal with
  | H : _ && _ = true |- _ => apply andb_true_iff in H as [? ?]
  | H : _ || _ = false |- _ => apply orb_false_iff in H as [? ?]
  | H : negb _ = true |- _ => apply negb_true_iff in H
  | H : negb _ = false |- _ => apply negb_false_iff in H
  | H : (_ ==s _) = true |- _ => apply String.eqb_eq in H
  | H : (_ ==s _) = false |- _ => apply String.eqb_neq in H
  | H : (_ =? _) = true |- _ => apply Z.eqb_eq in H
  | H : (_ =? _) = false |- _ => apply Z.eqb_neq in H
  | H : (_ <=? _) = true |- _ => apply Z.leb_le in H
  | H : (_ <=? _) = false |- _ => apply Z.leb_gt in H
  | H : (_ <? _) = true |- _ => apply Z.ltb_lt in H
  | H : (_ <? _) = false |- _ => apply Z.ltb_ge in H
  end.

(** Case analysis on the scrutinee of the first [match]/[if] of the goal. *)
Ltac case_goal :=
  match goal with
  | |- context [match ?x with _ => _ end] => let E := fresh "E" in destruct x eqn:E
  end.

Ltac cases := repeat (case_goal; simplify_eq/=; try done).

(** ** Generic lemmas *)

Lemma str_mem_In s l : str_mem s l = true <-> s ∈ l.
Proof.
  unfold str_mem. rewrite existsb_exists. setoid_rewrite list_elem_of_In.
  setoid_rewrite String.eqb_eq. naive_solver.
Qed.

Lemma str_mem_false s l : str_mem s l = false <-> s ∉ l.
Proof. rewrite <- str_mem_In. by destruct (str_mem s l); naive_solver. Qed.

Lemma elem_of_dict_fromkeys x l : x ∈ dict_fromkeys l <-> x ∈ l.
Proof.
  induction l as [|y l IH]; [done|]; simpl.
  rewrite !elem_of_cons, list_elem_of_filter, IH.
  destruct (decide (x = y)); naive_solver.
Qed.

Lemma dict_fromkeys_NoDup l : NoDup (dict_fromkeys l).
Proof.
  induction l as [|y l IH]; simpl; constructor.
  - rewrite list_elem_of_filter. naive_solver.
  - by apply NoDup_filter.
Qed.

Lemma str_mem_dict_fromkeys x l : str_mem x (dict_fromkeys l) = str_mem x l.
Proof. apply eq_true_iff_eq. by rewrite !str_mem_In, elem_of_dict_fromkeys. Qed.

Lemma str_mem_app x l1 l2 : str_mem x (l1 ++ l2) = str_mem x l1 || str_mem x l2.
Proof. apply existsb_app. Qed.

Lemma existsb_map {A B} (f : A -> B) (p : B -> bool) l :
  existsb p (map f l) = existsb (fun x => p (f x)) l.
Proof. induction l; simpl; congruence. Qed.

Lemma forallb_map {A B} (f : A -> B) (p : B -> bool) l :
  forallb p (map f l) = forallb (fun x => p (f x)) l.
Proof. induction l; simpl; congruence. Qed.

Lemma existsb_ext {A} (p q : A -> bool) l :
  (forall x, x ∈ l -> p x = q x) -> existsb p l = existsb q l.
Proof.
  induction l as [|x l IH]; intros Hpq; simpl; [done|].
  rewrite (Hpq x), IH; [done| |]; set_solver.
Qed.

Lemma forallb_ext_in {A} (p q : A -> bool) l :
  (forall x, x ∈ l -> p x = q x) -> forallb p l = forallb q l.
Proof.
  induction l as [|x l IH]; intros Hpq; simpl; [done|].
  rewrite (Hpq x), IH; [done| |]; set_solver.
Qed.

Lemma existsb_elem {A} (p : A -> bool) l :
  existsb p l = true <-> exists x, x ∈ l /\ p x = true.
Proof. rewrite existsb_exists. by setoid_rewrite list_elem_of_In. Qed.

Lemma existsb_none {A} (p : A -> bool) l :
  existsb p l = false <-> forall x, x ∈ l -> p x = false.
Proof.
  split.
  - intros Hf x Hx. destruct (p x) eqn:E; [|done].
    by rewrite <- Hf; symmetry; apply existsb_elem; eauto.
  - intros Hall. destruct (existsb p l) eqn:E; [|done].
    apply existsb_elem in E as (x & Hx & Hp). by rewrite Hall in Hp.
Qed.

Lemma forallb_elem {A} (p : A -> bool) l :
  forallb p l = true <-> forall x, x ∈ l -> p x = true.
Proof. rewrite forallb_forall. by setoid_rewrite list_elem_of_In. Qed.

Lemma dict_get_app {A} k (d1 d2 : list (string * A)) :
  dict_get k (d1 ++ d2) = match dict_get k d1 with Some v => Some v | None => dict_get k d2 end.
Proof. induction d1 as [|[k' v] d1 IH]; simpl; [done|]. by destruct (k ==s k'). Qed.

Lemma dict_get_in_keys {A} k (v : A) d : dict_get k d = Some v -> k ∈ map fst d.
Proof.
  induction d as [|[k' v'] d IH]; simpl; [done|]. destruct (k ==s k') eqn:E; intros; bool_hyps; set_solver.
Qed.

Lemma in_keys_dict_get {A} k (d : list (string * A)) : k ∈ map fst d -> exists v, dict_get k d = Some v.
Proof.
  induction d as [|[k' v'] d IH]; simpl; [by intros ?%elem_of_nil|].
  destruct (k ==s k') eqn:E; [eauto|]. intros [->|?]%elem_of_cons; [|auto].
  by rewrite String.eqb_refl in E.
Qed.

Lemma dict_get_set_eq {A} k (v : A) d : dict_get k (dict_set k v d) = Some v.
Proof.
  induction d as [|[k' v'] d IH]; simpl.
  - by rewrite String.eqb_refl.
  - destruct (k ==s k') eqn:E; simpl; by rewrite E.
Qed.

Lemma dict_get_set_ne {A} k k' (v : A) d :
  k <> k' -> dict_get k' (dict_set k v d) = dict_get k' d.
Proof.
  intros Hne. induction d as [|[k1 v1] d IH]; simpl.
  - by rewrite (proj2 (String.eqb_neq k' k)) by congruence.
  - destruct (k ==s k1) eqn:E; simpl; [|by rewrite IH].
    bool_hyps; subst. by rewrite (proj2 (String.eqb_neq k' k1)) by congruence.
Qed.

Lemma dict_get_filter {A} (keep : string -> bool) k (d : list (string * A)) :
  dict_get k (List.filter (fun kv => keep kv.1) d) = if keep k then dict_get k d else None.
Proof.
  induction d as [|[k' v] d IH]; cbn; [by destruct (keep k)|].
  destruct (keep k') eqn:E; cbn; rewrite IH; destruct (String.eqb_spec k k') as [->|]; try done.
  - by rewrite E.
  - by rewrite E.
Qed.

Create Rewrite HintDb dyn.
#[export] Hint Rewrite @str_mem_app @str_mem_dict_fromkeys @dict_get_set_eq : dyn.

(** ** Strings: concatenation, prefixes, decimal digits *)

Lemma str_app_cons c (a b : string) : String c a +:+ b = String c (a +:+ b).
Proof. done. Qed.

Lemma str_app_assoc (a b c : string) : a +:+ (b +:+ c) = (a +:+ b) +:+ c.
Proof. induction a as [|x a IH]; [done|]. by rewrite !str_app_cons, IH. Qed.

Lemma str_app_inj_l (a b c : string) : a +:+ b = a +:+ c -> b = c.
Proof. induction a as [|x a IH]; [done|]. rewrite !str_app_cons. by intros [= ?%IH]. Qed.

Lemma prefix_drop (p s : string) :
  String.prefix p s = true -> s = p +:+ str_drop (String.length p) s.
Proof.
  revert s. induction p as [|a p IH]; intros s Hp; [by destruct s|].
  destruct s as [|b s]; [done|]. simpl in Hp. rewrite str_app_cons.
  destruct (ascii_dec a b) as [->|]; [|done]. simpl. by rewrite <- IH.
Qed.

Lemma prefix_app_same (a b c : string) : String.prefix (a +:+ b) (a +:+ c) = String.prefix b c.
Proof.
  induction a as [|x a IH]; [done|]. rewrite !str_app_cons. simpl. destruct (ascii_dec x x); [exact IH|congruence].
Qed.

Lemma prefix_sep_free (sep : ascii) ns d :
  str_forallb (fun a => negb (Ascii.eqb a sep)) d = true -> String.prefix (ns +:+ String sep "") d = false.
Proof.
  revert d. induction ns as [|a ns IH]; intros [|b d] Hd; try done; simpl in *.
  - apply andb_prop in Hd as [Hb _]. destruct (ascii_dec sep b) as [->|]; [|done].
    by rewrite Ascii.eqb_refl in Hb.
  - apply andb_prop in Hd as [_ Hd]. destruct (ascii_dec a b); [by apply IH|done].
Qed.

Lemma prefix_longer (s t : string) (a : ascii) : String.prefix (s +:+ String a t) s = false.
Proof.
  induction s as [|b s IH]; [done|]. rewrite str_app_cons. simpl. destruct (ascii_dec b b); [exact IH|done].
Qed.

(** A text whose start, at least as long as [ns], has no separator, and does not
    continue with one, does not start with [ns] and the separator. *)
Lemma prefix_sep_short (sep : ascii) ns a rest :
  str_forallb (fun x => negb (Ascii.eqb x sep)) a = true -> (String.length ns <= String.length a)%nat ->
  match rest with EmptyString => True | String c _ => c <> sep end ->
  String.prefix (ns +:+ String sep "") (a +:+ rest) = false.
Proof.
  revert a. induction ns as [|c ns IH]; intros [|b a] Ha Hl Hr; simpl in Hl; try lia.
  - destruct rest as [|x rest]; [done|]. change (String.prefix (String sep "") (String x rest) = false).
    simpl. destruct (ascii_dec sep x); [congruence|done].
  - change (String.prefix (String sep "") (String b (a +:+ rest)) = false). simpl in *.
    destruct (ascii_dec sep b) as [->|]; [|done]. by rewrite Ascii.eqb_refl in Ha.
  - rewrite !str_app_cons. simpl. destruct (ascii_dec c b); [|done]. apply IH; [|lia|done].
    simpl in Ha. by apply andb_prop in Ha as [_ ?].
Qed.

(** Splitting at the first occurrence of a separator is unambiguous. *)
Lemma str_sep_inj (sep : ascii) (a1 a2 r1 r2 : string) :
  str_forallb (fun c => negb (Ascii.eqb c sep)) a1 = true ->
  str_forallb (fun c => negb (Ascii.eqb c sep)) a2 = true ->
  a1 +:+ String sep r1 = a2 +:+ String sep r2 -> a1 = a2 /\ r1 = r2.
Proof.
  revert a2. induction a1 as [|c a1 IH]; intros [|c2 a2] H1 H2 Heq;
    rewrite ?str_app_cons in Heq; simpl in H1, H2; bool_hyps.
  - by injection Heq as ->.
  - injection Heq as -> _. by rewrite Ascii.eqb_refl in *.
  - injection Heq as -> _. by rewrite Ascii.eqb_refl in *.
  - injection Heq as -> Heq. by destruct (IH a2) as [-> ->].
Qed.

Definition is_digit (c : ascii) : bool :=
  let n := nat_of_ascii c in (48 <=? n)%nat && (n <=? 57)%nat.

Lemma pretty_N_go_digits x s :
  str_forallb is_digit s = true -> str_forallb is_digit (pretty_N_go x s) = true.
Proof.
  revert s. induction (N.lt_wf_0 x) as [x _ IH]; intros s Hs.
  destruct (decide (0 < x)%N) as [Hx|Hx].
  - rewrite pretty_N_go_step by done. apply IH; [by apply N.div_lt|].
    simpl. rewrite Hs, andb_true_r.
    assert (x `mod` 10 < 10)%N as Hm by by apply N.mod_lt.
    remember (x `mod` 10)%N as m. clear -Hm.
    do 10 (destruct m as [|m] using N.peano_ind; [done|]; clear IHm).
    lia.
  - assert (x = 0%N) as -> by lia. by rewrite pretty_N_go_0.
Qed.

Lemma pretty_N_digits (n : N) : str_forallb is_digit (pretty n) = true.
Proof. unfold pretty, pretty_N. case_decide; [done|by apply pretty_N_go_digits]. Qed.

Lemma pretty_nat_digits (n : nat) : str_forallb is_digit (pretty n) = true.
Proof. apply pretty_N_digits. Qed.

Lemma str_forallb_impl (p q : ascii -> bool) s :
  (forall c, p c = true -> q c = true) -> str_forallb p s = true -> str_forallb q s = true.
Proof. intros Hpq. induction s; simpl; intros; bool_hyps; [done|]. rewrite Hpq, IHs; done. Qed.

(** Colon-separated keys. *)
Definition not_colon (a : ascii) : bool := negb (Ascii.eqb a ":").

Definition colon_free (s : string) : bool := str_forallb not_colon s.

Lemma colon_free_app a b : colon_free (a +:+ String ":" b) = false.
Proof. induction a as [|x a IH]; simpl; [done|]. unfold colon_free in *. by rewrite str_app_cons; simpl; rewrite IH, andb_false_r. Qed.

(** Splitting at the last colon. *)
Lemma str_rsep_inj a a' d d' :
  colon_free d = true -> colon_free d' = true -> a +:+ String ":" d = a' +:+ String ":" d' -> a = a' /\ d = d'.
Proof.
  intros Hd Hd'. revert a'. induction a as [|x a IH]; intros [|x' a'] Heq; rewrite ?str_app_cons in Heq.
  - by injection Heq as ->.
  - injection Heq as _ ->. by rewrite colon_free_app in Hd.
  - injection Heq as _ <-. by rewrite colon_free_app in Hd'.
  - injection Heq as -> Heq. by destruct (IH _ Heq) as [-> ->].
Qed.

Lemma digits_colon_free s : str_forallb is_digit s = true -> colon_free s = true.
Proof.
  apply str_forallb_impl. intros c. unfold is_digit, not_colon.
  destruct (Ascii.eqb_spec c ":"); [by subst|done].
Qed.

Lemma pretty_colon_free (z : Z) : colon_free (pretty z) = true.
Proof.
  destruct z as [|p|p]; [done|..].
  - apply digits_colon_free. apply (pretty_N_digits (Npos p)).
  - change (pretty (Zneg p)) with ("-" +:+ pretty (Npos p)). rewrite str_app_cons. unfold colon_free; simpl.
    apply digits_colon_free, pretty_N_digits.
Qed.

(** Bind of a pure result. *)
Lemma bind_pure {W A B} (c : M W A) (f : A -> M W B) x w :
  pure_result c x -> (c ≫= f) w = f x w.
Proof. intros Hc. unfold mbind, M_bind. by rewrite Hc. Qed.

Lemma ret_pure {W A} (x : A) : pure_result (mret x : M W A) x.
Proof. done. Qed.

#[export] Hint Resolve ret_pure : dyn.

(** ** A concrete runtime

    Used by the witnesses: literal patterns with an optional trailing [.*], an
    unbalanced parenthesis being the one invalid pattern; decimal integers as
    floats; dates as plain integers. *)

Fixpoint digits_val (s : string) (acc : Z) : option Z :=
  match s with
  | EmptyString => Some acc
  | String a s' =>
      let n := Z.of_nat (nat_of_ascii a) - 48 in
      if (0 <=? n) && (n <=? 9) then digits_val s' (10 * acc + n) else None
  end.

Definition parse_int (s : string) : option Z :=
  match s with
  | EmptyString => None
  | String "-"%char (String _ _ as s') => option_map Z.opp (digits_val s' 0)
  | _ => digits_val s 0
  end.

(** [Some (literal, wild)]: the pattern is [literal], with [.*] after it. *)
Fixpoint demo_pattern (p : string) : option (string * bool) :=
  match p with
  | EmptyString => Some ("", false)
  | String "."%char (String "*"%char EmptyString) => Some ("", true)
  | String "("%char _ => None
  | String a p' =>
      match demo_pattern p' with
      | Some (l, w) => Some (String a l, w)
      | None => None
      end
  end.

Definition demo_runtime : PyRuntime := {|
  re_match p s := option_map (fun lw => String.prefix lw.1 s) (demo_pattern p);
  re_search p s := option_map (fun lw => str_contains lw.1 s) (demo_pattern p);
  re_fullmatch p s :=
    option_map (fun lw => if lw.2 : bool then String.prefix lw.1 s else lw.1 ==s s)
      (demo_pattern p);
  pyfloat := Z;
  float_of_str := parse_int;
  float_of_int z := Some z;
  float_lt := Z.ltb;
  container_repr _ := "[...]";
  int_of_str := parse_int;
  fromisoformat s := option_map Some (parse_int s);
|}.

#[global] Arguments str_drop : simpl never.
#[global] Arguments String.prefix : simpl never.
