(* ===== verification/AccessFilter.v ===== *)
(** * The neutral access filter

    [models/protocols/access_filter.py]: the backend-neutral projection of a
    read-authorization decision, its reference semantics [admits], and its
    combinators.  The file opens with the document plane the predicates range
    over, then has one definition per class or method, then the laws the
    translators (AccessEs, AccessPg) and the compiler (Policies) rely on. *)

From S2P Require Import Prelude.

(** ** Documents

    An envelope document maps field names to JSON scalars or to arrays of
    scalars (the two shapes [FieldPredicate.matches] distinguishes). *)

Inductive scalar : Type :=
| SNone
| SBool (b : bool)
| SInt (z : Z)
| SStr (s : string).

Inductive docval : Type :=
| DScalar (v : scalar)
| DSeq (l : list scalar).

Abbreviation document := (list (string * docval)).

(** [document.get(field)]. *)
Definition doc_get (d : document) (f : string) : docval :=
  match dict_get f d with Some v => v | None => DScalar SNone end.

Definition scalar_py (v : scalar) : pyval :=
  match v with
  | SNone => VNone | SBool b => VBool b | SInt z => VInt z | SStr s => VStr s
  end.

Definition docval_py (v : docval) : pyval :=
  match v with DScalar s => scalar_py s | DSeq l => VList (map scalar_py l) end.

(** The text a store compares for a scalar. *)
Definition scalar_text (v : scalar) : option string :=
  match v with SStr s => Some s | SInt z => Some (pretty z) | _ => None end.

(** ** Predicates *)

Record FieldPredicate : Type := mkFP { fp_field : string; fp_values : list string }.

Inductive range_op : Type := Lte | Gte | Between | OtherOp (op : string).
Inductive range_kind : Type := Numeric | Timestamp.

Record RangePredicate : Type := mkRP {
  rp_field : string;
  rp_op : range_op;
  rp_bounds : list string;
  rp_kind : range_kind;
}.

Inductive predicate : Type :=
| PField (p : FieldPredicate)
| PRange (p : RangePredicate).

#[global] Instance range_op_eq_dec : EqDecision range_op.
Proof. solve_decision. Defined.
#[global] Instance range_kind_eq_dec : EqDecision range_kind.
Proof. solve_decision. Defined.
#[global] Instance FieldPredicate_eq_dec : EqDecision FieldPredicate.
Proof. solve_decision. Defined.
#[global] Instance RangePredicate_eq_dec : EqDecision RangePredicate.
Proof. solve_decision. Defined.
#[global] Instance predicate_eq_dec : EqDecision predicate.
Proof. solve_decision. Defined.

(** [v in set(values)]: only a string can equal a member of a set of strings. *)
Definition scalar_in (values : list string) (v : scalar) : bool :=
  match v with SStr s => str_mem s values | _ => false end.

Definition field_matches (p : FieldPredicate) (d : document) : bool :=
  match doc_get d (fp_field p) with
  | DSeq l => existsb (scalar_in (fp_values p)) l
  | DScalar v => scalar_in (fp_values p) v
  end.

(** [bounds[i]].  The tuple has the arity of the operator (see [range_wf]);
    outside it the source raises [IndexError]. *)
Definition bound (p : RangePredicate) (i : nat) : string := nth i (rp_bounds p) "".

Definition range_wf (p : RangePredicate) : bool :=
  match rp_op p with
  | Lte | Gte => (length (rp_bounds p) =? 1)%nat
  | Between => (length (rp_bounds p) =? 2)%nat
  | OtherOp _ => true
  end.

Section access_filter.
Context `{PyRuntime}.

(** The local function [_cmp] of [RangePredicate.matches]. *)
Definition range_cmp (a b : string) : Z :=
  match float_of_str a, float_of_str b with
  | Some fa, Some fb =>
      (if float_lt fb fa then 1 else 0) - (if float_lt fa fb then 1 else 0)
  | _, _ =>
      match String.compare a b with Lt => -1 | Eq => 0 | Gt => 1 end
  end.

Definition range_matches (p : RangePredicate) (d : document) : bool :=
  match doc_get d (rp_field p) with
  | DScalar SNone => false
  | actual =>
      let actual_s := py_str (docval_py actual) in
      match rp_op p with
      | Lte => range_cmp actual_s (bound p 0) <=? 0
      | Gte => 0 <=? range_cmp actual_s (bound p 0)
      | Between =>
          (0 <=? range_cmp actual_s (bound p 0)) &&
          (range_cmp actual_s (bound p 1) <=? 0)
      | OtherOp _ => false
      end
  end.

Definition predicate_matches (p : predicate) (d : document) : bool :=
  match p with
  | PField q => field_matches q d
  | PRange q => range_matches q d
  end.
End access_filter.

(** ** Clauses and filters *)

Record AccessClause : Type := mkClause { predicates : list predicate }.

#[global] Instance AccessClause_eq_dec : EqDecision AccessClause.
Proof. solve_decision. Defined.

Definition predicate_wf (p : predicate) : bool :=
  match p with PField _ => true | PRange q => range_wf q end.
Definition clause_wf (c : AccessClause) : bool := forallb predicate_wf (predicates c).

Unset Elimination Schemes.
Inductive AccessFilter : Type := mkFilter {
  deny_all : bool;
  allow_all : bool;
  allow : list AccessClause;
  deny : list AccessClause;
  uncompilable : bool;
  union : list AccessFilter;
}.
Set Elimination Schemes.

(** Induction with the hypothesis for every sub-filter of [union]. *)
Section filter_induction.
Context (P : AccessFilter -> Prop)
        (Hmk : forall da aa al de un us, Forall P us -> P (mkFilter da aa al de un us)).

Fixpoint AccessFilter_ind (f : AccessFilter) : P f :=
  match f with
  | mkFilter da aa al de un us =>
      Hmk da aa al de un us
        ((fix go (l : list AccessFilter) : Forall P l :=
            match l with
            | [] => Forall_nil_2 P
            | g :: l' => Forall_cons_2 P g l' (AccessFilter_ind g) (go l')
            end) us)
  end.
End filter_induction.

Fixpoint filter_wf (f : AccessFilter) : bool :=
  match f with
  | mkFilter _ _ al de _ us =>
      forallb clause_wf al && forallb clause_wf de && forallb filter_wf us
  end.

Definition deny_everything (unc : bool) : AccessFilter := mkFilter true false [] [] unc [].
Definition allow_everything : AccessFilter := mkFilter false true [] [] false [].

Definition from_clauses (al de : list AccessClause) (unc : bool) : AccessFilter :=
  match al with
  | [] => deny_everything unc
  | _ => mkFilter false false al de unc []
  end.

(** [dataclasses.replace(sub, uncompilable=True)]. *)
Definition set_uncompilable (f : AccessFilter) : AccessFilter :=
  mkFilter (deny_all f) (allow_all f) (allow f) (deny f) true (union f).

Definition union_of (sub_filters : list AccessFilter) : AccessFilter :=
  let any_uncompilable := existsb uncompilable sub_filters in
  match List.filter (fun s => negb (deny_all s)) sub_filters with
  | [] => deny_everything any_uncompilable
  | [sub] => if any_uncompilable && negb (uncompilable sub) then set_uncompilable sub else sub
  | live => mkFilter false false [] [] any_uncompilable live
  end.

Definition is_unconditional (f : AccessFilter) : bool :=
  allow_all f && negb (deny_all f) &&
  match deny f with [] => true | _ => false end &&
  match union f with [] => true | _ => false end.

Section admits.
Context `{PyRuntime}.

Definition clause_matches (c : AccessClause) (d : document) : bool :=
  forallb (fun p => predicate_matches p d) (predicates c).

Fixpoint admits (f : AccessFilter) (d : document) : bool :=
  match f with
  | mkFilter da aa al de _ us =>
      if da then false
      else match us with
           | [] =>
               if existsb (fun c => clause_matches c d) de then false
               else if aa then true
               else existsb (fun c => clause_matches c d) al
           | _ => existsb (fun s => admits s d) us
           end
  end.

(** ** Laws *)

Lemma admits_deny_everything unc d : admits (deny_everything unc) d = false.
Proof. done. Qed.

Lemma admits_set_uncompilable f d : admits (set_uncompilable f) d = admits f d.
Proof. by destruct f. Qed.

Lemma deny_all_admits f d : deny_all f = true -> admits f d = false.
Proof. destruct f; simpl; by intros ->. Qed.

(** Dropping the [deny_all] branches of an OR keeps its value. *)
Lemma existsb_live fs d :
  existsb (fun s => admits s d) (List.filter (fun s => negb (deny_all s)) fs)
  = existsb (fun s => admits s d) fs.
Proof.
  induction fs as [|f fs IH]; simpl; [done|].
  destruct (deny_all f) eqn:E; simpl; rewrite IH; [|done].
  by rewrite deny_all_admits.
Qed.

(** The documented behaviour of [union_of]: a disjunction of the complete
    sub-filters, whatever the reductions it applies. *)
Lemma union_of_spec fs d : admits (union_of fs) d = existsb (fun s => admits s d) fs.
Proof.
  rewrite <- existsb_live. unfold union_of.
  destruct (List.filter _ fs) as [|f [|g l]]; simpl; [done| |done].
  rewrite orb_false_r. case_goal; [apply admits_set_uncompilable|done].
Qed.

Lemma from_clauses_spec al de unc d :
  admits (from_clauses al de unc) d =
  existsb (fun c => clause_matches c d) al &&
  negb (existsb (fun c => clause_matches c d) de).
Proof.
  destruct al as [|c al]; [done|].
  unfold from_clauses; cbn [admits].
  destruct (existsb _ de); [by rewrite andb_false_r|by rewrite andb_true_r].
Qed.

(** A document matched by a deny clause is excluded whatever is allowed. *)
Lemma deny_wins f c d :
  union f = [] -> c ∈ deny f -> clause_matches c d = true -> admits f d = false.
Proof.
  destruct f as [da aa al de un us]; simpl; intros -> Hc Hm.
  destruct da; [done|].
  by rewrite (proj2 (existsb_elem (fun c => clause_matches c d) de)) by eauto.
Qed.
End admits.

#[export] Hint Resolve admits_deny_everything deny_all_admits deny_wins : dyn.
