(* ===== verification/CqlLike.v ===== *)
(** * CQL2 text: [LIKE] patterns and quoted literals

    The text-level half of the CQL2 support: the [LIKE] pattern walks of
    [storage/drivers/es_common/cql_to_es.py] (Elasticsearch) and of
    [tools/cql.py] (PostgreSQL), and the quote pre-processing that lets the
    bundled grammar read a doubled quote.

    A [LIKE] pattern means the list of tokens of [iter_like_tokens]; [glob]
    says which texts such a list matches.  The two back ends read the pattern
    they are sent with their own syntax: [sql_like_tokens] is SQL's
    [LIKE ... ESCAPE e], [lucene_tokens] the [wildcard] query.  The theorems
    compare what the back end reads with what the CQL2 pattern means. *)

From S2P Require Import Prelude.

(** ** The meaning of a pattern *)

Inductive like_token : Type :=
| TWildcard
| TSingle
| TLiteral (c : ascii).

#[export] Instance like_token_eq_dec : EqDecision like_token.
Proof. solve_decision. Defined.

Section glob.
(** When two characters match: equality, or equality up to case. *)
Context (same : ascii -> ascii -> bool).

Fixpoint glob (ts : list like_token) (s : string) : bool :=
  match ts with
  | [] => match s with EmptyString => true | _ => false end
  | TLiteral c :: ts =>
      match s with String c' s' => same c c' && glob ts s' | EmptyString => false end
  | TSingle :: ts =>
      match s with String _ s' => glob ts s' | EmptyString => false end
  | TWildcard :: ts =>
      (fix any (s : string) : bool :=
         glob ts s || match s with String _ s' => any s' | EmptyString => false end) s
  end.

(** A wildcard matches any text: the rest of the pattern matches a suffix. *)
Lemma glob_wildcard ts s :
  glob (TWildcard :: ts) s = true <-> exists a b, s = a +:+ b /\ glob ts b = true.
Proof.
  split.
  - induction s as [|c s IH]; cbn [glob].
    + rewrite orb_false_r. by exists "", "".
    + intros [E|E]%orb_true_iff; [by exists "", (String c s)|].
      destruct (IH E) as (a & b & -> & Hb). by exists (String c a), b.
  - intros (a & b & -> & Hb). induction a as [|c a IH].
    + change ("" +:+ b) with b. destruct b; cbn [glob]; by rewrite Hb.
    + rewrite str_app_cons. cbn [glob]. apply orb_true_iff; right. exact IH.
Qed.
End glob.

Definition same_char (nocase : bool) (a b : ascii) : bool :=
  if nocase then Ascii.eqb (ascii_lower a) (ascii_lower b) else Ascii.eqb a b.

(** ** [es_common/cql_to_es.py] *)

Section pattern.
Context (wildcard single_char escape_char : ascii).

(** [pattern[i + 1] in (wildcard, single_char, escape_char)] *)
Definition escapable (c : ascii) : bool :=
  Ascii.eqb c wildcard || Ascii.eqb c single_char || Ascii.eqb c escape_char.

Definition plain_token (ch : ascii) : like_token :=
  if Ascii.eqb ch wildcard then TWildcard
  else if Ascii.eqb ch single_char then TSingle
  else TLiteral ch.

Fixpoint iter_like_tokens (pattern : string) : list like_token :=
  match pattern with
  | EmptyString => []
  | String ch rest =>
      match rest with
      | String nx rest' =>
          if Ascii.eqb ch escape_char && escapable nx
          then TLiteral nx :: iter_like_tokens rest'
          else plain_token ch :: iter_like_tokens rest
      | EmptyString => [plain_token ch]
      end
  end.

Definition like_to_wildcard (value : string) : string :=
  str_join "" (map (fun t => match t with
                             | TWildcard => "*"
                             | TSingle => "?"
                             | TLiteral ch => String ch ""
                             end) (iter_like_tokens value)).

Definition like_to_match_text (value : string) : string :=
  str_strip (str_join "" (map (fun t => match t with
                                        | TWildcard | TSingle => " "
                                        | TLiteral ch => String ch ""
                                        end) (iter_like_tokens value))).

(** ** [tools/cql.py] *)

Definition sql_special (c : ascii) : bool :=
  Ascii.eqb c "%" || Ascii.eqb c "_" || Ascii.eqb c escape_char.

Fixpoint cql_like_pattern_to_sql (pattern : string) : string :=
  match pattern with
  | EmptyString => ""
  | String ch rest =>
      let plain :=
        if Ascii.eqb ch wildcard then "%"
        else if Ascii.eqb ch single_char then "_"
        else if sql_special ch then String escape_char (String ch "")
        else String ch "" in
      match rest with
      | String nx rest' =>
          if Ascii.eqb ch escape_char && escapable nx
          then (if sql_special nx then String escape_char (String nx "") else String nx "")
               +:+ cql_like_pattern_to_sql rest'
          else plain +:+ cql_like_pattern_to_sql rest
      | EmptyString => plain
      end
  end.
End pattern.

(** ** What the back ends read *)

(** SQL: [LIKE pattern ESCAPE escape].  A pattern that ends in the escape
    character is an error. *)
Fixpoint sql_like_tokens (escape : ascii) (p : string) : option (list like_token) :=
  match p with
  | EmptyString => Some []
  | String c rest =>
      if Ascii.eqb c escape then
        match rest with
        | String c' rest' => cons (TLiteral c') <$> sql_like_tokens escape rest'
        | EmptyString => None
        end
      else cons (if Ascii.eqb c "%" then TWildcard
                 else if Ascii.eqb c "_" then TSingle
                 else TLiteral c) <$> sql_like_tokens escape rest
  end.

(** The [wildcard] query: ["*"], ["?"], and a backslash that takes the next
    character literally (a final one stands for itself). *)
Fixpoint lucene_tokens (p : string) : list like_token :=
  match p with
  | EmptyString => []
  | String c rest =>
      if Ascii.eqb c "*" then TWildcard :: lucene_tokens rest
      else if Ascii.eqb c "?" then TSingle :: lucene_tokens rest
      else if Ascii.eqb c "\" then
        match rest with
        | String c' rest' => TLiteral c' :: lucene_tokens rest'
        | EmptyString => [TLiteral c]
        end
      else TLiteral c :: lucene_tokens rest
  end.

(** ** Lemmas *)

(** Python's two-character step: induction that may drop two characters. *)
Lemma string_ind2 (P : string -> Prop) :
  P "" -> (forall a, P (String a "")) ->
  (forall a b s, P (String b s) -> P s -> P (String a (String b s))) ->
  forall s, P s.
Proof.
  intros H0 H1 H2 s. enough (P s /\ forall a, P (String a s)) by tauto.
  induction s as [|b s [IH1 IH2]]; [eauto|]. split; [apply IH2|]. intros a; auto.
Qed.

Lemma str_app_nil_r (s : string) : s +:+ "" = s.
Proof. induction s as [|c s IH]; [done|]. by rewrite str_app_cons, IH. Qed.

Lemma str_join_nil (l : list string) : str_join "" l = foldr (fun a b => a +:+ b) "" l.
Proof.
  unfold str_join. induction l as [|a [|b l] IH]; [done| |].
  - cbn. by rewrite str_app_nil_r.
  - cbn [String.concat foldr] in *. by rewrite IH.
Qed.

Definition sql_token (escape_char : ascii) (t : like_token) : string :=
  match t with
  | TWildcard => "%"
  | TSingle => "_"
  | TLiteral c => if sql_special escape_char c then String escape_char (String c "") else String c ""
  end.

Lemma iter_like_step w s e a b p :
  iter_like_tokens w s e (String a (String b p)) =
  if Ascii.eqb a e && escapable w s e b
  then TLiteral b :: iter_like_tokens w s e p
  else plain_token w s a :: iter_like_tokens w s e (String b p).
Proof. done. Qed.

Lemma sql_like_step w s e a b p :
  cql_like_pattern_to_sql w s e (String a (String b p)) =
  if Ascii.eqb a e && escapable w s e b
  then sql_token e (TLiteral b) +:+ cql_like_pattern_to_sql w s e p
  else sql_token e (plain_token w s a) +:+ cql_like_pattern_to_sql w s e (String b p).
Proof.
  cbn [cql_like_pattern_to_sql]. unfold plain_token. case_goal; [done|].
  destruct (Ascii.eqb a w); [done|]. by destruct (Ascii.eqb a s).
Qed.

(** The two walks classify every character alike. *)
Lemma sql_walk_tokens w s e p :
  cql_like_pattern_to_sql w s e p =
  foldr (fun t b => sql_token e t +:+ b) "" (iter_like_tokens w s e p).
Proof.
  induction p as [|a|a b p IH1 IH2] using string_ind2; [done| |].
  - cbn. rewrite str_app_nil_r. unfold plain_token.
    by destruct (Ascii.eqb a w), (Ascii.eqb a s).
  - rewrite sql_like_step, iter_like_step.
    case_goal; cbn [foldr]; by rewrite ?IH1, ?IH2.
Qed.

(** SQL reads a token back as it was written. *)
Lemma sql_token_read e t p :
  Ascii.eqb "%" e = false -> Ascii.eqb "_" e = false ->
  sql_like_tokens e (sql_token e t +:+ p) = cons t <$> sql_like_tokens e p.
Proof.
  intros H1 H2. unfold sql_token, sql_special.
  destruct t as [| |c];
    [change ("%" +:+ p) with (String "%" p)|change ("_" +:+ p) with (String "_" p)|];
    cbn [sql_like_tokens]; rewrite ?H1, ?H2; [done|done|].
  destruct (Ascii.eqb c "%") eqn:E1, (Ascii.eqb c "_") eqn:E2, (Ascii.eqb c e) eqn:E3;
    cbn [orb]; rewrite !str_app_cons; change ("" +:+ p) with p; cbn [sql_like_tokens];
    by rewrite ?Ascii.eqb_refl, ?E3, ?E1, ?E2.
Qed.

Lemma sql_like_tokens_exact w s e p :
  Ascii.eqb "%" e = false -> Ascii.eqb "_" e = false ->
  sql_like_tokens e (cql_like_pattern_to_sql w s e p) = Some (iter_like_tokens w s e p).
Proof.
  intros H1 H2. rewrite sql_walk_tokens.
  induction (iter_like_tokens w s e p) as [|t ts IH]; [done|].
  cbn [foldr]. by rewrite sql_token_read, IH.
Qed.

(** Characters the [wildcard] query gives a meaning to. *)
Definition lucene_special (c : ascii) : bool :=
  Ascii.eqb c "*" || Ascii.eqb c "?" || Ascii.eqb c "\".

Definition lucene_plain (t : like_token) : bool :=
  match t with TLiteral c => negb (lucene_special c) | _ => true end.

(** No literal of the pattern is such a character. *)
Definition pattern_lucene_plain (w s e : ascii) (p : string) : bool :=
  forallb lucene_plain (iter_like_tokens w s e p).

Lemma lucene_tokens_exact w s e p :
  pattern_lucene_plain w s e p = true ->
  lucene_tokens (like_to_wildcard w s e p) = iter_like_tokens w s e p.
Proof.
  unfold pattern_lucene_plain, like_to_wildcard. rewrite str_join_nil.
  induction (iter_like_tokens w s e p) as [|t ts IH]; [done|].
  cbn [forallb map foldr]. intros [Ht Hts]%andb_true_iff.
  specialize (IH Hts). destruct t as [| |c]; rewrite str_app_cons;
    match goal with |- lucene_tokens (String _ ("" +:+ ?r)) = _ => change ("" +:+ r) with r end.
  - exact (f_equal (cons TWildcard) IH).
  - exact (f_equal (cons TSingle) IH).
  - cbn [lucene_tokens]. unfold lucene_plain, lucene_special in Ht. rewrite IH.
    destruct (Ascii.eqb c "*"); [done|]. destruct (Ascii.eqb c "?"); [done|].
    by destruct (Ascii.eqb c "\").
Qed.

(** ** Quoted literals of CQL2-Text ([tools/cql.py]) *)

(** [s.replace(old, new)]: left to right, without overlap.  [skip] counts the
    characters of a match still to be dropped. *)
Fixpoint replace_go (old new : string) (skip : nat) (s : string) : string :=
  match s with
  | EmptyString => ""
  | String c s' =>
      match skip with
      | S k => replace_go old new k s'
      | O => if String.prefix old s
             then new +:+ replace_go old new (String.length old - 1) s'
             else String c (replace_go old new 0 s')
      end
  end.
Definition str_replace (old new s : string) : string := replace_go old new 0 s.

Definition NUL : ascii := ascii_of_nat 0.
Definition SOH : ascii := ascii_of_nat 1.
Definition quote : ascii := "'".
Definition quote_escape_sentinel : string :=
  String NUL (String SOH ("CQLQUOTE" +:+ String SOH (String NUL ""))).

(** The scan of [_preprocess_cql2_text_quotes], after the sentinel is dropped. *)
Fixpoint quote_scan (in_literal : bool) (s : string) : string :=
  match s with
  | EmptyString => ""
  | String ch s1 =>
      if negb (Ascii.eqb ch quote) then String ch (quote_scan in_literal s1)
      else if negb in_literal then String quote (quote_scan true s1)
      else match s1 with
           | String ch2 s2 =>
               if Ascii.eqb ch2 quote then quote_escape_sentinel +:+ quote_scan true s2
               else String quote (quote_scan false s1)
           | EmptyString => String quote ""
           end
  end.

Definition preprocess_cql2_text_quotes (cql_text : string) : string :=
  quote_scan false (str_replace quote_escape_sentinel "" cql_text).

(** [_restore_escaped_quotes] on one string literal of the syntax tree. *)
Definition restore_escaped_quotes (value : string) : string :=
  str_replace quote_escape_sentinel (String quote "") value.

(** ** The text the grammar reads

    A filter text as its author means it: plain text and string literals.  A
    literal is written between quotes with its own quotes doubled. *)

Inductive cql_piece : Type :=
| Plain (s : string)
| Literal (v : string).

Fixpoint double_quotes (v : string) : string :=
  match v with
  | EmptyString => ""
  | String c v' => if Ascii.eqb c quote then String quote (String quote (double_quotes v'))
                   else String c (double_quotes v')
  end.

Definition write_piece (p : cql_piece) : string :=
  match p with
  | Plain s => s
  | Literal v => String quote (double_quotes v +:+ String quote "")
  end.
Definition write_cql (ps : list cql_piece) : string :=
  foldr (fun p r => write_piece p +:+ r) "" ps.

(** The bundled grammar's literal terminal takes a quote and everything up to
    the next quote. *)
Fixpoint grammar_literals (acc : option string) (s : string) : list string :=
  match s with
  | EmptyString => []
  | String c s' =>
      match acc with
      | None => grammar_literals (if Ascii.eqb c quote then Some "" else None) s'
      | Some a => if Ascii.eqb c quote then a :: grammar_literals None s'
                  else grammar_literals (Some (a +:+ String c "")) s'
      end
  end.

Definition no_char (c : ascii) (s : string) : bool := str_forallb (fun x => negb (Ascii.eqb x c)) s.

(** Plain text holds no quote; no piece holds the control character the
    sentinel starts with; two literals are separated. *)
Fixpoint pieces_ok (ps : list cql_piece) : bool :=
  match ps with
  | [] => true
  | Plain s :: ps => no_char quote s && no_char NUL s && pieces_ok ps
  | Literal v :: ps =>
      no_char NUL v && pieces_ok ps &&
      match ps with [] | Plain (String _ _) :: _ => true | _ => false end
  end.

Fixpoint piece_literals (ps : list cql_piece) : list string :=
  match ps with
  | [] => []
  | Plain _ :: ps => piece_literals ps
  | Literal v :: ps => v :: piece_literals ps
  end.

(** What the scan makes of a literal's text. *)
Fixpoint sentinel_quotes (v : string) : string :=
  match v with
  | EmptyString => ""
  | String c v' => if Ascii.eqb c quote then quote_escape_sentinel +:+ sentinel_quotes v'
                   else String c (sentinel_quotes v')
  end.

Lemma no_char_app c a b : no_char c (a +:+ b) = no_char c a && no_char c b.
Proof.
  induction a as [|x a IH]; [done|]. rewrite str_app_cons. cbn.
  change (str_forallb _ ?s) with (no_char c s). by rewrite IH, andb_assoc.
Qed.

Lemma no_char_cons c x s : no_char c (String x s) = negb (Ascii.eqb x c) && no_char c s.
Proof. done. Qed.

Lemma sentinel_prefix_nul c s :
  Ascii.eqb c NUL = false -> String.prefix quote_escape_sentinel (String c s) = false.
Proof.
  intros H. unfold quote_escape_sentinel, String.prefix.
  match goal with |- context [ascii_dec ?a ?b] => destruct (ascii_dec a b) as [<-|] end;
    [by rewrite Ascii.eqb_refl in H|reflexivity].
Qed.

Lemma replace_plain new s r :
  no_char NUL s = true ->
  str_replace quote_escape_sentinel new (s +:+ r) = s +:+ str_replace quote_escape_sentinel new r.
Proof.
  unfold str_replace. induction s as [|c s IH]; [done|].
  rewrite no_char_cons. intros [Hc%negb_true_iff Hs]%andb_true_iff. rewrite str_app_cons.
  cbn [replace_go]. by rewrite (sentinel_prefix_nul c _ Hc), (IH Hs).
Qed.

Lemma replace_sentinel new r :
  str_replace quote_escape_sentinel new (quote_escape_sentinel +:+ r) =
  new +:+ str_replace quote_escape_sentinel new r.
Proof. destruct r; reflexivity. Qed.

Lemma restore_sentinel_quotes v :
  no_char NUL v = true -> restore_escaped_quotes (sentinel_quotes v) = v.
Proof.
  unfold restore_escaped_quotes. induction v as [|c v IH]; [done|].
  rewrite no_char_cons. intros [Hc Hv]%andb_true_iff. cbn [sentinel_quotes].
  destruct (Ascii.eqb c quote) eqn:E.
  - rewrite replace_sentinel, (IH Hv). apply Ascii.eqb_eq in E as ->. done.
  - rewrite <- (IH Hv) at 2. apply (replace_plain _ (String c "")). by rewrite no_char_cons, Hc.
Qed.

Lemma no_quote_sentinel_quotes v : no_char quote (sentinel_quotes v) = true.
Proof.
  induction v as [|c v IH]; [done|]. cbn [sentinel_quotes].
  destruct (Ascii.eqb c quote) eqn:E; [by rewrite no_char_app, IH|].
  by rewrite no_char_cons, E, IH.
Qed.

Lemma scan_plain b s r :
  no_char quote s = true -> quote_scan b (s +:+ r) = s +:+ quote_scan b r.
Proof.
  induction s as [|c s IH]; [done|]. rewrite no_char_cons.
  intros [Hc Hs]%andb_true_iff. rewrite str_app_cons. cbn [quote_scan]. by rewrite Hc, (IH Hs).
Qed.

Lemma scan_double v r :
  quote_scan true (double_quotes v +:+ r) = sentinel_quotes v +:+ quote_scan true r.
Proof.
  induction v as [|c v IH]; [done|]. cbn [double_quotes sentinel_quotes].
  destruct (Ascii.eqb c quote) eqn:E; rewrite !str_app_cons.
  - change (quote_scan true (String quote (String quote ?x)))
      with (quote_escape_sentinel +:+ quote_scan true x).
    by rewrite IH, str_app_assoc.
  - cbn [quote_scan]. by rewrite E, IH.
Qed.

(** A literal followed by plain text or by the end. *)
Definition no_quote_head (r : string) : bool :=
  match r with EmptyString => true | String c _ => negb (Ascii.eqb c quote) end.

Lemma scan_literal v r :
  no_quote_head r = true ->
  quote_scan false (write_piece (Literal v) +:+ r) =
  String quote (sentinel_quotes v +:+ String quote (quote_scan false r)).
Proof.
  intros Hr. cbn [write_piece]. rewrite !str_app_cons, <- str_app_assoc.
  change (quote_scan false (String quote ?x)) with (String quote (quote_scan true x)).
  rewrite scan_double, !str_app_cons. f_equal. f_equal. change ("" +:+ r) with r.
  destruct r as [|c r]; [done|]. cbn [no_quote_head] in Hr. apply negb_true_iff in Hr.
  cbn [quote_scan]. by rewrite Hr.
Qed.

Lemma grammar_plain s r :
  no_char quote s = true -> grammar_literals None (s +:+ r) = grammar_literals None r.
Proof.
  induction s as [|c s IH]; [done|]. rewrite no_char_cons.
  intros [Hc%negb_true_iff Hs]%andb_true_iff. rewrite str_app_cons. cbn [grammar_literals].
  by rewrite Hc, (IH Hs).
Qed.

Lemma grammar_literal a s r :
  no_char quote s = true ->
  grammar_literals (Some a) (s +:+ String quote r) = (a +:+ s) :: grammar_literals None r.
Proof.
  revert a. induction s as [|c s IH]; intros a.
  - intros _. by rewrite str_app_nil_r.
  - rewrite no_char_cons. intros [Hc%negb_true_iff Hs]%andb_true_iff. rewrite str_app_cons.
    cbn [grammar_literals]. rewrite Hc, (IH _ Hs), <- str_app_assoc. done.
Qed.

Lemma write_cql_nul ps :
  pieces_ok ps = true -> no_char NUL (write_cql ps) = true.
Proof.
  assert (forall v, no_char NUL v = true -> no_char NUL (double_quotes v) = true) as Hd.
  { induction v as [|c v IH]; [done|]. rewrite no_char_cons. intros [Hc Hv]%andb_true_iff.
    cbn [double_quotes]. destruct (Ascii.eqb c quote); rewrite ?no_char_cons, (IH Hv); [done|].
    by rewrite Hc. }
  induction ps as [|[s|v] ps IH]; [done| |]; cbn [pieces_ok write_cql foldr write_piece];
    intros ?; bool_hyps; rewrite no_char_app; fold (write_cql ps).
  - apply andb_true_iff; auto.
  - rewrite no_char_cons, no_char_app, Hd, IH by done. done.
Qed.

Lemma quote_scan_literals ps :
  pieces_ok ps = true ->
  map restore_escaped_quotes (grammar_literals None (quote_scan false (write_cql ps))) =
  piece_literals ps.
Proof.
  induction ps as [|[s|v] ps IH]; [done| |]; cbn [pieces_ok piece_literals];
    intros ?; bool_hyps; cbn [write_cql foldr]; fold (write_cql ps).
  - cbn [write_piece]. by rewrite scan_plain, grammar_plain, IH.
  - rewrite scan_literal.
    + change (grammar_literals None (String quote ?x)) with (grammar_literals (Some "") x).
      rewrite grammar_literal by apply no_quote_sentinel_quotes.
      cbn [map]. change ("" +:+ ?x) with x. by rewrite restore_sentinel_quotes, IH.
    + destruct ps as [|[[|c s]|] ps]; [done|done| |done].
      cbn [pieces_ok] in *. bool_hyps. rewrite no_char_cons in *. bool_hyps.
      cbn [write_cql foldr write_piece]. rewrite str_app_cons. cbn [no_quote_head].
      by apply negb_true_iff.
Qed.

(** ** Properties *)

(** A [LIKE] pattern means the same on both back ends: the
    [LIKE ... ESCAPE] pattern sent to PostgreSQL and the [wildcard] pattern
    sent to Elasticsearch match exactly the texts the CQL2 pattern matches,
    escaped wildcards and SQL's own metacharacters included, with or without
    case, for every pattern none of whose literals is a metacharacter of the
    [wildcard] query. *)
Theorem like_backends_agree (wildcard single_char escape_char : ascii) (nocase : bool)
    (pattern text : string) :
  Ascii.eqb "%" escape_char = false -> Ascii.eqb "_" escape_char = false ->
  pattern_lucene_plain wildcard single_char escape_char pattern = true ->
  (ts ← sql_like_tokens escape_char
          (cql_like_pattern_to_sql wildcard single_char escape_char pattern);
   Some (glob (same_char nocase) ts text)) =
    Some (glob (same_char nocase) (iter_like_tokens wildcard single_char escape_char pattern) text) /\
  glob (same_char nocase)
       (lucene_tokens (like_to_wildcard wildcard single_char escape_char pattern)) text =
    glob (same_char nocase) (iter_like_tokens wildcard single_char escape_char pattern) text.
Proof.
  intros H1 H2 Hp. by rewrite sql_like_tokens_exact, lucene_tokens_exact.
Qed.

Lemma like_backends_agree_witness :
  cql_like_pattern_to_sql "%" "." "\" "a_\%.%" = "a\_\%_%" /\
  like_to_wildcard "%" "." "\" "a_\%.%" = "a_%?*" /\
  glob (same_char true) (lucene_tokens (like_to_wildcard "%" "." "\" "a_\%.%")) "A_%xyz" = true /\
  glob (same_char true) (lucene_tokens (like_to_wildcard "%" "." "\" "a_\%.%")) "A_%" = false.
Proof.
  split; [reflexivity|]. split; [reflexivity|].
  destruct (like_backends_agree "%" "." "\" true "a_\%.%" "A_%xyz") as [_ ->]; [reflexivity..|].
  destruct (like_backends_agree "%" "." "\" true "a_\%.%" "A_%") as [_ ->]; [reflexivity..|].
  split; reflexivity.
Defined.

(** The restriction is needed: [like_to_wildcard] copies a literal ["*"] (and
    an escaped backslash) into the [wildcard] pattern, where it is a
    metacharacter. *)
Lemma like_literal_star_is_wildcard :
  glob (same_char false) (iter_like_tokens "%" "." "\" "a*") "abc" = false /\
  glob (same_char false) (lucene_tokens (like_to_wildcard "%" "." "\" "a*")) "abc" = true /\
  glob (same_char false) (iter_like_tokens "%" "." "\" "C:\\x") "C:\x" = true /\
  glob (same_char false) (lucene_tokens (like_to_wildcard "%" "." "\" "C:\\x")) "C:\x" = false.
Proof. repeat split. Qed.

(** Doubled quotes survive the bundled grammar: the string
    literals the grammar reads in the pre-processed text, with the sentinels
    restored, are exactly the literals the author wrote, in order, whatever
    quotes they hold. *)
Theorem quoted_literals_roundtrip (ps : list cql_piece) :
  pieces_ok ps = true ->
  map restore_escaped_quotes
      (grammar_literals None (preprocess_cql2_text_quotes (write_cql ps))) = piece_literals ps.
Proof.
  intros Hok. unfold preprocess_cql2_text_quotes.
  rewrite <- (str_app_nil_r (write_cql ps)) at 1.
  rewrite replace_plain by by apply write_cql_nul.
  change (str_replace _ _ "") with "". rewrite str_app_nil_r. by apply quote_scan_literals.
Qed.

Lemma quoted_literals_roundtrip_witness :
  write_cql [Plain "name = "; Literal "O'Brien"; Plain " OR code IN ("; Literal "'PK'"; Plain ", ";
             Literal ""; Plain ")"]
    = "name = 'O''Brien' OR code IN ('''PK''', '')" /\
  map restore_escaped_quotes (grammar_literals None (preprocess_cql2_text_quotes
    "name = 'O''Brien' OR code IN ('''PK''', '')")) = ["O'Brien"; "'PK'"; ""].
Proof.
  split; [reflexivity|].
  exact (quoted_literals_roundtrip [Plain "name = "; Literal "O'Brien"; Plain " OR code IN (";
           Literal "'PK'"; Plain ", "; Literal ""; Plain ")"] eq_refl).
Defined.

(** The single pass that drops sentinels from the input leaves one behind when
    two are nested: the text holds no quote inside the literal, the value the
    filter compares does. *)
Definition sentinel_head : string := String NUL (String SOH "CQL").
Definition sentinel_tail : string := "QUOTE" +:+ String SOH (String NUL "").

Lemma nested_sentinel_survives :
  let text := String quote (sentinel_head +:+ quote_escape_sentinel +:+ sentinel_tail +:+ String quote "") in
  grammar_literals None (preprocess_cql2_text_quotes text) = [quote_escape_sentinel] /\
  map restore_escaped_quotes (grammar_literals None (preprocess_cql2_text_quotes text)) = ["'"].
Proof. split; reflexivity. Qed.
