(* ===== verification/EsLeaf.v ===== *)
(** * Leaf clauses of Elasticsearch queries

    The leaf clauses the item queries are built from ([term], [terms],
    [range], [wildcard], [match], [exists], [geo_shape], [multi_match]), as the
    translators of [es_common/cql_to_es.py] and [elasticsearch/items_query.py]
    emit them.  [leaf_eval] is a small reference evaluator; the theorems use
    the laws of the class [LeafEngine] (CqlEs), which it satisfies. *)

From Stdlib Require Import QArith.
From S2P Require Import Prelude AccessFilter CqlLike.
Open Scope Z_scope.

(** ** Values

    A value placed in a query: a JSON scalar, a date (serialised as its ISO
    text), a pair, a list of coordinates, or a geometry.  Coordinates are rationals. *)

Inductive shape : Type :=
| ShEnvelope (left top right bottom : Q)
| ShGeojson (members : list (string * string)).

Inductive pval : Type :=
| PVScalar (v : scalar)
| PVDate (t : string)
| PVPair (a b : pval)
| PVCoords (cs : list Q)
| PVShape (s : shape).

(** The JSON scalar a value is sent as. *)
Definition json_scalar (v : pval) : option scalar :=
  match v with
  | PVScalar s => Some s
  | PVDate t => Some (SStr t)
  | PVPair _ _ | PVCoords _ | PVShape _ => None
  end.

Inductive range_key : Type := KLt | KLte | KGt | KGte.

Inductive es_leaf : Type :=
| LTerm (field : string) (value : pval)
| LTermValue (field : string) (value : pval)
| LTerms (field : string) (values : list pval)
| LRange (field : string) (bounds : list (range_key * pval)) (relation : option string)
| LWildcard (field : string) (value : pval) (case_insensitive : bool)
| LMatch (field : string) (query : string)
| LExists (field : pval)
| LGeoShape (field : string) (shape : pval) (relation : string)
| LMultiMatch (query : string) (item_id : string).

#[export] Instance scalar_eq_dec : EqDecision scalar.
Proof. solve_decision. Defined.

(** ** Reference meaning of the scalar clauses *)

Definition range_key_holds (k : range_key) (c : comparison) : bool :=
  match k, c with
  | KLt, Lt | KGt, Gt => true
  | KLte, (Lt | Eq) | KGte, (Gt | Eq) => true
  | _, _ => false
  end.

Definition is_eq (c : comparison) : bool := match c with Eq => true | _ => false end.

(** Integers by value, text by its characters; nothing else is ordered. *)
Definition scalar_order (a b : scalar) : option comparison :=
  match a, b with
  | SInt x, SInt y => Some (x ?= y)
  | SStr x, SStr y => Some (String.compare x y)
  | SBool x, SBool y => Some (if Bool.eqb x y then Eq else if x then Gt else Lt)
  | _, _ => None
  end.

Definition compare_to (v : scalar) (x : pval) : option comparison :=
  match json_scalar x with Some y => scalar_order v y | None => None end.

(** ** A concrete evaluator

    Geometries are points in the fields [geometry.x] and [geometry.y]. *)

Definition point_in (d : document) (sh : shape) : option bool :=
  match doc_get d "geometry.x", doc_get d "geometry.y", sh with
  | DScalar (SInt x), DScalar (SInt y), ShEnvelope l t r b =>
      Some (Qle_bool l (inject_Z x) && Qle_bool (inject_Z x) r &&
            Qle_bool b (inject_Z y) && Qle_bool (inject_Z y) t)
  | _, _, _ => None
  end.

Definition demo_geo (field : string) (sh : shape) (relation : string) (d : document) : bool :=
  match point_in d sh with
  | Some b => if relation ==s "disjoint" then negb b else b
  | None => false
  end.

Definition leaf_eval (l : es_leaf) (d : document) : bool :=
  match l with
  | LTerm f x | LTermValue f x =>
      match doc_get d f with
      | DScalar v => match compare_to v x with Some c => is_eq c | None => false end
      | DSeq _ => false
      end
  | LTerms f xs =>
      match doc_get d f with
      | DScalar v =>
          existsb (fun x => match compare_to v x with Some c => is_eq c | None => false end) xs
      | DSeq _ => false
      end
  | LRange f bs _ =>
      match doc_get d f with
      | DScalar SNone => false
      | DScalar v =>
          forallb (fun b => match compare_to v b.2 with
                            | Some c => range_key_holds b.1 c
                            | None => false
                            end) bs
      | DSeq _ => false
      end
  | LWildcard f x ci =>
      match doc_get d f, x with
      | DScalar (SStr s), PVScalar (SStr p) => glob (same_char ci) (lucene_tokens p) s
      | _, _ => false
      end
  | LMatch f q =>
      match doc_get d f with DScalar (SStr s) => str_contains q s | _ => false end
  | LExists (PVScalar (SStr f)) =>
      match doc_get d f with
      | DScalar SNone => false
      | DScalar _ => true
      | DSeq l => existsb (fun v => negb (bool_decide (v = SNone))) l
      end
  | LExists _ => false
  | LGeoShape f (PVShape sh) rel => demo_geo f sh rel d
  | LGeoShape _ _ _ => false
  | LMultiMatch q _ =>
      existsb (fun kv => match kv.2 with DScalar (SStr s) => str_contains q s | _ => false end) d
  end.
