(* ===== verification/AccessEs.v ===== *)
(** * Access filters as Elasticsearch queries

    [storage/drivers/elasticsearch_envelope/access_translate.py] (the
    translator), [es_common/cql_to_es.py] ([merge_es_filter]) and the row-level
    seam [_query_request_to_es] of [elasticsearch_envelope/driver.py].

    The search engine itself is not part of the repository: it is the class
    [EsEngine], whose laws are the documented meaning of the query clauses the
    translator emits, on the fields the index declares ([elasticsearch_envelope/
    mappings.py]).  A [document] is what the index holds of an item: its declared
    fields.  The refinement theorem is proved for every engine that satisfies the
    laws; [es_eval] is one such engine.  The query the seam is applied to is any
    query here; EsItems composes it with the one of the base driver. *)

From S2P Require Import Prelude AccessFilter EsLeaf.

(** ** Query DSL *)

Unset Elimination Schemes.
Inductive es_query : Type :=
| EsMatchAll
| EsMatchNone
| EsTerms (field : string) (values : list string)
| EsRange (field : string) (gte lte : option string)
| EsBool (must filter should must_not : list es_query) (minimum_should_match : option Z)
| EsLeaf (l : es_leaf).
Set Elimination Schemes.

(** ** Translation *)

Definition range_predicate_to_es (p : RangePredicate) : es_query :=
  match rp_op p with
  | Lte => EsRange (rp_field p) None (Some (bound p 0))
  | Gte => EsRange (rp_field p) (Some (bound p 0)) None
  | Between => EsRange (rp_field p) (Some (bound p 0)) (Some (bound p 1))
  | OtherOp _ => EsMatchNone
  end.

Definition predicate_to_terms (p : predicate) : es_query :=
  match p with
  | PRange q => range_predicate_to_es q
  | PField q => EsTerms (fp_field q) (fp_values q)
  end.

Definition clause_to_bool (c : AccessClause) : es_query :=
  match predicates c with
  | [] => EsMatchAll
  | ps => EsBool [] (map predicate_to_terms ps) [] [] None
  end.

(** [None] is "apply no restriction". *)
Fixpoint filter_to_es (f : AccessFilter) : option es_query :=
  match f with
  | mkFilter da aa al de _ us =>
      if da then Some EsMatchNone
      else match us with
           | [] =>
               let deny_clauses := map clause_to_bool de in
               if aa then
                 match deny_clauses with
                 | [] => None
                 | _ => Some (EsBool [] [] [] deny_clauses None)
                 end
               else Some (EsBool [] [] (map clause_to_bool al) deny_clauses (Some 1))
           | _ =>
               let should_subs :=
                 map (fun s => match filter_to_es s with
                               | Some q => q
                               | None => EsMatchAll
                               end) us in
               Some (EsBool [] [] should_subs [] (Some 1))
           end
  end.

Definition access_filter_to_es (f : option AccessFilter) : option es_query :=
  match f with None => None | Some f => filter_to_es f end.

Definition merge_es_filter (base : option es_query) (extra : es_query) : es_query :=
  match base with
  | None | Some EsMatchAll => extra
  | Some (EsBool must fl should must_not msm) =>
      EsBool must (fl ++ [extra]) should must_not msm
  | Some leaf => EsBool [] [leaf; extra] [] [] None
  end.

(** The driver seam.  A query body is its optional ["query"] entry; [base] is
    the body built by the structural and CQL2 translation. *)
Definition query_request_to_es (base : option es_query) (access_filter : option AccessFilter)
    : option es_query :=
  match access_filter with
  | None => Some EsMatchNone
  | Some f =>
      match access_filter_to_es (Some f) with
      | None => base
      | Some clause =>
          let inner := match base with Some q => q | None => EsMatchAll end in
          Some (merge_es_filter (Some inner) clause)
      end
  end.

(** ** The engine *)

(** Number of clauses that hit. *)
Definition count_hits {A} (p : A -> bool) (l : list A) : Z :=
  Z.of_nat (length (List.filter p l)).

(** [minimum_should_match] when the query does not state it. *)
Definition effective_msm (must fl should : list es_query) (msm : option Z) : Z :=
  match msm with
  | Some n => n
  | None => match should, must, fl with _ :: _, [], [] => 1 | _, _, _ => 0 end
  end.

(** Bool queries the documentation gives a meaning to: some clause is present,
    and [minimum_should_match] comes with [should] clauses. *)
Definition bool_lawful (must fl should must_not : list es_query) (msm : option Z) : bool :=
  match must ++ fl ++ should ++ must_not with [] => false | _ => true end &&
  match should, msm with [], Some _ => false | _, _ => true end.

(** The term a [keyword] field indexes for a JSON scalar: numbers and booleans
    by their text, nothing for [null]. *)
Definition keyword_term (v : scalar) : option string :=
  match v with
  | SNone => None
  | SBool b => Some (if b then "true" else "false")
  | SInt z => Some (pretty z)
  | SStr s => Some s
  end.
Definition term_in (values : list string) (v : scalar) : bool :=
  match keyword_term v with Some s => str_mem s values | None => false end.

Class EsEngine := {
  es_hit : es_query -> document -> bool;
  (** the fields the index maps as [keyword] *)
  es_keyword : string -> bool;
  es_match_all d : es_hit EsMatchAll d = true;
  es_match_none d : es_hit EsMatchNone d = false;
  es_terms_scalar f vs d v : es_keyword f = true -> doc_get d f = DScalar v ->
    es_hit (EsTerms f vs) d = term_in vs v;
  es_terms_array f vs d l : es_keyword f = true -> doc_get d f = DSeq l ->
    es_hit (EsTerms f vs) d = existsb (term_in vs) l;
  (** a field the document has no indexed value for *)
  es_terms_null f vs d : doc_get d f = DScalar SNone -> es_hit (EsTerms f vs) d = false;
  es_range_null f g l d : doc_get d f = DScalar SNone -> es_hit (EsRange f g l) d = false;
  es_bool must fl should must_not msm d :
    bool_lawful must fl should must_not msm = true ->
    es_hit (EsBool must fl should must_not msm) d =
      forallb (fun q => es_hit q d) must && forallb (fun q => es_hit q d) fl &&
      negb (existsb (fun q => es_hit q d) must_not) &&
      (effective_msm must fl should msm <=? count_hits (fun q => es_hit q d) should);
}.

(** A body without a ["query"] entry returns every document. *)
Definition body_hit `{EsEngine} (b : option es_query) (d : document) : bool :=
  match b with None => true | Some q => es_hit q d end.

(** ** The envelope index ([mappings.py]) *)

Inductive field_type : Type := TKeyword | TObject (dynamic : bool) | TGeoShape | TFloat.
#[global] Instance field_type_eq_dec : EqDecision field_type.
Proof. solve_decision. Defined.

(** The root fields; the root itself is [dynamic: false]: what is not declared is
    stored and not indexed. *)
Definition ENVELOPE_FEATURE_MAPPING : list (string * field_type) :=
  [("geoid", TKeyword); ("catalog_id", TKeyword); ("collection_id", TKeyword); ("external_id", TKeyword);
   ("asset_id", TKeyword); ("visibility", TKeyword); ("owner", TKeyword); ("attrs", TObject true);
   ("geometry", TGeoShape); ("bbox", TFloat); ("system", TObject false); ("metadata", TObject true);
   ("properties", TObject true)].

Definition root_of (field : string) : string := hd "" (str_split "." field).
Definition is_keyword (field : string) : bool := bool_decide (dict_get field ENVELOPE_FEATURE_MAPPING = Some TKeyword).
Definition declared (field : string) : bool :=
  match dict_get (root_of field) ENVELOPE_FEATURE_MAPPING with Some _ => true | None => false end.

(** Text, or nothing. *)
Definition textual (v : scalar) : bool := match v with SNone | SStr _ => true | _ => false end.
Definition textual_value (v : docval) : bool := match v with DScalar v => textual v | DSeq l => forallb textual l end.
(** What the index holds of an item: declared fields, text in the keyword fields. *)
Definition envelope_doc (d : document) : bool :=
  forallb (fun kv => declared kv.1 && (negb (is_keyword kv.1) || textual_value kv.2)) d.

(** An engine whose keyword fields are those of the envelope index. *)
Class EnvelopeIndex `{EsEngine} : Prop := envelope_keyword f : is_keyword f = true -> es_keyword f = true.

Lemma forallb_impl {A} (p q : A -> bool) l : (forall x, x ∈ l -> p x = true -> q x = true) -> forallb p l = true -> forallb q l = true.
Proof. rewrite !forallb_elem. naive_solver. Qed.
Lemma envelope_doc_get (P : docval -> bool) d f :
  P (DScalar SNone) = true -> forallb (fun kv => negb (f ==s kv.1) || P kv.2) d = true -> P (doc_get d f) = true.
Proof.
  intros HP. unfold doc_get. induction d as [|[k v] d IH]; cbn; [done|]. intros [Hv Hd]%andb_true_iff.
  destruct (f ==s k); [done|auto].
Qed.
Lemma keyword_textual d f : envelope_doc d = true -> is_keyword f = true -> textual_value (doc_get d f) = true.
Proof.
  intros Hd Hk. apply envelope_doc_get; [done|]. eapply forallb_impl; [|exact Hd]. intros [k v] _; cbn [fst snd].
  destruct (String.eqb_spec f k) as [<-|]; [|done]. rewrite Hk. by intros [_ ?]%andb_true_iff.
Qed.
Lemma undeclared_absent d f : envelope_doc d = true -> declared f = false -> doc_get d f = DScalar SNone.
Proof.
  intros Hd Hf. assert (Hg : match doc_get d f with DScalar SNone => true | _ => false end = true); [|by destruct (doc_get d f) as [[]|]].
  apply (envelope_doc_get (fun v => match v with DScalar SNone => true | _ => false end)); [done|]. eapply forallb_impl; [|exact Hd]. intros [k v] _; cbn [fst snd].
  destruct (String.eqb_spec f k) as [<-|]; [|done]. by rewrite Hf.
Qed.

(** The predicates the index answers: membership in a keyword field, and anything on a
    field that is not declared, which no document has. *)
Definition predicate_ok (p : predicate) : bool :=
  match p with
  | PField q => is_keyword (fp_field q) || negb (declared (fp_field q))
  | PRange q => negb (declared (rp_field q))
  end.
Definition clause_ok (c : AccessClause) : bool := forallb predicate_ok (predicates c).

(** Filters over such predicates that the constructors produce: an allow side that is
    empty is either [allow_all] or [deny_all] ([from_clauses] fails closed otherwise). *)
Fixpoint filter_ok (f : AccessFilter) : bool :=
  match f with
  | mkFilter da aa al de _ us =>
      forallb clause_ok al && forallb clause_ok de && forallb filter_ok us &&
      (da || aa || match al, us with [], [] => false | _, _ => true end)
  end.

Section translation.
Context `{PyRuntime, EnvelopeIndex}.

Lemma count_hits_pos {A} (p : A -> bool) l : (1 <=? count_hits p l) = existsb p l.
Proof.
  unfold count_hits. induction l as [|x l IH]; simpl; [done|].
  destruct (p x); simpl; [apply Z.leb_le; lia|done].
Qed.

Lemma term_in_textual vs v : textual v = true -> term_in vs v = scalar_in vs v.
Proof. by destruct v. Qed.
Lemma es_terms_field f vs d :
  envelope_doc d = true -> is_keyword f = true -> es_hit (EsTerms f vs) d = field_matches (mkFP f vs) d.
Proof.
  intros Hd Hk. pose proof (keyword_textual d f Hd Hk) as Ht. unfold field_matches; cbn [fp_field fp_values].
  destruct (doc_get d f) as [v|l] eqn:E.
  - rewrite (es_terms_scalar _ _ _ v) by (done || by apply envelope_keyword). by apply term_in_textual.
  - rewrite (es_terms_array _ _ _ l) by (done || by apply envelope_keyword). apply existsb_ext. intros v Hv.
    apply term_in_textual. by apply (proj1 (forallb_elem textual l) Ht).
Qed.

Lemma es_predicate p d :
  envelope_doc d = true -> predicate_ok p = true -> es_hit (predicate_to_terms p) d = predicate_matches p d.
Proof.
  intros Hd Hp. destruct p as [[f vs]|q]; simpl in *.
  - destruct (is_keyword f) eqn:Hk; [by apply es_terms_field|]. apply negb_true_iff in Hp.
    pose proof (undeclared_absent d f Hd Hp) as E. rewrite (es_terms_null _ _ _ E). unfold field_matches; cbn. by rewrite E.
  - apply negb_true_iff in Hp. pose proof (undeclared_absent d _ Hd Hp) as E.
    unfold range_predicate_to_es, range_matches. rewrite E. destruct (rp_op q); eauto using es_range_null, es_match_none.
Qed.

Lemma es_clause c d :
  envelope_doc d = true -> clause_ok c = true -> es_hit (clause_to_bool c) d = clause_matches c d.
Proof.
  intros Hd Hc. destruct c as [ps]. unfold clause_to_bool, clause_matches; cbn [predicates].
  destruct ps as [|p ps]; [by rewrite es_match_all|].
  rewrite es_bool by done. rewrite forallb_map.
  rewrite (forallb_ext_in _ (fun p => predicate_matches p d)).
  - unfold count_hits; simpl. by rewrite !andb_true_r.
  - intros x Hx. apply es_predicate; [done|]. by eapply (proj1 (forallb_elem _ _)) in Hc.
Qed.

Lemma es_clauses cs d :
  envelope_doc d = true -> forallb clause_ok cs = true ->
  existsb (fun q => es_hit q d) (map clause_to_bool cs) = existsb (fun c => clause_matches c d) cs.
Proof.
  intros Hd Hcs. rewrite existsb_map. apply existsb_ext; intros c Hc.
  apply es_clause; [done|]. by eapply (proj1 (forallb_elem _ _)) in Hcs.
Qed.

(** A disjunction with a [must_not] side, as the translator emits it. *)
Lemma es_should_must_not should must_not d :
  should <> [] ->
  es_hit (EsBool [] [] should must_not (Some 1)) d =
  existsb (fun q => es_hit q d) should && negb (existsb (fun q => es_hit q d) must_not).
Proof.
  intros Hne. destruct should as [|q should]; [done|].
  rewrite es_bool by done. cbn [forallb effective_msm].
  by rewrite count_hits_pos, andb_true_l, andb_comm.
Qed.

(** The translation is exact: the engine returns a document iff the
    reference semantics admits it. *)
Lemma filter_to_es_admits f d :
  envelope_doc d = true -> filter_ok f = true ->
  body_hit (filter_to_es f) d = admits f d.
Proof.
  intros Hdoc. induction f as [da aa al de un us IH] using AccessFilter_ind.
  intros Hok; simpl in Hok; bool_hyps. cbn [filter_to_es admits].
  destruct da; simpl; [apply es_match_none|].
  destruct us as [|u us].
  - destruct aa; simpl.
    + destruct de as [|c de]; [done|]. cbn [map body_hit].
      rewrite es_bool by done. cbn [forallb effective_msm].
      rewrite <- (es_clauses (c :: de)) by done. cbn [map].
      unfold count_hits; cbn [List.filter length]. rewrite andb_true_l, andb_true_r.
      by destruct (existsb _ _).
    + destruct al as [|c al]; [done|].
      rewrite es_should_must_not by done. rewrite !es_clauses by done.
      destruct (existsb _ de); [by rewrite andb_false_r|by rewrite andb_true_r].
  - cbn [body_hit]. rewrite es_should_must_not by done. simpl existsb at 2.
    rewrite andb_true_r, existsb_map. apply existsb_ext; intros s Hs.
    rewrite <- (proj1 (Forall_forall _ _) IH s Hs) by
      by apply (proj1 (forallb_elem filter_ok (u :: us))).
    destruct (filter_to_es s); simpl; [done|apply es_match_all].
Qed.
End translation.

(** ** A concrete engine *)

Section eval.
Context `{PyRuntime}.

(** Ranges are compared as the reference semantics does; any order will do. *)
Definition in_range (gte lte : option string) (v : string) : bool :=
  match gte with Some b => 0 <=? range_cmp v b | None => true end &&
  match lte with Some b => range_cmp v b <=? 0 | None => true end.
Definition scalar_in_range (gte lte : option string) (v : scalar) : bool :=
  match keyword_term v with Some s => in_range gte lte s | None => false end.
Definition any_value (test : scalar -> bool) (v : docval) : bool :=
  match v with DScalar v => test v | DSeq l => existsb test l end.

Fixpoint es_eval (q : es_query) (d : document) : bool :=
  match q with
  | EsMatchAll => true
  | EsMatchNone => false
  | EsTerms f vs => any_value (term_in vs) (doc_get d f)
  | EsRange f g l => any_value (scalar_in_range g l) (doc_get d f)
  | EsBool must fl should must_not msm =>
      forallb (fun q => es_eval q d) must && forallb (fun q => es_eval q d) fl &&
      negb (existsb (fun q => es_eval q d) must_not) &&
      (effective_msm must fl should msm <=? count_hits (fun q => es_eval q d) should)
  | EsLeaf l => leaf_eval l d
  end.

Definition eval_engine : EsEngine.
Proof.
  refine {| es_hit := es_eval; es_keyword := is_keyword |}; try done.
  - intros f vs d v _ E. simpl. by rewrite E.
  - intros f vs d l _ E. simpl. by rewrite E.
  - intros f vs d E. simpl. by rewrite E.
  - intros f g l d E. simpl. by rewrite E.
Defined.
#[global] Instance eval_envelope : EnvelopeIndex (H := eval_engine).
Proof. by intros f Hf. Qed.
End eval.

(** ** The row-level seam of the driver *)

Section seam.
Context `{EsEngine}.

(** The base query pairs [minimum_should_match] with [should] clauses. *)
Definition base_query_ok (base : option es_query) : bool :=
  match base with
  | Some (EsBool _ _ [] _ (Some _)) => false
  | _ => true
  end.

(** In addition its [should] clauses, if any, do not rely on the default
    [minimum_should_match] (which adding a filter clause changes), and it is
    not the empty [bool]. *)
Definition base_query_exact (base : option es_query) : bool :=
  match base with
  | Some (EsBool must fl should must_not msm) =>
      bool_lawful must fl should must_not msm &&
      match msm, should with None, _ :: _ => false | _, _ => true end
  | _ => true
  end.

Lemma merge_hit_extra base extra d :
  base_query_ok base = true ->
  es_hit (merge_es_filter base extra) d = true -> es_hit extra d = true.
Proof.
  intros Hb. destruct base as [[| |f vs|f g l|must fl should mn msm|n]|]; simpl; try done;
    rewrite es_bool; try done.
  1,2,3,6: simpl; rewrite ?andb_true_r; intros; by bool_hyps.
  - rewrite forallb_app; simpl; intros; by bool_hyps.
  - unfold bool_lawful. simpl in Hb. destruct must, fl, should, msm; done.
Qed.

Lemma merge_hit base extra d :
  base_query_exact base = true ->
  es_hit (merge_es_filter base extra) d = body_hit base d && es_hit extra d.
Proof.
  intros Hb. destruct base as [[| |f vs|f g l|must fl should mn msm|n]|]; simpl; try done;
    rewrite ?es_match_all; try done.
  1,2,3,5: rewrite es_bool by done; unfold count_hits; simpl; rewrite !andb_true_r; done.
  simpl in Hb; bool_hyps. rewrite !es_bool; [|done|].
  - rewrite forallb_app; simpl. rewrite andb_true_r.
    assert (effective_msm must (fl ++ [extra]) should msm = effective_msm must fl should msm)
      as -> by by destruct msm, should.
    destruct (forallb _ must), (forallb _ fl), (existsb _ mn), (es_hit extra d),
      (effective_msm _ _ _ _ <=? _); done.
  - unfold bool_lawful in *. destruct must, fl, should, msm; simpl in *; bool_hyps; done.
Qed.
End seam.

(** ** Properties *)

(** C1 (refinement).  The Elasticsearch translation of an access filter returns
    exactly the documents of the envelope index that the reference semantics
    [AccessFilter.admits] admits, nested unions and deny sides included, for
    every engine with the documented clause semantics.  The filter ranges over
    the keyword fields of the index and over fields the index does not declare
    (such as [_attrs.*]), which hit no document; the documents hold text in
    their keyword fields. *)
Theorem access_filter_to_es_exact `{PyRuntime, EnvelopeIndex} (f : AccessFilter) (d : document) :
  envelope_doc d = true -> filter_ok f = true ->
  body_hit (access_filter_to_es (Some f)) d = admits f d.
Proof. apply filter_to_es_admits. Qed.

Definition es_demo_filter : AccessFilter :=
  union_of
    [ from_clauses [mkClause [PField (mkFP "collection_id" ["c1"]); PField (mkFP "visibility" ["public"])]]
                   [mkClause [PField (mkFP "owner" ["eve"])]; mkClause [PRange (mkRP "_attrs.level" Lte ["5"] Numeric)]] false;
      from_clauses [mkClause [PField (mkFP "collection_id" ["c2"])]] [] false;
      deny_everything true ].
Definition es_demo_doc : document :=
  [("collection_id", DScalar (SStr "c1")); ("visibility", DScalar (SStr "public")); ("attrs.level", DScalar (SInt 4));
   ("owner", DSeq [SStr "bob"; SStr "ann"])].

Lemma access_filter_to_es_exact_witness :
  body_hit (H := @eval_engine demo_runtime) (access_filter_to_es (Some es_demo_filter)) es_demo_doc = true.
Proof.
  rewrite (@access_filter_to_es_exact demo_runtime (@eval_engine demo_runtime) (@eval_envelope demo_runtime) es_demo_filter es_demo_doc).
  - vm_compute. reflexivity.
  - vm_compute. reflexivity.
  - vm_compute. reflexivity.
Defined.

(** C2 (safety).  Every search through the envelope driver is access-scoped:
    whatever structural query the request carries (one that pairs
    [minimum_should_match] with [should] clauses), a returned document of the
    envelope index is admitted by the compiled filter, and a request without a
    filter returns nothing.  The filter is one of the index's fields, as in C1. *)
Theorem es_seam_access_scoped `{PyRuntime, EnvelopeIndex} (base : option es_query)
    (af : option AccessFilter) (d : document) :
  envelope_doc d = true -> base_query_ok base = true ->
  (forall f, af = Some f -> filter_ok f = true) ->
  body_hit (query_request_to_es base af) d = true ->
  exists f, af = Some f /\ admits f d = true.
Proof.
  intros Hd Hb Hf. destruct af as [f|]; simpl; [|by rewrite es_match_none].
  pose proof (filter_to_es_admits f d Hd (Hf f eq_refl)) as Hex.
  destruct (filter_to_es f) as [q|] eqn:E; simpl in Hex.
  - intros Hhit. exists f; split; [done|]. rewrite <- Hex.
    destruct base as [b|]; [by apply (merge_hit_extra (Some b) q d)|done].
  - intros _. by eauto.
Qed.

Lemma es_seam_access_scoped_witness :
  exists f, Some es_demo_filter = Some f /\ admits (H := demo_runtime) f es_demo_doc = true.
Proof.
  apply (@es_seam_access_scoped demo_runtime (@eval_engine demo_runtime) (@eval_envelope demo_runtime)
           (Some (EsBool [] [EsTerms "owner" ["bob"]] [] [] None)) (Some es_demo_filter) es_demo_doc).
  - vm_compute. reflexivity.
  - reflexivity.
  - intros f Hf. injection Hf as <-. vm_compute. reflexivity.
  - vm_compute. reflexivity.
Defined.

(** Merging the access clause is a conjunction with the
    structural query: nothing the caller asked for and may see is lost. *)
Theorem es_seam_conjunction `{PyRuntime, EnvelopeIndex} (base : option es_query)
    (f : AccessFilter) (d : document) :
  envelope_doc d = true -> base_query_exact base = true -> filter_ok f = true ->
  body_hit (query_request_to_es base (Some f)) d = body_hit base d && admits f d.
Proof.
  intros Hd Hb Hf. simpl.
  pose proof (filter_to_es_admits f d Hd Hf) as Hex.
  destruct (filter_to_es f) as [q|] eqn:E; simpl in Hex.
  - rewrite <- Hex. destruct base as [b|]; [by apply (merge_hit (Some b) q d)|done].
  - by rewrite <- Hex, andb_true_r.
Qed.
