(* ===== verification/CqlEs.v ===== *)
(** * CQL2 filters as Elasticsearch queries and SQL expressions

    [storage/drivers/es_common/cql_to_es.py] (the syntax-tree translator) and
    the two handlers [tools/cql.py] adds to the bundled SQL translator ([LIKE]
    and the temporal predicates).

    The parser and the rest of the SQL translator belong to pygeofilter; the
    search engine is the class [EsEngine] with the leaf laws of [LeafEngine].
    The meaning of a filter is three-valued, as in SQL and the CQL2 standard: a
    comparison with a missing property is neither true nor false
    ([cql_eval]). *)

From Stdlib Require Import QArith.
From S2P Require Import Prelude AccessFilter CqlLike EsLeaf AccessEs.
Open Scope Z_scope.

(** ** Syntax trees *)

Inductive comparison_op : Type := OpEQ | OpNE | OpLT | OpLE | OpGT | OpGE.

Inductive temporal_op : Type :=
| DISJOINT | AFTER | BEFORE | DURING | TOVERLAPS | OVERLAPPEDBY | BEGINS | BEGUNBY
| TCONTAINS | TEQUALS | MEETS | METBY | ENDS | ENDEDBY.

Inductive spatial_op : Type := SIntersects | SDisjoint | SWithin | SContains.

(** Operands.  [OInterval] is a pair the evaluator passes through as a value;
    [OOther] is a node class without a handler (functions, arithmetic). *)
Inductive operand : Type :=
| OAttr (name : string)
| OLit (v : scalar)
| ODate (t : string)
| OInterval (low high : pval)
| OGeometry (members : list (string * string))
| OEnvelope (x1 x2 y1 y2 : Q)
| OOther (kind : string).

Record like_spec : Type := mkLike {
  lk_pattern : scalar;
  lk_nocase : bool;
  lk_wildcard : ascii;
  lk_singlechar : ascii;
  lk_escapechar : ascii;
  lk_not : bool;
}.

Inductive node : Type :=
| NNot (n : node)
| NAnd (l r : node)
| NOr (l r : node)
| NCompare (op : comparison_op) (lhs rhs : operand)
| NBetween (not_ : bool) (lhs low high : operand)
| NIn (not_ : bool) (lhs : operand) (options : list operand)
| NLike (k : like_spec) (lhs : operand)
| NIsNull (not_ : bool) (lhs : operand)
| NExists (not_ : bool) (lhs : operand)
| NTemporal (op : temporal_op) (lhs rhs : operand)
| NSpatial (op : spatial_op) (lhs rhs : operand)
| NBBox (lhs : operand) (minx miny maxx maxy : Q)
| NOther (kind : string).

(** ** Errors *)

Inductive cql_exn : Type :=
| UntranslatableFilterError (what : string)
| UnhashableKey.

Abbreviation res := (sum cql_exn).
Definition rbind {A B} (f : A -> res B) (x : res A) : res B :=
  match x with inl e => inl e | inr a => f a end.
#[local] Notation "x <-- e ;; k" := (rbind (fun x => k) e) (at level 60, e at next level, k at level 200, right associativity).

Fixpoint rmap {A B} (f : A -> res B) (l : list A) : res (list B) :=
  match l with
  | [] => inr []
  | x :: l => y <-- f x ;; ys <-- rmap f l ;; inr (y :: ys)
  end.

(** ** The evaluator *)

Section evaluator.
Context (field_mapping fulltext_mapping : list (string * string)).

Definition attribute (name : string) : res pval :=
  match dict_get name field_mapping with
  | Some path => inr (PVScalar (SStr path))
  | None => inl (UntranslatableFilterError name)
  end.

Definition Qmin' (a b : Q) : Q := if Qle_bool a b then a else b.
Definition Qmax' (a b : Q) : Q := if Qle_bool b a then a else b.

(** Left-top and right-bottom corners. *)
Definition envelope (x1 x2 y1 y2 : Q) : shape :=
  ShEnvelope (Qmin' x1 x2) (Qmax' y1 y2) (Qmax' x1 x2) (Qmin' y1 y2).

Definition eval_operand (o : operand) : res pval :=
  match o with
  | OAttr name => attribute name
  | OLit v => inr (PVScalar v)
  | ODate t => inr (PVDate t)
  | OInterval a b => inr (PVPair a b)
  | OGeometry m => inr (PVShape (ShGeojson m))
  | OEnvelope x1 x2 y1 y2 => inr (PVShape (envelope x1 x2 y1 y2))
  | OOther kind => inl (UntranslatableFilterError kind)
  end.

(** A value as the key of a clause, [{lhs: ...}]: a dict or a list is not
    hashable; a scalar key is sent as its JSON text. *)
Definition as_key (v : pval) : res string :=
  match v with
  | PVScalar (SStr s) => inr s
  | PVScalar (SInt z) => inr (pretty z)
  | PVScalar (SBool b) => inr (if b then "true" else "false")
  | PVScalar SNone => inr "null"
  | PVDate t => inr t
  | PVPair _ _ | PVCoords _ | PVShape _ => inl UnhashableKey
  end.

Definition must_not (q : es_query) : es_query := EsBool [] [] [] [q] None.
Definition negate_if (b : bool) (q : es_query) : es_query := if b then must_not q else q.

Definition COMPARISON_OP_MAP (op : comparison_op) : option range_key :=
  match op with
  | OpLT => Some KLt | OpLE => Some KLte | OpGT => Some KGt | OpGE => Some KGte
  | OpEQ | OpNE => None
  end.

(** [equality] and [comparison] *)
Definition compare_clause (op : comparison_op) (lhs rhs : pval) : res es_query :=
  f <-- as_key lhs ;;
  inr match COMPARISON_OP_MAP op with
      | Some k => EsLeaf (LRange f [(k, rhs)] None)
      | None => negate_if (match op with OpNE => true | _ => false end) (EsLeaf (LTerm f rhs))
      end.

Definition between_clause (not_ : bool) (lhs low high : pval) : res es_query :=
  f <-- as_key lhs ;; inr (negate_if not_ (EsLeaf (LRange f [(KGte, low); (KLte, high)] None))).

Definition in_clause (not_ : bool) (lhs : pval) (options : list pval) : res es_query :=
  f <-- as_key lhs ;; inr (negate_if not_ (EsLeaf (LTerms f options))).

(** [str(node.pattern)] *)
Definition pattern_text (p : scalar) : string :=
  match p with
  | SStr s => s
  | SInt z => pretty z
  | SBool b => if b then "True" else "False"
  | SNone => "None"
  end.

Definition like_clause (k : like_spec) (node_lhs : operand) (lhs : pval) : res es_query :=
  let raw_pattern := pattern_text (lk_pattern k) in
  let fulltext_path :=
    match node_lhs with
    | OAttr name => if name ==s "" then None else dict_get name fulltext_mapping
    | _ => None
    end in
  match fulltext_path with
  | Some path =>
      inr (negate_if (lk_not k) (EsLeaf (LMatch path
        (like_to_match_text (lk_wildcard k) (lk_singlechar k) (lk_escapechar k) raw_pattern))))
  | None =>
      f <-- as_key lhs ;;
      inr (negate_if (lk_not k) (EsLeaf (LWildcard f
        (PVScalar (SStr (like_to_wildcard (lk_wildcard k) (lk_singlechar k) (lk_escapechar k)
                                          raw_pattern)))
        (lk_nocase k))))
  end.

Definition null_clause (not_ : bool) (lhs : pval) : es_query := negate_if (negb not_) (EsLeaf (LExists lhs)).
Definition exists_clause (not_ : bool) (lhs : pval) : es_query := negate_if not_ (EsLeaf (LExists lhs)).

(** [low, high = rhs]: a pair, a text of two characters, or a dict with two
    members (its keys) unpack. *)
Definition unpack2 (v : pval) : option (pval * pval) :=
  match v with
  | PVPair a b => Some (a, b)
  | PVScalar (SStr (String a (String b ""))) =>
      Some (PVScalar (SStr (String a "")), PVScalar (SStr (String b "")))
  | PVShape (ShEnvelope _ _ _ _) => Some (PVScalar (SStr "type"), PVScalar (SStr "coordinates"))
  | PVShape (ShGeojson [(a, _); (b, _)]) => Some (PVScalar (SStr a), PVScalar (SStr b))
  | _ => None
  end.

(** The bounds both temporal handlers start from. *)
Definition temporal_bounds (rhs : pval) : option (pval * pval) :=
  match rhs with
  | PVDate t => Some (PVDate t, PVDate t)
  | _ => unpack2 rhs
  end.

Definition temporal_clause (op : temporal_op) (lhs rhs : pval) : res es_query :=
  match temporal_bounds rhs with
  | None => inl (UntranslatableFilterError "temporal RHS")
  | Some (low, high) =>
      let range bounds relation := f <-- as_key lhs ;; inr (EsLeaf (LRange f bounds relation)) in
      match op with
      | DISJOINT => f <-- as_key lhs ;; inr (must_not (EsLeaf (LRange f [(KGte, low); (KLte, high)] None)))
      | AFTER => range [(KGt, high)] None
      | BEFORE => range [(KLt, low)] None
      | TOVERLAPS | OVERLAPPEDBY => range [(KGte, low); (KLte, high)] None
      | BEGINS => f <-- as_key lhs ;; inr (EsLeaf (LTermValue f low))
      | BEGUNBY => f <-- as_key lhs ;; inr (EsLeaf (LTermValue f high))
      | DURING => range [(KGt, low); (KLt, high)] (Some "WITHIN")
      | TCONTAINS => range [(KGt, low); (KLt, high)] (Some "CONTAINS")
      | TEQUALS | MEETS | METBY | ENDS | ENDEDBY => inl (UntranslatableFilterError "temporal operator")
      end
  end.

Definition relation_name (op : spatial_op) : string :=
  match op with
  | SIntersects => "intersects" | SDisjoint => "disjoint" | SWithin => "within" | SContains => "contains"
  end.

Definition spatial_clause (op : spatial_op) (lhs rhs : pval) : res es_query :=
  f <-- as_key lhs ;; inr (EsLeaf (LGeoShape f rhs (relation_name op))).

Definition bbox_clause (lhs : pval) (minx miny maxx maxy : Q) : res es_query :=
  f <-- as_key lhs ;; inr (EsLeaf (LGeoShape f (PVShape (envelope minx maxx miny maxy)) "intersects")).

Fixpoint cql_ast_to_es_query (n : node) : res es_query :=
  match n with
  | NNot a => sub <-- cql_ast_to_es_query a ;; inr (must_not sub)
  | NAnd a b =>
      l <-- cql_ast_to_es_query a ;; r <-- cql_ast_to_es_query b ;; inr (EsBool [] [l; r] [] [] None)
  | NOr a b =>
      l <-- cql_ast_to_es_query a ;; r <-- cql_ast_to_es_query b ;;
      inr (EsBool [] [] [l; r] [] (Some 1))
  | NCompare op a b => l <-- eval_operand a ;; r <-- eval_operand b ;; compare_clause op l r
  | NBetween not_ a lo hi =>
      l <-- eval_operand a ;; x <-- eval_operand lo ;; y <-- eval_operand hi ;;
      between_clause not_ l x y
  | NIn not_ a opts => l <-- eval_operand a ;; xs <-- rmap eval_operand opts ;; in_clause not_ l xs
  | NLike k a => l <-- eval_operand a ;; like_clause k a l
  | NIsNull not_ a => l <-- eval_operand a ;; inr (null_clause not_ l)
  | NExists not_ a => l <-- eval_operand a ;; inr (exists_clause not_ l)
  | NTemporal op a b => l <-- eval_operand a ;; r <-- eval_operand b ;; temporal_clause op l r
  | NSpatial op a b => l <-- eval_operand a ;; r <-- eval_operand b ;; spatial_clause op l r
  | NBBox a x1 y1 x2 y2 => l <-- eval_operand a ;; bbox_clause l x1 y1 x2 y2
  | NOther kind => inl (UntranslatableFilterError kind)
  end.
End evaluator.

(** ** The handlers of the SQL translator ([_ParityFilterEvaluator])

    A column is named by the property it is mapped from. *)

Inductive sql_expr : Type :=
| SqlCmp (op : comparison_op) (col : string) (v : pval)
| SqlAnd (a b : sql_expr)
| SqlNot (a : sql_expr)
| SqlLike (nocase : bool) (col : string) (pattern : string) (escape : ascii).

(** [pattern] is the node's text (the walk indexes it as a string). *)
Definition pg_like (k : like_spec) (pattern : string) (col : string) : sql_expr :=
  let expr := SqlLike (lk_nocase k) col
    (cql_like_pattern_to_sql (lk_wildcard k) (lk_singlechar k) (lk_escapechar k) pattern)
    (lk_escapechar k) in
  if lk_not k then SqlNot expr else expr.

(** [None] is the [ValueError]. *)
Definition pg_temporal (op : temporal_op) (lhs : string) (rhs : pval) : option sql_expr :=
  match temporal_bounds rhs with
  | None => None
  | Some (low, high) =>
      match op with
      | BEFORE => Some (SqlCmp OpLT lhs low)
      | AFTER => Some (SqlCmp OpGT lhs high)
      | TEQUALS => Some (SqlCmp OpEQ lhs low)
      | DISJOINT => Some (SqlNot (SqlAnd (SqlCmp OpGE lhs low) (SqlCmp OpLE lhs high)))
      | TOVERLAPS | OVERLAPPEDBY => Some (SqlAnd (SqlCmp OpGE lhs low) (SqlCmp OpLE lhs high))
      | BEGINS => Some (SqlCmp OpEQ lhs low)
      | BEGUNBY => Some (SqlCmp OpEQ lhs high)
      | DURING | TCONTAINS => Some (SqlAnd (SqlCmp OpGT lhs low) (SqlCmp OpLT lhs high))
      | MEETS | METBY | ENDS | ENDEDBY => None
      end
  end.

(** ** Three-valued meaning *)

Definition not3 (a : option bool) : option bool := option_map negb a.
Definition and3 (a b : option bool) : option bool :=
  match a, b with
  | Some false, _ | _, Some false => Some false
  | Some true, Some true => Some true
  | _, _ => None
  end.
Definition or3 (a b : option bool) : option bool := not3 (and3 (not3 a) (not3 b)).
Definition not3_if (b : bool) (a : option bool) : option bool := if b then not3 a else a.

Definition op_holds (op : comparison_op) (c : comparison) : bool :=
  match op, c with
  | OpEQ, Eq | OpNE, (Lt | Gt) | OpLT, Lt | OpLE, (Lt | Eq) | OpGT, Gt | OpGE, (Gt | Eq) => true
  | _, _ => false
  end.

(** The value and order of properties, and the relation of the geometry
    properties to a shape ([None] for an item without geometry). *)
Record item_view : Type := mkItem {
  iv_prop : string -> scalar;
  iv_order : string -> scalar -> scalar -> option comparison;
  iv_geo : string -> shape -> string -> option bool;
}.

Section meaning.
Context (it : item_view).

(** A comparison with a missing property, or of values without an order, is
    unknown. *)
Definition prop_order (name : string) (x : pval) : option comparison :=
  match iv_prop it name, json_scalar x with
  | SNone, _ | _, None | _, Some SNone => None
  | v, Some y => iv_order it name v y
  end.
Definition cmp3 (op : comparison_op) (name : string) (x : pval) : option bool :=
  option_map (op_holds op) (prop_order name x).

Fixpoint sql3 (e : sql_expr) : option bool :=
  match e with
  | SqlCmp op col v => cmp3 op col v
  | SqlAnd a b => and3 (sql3 a) (sql3 b)
  | SqlNot a => not3 (sql3 a)
  | SqlLike nocase col p esc =>
      match iv_prop it col with
      | SStr s => option_map (fun ts => glob (same_char nocase) ts s) (sql_like_tokens esc p)
      | _ => None
      end
  end.

(** Literal operands. *)
Definition literal (o : operand) : option pval :=
  match o with
  | OLit v => Some (PVScalar v)
  | ODate t => Some (PVDate t)
  | OInterval a b => Some (PVPair a b)
  | OGeometry m => Some (PVShape (ShGeojson m))
  | OEnvelope x1 x2 y1 y2 => Some (PVShape (envelope x1 x2 y1 y2))
  | OAttr _ | OOther _ => None
  end.

Definition attr_name (o : operand) : option string :=
  match o with OAttr name => Some name | _ => None end.

Definition in3 (name : string) (xs : list pval) : option bool :=
  foldr (fun x acc => or3 (cmp3 OpEQ name x) acc)
        (match iv_prop it name with SNone => None | _ => Some false end) xs.

Definition is_null (v : scalar) : bool := match v with SNone => true | _ => false end.

(** Temporal predicates and [LIKE] mean what the SQL handlers compute;
    the other predicates have the meaning the CQL2 standard gives them. *)
Fixpoint cql_eval (n : node) : option bool :=
  match n with
  | NNot a => not3 (cql_eval a)
  | NAnd a b => and3 (cql_eval a) (cql_eval b)
  | NOr a b => or3 (cql_eval a) (cql_eval b)
  | NCompare op (OAttr p) b => x ← literal b; cmp3 op p x
  | NBetween not_ (OAttr p) lo hi =>
      x ← literal lo; y ← literal hi; not3_if not_ (and3 (cmp3 OpGE p x) (cmp3 OpLE p y))
  | NIn not_ (OAttr p) opts => xs ← mapM literal opts; not3_if not_ (in3 p xs)
  | NLike k (OAttr p) =>
      match lk_pattern k with SStr pat => sql3 (pg_like k pat p) | _ => None end
  | NIsNull not_ (OAttr p) => Some (xorb not_ (is_null (iv_prop it p)))
  | NExists not_ (OAttr p) => Some (xorb not_ (negb (is_null (iv_prop it p))))
  | NTemporal op (OAttr p) b => x ← literal b; e ← pg_temporal op p x; sql3 e
  | NSpatial op (OAttr p) b =>
      x ← literal b; match x with PVShape sh => iv_geo it p sh (relation_name op) | _ => None end
  | NBBox (OAttr p) x1 y1 x2 y2 => iv_geo it p (envelope x1 x2 y1 y2) "intersects"
  | _ => None
  end.
End meaning.

(** ** Filters the translator covers *)

Section covered.
Context (field_mapping fulltext_mapping : list (string * string)).

Definition mapped (o : operand) : bool :=
  match o with
  | OAttr p => match dict_get p field_mapping with Some _ => true | None => false end
  | _ => false
  end.
Definition is_literal (o : operand) : bool :=
  match literal o with Some _ => true | None => false end.
Definition is_scalar_literal (o : operand) : bool :=
  match o with OLit _ | ODate _ => true | _ => false end.

Definition temporal_supported (op : temporal_op) : bool :=
  match op with TEQUALS | MEETS | METBY | ENDS | ENDEDBY => false | _ => true end.

(** The property is on the left and mapped, the other operands are literals of
    the right kind, the temporal operator is one of the translated ones, and a
    [LIKE] is on a keyword field with a pattern [like_backends_agree] covers. *)
Fixpoint covered (n : node) : bool :=
  match n with
  | NNot a => covered a
  | NAnd a b | NOr a b => covered a && covered b
  | NCompare _ a b => mapped a && is_scalar_literal b
  | NBetween _ a lo hi => mapped a && is_scalar_literal lo && is_scalar_literal hi
  | NIn _ a opts => mapped a && forallb is_scalar_literal opts
  | NLike k a =>
      mapped a &&
      match a, lk_pattern k with
      | OAttr p, SStr pat =>
          match dict_get p fulltext_mapping with None => true | Some _ => false end &&
          pattern_lucene_plain (lk_wildcard k) (lk_singlechar k) (lk_escapechar k) pat &&
          negb (Ascii.eqb "%" (lk_escapechar k)) && negb (Ascii.eqb "_" (lk_escapechar k))
      | _, _ => false
      end
  | NIsNull _ a | NExists _ a => mapped a
  | NTemporal op a b =>
      mapped a && temporal_supported op &&
      match literal b with Some x => match temporal_bounds x with Some _ => true | None => false end
                         | None => false end
  | NSpatial _ a b => mapped a && match b with OGeometry _ | OEnvelope _ _ _ _ => true | _ => false end
  | NBBox a _ _ _ _ => mapped a
  | NOther _ => false
  end.
End covered.

(** ** The engine's leaf laws *)

(** The field a scalar leaf clause reads. *)
Definition leaf_field (l : es_leaf) : option string :=
  match l with
  | LTerm f _ | LTermValue f _ | LTerms f _ | LRange f _ _ | LWildcard f _ _ | LMatch f _ => Some f
  | LExists _ | LGeoShape _ _ _ | LMultiMatch _ _ => None
  end.

Class LeafEngine `{EsEngine} := {
  (** order of the index mapping of a field *)
  es_order : string -> scalar -> scalar -> option comparison;
  es_geo : string -> shape -> string -> document -> bool;
  leaf_null l f d : leaf_field l = Some f -> doc_get d f = DScalar SNone ->
    es_hit (EsLeaf l) d = false;
  leaf_term f x y v c d : doc_get d f = DScalar v -> v <> SNone -> json_scalar x = Some y ->
    es_order f v y = Some c ->
    es_hit (EsLeaf (LTerm f x)) d = is_eq c;
  leaf_term_value f x d : es_hit (EsLeaf (LTermValue f x)) d = es_hit (EsLeaf (LTerm f x)) d;
  leaf_terms f xs v d : doc_get d f = DScalar v ->
    es_hit (EsLeaf (LTerms f xs)) d = existsb (fun x => es_hit (EsLeaf (LTerm f x)) d) xs;
  leaf_range_nil f v d rel : doc_get d f = DScalar v -> v <> SNone ->
    es_hit (EsLeaf (LRange f [] rel)) d = true;
  leaf_range_and f k x bs rel v d : doc_get d f = DScalar v ->
    es_hit (EsLeaf (LRange f ((k, x) :: bs) rel)) d =
    es_hit (EsLeaf (LRange f [(k, x)] None)) d && es_hit (EsLeaf (LRange f bs rel)) d;
  leaf_range f k x y v c d : doc_get d f = DScalar v -> v <> SNone -> json_scalar x = Some y ->
    es_order f v y = Some c ->
    es_hit (EsLeaf (LRange f [(k, x)] None)) d = range_key_holds k c;
  leaf_wildcard f p ci s d : doc_get d f = DScalar (SStr s) ->
    es_hit (EsLeaf (LWildcard f (PVScalar (SStr p)) ci)) d = glob (same_char ci) (lucene_tokens p) s;
  leaf_exists f v d : doc_get d f = DScalar v ->
    es_hit (EsLeaf (LExists (PVScalar (SStr f)))) d = negb (is_null v);
  leaf_geo f sh rel d : es_hit (EsLeaf (LGeoShape f (PVShape sh) rel)) d = es_geo f sh rel d;
}.

(** The index document of an item: each mapped property is stored under its
    path, ordered and placed as the property is. *)
Record indexed `{LeafEngine} (field_mapping : list (string * string)) (it : item_view)
    (d : document) : Prop := {
  ix_value p path : dict_get p field_mapping = Some path -> doc_get d path = DScalar (iv_prop it p);
  ix_order p path v y : dict_get p field_mapping = Some path ->
    es_order path v y = iv_order it p v y;
  ix_geo p path sh rel b : dict_get p field_mapping = Some path ->
    iv_geo it p sh rel = Some b -> es_geo path sh rel d = b;
}.

(** ** Correctness of the translation *)

(** Where the three-valued meaning is known, the truth value is it. *)
Definition decides (t : option bool) (x : bool) : Prop := forall b, t = Some b -> x = b.

Lemma decides_not t x : decides t x -> decides (not3 t) (negb x).
Proof. intros D b. destruct t as [c|]; [|done]. intros [= <-]. by rewrite (D c eq_refl). Qed.

Lemma decides_and t u x y : decides t x -> decides u y -> decides (and3 t u) (x && y).
Proof.
  intros Dt Du b. destruct t as [[]|], u as [[]|]; intros [= <-];
    rewrite ?(Dt _ eq_refl), ?(Du _ eq_refl); by rewrite ?andb_false_r.
Qed.

Lemma decides_or t u x y : decides t x -> decides u y -> decides (or3 t u) (x || y).
Proof.
  intros Dt Du. rewrite <- (negb_involutive (x || y)), negb_orb.
  apply decides_not, decides_and; by apply decides_not.
Qed.

#[local] Hint Resolve decides_not decides_and decides_or : core.

Section correct.
Context `{LeafEngine} (fm ft : list (string * string)) (it : item_view) (d : document).
Context (Hix : indexed fm it d).

Lemma must_not_hit q : es_hit (must_not q) d = negb (es_hit q d).
Proof.
  unfold must_not. rewrite es_bool by done. unfold count_hits; cbn.
  by rewrite orb_false_r, andb_true_r.
Qed.

Lemma negate_if_decides not_ t q :
  decides t (es_hit q d) -> decides (not3_if not_ t) (es_hit (negate_if not_ q) d).
Proof. destruct not_; [|done]. cbn. rewrite must_not_hit. auto. Qed.

Lemma and_hit l r : es_hit (EsBool [] [l; r] [] [] None) d = es_hit l d && es_hit r d.
Proof. rewrite es_bool by done. unfold count_hits; cbn. by rewrite !andb_true_r. Qed.

Lemma or_hit l r : es_hit (EsBool [] [] [l; r] [] (Some 1)) d = es_hit l d || es_hit r d.
Proof.
  rewrite es_bool by done. cbn [forallb existsb effective_msm]. rewrite count_hits_pos.
  cbn. by rewrite orb_false_r.
Qed.

Section field.
Context (p f : string) (Hp : dict_get p fm = Some f).

Lemma field_value : doc_get d f = DScalar (iv_prop it p).
Proof. by apply (ix_value _ _ _ Hix). Qed.

Lemma prop_order_es x c :
  prop_order it p x = Some c ->
  iv_prop it p <> SNone /\ exists y, json_scalar x = Some y /\ es_order f (iv_prop it p) y = Some c.
Proof.
  unfold prop_order. destruct (iv_prop it p) eqn:E, (json_scalar x) as [[]|]; try done; intros Ho;
    (split; [done|]); eexists; (split; [done|]);
    rewrite <- (ix_order _ _ _ Hix p f) in Ho by done; exact Ho.
Qed.

Lemma term_decides x : decides (cmp3 it OpEQ p x) (es_hit (EsLeaf (LTerm f x)) d).
Proof.
  intros b. unfold cmp3. destruct (prop_order it p x) as [c|] eqn:E; [|done]. intros [= <-].
  destruct (prop_order_es x c E) as (Hv & y & Hy & Hc).
  rewrite (leaf_term f x y _ c d field_value) by done. by destruct c.
Qed.

Lemma term_value_decides x : decides (cmp3 it OpEQ p x) (es_hit (EsLeaf (LTermValue f x)) d).
Proof. rewrite leaf_term_value. apply term_decides. Qed.

Lemma range_decides op k x :
  COMPARISON_OP_MAP op = Some k ->
  decides (cmp3 it op p x) (es_hit (EsLeaf (LRange f [(k, x)] None)) d).
Proof.
  intros Hk b. unfold cmp3. destruct (prop_order it p x) as [c|] eqn:E; [|done]. intros [= <-].
  destruct (prop_order_es x c E) as (Hv & y & Hy & Hc).
  rewrite (leaf_range f k x y _ c d field_value) by done.
  destruct op; simplify_eq/=; by destruct c.
Qed.

Lemma ne_decides x : decides (cmp3 it OpNE p x) (negb (es_hit (EsLeaf (LTerm f x)) d)).
Proof.
  replace (cmp3 it OpNE p x) with (not3 (cmp3 it OpEQ p x)); [by apply decides_not, term_decides|].
  unfold cmp3. by destruct (prop_order it p x) as [[]|].
Qed.

Lemma compare_decides op x q :
  compare_clause op (PVScalar (SStr f)) x = inr q -> decides (cmp3 it op p x) (es_hit q d).
Proof.
  intros [= <-]. destruct op; cbn;
    rewrite ?must_not_hit; by eauto using term_decides, ne_decides, range_decides.
Qed.

(** Two bounds, on a property that is present or in a comparison that is
    known. *)
Lemma range2_decides o1 o2 k1 k2 x y rel :
  COMPARISON_OP_MAP o1 = Some k1 -> COMPARISON_OP_MAP o2 = Some k2 ->
  decides (and3 (cmp3 it o1 p x) (cmp3 it o2 p y))
          (es_hit (EsLeaf (LRange f [(k1, x); (k2, y)] rel)) d).
Proof.
  intros H1 H2. destruct (decide (iv_prop it p = SNone)) as [En|En].
  - intros b. unfold cmp3, prop_order. by rewrite En.
  - rewrite (leaf_range_and f k1 x [(k2, y)] rel _ d field_value).
    rewrite (leaf_range_and f k2 y [] rel _ d field_value).
    rewrite (leaf_range_nil f _ d rel field_value En), andb_true_r.
    apply decides_and; by apply range_decides.
Qed.

Lemma in_decides xs : decides (in3 it p xs) (es_hit (EsLeaf (LTerms f xs)) d).
Proof.
  rewrite (leaf_terms f xs _ d field_value). unfold in3.
  induction xs as [|x xs IH]; cbn [foldr existsb].
  - intros b. by destruct (iv_prop it p); intros [= <-].
  - apply decides_or; [apply term_decides|exact IH].
Qed.

Lemma wildcard_decides k pat :
  pattern_lucene_plain (lk_wildcard k) (lk_singlechar k) (lk_escapechar k) pat = true ->
  Ascii.eqb "%" (lk_escapechar k) = false -> Ascii.eqb "_" (lk_escapechar k) = false ->
  decides (sql3 it (pg_like k pat p))
    (es_hit (negate_if (lk_not k) (EsLeaf (LWildcard f
       (PVScalar (SStr (like_to_wildcard (lk_wildcard k) (lk_singlechar k) (lk_escapechar k) pat)))
       (lk_nocase k)))) d).
Proof.
  intros Hpl H1 H2.
  set (e := SqlLike (lk_nocase k) p (cql_like_pattern_to_sql (lk_wildcard k) (lk_singlechar k)
                                       (lk_escapechar k) pat) (lk_escapechar k)).
  replace (sql3 it (pg_like k pat p)) with (not3_if (lk_not k) (sql3 it e))
    by (unfold pg_like; fold e; by destruct (lk_not k)).
  apply negate_if_decides. intros b. unfold e; cbn [sql3].
  destruct (iv_prop it p) as [| | |s] eqn:E; try done.
  rewrite sql_like_tokens_exact by done. intros [= <-].
  rewrite (leaf_wildcard f _ _ s d) by by rewrite field_value, E. by rewrite lucene_tokens_exact.
Qed.

Lemma exists_hit_prop : es_hit (EsLeaf (LExists (PVScalar (SStr f)))) d = negb (is_null (iv_prop it p)).
Proof. apply leaf_exists, field_value. Qed.

Lemma temporal_decides op x q e :
  temporal_clause op (PVScalar (SStr f)) x = inr q -> pg_temporal op p x = Some e ->
  decides (sql3 it e) (es_hit q d).
Proof.
  unfold temporal_clause, pg_temporal. destruct (temporal_bounds x) as [[lo hi]|]; [|done].
  destruct op; intros [= <-] [= <-]; cbn [sql3]; rewrite ?must_not_hit;
    eauto using range_decides, range2_decides, term_value_decides.
Qed.

Lemma geo_decides sh rel :
  decides (iv_geo it p sh rel) (es_hit (EsLeaf (LGeoShape f (PVShape sh) rel)) d).
Proof. intros b Hb. rewrite leaf_geo. by apply (ix_geo _ _ _ Hix p). Qed.
End field.
End correct.

Section translate.
Context (fm ft : list (string * string)).

Lemma eval_literal o x : literal o = Some x -> eval_operand fm o = inr x.
Proof. by destruct o; intros [= <-]. Qed.

Lemma scalar_literal o : is_scalar_literal o = true -> exists x, literal o = Some x.
Proof. destruct o; cbn; eauto; done. Qed.

Lemma eval_mapped o :
  mapped fm o = true -> exists p f, o = OAttr p /\ dict_get p fm = Some f /\
    eval_operand fm o = inr (PVScalar (SStr f)).
Proof.
  destruct o; try done. cbn. unfold attribute. destruct (dict_get name fm) eqn:E; [|done].
  intros _. eauto.
Qed.

Lemma eval_literals os xs : mapM literal os = Some xs -> rmap (eval_operand fm) os = inr xs.
Proof.
  revert xs. induction os as [|o os IH]; cbn; [by intros xs [= <-]|]. intros xs.
  destruct (literal o) eqn:E; [|done]. cbn. destruct (mapM literal os) eqn:Em; [|done]. cbn.
  intros [= <-]. rewrite (eval_literal _ _ E). cbn. by rewrite (IH l).
Qed.

Lemma scalar_literals os : forallb is_scalar_literal os = true -> exists xs, mapM literal os = Some xs.
Proof.
  induction os as [|o os IH]; cbn; [by eauto|]. intros [[x Hx]%scalar_literal Hos]%andb_true_iff.
  destruct (IH Hos) as [xs Hxs]. exists (x :: xs). by rewrite Hx; cbn; rewrite Hxs.
Qed.

(** A covered filter translates, and the query decides it. *)
Definition translated `{LeafEngine} (n : node) : Prop :=
  exists q, cql_ast_to_es_query fm ft n = inr q /\
    forall it d, indexed fm it d -> decides (cql_eval it n) (es_hit q d).

Ltac use_mapped H :=
  let p := fresh "p" in let f := fresh "f" in let Hf := fresh "Hf" in let He := fresh "He" in
  apply eval_mapped in H as (p & f & -> & Hf & He).
Ltac finish_leaf := eexists; split; [reflexivity|intros it d Hix].

Lemma compare_translated `{LeafEngine} op a b :
  mapped fm a && is_scalar_literal b = true -> translated (NCompare op a b).
Proof.
  intros [Ha [x Hx]%scalar_literal]%andb_true_iff. use_mapped Ha. unfold translated.
  cbn [cql_ast_to_es_query cql_eval]. rewrite He, (eval_literal _ _ Hx), Hx. cbn [rbind].
  finish_leaf. by apply (compare_decides fm it d Hix p f Hf op x).
Qed.

Lemma between_translated `{LeafEngine} nt a lo hi :
  mapped fm a && is_scalar_literal lo && is_scalar_literal hi = true -> translated (NBetween nt a lo hi).
Proof.
  intros [[Ha [x Hx]%scalar_literal]%andb_true_iff [y Hy]%scalar_literal]%andb_true_iff.
  use_mapped Ha. unfold translated. cbn [cql_ast_to_es_query cql_eval].
  rewrite He, (eval_literal _ _ Hx), Hx, (eval_literal _ _ Hy), Hy. cbn [rbind between_clause as_key].
  finish_leaf. apply negate_if_decides. by apply (range2_decides fm it d Hix p f Hf).
Qed.

Lemma in_translated `{LeafEngine} nt a opts :
  mapped fm a && forallb is_scalar_literal opts = true -> translated (NIn nt a opts).
Proof.
  intros [Ha [xs Hxs]%scalar_literals]%andb_true_iff. use_mapped Ha. unfold translated.
  cbn [cql_ast_to_es_query cql_eval]. rewrite He, (eval_literals _ _ Hxs), Hxs.
  cbn [rbind in_clause as_key]. finish_leaf. apply negate_if_decides.
  by apply (in_decides fm it d Hix p f Hf).
Qed.

Lemma like_translated `{LeafEngine} k a :
  covered fm ft (NLike k a) = true -> translated (NLike k a).
Proof.
  cbn [covered]. intros [Ha Hk]%andb_true_iff. use_mapped Ha.
  destruct (lk_pattern k) as [| | |pat] eqn:Ek; try done. bool_hyps.
  destruct (dict_get p ft) eqn:Eft; [done|]. unfold translated.
  cbn [cql_ast_to_es_query cql_eval]. rewrite He, Ek. cbn [rbind]. unfold like_clause.
  rewrite Eft. rewrite Ek. replace (if p ==s "" then None else None : option string) with (@None string)
    by by destruct (p ==s "").
  cbn [rbind as_key pattern_text]. finish_leaf.
  by apply (wildcard_decides fm it d Hix p f Hf).
Qed.

Lemma temporal_translated `{LeafEngine} op a b :
  covered fm ft (NTemporal op a b) = true -> translated (NTemporal op a b).
Proof.
  cbn [covered]. intros ?; bool_hyps.
  match goal with Ha : mapped fm a = true |- _ => use_mapped Ha end.
  destruct (literal b) as [x|] eqn:Hx; [|done].
  destruct (temporal_bounds x) as [[lo hi]|] eqn:Hb; [|done].
  unfold translated. cbn [cql_ast_to_es_query cql_eval]. rewrite He, (eval_literal _ _ Hx), Hx.
  cbn [rbind]. assert (exists q, temporal_clause op (PVScalar (SStr f)) x = inr q) as [q Hq].
  { unfold temporal_clause. rewrite Hb. destruct op; cbn; by eauto. }
  exists q. split; [done|]. intros it d Hix. cbn [mbind option_bind].
  destruct (pg_temporal op p x) as [e|] eqn:Ee; [|by intros ?].
  by apply (temporal_decides fm it d Hix p f Hf op x).
Qed.

Lemma spatial_translated `{LeafEngine} op a b :
  covered fm ft (NSpatial op a b) = true -> translated (NSpatial op a b).
Proof.
  cbn [covered]. intros [Ha Hb]%andb_true_iff. use_mapped Ha. unfold translated.
  destruct b; try done; cbn [cql_ast_to_es_query cql_eval eval_operand]; cbn [eval_operand] in He;
    rewrite He; cbn [rbind spatial_clause as_key]; finish_leaf;
    by apply (geo_decides fm it d Hix p f Hf).
Qed.

Lemma covered_translated `{LeafEngine} n : covered fm ft n = true -> translated n.
Proof.
  induction n as [n IH|l IHl r IHr|l IHl r IHr|op a b|nt a lo hi|nt a opts|k a|nt a|nt a|op a b|op a b
                 |a x1 y1 x2 y2|kind];
    eauto using compare_translated, between_translated, in_translated, like_translated,
      temporal_translated, spatial_translated; cbn [covered]; intros Hc.
  - destruct (IH Hc) as (q & Hq & Hd). exists (must_not q). cbn [cql_ast_to_es_query cql_eval].
    rewrite Hq. split; [done|]. intros it d Hix. rewrite must_not_hit. auto.
  - bool_hyps. destruct IHl as (q & Hq & Hd), IHr as (q' & Hq' & Hd'); [done..|].
    eexists. cbn [cql_ast_to_es_query cql_eval]. rewrite Hq, Hq'. split; [done|].
    intros it d Hix. rewrite and_hit. auto.
  - bool_hyps. destruct IHl as (q & Hq & Hd), IHr as (q' & Hq' & Hd'); [done..|].
    eexists. cbn [cql_ast_to_es_query cql_eval]. rewrite Hq, Hq'. split; [done|].
    intros it d Hix. rewrite or_hit. auto.
  - use_mapped Hc. unfold translated. cbn [cql_ast_to_es_query cql_eval]. rewrite He.
    finish_leaf. unfold null_clause. intros b [= <-].
    destruct nt; cbn; rewrite ?must_not_hit, (exists_hit_prop fm it d Hix p f Hf);
      by destruct (is_null _).
  - use_mapped Hc. unfold translated. cbn [cql_ast_to_es_query cql_eval]. rewrite He.
    finish_leaf. unfold exists_clause. intros b [= <-].
    destruct nt; cbn; rewrite ?must_not_hit, (exists_hit_prop fm it d Hix p f Hf);
      by destruct (is_null _).
  - use_mapped Hc. unfold translated. cbn [cql_ast_to_es_query cql_eval]. rewrite He.
    finish_leaf. by apply (geo_decides fm it d Hix p f Hf).
  - done.
Qed.
End translate.

(** ** Which filters translate *)

Section translatable.
Context (fm ft : list (string * string)).

Definition operand_ok (o : operand) : bool :=
  match o with OAttr _ => mapped fm o | OOther _ => false | _ => true end.
(** ... and can be the key of a clause. *)
Definition key_ok (o : operand) : bool :=
  match o with OInterval _ _ | OGeometry _ | OEnvelope _ _ _ _ => false | _ => operand_ok o end.
Definition fulltext_operand (o : operand) : bool :=
  match o with
  | OAttr p => negb (p ==s "") && match dict_get p ft with Some _ => true | None => false end
  | _ => false
  end.
(** The bounds of a temporal operand. *)
Definition operand_bounds (o : operand) : bool :=
  match eval_operand fm o with
  | inr x => match temporal_bounds x with Some _ => true | None => false end
  | inl _ => false
  end.

Fixpoint translatable (n : node) : bool :=
  match n with
  | NNot a => translatable a
  | NAnd a b | NOr a b => translatable a && translatable b
  | NCompare _ a b => key_ok a && operand_ok b
  | NBetween _ a lo hi => key_ok a && operand_ok lo && operand_ok hi
  | NIn _ a opts => key_ok a && forallb operand_ok opts
  | NLike _ a => operand_ok a && (fulltext_operand a || key_ok a)
  | NIsNull _ a | NExists _ a => operand_ok a
  | NTemporal op a b => key_ok a && operand_bounds b && temporal_supported op
  | NSpatial _ a b => key_ok a && operand_ok b
  | NBBox a _ _ _ _ => key_ok a
  | NOther _ => false
  end.

Definition is_inr {E A} (x : E + A) : bool := match x with inr _ => true | inl _ => false end.

Lemma operand_inr o : is_inr (eval_operand fm o) = operand_ok o.
Proof. destruct o; try done. cbn. unfold attribute. by destruct (dict_get name fm). Qed.

Lemma key_inr o : is_inr (rbind as_key (eval_operand fm o)) = key_ok o.
Proof.
  destruct o as [p|[]| | | | |]; try done. cbn. unfold attribute. by destruct (dict_get p fm).
Qed.

Lemma rmap_inr os : is_inr (rmap (eval_operand fm) os) = forallb operand_ok os.
Proof.
  induction os as [|o os IH]; [done|]. cbn. rewrite <- operand_inr, <- IH.
  destruct (eval_operand fm o); [done|]. cbn. by destruct (rmap _ os).
Qed.

Lemma translatable_inr n : is_inr (cql_ast_to_es_query fm ft n) = translatable n.
Proof.
  induction n as [n IH|l IHl r IHr|l IHl r IHr|op a b|nt a lo hi|nt a opts|k a|nt a|nt a|op a b|op a b
                 |a x1 y1 x2 y2|kind]; cbn [translatable cql_ast_to_es_query].
  - rewrite <- IH. by destruct (cql_ast_to_es_query fm ft n).
  - rewrite <- IHl, <- IHr.
    destruct (cql_ast_to_es_query fm ft l); [done|]. by destruct (cql_ast_to_es_query fm ft r).
  - rewrite <- IHl, <- IHr.
    destruct (cql_ast_to_es_query fm ft l); [done|]. by destruct (cql_ast_to_es_query fm ft r).
  - rewrite <- key_inr, <- operand_inr. destruct (eval_operand fm a) as [|x]; [done|].
    destruct (eval_operand fm b); cbn; [by destruct (as_key x)|].
    unfold compare_clause. by destruct (as_key x).
  - rewrite <- key_inr, <- !operand_inr. destruct (eval_operand fm a) as [|x]; [done|].
    destruct (eval_operand fm lo); cbn; [by destruct (as_key x)|].
    destruct (eval_operand fm hi); cbn; unfold between_clause; by destruct (as_key x).
  - rewrite <- key_inr, <- rmap_inr. destruct (eval_operand fm a) as [|x]; [done|].
    destruct (rmap _ opts); cbn; unfold in_clause; by destruct (as_key x).
  - rewrite <- key_inr, <- operand_inr. destruct (eval_operand fm a) as [|x] eqn:Ea; [done|].
    cbn [rbind is_inr]. unfold like_clause, fulltext_operand.
    destruct a as [p| | | | | |]; cbn [orb andb]; try by destruct (as_key x).
    destruct (p ==s ""); [by destruct (as_key x)|].
    destruct (dict_get p ft); [done|by destruct (as_key x)].
  - rewrite <- operand_inr. by destruct (eval_operand fm a).
  - rewrite <- operand_inr. by destruct (eval_operand fm a).
  - rewrite <- key_inr. unfold operand_bounds. destruct (eval_operand fm a) as [|x]; [done|].
    destruct (eval_operand fm b) as [|y]; cbn [rbind]; [by rewrite andb_false_r|].
    unfold temporal_clause. destruct (temporal_bounds y) as [[]|]; [|by rewrite andb_false_r].
    destruct op; cbn; by destruct (as_key x).
  - rewrite <- key_inr, <- operand_inr. destruct (eval_operand fm a) as [|x]; [done|].
    destruct (eval_operand fm b); cbn; unfold spatial_clause; by destruct (as_key x).
  - rewrite <- key_inr. destruct (eval_operand fm a) as [|x]; [done|].
    cbn. unfold bbox_clause. by destruct (as_key x).
  - done.
Qed.
End translatable.

(** ** A concrete engine *)

Section instance.
Context `{PyRuntime}.
#[local] Existing Instance eval_engine.

Lemma compare_to_order v x y c :
  json_scalar x = Some y -> scalar_order v y = Some c -> compare_to v x = Some c.
Proof. unfold compare_to. by intros ->. Qed.

Lemma compare_to_null x : compare_to SNone x = None.
Proof. unfold compare_to. by destruct (json_scalar x) as [[]|]. Qed.

#[global] Instance eval_leaf_engine : LeafEngine.
Proof.
  refine {| es_order := fun _ => scalar_order; es_geo := demo_geo |}; try done.
  - intros l f d Hl E. destruct l; simplify_eq/=; rewrite E, ?compare_to_null; try done.
    apply existsb_none. intros x _. by rewrite compare_to_null.
  - intros f x y v c d E _ Hy Hc. cbn. by rewrite E, (compare_to_order _ _ _ _ Hy Hc).
  - intros f xs v d E. cbn. by rewrite E.
  - intros f v d rel E Hv. cbn. rewrite E. by destruct v.
  - intros f k x bs rel v d E. cbn. rewrite E. destruct v; [done|..]; by rewrite andb_true_r.
  - intros f k x y v c d E Hv Hy Hc. cbn. rewrite E, (compare_to_order _ _ _ _ Hy Hc).
    destruct v; [done|..]; by rewrite andb_true_r.
  - intros f p ci s d E. cbn. by rewrite E.
  - intros f v d E. cbn. rewrite E. by destruct v.
Defined.
End instance.

(** ** Properties *)

(** C5 (refinement).  A covered CQL2 filter translates to a query that returns an indexed
    item exactly as the three-valued meaning of the filter says, wherever that meaning
    is known: for any nesting of [AND], [OR], [NOT], comparisons, [BETWEEN], [IN],
    [LIKE], null tests, temporal and spatial predicates, on every engine with the
    documented clause semantics. Covered are filters whose predicates have a mapped
    property on the left and literals (scalars in comparisons) on the right, with
    translated temporal operators, and with [LIKE] on fields without full text by
    patterns free of the characters Lucene takes for wildcards. [LIKE] and the temporal
    predicates are compared with the expressions the SQL handlers build, so the two back
    ends agree on them. *)
Theorem cql_to_es_exact `{LeafEngine} (field_mapping fulltext_mapping : list (string * string))
    (n : node) :
  covered field_mapping fulltext_mapping n = true ->
  exists q, cql_ast_to_es_query field_mapping fulltext_mapping n = inr q /\
    forall (it : item_view) (d : document) (b : bool),
      indexed field_mapping it d -> cql_eval it n = Some b -> es_hit q d = b.
Proof.
  intros Hc. destruct (covered_translated _ _ n Hc) as (q & Hq & Hd).
  exists q. split; [done|]. intros it d b Hix. by apply Hd.
Qed.

Definition demo_mapping : list (string * string) :=
  [("name", "properties.name.keyword"); ("pop", "properties.pop");
   ("datetime", "properties.datetime"); ("geometry", "geometry")].
Definition demo_node : node :=
  NAnd (NOr (NCompare OpGT (OAttr "pop") (OLit (SInt 1000)))
            (NLike (mkLike (SStr "ro.e%") true "%" "." "\" false) (OAttr "name")))
       (NAnd (NNot (NTemporal DURING (OAttr "datetime") (OInterval (PVDate "2020") (PVDate "2021"))))
             (NBBox (OAttr "geometry") 0 0 10 10)).
Definition demo_item_doc (name : scalar) (pop : scalar) (dt : string) (x y : Z) : document :=
  [("properties.name.keyword", DScalar name); ("properties.pop", DScalar pop);
   ("properties.datetime", DScalar (SStr dt)); ("geometry.x", DScalar (SInt x)); ("geometry.y", DScalar (SInt y))].
(** The item of a document, under the mapping. *)
Definition demo_view (d : document) : item_view := {|
  iv_prop p := match dict_get p demo_mapping with
               | Some path => match doc_get d path with DScalar v => v | DSeq _ => SNone end
               | None => SNone
               end;
  iv_order _ := scalar_order;
  iv_geo p sh rel := option_map (fun b : bool => if rel ==s "disjoint" then negb b else b) (point_in d sh);
|}.

Definition doc_flat (d : document) : bool :=
  forallb (fun kv => match kv.2 with DScalar _ => true | DSeq _ => false end) d.

Lemma doc_flat_get d f : doc_flat d = true -> exists v, doc_get d f = DScalar v.
Proof.
  unfold doc_flat, doc_get. induction d as [|[k v] d IH]; cbn; [by eauto|].
  intros [Hv Hd]%andb_true_iff. destruct (f ==s k); [|auto]. destruct v; [by eauto|done].
Qed.

Lemma demo_indexed d :
  doc_flat d = true -> indexed (H := @eval_engine demo_runtime) demo_mapping (demo_view d) d.
Proof.
  intros Hflat. split.
  - intros p path Hp. unfold demo_view; cbn [iv_prop]. rewrite Hp.
    by destruct (doc_flat_get d path Hflat) as [v ->].
  - done.
  - intros p path sh rel b _.
    change (option_map (fun b : bool => if rel ==s "disjoint" then negb b else b) (point_in d sh) = Some b ->
            demo_geo path sh rel d = b).
    unfold demo_geo. destruct (point_in _ sh); [by intros [= <-]|done].
Qed.

Lemma cql_to_es_exact_witness :
  exists q, cql_ast_to_es_query demo_mapping [] demo_node = inr q /\
    es_eval (H := demo_runtime) q (demo_item_doc (SStr "Rome") (SInt 5) "2022" 3 4) = true /\
    es_eval (H := demo_runtime) q (demo_item_doc (SStr "Rome") (SInt 5) "2020-06" 3 4) = false /\
    es_eval (H := demo_runtime) q (demo_item_doc SNone (SInt 5000) "2022" 3 4) = true.
Proof.
  destruct (@cql_to_es_exact (@eval_engine demo_runtime) (@eval_leaf_engine demo_runtime)
              demo_mapping [] demo_node eq_refl) as (q & Hq & Hd).
  exists q. split; [exact Hq|].
  split; [|split]; (eapply Hd; [apply demo_indexed; reflexivity|vm_compute; reflexivity]).
Defined.

(** C7 (error).  The translator refuses exactly the filters it cannot express:
    it raises (and the search falls back to PostgreSQL) if and only if some
    property is not in the field mapping, some node or temporal operator has
    no handler, a temporal operand has no bounds, or a clause would be keyed by
    a geometry or an interval.  No part of a filter is dropped silently. *)
Theorem cql_to_es_refuses (field_mapping fulltext_mapping : list (string * string)) (n : node) :
  (exists e, cql_ast_to_es_query field_mapping fulltext_mapping n = inl e) <->
  translatable field_mapping fulltext_mapping n = false.
Proof.
  rewrite <- translatable_inr. destruct (cql_ast_to_es_query _ _ n) as [e|q]; cbn.
  - split; [done|]. intros _. by exists e.
  - split; [by intros [? ?]|done].
Qed.

(** ** Limits *)

(** A missing property: [<>], [NOT LIKE], [NOT IN] and the temporal [DISJOINT]
    are unknown for it, and the [must_not] clause returns the item. *)
Lemma negation_returns_missing :
  let d := demo_item_doc SNone (SInt 5) "2022" 3 4 in
  let n := NCompare OpNE (OAttr "name") (OLit (SStr "Rome")) in
  cql_eval (demo_view d) n = None /\
  exists q, cql_ast_to_es_query demo_mapping [] n = inr q /\ es_eval (H := demo_runtime) q d = true.
Proof. split; [reflexivity|]. eexists; split; reflexivity. Qed.

(** The same predicate in the SQL handlers drops the item: the row filter keeps
    a row only when the expression is true. *)
Lemma not_like_missing_differs :
  let d := demo_item_doc SNone (SInt 5) "2022" 3 4 in
  let k := mkLike (SStr "R%") false "%" "." "\" true in
  sql3 (demo_view d) (pg_like k "R%" "name") = None /\
  exists q, cql_ast_to_es_query demo_mapping [] (NLike k (OAttr "name")) = inr q /\
    es_eval (H := demo_runtime) q d = true.
Proof. split; [reflexivity|]. eexists; split; reflexivity. Qed.

(** A property on the right is not refused: its index path is compared as if it
    were a text. *)
Lemma property_operand_is_text :
  cql_ast_to_es_query [("a", "properties.a"); ("b", "properties.b")] []
    (NCompare OpEQ (OAttr "a") (OAttr "b")) =
  inr (EsLeaf (LTerm "properties.a" (PVScalar (SStr "properties.b")))) /\
  (** and a literal on the left becomes the field *)
  cql_ast_to_es_query [("a", "properties.a")] []
    (NCompare OpLT (OLit (SInt 5)) (OAttr "a")) =
  inr (EsLeaf (LRange "5" [(KLt, PVScalar (SStr "properties.a"))] None)).
Proof. split; reflexivity. Qed.
