(* ===== verification/EsItems.v ===== *)
(** * The items query of the Elasticsearch drivers

    [elasticsearch/items_query.py] (structural dimensions), the base
    [_query_request_to_es] of [storage/drivers/elasticsearch.py] (attribute
    predicates and the pre-translated CQL2 clause), and its composition with
    the access seam of the envelope driver (AccessEs).

    [request_matches] says what a request asks for, document by document, by the
    documentation of [QueryRequest] and [FilterOperator]; [request_ok] selects the
    requests the driver answers that way, and the limits at the end say where it
    does not.  The theorem of this file is that the query body the envelope driver
    sends returns exactly the documents that the request asks for and the
    caller's access filter admits. *)

From Stdlib Require Import QArith.
From S2P Require Import Prelude AccessFilter CqlLike EsLeaf AccessEs CqlEs.
Open Scope Z_scope.

(** ** Structural dimensions ([items_query.py]) *)

Record EnvelopeFields : Type := mkEF {
  ef_collection : string;
  ef_item_id : string;
  ef_geoid : string;
  ef_external_id : string;
}.
Definition PUBLIC_ENVELOPE_FIELDS : EnvelopeFields := mkEF "collection" "id" "id" "external_id".
Definition PRIVATE_ENVELOPE_FIELDS : EnvelopeFields := mkEF "collection_id" "geoid" "geoid" "external_id".
Definition ENVELOPE_FIELDS : EnvelopeFields := mkEF "collection_id" "geoid" "geoid" "external_id".

(** [value.split("/", 1)]: the text before and after the first slash. *)
Fixpoint split_slash (s : string) : option (string * string) :=
  match s with
  | EmptyString => None
  | String c r =>
      if Ascii.eqb c "/" then Some ("", r)
      else match split_slash r with Some (a, b) => Some (String c a, b) | None => None end
  end.

Definition open_bound (s : string) : option string := if s ==s ".." then None else Some s.

Definition parse_rfc3339_interval (value : option string) : option string * option string :=
  match value with
  | None | Some EmptyString => (None, None)
  | Some v =>
      match split_slash v with
      | Some (a, b) => (open_bound a, open_bound b)
      | None => (Some v, Some v)
      end
  end.

(** [if gte: r["gte"] = gte] *)
Definition bound_entry (k : range_key) (b : option string) : list (range_key * pval) :=
  match b with
  | None | Some EmptyString => []
  | Some t => [(k, PVScalar (SStr t))]
  end.

Definition dt_field : string := "properties.datetime".

Definition parse_datetime_filter (datetime_str : option string) : option es_query :=
  match datetime_str with
  | None | Some EmptyString => None
  | Some v =>
      match split_slash v with
      | Some _ =>
          let (gte, lte) := parse_rfc3339_interval (Some v) in
          Some (EsLeaf (LRange dt_field (bound_entry KGte gte ++ bound_entry KLte lte) None))
      | None =>
          Some (EsBool [] [] [EsLeaf (LTerm dt_field (PVScalar (SStr v)));
                              EsLeaf (LRange dt_field [(KLte, PVScalar (SStr v))] None)] [] None)
      end
  end.

Record items_args : Type := mkArgs {
  ia_q : option string;
  ia_ids : option (list string);
  ia_geoid : option (list string);
  ia_external_id : option (list string);
  ia_collections : option (list string);
  ia_bbox : option (list Q);
  ia_intersects : option (list (string * string));
  ia_datetime : option string;
}.

(** [if xs: filter_.append({"terms": {field: xs}})] *)
Definition terms_entry (field : string) (xs : option (list string)) : list es_query :=
  match xs with None | Some [] => [] | Some l => [EsTerms field l] end.

Definition envelope_clause (lon_min lat_min lon_max lat_max : Q) : es_query :=
  EsLeaf (LGeoShape "geometry" (PVShape (ShEnvelope lon_min lat_max lon_max lat_min)) "intersects").

(** [None]: unpacking [bbox[:4]] raises [ValueError]. *)
Definition spatial_entry (a : items_args) : option (list es_query) :=
  match ia_bbox a with
  | Some ((_ :: _) as bbox) =>
      match bbox with
      | lon_min :: lat_min :: lon_max :: lat_max :: _ =>
          Some [envelope_clause lon_min lat_min lon_max lat_max]
      | _ => None
      end
  | _ =>
      match ia_intersects a with
      | Some ((_ :: _) as g) => Some [EsLeaf (LGeoShape "geometry" (PVShape (ShGeojson g)) "intersects")]
      | _ => Some []
      end
  end.

Definition text_entry (fields : EnvelopeFields) (q : option string) : list es_query :=
  match q with
  | None | Some EmptyString => []
  | Some t => [EsLeaf (LMultiMatch t (ef_item_id fields))]
  end.

Definition build_items_query (fields : EnvelopeFields) (a : items_args) : option es_query :=
  spatial ← spatial_entry a;
  let must := text_entry fields (ia_q a) in
  let filter_ :=
    terms_entry (ef_item_id fields) (ia_ids a) ++
    terms_entry (ef_geoid fields) (ia_geoid a) ++
    terms_entry (ef_external_id fields) (ia_external_id a) ++
    terms_entry (ef_collection fields) (ia_collections a) ++
    spatial ++
    match parse_datetime_filter (ia_datetime a) with Some q => [q] | None => [] end in
  match must, filter_ with
  | [], [] => Some EsMatchAll
  | _, _ => Some (EsBool must filter_ [] [] None)
  end.

(** ** The request ([_query_request_to_es] of the base driver) *)

Inductive fvalue : Type :=
| FScalar (v : scalar)
| FSeq (coords : list Q).

Record FilterCondition : Type := mkFC { fc_field : string; fc_operator : string; fc_value : fvalue }.

Record QueryRequest : Type := mkRequest {
  qr_filters : list FilterCondition;
  qr_item_ids : option (list string);
  qr_collections : option (list string);
  qr_bbox : option (list Q);
  qr_intersects : option (list (string * string));
  qr_datetime : option string;
  qr_es_filter : option es_query;
  qr_access_filter : option AccessFilter;
}.

Definition identity_remap (fields : EnvelopeFields) (f : string) : string :=
  match f with
  | "external_id" => ef_external_id fields
  | "geoid" => ef_geoid fields
  | "id" => ef_item_id fields
  | "collection_id" | "collection" => ef_collection fields
  | _ => f
  end.

Definition value_pval (v : fvalue) : pval :=
  match v with FScalar s => PVScalar s | FSeq cs => PVCoords cs end.

(** One iteration of the attribute loop; an operator without a branch adds
    nothing. *)
Definition attribute_entry (fields : EnvelopeFields) (f : FilterCondition) : list es_query :=
  let op := fc_operator f in
  let resolved_field := identity_remap fields (fc_field f) in
  if (op ==s "eq") || (op ==s "=") then [EsLeaf (LTerm resolved_field (value_pval (fc_value f)))]
  else if (op ==s "like") || (op ==s "ilike") then
    [EsLeaf (LWildcard resolved_field (value_pval (fc_value f)) false)]
  else if ((op ==s "bbox") || (op ==s "&&")) && (fc_field f ==s "geometry") then
    match fc_value f with
    | FSeq (c0 :: c1 :: c2 :: c3 :: _) => [envelope_clause c0 c1 c2 c3]
    | _ => []
    end
  else [].

Definition request_args (r : QueryRequest) : items_args :=
  mkArgs None (qr_item_ids r) None None (qr_collections r) (qr_bbox r) (qr_intersects r) (qr_datetime r).

Definition fold_musts (inner : es_query) (extra_must : list es_query) : es_query :=
  match extra_must with
  | [] => inner
  | _ =>
      match inner with
      | EsBool must fl should mn msm => EsBool (must ++ extra_must) fl should mn msm
      | _ => EsBool extra_must [] [] [] None
      end
  end.

(** The inner query of the body; [None] is the [ValueError]. *)
Definition base_query_request_to_es (fields : EnvelopeFields) (r : QueryRequest) : option es_query :=
  inner ← build_items_query fields (request_args r);
  let inner := fold_musts inner (flat_map (attribute_entry fields) (qr_filters r)) in
  Some match qr_es_filter r with
       | Some es_filter => merge_es_filter (Some inner) es_filter
       | None => inner
       end.

(** The envelope driver: the base query under the access seam. *)
Definition envelope_query_request_to_es (r : QueryRequest) : option es_query :=
  base ← base_query_request_to_es ENVELOPE_FIELDS r;
  query_request_to_es (Some base) (qr_access_filter r).

(** ** What a request asks for *)

Section asks.
Context `{LeafEngine} (fields : EnvelopeFields) (d : document).

Definition ids_match (field : string) (xs : option (list string)) : bool :=
  match xs with None | Some [] => true | Some l => field_matches (mkFP field l) d end.

(** The item's instant compared with a bound. *)
Definition date_bound (k : range_key) (b : option string) : bool :=
  match b with
  | None | Some EmptyString => true
  | Some t =>
      match doc_get d dt_field with
      | DScalar v => match es_order dt_field v (SStr t) with
                     | Some c => range_key_holds k c
                     | None => false
                     end
      | DSeq _ => false
      end
  end.

(** An interval asks for an instant between its bounds; a bare instant for that
    instant. *)
Definition date_match (dt : option string) : bool :=
  match dt with
  | None | Some EmptyString => true
  | Some v =>
      negb (match doc_get d dt_field with DScalar v => is_null v | DSeq _ => true end) &&
      match split_slash v with
      | Some (a, b) => date_bound KGte (open_bound a) && date_bound KLte (open_bound b)
      | None => date_bound KGte (Some v) && date_bound KLte (Some v)
      end
  end.

Definition envelope_match (a b c e : Q) : bool := es_geo "geometry" (ShEnvelope a e c b) "intersects" d.

(** A box of two or of three dimensions. *)
Definition box_match (bbox : list Q) : bool :=
  match bbox with
  | [a; b; c; e] | [a; b; _; c; e; _] => envelope_match a b c e
  | _ => false
  end.

Definition spatial_match (bbox : option (list Q)) (g : option (list (string * string))) : bool :=
  match bbox with
  | Some ((_ :: _) as bbox) => box_match bbox
  | _ => match g with
         | Some ((_ :: _) as g) => es_geo "geometry" (ShGeojson g) "intersects" d
         | _ => true
         end
  end.

(** Equality of a scalar with a present field; a text against a pattern of SQL's
    LIKE, in any case for [ilike]; a bounding box. *)
Definition condition_match (f : FilterCondition) : bool :=
  let op := fc_operator f in
  let field := identity_remap fields (fc_field f) in
  match fc_value f with
  | FScalar x =>
      match doc_get d field with
      | DScalar SNone | DSeq _ => false
      | DScalar v =>
          if (op ==s "eq") || (op ==s "=")
          then match es_order field v x with Some c => is_eq c | None => false end
          else match v, x with
               | SStr s, SStr p => match sql_like_tokens "\" p with Some ts => glob (same_char (op ==s "ilike")) ts s | None => false end
               | _, _ => false
               end
      end
  | FSeq box => box_match box
  end.

Definition request_matches (r : QueryRequest) : bool :=
  ids_match (ef_item_id fields) (qr_item_ids r) &&
  ids_match (ef_collection fields) (qr_collections r) &&
  spatial_match (qr_bbox r) (qr_intersects r) &&
  date_match (qr_datetime r) &&
  forallb condition_match (qr_filters r).
End asks.

(** Requests the driver answers as documented: two-dimensional boxes, intervals of
    time, and attribute predicates that are an equality or a box. *)
Definition box_ok (b : list Q) : bool := (length b =? 4)%nat.
Definition bbox_ok (b : option (list Q)) : bool :=
  match b with None | Some [] => true | Some b => box_ok b end.
Definition datetime_ok (dt : option string) : bool :=
  match dt with
  | None | Some EmptyString => true
  | Some v => match split_slash v with Some _ => true | None => false end
  end.
Definition is_eq_op (op : string) : bool := (op ==s "eq") || (op ==s "=").
Definition condition_ok (f : FilterCondition) : bool :=
  let op := fc_operator f in
  match fc_value f with
  | FScalar x => is_eq_op op
  | FSeq b => box_ok b && ((op ==s "bbox") || (op ==s "&&")) && (fc_field f ==s "geometry")
  end.
Definition request_ok (r : QueryRequest) : bool :=
  bbox_ok (qr_bbox r) && datetime_ok (qr_datetime r) && forallb condition_ok (qr_filters r).

(** The document's fields the request compares hold one value each, ordered with
    what they are compared with. *)
Definition ordered_at `{LeafEngine} (d : document) (f : string) (x : scalar) : Prop :=
  exists v, doc_get d f = DScalar v /\ (v = SNone \/ exists c, es_order f v x = Some c).
(** The bounds of an interval that are not open. *)
Definition asked_bounds (dt : string) : list string :=
  match split_slash dt with Some (a, b) => omap open_bound [a; b] | None => [dt] end.
Definition date_ordered `{LeafEngine} (d : document) (dt : string) : Prop :=
  exists v, doc_get d dt_field = DScalar v /\
    forall t, t ∈ asked_bounds dt -> v = SNone \/ exists c, es_order dt_field v (SStr t) = Some c.
Record comparable `{LeafEngine} (fields : EnvelopeFields) (r : QueryRequest) (d : document) : Prop := {
  cm_date dt : qr_datetime r = Some dt -> date_ordered d dt;
  cm_attr f x : f ∈ qr_filters r -> fc_value f = FScalar x -> ordered_at d (identity_remap fields (fc_field f)) x;
}.

(** ** Lemmas *)

(** The index answers the identity dimensions as they are meant. *)
Definition ids_exact `{EsEngine} (fields : EnvelopeFields) (d : document) : Prop :=
  forall f vs, f = ef_item_id fields \/ f = ef_collection fields -> es_hit (EsTerms f vs) d = field_matches (mkFP f vs) d.
Lemma envelope_ids_exact `{EnvelopeIndex} d : envelope_doc d = true -> ids_exact ENVELOPE_FIELDS d.
Proof. intros Hd f vs [-> | ->]; by apply es_terms_field. Qed.

Section hits.
Context `{LeafEngine} (fields : EnvelopeFields) (d : document) (Hids : ids_exact fields d).
#[local] Abbreviation hits qs := (forallb (fun q => es_hit q d) qs).

Lemma terms_entry_hit f xs : f = ef_item_id fields \/ f = ef_collection fields -> hits (terms_entry f xs) = ids_match d f xs.
Proof.
  intros Hf. destruct xs as [[|x xs]|]; [done| |done]. cbn [terms_entry forallb ids_match].
  by rewrite Hids, andb_true_r.
Qed.

Lemma envelope_hit a b c e : es_hit (envelope_clause a b c e) d = envelope_match d a b c e.
Proof. apply leaf_geo. Qed.

Lemma spatial_entry_hit a :
  bbox_ok (ia_bbox a) = true ->
  exists qs, spatial_entry a = Some qs /\ hits qs = spatial_match d (ia_bbox a) (ia_intersects a).
Proof.
  unfold spatial_entry, bbox_ok, box_ok. destruct (ia_bbox a) as [[|x [|y [|z [|w [|]]]]]|]; try done; intros _.
  2: { eexists; split; [reflexivity|]. cbn [forallb spatial_match box_match]. by rewrite envelope_hit, andb_true_r. }
  all: destruct (ia_intersects a) as [[|g gs]|]; (eexists; split; [reflexivity|]); [done| |done];
    cbn [forallb spatial_match]; by rewrite leaf_geo, andb_true_r.
Qed.

(** One bound of the instant. *)
Lemma bound_hit k b v :
  (forall t, b = Some t -> v = SNone \/ exists c, es_order dt_field v (SStr t) = Some c) ->
  doc_get d dt_field = DScalar v -> v <> SNone ->
  hits (map (fun kx => EsLeaf (LRange dt_field [kx] None)) (bound_entry k b)) = date_bound d k b.
Proof.
  intros Ho Hv Hn. destruct b as [[|c t]|]; try done. cbn [bound_entry map forallb date_bound].
  rewrite Hv. destruct (Ho (String c t) eq_refl) as [|[cc Hc]]; [done|].
  rewrite (leaf_range dt_field k (PVScalar (SStr (String c t))) (SStr (String c t)) v cc d Hv Hn eq_refl Hc), Hc.
  by rewrite andb_true_r.
Qed.

Lemma range_bounds_hit f bs v :
  doc_get d f = DScalar v -> v <> SNone ->
  es_hit (EsLeaf (LRange f bs None)) d = hits (map (fun kx => EsLeaf (LRange f [kx] None)) bs).
Proof.
  intros Hv Hn. induction bs as [|[k x] bs IH]; cbn [map forallb].
  - by apply (leaf_range_nil f v d None).
  - by rewrite (leaf_range_and f k x bs None v d Hv), IH.
Qed.

Lemma date_hit dt :
  (forall v, dt = Some v -> date_ordered d v) -> datetime_ok dt = true ->
  hits (match parse_datetime_filter dt with Some q => [q] | None => [] end) = date_match d dt.
Proof.
  intros Ho. destruct dt as [[|c t]|]; try done.
  cbn [parse_datetime_filter date_match parse_rfc3339_interval datetime_ok].
  destruct (Ho _ eq_refl) as (v & Hv & Hb). unfold asked_bounds in Hb. rewrite Hv.
  destruct (split_slash (String c t)) as [[a b]|] eqn:Es; [|done]. intros _. cbn [forallb]; rewrite andb_true_r.
  destruct (decide (v = SNone)) as [->|Hn]; [by apply (leaf_null _ dt_field)|].
  rewrite (range_bounds_hit _ _ v Hv Hn), map_app, forallb_app.
  assert (forall k x, x ∈ [a; b] -> hits (map (fun kx => EsLeaf (LRange dt_field [kx] None)) (bound_entry k (open_bound x))) = date_bound d k (open_bound x)) as Hbound.
  { intros k x Hx. apply (bound_hit _ _ v); [|done..]. intros u Hu. apply Hb, list_elem_of_omap. by exists x. }
  rewrite !Hbound by (rewrite !elem_of_cons; tauto). by destruct v.
Qed.

Lemma attribute_hit r f :
  comparable fields r d -> f ∈ qr_filters r -> condition_ok f = true ->
  hits (attribute_entry fields f) = condition_match fields d f.
Proof.
  intros Hcm Hin Hok. pose proof (cm_attr _ _ _ Hcm f) as Hat.
  unfold attribute_entry, condition_match. unfold condition_ok, box_ok in Hok.
  destruct (fc_value f) as [x|[|a [|b [|c [|e [|]]]]]]; try done.
  - specialize (Hat x Hin eq_refl). unfold is_eq_op in *. cbn [value_pval]. rewrite Hok.
    destruct Hat as (v & Hv & Hc). cbn [forallb]. rewrite Hv, andb_true_r.
    destruct (decide (v = SNone)) as [->|Hn]; [by eapply leaf_null|].
    destruct Hc as [|[cc Hc]]; [done|].
    rewrite (leaf_term _ (PVScalar x) x v cc d Hv Hn eq_refl Hc), Hc. by destruct v.
  - cbn [length Nat.eqb andb] in Hok. apply andb_true_iff in Hok as [Hop ->]. rewrite andb_true_r.
    apply orb_true_iff in Hop as [E|E]; apply String.eqb_eq in E; rewrite E;
      cbn -[envelope_clause]; by rewrite envelope_hit, andb_true_r.
Qed.
End hits.

(** ** The body *)

(** [match_all], or a [bool] of [must] and [filter] clauses only. *)
Definition plain_bool (q : es_query) : bool :=
  match q with
  | EsMatchAll => true
  | EsBool must fl [] [] None => match must ++ fl with [] => false | _ => true end
  | _ => false
  end.

Lemma plain_bool_exact q : plain_bool q = true -> base_query_exact (Some q) = true.
Proof.
  destruct q as [| | | |must fl [] [] []|]; try done. cbn. unfold bool_lawful.
  rewrite !app_nil_r. by destruct (must ++ fl).
Qed.

(** The translator's queries carry their [minimum_should_match]. *)
Lemma cql_query_exact fm ft n q :
  cql_ast_to_es_query fm ft n = inr q -> base_query_exact (Some q) = true.
Proof.
  assert (forall b q, base_query_exact (Some q) = true -> base_query_exact (Some (negate_if b q)) = true)
    as Hneg by by intros [].
  destruct n; cbn [cql_ast_to_es_query];
    unfold compare_clause, between_clause, in_clause, like_clause, temporal_clause, spatial_clause,
      bbox_clause, null_clause, exists_clause, rbind;
    intros; repeat (case_match; simplify_eq); first [done|by apply Hneg].
Qed.

Section body.
Context `{LeafEngine} (fields : EnvelopeFields) (d : document) (Hids : ids_exact fields d).
#[local] Abbreviation hits qs := (forallb (fun q => es_hit q d) qs).

Lemma plain_bool_hit must fl :
  must ++ fl <> [] -> es_hit (EsBool must fl [] [] None) d = hits must && hits fl.
Proof.
  intros Hne. rewrite es_bool.
  - unfold count_hits; cbn. by rewrite !andb_true_r.
  - unfold bool_lawful. rewrite !app_nil_r. by destruct (must ++ fl).
Qed.

Lemma fold_musts_hit q ms :
  plain_bool q = true ->
  es_hit (fold_musts q ms) d = es_hit q d && hits ms /\ plain_bool (fold_musts q ms) = true.
Proof.
  intros Hq. destruct ms as [|m ms]; [by rewrite andb_true_r|].
  destruct q as [| | | |must fl [] [] []|]; try done; unfold fold_musts.
  - rewrite plain_bool_hit by done. cbn [forallb]. by rewrite es_match_all, andb_true_r.
  - cbn [plain_bool] in Hq. split; [|by cbn; destruct must].
    rewrite !plain_bool_hit by (by destruct must, fl).
    rewrite forallb_app. destruct (hits must), (hits fl), (hits (m :: ms)); done.
Qed.

(** The structural query returns the documents of the structural dimensions. *)
Lemma structural_hit r :
  bbox_ok (qr_bbox r) = true -> datetime_ok (qr_datetime r) = true -> (forall dt, qr_datetime r = Some dt -> date_ordered d dt) ->
  exists q, build_items_query fields (request_args r) = Some q /\ plain_bool q = true /\
    es_hit q d = ids_match d (ef_item_id fields) (qr_item_ids r) &&
                 ids_match d (ef_collection fields) (qr_collections r) &&
                 spatial_match d (qr_bbox r) (qr_intersects r) && date_match d (qr_datetime r).
Proof.
  intros Hb Hdt Ho. destruct (spatial_entry_hit d (request_args r) Hb) as (qs & Hqs & Hsp).
  unfold build_items_query. rewrite Hqs. cbn [mbind option_bind request_args ia_q text_entry].
  cbn [request_args ia_bbox ia_intersects] in Hsp.
  set (fl := terms_entry (ef_item_id fields) (qr_item_ids r) ++
             terms_entry (ef_collection fields) (qr_collections r) ++ qs ++
             match parse_datetime_filter (qr_datetime r) with Some q => [q] | None => [] end).
  assert (hits fl = ids_match d (ef_item_id fields) (qr_item_ids r) &&
                    ids_match d (ef_collection fields) (qr_collections r) &&
                    spatial_match d (qr_bbox r) (qr_intersects r) && date_match d (qr_datetime r)) as Hfl.
  { unfold fl. rewrite !forallb_app, !(terms_entry_hit fields d Hids), Hsp, date_hit by auto.
    by rewrite !andb_assoc. }
  change (terms_entry (ef_item_id fields) (ia_ids (request_args r)) ++ _) with fl.
  destruct fl as [|q fl'].
  - exists EsMatchAll. by rewrite es_match_all, <- Hfl.
  - exists (EsBool [] (q :: fl') [] [] None). by rewrite plain_bool_hit.
Qed.

Lemma attributes_hit r :
  comparable fields r d -> forallb condition_ok (qr_filters r) = true ->
  hits (flat_map (attribute_entry fields) (qr_filters r)) =
  forallb (condition_match fields d) (qr_filters r).
Proof.
  intros Hcm Hok.
  assert (forall l, l ⊆ qr_filters r ->
    hits (flat_map (attribute_entry fields) l) = forallb (condition_match fields d) l) as Hl.
  { induction l as [|f l IH]; [done|]. intros Hs. cbn [flat_map forallb].
    rewrite forallb_app, IH by set_solver. rewrite (attribute_hit fields d r); [done..|set_solver|].
    apply (proj1 (forallb_elem _ _) Hok). set_solver. }
  by apply Hl.
Qed.

(** The base query, with the translated filter as its last conjunct. *)
Lemma base_hit r :
  request_ok r = true -> comparable fields r d ->
  (forall e, qr_es_filter r = Some e -> base_query_exact (Some e) = true) ->
  exists q, base_query_request_to_es fields r = Some q /\ base_query_exact (Some q) = true /\
    es_hit q d = request_matches fields d r &&
                 match qr_es_filter r with Some e => es_hit e d | None => true end.
Proof.
  intros Hok Hcm He. unfold request_ok in Hok. bool_hyps.
  destruct (structural_hit r) as (q & Hq & Hp & Hh); [done|done|apply Hcm|].
  unfold base_query_request_to_es. rewrite Hq. cbn [mbind option_bind].
  destruct (fold_musts_hit q (flat_map (attribute_entry fields) (qr_filters r)) Hp) as [Hf Hfp].
  rewrite Hh, attributes_hit in Hf by done. apply plain_bool_exact in Hfp as Hfe.
  destruct (qr_es_filter r) as [e|].
  - specialize (He e eq_refl). eexists; split; [reflexivity|]. split.
    + destruct (fold_musts _ _) as [| | | |must fl [] [] []|]; try done.
      cbn. unfold bool_lawful. rewrite !app_nil_r. by destruct must, fl.
    + rewrite (merge_hit (Some _)) by done. cbn [body_hit]. by rewrite Hf.
  - eexists; split; [reflexivity|]. split; [done|]. by rewrite Hf, andb_true_r.
Qed.
End body.

(** The envelope seam on an exact base query. *)
Lemma seam_hit `{PyRuntime, EnvelopeIndex} base f d :
  envelope_doc d = true -> base_query_exact (Some base) = true -> filter_ok f = true ->
  exists body, query_request_to_es (Some base) (Some f) = Some body /\
    es_hit body d = es_hit base d && admits f d.
Proof.
  intros Hd Hb Hf. pose proof (filter_to_es_admits f d Hd Hf) as Had. cbn [query_request_to_es access_filter_to_es].
  destruct (filter_to_es f) as [c|]; cbn [body_hit] in Had; eexists; (split; [reflexivity|]).
  - by rewrite (merge_hit (Some base)), Had by done.
  - by rewrite <- Had, andb_true_r.
Qed.

(** ** Properties *)

(** The request with the clause of its CQL2 filter and the caller's access
    filter. *)
Definition scoped_request (r : QueryRequest) (clause : es_query) (f : AccessFilter) : QueryRequest :=
  mkRequest (qr_filters r) (qr_item_ids r) (qr_collections r) (qr_bbox r) (qr_intersects r)
            (qr_datetime r) (Some clause) (Some f).


Definition demo_request : QueryRequest :=
  mkRequest [mkFC "external_id" "eq" (FScalar (SStr "x1"));
             mkFC "geometry" "bbox" (FSeq [0; 0; 10; 10]%Q)]
            (Some ["g1"; "g2"]) (Some ["c1"]) (Some [0; 0; 5; 5]%Q) None (Some "2021/..") None None.
Definition demo_search_doc : document :=
  [("collection_id", DScalar (SStr "c1")); ("geoid", DScalar (SStr "g1")); ("external_id", DScalar (SStr "x1"));
   ("owner", DScalar (SStr "ann")); ("properties.name.keyword", DScalar (SStr "Rome"));
   ("properties.pop", DScalar (SInt 5)); ("properties.datetime", DScalar (SStr "2022"));
   ("geometry.x", DScalar (SInt 3)); ("geometry.y", DScalar (SInt 4))].
Definition demo_scope : AccessFilter :=
  from_clauses [mkClause [PField (mkFP "collection_id" ["c1"])]] [mkClause [PField (mkFP "owner" ["eve"])]] false.


(** ** Limits *)

(** An attribute predicate with an operator the loop does not know (every
    [FilterOperator] but [eq], [like], [ilike], [bbox] and [&&]) is dropped: the
    driver sends the query of the request without it. *)
Lemma unknown_operator_dropped fields r f :
  fc_operator f ∈ ["ne"; "neq"; "gt"; "gte"; "lt"; "lte"; "in"; "nin"; "isnull"; "isnotnull";
                   "intersects"; "disjoint"; "within"; "contains"; "dwithin"; "@>"; "<@"] ->
  base_query_request_to_es fields
    (mkRequest (f :: qr_filters r) (qr_item_ids r) (qr_collections r) (qr_bbox r) (qr_intersects r)
               (qr_datetime r) (qr_es_filter r) (qr_access_filter r)) =
  base_query_request_to_es fields r.
Proof.
  intros Hop. unfold base_query_request_to_es. cbn [qr_filters flat_map qr_es_filter].
  replace (attribute_entry fields f) with (@nil es_query).
  - destruct r; done.
  - unfold attribute_entry.
    repeat (apply elem_of_cons in Hop as [->|Hop]; [done|]). by apply elem_of_nil in Hop.
Qed.

(** A [LIKE] predicate carries SQL's pattern; the [wildcard] clause reads its
    ["%"] as a literal, and [ilike] stays case-sensitive. *)
Lemma like_condition_is_not_sql_like :
  let f := mkFC "properties.name" "ilike" (FScalar (SStr "ro%")) in
  attribute_entry ENVELOPE_FIELDS f = [EsLeaf (LWildcard "properties.name" (PVScalar (SStr "ro%")) false)] /\
  leaf_eval (LWildcard "properties.name" (PVScalar (SStr "ro%")) false)
            [("properties.name", DScalar (SStr "rome"))] = false /\
  option_map (fun ts => glob (same_char true) ts "rome") (sql_like_tokens "\" "ro%") = Some true.
Proof. repeat split. Qed.

(** A three-dimensional bounding box [minx, miny, minz, maxx, maxy, maxz] is cut
    to its first four numbers: the depth is read as the eastern bound. *)
Lemma bbox_3d_misread :
  spatial_entry (mkArgs None None None None None (Some [0; 0; -(1); 10; 10; 1]%Q) None None) =
  Some [envelope_clause 0 0 (-(1)) 10].
Proof. reflexivity. Qed.

(** A bare instant asks for every item up to it. *)
Lemma instant_returns_earlier :
  exists q, parse_datetime_filter (Some "2022") = Some q /\
    es_eval (H := demo_runtime) q [(dt_field, DScalar (SStr "1999"))] = true.
Proof. eexists; split; reflexivity. Qed.
