(* ===== verification/EsFields.v ===== *)
(** * Field paths of the queryable properties

    [classify_container] of [storage/computed_fields.py] and
    [build_es_field_mapping] / [build_es_fulltext_mapping] of
    [storage/drivers/es_common/cql_to_es.py]: where in an index document a
    queryable property is looked up.  The mapping built here is the
    [field_mapping] of the translator (CqlEs). *)

From S2P Require Import Prelude AccessFilter CqlLike EsLeaf AccessEs CqlEs.

Record FieldDefinition : Type := mkField {
  fd_data_type : string;
  fd_container : string;
  fd_expose : bool;
  fd_fulltext : bool;
}.

(** ** [computed_fields.py] *)

Definition SYSTEM_FIELD_KEYS : list string :=
  ["geoid"; "external_id"; "asset_id"; "geometry_hash"; "attributes_hash"; "validity";
   "transaction_time"; "deleted_at"; "write_id"; "access_owner"].
Definition IDENTITY_FIELD_NAMES : list string := ["external_id"; "asset_id"; "geoid"].
Definition SYSTEM_ONLY_FIELD_NAMES : list string :=
  List.filter (fun n => negb (str_mem n IDENTITY_FIELD_NAMES)) SYSTEM_FIELD_KEYS.
Definition METADATA_FIELD_NAMES : list string :=
  ["title"; "description"; "keywords"; "item_title"; "item_description"; "item_keywords"].
Definition GEOMETRY_STAT_BASE_NAMES : list string :=
  ["area"; "volume"; "perimeter"; "length"; "centroid"; "bbox"; "vertex_count"; "hole_count";
   "circularity"; "convexity"; "aspect_ratio"; "surface_area"; "surface_to_volume_ratio";
   "net_floor_area"; "centroid_3d"; "z_range"; "vertical_gradient"; "temporal_duration"].

(** [^(s2|h3|geohash)_(?:res_?)?\d+$] *)
Definition after (p s : string) : option string :=
  if String.prefix p s then Some (str_drop (String.length p) s) else None.
Fixpoint digits_end (s : string) : bool :=
  match s with
  | EmptyString => true
  | String c r => if is_digit c then digits_end r
                  else Ascii.eqb c "010" && match r with EmptyString => true | _ => false end
  end.
Definition digits1_end (s : string) : bool :=
  match s with String c r => is_digit c && digits_end r | EmptyString => false end.
Definition resolution_token (s : string) : bool :=
  digits1_end s ||
  match after "res" s with
  | Some r => digits1_end r || match after "_" r with Some r' => digits1_end r' | None => false end
  | None => false
  end.
Definition SPATIAL_CELL_PATTERN (name : string) : bool :=
  existsb (fun grid => match after grid name with Some r => resolution_token r | None => false end)
          ["s2_"; "h3_"; "geohash_"].

Definition classify_container (name : string) (field_def : FieldDefinition) : string :=
  if str_mem name IDENTITY_FIELD_NAMES then "identity"
  else if str_mem name SYSTEM_ONLY_FIELD_NAMES then "system"
  else if negb (fd_container field_def ==s "properties") then fd_container field_def
  else if str_mem name METADATA_FIELD_NAMES then "metadata"
  else if str_mem name GEOMETRY_STAT_BASE_NAMES then "stats"
  else if SPATIAL_CELL_PATTERN name then "stats"
  else "properties".

(** ** [cql_to_es.py] *)

Definition ENVELOPE_FIELD_PATHS : list (string * string) :=
  [("external_id", "external_id"); ("asset_id", "asset_id"); ("geoid", "geoid"); ("id", "id");
   ("geometry", "geometry"); ("datetime", "properties.datetime")].
Definition KEYWORD_SUBFIELD_DATA_TYPES : list string := ["string"; "uuid"].

Definition data_type (field_def : FieldDefinition) : string := str_lower (fd_data_type field_def).
Definition is_geometry (field_def : FieldDefinition) : bool :=
  String.prefix "geometry" (data_type field_def).
Definition keyword_suffix (field_def : FieldDefinition) : string :=
  if str_mem (data_type field_def) KEYWORD_SUBFIELD_DATA_TYPES then ".keyword" else "".

(** The body of the loop of [build_es_field_mapping]. *)
Definition es_field_path (private : bool) (name : string) (field_def : FieldDefinition) : string :=
  if is_geometry field_def then "geometry"
  else if name ==s "datetime" then "properties.datetime"
  else match dict_get name ENVELOPE_FIELD_PATHS with
       | Some path => path
       | None =>
           let container := classify_container name field_def in
           if container ==s "stats" then "stats." +:+ name
           else if container ==s "system" then "system." +:+ name
           else if container ==s "identity" then name
           else if private || fd_expose field_def
                then "properties." +:+ name +:+ keyword_suffix field_def
                else "properties.extras." +:+ name +:+ keyword_suffix field_def
       end.

Definition build_es_field_mapping (private : bool) (queryable_fields : list (string * FieldDefinition))
    : list (string * string) :=
  map (fun nf => (nf.1, es_field_path private nf.1 nf.2)) queryable_fields.

Definition build_es_fulltext_mapping (private : bool)
    (queryable_fields : list (string * FieldDefinition)) : list (string * string) :=
  flat_map (fun nf =>
    let (name, field_def) := (nf : string * FieldDefinition) in
    if negb (fd_fulltext field_def) then []
    else if negb (str_mem (data_type field_def) KEYWORD_SUBFIELD_DATA_TYPES) then []
    else if str_mem name (map fst ENVELOPE_FIELD_PATHS) then []
    else if private || fd_expose field_def then [(name, "properties." +:+ name +:+ ".text")]
    else [(name, "properties.extras." +:+ name +:+ ".text")]) queryable_fields.

(** ** Paths as segments *)

Definition dotless (s : string) : bool := no_char "." s.

Lemma split_cons_dot r : str_split "." (String "." r) = "" :: str_split "." r.
Proof. done. Qed.

Lemma split_dotless s r :
  dotless s = true -> str_split "." (s +:+ String "." r) = s :: str_split "." r.
Proof.
  unfold dotless. induction s as [|c s IH]; [done|].
  rewrite no_char_cons. intros [Hc%negb_true_iff Hs]%andb_true_iff. rewrite str_app_cons.
  cbn [str_split]. by rewrite Hc, (IH Hs).
Qed.

Lemma split_last s : dotless s = true -> str_split "." s = [s].
Proof.
  unfold dotless. induction s as [|c s IH]; [done|].
  rewrite no_char_cons. intros [Hc%negb_true_iff Hs]%andb_true_iff.
  cbn [str_split]. by rewrite Hc, (IH Hs).
Qed.

(** Where a property may live, as the segments of its path. *)
Inductive placed (private : bool) (name : string) : list string -> Prop :=
| placed_root : placed private name [name]
| placed_stats : placed private name ["stats"; name]
| placed_system : placed private name ["system"; name]
| placed_property : placed private name ["properties"; name]
| placed_keyword : placed private name ["properties"; name; "keyword"]
| placed_extra : private = false -> placed private name ["properties"; "extras"; name]
| placed_extra_keyword : private = false -> placed private name ["properties"; "extras"; name; "keyword"].
#[local] Hint Constructors placed : core.

Lemma split_prefix (p : string) (name : string) :
  dotless p = true -> dotless name = true -> str_split "." (p +:+ String "." name) = [p; name].
Proof. intros Hp Hn. by rewrite split_dotless, split_last. Qed.

Lemma split_property fd name :
  dotless name = true ->
  str_split "." (name +:+ keyword_suffix fd) = [name] \/
  str_split "." (name +:+ keyword_suffix fd) = [name; "keyword"].
Proof.
  intros Hn. unfold keyword_suffix. destruct (str_mem _ _).
  - right. change (".keyword") with (String "." "keyword"). by apply split_prefix.
  - left. rewrite str_app_nil_r. by apply split_last.
Qed.

Lemma envelope_path_placed private name path :
  dict_get name ENVELOPE_FIELD_PATHS = Some path -> placed private name (str_split "." path).
Proof.
  unfold ENVELOPE_FIELD_PATHS. cbn [dict_get].
  repeat match goal with
         | |- context [name ==s ?k] =>
             destruct (String.eqb_spec name k) as [->|_]; [intros [= <-]; cbn; auto|]
         end. done.
Qed.

Lemma path_placed private name fd :
  is_geometry fd = false -> dotless name = true ->
  placed private name (str_split "." (es_field_path private name fd)).
Proof.
  intros Hg Hn. unfold es_field_path. rewrite Hg.
  destruct (String.eqb_spec name "datetime") as [->|_]; [cbn; auto|].
  destruct (dict_get name ENVELOPE_FIELD_PATHS) as [path|] eqn:E; [by apply envelope_path_placed|].
  cbv zeta. destruct (_ ==s "stats").
  { change ("stats." +:+ name) with ("stats" +:+ String "." name). rewrite split_prefix; auto. }
  destruct (_ ==s "system").
  { change ("system." +:+ name) with ("system" +:+ String "." name). rewrite split_prefix; auto. }
  destruct (_ ==s "identity"); [rewrite split_last; auto|].
  destruct (private || fd_expose fd) eqn:Ep.
  - change ("properties." +:+ ?x) with ("properties" +:+ String "." x). rewrite split_dotless by done.
    destruct (split_property fd name Hn) as [-> | ->]; auto.
  - apply orb_false_iff in Ep as [-> _].
    change ("properties.extras." +:+ ?x) with ("properties" +:+ String "." ("extras" +:+ String "." x)).
    rewrite !split_dotless by done.
    destruct (split_property fd name Hn) as [-> | ->]; auto.
Qed.

Lemma placed_inj private n1 n2 segs :
  placed private n1 segs -> placed private n2 segs ->
  (private = true \/ n1 <> "extras" /\ n2 <> "extras") -> n1 = n2.
Proof.
  intros P1 P2 Hx. inversion P1; subst; inversion P2; subst; try done; naive_solver.
Qed.

(** Two queryable properties never read the same index field:
    the mapping gives distinct properties distinct paths, in the private index
    for every set of names without a dot, in the public index as long as no
    property is called like the extension bucket itself. *)
Theorem queryables_have_distinct_paths (private : bool) (n1 n2 : string) (f1 f2 : FieldDefinition) :
  is_geometry f1 = false -> is_geometry f2 = false -> dotless n1 = true -> dotless n2 = true ->
  (private = true \/ n1 <> "extras" /\ n2 <> "extras") ->
  es_field_path private n1 f1 = es_field_path private n2 f2 -> n1 = n2.
Proof.
  intros G1 G2 D1 D2 Hx Heq.
  apply (placed_inj private n1 n2 (str_split "." (es_field_path private n1 f1)));
    [by apply path_placed|rewrite Heq; by apply path_placed|done].
Qed.

Lemma queryables_have_distinct_paths_witness :
  es_field_path true "a" (mkField "String" "properties" true false) <>
  es_field_path true "area" (mkField "double" "properties" true false).
Proof.
  intros Heq. enough ("a" = "area") by discriminate.
  apply (queryables_have_distinct_paths true "a" "area" (mkField "String" "properties" true false)
           (mkField "double" "properties" true false)); [reflexivity..|left; reflexivity|exact Heq].
Defined.

(** ** Limits *)

(** In the public index an exposed text property called [extras] and a hidden
    numeric one called [keyword] read the same field. *)
Lemma extras_collision :
  es_field_path false "extras" (mkField "string" "properties" true false) =
  es_field_path false "keyword" (mkField "integer" "properties" false false).
Proof. reflexivity. Qed.

(** Descriptive metadata is classified into its own container, which the field
    mapping does not know: it is looked up among the properties. *)
Lemma metadata_looked_up_in_properties :
  classify_container "title" (mkField "string" "properties" true false) = "metadata" /\
  es_field_path true "title" (mkField "string" "properties" true false) = "properties.title.keyword".
Proof. split; reflexivity. Qed.

(** A free-text property of the [stats] or [system] container is searched under
    [properties], where its exact path is not. *)
Lemma fulltext_leaves_container :
  let fd := mkField "string" "system" true true in
  build_es_field_mapping true [("note", fd)] = [("note", "system.note")] /\
  build_es_fulltext_mapping true [("note", fd)] = [("note", "properties.note.text")].
Proof. split; reflexivity. Qed.
