(* ===== verification/Joins.v ===== *)
(** * The join executor

    [joins/executor.py] ([run_join], [index_secondary], [_merge_properties])
    and the shared helpers of [tools/item_stream.py] it uses, with the request
    fields of [joins/models.py] it reads.

    The executor streams the primary features past a dictionary of secondary
    rows.  The reference is the join of the two row lists: every primary
    feature with a key, in order, with the last secondary row of that key, then
    the page of the result. *)

From S2P Require Import Prelude.

Abbreviation props := (list (string * pyval)).

(** A GeoJSON feature: the declared members and the [model_extra] of pydantic.
    A feature without an id has the id [None]. *)
Record Feature : Type := mkFeature {
  ft_id : pyval;
  ft_geometry : option string;
  ft_properties : option props;
  ft_extra : props;
}.

(** [{**a, **b}] *)
Definition props_merge (a b : props) : props := foldl (fun d kv => dict_set kv.1 kv.2 d) a b.
(** [feat.properties or {}] *)
Definition props_of (f : Feature) : props := match ft_properties f with Some p => p | None => [] end.
Definition dict_has {A} (k : string) (d : list (string * A)) : bool :=
  match dict_get k d with Some _ => true | None => false end.

(** ** [tools/item_stream.py] *)

Definition normalize_feature_attributes (f : Feature) : Feature :=
  match ft_extra f with
  | [] => f
  | extra => mkFeature (ft_id f) (ft_geometry f) (Some (props_merge extra (props_of f))) []
  end.

Definition JOIN_SECTIONS : list string := ["system"; "stats"].

(** [sec = src.get(section); isinstance(sec, dict) and join_column in sec] *)
Definition section_value (join_column : string) (src : props) (section : string) : option pyval :=
  match dict_get section src with
  | Some (VDict sec) => dict_get join_column sec
  | _ => None
  end.

Definition first_some {A B} (f : A -> option B) (l : list A) : option B :=
  foldr (fun x acc => match f x with Some y => Some y | None => acc end) None l.

Definition resolve_join_value (f : Feature) (join_column join_source : string) : pyval :=
  let ps := props_of f in
  let extra := ft_extra f in
  if join_source ==s "properties" then
    match dict_get join_column ps with
    | Some v => v
    | None =>
        match first_some (fun src => first_some (section_value join_column src) JOIN_SECTIONS)
                         [ps; extra] with
        | Some v => v
        | None => ft_id f
        end
    end
  else
    match first_some (fun src => section_value join_column src join_source) [ps; extra] with
    | Some v => v
    | None => VNone
    end.

(** ** Dictionaries keyed by a value

    Looking up or storing a list or a dict raises [TypeError]. *)

Definition key_hashable (v : pyval) : bool :=
  match v with VList _ | VDict _ => false | _ => true end.

Abbreviation index := (list (pyval * props)).

Fixpoint idx_get (k : pyval) (i : index) : option props :=
  match i with
  | [] => None
  | (k', r) :: i' => if py_eq k' k then Some r else idx_get k i'
  end.
Fixpoint idx_set (k : pyval) (r : props) (i : index) : index :=
  match i with
  | [] => [(k, r)]
  | (k', r') :: i' => if py_eq k' k then (k', r) :: i' else (k', r') :: idx_set k r i'
  end.

(** ** Requests ([joins/models.py]) *)

Inductive join_type : Type := INNER | LEFT.
Record PagingSpec : Type := mkPaging { pg_limit : Z; pg_offset : Z }.
Record JoinRequest : Type := mkJoin {
  jr_primary_column : string;
  jr_secondary_column : string;
  jr_join_type : join_type;
  jr_enrichment : bool;
  jr_with_geometry : bool;
  jr_attributes : option (list string);
  jr_paging : option PagingSpec;
}.

(** ** [joins/executor.py] *)

Definition merge_properties (primary_props : props) (secondary_props : option props) (enrich : bool)
    (join_col : string) (proj_attrs : option (list string)) : props :=
  let merged :=
    match secondary_props with
    | Some s => if enrich then props_merge primary_props s else primary_props
    | None => primary_props
    end in
  match proj_attrs with
  | Some attrs => List.filter (fun kv => str_mem kv.1 attrs || (kv.1 ==s join_col)) merged
  | None => merged
  end.

(** How the generator ends. *)
Inductive join_end : Type := Completed | TypeErrorRaised.

(** The feature yielded for a (normalised) primary feature and its match. *)
Definition joined_feature (r : JoinRequest) (f : Feature) (m : option props) : Feature :=
  mkFeature (ft_id f) (if jr_with_geometry r then ft_geometry f else None)
    (Some (merge_properties (props_of f) m (jr_enrichment r) (jr_primary_column r) (jr_attributes r))) [].

Fixpoint run_join_loop (r : JoinRequest) (secondary_index : index) (primary : list Feature)
    (skipped yielded : Z) : list Feature * join_end :=
  match primary with
  | [] => ([], Completed)
  | feat0 :: rest =>
      let feat := normalize_feature_attributes feat0 in
      let key := resolve_join_value feat (jr_primary_column r) "properties" in
      if is_VNone key then run_join_loop r secondary_index rest skipped yielded
      else if negb (key_hashable key) then ([], TypeErrorRaised)
      else
        let m := idx_get key secondary_index in
        if match m, jr_join_type r with None, INNER => true | _, _ => false end
        then run_join_loop r secondary_index rest skipped yielded
        else if match jr_paging r with Some p => skipped <? pg_offset p | None => false end
        then run_join_loop r secondary_index rest (skipped + 1) yielded
        else
          let out := joined_feature r feat m in
          let yielded := yielded + 1 in
          if match jr_paging r with Some p => pg_limit p <=? yielded | None => false end
          then ([out], Completed)
          else let (outs, o) := run_join_loop r secondary_index rest skipped yielded in
               (out :: outs, o)
  end.

Definition run_join (r : JoinRequest) (primary : list Feature) (secondary_index : index)
    : list Feature * join_end :=
  run_join_loop r secondary_index primary 0 0.

(** Key and row of a secondary feature. *)
Definition secondary_key (col : string) (f : Feature) : pyval :=
  match dict_get col (props_of f) with Some v => v | None => ft_id f end.
(** [row.setdefault(secondary_column, key)] *)
Definition secondary_row (col : string) (f : Feature) : props :=
  if dict_has col (props_of f) then props_of f
  else props_of f ++ [(col, secondary_key col f)].

(** [None]: a key is not hashable. *)
Fixpoint index_secondary_loop (col : string) (stream : list Feature) (out : index) : option index :=
  match stream with
  | [] => Some out
  | feat0 :: rest =>
      let feat := normalize_feature_attributes feat0 in
      let key := secondary_key col feat in
      if is_VNone key then index_secondary_loop col rest out
      else if negb (key_hashable key) then None
      else index_secondary_loop col rest (idx_set key (secondary_row col feat) out)
  end.
Definition index_secondary (col : string) (stream : list Feature) : option index :=
  index_secondary_loop col stream [].

(** The primitive of the export path. *)
Fixpoint stream_join_features (primary : list Feature) (secondary_index : index)
    (join_column join_source : string) (inner_join : bool) : list Feature * join_end :=
  match primary with
  | [] => ([], Completed)
  | f :: rest =>
      let key := resolve_join_value f join_column join_source in
      if negb (is_VNone key) && negb (key_hashable key) then ([], TypeErrorRaised)
      else
        let m := if is_VNone key then None else idx_get key secondary_index in
        let outs :=
          match m with
          | Some row => [mkFeature (ft_id f) (ft_geometry f) (Some (props_merge (props_of f) row)) []]
          | None => if inner_join then [] else [f]
          end in
        let (rest_outs, o) :=
          stream_join_features rest secondary_index join_column join_source inner_join in
        (outs ++ rest_outs, o)
  end.

(** ** The reference join *)

(** The row of a key is the last secondary row that carries it. *)
Fixpoint last_row (col : string) (key : pyval) (rows : list Feature) : option props :=
  match rows with
  | [] => None
  | f0 :: rest =>
      let f := normalize_feature_attributes f0 in
      match last_row col key rest with
      | Some r => Some r
      | None => if negb (is_VNone (secondary_key col f)) && py_eq (secondary_key col f) key
                then Some (secondary_row col f) else None
      end
  end.

(** What a primary feature contributes, given the row of each key. *)
Definition join_candidate (r : JoinRequest) (row_of : pyval -> option props) (f0 : Feature) : option Feature :=
  let f := normalize_feature_attributes f0 in
  let key := resolve_join_value f (jr_primary_column r) "properties" in
  if is_VNone key then None
  else match row_of key, jr_join_type r with
       | None, INNER => None
       | m, _ => Some (joined_feature r f m)
       end.

Definition page {A} (p : option PagingSpec) (l : list A) : list A :=
  match p with
  | None => l
  | Some p => take (Z.to_nat (pg_limit p)) (drop (Z.to_nat (pg_offset p)) l)
  end.

Definition reference_join (r : JoinRequest) (primary secondary : list Feature) : list Feature :=
  page (jr_paging r)
       (omap (join_candidate r (fun k => last_row (jr_secondary_column r) k secondary)) primary).

(** No join key on either side is a list or a dict. *)
Definition primary_key (r : JoinRequest) (f : Feature) : pyval :=
  resolve_join_value (normalize_feature_attributes f) (jr_primary_column r) "properties".
Definition keys_hashable (r : JoinRequest) (primary secondary : list Feature) : bool :=
  forallb (fun f => key_hashable (primary_key r f)) primary &&
  forallb (fun f => key_hashable (secondary_key (jr_secondary_column r) (normalize_feature_attributes f)))
          secondary.
Definition paging_ok (r : JoinRequest) : bool :=
  match jr_paging r with Some p => (1 <=? pg_limit p) && (0 <=? pg_offset p) | None => true end.

(** ** The index *)

(** Equal key_hashable values have the same hash key. *)
Definition hash_key (v : pyval) : pyval :=
  match v with VBool b => VInt (if b then 1 else 0) | _ => v end.

Lemma py_eq_hash a b :
  key_hashable a = true -> key_hashable b = true -> py_eq a b = true <-> hash_key a = hash_key b.
Proof.
  destruct a as [|x|x|x| |], b as [|y|y|y| |]; try done; intros _ _; cbn [py_eq hash_key].
  - rewrite Bool.eqb_true_iff. split; [by intros ->|]. by destruct x, y.
  - rewrite Z.eqb_eq. naive_solver.
  - rewrite Z.eqb_eq. naive_solver.
  - rewrite Z.eqb_eq. naive_solver.
  - rewrite String.eqb_eq. naive_solver.
Qed.

Lemma py_eq_congr a b c :
  key_hashable a = true -> key_hashable b = true -> key_hashable c = true -> py_eq a b = true ->
  py_eq a c = py_eq b c.
Proof.
  intros Ha Hb Hc Hab%py_eq_hash; [|done..]. apply eq_true_iff_eq.
  rewrite !py_eq_hash by done. by rewrite Hab.
Qed.

Definition idx_ok (i : index) : Prop := Forall (fun kr => key_hashable kr.1 = true) i.

Lemma idx_set_ok k r i : key_hashable k = true -> idx_ok i -> idx_ok (idx_set k r i).
Proof.
  intros Hk. induction 1 as [|[k' r'] i Hk' Hi IH]; cbn; [by repeat constructor|].
  destruct (py_eq k' k); by constructor.
Qed.

Lemma idx_get_set k k' r i :
  key_hashable k = true -> key_hashable k' = true -> idx_ok i ->
  idx_get k (idx_set k' r i) = if py_eq k' k then Some r else idx_get k i.
Proof.
  intros Hk Hk'. induction 1 as [|[k0 r0] i H0 Hi IH]; cbn [idx_set idx_get]; [done|].
  cbn in H0. destruct (py_eq k0 k') eqn:E; cbn [idx_get].
  - rewrite (py_eq_congr k0 k' k) by done. by destruct (py_eq k' k).
  - rewrite IH. destruct (py_eq k0 k) eqn:E0; [|done].
    destruct (py_eq k' k) eqn:E1; [|done]. exfalso.
    apply py_eq_hash in E0, E1; [|done..].
    assert (py_eq k0 k' = true) by (apply py_eq_hash; [done..|congruence]). congruence.
Qed.

Lemma index_secondary_rows col rows out k :
  key_hashable k = true -> idx_ok out ->
  forallb (fun f => key_hashable (secondary_key col (normalize_feature_attributes f))) rows = true ->
  exists i, index_secondary_loop col rows out = Some i /\ idx_ok i /\
    idx_get k i = match last_row col k rows with Some r => Some r | None => idx_get k out end.
Proof.
  intros Hk. revert out. induction rows as [|f rows IH]; intros out Hout; cbn; [by eauto|].
  intros [Hf Hr]%andb_true_iff.
  destruct (is_VNone (secondary_key col (normalize_feature_attributes f))) eqn:En; cbn [negb andb].
  - destruct (IH out Hout Hr) as (i & Hi & Hok & Hg). exists i. split_and!; [done..|].
    rewrite Hg. by destruct (last_row col k rows).
  - rewrite Hf; cbn [negb].
    destruct (IH _ (idx_set_ok _ (secondary_row col (normalize_feature_attributes f)) _ Hf Hout) Hr)
      as (i & Hi & Hok & Hg).
    exists i. split_and!; [done..|]. rewrite Hg, idx_get_set by done.
    destruct (last_row col k rows); [done|]. by destruct (py_eq _ k).
Qed.

(** ** The loop *)

(** What is left of the page when [skipped] features were skipped and
    [yielded] yielded. *)
Definition page_left {A} (p : option PagingSpec) (skipped yielded : Z) (l : list A) : list A :=
  match p with
  | None => l
  | Some p => take (Z.to_nat (pg_limit p - yielded)) (drop (Z.to_nat (pg_offset p - skipped)) l)
  end.

Definition counters_ok (p : option PagingSpec) (skipped yielded : Z) : Prop :=
  match p with
  | None => True
  | Some p => 0 <= skipped <= Z.max 0 (pg_offset p) /\ 0 <= yielded < pg_limit p
  end.

(** One joined feature: skipped, the last of the page, or yielded before the
    rest. *)
Lemma page_left_cons {A} p skipped yielded (x : A) l :
  counters_ok p skipped yielded ->
  page_left p skipped yielded (x :: l) =
  if match p with Some p => skipped <? pg_offset p | None => false end
  then page_left p (skipped + 1) yielded l
  else if match p with Some p => pg_limit p <=? yielded + 1 | None => false end
  then [x] else x :: page_left p skipped (yielded + 1) l.
Proof.
  destruct p as [[limit offset]|]; [|done]. unfold page_left, counters_ok; cbn [pg_limit pg_offset].
  intros [Hs Hy]. destruct (Z.ltb_spec skipped offset).
  - replace (Z.to_nat (offset - skipped)) with (S (Z.to_nat (offset - (skipped + 1)))) by lia. done.
  - replace (Z.to_nat (offset - skipped)) with 0%nat by lia. cbn [drop].
    replace (Z.to_nat (limit - yielded)) with (S (Z.to_nat (limit - (yielded + 1)))) by lia.
    cbn [take]. destruct (Z.leb_spec limit (yielded + 1)); [|done].
    by replace (Z.to_nat (limit - (yielded + 1))) with 0%nat by lia.
Qed.

Lemma omap_step {A B} (g : A -> option B) x l :
  omap g (x :: l) = match g x with Some y => y :: omap g l | None => omap g l end.
Proof. done. Qed.

Lemma run_join_loop_page r i primary skipped yielded :
  counters_ok (jr_paging r) skipped yielded ->
  forallb (fun f => key_hashable (primary_key r f)) primary = true ->
  run_join_loop r i primary skipped yielded =
  (page_left (jr_paging r) skipped yielded
     (omap (join_candidate r (fun k => idx_get k i)) primary), Completed).
Proof.
  revert skipped yielded. induction primary as [|f primary IH]; intros skipped yielded Hc.
  { intros _. cbn. unfold page_left. destruct (jr_paging r); [|done]. by rewrite drop_nil, take_nil. }
  cbn [forallb]. intros [Hf Hp]%andb_true_iff. cbn [run_join_loop].
  rewrite omap_step. unfold join_candidate at 1. fold (primary_key r f).
  destruct (is_VNone (primary_key r f)); [by apply IH|]. rewrite Hf. cbn [negb].
  set (L := omap _ primary) in *.
  enough (forall m,
    (if match jr_paging r with Some p => skipped <? pg_offset p | None => false end
     then run_join_loop r i primary (skipped + 1) yielded
     else if match jr_paging r with Some p => pg_limit p <=? yielded + 1 | None => false end
     then ([joined_feature r (normalize_feature_attributes f) m], Completed)
     else let (outs, o) := run_join_loop r i primary skipped (yielded + 1) in
          (joined_feature r (normalize_feature_attributes f) m :: outs, o)) =
    (page_left (jr_paging r) skipped yielded (joined_feature r (normalize_feature_attributes f) m :: L),
     Completed)) as Hemit.
  { destruct (idx_get (primary_key r f) i) as [m|]; [by destruct (jr_join_type r); apply Hemit|].
    destruct (jr_join_type r); [by apply IH|apply Hemit]. }
  intros m. rewrite page_left_cons by done.
  destruct (jr_paging r) as [p|]; [|by rewrite IH].
  cbn [counters_ok] in *. destruct (Z.ltb_spec skipped (pg_offset p)); [by rewrite IH by (done || lia)|].
  destruct (Z.leb_spec (pg_limit p) (yielded + 1)); [done|]. by rewrite IH by (done || lia).
Qed.

(** ** Properties *)

(** Dictionaries of distinct keys: the right operand of a merge wins. *)
Lemma props_merge_get k a b :
  NoDup (map fst b) ->
  dict_get k (props_merge a b) = match dict_get k b with Some v => Some v | None => dict_get k a end.
Proof.
  unfold props_merge. revert a. induction b as [|[k' v] b IH]; intros a; [done|].
  cbn. intros [Hn Hb]%NoDup_cons. rewrite IH by done.
  destruct (String.eqb_spec k k') as [->|Hne].
  - destruct (dict_get k' b) eqn:E; [by apply dict_get_in_keys in E|apply dict_get_set_eq].
  - destruct (dict_get k b); [done|by apply dict_get_set_ne].
Qed.

(** The streaming join computes the reference join: indexing
    the secondary rows and streaming the primary features past the index
    yields, in primary order, exactly the page of the joined features, each
    with the last secondary row of its key, and ends without an error; the
    early exit of a full page loses nothing. *)
Theorem run_join_exact (r : JoinRequest) (primary secondary : list Feature) :
  keys_hashable r primary secondary = true -> paging_ok r = true ->
  exists i, index_secondary (jr_secondary_column r) secondary = Some i /\
    run_join r primary i = (reference_join r primary secondary, Completed).
Proof.
  unfold keys_hashable, paging_ok, index_secondary, run_join, reference_join.
  intros [Hp Hs]%andb_true_iff Hpg.
  assert (forall k, key_hashable k = true -> exists i,
    index_secondary_loop (jr_secondary_column r) secondary [] = Some i /\
    idx_get k i = last_row (jr_secondary_column r) k secondary) as Hidx.
  { intros k Hk. destruct (index_secondary_rows _ secondary [] k Hk (Forall_nil_2 _) Hs) as (i & Hi & _ & Hg).
    exists i. split; [done|]. rewrite Hg. by destruct (last_row _ _ _). }
  destruct (Hidx VNone eq_refl) as (i & Hi & _). exists i. split; [done|].
  rewrite run_join_loop_page; [|destruct (jr_paging r); bool_hyps; cbn; [lia|done]|done].
  f_equal. replace (page_left (jr_paging r) 0 0) with (page (A := Feature) (jr_paging r));
    [|unfold page, page_left; destruct (jr_paging r); [by rewrite !Z.sub_0_r|done]].
  f_equal. clear Hpg. induction primary as [|f primary IH]; [done|].
  cbn in Hp. apply andb_true_iff in Hp as [Hf Hp]. rewrite !omap_step, IH by done.
  unfold join_candidate at 1 3. fold (primary_key r f).
  destruct (Hidx (primary_key r f) Hf) as (i' & Hi' & Hg). simplify_eq. by rewrite Hg.
Qed.

Definition city (id name : string) (extra : props) : Feature :=
  mkFeature (VStr id) (Some "POINT(0 0)") (Some [("name", VStr name)]) extra.
Definition demo_join (t : join_type) (limit offset : Z) : JoinRequest :=
  mkJoin "code" "code" t true true None (Some (mkPaging limit offset)).
Definition demo_primary : list Feature :=
  [city "1" "Rome" [("code", VInt 1)]; city "2" "Oslo" [("code", VNone)];
   city "3" "Lima" [("code", VInt 7)]; city "4" "Kyiv" [("code", VInt 2)]].
Definition demo_secondary : list Feature :=
  [mkFeature VNone None (Some [("code", VInt 1); ("pop", VInt 10)]) [];
   mkFeature (VInt 2) None (Some [("pop", VInt 20)]) [];
   mkFeature VNone None (Some [("code", VBool true); ("pop", VInt 11)]) []].

Lemma run_join_exact_witness :
  exists i, index_secondary "code" demo_secondary = Some i /\
    run_join (demo_join INNER 1 1) demo_primary i =
      ([mkFeature (VStr "4") (Some "POINT(0 0)")
          (Some [("code", VInt 2); ("name", VStr "Kyiv"); ("pop", VInt 20)]) []], Completed).
Proof.
  destruct (run_join_exact (demo_join INNER 1 1) demo_primary demo_secondary eq_refl eq_refl)
    as (i & Hi & Hj).
  exists i. split; [exact Hi|]. rewrite Hj. reflexivity.
Defined.

(** The properties of a joined feature: the secondary row wins over the primary
    feature when the request enriches, a projection keeps the named columns of
    both sides, and the join key is never projected away. *)
Lemma joined_properties primary_props secondary_props enrich join_col attrs k :
  (forall s, secondary_props = Some s -> NoDup (map fst s)) ->
  dict_get k (merge_properties primary_props secondary_props enrich join_col attrs) =
  if match attrs with Some l => str_mem k l || (k ==s join_col) | None => true end
  then match secondary_props with
       | Some s => if enrich then match dict_get k s with Some v => Some v
                                                         | None => dict_get k primary_props end
                   else dict_get k primary_props
       | None => dict_get k primary_props
       end
  else None.
Proof.
  intros Hnd. unfold merge_properties.
  assert (dict_get k (match secondary_props with
                      | Some s => if enrich then props_merge primary_props s else primary_props
                      | None => primary_props end) =
          match secondary_props with
          | Some s => if enrich then match dict_get k s with Some v => Some v
                                                            | None => dict_get k primary_props end
                      else dict_get k primary_props
          | None => dict_get k primary_props
          end) as Hm.
  { destruct secondary_props as [s|]; [|done]. destruct enrich; [|done]. by apply props_merge_get, Hnd. }
  destruct attrs as [l|]; [|exact Hm].
  rewrite (dict_get_filter (fun x => str_mem x l || (x ==s join_col))). by rewrite Hm.
Qed.

(** ** Limits *)

(** A [LEFT] join does not yield every primary feature: one whose key is null
    is dropped, where the export path keeps it. *)
Lemma left_join_drops_null_key i :
  let f := mkFeature VNone None (Some [("code", VNone)]) [] in
  run_join (demo_join LEFT 10 0) [f] i = ([], Completed) /\
  stream_join_features [f] i "code" "properties" false = ([f], Completed).
Proof. done. Qed.

(** Nor does it set the secondary columns of an unmatched feature to null: they
    are absent. *)
Lemma left_join_columns_absent :
  run_join (demo_join LEFT 10 0) [city "3" "Lima" [("code", VInt 7)]]
           [(VInt 1, [("code", VInt 1); ("pop", VInt 10)])] =
  ([mkFeature (VStr "3") (Some "POINT(0 0)") (Some [("code", VInt 7); ("name", VStr "Lima")]) []], Completed).
Proof. reflexivity. Qed.

(** A projection of primary attributes also removes the columns the join was
    made for. *)
Lemma projection_drops_enrichment :
  merge_properties [("code", VInt 1); ("name", VStr "Rome")] (Some [("code", VInt 1); ("pop", VInt 10)])
                   true "code" (Some ["name"]) = [("code", VInt 1); ("name", VStr "Rome")].
Proof. reflexivity. Qed.
