(* ===== verification/AccessPg.v ===== *)
(** * Access filters as PostgreSQL predicates

    [storage/access_filter_pg.py] (the translator) and the two operations of
    [storage/drivers/pg_sidecars/access_envelope.py] that use it.

    A SQL fragment is a tree ([sql]) whose [render] is the text the source
    builds; bind parameters are the [params] dictionary, threaded through the
    translation as the source mutates it.  The database is the class
    [PgEngine]: the meaning of the emitted operators in a WHERE clause. *)

From S2P Require Import Prelude AccessFilter.

(** ** Fragments and their text *)

Definition cast_type (k : range_kind) : string :=
  match k with Timestamp => "TIMESTAMPTZ" | Numeric => "NUMERIC" end.

Unset Elimination Schemes.
Inductive sql : Type :=
| SqlFalse
| SqlAny (attr_key p : string)
| SqlLe (attr_key p : string) (k : range_kind)
| SqlGe (attr_key p : string) (k : range_kind)
| SqlBetween (attr_key p_lo p_hi : string) (k : range_kind)
| SqlAnd (parts : list sql)
| SqlOr (parts : list sql).
Set Elimination Schemes.

Definition jsonb_path (envelope_col attr_key : string) : string :=
  "(" +:+ envelope_col +:+ "->'attrs'->>'" +:+ attr_key +:+ "')".

Definition sql_cast (e : string) (k : range_kind) : string :=
  "CAST(" +:+ e +:+ " AS " +:+ cast_type k +:+ ")".

Fixpoint render (envelope_col : string) (s : sql) : string :=
  match s with
  | SqlFalse => "FALSE"
  | SqlAny key p => jsonb_path envelope_col key +:+ " = ANY(:" +:+ p +:+ ")"
  | SqlLe key p k =>
      sql_cast (jsonb_path envelope_col key) k +:+ " <= " +:+ sql_cast (":" +:+ p) k
  | SqlGe key p k =>
      sql_cast (jsonb_path envelope_col key) k +:+ " >= " +:+ sql_cast (":" +:+ p) k
  | SqlBetween key lo hi k =>
      sql_cast (jsonb_path envelope_col key) k +:+ " BETWEEN " +:+
      sql_cast (":" +:+ lo) k +:+ " AND " +:+ sql_cast (":" +:+ hi) k
  | SqlAnd parts => "(" +:+ str_join " AND " (map (render envelope_col) parts) +:+ ")"
  | SqlOr parts => "(" +:+ str_join " OR " (map (render envelope_col) parts) +:+ ")"
  end.

(** ** Translation *)

Definition ATTRS_PREFIX : string := "_attrs.".

(** One character of [_SAFE_ATTR_KEY_RE = [A-Za-z0-9_]+]. *)
Definition safe_char (a : ascii) : bool :=
  let n := nat_of_ascii a in
  ((65 <=? n) && (n <=? 90) || (97 <=? n) && (n <=? 122) ||
   (48 <=? n) && (n <=? 57) || (n =? 95))%nat.

Definition safe_attr_key (k : string) : bool := negb (k ==s "") && str_forallb safe_char k.

Definition FIRST_CLASS_COLS : list string := ["catalog_id"; "collection_id"; "visibility"; "owner"].

Abbreviation params := (list (string * pyval)).

Definition range_predicate_to_sql (p : RangePredicate) (param_prefix : string) (ps : params)
    : option sql * params :=
  if negb (String.prefix ATTRS_PREFIX (rp_field p)) then (None, ps)
  else
    let attr_key := str_drop (String.length ATTRS_PREFIX) (rp_field p) in
    if attr_key ==s "" then (None, ps)
    else if negb (safe_attr_key attr_key) then (None, ps)
    else
      let k := rp_kind p in
      match rp_op p, rp_bounds p with
      | Lte, [b] =>
          let n := param_prefix +:+ "_" +:+ attr_key +:+ "_lte" in
          (Some (SqlLe attr_key n k), dict_set n (VStr b) ps)
      | Gte, [b] =>
          let n := param_prefix +:+ "_" +:+ attr_key +:+ "_gte" in
          (Some (SqlGe attr_key n k), dict_set n (VStr b) ps)
      | Between, [lo; hi] =>
          let n_lo := param_prefix +:+ "_" +:+ attr_key +:+ "_lo" in
          let n_hi := param_prefix +:+ "_" +:+ attr_key +:+ "_hi" in
          (Some (SqlBetween attr_key n_lo n_hi k),
           dict_set n_hi (VStr hi) (dict_set n_lo (VStr lo) ps))
      | _, _ => (None, ps)
      end.

Definition field_predicate_to_sql (p : predicate) (param_prefix : string) (ps : params)
    : option sql * params :=
  match p with
  | PRange q => range_predicate_to_sql q param_prefix ps
  | PField (mkFP f vs) =>
      if str_mem f FIRST_CLASS_COLS then (None, ps)
      else if String.prefix ATTRS_PREFIX f then
        let attr_key := str_drop (String.length ATTRS_PREFIX) f in
        if (attr_key ==s "") || match vs with [] => true | _ => false end then (None, ps)
        else if negb (safe_attr_key attr_key) then (None, ps)
        else
          let n := param_prefix +:+ "_" +:+ attr_key in
          (Some (SqlAny attr_key n), dict_set n (VList (map VStr vs)) ps)
      else (None, ps)
  end.

Definition param_prefix (idx j : nat) : string := "af_" +:+ pretty idx +:+ "_" +:+ pretty j.

(** The loop over [enumerate(preds)], from index [j]. *)
Fixpoint predicates_to_sql (preds : list predicate) (idx j : nat) (ps : params)
    : list sql * params :=
  match preds with
  | [] => ([], ps)
  | pred :: preds' =>
      let '(s, ps1) := field_predicate_to_sql pred (param_prefix idx j) ps in
      let '(parts, ps2) := predicates_to_sql preds' idx (S j) ps1 in
      (match s with Some s => s :: parts | None => parts end, ps2)
  end.

Definition clause_to_sql (c : AccessClause) (idx : nat) (ps : params) : option sql * params :=
  let '(parts, ps') := predicates_to_sql (predicates c) idx 0 ps in
  match parts with
  | [] => (None, ps')
  | [s] => (Some s, ps')
  | _ => (Some (SqlAnd parts), ps')
  end.

(** The loop over [enumerate(allow_clauses)], from index [i]. *)
Fixpoint clauses_to_sql (cs : list AccessClause) (i : nat) (ps : params) : list sql * params :=
  match cs with
  | [] => ([], ps)
  | c :: cs' =>
      let '(s, ps1) := clause_to_sql c i ps in
      let '(parts, ps2) := clauses_to_sql cs' (S i) ps1 in
      (match s with Some s => s :: parts | None => parts end, ps2)
  end.

Definition access_filter_to_pg_clause (af : option AccessFilter) : option sql * params :=
  match af with
  | None => (None, [])
  | Some f =>
      if deny_all f then (Some SqlFalse, [])
      else match allow f with
           | [] => if allow_all f then (None, []) else (Some SqlFalse, [])
           | cs =>
               let '(or_parts, ps) := clauses_to_sql cs 0 [] in
               match or_parts with
               | [] => (None, [])
               | [s] => (Some s, ps)
               | _ => (Some (SqlOr or_parts), ps)
               end
           end
  end.

(** ** The access-envelope sidecar *)

Record query_context : Type := mkQC { where_conditions : list sql; qc_params : params }.

(** [dict.update]. *)
Definition dict_update (d1 d2 : params) : params :=
  fold_left (fun d kv => dict_set kv.1 kv.2 d) d2 d1.

Definition apply_query_context (access_filter : option AccessFilter) (c : query_context)
    : query_context :=
  match access_filter with
  | None => mkQC (where_conditions c ++ [SqlFalse]) (qc_params c)
  | Some f =>
      match access_filter_to_pg_clause (Some f) with
      | (Some clause, ps) =>
          mkQC (where_conditions c ++ [clause]) (dict_update (qc_params c) ps)
      | (None, _) => c
      end
  end.

(** [prepare_upsert_payload]: the row [(geoid, envelope)], the envelope being
    the dictionary the source serialises. *)
Definition prepare_upsert_payload (context : list (string * pyval)) : option (pyval * pyval) :=
  match cfg_get context "_access_envelope" with
  | VDict raw =>
      let geoid := cfg_get context "geoid" in
      if negb (truthy geoid) then None
      else
        let attrs := cfg_get raw "_attrs" in
        Some (geoid,
              VDict [("visibility", cfg_get raw "_visibility");
                     ("owner", cfg_get raw "_owner");
                     ("attrs", if truthy attrs then attrs else VDict [])])
  | _ => None
  end.

(** ** The database *)

(** [envelope->'attrs'->>'key']: NULL for an attribute that is missing or [null], and
    the text of a JSON scalar.  Arrays have a text too, of which nothing is said here. *)
Definition json_text (v : scalar) : option string :=
  match v with
  | SNone => None
  | SBool b => Some (if b then "true" else "false")
  | SInt z => Some (pretty z)
  | SStr s => Some s
  end.
Definition attr_value (d : document) (key : string) : docval := doc_get d (ATTRS_PREFIX +:+ key).
(** A value whose text is [t]; [None] is NULL. *)
Definition has_text (v : docval) (t : option string) : Prop := exists x, v = DScalar x /\ json_text x = t.

(** A row is kept when the condition is true; a comparison with NULL is not.  Text that
    spells an integer casts to NUMERIC as that integer. *)
Class PgEngine := {
  pg_where : params -> document -> sql -> bool;
  pg_false ps d : pg_where ps d SqlFalse = false;
  pg_any ps d key p vs s :
    dict_get p ps = Some (VList (map VStr vs)) -> has_text (attr_value d key) (Some s) ->
    pg_where ps d (SqlAny key p) = str_mem s vs;
  pg_any_null ps d key p : has_text (attr_value d key) None -> pg_where ps d (SqlAny key p) = false;
  pg_le ps d key p (x y : Z) :
    dict_get p ps = Some (VStr (pretty y)) -> has_text (attr_value d key) (Some (pretty x)) ->
    pg_where ps d (SqlLe key p Numeric) = (x <=? y);
  pg_ge ps d key p (x y : Z) :
    dict_get p ps = Some (VStr (pretty y)) -> has_text (attr_value d key) (Some (pretty x)) ->
    pg_where ps d (SqlGe key p Numeric) = (y <=? x);
  pg_between ps d key p1 p2 (x lo hi : Z) :
    dict_get p1 ps = Some (VStr (pretty lo)) -> dict_get p2 ps = Some (VStr (pretty hi)) ->
    has_text (attr_value d key) (Some (pretty x)) ->
    pg_where ps d (SqlBetween key p1 p2 Numeric) = (lo <=? x) && (x <=? hi);
  pg_cmp_null ps d key p1 p2 k : has_text (attr_value d key) None ->
    pg_where ps d (SqlLe key p1 k) = false /\ pg_where ps d (SqlGe key p1 k) = false /\
    pg_where ps d (SqlBetween key p1 p2 k) = false;
  pg_and ps d l : pg_where ps d (SqlAnd l) = forallb (pg_where ps d) l;
  pg_or ps d l : pg_where ps d (SqlOr l) = existsb (pg_where ps d) l;
}.

(** Python's [float] is exact, and ordered as they are, on the integers a double holds. *)
Definition MAX_EXACT : Z := 2 ^ 53.
Definition exact_int (z : Z) : bool := (- MAX_EXACT <=? z) && (z <=? MAX_EXACT).
Class PyFloats `{PyRuntime} : Prop := {
  float_of_integer z : exact_int z = true -> is_Some (float_of_str (pretty z));
  float_order x y fx fy : exact_int x = true -> exact_int y = true ->
    float_of_str (pretty x) = Some fx -> float_of_str (pretty y) = Some fy -> float_lt fx fy = (x <? y);
}.
Lemma range_cmp_ints `{PyFloats} x y : exact_int x = true -> exact_int y = true ->
  (range_cmp (pretty x) (pretty y) <=? 0) = (x <=? y) /\ (0 <=? range_cmp (pretty x) (pretty y)) = (y <=? x).
Proof.
  intros Hx Hy. unfold range_cmp. destruct (float_of_integer x Hx) as [fx Ex], (float_of_integer y Hy) as [fy Ey]. rewrite Ex, Ey.
  rewrite (float_order x y fx fy), (float_order y x fy fx) by done.
  destruct (Z.ltb_spec x y), (Z.ltb_spec y x), (Z.leb_spec x y), (Z.leb_spec y x); try lia; done.
Qed.

(** A missing clause is no WHERE condition. *)
Definition clause_hit `{PgEngine} (r : option sql * params) (d : document) : bool :=
  match r.1 with None => true | Some s => pg_where r.2 d s end.

(** ** Bind-parameter names *)

(** Name [n] belongs to predicate [j] of clause [idx]. *)
Definition owned (idx j : nat) (n : string) : Prop := exists r, n = param_prefix idx j +:+ "_" +:+ r.

Lemma digits_no_sep (n : nat) :
  str_forallb (fun c => negb (Ascii.eqb c "_"%char)) (pretty n) = true.
Proof.
  eapply str_forallb_impl, pretty_nat_digits. intros c Hc.
  apply negb_true_iff, Ascii.eqb_neq. by intros ->.
Qed.

(** Names of different predicates never collide. *)
Lemma owned_inj i j i' j' n : owned i j n -> owned i' j' n -> i = i' /\ j = j'.
Proof.
  intros [r ->] [r' Heq]. unfold param_prefix in Heq.
  rewrite <- !str_app_assoc in Heq. apply str_app_inj_l in Heq.
  apply str_sep_inj in Heq as [Hi Heq]; auto using digits_no_sep.
  apply str_sep_inj in Heq as [Hj _]; auto using digits_no_sep.
  by simplify_eq.
Qed.

Lemma owned_intro i j r : owned i j (param_prefix i j +:+ "_" +:+ r).
Proof. by exists r. Qed.
#[export] Hint Resolve owned_intro : dyn.

(** [ps'] extends [ps] outside the names selected by [own]. *)
Definition frame (own : string -> Prop) (ps ps' : params) : Prop :=
  forall n, ~ own n -> dict_get n ps' = dict_get n ps.
Definition agree (own : string -> Prop) (ps ps' : params) : Prop :=
  forall n, own n -> dict_get n ps = dict_get n ps'.

Lemma frame_set own n v ps ps' : own n -> frame own ps ps' -> frame own ps (dict_set n v ps').
Proof. intros Hn Hf m Hm. rewrite dict_get_set_ne; [by apply Hf|naive_solver]. Qed.

Lemma frame_refl own ps : frame own ps ps.
Proof. done. Qed.
#[export] Hint Resolve frame_set frame_refl : dyn.

Section translation.
Context {HRT : PyRuntime} {HPF : PyFloats} {HPG : PgEngine}.

(** Predicates the translator expresses. *)
Definition pg_translatable (p : predicate) : bool :=
  match p with
  | PField (mkFP f vs) =>
      negb (str_mem f FIRST_CLASS_COLS) && String.prefix ATTRS_PREFIX f &&
      safe_attr_key (str_drop 7 f) && match vs with [] => false | _ => true end
  | PRange q =>
      String.prefix ATTRS_PREFIX (rp_field q) && safe_attr_key (str_drop 7 (rp_field q)) &&
      match rp_op q, rp_bounds q with
      | Lte, [_] | Gte, [_] | Between, [_; _] => true
      | _, _ => false
      end
  end.

(** The integer a text spells. *)
Definition int_text (s : string) : option Z :=
  match parse_int s with Some z => if (pretty z ==s s) && exact_int z then Some z else None | None => None end.
Lemma int_text_Some s z : int_text s = Some z -> s = pretty z /\ exact_int z = true.
Proof.
  unfold int_text. destruct (parse_int s) as [x|]; [|done]. destruct (_ && _) eqn:E; [|done]. intros [= <-].
  apply andb_true_iff in E as [E1 E2]. by apply String.eqb_eq in E1.
Qed.

(** Attributes on which the database and the reference semantics read a predicate
    alike: text (or nothing) for membership; for ranges of kind numeric, integers (or
    nothing) between integer bounds. *)
Definition pg_pred_ok (d : document) (p : predicate) : bool :=
  match p with
  | PField q =>
      match doc_get d (fp_field q) with
      | DScalar SNone | DScalar (SStr _) => true
      | _ => false
      end
  | PRange q =>
      bool_decide (rp_kind q = Numeric) &&
      forallb (fun b => match int_text b with Some _ => true | None => false end) (rp_bounds q) &&
      match doc_get d (rp_field q) with
      | DScalar SNone => true
      | DScalar (SInt z) => exact_int z
      | _ => false
      end
  end.

Lemma safe_key_nonempty k : safe_attr_key k = true -> (k ==s "") = false.
Proof. unfold safe_attr_key; intros; bool_hyps. by apply String.eqb_neq. Qed.

Lemma attr_value_field d f :
  String.prefix ATTRS_PREFIX f = true -> attr_value d (str_drop 7 f) = doc_get d f.
Proof. intros Hp. unfold attr_value. by rewrite <- (prefix_drop _ _ Hp) at 1. Qed.

(** A range predicate on an integer, by its bounds. *)
Lemma range_matches_int q d x :
  doc_get d (rp_field q) = DScalar (SInt x) -> exact_int x = true ->
  forall lo hi, bound q 0 = pretty lo -> exact_int lo = true -> bound q 1 = pretty hi \/ rp_op q <> Between -> exact_int hi = true ->
  range_matches q d =
    match rp_op q with
    | Lte => x <=? lo
    | Gte => lo <=? x
    | Between => (lo <=? x) && (x <=? hi)
    | OtherOp _ => false
    end.
Proof.
  intros E Hx lo hi Hlo Hl Hhi Hh. unfold range_matches. rewrite E. cbn [docval_py scalar_py py_str]. rewrite Hlo.
  destruct (range_cmp_ints x lo Hx Hl) as [C1 C2]. destruct (range_cmp_ints x hi Hx Hh) as [C3 C4].
  destruct (rp_op q); [done|done| |done]. destruct Hhi as [-> |?]; [|done]. by rewrite C2, C3.
Qed.

(** What translating predicate [j] of clause [idx] does to the parameters,
    and what the fragment then means under any later parameters. *)
Definition pred_spec (p : predicate) (own : string -> Prop) (ps : params)
    (r : option sql * params) : Prop :=
  frame own ps r.2 /\
  match r.1 with
  | None => pg_translatable p = false
  | Some s =>
      pg_translatable p = true /\
      forall d ps', pg_pred_ok d p = true -> agree own r.2 ps' ->
                    pg_where ps' d s = predicate_matches p d
  end.

Lemma range_predicate_spec q i j ps :
  pred_spec (PRange q) (owned i j) ps (range_predicate_to_sql q (param_prefix i j) ps).
Proof.
  unfold range_predicate_to_sql, pred_spec.
  change (String.length ATTRS_PREFIX) with 7%nat. cbn [pg_translatable].
  destruct (String.prefix ATTRS_PREFIX (rp_field q)) eqn:Hp; [|done]. simpl negb.
  destruct (safe_attr_key _) eqn:Hk.
  2:{ simpl. by destruct (_ ==s ""). }
  rewrite safe_key_nonempty by done. simpl negb. cbv iota.
  set (k := str_drop 7 (rp_field q)) in *.
  destruct (rp_op q) eqn:Eop, (rp_bounds q) as [|b0 [|b1 [|]]] eqn:Eb; simpl;
    try (split; [apply frame_refl|done]);
    (split; [by repeat (apply frame_set; [apply owned_intro|])|]);
    (split; [done|]); intros d ps' Hok Hag; cbn [pg_pred_ok] in Hok; rewrite Eb in Hok;
    apply andb_true_iff in Hok as [Hok Hv]; apply andb_true_iff in Hok as [Hkind%bool_decide_eq_true Hbs]; cbn [forallb] in Hbs;
    rewrite Hkind.
  all: assert (Hval : attr_value d k = doc_get d (rp_field q)) by by apply attr_value_field.
  all: destruct (int_text b0) as [z0|] eqn:E0; [|done]; apply int_text_Some in E0 as [-> Hz0].
  3: destruct (int_text b1) as [z1|] eqn:E1; [|done]; apply int_text_Some in E1 as [-> Hz1].
  all: destruct (doc_get d (rp_field q)) as [[| |x|]|] eqn:E; try done.
  1,3,5: unfold range_matches; rewrite E; apply pg_cmp_null; try done; exists SNone; by rewrite Hval.
  all: assert (Ht : has_text (attr_value d k) (Some (pretty x))) by (exists (SInt x); by rewrite Hval).
  - rewrite (range_matches_int q d x E Hv z0 z0) by (rewrite ?Eop; unfold bound; rewrite ?Eb; auto). rewrite Eop.
    apply pg_le; [|done]. rewrite <- Hag by apply owned_intro. apply dict_get_set_eq.
  - rewrite (range_matches_int q d x E Hv z0 z0) by (rewrite ?Eop; unfold bound; rewrite ?Eb; auto). rewrite Eop.
    apply pg_ge; [|done]. rewrite <- Hag by apply owned_intro. apply dict_get_set_eq.
  - rewrite (range_matches_int q d x E Hv z0 z1) by (rewrite ?Eop; unfold bound; rewrite ?Eb; auto). rewrite Eop.
    apply pg_between; [| |done].
    + rewrite <- Hag by apply owned_intro.
      rewrite dict_get_set_ne; [apply dict_get_set_eq|].
      intros Heq. do 3 apply str_app_inj_l in Heq. done.
    + rewrite <- Hag by apply owned_intro. apply dict_get_set_eq.
Qed.

Lemma field_predicate_spec p i j ps :
  pred_spec p (owned i j) ps (field_predicate_to_sql p (param_prefix i j) ps).
Proof.
  destruct p as [[f vs]|q]; [|by apply range_predicate_spec].
  unfold field_predicate_to_sql, pred_spec. change (String.length ATTRS_PREFIX) with 7%nat.
  cbn [pg_translatable]. destruct (str_mem f FIRST_CLASS_COLS) eqn:Hf; [done|].
  destruct (String.prefix ATTRS_PREFIX f) eqn:Hp; [|done].
  destruct (safe_attr_key _) eqn:Hk.
  2:{ simpl. by destruct (_ || _). }
  rewrite safe_key_nonempty by done. destruct vs as [|v vs]; [done|]. simpl.
  split; [by apply frame_set; [apply owned_intro|]|]. split; [done|]. intros d ps' Hok Hag. simpl in Hok.
  unfold field_matches; cbn [fp_field fp_values]. pose proof (attr_value_field d f Hp) as Hval.
  destruct (doc_get d f) as [[| | |s]|] eqn:E; try done.
  - apply pg_any_null. exists SNone. by rewrite Hval.
  - eapply (pg_any _ _ _ _ (v :: vs)); [|exists (SStr s); by rewrite Hval].
    rewrite <- Hag by apply owned_intro. apply dict_get_set_eq.
Qed.

(** The names of clause [i] from predicate [j] on. *)
Definition owned_from (i j : nat) (n : string) : Prop := exists j', (j <= j')%nat /\ owned i j' n.

Lemma frame_trans (o1 o2 o : string -> Prop) ps ps1 ps2 :
  (forall n, o1 n -> o n) -> (forall n, o2 n -> o n) ->
  frame o1 ps ps1 -> frame o2 ps1 ps2 -> frame o ps ps2.
Proof. intros H1 H2 Hf1 Hf2 n Hn. rewrite Hf2, Hf1; naive_solver. Qed.

Lemma agree_weaken (o1 o2 o : string -> Prop) ps1 ps2 ps' :
  (forall n, o1 n -> ~ o2 n) -> (forall n, o1 n -> o n) ->
  frame o2 ps1 ps2 -> agree o ps2 ps' -> agree o1 ps1 ps'.
Proof. intros H12 H1 Hf Hag n Hn. rewrite <- Hag, Hf; naive_solver. Qed.

Definition translated (preds : list predicate) : list predicate :=
  List.filter pg_translatable preds.

Lemma predicates_spec preds i j ps :
  let r := predicates_to_sql preds i j ps in
  frame (owned_from i j) ps r.2 /\
  length r.1 = length (translated preds) /\
  forall d ps', forallb (pg_pred_ok d) (translated preds) = true ->
    agree (owned_from i j) r.2 ps' ->
    forallb (pg_where ps' d) r.1 = forallb (fun p => predicate_matches p d) (translated preds).
Proof.
  revert j ps. induction preds as [|p preds IH]; intros j ps; simpl; [done|].
  pose proof (field_predicate_spec p i j ps) as [Hf1 Hs].
  destruct (field_predicate_to_sql _ _ _) as [s ps1]; simpl in *.
  destruct (IH (S j) ps1) as (Hf2 & Hlen & Hsem).
  destruct (predicates_to_sql preds i (S j) ps1) as [parts ps2]; simpl in *.
  assert (Hfrom : forall n, owned_from i (S j) n -> owned_from i j n)
    by by intros n (j' & ? & ?); exists j'; split; [lia|].
  assert (Hdisj : forall n, owned i j n -> ~ owned_from i (S j) n)
    by by intros n Ho (j' & ? & Ho'); destruct (owned_inj _ _ _ _ _ Ho Ho'); lia.
  assert (Hhere : forall n, owned i j n -> owned_from i j n) by by exists j.
  split; [exact (frame_trans _ _ _ _ _ _ Hhere Hfrom Hf1 Hf2)|].
  assert (Hlater : forall ps', agree (owned_from i j) ps2 ps' -> agree (owned_from i (S j)) ps2 ps')
    by by intros ps' Hag n Hn; apply Hag, Hfrom.
  destruct s as [s|]; [destruct Hs as [Ht Hs]; rewrite Ht|rewrite Hs]; simpl.
  2:{ split; [done|]. eauto. }
  split; [by rewrite Hlen|]. intros d ps' Hok Hag; bool_hyps.
  rewrite Hs, Hsem; eauto.
  exact (agree_weaken _ _ _ _ _ _ Hdisj Hhere Hf2 Hag).
Qed.

(** The names of the clauses from [i] on. *)
Definition clauses_own (i : nat) (n : string) : Prop :=
  exists i' j', (i <= i')%nat /\ owned i' j' n.
Definition clause_own (i : nat) (n : string) : Prop := exists j', owned i j' n.

(** A clause counts when some predicate of it is expressible; it then means
    the conjunction of the expressible ones. *)
Definition pg_clause_matches (d : document) (c : AccessClause) : bool :=
  forallb (fun p => predicate_matches p d) (translated (predicates c)).
Definition pg_clauses (cs : list AccessClause) : list AccessClause :=
  List.filter (fun c => match translated (predicates c) with [] => false | _ => true end) cs.

Lemma clause_spec c i ps :
  let r := clause_to_sql c i ps in
  frame (clause_own i) ps r.2 /\
  match r.1 with
  | None => translated (predicates c) = []
  | Some s =>
      translated (predicates c) <> [] /\
      forall d ps', forallb (pg_pred_ok d) (translated (predicates c)) = true ->
        agree (clause_own i) r.2 ps' -> pg_where ps' d s = pg_clause_matches d c
  end.
Proof.
  unfold clause_to_sql, pg_clause_matches.
  destruct (predicates_spec (predicates c) i 0 ps) as (Hf & Hlen & Hsem).
  destruct (predicates_to_sql _ _ _ _) as [parts ps1]; simpl in *.
  assert (Hown : forall n, owned_from i 0 n -> clause_own i n)
    by by intros n (j' & _ & ?); exists j'.
  assert (Hag' : forall ps', agree (clause_own i) ps1 ps' -> agree (owned_from i 0) ps1 ps')
    by by intros ps' Hag n Hn; apply Hag, Hown.
  assert (Hf' : frame (clause_own i) ps ps1) by by intros n Hn; apply Hf; naive_solver.
  destruct parts as [|s [|s2 parts]]; simpl in *; (split; [done|]).
  - by apply length_zero_iff_nil.
  - split; [by intros E; rewrite E in Hlen|]. intros d ps' Hok Hag.
    rewrite <- (Hsem d ps') by auto. by rewrite andb_true_r.
  - split; [by intros E; rewrite E in Hlen|]. intros d ps' Hok Hag.
    rewrite <- (Hsem d ps') by auto. by rewrite pg_and.
Qed.

Lemma clauses_spec cs i ps :
  let r := clauses_to_sql cs i ps in
  frame (clauses_own i) ps r.2 /\
  length r.1 = length (pg_clauses cs) /\
  forall d ps', forallb (fun c => forallb (pg_pred_ok d) (translated (predicates c))) cs = true ->
    agree (clauses_own i) r.2 ps' ->
    existsb (pg_where ps' d) r.1 = existsb (pg_clause_matches d) (pg_clauses cs).
Proof.
  revert i ps. induction cs as [|c cs IH]; intros i ps; simpl; [done|].
  pose proof (clause_spec c i ps) as [Hf1 Hs].
  destruct (clause_to_sql c i ps) as [s ps1]; simpl in *.
  destruct (IH (S i) ps1) as (Hf2 & Hlen & Hsem).
  destruct (clauses_to_sql cs (S i) ps1) as [parts ps2]; simpl in *.
  assert (Hfrom : forall n, clauses_own (S i) n -> clauses_own i n)
    by by intros n (i' & j' & ? & ?); exists i', j'; split; [lia|].
  assert (Hdisj : forall n, clause_own i n -> ~ clauses_own (S i) n)
    by by intros n (j & Ho) (i' & j' & ? & Ho'); destruct (owned_inj _ _ _ _ _ Ho Ho'); lia.
  assert (Hhere : forall n, clause_own i n -> clauses_own i n)
    by by intros n (j & ?); exists i, j.
  split; [exact (frame_trans _ _ _ _ _ _ Hhere Hfrom Hf1 Hf2)|].
  assert (Hlater : forall ps', agree (clauses_own i) ps2 ps' -> agree (clauses_own (S i)) ps2 ps')
    by by intros ps' Hag n Hn; apply Hag, Hfrom.
  destruct s as [s|].
  - destruct Hs as [Ht Hs].
    assert (match translated (predicates c) with [] => false | _ => true end = true) as ->
      by by destruct (translated (predicates c)).
    simpl. split; [by rewrite Hlen|].
    intros d ps' [Hok1 Hok2]%andb_true_iff Hag. rewrite (Hsem d ps') by auto.
    rewrite (Hs d ps'); [done|done|exact (agree_weaken _ _ _ _ _ _ Hdisj Hhere Hf2 Hag)].
  - rewrite Hs. split; [done|]. intros d ps' [_ Hok]%andb_true_iff Hag. eauto.
Qed.
End translation.

(** ** Injection safety *)

(** Every attribute key spliced into the text is an identifier, and every bind
    parameter the text names has a value. *)
Fixpoint well_bound (ps : params) (s : sql) : bool :=
  let bnd n := match dict_get n ps with Some _ => true | None => false end in
  match s with
  | SqlFalse => true
  | SqlAny k p => safe_attr_key k && bnd p
  | SqlLe k p _ | SqlGe k p _ => safe_attr_key k && bnd p
  | SqlBetween k p1 p2 _ => safe_attr_key k && bnd p1 && bnd p2
  | SqlAnd l | SqlOr l => forallb (well_bound ps) l
  end.

Definition grows (ps ps' : params) : Prop := forall n, is_Some (dict_get n ps) -> is_Some (dict_get n ps').

#[global] Instance grows_preorder : PreOrder grows.
Proof. split; [by intros ps n|]. intros p1 p2 p3 H1 H2 n Hn. by apply H2, H1. Qed.

Lemma grows_set n v ps : grows ps (dict_set n v ps).
Proof.
  intros m Hm. destruct (decide (n = m)) as [->|Hne].
  - rewrite dict_get_set_eq. eauto.
  - by rewrite dict_get_set_ne.
Qed.
#[export] Hint Resolve grows_set : dyn.

Section sql_induction.
Context (P : sql -> Prop)
  (Hf : P SqlFalse) (Hany : forall k p, P (SqlAny k p))
  (Hle : forall k p c, P (SqlLe k p c)) (Hge : forall k p c, P (SqlGe k p c))
  (Hbt : forall k p q c, P (SqlBetween k p q c))
  (Hand : forall l, Forall P l -> P (SqlAnd l)) (Hor : forall l, Forall P l -> P (SqlOr l)).

Fixpoint sql_ind (s : sql) : P s :=
  let go := fix go (l : list sql) : Forall P l :=
    match l with
    | [] => Forall_nil_2 P
    | x :: l' => Forall_cons_2 P x l' (sql_ind x) (go l')
    end in
  match s with
  | SqlFalse => Hf
  | SqlAny k p => Hany k p
  | SqlLe k p c => Hle k p c
  | SqlGe k p c => Hge k p c
  | SqlBetween k p q c => Hbt k p q c
  | SqlAnd l => Hand l (go l)
  | SqlOr l => Hor l (go l)
  end.
End sql_induction.

Lemma well_bound_grows ps ps' s : grows ps ps' -> well_bound ps s = true -> well_bound ps' s = true.
Proof.
  intros Hg. assert (Hb : forall n, match dict_get n ps with Some _ => true | None => false end = true ->
    match dict_get n ps' with Some _ => true | None => false end = true).
  { intros n Hn. destruct (Hg n) as [v ->]; [|done]. by destruct (dict_get n ps). }
  induction s using sql_ind; simpl; intros Hw; bool_hyps; rewrite ?andb_true_iff; auto.
  all: apply forallb_elem; intros x Hx; eapply Forall_forall in H; eauto.
  all: by apply H; eapply (proj1 (forallb_elem (well_bound ps) l)) in Hw.
Qed.

Lemma well_bounds_grow ps ps' l :
  grows ps ps' -> forallb (well_bound ps) l = true -> forallb (well_bound ps') l = true.
Proof. rewrite !forallb_elem. eauto using well_bound_grows. Qed.

Lemma bound_set n (v : pyval) ps : match dict_get n (dict_set n v ps) with Some _ => true | None => false end = true.
Proof. by rewrite dict_get_set_eq. Qed.

Lemma range_predicate_bound q pre ps :
  let r := range_predicate_to_sql q pre ps in
  grows ps r.2 /\ forall s, r.1 = Some s -> well_bound r.2 s = true.
Proof.
  unfold range_predicate_to_sql. set (k := str_drop _ _).
  destruct (String.prefix _ _), (k ==s ""), (safe_attr_key k) eqn:Hk; simpl;
    try (split; [reflexivity|done]).
  destruct (rp_op q), (rp_bounds q) as [|b0 [|b1 [|]]]; simpl;
    try (split; [reflexivity|done]); (split; [eauto using grows_set; etrans; apply grows_set|]);
    intros s [= <-]; simpl; rewrite Hk, bound_set; simpl; try done.
  destruct (grows_set (pre +:+ "_" +:+ k +:+ "_hi") (VStr b1)
              (dict_set (pre +:+ "_" +:+ k +:+ "_lo") (VStr b0) ps)
              (pre +:+ "_" +:+ k +:+ "_lo")) as [v ->]; [|done].
  rewrite dict_get_set_eq. eauto.
Qed.

Lemma field_predicate_bound p pre ps :
  let r := field_predicate_to_sql p pre ps in
  grows ps r.2 /\ forall s, r.1 = Some s -> well_bound r.2 s = true.
Proof.
  destruct p as [[f vs]|q]; [|apply range_predicate_bound].
  unfold field_predicate_to_sql. set (k := str_drop _ _).
  repeat case_match; simpl; try (split; [reflexivity|done]).
  all: split; [apply grows_set|]; intros s' [= <-]; simpl; bool_hyps.
  all: rewrite bound_set, andb_true_r; done.
Qed.

Lemma predicates_bound preds i j ps :
  let r := predicates_to_sql preds i j ps in
  grows ps r.2 /\ forallb (well_bound r.2) r.1 = true.
Proof.
  revert j ps. induction preds as [|p preds IH]; intros j ps; simpl; [split; done|].
  destruct (field_predicate_bound p (param_prefix i j) ps) as [Hg Hb].
  destruct (field_predicate_to_sql _ _ _) as [s ps1]; simpl in *.
  destruct (IH (S j) ps1) as [Hg2 Hb2].
  destruct (predicates_to_sql _ _ _ _) as [parts ps2]; simpl in *.
  split; [by etrans|]. destruct s as [s|]; simpl; [|done].
  rewrite Hb2, (well_bound_grows ps1); auto.
Qed.

Lemma clause_bound c i ps :
  let r := clause_to_sql c i ps in
  grows ps r.2 /\ forall s, r.1 = Some s -> well_bound r.2 s = true.
Proof.
  unfold clause_to_sql. destruct (predicates_bound (predicates c) i 0 ps) as [Hg Hb].
  destruct (predicates_to_sql _ _ _ _) as [[|s [|s2 parts]] ps1]; simpl in *;
    (split; [done|]); intros s' [= <-]; bool_hyps; simpl; rewrite ?andb_true_iff; auto.
Qed.

Lemma clauses_bound cs i ps :
  let r := clauses_to_sql cs i ps in
  grows ps r.2 /\ forallb (well_bound r.2) r.1 = true.
Proof.
  revert i ps. induction cs as [|c cs IH]; intros i ps; simpl; [split; done|].
  destruct (clause_bound c i ps) as [Hg Hb].
  destruct (clause_to_sql _ _ _) as [s ps1]; simpl in *.
  destruct (IH (S i) ps1) as [Hg2 Hb2].
  destruct (clauses_to_sql _ _ _) as [parts ps2]; simpl in *.
  split; [by etrans|]. destruct s as [s|]; simpl; [|done].
  rewrite Hb2, (well_bound_grows ps1); auto.
Qed.

(** ** A concrete database *)

Lemma digits_val_pretty_N (x : N) : forall s, (0 < x)%N -> digits_val (pretty_N_go x s) 0 = digits_val s (Z.of_N x).
Proof.
  induction (N.lt_wf_0 x) as [x _ IH]. intros s Hx. rewrite pretty_N_go_step by done.
  assert (Hd : forall s' c, (c < 10)%N -> digits_val (String (pretty_N_char c) s') (Z.of_N (x / 10)) = digits_val s' (10 * Z.of_N (x / 10) + Z.of_N c)).
  { intros s' c Hc. assert (c = 0 \/ c = 1 \/ c = 2 \/ c = 3 \/ c = 4 \/ c = 5 \/ c = 6 \/ c = 7 \/ c = 8 \/ c = 9)%N as Hcs by lia.
    repeat (destruct Hcs as [-> |Hcs]; [done|]). by subst. }
  assert (Hm : (x mod 10 < 10)%N) by by apply N.mod_lt.
  assert (He : 10 * Z.of_N (x / 10) + Z.of_N (x mod 10) = Z.of_N x) by (pose proof (N.div_mod x 10); lia).
  destruct (decide (x / 10 = 0)%N) as [E|E].
  - rewrite E in *. rewrite pretty_N_go_0. rewrite <- He. change 0 with (Z.of_N 0) at 1. by rewrite <- Hd.
  - rewrite IH; [|apply N.div_lt; lia|lia]. by rewrite Hd, He.
Qed.
Lemma parse_int_pretty (z : Z) : parse_int (pretty z) = Some z.
Proof.
  assert (HN : forall p, digits_val (pretty (N.pos p)) 0 = Some (Z.pos p) /\ exists c s, pretty (N.pos p) = String c s /\ c <> "-"%char).
  { intros p. assert (Hv : digits_val (pretty (N.pos p)) 0 = Some (Z.pos p))
      by (unfold pretty, pretty_N; case_decide; [done|]; by rewrite digits_val_pretty_N).
    split; [done|]. pose proof (pretty_N_digits (N.pos p)) as Hd. destruct (pretty (N.pos p)) as [|c s] eqn:E; [done|].
    exists c, s. split; [done|]. by intros ->. }
  destruct z as [|p|p]; [done| |].
  - destruct (HN p) as [Hd (c & s & E & Hc)]. change (pretty (Z.pos p)) with (pretty (N.pos p)). rewrite E in *.
    unfold parse_int. destruct c as [[] [] [] [] [] [] [] []]; done.
  - destruct (HN p) as [Hd (c & s & E & Hc)]. change (pretty (Z.neg p)) with (String "-" (pretty (N.pos p))). rewrite E in *.
    cbn [parse_int]. by rewrite Hd.
Qed.

(** Integers of any size, and text that spells them. *)
Definition param_int (ps : params) (p : string) : option Z :=
  match dict_get p ps with Some (VStr s) => parse_int s | _ => None end.
Definition value_int (v : docval) : option Z :=
  match v with DScalar v => match json_text v with Some s => parse_int s | None => None end | DSeq _ => None end.

Definition cmp_test (ps : params) (d : document) (key p : string) (test : Z -> Z -> bool) : bool :=
  match value_int (attr_value d key), param_int ps p with
  | Some x, Some b => test x b
  | _, _ => false
  end.

Fixpoint pg_eval (ps : params) (d : document) (s : sql) : bool :=
  match s with
  | SqlFalse => false
  | SqlAny key p =>
      match attr_value d key, dict_get p ps with
      | DScalar v, Some (VList vs) =>
          match json_text v with
          | Some t => existsb (fun v => match v with VStr x => t ==s x | _ => false end) vs
          | None => false
          end
      | _, _ => false
      end
  | SqlLe key p _ => cmp_test ps d key p (fun x b => x <=? b)
  | SqlGe key p _ => cmp_test ps d key p (fun x b => b <=? x)
  | SqlBetween key p1 p2 _ =>
      cmp_test ps d key p1 (fun x b => b <=? x) && cmp_test ps d key p2 (fun x b => x <=? b)
  | SqlAnd l => forallb (pg_eval ps d) l
  | SqlOr l => existsb (pg_eval ps d) l
  end.

Lemma cmp_test_ints ps d key p test x y :
  dict_get p ps = Some (VStr (pretty y)) -> has_text (attr_value d key) (Some (pretty x)) -> cmp_test ps d key p test = test x y.
Proof.
  intros Hp (v & Hv & Ht). unfold cmp_test, value_int, param_int. by rewrite Hp, Hv, Ht, !parse_int_pretty.
Qed.
Lemma cmp_test_null ps d key p test : has_text (attr_value d key) None -> cmp_test ps d key p test = false.
Proof. intros (v & Hv & Ht). unfold cmp_test, value_int. by rewrite Hv, Ht. Qed.

Definition eval_db : PgEngine.
Proof.
  refine {| pg_where := pg_eval |}; try done.
  - intros ps d key p vs s Hp (v & Hv & Ht). simpl. rewrite Hv, Hp, Ht, existsb_map. done.
  - intros ps d key p (v & Hv & Ht). simpl. rewrite Hv, Ht. by destruct (dict_get p ps) as [[]|].
  - intros. by apply cmp_test_ints.
  - intros. by apply (cmp_test_ints ps d key p (fun x b => b <=? x)).
  - intros ps d key p1 p2 x lo hi H1 H2 Ht. simpl. by rewrite (cmp_test_ints _ _ _ _ _ x lo), (cmp_test_ints _ _ _ _ _ x hi).
  - intros ps d key p1 p2 k Ht. simpl. by rewrite !cmp_test_null.
Defined.

#[global] Instance demo_floats : PyFloats (H := demo_runtime).
Proof.
  split; [intros z _; exists z; apply parse_int_pretty|]. intros x y fx fy _ _. cbn. rewrite !parse_int_pretty. by intros [= <-] [= <-].
Qed.

(** ** Properties *)

Section properties.
Context {HRT : PyRuntime} {HPF : PyFloats} {HPG : PgEngine}.

Lemma pg_clause_general f d :
  deny_all f = false -> allow f <> [] ->
  forallb (fun c => forallb (pg_pred_ok d) (translated (predicates c))) (allow f) = true ->
  clause_hit (access_filter_to_pg_clause (Some f)) d =
  match pg_clauses (allow f) with [] => true | cs => existsb (pg_clause_matches d) cs end.
Proof.
  intros Hda Hne Hok. unfold access_filter_to_pg_clause. rewrite Hda.
  destruct (clauses_spec (allow f) 0 []) as (_ & Hlen & Hsem).
  destruct (allow f) as [|c cs] eqn:E; [done|].
  destruct (clauses_to_sql (c :: cs) 0 []) as [parts ps]; cbn [fst snd] in *.
  specialize (Hsem d ps Hok (fun _ _ => eq_refl)).
  destruct parts as [|s [|s2 parts]], (pg_clauses (c :: cs)) as [|c1 cs1]; try done;
    unfold clause_hit; cbn [fst snd]; rewrite ?pg_or, <- Hsem; cbn [existsb];
    rewrite ?orb_false_r; done.
Qed.

Lemma translated_all preds : forallb pg_translatable preds = true -> translated preds = preds.
Proof.
  induction preds as [|p preds IH]; simpl; [done|]. intros [Hp Hps]%andb_true_iff. by rewrite Hp, IH.
Qed.
End properties.


Definition pg_demo_allow : list AccessClause :=
  [ mkClause [PField (mkFP "_attrs.dept" ["finance"; "global"]);
              PRange (mkRP "_attrs.level" Between ["2"; "5"] Numeric)];
    mkClause [PField (mkFP "_attrs.dept" ["legal"])] ].
Definition pg_demo_doc : document :=
  [("_attrs.dept", DScalar (SStr "global")); ("_attrs.level", DScalar (SInt 3))].


(** C4 (safety).  The SQL text cannot be injected into: for every filter, each
    attribute key spliced into the clause matches [[A-Za-z0-9_]+], values reach
    the database only through bind parameters, and every parameter the clause
    names is bound. *)
Theorem pg_clause_injection_safe (f : AccessFilter) (s : sql) (ps : params) :
  access_filter_to_pg_clause (Some f) = (Some s, ps) -> well_bound ps s = true.
Proof.
  unfold access_filter_to_pg_clause.
  destruct (deny_all f); [by intros [= <- <-]|].
  destruct (allow f) as [|c cs]; [by destruct (allow_all f); intros [= <- <-]|].
  destruct (clauses_bound (c :: cs) 0 []) as [_ Hb].
  destruct (clauses_to_sql (c :: cs) 0 []) as [[|s1 [|s2 parts]] ps1]; cbn [fst snd] in Hb;
    intros [= <- <-]; simpl in *; bool_hyps; rewrite ?andb_true_iff; auto.
Qed.

Lemma pg_clause_injection_safe_witness :
  exists s ps, access_filter_to_pg_clause (Some (from_clauses pg_demo_allow [] false)) = (Some s, ps)
               /\ well_bound ps s = true.
Proof.
  eexists _, _. split; [vm_compute; reflexivity|].
  apply (pg_clause_injection_safe (from_clauses pg_demo_allow [] false)). vm_compute. reflexivity.
Defined.

(** The sidecar fails closed: a request whose read scope was never
    compiled, or is [deny_all], returns no row, whatever other conditions the
    query has accumulated. *)
Theorem sidecar_fails_closed `{PgEngine} (af : option AccessFilter) (c : query_context) (d : document) :
  match af with None => True | Some f => deny_all f = true end ->
  forallb (pg_where (qc_params (apply_query_context af c)) d)
          (where_conditions (apply_query_context af c)) = false.
Proof.
  intros Haf. destruct af as [f|]; simpl; [rewrite Haf|]; simpl;
    by rewrite forallb_app; simpl; rewrite pg_false, andb_false_r.
Qed.

Lemma sidecar_fails_closed_witness :
  forallb (pg_where (PgEngine := eval_db) [] pg_demo_doc)
    (where_conditions (apply_query_context (Some (deny_everything true)) (mkQC [] []))) = false.
Proof.
  exact (@sidecar_fails_closed (eval_db) (Some (deny_everything true)) (mkQC [] []) pg_demo_doc eq_refl).
Defined.

(** ** What the translation does not carry over *)

(** The clause depends only on [deny_all], [allow_all] and [allow]. *)
Lemma pg_clause_ignores_deny da aa al de de' un un' us us' :
  access_filter_to_pg_clause (Some (mkFilter da aa al de un us)) =
  access_filter_to_pg_clause (Some (mkFilter da aa al de' un' us')).
Proof. done. Qed.

(** A deny clause is lost: the row of [eve] is returned although the reference
    semantics excludes it. *)
Lemma pg_deny_clause_lost :
  let f := from_clauses [mkClause [PField (mkFP "_attrs.dept" ["finance"])]]
                        [mkClause [PField (mkFP "_attrs.owner" ["eve"])]] false in
  let d := [("_attrs.dept", DScalar (SStr "finance")); ("_attrs.owner", DScalar (SStr "eve"))] in
  admits (H := demo_runtime) f d = false /\
  clause_hit (H := eval_db) (access_filter_to_pg_clause (Some f)) d = true.
Proof. vm_compute. done. Qed.

(** A clause that pins only first-class fields is dropped: the filter of an
    anonymous reader of public documents becomes no restriction at all. *)
Lemma pg_visibility_clause_lost `{PgEngine} (d : document) :
  let f := from_clauses [mkClause [PField (mkFP "catalog_id" ["c"]); PField (mkFP "visibility" ["public"])]]
                        [] false in
  access_filter_to_pg_clause (Some f) = (None, []) /\
  clause_hit (access_filter_to_pg_clause (Some f)) d = true /\
  admits (H := demo_runtime) f [("catalog_id", DScalar (SStr "c")); ("visibility", DScalar (SStr "private"))] = false.
Proof. done. Qed.

(** An attribute that is a number: the database compares its text, the reference
    semantics finds no number among the strings. *)
Lemma pg_number_member :
  let f := from_clauses [mkClause [PField (mkFP "_attrs.level" ["5"])]] [] false in
  let d := [("_attrs.level", DScalar (SInt 5))] in
  admits (H := demo_runtime) f d = false /\
  clause_hit (H := eval_db) (access_filter_to_pg_clause (Some f)) d = true.
Proof. vm_compute. done. Qed.
