(* ===== verification/AttributePredicates.v ===== *)
(** * Grant-side attribute predicates

    [iam/attribute_predicates.py]: the [AttributePredicate] model with its key
    validator, the compilers of the operators, their registry and
    [compile_attribute_predicates]. *)

From S2P Require Import Prelude AccessFilter AccessPg.

Record AttributePredicate : Type := mkAP { ap_key : string; ap_op : string; ap_values : list string }.

(** [_KEY_PATTERN = [A-Za-z_][A-Za-z0-9_]*], matched in full. *)
Definition key_head_char (a : ascii) : bool :=
  safe_char a && negb (is_digit a).

Definition key_pattern (k : string) : bool :=
  match k with
  | EmptyString => false
  | String a k' => key_head_char a && str_forallb safe_char k'
  end.

(** Building an [AttributePredicate] from a row: the field validator rejects other keys. *)
Definition validate_key (k : string) : exn + string :=
  if key_pattern k then inr k else inl ValueError.

(** A compiler returns [(predicate, uncompilable)]. *)
Definition compiler : Type := string -> list string -> option predicate * bool.

Definition attr_field (key : string) : string := "_attrs." +:+ key.

Definition InCompiler : compiler := fun key values =>
  match values with
  | [] => (None, true)
  | _ => (Some (PField (mkFP (attr_field key) values)), false)
  end.

Definition EqCompiler : compiler := fun key values =>
  match values with
  | [v] => (Some (PField (mkFP (attr_field key) [v])), false)
  | _ => (None, true)
  end.

Definition LteCompiler : compiler := fun key values =>
  match values with
  | [v] => (Some (PRange (mkRP (attr_field key) Lte [v] Numeric)), false)
  | _ => (None, true)
  end.

Definition LteTimestampCompiler : compiler := fun key values =>
  match values with
  | [v] => (Some (PRange (mkRP (attr_field key) Lte [v] Timestamp)), false)
  | _ => (None, true)
  end.

Definition GteCompiler : compiler := fun key values =>
  match values with
  | [v] => (Some (PRange (mkRP (attr_field key) Gte [v] Numeric)), false)
  | _ => (None, true)
  end.

Definition GteTimestampCompiler : compiler := fun key values =>
  match values with
  | [v] => (Some (PRange (mkRP (attr_field key) Gte [v] Timestamp)), false)
  | _ => (None, true)
  end.

Definition BetweenCompiler : compiler := fun key values =>
  match values with
  | [lo; hi] => (Some (PRange (mkRP (attr_field key) Between [lo; hi] Numeric)), false)
  | _ => (None, true)
  end.

Definition BetweenTimestampCompiler : compiler := fun key values =>
  match values with
  | [lo; hi] => (Some (PRange (mkRP (attr_field key) Between [lo; hi] Timestamp)), false)
  | _ => (None, true)
  end.

Abbreviation registry := (list (string * compiler)).

Definition PREDICATE_REGISTRY : registry :=
  [("in", InCompiler); ("eq", EqCompiler);
   ("lte", LteCompiler); ("lte:timestamp", LteTimestampCompiler);
   ("gte", GteCompiler); ("gte:timestamp", GteTimestampCompiler);
   ("between", BetweenCompiler); ("between:timestamp", BetweenTimestampCompiler)].

Definition register_compiler (op : string) (c : compiler) (r : registry) : registry := dict_set op c r.

(** The loop of [compile_attribute_predicates], with its two accumulators. *)
Fixpoint compile_loop (r : registry) (preds : list AttributePredicate)
    (result : list predicate) (uncompilable : bool) : list predicate * bool :=
  match preds with
  | [] => (result, uncompilable)
  | pred :: preds' =>
      match dict_get (ap_op pred) r with
      | None => compile_loop r preds' result true
      | Some c =>
          match c (ap_key pred) (ap_values pred) with
          | (_, true) | (None, _) => compile_loop r preds' result true
          | (Some fp, false) => compile_loop r preds' (result ++ [fp]) uncompilable
          end
      end
  end.

Definition compile_attribute_predicates (r : registry) (preds : list AttributePredicate)
    : list predicate * bool :=
  compile_loop r preds [] false.

(** ** Specification

    What an attribute predicate promises of a document, and when it is
    expressible, stated without the compilers. *)

Definition ap_ok (p : AttributePredicate) : bool :=
  let n := length (ap_values p) in
  if ap_op p ==s "in" then (0 <? n)%nat
  else if str_mem (ap_op p) ["eq"; "lte"; "lte:timestamp"; "gte"; "gte:timestamp"] then (n =? 1)%nat
  else if str_mem (ap_op p) ["between"; "between:timestamp"] then (n =? 2)%nat
  else false.

Section spec.
Context `{PyRuntime}.

Definition ap_holds (p : AttributePredicate) (d : document) : bool :=
  let v := doc_get d (attr_field (ap_key p)) in
  let text := py_str (docval_py v) in
  let present := match v with DScalar SNone => false | _ => true end in
  let b i := nth i (ap_values p) "" in
  if str_mem (ap_op p) ["in"; "eq"] then
    match v with
    | DSeq l => existsb (scalar_in (ap_values p)) l
    | DScalar s => scalar_in (ap_values p) s
    end
  else if str_mem (ap_op p) ["lte"; "lte:timestamp"] then present && (range_cmp text (b 0%nat) <=? 0)
  else if str_mem (ap_op p) ["gte"; "gte:timestamp"] then present && (0 <=? range_cmp text (b 0%nat))
  else present && (0 <=? range_cmp text (b 0%nat)) && (range_cmp text (b 1%nat) <=? 0).

(** One compiler of the default registry against the specification. *)
Lemma default_compiler_spec (p : AttributePredicate) :
  match dict_get (ap_op p) PREDICATE_REGISTRY with
  | None => ap_ok p = false
  | Some c =>
      match c (ap_key p) (ap_values p) with
      | (Some fp, false) =>
          ap_ok p = true /\ predicate_wf fp = true /\
          (key_pattern (ap_key p) = true -> pg_translatable fp = true) /\
          (forall d, predicate_matches fp d = ap_holds p d)
      | _ => ap_ok p = false
      end
  end.
Proof.
  assert (Hkey : forall k, key_pattern k = true ->
    str_mem (attr_field k) FIRST_CLASS_COLS = false /\
    String.prefix ATTRS_PREFIX (attr_field k) = true /\
    safe_attr_key (str_drop 7 (attr_field k)) = true).
  { intros [|a k] Hk; [done|]. unfold key_pattern, key_head_char in Hk. bool_hyps.
    unfold safe_attr_key. change (str_drop 7 (attr_field (String a k))) with (String a k).
    repeat split. simpl. by rewrite H0, H1. }
  destruct p as [k op vs]. unfold PREDICATE_REGISTRY, ap_ok, ap_holds, str_mem.
  destruct vs as [|v0 [|v1 [|v2 vs]]]; simpl;
    repeat match goal with
    | |- context [op ==s ?s] =>
        let E := fresh "E" in destruct (op ==s s) eqn:E; [bool_hyps; subst; simpl|]
    end; simpl; try done.
  all: repeat split; try done.
  all: try (intros (H1 & H2 & H3)%Hkey; cbn [pg_translatable rp_field rp_op rp_bounds];
            rewrite ?H1, ?H2, ?H3; done).
  all: intros d; unfold field_matches, range_matches; simpl;
    destruct (doc_get d (attr_field k)) as [[]|]; done.
Qed.

Lemma compile_loop_spec preds res unc :
  let r := compile_loop PREDICATE_REGISTRY preds res unc in
  r.2 = unc || negb (forallb ap_ok preds) /\
  (forallb ap_ok preds = true ->
   exists fps, r.1 = res ++ fps /\ length fps = length preds /\ forallb predicate_wf fps = true /\
     (forallb (fun p => key_pattern (ap_key p)) preds = true -> forallb pg_translatable fps = true) /\
     forall d, forallb (fun fp => predicate_matches fp d) fps = forallb (fun p => ap_holds p d) preds).
Proof.
  revert res unc. induction preds as [|p preds IH]; intros res unc; cbn [compile_loop forallb].
  { simpl. rewrite orb_false_r. split; [done|]. intros _. exists []. by rewrite app_nil_r. }
  pose proof (default_compiler_spec p) as Hc.
  assert (Hbad : ap_ok p = false -> forall res',
    (compile_loop PREDICATE_REGISTRY preds res' true).2 = unc || negb (ap_ok p && forallb ap_ok preds) /\
    (ap_ok p && forallb ap_ok preds = true -> False)).
  { intros Hp res'. destruct (IH res' true) as [-> _]. rewrite Hp. simpl.
    by rewrite orb_true_r. }
  destruct (dict_get (ap_op p) PREDICATE_REGISTRY) as [c|].
  2:{ destruct (Hbad Hc res) as [? Hf]. split; [done|]. intros Hx. by destruct (Hf Hx). }
  destruct (c (ap_key p) (ap_values p)) as [[fp|] [|]].
  1,3,4: destruct (Hbad Hc res) as [? Hf]; split; [done|]; intros Hx; by destruct (Hf Hx).
  destruct Hc as (Hok & Hwf & Htr & Hsem). rewrite Hok; simpl.
  destruct (IH (res ++ [fp]) unc) as [IH1 IH2]. split; [done|]. intros Hall.
  destruct (IH2 Hall) as (fps & -> & Hlen & Hwfs & Htrs & Hsems).
  exists (fp :: fps). rewrite <- app_assoc; simpl. rewrite Hlen, Hwf, Hwfs.
  repeat split; [intros; bool_hyps; by rewrite Htr, Htrs|].
  intros d. by rewrite Hsem, Hsems.
Qed.
End spec.

(** ** Properties *)

(** [compile_attribute_predicates] is exact and fail-closed
    with the default registry: it reports [uncompilable] iff some predicate has
    an unknown operator or the wrong arity, and otherwise the conjunction of
    the compiled predicates holds of a document iff every attribute predicate
    of the grant does. *)
Theorem compile_attribute_predicates_exact `{PyRuntime} (preds : list AttributePredicate) :
  let '(fps, unc) := compile_attribute_predicates PREDICATE_REGISTRY preds in
  unc = negb (forallb ap_ok preds) /\
  (unc = false ->
   forallb predicate_wf fps = true /\
   forall d, clause_matches (mkClause fps) d = forallb (fun p => ap_holds p d) preds).
Proof.
  unfold compile_attribute_predicates.
  destruct (compile_loop_spec preds [] false) as [Hunc Hok].
  destruct (compile_loop _ preds [] false) as [fps unc]; simpl in *.
  split; [done|]. intros ->. symmetry in Hunc. apply negb_false_iff in Hunc.
  by destruct (Hok Hunc) as (fps' & -> & _ & ? & _ & ?).
Qed.

(** Keys accepted at the grant ingress are exactly expressible in
    SQL: every predicate compiled from validated attribute predicates is
    translated by the PostgreSQL backend, none is skipped. *)
Theorem validated_predicates_reach_pg (preds : list AttributePredicate) (fps : list predicate) :
  forallb (fun p => key_pattern (ap_key p)) preds = true ->
  compile_attribute_predicates PREDICATE_REGISTRY preds = (fps, false) ->
  length fps = length preds /\ translated fps = fps.
Proof.
  intros Hkeys Hc. unfold compile_attribute_predicates in Hc.
  destruct (@compile_loop_spec demo_runtime preds [] false) as [Hunc Hok].
  rewrite Hc in Hunc, Hok. simpl in *. symmetry in Hunc. apply negb_false_iff in Hunc.
  destruct (Hok Hunc) as (fps' & -> & Hlen & _ & Htr & _).
  split; [done|]. by apply translated_all, Htr.
Qed.

Lemma validated_predicates_reach_pg_witness :
  exists fps, length fps = 2%nat /\ translated fps = fps.
Proof.
  eexists.
  apply (validated_predicates_reach_pg
    [mkAP "dept" "in" ["finance"; "global"]; mkAP "level" "between:timestamp" ["1"; "9"]]).
  - vm_compute. reflexivity.
  - vm_compute. reflexivity.
Defined.
