(* ===== verification/Conditions.v ===== *)
(** * Policy conditions and their handlers

    [iam/conditions.py] and [iam/audience_handlers.py]: the evaluation context,
    one definition per condition handler, the registry dispatch
    [evaluate_all] / [evaluate_condition].

    A condition is its type and its config dictionary; the two keys under which
    a config nests further conditions (["conditions"], ["condition"]) are
    separate fields, so that evaluation is structural.  Services the handlers
    look up with [get_protocol] are the class [Services]; the usage counters
    they change are its state [W].

    A config value is taken at the type the handler documents for its key: a
    string where a pattern or a name is expected, a list of strings where names
    are listed.  Other values there mostly raise a [TypeError] in the source. *)

From S2P Require Import Prelude.

Unset Elimination Schemes.
Inductive Condition : Type := mkCond {
  cond_type : string;
  cond_config : list (string * pyval);
  cond_children : list Condition;      (* config["conditions"] *)
  cond_child : option Condition;       (* config["condition"] *)
}.
Set Elimination Schemes.

Section condition_induction.
Context (P : Condition -> Prop)
  (Hmk : forall t cfg cs c, Forall P cs -> (forall x, c = Some x -> P x) -> P (mkCond t cfg cs c)).

Fixpoint Condition_ind (c : Condition) : P c :=
  match c with
  | mkCond t cfg cs ch =>
      Hmk t cfg cs ch
        ((fix go (l : list Condition) : Forall P l :=
            match l with
            | [] => Forall_nil_2 P
            | x :: l' => Forall_cons_2 P x l' (Condition_ind x) (go l')
            end) cs)
        (match ch as ch' return forall x, ch' = Some x -> P x with
         | Some y => fun x E => eq_ind y P (Condition_ind y) x (f_equal (default y) E)
         | None => fun x E => False_ind _ (eq_ind None (fun o => match o with None => True | _ => False end) I _ E)
         end)
  end.
End condition_induction.

(** ** Context *)

(** What handlers read of the request: header lookup, peer address, JSON body
    ([None] when the body cannot be read as JSON). *)
Record request : Type := mkReq {
  req_header : string -> option string;
  req_client_host : option string;
  req_json : option pyval;
}.

Record principal : Type := mkPrincipal {
  roles : list string;
  provider : option string;
  subject_id : option string;
  attributes : list (string * pyval);
}.

Record EvaluationContext : Type := mkCtx {
  ctx_request : option request;
  ctx_principal_id : option string;
  ctx_path : string;
  ctx_method : string;
  ctx_query_params : option (list (string * string));
  ctx_requested_ttl : Z;
  ctx_catalog_id : option string;
  ctx_principal_obj : option principal;       (* extras["principal_obj"] *)
  ctx_collection_id : option string;          (* extras["collection_id"] *)
  ctx_extras : list (string * pyval);         (* the other keys of extras *)
  ctx_effect : option string;
}.

Definition set_effect (e : string) (c : EvaluationContext) : EvaluationContext :=
  mkCtx (ctx_request c) (ctx_principal_id c) (ctx_path c) (ctx_method c) (ctx_query_params c)
        (ctx_requested_ttl c) (ctx_catalog_id c) (ctx_principal_obj c) (ctx_collection_id c)
        (ctx_extras c) (Some e).

(** ** Services *)

Record membership : Type := mkMembership {
  mem_platform : bool;
  mem_catalogs : list string;
  mem_catalog_roles : list (string * list string);
}.

(** [incr_if_below policy_id principal_key limit window]. *)
Definition counter_op (W : Type) : Type := string -> string -> Z -> option Z -> M W (Z * bool).

Class Services (W : Type) := {
  usage_counter : option (counter_op W);
  iam_membership : option (string -> string -> membership);
  (** [ConfigsProtocol.get_config(...)]: [None] when the protocol is not
      registered, the call raises, or the result has another type *)
  lookup_is_public : string -> option bool;
  allow_anonymous_create : string -> string -> option bool;
  utc_now : Z;
  utc_hour : Z;
  utc_weekday : Z;
  sysadmin_role_name : string;
  (** handlers registered besides the built-in ones *)
  ext_handler : string -> option (list (string * pyval) -> EvaluationContext -> M W bool);
}.

(** ** Helpers *)

Definition nonempty_str (s : option string) : option string :=
  match s with Some "" => None | o => o end.

Definition str_items (v : pyval) : list string :=
  match v with
  | VList l => omap (fun x => match x with VStr s => Some s | _ => None end) l
  | _ => []
  end.

Definition client_ip_from_request (r : option request) : option string :=
  match r with
  | None => None
  | Some r =>
      let first :=
        match nonempty_str (req_header r "x-forwarded-for") with
        | Some xff => nonempty_str (Some (str_strip (default "" (head (str_split "," xff)))))
        | None => None
        end in
      match first with
      | Some ip => Some ip
      | None => nonempty_str (req_client_host r)
      end
  end.

(** [_policy_id_for]: the owner stamped for the config object, else the legacy
    on-config key. *)
Definition policy_id_for (pid : option string) (cfg : list (string * pyval)) : option string :=
  match nonempty_str pid with
  | Some p => Some p
  | None => match cfg_get cfg "_policy_id" with VStr s => nonempty_str (Some s) | _ => None end
  end.

(** [_field_present] on a JSON object. *)
Definition field_present (fields : list (string * pyval)) (key : string) : bool :=
  match cfg_get fields key with
  | VNone | VStr "" | VList [] | VDict [] => false
  | _ => true
  end.

Definition op_is (v : pyval) (s : string) : bool :=
  match v with VStr t => t ==s s | _ => false end.

Section handlers.
Context `{PyRuntime} {W : Type} `{Services W}.
Implicit Types (cfg : list (string * pyval)) (ctx : EvaluationContext).

(** [_safe_regex_matches]: [None] on an invalid pattern. *)
Definition safe_regex_matches (fullmatch : bool) (pattern value : string) : option bool :=
  if fullmatch then re_fullmatch pattern value else re_search pattern value.

(** [_principal_key_for]: an unknown scope is a mis-configuration and raises. *)
Definition principal_key_for (scope : pyval) ctx : M W (option string) :=
  if op_is scope "principal" then mret (ctx_principal_id ctx)
  else if op_is scope "role" then
    mret (match ctx_principal_obj ctx with Some p => head (roles p) | None => None end)
  else if op_is scope "client_ip" then
    mret (option_map (fun h => "ip:" +:+ h) (client_ip_from_request (ctx_request ctx)))
  else if op_is scope "catalog" then mret (ctx_catalog_id ctx)
  else raise IamError.

Definition path_method_matches cfg ctx : bool :=
  let pattern := cfg_get cfg "path_pattern" in
  let path_ok :=
    if truthy pattern then
      match safe_regex_matches false (py_str pattern) (ctx_path ctx) with
      | Some true => true
      | _ => false
      end
    else true in
  let methods := cfg_get cfg "methods" in
  path_ok &&
  (if truthy methods then str_mem (str_upper (ctx_method ctx)) (map str_upper (str_items methods))
   else true).

Definition int_or_raise (v : pyval) : M W Z :=
  match py_int v with Some z => mret z | None => raise OtherError end.

Definition rate_limit (pid : option string) cfg ctx : M W bool :=
  if negb (path_method_matches cfg ctx) then mret true
  else match policy_id_for pid cfg with
  | None => mret true
  | Some policy_id =>
      key ← principal_key_for (cfg_get_or cfg "scope" (VStr "principal")) ctx;
      match key with
      | None => mret true
      | Some principal_key =>
          match usage_counter with
          | None =>
              if op_is (cfg_get_or cfg "mode" (VStr "graceful")) "strict"
              then raise RateLimitExceededError else mret true
          | Some incr_if_below =>
              limit ← int_or_raise (cfg_get_or cfg "limit" (VInt 0));
              window ← int_or_raise (cfg_get_or cfg "window_seconds" (VInt 60));
              if (limit <=? 0) || (window <=? 0) then mret true
              else
                r ← incr_if_below policy_id principal_key limit (Some window);
                if negb r.2 then raise RateLimitExceededError else mret true
          end
      end
  end.

Definition max_count (pid : option string) cfg ctx : M W bool :=
  if negb (path_method_matches cfg ctx) then mret true
  else match policy_id_for pid cfg with
  | None => mret true
  | Some policy_id =>
      key ← principal_key_for (cfg_get_or cfg "scope" (VStr "principal")) ctx;
      match key with
      | None => mret true
      | Some principal_key =>
          match usage_counter with
          | None =>
              if op_is (cfg_get_or cfg "mode" (VStr "graceful")) "strict"
              then raise QuotaExceededError else mret true
          | Some incr_if_below =>
              limit ← int_or_raise (cfg_get_or cfg "limit" (cfg_get_or cfg "max_count" (VInt 0)));
              if limit <=? 0 then mret true
              else
                r ← incr_if_below policy_id principal_key limit None;
                if negb r.2 then raise QuotaExceededError else mret true
          end
      end
  end.

Definition str_fields (d : list (string * string)) : list (string * pyval) :=
  map (fun kv => (kv.1, VStr kv.2)) d.

Definition read_body ctx : option (list (string * pyval)) :=
  match ctx_request ctx with
  | None => None
  | Some r => match req_json r with Some (VDict d) => Some d | _ => None end
  end.

Definition lookup_only_search cfg ctx : bool :=
  let fields_or dflt k := let v := cfg_get cfg k in if truthy v then str_items v else dflt in
  let lookup_fields := fields_or ["geoid"; "external_id"] "lookup_fields" in
  let broadening_fields :=
    fields_or ["bbox"; "intersects"; "datetime"; "filter"; "q"] "broadening_fields" in
  let method := str_upper (ctx_method ctx) in
  let fields :=
    if method ==s "GET" then Some (str_fields (default [] (ctx_query_params ctx)))
    else if method ==s "POST" then read_body ctx
    else None in
  match fields with
  | None => false
  | Some fields =>
      existsb (field_present fields) lookup_fields &&
      negb (existsb (field_present fields) broadening_fields)
  end.

(** An invalid pattern keeps a DENY denying and does not let an ALLOW grant. *)
Definition regex_or_effect (r : option bool) ctx : bool :=
  match r with
  | Some b => b
  | None => match ctx_effect ctx with Some e => e ==s "DENY" | None => false end
  end.

Definition query_match cfg ctx : bool :=
  match ctx_query_params ctx with
  | None | Some [] => true
  | Some qp =>
      let param_key := cfg_get cfg "param" in
      let pattern := cfg_get cfg "pattern" in
      if negb (truthy param_key) || negb (truthy pattern) then true
      else match dict_get (py_str param_key) qp with
           | None => false
           | Some val => regex_or_effect (safe_regex_matches true (py_str pattern) val) ctx
           end
  end.

Fixpoint replace_Z (s : string) : string :=
  match s with
  | EmptyString => EmptyString
  | String "Z"%char s' => "+00:00" +:+ replace_Z s'
  | String a s' => String a (replace_Z s')
  end.

(** Parse a bound of a config; a malformed one raises, and so does the
    comparison of a naive one with the aware clock. *)
Definition iso_bound (v : pyval) : M W (option Z) :=
  if truthy v then
    match v with
    | VStr s =>
        match fromisoformat (replace_Z s) with
        | Some (Some t) => mret (Some t)
        | Some None => raise OtherError
        | None => raise IamError
        end
    | _ => raise OtherError
    end
  else mret None.

(** The operand of an integer comparison. *)
Definition num_or_raise (v : pyval) : M W Z :=
  match v with
  | VInt z => mret z
  | VBool b => mret (if b then 1 else 0)
  | _ => raise OtherError
  end.

Definition time_window cfg ctx : M W bool :=
  start_dt ← iso_bound (cfg_get cfg "start");
  _ ← (match start_dt with
       | Some t => if utc_now <? t then raise AccessDeniedError else mret tt
       | None => mret tt
       end : M W ());
  end_dt ← iso_bound (cfg_get cfg "end");
  _ ← (match end_dt with
       | Some t => if t <? utc_now then raise AccessDeniedError else mret tt
       | None => mret tt
       end : M W ());
  if truthy (cfg_get_or cfg "weekdays_only" (VBool false)) && (4 <? utc_weekday)
  then raise AccessDeniedError
  else
  start_h ← num_or_raise (cfg_get_or cfg "start_hour" (VInt 0));
  if negb (start_h <=? utc_hour) then raise AccessDeniedError
  else
    end_h ← num_or_raise (cfg_get_or cfg "end_hour" (VInt 24));
    if negb (utc_hour <? end_h) then raise AccessDeniedError else mret true.

Definition expiration cfg ctx : M W bool :=
  exp ← iso_bound (cfg_get cfg "expires_at");
  match exp with
  | Some t => if t <? utc_now then raise AccessDeniedError else mret true
  | None => mret true
  end.

Definition max_token_ttl cfg ctx : M W bool :=
  if ctx_requested_ttl ctx <=? 0 then mret true
  else
    max_ttl ← num_or_raise (cfg_get_or cfg "max_ttl_seconds" (VInt 3600));
    mret (negb (max_ttl <? ctx_requested_ttl ctx)).

(** *** [match]: an attribute of the context against a value *)

Definition match_get_value (path : string) ctx : option pyval :=
  if String.prefix "query." path then
    match ctx_query_params ctx with
    | Some qp => option_map VStr (dict_get (str_drop 6 path) qp)
    | None => None
    end
  else if String.prefix "header." path then
    match ctx_request ctx with
    | Some r => option_map VStr (req_header r (str_drop 7 path))
    | None => None
    end
  else if path ==s "path" then Some (VStr (ctx_path ctx))
  else if path ==s "method" then Some (VStr (ctx_method ctx))
  else if path ==s "principal.id" then option_map VStr (ctx_principal_id ctx)
  else if String.prefix "principal.attributes." path then
    match ctx_principal_obj ctx with
    | Some p => dict_get (str_drop 21 path) (attributes p)
    | None => None
    end
  else if path ==s "extras.collection_id" then option_map VStr (ctx_collection_id ctx)
  else if String.prefix "extras." path then dict_get (str_drop 7 path) (ctx_extras ctx)
  else None.

(** [actual in expected] of both comparison functions. *)
Definition in_expected (actual expected : pyval) : bool :=
  match expected with
  | VList l => existsb (py_eq actual) l
  | _ => existsb (fun s => py_eq actual (VStr s)) (str_split "," (py_str expected))
  end.

Definition float_cmp (lt : pyfloat -> pyfloat -> bool) (actual expected : pyval) : bool :=
  match py_float actual, py_float expected with
  | Some a, Some b => lt a b
  | _, _ => false
  end.

Definition match_compare_handler (actual operator expected : pyval) ctx : bool :=
  if op_is operator "eq" then py_str actual ==s py_str expected
  else if op_is operator "neq" then negb (py_str actual ==s py_str expected)
  else if op_is operator "contains" then str_contains (py_str expected) (py_str actual)
  else if op_is operator "regex" then
    regex_or_effect (safe_regex_matches false (py_str expected) (py_str actual)) ctx
  else if op_is operator "gt" then float_cmp (fun a b => float_lt b a) actual expected
  else if op_is operator "lt" then float_cmp float_lt actual expected
  else if op_is operator "in" then in_expected actual expected
  else false.

Definition attribute_match cfg ctx : bool :=
  let attr_path := cfg_get cfg "attribute" in
  if negb (truthy attr_path) then true
  else
    let actual := match attr_path with VStr p => match_get_value p ctx | _ => None end in
    match actual with
    | None | Some VNone => false
    | Some v => match_compare_handler v (cfg_get_or cfg "operator" (VStr "eq")) (cfg_get cfg "value") ctx
    end.

(** *** Catalog membership and administration *)

(** The membership of an authenticated principal; [None] fails closed. *)
Definition principal_membership (p : principal) : option membership :=
  match nonempty_str (provider p), nonempty_str (subject_id p), iam_membership with
  | Some prov, Some sub, Some q => Some (q prov sub)
  | _, _, _ => None
  end.

Definition cfg_sysadmin_role cfg : string :=
  py_str (cfg_get_or cfg "sysadmin_role" (VStr sysadmin_role_name)).

Definition catalog_membership cfg ctx : bool :=
  match nonempty_str (ctx_catalog_id ctx), ctx_principal_obj ctx with
  | Some catalog_id, Some p =>
      if truthy (cfg_get_or cfg "allow_sysadmin" (VBool true)) &&
         str_mem (cfg_sysadmin_role cfg) (roles p) then true
      else match principal_membership p with
           | None => false
           | Some m =>
               if truthy (cfg_get_or cfg "allow_platform" (VBool true)) && mem_platform m then true
               else str_mem catalog_id (mem_catalogs m)
           end
  | _, _ => false
  end.

(** [_CATALOG_PRESET_PATH_RE]: [/admin/catalogs/{cat}/presets/{name}]. *)
Definition preset_of_path (path : string) : option string :=
  match str_split "/" path with
  | [""; "admin"; "catalogs"; cat; "presets"; name] =>
      if (cat ==s "") || (name ==s "") then None else Some name
  | _ => None
  end.

(** [CatalogAdminConditionConfig], validated by pydantic in its lax mode: a
    boolean field also takes 0, 1 and the usual words for true and false; a
    list of strings takes strings only; anything else is a validation error. *)
Record CatalogAdminConditionConfig : Type := mkAdminConfig {
  ca_required_roles : list string;
  ca_sysadmin_role : string;
  ca_allow_platform : bool;
  ca_allow_sysadmin : bool;
  ca_allowed_preset_names : option (list string);
}.

Definition validate_bool (v : pyval) : option bool :=
  match v with
  | VBool b => Some b
  | VInt z => if z =? 0 then Some false else if z =? 1 then Some true else None
  | VStr s =>
      if str_mem (str_lower s) ["1"; "on"; "t"; "true"; "y"; "yes"] then Some true
      else if str_mem (str_lower s) ["0"; "off"; "f"; "false"; "n"; "no"] then Some false
      else None
  | _ => None
  end.

Definition validate_str (v : pyval) : option string :=
  match v with VStr s => Some s | _ => None end.

Definition validate_str_list (v : pyval) : option (list string) :=
  match v with VList l => mapM validate_str l | _ => None end.

(** A field of the model: its default when the key is absent. *)
Definition validate_field {A} (validate : pyval -> option A) (dflt : A) (v : option pyval) : option A :=
  match v with Some v => validate v | None => Some dflt end.

(** [required_roles], or the singular alias promoted into it. *)
Definition required_roles cfg : option pyval :=
  match dict_get "required_roles" cfg, dict_get "required_role" cfg with
  | Some v, _ => Some v
  | None, Some single => Some (VList (if truthy single then [single] else []))
  | None, None => None
  end.

Definition catalog_admin_config cfg : option CatalogAdminConditionConfig :=
  rr ← validate_field validate_str_list [] (required_roles cfg);
  sr ← validate_field validate_str sysadmin_role_name (dict_get "sysadmin_role" cfg);
  ap ← validate_field validate_bool true (dict_get "allow_platform" cfg);
  sa ← validate_field validate_bool true (dict_get "allow_sysadmin" cfg);
  names ← validate_field (fun v => match v with VNone => Some None | _ => option_map Some (validate_str_list v) end)
            None (dict_get "allowed_preset_names" cfg);
  Some (mkAdminConfig rr sr ap sa names).

Definition catalog_admin cfg ctx : M W bool :=
  match nonempty_str (ctx_catalog_id ctx), ctx_principal_obj ctx with
  | Some catalog_id, Some p =>
      match catalog_admin_config cfg with
      | None => raise ValueError
      | Some k =>
          if ca_allow_sysadmin k && str_mem (ca_sysadmin_role k) (roles p) then mret true
          else match principal_membership p with
               | None => mret false
               | Some m =>
                   if ca_allow_platform k && mem_platform m then mret true
                   else
                     let in_cat := default [] (dict_get catalog_id (mem_catalog_roles m)) in
                     if negb (existsb (fun r => str_mem r in_cat) (ca_required_roles k)) then mret false
                     else match ca_allowed_preset_names k with
                          | None => mret true
                          | Some names =>
                              match preset_of_path (ctx_path ctx) with
                              | Some preset_name => mret (str_mem preset_name names)
                              | None => mret true
                              end
                          end
               end
      end
  | _, _ => mret false
  end.

Definition read_action ctx : option string :=
  match read_body ctx with
  | None => None
  | Some body =>
      match cfg_get body "action" with VStr a => nonempty_str (Some a) | _ => None end
  end.

Definition request_action_privilege cfg ctx : bool :=
  if negb (str_upper (ctx_method ctx) ==s "POST") then false
  else
    let gated_actions := str_items (cfg_get cfg "gated_actions") in
    match gated_actions, read_action ctx with
    | [], _ | _, None => false
    | _, Some action =>
        if negb (str_mem action gated_actions) then false
        else match ctx_principal_obj ctx with
             | None => false
             | Some p =>
                 if truthy (cfg_get_or cfg "allow_sysadmin" (VBool true)) &&
                    str_mem (cfg_sysadmin_role cfg) (roles p) then false
                 else
                   let required_role := py_str (cfg_get_or cfg "required_role" (VStr "")) in
                   if negb (required_role ==s "") && str_mem required_role (roles p) then false
                   else true
             end
    end.

(** *** Audience handlers *)

Definition catalog_lookup_public ctx : bool :=
  match nonempty_str (ctx_catalog_id ctx) with
  | None => false
  | Some c => default false (lookup_is_public c)
  end.

(** [_COLLECTION_PATH_RE]: the first [/catalogs/{cat}/collections/{col}] of the
    path, on its [/]-separated segments. *)
Fixpoint collection_segment (segs : list string) : option string :=
  match segs with
  | [] => None
  | a :: segs' =>
      match segs' with
      | cat :: k :: col :: _ =>
          if (a ==s "catalogs") && negb (cat ==s "") && (k ==s "collections") && negb (col ==s "")
          then Some col else collection_segment segs'
      | _ => None
      end
  end.

Definition collection_of_path (path : string) : option string :=
  collection_segment (tail (str_split "/" path)).

Definition resolve_collection_id ctx : option string :=
  match nonempty_str (ctx_collection_id ctx) with
  | Some c => Some c
  | None => collection_of_path (ctx_path ctx)
  end.

Definition collection_write_anonymous ctx : bool :=
  match nonempty_str (ctx_catalog_id ctx) with
  | None => false
  | Some c =>
      match nonempty_str (resolve_collection_id ctx) with
      | None => false
      | Some col => default false (allow_anonymous_create c col)
      end
  end.

(** *** Dispatch *)

(** Handlers that do not nest conditions.  [None]: no such handler. *)
Definition leaf_handler (ty : string) (pid : option string) cfg ctx : option (M W bool) :=
  if ty ==s "rate_limit" then Some (rate_limit pid cfg ctx)
  else if ty ==s "max_count" then Some (max_count pid cfg ctx)
  else if ty ==s "lookup_only_search" then Some (mret (lookup_only_search cfg ctx))
  else if ty ==s "query_match" then Some (mret (query_match cfg ctx))
  else if ty ==s "time_window" then Some (time_window cfg ctx)
  else if (ty ==s "expiration") || (ty ==s "time_expiration") then Some (expiration cfg ctx)
  else if ty ==s "max_token_ttl" then Some (max_token_ttl cfg ctx)
  else if ty ==s "match" then Some (mret (attribute_match cfg ctx))
  else if ty ==s "catalog_membership_required" then Some (mret (catalog_membership cfg ctx))
  else if ty ==s "catalog_admin_required" then Some (catalog_admin cfg ctx)
  else if ty ==s "request_action_privilege" then Some (mret (request_action_privilege cfg ctx))
  else if ty ==s "catalog_lookup_public_allowed" then Some (mret (catalog_lookup_public ctx))
  else if ty ==s "collection_write_anonymous_allowed" then Some (mret (collection_write_anonymous ctx))
  else option_map (fun h => h cfg ctx) (ext_handler ty).

(** [evaluate_condition].  The owning policy id is known for the top-level
    config objects only: nested conditions are rebuilt from dictionaries and
    have no owner. *)
Fixpoint evaluate_condition (c : Condition) (pid : option string) ctx {struct c} : M W bool :=
  match c with
  | mkCond ty cfg cs child =>
      if ty ==s "and" then
        (fix all (cs : list Condition) : M W bool :=
           match cs with
           | [] => mret true
           | c :: cs' => b ← evaluate_condition c None ctx; if b : bool then all cs' else mret false
           end) cs
      else if ty ==s "or" then
        match cs with
        | [] => mret true
        | _ =>
            (fix any (cs : list Condition) : M W bool :=
               match cs with
               | [] => mret false
               | c :: cs' => b ← evaluate_condition c None ctx; if b : bool then mret true else any cs'
               end) cs
        end
      else if ty ==s "not" then
        match child with
        | None => mret true
        | Some c' => b ← evaluate_condition c' None ctx; mret (negb b)
        end
      else match leaf_handler ty pid cfg ctx with
           | Some run => run
           | None => mret false
           end
  end.

(** [evaluate_all]: every condition in turn, stopping at the first denial. *)
Fixpoint evaluate_all (cs : list Condition) (pid : option string) ctx : M W bool :=
  match cs with
  | [] => mret true
  | c :: cs' =>
      b ← evaluate_condition c pid ctx;
      if b : bool then evaluate_all cs' pid ctx else mret false
  end.
End handlers.
