(* ===== verification/Policies.v ===== *)
(** * Policies: the decision engine and the read-filter compiler

    [models/auth.py] ([Policy]) and [iam/policies.py]: [evaluate_access] with
    its ranking, and [compile_read_filter] with its helpers.  The policy list
    both receive is the result of [_resolve_effective_policies]. *)

From S2P Require Import Prelude AccessFilter AttributePredicates Conditions.

(** ** Policies *)

Inductive effect : Type := ALLOW | DENY.

#[global] Instance effect_eq_dec : EqDecision effect.
Proof. solve_decision. Defined.

Definition effect_name (e : effect) : string := match e with ALLOW => "ALLOW" | DENY => "DENY" end.

Record Policy : Type := mkPolicy {
  pol_id : string;
  pol_effect : effect;
  pol_priority : Z;
  actions : list string;
  resources : list string;
  conditions : list Condition;
}.

(** [validate_effect]: upper-case names of the two effects. *)
Definition validate_effect (v : string) : option effect :=
  let u := str_upper v in
  if u ==s "ALLOW" then Some ALLOW else if u ==s "DENY" then Some DENY else None.

(** [transform_wildcards]. *)
Definition transform_wildcards (l : list string) : list string :=
  map (fun item => if item ==s "*" then ".*" else item) l.

Section engine.
Context `{PyRuntime} {W : Type} `{Services W}.
Implicit Types (p : Policy) (d : document).

Definition REDOS_PATTERN : string := "(\(.+\+\)\+|\(.+\*\)\*|\(.+\+\)\*|\(.+\*\)\+)".

(** [validate_regex]: every pattern compiles, has no nested quantifier and at
    most 512 characters. *)
Definition validate_regex (l : list string) : bool :=
  forallb (fun pattern =>
    match re_match pattern "" with None => false | Some _ => true end &&
    match re_search REDOS_PATTERN pattern with Some true => false | _ => true end &&
    (Z.of_nat (String.length pattern) <=? 512)) l.

(** [Policy(...)] with its validators. *)
Definition build_policy (id eff : string) (prio : Z) (acts ress : list string) (conds : list Condition)
    : option Policy :=
  match validate_effect eff with
  | None => None
  | Some e =>
      let acts' := transform_wildcards acts in
      let ress' := transform_wildcards ress in
      if (-1000 <=? prio) && (prio <=? 1000) && validate_regex acts' && validate_regex ress'
      then Some (mkPolicy id e prio acts' ress' conds) else None
  end.

(** Start-anchored match of one of the (compiled) patterns. *)
Definition any_match (patterns : list string) (s : string) : bool :=
  existsb (fun pat => match re_match pat s with Some true => true | _ => false end) patterns.

Definition matches_action p (action : string) : bool := any_match (actions p) action.
Definition matches_resource p (resource : string) : bool := any_match (resources p) resource.

(** ** [evaluate_access] *)

Definition method_match p (method : string) : bool :=
  match actions p with [] => true | _ => false end ||
  str_mem ".*" (actions p) || str_mem method (actions p) || matches_action p method.

(** [_rank_key(p) < _rank_key(q)]: higher priority first, then lower id. *)
Definition rank_lt p q : bool :=
  (pol_priority q <? pol_priority p) ||
  ((pol_priority p =? pol_priority q) &&
   match String.compare (pol_id p) (pol_id q) with Lt => true | _ => false end).

(** [if best is None or _rank_key(p) < _rank_key(best): best = p]. *)
Definition keep_best p (best : option Policy) : option Policy :=
  match best with
  | None => Some p
  | Some q => if rank_lt p q then Some p else Some q
  end.

(** The walk over the effective policies. *)
Fixpoint walk (pols : list Policy) (path method : string) (ctx : EvaluationContext)
    (best_deny best_allow : option Policy) : M W (option Policy * option Policy) :=
  match pols with
  | [] => mret (best_deny, best_allow)
  | p :: pols' =>
      if negb (method_match p method && matches_resource p path)
      then walk pols' path method ctx best_deny best_allow
      else
        let ctx' := set_effect (effect_name (pol_effect p)) ctx in
        met ← evaluate_all (conditions p) (Some (pol_id p)) ctx';
        if negb met then walk pols' path method ctx' best_deny best_allow
        else match pol_effect p with
             | DENY => walk pols' path method ctx' (keep_best p best_deny) best_allow
             | ALLOW => walk pols' path method ctx' best_deny (keep_best p best_allow)
             end
  end.

(** Highest priority wins; equal priority is a DENY. *)
Definition select_winner (best_deny best_allow : option Policy) : option Policy :=
  match best_deny, best_allow with
  | Some dn, Some al => if pol_priority al <=? pol_priority dn then Some dn else Some al
  | Some dn, None => Some dn
  | None, al => al
  end.

Definition decision (winner : option Policy) : bool * string :=
  match winner with
  | None => (false, "Deny by Default (No matching ALLOW policy found)")
  | Some w =>
      match pol_effect w with
      | DENY => (false, "Explicit DENY by policy " +:+ pol_id w)
      | ALLOW => (true, "Allowed by policy " +:+ pol_id w)
      end
  end.

Definition evaluate_access (effective_policies : list Policy) (path method : string)
    (ctx : EvaluationContext) : M W (bool * string) :=
  best ← walk effective_policies path method ctx None None;
  mret (decision (select_winner best.1 best.2)).
End engine.

(** ** Compiling conditions *)

Inductive outcome : Type := SATISFIED | UNSATISFIABLE | PREDICATES | UNCOMPILABLE.

Record CondResult : Type := mkCR { cr_outcome : outcome; cr_predicates : list FieldPredicate }.

Definition satisfied : CondResult := mkCR SATISFIED [].
Definition unsatisfiable : CondResult := mkCR UNSATISFIABLE [].
Definition uncompilable_result : CondResult := mkCR UNCOMPILABLE [].

Definition predicate_result (preds : list FieldPredicate) : CondResult :=
  match preds with [] => satisfied | _ => mkCR PREDICATES preds end.

(** The loop of [_compile_conditions] over a compiler for one condition. *)
Definition compile_and_loop (f : Condition -> exn + CondResult) :=
  fix go (cs : list Condition) (predicates : list FieldPredicate) (saw_uncompilable : bool)
      : exn + CondResult :=
    match cs with
    | [] => inr (if saw_uncompilable then uncompilable_result else predicate_result predicates)
    | c :: cs' =>
        match f c with
        | inl e => inl e
        | inr r =>
            match cr_outcome r with
            | UNSATISFIABLE => inr unsatisfiable
            | UNCOMPILABLE => go cs' predicates true
            | PREDICATES => go cs' (predicates ++ cr_predicates r) saw_uncompilable
            | SATISFIED => go cs' predicates saw_uncompilable
            end
        end
    end.

(** The loop of [_compile_or]. *)
Definition compile_or_loop (f : Condition -> exn + CondResult) :=
  fix go (cs : list Condition) (field_name : option string) (values : list string)
      (saw_uncompilable saw_predicate : bool) : exn + CondResult :=
    match cs with
    | [] =>
        inr (if saw_uncompilable then uncompilable_result
             else if negb saw_predicate then unsatisfiable
             else match field_name with
                  | Some fn => mkCR PREDICATES [mkFP fn (dict_fromkeys values)]
                  | None => unsatisfiable
                  end)
    | c :: cs' =>
        match f c with
        | inl e => inl e
        | inr r =>
            match cr_outcome r, cr_predicates r with
            | SATISFIED, _ => inr satisfied
            | UNSATISFIABLE, _ => go cs' field_name values saw_uncompilable saw_predicate
            | PREDICATES, [q] =>
                match field_name with
                | None => go cs' (Some (fp_field q)) (values ++ fp_values q) saw_uncompilable true
                | Some fn =>
                    if fn ==s fp_field q
                    then go cs' field_name (values ++ fp_values q) saw_uncompilable true
                    else go cs' field_name values true saw_predicate
                end
            | _, _ => go cs' field_name values true saw_predicate
            end
        end
    end.

Section compiler.
Context `{PyRuntime}.
Implicit Types (cfg attrs : list (string * pyval)) (p : Policy).

(** [_match_compare]. *)
Definition match_compare (actual operator expected : pyval) : exn + bool :=
  if op_is operator "eq" then inr (py_str actual ==s py_str expected)
  else if op_is operator "neq" then inr (negb (py_str actual ==s py_str expected))
  else if op_is operator "contains" then inr (str_contains (py_str expected) (py_str actual))
  else if op_is operator "regex" then
    match re_match (py_str expected) (py_str actual) with
    | Some b => inr b
    | None => inl ReError
    end
  else if op_is operator "gt" then inr (float_cmp (fun a b => float_lt b a) actual expected)
  else if op_is operator "lt" then inr (float_cmp float_lt actual expected)
  else if op_is operator "in" then inr (in_expected actual expected)
  else inr false.

Definition PRINCIPAL_ATTRIBUTES : string := "principal.attributes.".

Definition compile_attribute_match cfg attrs : exn + CondResult :=
  let attr_path := cfg_get cfg "attribute" in
  if negb (truthy attr_path) then inr satisfied
  else match attr_path with
       | VStr path =>
           if negb (String.prefix PRINCIPAL_ATTRIBUTES path) then inr uncompilable_result
           else match dict_get (str_drop 21 path) attrs with
                | None | Some VNone => inr unsatisfiable
                | Some actual =>
                    match match_compare actual (cfg_get_or cfg "operator" (VStr "eq"))
                                        (cfg_get cfg "value") with
                    | inl e => inl e
                    | inr true => inr satisfied
                    | inr false => inr unsatisfiable
                    end
                end
       | _ => inr uncompilable_result
       end.

Definition visibility_public : FieldPredicate := mkFP "visibility" ["public"].

Fixpoint compile_condition attrs (c : Condition) {struct c} : exn + CondResult :=
  match c with
  | mkCond ty cfg cs _ =>
      if ty ==s "catalog_lookup_public_allowed" then inr (mkCR PREDICATES [visibility_public])
      else if ty ==s "match" then compile_attribute_match cfg attrs
      else if ty ==s "and" then compile_and_loop (compile_condition attrs) cs [] false
      else if ty ==s "or" then
        match cs with
        | [] => inr satisfied
        | _ => compile_or_loop (compile_condition attrs) cs None [] false false
        end
      else inr uncompilable_result
  end.

Definition compile_conditions (cs : list Condition) attrs : exn + CondResult :=
  compile_and_loop (compile_condition attrs) cs [] false.

(** ** Relevance of a policy to a read *)

Definition READ_ACTIONS : list string := ["GET"; "SEARCH"; "READ"].

Definition policy_has_read_action p (is_deny : bool) : bool :=
  match actions p with
  | [] => true
  | _ => existsb (matches_action p) (if is_deny then READ_ACTIONS ++ ["POST"] else READ_ACTIONS)
  end.

Definition read_scope_probe_paths (catalog_id collection_id asset_id : option string) : list string :=
  match catalog_id with
  | None => ["/"]
  | Some cat =>
      match nonempty_str collection_id with
      | Some col =>
          let base :=
            ["/stac/catalogs/" +:+ cat +:+ "/collections/" +:+ col +:+ "/items";
             "/stac/catalogs/" +:+ cat +:+ "/collections/" +:+ col +:+ "/items/_probe_";
             "/features/catalogs/" +:+ cat +:+ "/collections/" +:+ col +:+ "/items";
             "/search/catalogs/" +:+ cat +:+ "/geoid-search";
             "/stac/catalogs/" +:+ cat +:+ "/search"] in
          match nonempty_str asset_id with
          | Some a =>
              base ++ ["/assets/catalogs/" +:+ cat +:+ "/collections/" +:+ col +:+ "/assets/" +:+ a;
                       "/assets/catalogs/" +:+ cat +:+ "/collections/" +:+ col]
          | None => base
          end
      | None =>
          let base :=
            ["/stac/catalogs/" +:+ cat;
             "/stac/catalogs/" +:+ cat +:+ "/collections";
             "/stac/catalogs/" +:+ cat +:+ "/collections/_probe_/items";
             "/stac/catalogs/" +:+ cat +:+ "/collections/_probe_/items/_probe_";
             "/features/catalogs/" +:+ cat;
             "/features/catalogs/" +:+ cat +:+ "/collections/_probe_/items";
             "/search/catalogs/" +:+ cat +:+ "/geoid-search";
             "/stac/catalogs/" +:+ cat +:+ "/search"] in
          match nonempty_str asset_id with
          | Some a => base ++ ["/assets/catalogs/" +:+ cat +:+ "/assets/" +:+ a;
                               "/assets/catalogs/" +:+ cat]
          | None => base
          end
      end
  end.

Definition policy_matches_read_scope p (probe_paths : list string) : bool :=
  existsb (matches_resource p) probe_paths.

(** ** Scope pins *)

Definition scope_predicates (catalog_id collection_id : option string) : list FieldPredicate :=
  match catalog_id with Some c => [mkFP "catalog_id" [c]] | None => [] end ++
  match collection_id with Some c => [mkFP "collection_id" [c]] | None => [] end.

Definition scope_clause (preds : list predicate) (catalog_id collection_id : option string)
    : AccessClause :=
  mkClause (map PField (scope_predicates catalog_id collection_id) ++ preds).

(** ** Grant-level attribute clauses *)

(** An element of the decoded [attribute_predicates] column: an object that
    builds an [AttributePredicate] if its key validates, an object the model
    rejects, or something that is not an object. *)
Inductive raw_predicate : Type :=
| RawObject (key op : string) (values : list string)
| RawInvalid
| RawOther.

Definition build_raw (l : list raw_predicate) : exn + list AttributePredicate :=
  fold_right (fun r acc =>
    match r, acc with
    | RawOther, _ => acc
    | RawInvalid, _ => inl ValueError
    | RawObject k op vs, inr ps => match validate_key k with inr k => inr (mkAP k op vs :: ps) | inl e => inl e end
    | RawObject _ _ _, inl e => inl e
    end) (inr []) l.

(** Rows of [resolve_effective_grants]: [None] where the column is absent,
    undecodable or not a list. *)
Fixpoint grant_clauses (r : registry) (rows : list (option (list raw_predicate)))
    (catalog_id collection_id : option string) : list AccessClause * bool :=
  match rows with
  | [] => ([], false)
  | row :: rows' =>
      let '(clauses, unc) := grant_clauses r rows' catalog_id collection_id in
      match row with
      | None | Some [] => (clauses, unc)
      | Some raw =>
          match build_raw raw with
          | inl _ => (clauses, true)
          | inr preds =>
              match compile_attribute_predicates r preds with
              | (_, true) => (clauses, true)
              | (fps, false) => (scope_clause fps catalog_id collection_id :: clauses, unc)
              end
          end
      end
  end.

(** [None]: no principal id, no grant resolver, or the lookup failed. *)
Definition compile_grant_attribute_clauses (r : registry)
    (rows : option (list (option (list raw_predicate)))) (catalog_id collection_id : option string)
    : list AccessClause * bool :=
  match rows with None => ([], false) | Some rows => grant_clauses r rows catalog_id collection_id end.

(** ** [compile_read_filter] *)

Record accum : Type := mkAcc {
  acc_allow : list AccessClause; acc_deny : list AccessClause;
  acc_uncompilable : bool; acc_allow_all : bool }.

(** The loop over the effective policies; [inr None] is the early
    [deny_everything] of an inexpressible DENY. *)
Fixpoint compile_policies (pols : list Policy) attrs (probe_paths : list string)
    (catalog_id collection_id : option string) (acc : accum) : exn + option accum :=
  match pols with
  | [] => inr (Some acc)
  | pol :: pols' =>
      let next := compile_policies pols' attrs probe_paths catalog_id collection_id in
      if negb (policy_has_read_action pol (bool_decide (pol_effect pol = DENY))) then next acc
      else if negb (policy_matches_read_scope pol probe_paths) then next acc
      else match compile_conditions (conditions pol) attrs with
      | inl e => inl e
      | inr result =>
          let clause := scope_clause (map PField (cr_predicates result)) catalog_id collection_id in
          match pol_effect pol with
          | DENY =>
              match cr_outcome result with
              | UNCOMPILABLE => inr None
              | UNSATISFIABLE => next acc
              | _ => next (mkAcc (acc_allow acc) (acc_deny acc ++ [clause])
                                 (acc_uncompilable acc) (acc_allow_all acc))
              end
          | ALLOW =>
              match cr_outcome result with
              | UNCOMPILABLE => next (mkAcc (acc_allow acc) (acc_deny acc) true (acc_allow_all acc))
              | UNSATISFIABLE => next acc
              | _ =>
                  match cr_predicates result, scope_predicates catalog_id collection_id with
                  | [], [] => next (mkAcc (acc_allow acc) (acc_deny acc) (acc_uncompilable acc) true)
                  | _, _ => next (mkAcc (acc_allow acc ++ [clause]) (acc_deny acc)
                                        (acc_uncompilable acc) (acc_allow_all acc))
                  end
              end
          end
      end
  end.

Definition compile_read_filter (effective_policies : list Policy) attrs (r : registry)
    (rows : option (list (option (list raw_predicate))))
    (catalog_id collection_id asset_id : option string) : exn + AccessFilter :=
  match compile_policies effective_policies attrs
          (read_scope_probe_paths catalog_id collection_id asset_id)
          catalog_id collection_id (mkAcc [] [] false false) with
  | inl e => inl e
  | inr None => inr (deny_everything true)
  | inr (Some acc) =>
      let '(attr_allow, attr_unc) := compile_grant_attribute_clauses r rows catalog_id collection_id in
      let allow_clauses := acc_allow acc ++ attr_allow in
      let unc := acc_uncompilable acc || attr_unc in
      if acc_allow_all acc then inr (mkFilter false true [] (acc_deny acc) unc [])
      else match allow_clauses with
           | [] => inr (deny_everything unc)
           | _ => inr (from_clauses allow_clauses (acc_deny acc) unc)
           end
  end.
End compiler.
