(* ===== verification/EnvelopeDoc.v ===== *)
(** * Documents of the envelope index

    [storage/drivers/elasticsearch_envelope/doc_builder.py]: the document the envelope
    driver indexes for a feature, and what the index holds of it.  Then the two ends of
    the access seam meet: the filters the policy compiler builds range over the fields of
    this index, and the documents built here are of the shape [AccessEs] asks for; and
    the place where they miss each other, the attributes. *)

From S2P Require Import Prelude AccessFilter CqlLike EsLeaf AccessEs CqlEs EsFields AttributePredicates Conditions Policies.

(** ** The builder *)

(** The members of a feature the builder reads, and its arguments; geometry and the
    caller's [system] and [metadata] sections are left out. *)
Record feature_src : Type := mkSrc {
  src_id : option scalar;
  src_geoid : option scalar;
  src_external_id : option scalar;
  src_asset_id : option scalar;
  src_visibility : option scalar;
  src_owner : option scalar;
  src_attrs : option (list (string * docval));
  src_properties : list (string * docval);
}.
Record access_args : Type := mkAccessArgs {
  arg_external_id : option scalar;
  arg_asset_id : option scalar;
  arg_visibility : option scalar;
  arg_owner : option scalar;
  arg_attrs : option (list (string * docval));
}.

(** [a if a is not None else b] *)
Definition first_given {A} (a b : option A) : option A := match a with Some _ => a | None => b end.
(** [a or b] *)
Definition first_truthy (a b : option scalar) : option scalar :=
  match a with Some v => if truthy (scalar_py v) then a else b | None => b end.
Definition under (prefix : string) (kvs : list (string * docval)) : document := map (fun kv => (prefix +:+ kv.1, kv.2)) kvs.

Section builder.
Context `{PyRuntime}.

Definition text_entry_of (field : string) (v : option scalar) : document :=
  match v with Some v => [(field, DScalar (SStr (py_str (scalar_py v))))] | None => [] end.
(** [_overlay_access_fields] *)
Definition overlay_access_fields (src : feature_src) (a : access_args) : document :=
  text_entry_of "visibility" (first_given (arg_visibility a) (src_visibility src)) ++
  text_entry_of "owner" (first_given (arg_owner a) (src_owner src)) ++
  match first_given (arg_attrs a) (src_attrs src) with Some attrs => under "attrs." attrs | None => [] end.
(** The document, an entry per leaf. *)
Definition build_envelope_feature_doc (src : feature_src) (catalog_id collection_id : string) (a : access_args) : document :=
  [("geoid", DScalar (default SNone (first_truthy (src_id src) (src_geoid src))));
   ("catalog_id", DScalar (SStr catalog_id)); ("collection_id", DScalar (SStr collection_id))] ++
  text_entry_of "external_id" (first_given (arg_external_id a) (src_external_id src)) ++
  text_entry_of "asset_id" (first_given (arg_asset_id a) (src_asset_id src)) ++
  overlay_access_fields src a ++
  under "properties." (List.filter (fun kv => negb (String.prefix "_" kv.1) && negb (str_mem kv.1 SYSTEM_FIELD_KEYS)) (src_properties src)).

(** ** Its shape *)

Lemma root_of_under p k : dotless p = true -> root_of (p +:+ String "." k) = p.
Proof. intros Hp. unfold root_of. by rewrite split_dotless. Qed.
Lemma keyword_root f : is_keyword f = true -> dotless f = true.
Proof.
  unfold is_keyword. intros Hf%bool_decide_eq_true. apply dict_get_in_keys in Hf.
  by apply (proj1 (forallb_elem dotless (map fst ENVELOPE_FEATURE_MAPPING)) eq_refl).
Qed.
Lemma dotless_dot p k : dotless (p +:+ String "." k) = false.
Proof.
  induction p as [|c p IH]; [done|]. rewrite str_app_cons. unfold dotless in *.
  destruct (no_char "." (String c (p +:+ String "." k))) eqn:E; [|done]. rewrite no_char_cons in E. apply andb_true_iff in E as [_ E]. congruence.
Qed.
Lemma under_ok p kvs : dotless p = true -> declared p = true -> envelope_doc (under (p +:+ ".") kvs) = true.
Proof.
  intros Hp Hd. unfold envelope_doc, under. rewrite forallb_map. apply forallb_elem. intros [k v] _. cbn [fst snd].
  replace ((p +:+ ".") +:+ k) with (p +:+ String "." k) by by rewrite <- str_app_assoc.
  assert (Hr : root_of p = p). { unfold root_of. by rewrite split_last. }
  unfold declared in *. rewrite root_of_under by done. rewrite Hr in Hd. rewrite Hd. simpl.
  destruct (is_keyword (p +:+ String "." k)) eqn:E; [|done]. apply keyword_root in E. by rewrite dotless_dot in E.
Qed.

(** What is built for a feature whose id is text is a document of the index. *)
Lemma text_entry_ok f v : declared f = true -> envelope_doc (text_entry_of f v) = true.
Proof. intros Hd. destruct v as [v|]; [|done]. unfold text_entry_of, envelope_doc. cbn. rewrite Hd. by destruct (is_keyword f). Qed.
Lemma envelope_doc_app d d' : envelope_doc (d ++ d') = envelope_doc d && envelope_doc d'.
Proof. apply forallb_app. Qed.
Theorem built_envelope_doc src cat col a :
  textual (default SNone (first_truthy (src_id src) (src_geoid src))) = true ->
  envelope_doc (build_envelope_feature_doc src cat col a) = true.
Proof.
  intros Ht. unfold build_envelope_feature_doc, overlay_access_fields. rewrite !envelope_doc_app, !text_entry_ok by done.
  rewrite (under_ok "properties") by done.
  assert (Ha : envelope_doc (match first_given (arg_attrs a) (src_attrs src) with Some attrs => under "attrs." attrs | None => [] end) = true)
    by (destruct (first_given _ _); [by apply (under_ok "attrs")|done]).
  rewrite Ha. cbn. by rewrite Ht.
Qed.

(** ** Compiled filters range over the index *)

Definition visibility_only (r : CondResult) : Prop := Forall (fun q => fp_field q = "visibility") (cr_predicates r).
Lemma compile_and_visibility f cs : Forall (fun c => forall r, f c = inr r -> visibility_only r) cs ->
  forall ps saw r, Forall (fun q => fp_field q = "visibility") ps -> compile_and_loop f cs ps saw = inr r -> visibility_only r.
Proof.
  induction 1 as [|c cs Hc _ IH]; intros ps saw r Hps; simpl.
  - intros [= <-]. destruct saw; [constructor|]. destruct ps; [constructor|done].
  - destruct (f c) as [|r'] eqn:E; [done|]. specialize (Hc r' eq_refl).
    destruct (cr_outcome r'); [by apply IH|intros [= <-]; constructor|apply IH; by apply Forall_app|by apply IH].
Qed.
Lemma compile_or_visibility f cs : Forall (fun c => forall r, f c = inr r -> visibility_only r) cs ->
  forall fn vs saw sp r, match fn with Some n => n = "visibility" | None => True end -> compile_or_loop f cs fn vs saw sp = inr r -> visibility_only r.
Proof.
  induction 1 as [|c cs Hc _ IH]; intros fn vs saw sp r Hfn; simpl.
  - intros [= <-]. destruct saw; [constructor|]. destruct sp; [|constructor]. destruct fn as [n|]; [|constructor].
    repeat constructor. done.
  - destruct (f c) as [|r'] eqn:E; [done|]. specialize (Hc r' eq_refl). unfold visibility_only in Hc.
    destruct (cr_outcome r'); [intros [= <-]; constructor|by apply IH| |by apply IH].
    destruct (cr_predicates r') as [|q [|]]; [by apply IH| |by apply IH]. apply Forall_cons in Hc as [Hq _].
    destruct fn as [n|]; [|by apply IH]. destruct (n ==s fp_field q); by apply IH.
Qed.
Lemma compile_condition_visibility attrs c : forall r, compile_condition attrs c = inr r -> visibility_only r.
Proof.
  induction c as [ty cfg cs ch IH _] using Condition_ind. intros r. cbn [compile_condition].
  destruct (ty ==s _); [intros [= <-]; repeat constructor|]. destruct (ty ==s _).
  { unfold compile_attribute_match. repeat (case_match; try done); intros [= <-]; constructor. }
  destruct (ty ==s _); [apply compile_and_visibility; [done|constructor]|].
  destruct (ty ==s _); [|intros [= <-]; constructor]. destruct cs as [|c cs]; [intros [= <-]; constructor|].
  by apply compile_or_visibility.
Qed.

(** A compiler of attribute predicates that queries [_attrs.*], as the shipped ones do. *)
Definition queries_attrs (reg : registry) : Prop :=
  forall op c key vs p, dict_get op reg = Some c -> c key vs = (Some p, false) ->
    match p with PField q => fp_field q = attr_field key | PRange q => rp_field q = attr_field key end.
Lemma shipped_queries_attrs : queries_attrs PREDICATE_REGISTRY.
Proof.
  intros op c key vs p. unfold PREDICATE_REGISTRY. cbn [dict_get].
  repeat (destruct (op ==s _); [intros [= <-]; destruct vs as [|? [|? [|]]]; intros [= <-]; done|]). done.
Qed.
Lemma attr_predicate_ok p key :
  match p with PField q => fp_field q = attr_field key | PRange q => rp_field q = attr_field key end -> predicate_ok p = true.
Proof.
  assert (Hd : declared (attr_field key) = false).
  { unfold declared, attr_field. change ("_attrs." +:+ key) with ("_attrs" +:+ String "." key). by rewrite root_of_under. }
  destruct p; simpl; intros ->; rewrite Hd; [by rewrite orb_true_r|done].
Qed.
Lemma compile_loop_ok reg preds : queries_attrs reg -> forall acc u, forallb predicate_ok acc = true ->
  forallb predicate_ok (compile_loop reg preds acc u).1 = true.
Proof.
  intros Hreg. induction preds as [|p preds IH]; intros acc u Hacc; simpl; [done|].
  destruct (dict_get (ap_op p) reg) as [c|] eqn:Ec; [|by apply IH].
  destruct (c (ap_key p) (ap_values p)) as [[q|] []] eqn:Eq; try by apply IH. apply IH.
  rewrite forallb_app, Hacc. cbn. by rewrite (attr_predicate_ok q (ap_key p)) by by apply (Hreg _ _ _ _ _ Ec Eq).
Qed.
Lemma scope_clause_ok ps cat col : forallb predicate_ok ps = true -> clause_ok (scope_clause ps cat col) = true.
Proof. intros Hp. unfold clause_ok, scope_clause, scope_predicates. cbn [predicates]. rewrite forallb_app, Hp. by destruct cat, col. Qed.
Lemma grant_clauses_ok reg rows cat col : queries_attrs reg -> forallb clause_ok (compile_grant_attribute_clauses reg rows cat col).1 = true.
Proof.
  intros Hreg. destruct rows as [rows|]; [|done]. simpl. induction rows as [|row rows IH]; [done|]. simpl.
  destruct (grant_clauses reg rows cat col) as [cs u]. simpl in IH. destruct row as [[|x raw]|]; [done| |done].
  destruct (build_raw (x :: raw)) as [|preds]; [done|]. unfold compile_attribute_predicates.
  pose proof (compile_loop_ok reg preds Hreg [] false eq_refl) as Hl. destruct (compile_loop reg preds [] false) as [fps []]; [done|].
  cbn [fst forallb] in *. by rewrite scope_clause_ok, IH.
Qed.
Lemma compile_policies_ok pols attrs paths cat col : forall acc acc',
  forallb clause_ok (acc_allow acc) && forallb clause_ok (acc_deny acc) = true ->
  compile_policies pols attrs paths cat col acc = inr (Some acc') -> forallb clause_ok (acc_allow acc') && forallb clause_ok (acc_deny acc') = true.
Proof.
  induction pols as [|p pols IH]; intros acc acc' Ha; cbn [compile_policies]; [by intros [= <-]|].
  destruct (negb _); [by apply IH|]. destruct (negb _); [by apply IH|].
  destruct (compile_conditions (conditions p) attrs) as [|r] eqn:Er; [done|].
  assert (Hc : clause_ok (scope_clause (map PField (cr_predicates r)) cat col) = true).
  { apply scope_clause_ok. rewrite forallb_map. apply forallb_elem. intros q Hq.
    assert (Hv : visibility_only r) by (eapply compile_and_visibility; [| |exact Er]; [apply Forall_forall; intros; by eapply compile_condition_visibility|constructor]).
    cbn. by rewrite (proj1 (Forall_forall _ _) Hv q Hq). }
  apply andb_true_iff in Ha as [Ha Hd].
  destruct (pol_effect p), (cr_outcome r); try done; try (destruct (cr_predicates r), (scope_predicates cat col));
    apply IH; cbn [acc_allow acc_deny]; rewrite ?forallb_app, Ha, Hd; cbn [forallb]; by rewrite ?Hc.
Qed.
(** Whatever the policies and the grants, the compiled filter is one the index answers
    exactly. *)
Theorem compiled_filter_ok pols attrs reg rows cat col asset af :
  queries_attrs reg -> compile_read_filter pols attrs reg rows cat col asset = inr af -> filter_ok af = true.
Proof.
  intros Hreg. unfold compile_read_filter. destruct (compile_policies _ _ _ _ _ _) as [|[acc|]] eqn:Ec; [done| |by intros [= <-]].
  apply compile_policies_ok in Ec; [|done]. apply andb_true_iff in Ec as [Ha Hd]. pose proof (grant_clauses_ok reg rows cat col Hreg) as Hg.
  destruct (compile_grant_attribute_clauses reg rows cat col) as [al u]. cbn [fst] in Hg.
  destruct (acc_allow_all acc); [intros [= <-]; cbn; by rewrite Hd|].
  destruct (acc_allow acc ++ al) as [|c cs] eqn:E; [by intros [= <-]|]. assert (Hcs : forallb clause_ok (c :: cs) = true) by by rewrite <- E, forallb_app, Ha, Hg.
  intros [= <-]. unfold from_clauses, filter_ok. by rewrite Hcs, Hd.
Qed.

(** ** Attributes miss each other *)

(** The builder stores the stamped attributes under [attrs], the predicates of grants
    query [_attrs]: no document of the index satisfies a clause with such a predicate, so
    a grant restricted by attributes opens nothing, and a denial by attributes, had one
    been compiled, would exclude nothing. *)
Theorem attribute_clause_never_matches src cat col a key p ps :
  textual (default SNone (first_truthy (src_id src) (src_geoid src))) = true -> p ∈ ps ->
  match p with PField q => fp_field q = attr_field key | PRange q => rp_field q = attr_field key end ->
  clause_matches (mkClause ps) (build_envelope_feature_doc src cat col a) = false.
Proof.
  intros Ht Hp Hf. apply built_envelope_doc with (cat := cat) (col := col) (a := a) in Ht.
  assert (Hd : doc_get (build_envelope_feature_doc src cat col a) (attr_field key) = DScalar SNone).
  { apply undeclared_absent; [done|]. unfold declared, attr_field. change ("_attrs." +:+ key) with ("_attrs" +:+ String "." key).
    by rewrite root_of_under. }
  unfold clause_matches. cbn [predicates]. apply not_true_iff_false. intros Hall. apply (proj1 (forallb_elem _ _) Hall) in Hp.
  destruct p; cbn [predicate_matches] in Hp; [unfold field_matches in Hp|unfold range_matches in Hp]; by rewrite Hf, Hd in Hp.
Qed.
End builder.

(** The document of a feature stamped with the very attribute a grant asks for. *)
Example stamped_attribute_not_found :
  let src := mkSrc (Some (SStr "g1")) None None None (Some (SStr "restricted")) None (Some [("dept", DScalar (SStr "finance"))]) [] in
  let d := @build_envelope_feature_doc demo_runtime src "cat" "col" (mkAccessArgs None None None None None) in
  let f := from_clauses [mkClause [PField (mkFP "collection_id" ["col"]); PField (mkFP (attr_field "dept") ["finance"])]] [] false in
  dict_get "attrs.dept" d = Some (DScalar (SStr "finance")) /\ filter_ok f = true /\
  body_hit (H := @eval_engine demo_runtime) (access_filter_to_es (Some f)) d = false.
Proof. by vm_compute. Qed.
