(* ===== verification/Demo.v ===== *)
(** * A concrete deployment

    The services, policies, document and request the witnesses of the
    access-control theorems evaluate. *)

From S2P Require Import Prelude AccessFilter Conditions Policies.

(** One catalog, publicly searchable; an ALLOW for public reads and a DENY for
    principals of department [ext]. *)

Definition demo_services : Services unit := {|
  usage_counter := None;
  iam_membership := None;
  lookup_is_public c := Some (c ==s "cat");
  allow_anonymous_create _ _ := None;
  utc_now := 0; utc_hour := 12; utc_weekday := 1;
  sysadmin_role_name := "sysadmin";
  ext_handler _ := None;
|}.

Definition demo_attrs : list (string * pyval) := [("dept", VStr "geo")].

Definition demo_policies : list Policy :=
  [ mkPolicy "public-read" ALLOW 0 ["GET"] ["/stac/catalogs/cat.*"]
      [mkCond "catalog_lookup_public_allowed" [] [] None];
    mkPolicy "no-ext" DENY 0 ["GET"] ["/stac/.*"]
      [mkCond "match" [("attribute", VStr "principal.attributes.dept"); ("value", VStr "ext")] [] None] ].

Definition demo_doc : document :=
  [("catalog_id", DScalar (SStr "cat")); ("visibility", DScalar (SStr "public"))].

Definition demo_ctx : EvaluationContext :=
  mkCtx None None "/stac/catalogs/cat" "GET" None 0 (Some "cat")
    (Some (mkPrincipal [] None None demo_attrs)) None [] None.

Definition demo_filter : AccessFilter :=
  from_clauses [scope_clause [PField visibility_public] (Some "cat") None] [] false.

