(* ===== verification/Drift.v ===== *)
(** * The compiled read filter against the decision engine

    The contract of [compile_read_filter] ([iam/policies.py]): its result is an
    equal-or-stricter projection of [evaluate_access].  The lemmas relate the
    outcome of compiling a condition to what its handler can return; the
    theorems lift this through the policy walk. *)

From S2P Require Import Prelude AccessFilter AccessEs AttributePredicates Conditions Policies Demo.

(** The computation cannot return [b] (it may raise, or change the state). *)
Definition never {W} (c : M W bool) (b : bool) : Prop := forall w, (c w).1 <> inr b.

Lemma never_ret {W} (b b' : bool) : b <> b' -> never (mret b : M W bool) b'.
Proof. intros Hne w. simpl. congruence. Qed.

(** Boolean sequencing: [b ← c; if b then k else mret false]. *)
Lemma never_and {W} (c k : M W bool) v1 v2 :
  never c (negb v1) -> never k (negb v2) ->
  never (b ← c; if b : bool then k else mret false) (negb (v1 && v2)).
Proof.
  intros Hc Hk w. specialize (Hc w). unfold mbind, M_bind.
  destruct (c w) as [[e|b] w'] eqn:E; simpl in *; [done|].
  destruct b, v1; simpl in *; try congruence; try apply Hk; done.
Qed.

(** A conjunction with a conjunct that is never true is never true. *)
Lemma never_and_l {W} (c k : M W bool) :
  never c true -> never (b ← c; if b : bool then k else mret false) true.
Proof.
  intros Hc w. specialize (Hc w). unfold mbind, M_bind.
  destruct (c w) as [[e|[]] w'] eqn:E; simpl in *; done.
Qed.
Lemma never_and_r {W} (c k : M W bool) :
  never k true -> never (b ← c; if b : bool then k else mret false) true.
Proof.
  intros Hk w. unfold mbind, M_bind.
  destruct (c w) as [[e|[]] w'] eqn:E; simpl in *; [done|apply Hk|done].
Qed.
Lemma never_or_l {W} (c k : M W bool) :
  never c false -> never (b ← c; if b : bool then mret true else k) false.
Proof.
  intros Hc w. specialize (Hc w). unfold mbind, M_bind.
  destruct (c w) as [[e|[]] w'] eqn:E; simpl in *; done.
Qed.
Lemma never_or_r {W} (c k : M W bool) :
  never k false -> never (b ← c; if b : bool then mret true else k) false.
Proof.
  intros Hk w. unfold mbind, M_bind.
  destruct (c w) as [[e|[]] w'] eqn:E; simpl in *; [done|done|apply Hk].
Qed.
Lemma never_or {W} (c k : M W bool) v1 v2 :
  never c (negb v1) -> never k (negb v2) ->
  never (b ← c; if b : bool then mret true else k) (negb (v1 || v2)).
Proof.
  intros Hc Hk w. specialize (Hc w). unfold mbind, M_bind.
  destruct (c w) as [[e|b] w'] eqn:E; simpl in *; [done|].
  destruct b, v1; simpl in *; try congruence; apply Hk.
Qed.
#[export] Hint Resolve never_ret never_and never_and_l never_and_r never_or_l never_or_r never_or : dyn.

Definition fields_match (ps : list FieldPredicate) (d : document) : bool :=
  forallb (fun p => field_matches p d) ps.

Lemma fields_match_app ps qs d : fields_match (ps ++ qs) d = fields_match ps d && fields_match qs d.
Proof. apply forallb_app. Qed.

Lemma field_matches_app f v1 v2 d :
  field_matches (mkFP f (v1 ++ v2)) d = field_matches (mkFP f v1) d || field_matches (mkFP f v2) d.
Proof.
  unfold field_matches; simpl. destruct (doc_get d f) as [v|l].
  - destruct v; simpl; by rewrite ?str_mem_app.
  - induction l as [|v l IH]; simpl; [done|]. rewrite IH.
    destruct v; simpl; rewrite ?str_mem_app; try done.
    by destruct (str_mem s v1), (str_mem s v2), (existsb (scalar_in v1) l).
Qed.

Lemma field_matches_fromkeys f vs d :
  field_matches (mkFP f (dict_fromkeys vs)) d = field_matches (mkFP f vs) d.
Proof.
  unfold field_matches; simpl.
  assert (forall v, scalar_in (dict_fromkeys vs) v = scalar_in vs v) as Hv
    by by intros []; simpl; rewrite ?str_mem_dict_fromkeys.
  destruct (doc_get d f); [done|]. by apply existsb_ext.
Qed.

(** No [match] condition uses the [regex] operator. *)
Fixpoint regex_free (c : Condition) : bool :=
  match c with
  | mkCond ty cfg cs _ =>
      (negb (ty ==s "match") || negb (op_is (cfg_get_or cfg "operator" (VStr "eq")) "regex")) &&
      forallb regex_free cs
  end.

Section drift.
Context `{PyRuntime} {W : Type} `{Services W}.
Context (attrs : list (string * pyval)) (d : document).
Implicit Types (ctx : EvaluationContext) (c : Condition) (r : CondResult).

(** Runtime inputs of the engine that are consistent with the document: the
    principal is the one the filter is compiled for, and the per-catalog
    public flag mirrors the visibility of the document. *)
Definition consistent ctx : Prop :=
  (exists p, ctx_principal_obj ctx = Some p /\ attributes p = attrs) /\
  catalog_lookup_public ctx = field_matches visibility_public d.

Lemma consistent_effect e ctx : consistent ctx -> consistent (set_effect e ctx).
Proof. done. Qed.

(** What a compilation outcome says about the handler. *)
Definition outcome_sound (r : CondResult) (c : M W bool) : Prop :=
  match cr_outcome r with
  | SATISFIED => never c false
  | UNSATISFIABLE => never c true
  | PREDICATES => never c (negb (fields_match (cr_predicates r) d))
  | UNCOMPILABLE => True
  end.

Lemma match_compare_agrees actual op expected ctx b :
  op_is op "regex" = false ->
  match_compare actual op expected = inr b -> match_compare_handler actual op expected ctx = b.
Proof.
  unfold match_compare, match_compare_handler. intros ->.
  destruct (op_is op "eq"), (op_is op "neq"), (op_is op "contains"),
    (op_is op "gt"), (op_is op "lt"), (op_is op "in"); by intros [= <-].
Qed.

Lemma compile_attribute_match_sound cfg ctx r :
  consistent ctx ->
  op_is (cfg_get_or cfg "operator" (VStr "eq")) "regex" = false ->
  compile_attribute_match cfg attrs = inr r ->
  outcome_sound r (mret (attribute_match cfg ctx)).
Proof.
  intros [(p & Hp & Hattrs) _] Hre. unfold compile_attribute_match, attribute_match.
  destruct (truthy (cfg_get cfg "attribute")); simpl; [|intros [= <-]; by apply never_ret].
  destruct (cfg_get cfg "attribute") as [| | |path| |]; try (intros [= <-]; done).
  destruct (String.prefix PRINCIPAL_ATTRIBUTES path) eqn:Hpre; simpl; [|intros [= <-]; done].
  assert (match_get_value path ctx = dict_get (str_drop 21 path) attrs) as ->.
  { unfold match_get_value. rewrite Hp, Hattrs.
    rewrite (prefix_drop _ _ Hpre). generalize (str_drop (String.length PRINCIPAL_ATTRIBUTES) path).
    by intros [|a rest]; vm_compute. }
  destruct (dict_get (str_drop 21 path) attrs) as [v|]; [|intros [= <-]; by apply never_ret].
  destruct v; try (intros [= <-]; by apply never_ret);
    match goal with |- context [match_compare ?a ?o ?e] =>
      destruct (match_compare a o e) as [|[]] eqn:E; try done;
      intros [= <-]; apply never_ret; by rewrite (match_compare_agrees _ _ _ ctx _ Hre E) end.
Qed.

(** The two loops, against the loops of the logical handlers. *)
Definition eval_and ctx :=
  fix go (cs : list Condition) : M W bool :=
    match cs with
    | [] => mret true
    | c :: cs' => b ← evaluate_condition c None ctx; if b : bool then go cs' else mret false
    end.
Definition eval_or ctx :=
  fix go (cs : list Condition) : M W bool :=
    match cs with
    | [] => mret false
    | c :: cs' => b ← evaluate_condition c None ctx; if b : bool then mret true else go cs'
    end.

Lemma evaluate_and_eq cfg cs ch pid ctx :
  evaluate_condition (mkCond "and" cfg cs ch) pid ctx = eval_and ctx cs.
Proof. done. Qed.
Lemma evaluate_or_eq cfg c cs ch pid ctx :
  evaluate_condition (mkCond "or" cfg (c :: cs) ch) pid ctx = eval_or ctx (c :: cs).
Proof. done. Qed.

Definition cond_sound ctx c : Prop :=
  forall r pid, compile_condition attrs c = inr r -> outcome_sound r (evaluate_condition c pid ctx).

(** Conjunction, for any evaluation of the elements that compilation
    describes: [acc] is what the predicates seen so far say. *)
Lemma compile_and_sound (ev : Condition -> M W bool) (loop : list Condition -> M W bool) cs :
  (forall c r, c ∈ cs -> compile_condition attrs c = inr r -> outcome_sound r (ev c)) ->
  (forall cs', loop cs' = match cs' with
                          | [] => mret true
                          | c :: l => b ← ev c; if b : bool then loop l else mret false
                          end) ->
  forall ps saw r,
  compile_and_loop (compile_condition attrs) cs ps saw = inr r ->
  match cr_outcome r with
  | UNSATISFIABLE => never (loop cs) true
  | UNCOMPILABLE => True
  | _ => saw = false /\ exists qs, cr_predicates r = ps ++ qs /\
           never (loop cs) (negb (fields_match qs d))
  end.
Proof.
  intros Hev Hloop. induction cs as [|c cs IH]; intros ps saw r.
  - simpl. intros [= <-]. destruct saw; [done|]. rewrite Hloop.
    unfold predicate_result. destruct ps; simpl; (split; [done|]); exists []; simpl;
      rewrite ?app_nil_r; (split; [done|]); by apply never_ret.
  - cbn [compile_and_loop]. rewrite (Hloop (c :: cs)).
    assert (IH' : forall ps saw r, compile_and_loop (compile_condition attrs) cs ps saw = inr r -> _)
      by (apply IH; intros; apply Hev; set_solver).
    destruct (compile_condition attrs c) as [e|rc] eqn:Ec; [done|].
    assert (Hc : outcome_sound rc (ev c)) by (apply Hev; [set_solver|done]).
    unfold outcome_sound in Hc. destruct (cr_outcome rc) eqn:Eo.
    + intros Hr. specialize (IH' _ _ _ Hr). destruct (cr_outcome r); auto with dyn.
      all: destruct IH' as (-> & qs & -> & Hn); split; [done|]; exists qs; split; [done|].
      all: by apply (never_and _ _ true (fields_match qs d)).
    + intros [= <-]. simpl. by apply never_and_l.
    + intros Hr. specialize (IH' _ _ _ Hr). destruct (cr_outcome r); auto with dyn.
      all: destruct IH' as (-> & qs & -> & Hn); split; [done|].
      all: exists (cr_predicates rc ++ qs); rewrite app_assoc; split; [done|].
      all: rewrite fields_match_app; by apply never_and.
    + intros Hr. specialize (IH' _ _ _ Hr). destruct (cr_outcome r); auto with dyn.
      all: by destruct IH' as [? _].
Qed.

Lemma compile_and_satisfied f cs ps saw r :
  compile_and_loop f cs ps saw = inr r -> cr_outcome r = SATISFIED -> cr_predicates r = [].
Proof.
  revert ps saw. induction cs as [|c cs IH]; intros ps saw; simpl.
  - intros [= <-]. by destruct saw, ps.
  - destruct (f c) as [|rc]; [done|]. destruct (cr_outcome rc); eauto. by intros [= <-].
Qed.

Lemma compile_and_outcome (ev : Condition -> M W bool) (loop : list Condition -> M W bool) cs r :
  (forall c r, c ∈ cs -> compile_condition attrs c = inr r -> outcome_sound r (ev c)) ->
  (forall cs', loop cs' = match cs' with
                          | [] => mret true
                          | c :: l => b ← ev c; if b : bool then loop l else mret false
                          end) ->
  compile_and_loop (compile_condition attrs) cs [] false = inr r ->
  outcome_sound r (loop cs).
Proof.
  intros Hev Hloop Hr. pose proof (compile_and_sound ev loop cs Hev Hloop _ _ _ Hr) as Hs.
  unfold outcome_sound. destruct (cr_outcome r) eqn:Eo; try done.
  - destruct Hs as (_ & qs & Hq & Hn). simpl in Hq.
    assert (cr_predicates r = []) as Hnil by eauto using compile_and_satisfied.
    by rewrite <- Hq, Hnil in Hn.
  - by destruct Hs as (_ & qs & -> & Hn).
Qed.

Lemma compile_or_saw f cs fn vs k r :
  compile_or_loop f cs fn vs true k = inr r ->
  cr_outcome r = SATISFIED \/ cr_outcome r = UNCOMPILABLE.
Proof.
  revert fn vs k. induction cs as [|c cs IH]; intros fn vs k; simpl.
  - intros [= <-]. by right.
  - destruct (f c) as [|rc]; [done|].
    destruct (cr_outcome rc), (cr_predicates rc) as [|q [|]]; eauto;
      try (intros [= <-]; by left); destruct fn as [fn|]; eauto; destruct (fn ==s _); eauto.
Qed.

Lemma field_matches_none fn : field_matches (mkFP fn []) d = false.
Proof.
  unfold field_matches; simpl. destruct (doc_get d fn) as [[]|l]; try done.
  apply existsb_none. by intros [] _.
Qed.

(** What the result of the loop says of the disjunction of [cs], [fn] and [vs]
    being the accumulators at its start. *)
Definition or_post ctx cs (fn : option string) (vs : list string) r : Prop :=
  match cr_outcome r with
  | SATISFIED => never (eval_or ctx cs) false
  | UNSATISFIABLE => fn = None /\ never (eval_or ctx cs) true
  | UNCOMPILABLE => True
  | PREDICATES => exists fn' vs', cr_predicates r = [mkFP fn' (dict_fromkeys (vs ++ vs'))] /\
       (fn = None \/ fn = Some fn') /\
       never (eval_or ctx cs) (negb (field_matches (mkFP fn' vs') d))
  end.

Lemma eval_or_cons ctx c cs :
  eval_or ctx (c :: cs) =
  (b ← evaluate_condition c None ctx; if b : bool then mret true else eval_or ctx cs).
Proof. done. Qed.

(** A branch that is never true. *)
Lemma or_post_unsat ctx c cs fn vs r :
  never (evaluate_condition c None ctx) true -> or_post ctx cs fn vs r -> or_post ctx (c :: cs) fn vs r.
Proof.
  intros Hc. unfold or_post. rewrite eval_or_cons. destruct (cr_outcome r); auto with dyn.
  - intros [-> Hn]. split; [done|]. by apply (never_or _ _ false false).
  - intros (fn' & vs' & ? & ? & Hn). exists fn', vs'. repeat split; try done.
    by apply (never_or _ _ false (field_matches (mkFP fn' vs') d)).
Qed.

(** A branch that cannot be expressed. *)
Lemma or_post_saw ctx c cs fn vs k r :
  compile_or_loop (compile_condition attrs) cs fn vs true k = inr r ->
  or_post ctx cs fn vs r -> or_post ctx (c :: cs) fn vs r.
Proof.
  intros Hr. unfold or_post. rewrite eval_or_cons.
  destruct (compile_or_saw _ _ _ _ _ _ Hr) as [-> | ->]; auto with dyn.
Qed.

(** A branch that is one predicate on the common field. *)
Lemma or_post_pred ctx c cs fn vs f1 v1 r :
  never (evaluate_condition c None ctx) (negb (field_matches (mkFP f1 v1) d)) ->
  fn = None \/ fn = Some f1 ->
  or_post ctx cs (Some f1) (vs ++ v1) r -> or_post ctx (c :: cs) fn vs r.
Proof.
  intros Hc Hfn. unfold or_post. rewrite eval_or_cons. destruct (cr_outcome r); auto with dyn.
  - by intros [? _].
  - intros (fn' & vs' & Hp & [?|[= <-]] & Hn); [done|].
    exists f1, (v1 ++ vs'). rewrite app_assoc, field_matches_app. by repeat split; auto with dyn.
Qed.

Lemma compile_or_sound ctx cs :
  (forall c, c ∈ cs -> cond_sound ctx c) ->
  forall fn vs saw r,
  compile_or_loop (compile_condition attrs) cs fn vs saw
    match fn with Some _ => true | None => false end = inr r ->
  or_post ctx cs fn vs r.
Proof.
  induction cs as [|c cs IH]; intros Hs fn vs saw r.
  - simpl. intros [= <-]. destruct saw; [done|]. destruct fn as [fn|]; simpl.
    + exists fn, []. rewrite app_nil_r, field_matches_none. by repeat split; auto using never_ret.
    + by split; auto using never_ret.
  - cbn [compile_or_loop]. assert (IH' := IH (fun c' Hc' => Hs c' (list_elem_of_further _ _ _ Hc'))).
    clear IH. destruct (compile_condition attrs c) as [e|rc] eqn:Ec; [done|].
    assert (Hc := Hs c (list_elem_of_here _ _) rc None Ec). unfold outcome_sound in Hc.
    destruct (cr_outcome rc) eqn:Eo; eauto using or_post_unsat, or_post_saw.
    + intros [= <-]. exact (never_or_l _ (eval_or ctx cs) Hc).
    + destruct (cr_predicates rc) as [|[f1 v1] [|]] eqn:Eps; eauto using or_post_saw.
      unfold fields_match in Hc; simpl in Hc; rewrite andb_true_r in Hc. simpl.
      destruct fn as [fn|]; [destruct (fn ==s f1) eqn:Ef; bool_hyps; subst|];
        eauto using or_post_saw.
      * intros Hr. eapply or_post_pred; eauto.
      * intros Hr. eapply or_post_pred; eauto.
Qed.

Lemma compile_condition_sound ctx c :
  consistent ctx -> regex_free c = true -> cond_sound ctx c.
Proof.
  intros Hcons. induction c as [ty cfg cs ch IH _] using Condition_ind.
  simpl; intros Hre; bool_hyps. rewrite Forall_forall in IH.
  assert (Hcs : forall c, c ∈ cs -> cond_sound ctx c).
  { intros c Hc. apply IH; [done|].
    by apply (proj1 (forallb_elem regex_free cs)). }
  intros r pid. cbn [compile_condition].
  destruct (ty ==s "catalog_lookup_public_allowed") eqn:E1; bool_hyps; subst.
  { intros [= <-]. unfold outcome_sound, fields_match; simpl. apply never_ret.
    rewrite (proj2 Hcons), andb_true_r. by destruct (field_matches _ _). }
  destruct (ty ==s "match") eqn:E2; bool_hyps; subst.
  { apply orb_true_iff in H1 as [?|?]; bool_hyps; [done|]. by apply compile_attribute_match_sound. }
  destruct (ty ==s "and") eqn:E3; bool_hyps; subst.
  { rewrite evaluate_and_eq. intros Hr.
    apply (compile_and_outcome (fun c => evaluate_condition c None ctx) (eval_and ctx)); [|by intros []|done].
    intros; by apply Hcs. }
  destruct (ty ==s "or") eqn:E4; bool_hyps; subst; [|by intros [= <-]].
  destruct cs as [|c cs]; [intros [= <-]; by apply never_ret|].
  rewrite evaluate_or_eq. intros Hr.
  assert (Hp := compile_or_sound ctx (c :: cs) Hcs None [] false r Hr).
  unfold or_post in Hp. unfold outcome_sound. destruct (cr_outcome r); try done.
  - by destruct Hp.
  - destruct Hp as (fn' & vs' & -> & _ & Hn). unfold fields_match; simpl.
    by rewrite andb_true_r, field_matches_fromkeys.
Qed.

Lemma compile_conditions_sound ctx cs pid r :
  consistent ctx -> forallb regex_free cs = true ->
  compile_conditions cs attrs = inr r -> outcome_sound r (evaluate_all cs pid ctx).
Proof.
  intros Hcons Hre Hr.
  apply (compile_and_outcome (fun c => evaluate_condition c pid ctx)
           (fun cs => evaluate_all cs pid ctx)); [|by intros []|done].
  intros c r' Hc. apply compile_condition_sound; [done|].
  by apply (proj1 (forallb_elem regex_free cs)).
Qed.
End drift.

(** ** The policy walk *)

Section walk.
Context `{PyRuntime} {W : Type} `{Services W}.
Context (path method : string) (ctx0 : EvaluationContext).
Implicit Types (p : Policy) (ctx : EvaluationContext).

Definition engine_match p : bool := method_match p method && matches_resource p path.

(** The conditions of a matching policy, evaluated with its effect stamped. *)
Definition fires p : M W bool :=
  evaluate_all (conditions p) (Some (pol_id p)) (set_effect (effect_name (pol_effect p)) ctx0).

Definition same_but_effect ctx : Prop := forall e, set_effect e ctx = set_effect e ctx0.

Lemma same_set e ctx : same_but_effect ctx -> same_but_effect (set_effect e ctx).
Proof. intros Hs e'. by rewrite <- Hs. Qed.

(** Slot of an effect in the pair of best policies. *)
Definition slot {A} (e : effect) (b : A * A) : A := match e with DENY => b.1 | ALLOW => b.2 end.

Lemma keep_best_some p b : is_Some (keep_best p b).
Proof. destruct b; simpl; [case_match|]; eauto. Qed.

Lemma keep_best_cases p b : keep_best p b = Some p \/ (exists q, b = Some q /\ keep_best p b = Some q).
Proof. destruct b as [q|]; simpl; [case_match|]; eauto. Qed.

(** One step of the walk, as an induction principle over its returning runs. *)
Lemma walk_ind (P : list Policy -> option Policy -> option Policy -> Prop) bd' ba' :
  P [] bd' ba' ->
  (forall p pols bd ba, engine_match p = false -> P pols bd ba -> P (p :: pols) bd ba) ->
  (forall p pols bd ba w w1, engine_match p = true -> fires p w = (inr false, w1) ->
     P pols bd ba -> P (p :: pols) bd ba) ->
  (forall p pols bd ba w w1, engine_match p = true -> fires p w = (inr true, w1) ->
     P pols match pol_effect p with DENY => keep_best p bd | ALLOW => bd end
            match pol_effect p with DENY => ba | ALLOW => keep_best p ba end ->
     P (p :: pols) bd ba) ->
  forall pols ctx bd ba w w', same_but_effect ctx ->
    walk pols path method ctx bd ba w = (inr (bd', ba'), w') -> P pols bd ba.
Proof.
  intros Hnil Hskip Hno Hyes pols. induction pols as [|p pols IH]; intros ctx bd ba w w' Hs Hw.
  - by simpl in Hw; injection Hw as -> -> _.
  - cbn [walk] in Hw. fold (engine_match p) in Hw. destruct (engine_match p) eqn:Em; simpl in Hw.
    2: by eapply Hskip, IH.
    unfold mbind, M_bind in Hw. rewrite Hs in Hw. fold (fires p) in Hw.
    destruct (fires p w) as [[e|[]] w1] eqn:Ef; [done| |].
    + eapply Hyes; [done|done|]. assert (Hs1 := same_set (effect_name (pol_effect p)) _ (fun e => eq_refl : set_effect e ctx0 = _)).
      destruct (pol_effect p); by eapply IH.
    + eapply Hno; [done|done|]. eapply IH; [|exact Hw]. by apply same_set.
Qed.

Lemma walk_none e pols bd ba w bd' ba' w' :
  (forall p, p ∈ pols -> pol_effect p = e -> engine_match p = true -> never (fires p) true) ->
  walk pols path method ctx0 bd ba w = (inr (bd', ba'), w') ->
  slot e (bd', ba') = slot e (bd, ba).
Proof.
  intros Hall Hw. revert Hall.
  refine (walk_ind (fun pols bd ba => _ -> slot e (bd', ba') = slot e (bd, ba)) bd' ba'
            _ _ _ _ pols ctx0 bd ba w w' _ Hw); [done| | | |done].
  - intros p l bd1 ba1 _ IH Hall. apply IH. intros; apply Hall; set_solver.
  - intros p l bd1 ba1 w1 w2 _ _ IH Hall. apply IH. intros; apply Hall; set_solver.
  - intros p l bd1 ba1 w1 w2 Hm Hf IH Hall.
    rewrite IH by (intros; apply Hall; set_solver).
    destruct (decide (pol_effect p = e)) as [He|He]; [|by destruct e, (pol_effect p)].
    exfalso. apply (Hall p (list_elem_of_here _ _) He Hm w1). by rewrite Hf.
Qed.

Lemma walk_mono e pols bd ba w bd' ba' w' :
  walk pols path method ctx0 bd ba w = (inr (bd', ba'), w') ->
  is_Some (slot e (bd, ba)) \/
  (exists p, p ∈ pols /\ pol_effect p = e /\ engine_match p = true /\ never (fires p) false) ->
  is_Some (slot e (bd', ba')).
Proof.
  intros Hw.
  refine (walk_ind (fun pols bd ba => is_Some (slot e (bd, ba)) \/
     (exists p, p ∈ pols /\ pol_effect p = e /\ engine_match p = true /\ never (fires p) false) ->
     is_Some (slot e (bd', ba'))) bd' ba' _ _ _ _ pols ctx0 bd ba w w' _ Hw); [| | | |done].
  - by intros [?|(p & ?%elem_of_nil & _)].
  - intros p l bd1 ba1 Hm IH [?|(q & [->|?]%elem_of_cons & Hq & ? & ?)]; [auto|congruence|].
    apply IH. right. eauto.
  - intros p l bd1 ba1 w1 w2 Hm Hf IH [?|(q & [->|?]%elem_of_cons & Hq & ? & Hn)]; [auto| |].
    + exfalso. apply (Hn w1). by rewrite Hf.
    + apply IH. right. eauto.
  - intros p l bd1 ba1 w1 w2 Hm Hf IH [?|(q & [->|?]%elem_of_cons & Hq & ? & Hn)]; apply IH.
    + left. destruct e, (pol_effect p); simpl in *; auto using keep_best_some.
    + left. subst e. destruct (pol_effect p); simpl; apply keep_best_some.
    + right. eauto.
Qed.

(** The best policies have the effect of their slot. *)
Definition slots_ok (b : option Policy * option Policy) : Prop :=
  forall e q, slot e b = Some q -> pol_effect q = e.

Lemma walk_slots pols bd ba w bd' ba' w' :
  walk pols path method ctx0 bd ba w = (inr (bd', ba'), w') -> slots_ok (bd, ba) -> slots_ok (bd', ba').
Proof.
  intros Hw.
  refine (walk_ind (fun _ bd ba => slots_ok (bd, ba) -> slots_ok (bd', ba')) bd' ba'
            _ _ _ _ pols ctx0 bd ba w w' _ Hw); auto; [|done].
  intros p _ bd1 ba1 _ _ _ _ IH Hok. apply IH. intros e q.
  destruct e, (pol_effect p) eqn:Ep; simpl.
  - destruct (keep_best_cases p ba1) as [->|(q' & Hq & ->)]; intros [= <-]; [done|].
    by apply (Hok ALLOW).
  - apply (Hok ALLOW q).
  - apply (Hok DENY q).
  - destruct (keep_best_cases p bd1) as [->|(q' & Hq & ->)]; intros [= <-]; [done|].
    by apply (Hok DENY).
Qed.

Lemma walk_in pols w bd ba w' :
  walk pols path method ctx0 None None w = (inr (bd, ba), w') ->
  forall e q, slot e (bd, ba) = Some q -> q ∈ pols.
Proof.
  intros Hw.
  cut (forall e q, slot e (bd, ba) = Some q -> q ∈ pols \/ slot e (None, None) = Some q).
  { intros Hc e q Hq. destruct (Hc e q Hq) as [?|?]; [done|by destruct e]. }
  refine (walk_ind (fun pols bd0 ba0 => forall e q, slot e (bd, ba) = Some q ->
     q ∈ pols \/ slot e (bd0, ba0) = Some q) bd ba _ _ _ _ pols ctx0 None None w w' _ Hw);
    [by auto| | | |done].
  - intros p l bd1 ba1 _ IH e q Hq. destruct (IH e q Hq); set_solver.
  - intros p l bd1 ba1 w1 w2 _ _ IH e q Hq. destruct (IH e q Hq); set_solver.
  - intros p l bd1 ba1 w1 w2 _ _ IH e q Hq. destruct (IH e q Hq) as [?|Hs]; [set_solver|].
    destruct e, (pol_effect p); simpl in *; auto;
      [destruct (keep_best_cases p ba1) as [E|(q' & ? & E)]
      |destruct (keep_best_cases p bd1) as [E|(q' & ? & E)]];
      rewrite E in Hs; simplify_eq; [set_solver|auto|set_solver|auto].
Qed.

(** A request is allowed when no DENY can fire and some ALLOW must. *)
Lemma evaluate_access_allowed pols w :
  (forall p, p ∈ pols -> pol_effect p = DENY -> engine_match p = true -> never (fires p) true) ->
  (exists p, p ∈ pols /\ pol_effect p = ALLOW /\ engine_match p = true /\ never (fires p) false) ->
  match (evaluate_access pols path method ctx0 w).1 with
  | inr (allowed, _) => allowed = true
  | inl _ => True
  end.
Proof.
  intros Hdeny Hallow. unfold evaluate_access, mbind, M_bind.
  destruct (walk pols path method ctx0 None None w) as [[e|[bd ba]] w'] eqn:Ew; [done|]. simpl.
  assert (bd = None) as -> by exact (walk_none DENY _ _ _ _ _ _ _ Hdeny Ew).
  destruct (walk_mono ALLOW _ _ _ _ _ _ _ Ew (or_intror Hallow)) as [q Hq]; simpl in Hq; subst ba.
  assert (slots_ok (None, Some q)) as Hok by (eapply walk_slots; [exact Ew|by intros []]).
  simpl. unfold decision. by rewrite (Hok ALLOW q).
Qed.

(** Conversely, an allowed request had an ALLOW that could fire, and no DENY
    of at least its priority that had to. *)
Lemma evaluate_access_allowed_inv pols w reason w' :
  (forall p q, p ∈ pols -> q ∈ pols -> pol_priority p = pol_priority q) ->
  evaluate_access pols path method ctx0 w = (inr (true, reason), w') ->
  (forall p, p ∈ pols -> pol_effect p = DENY -> engine_match p = true -> ~ never (fires p) false) /\
  ~ (forall p, p ∈ pols -> pol_effect p = ALLOW -> engine_match p = true -> never (fires p) true).
Proof.
  intros Hprio. unfold evaluate_access, mbind, M_bind.
  destruct (walk pols path method ctx0 None None w) as [[e|[bd ba]] w1] eqn:Ew; [done|].
  intros [= Hd _].
  assert (slots_ok (bd, ba)) as Hok by (eapply walk_slots; [exact Ew|by intros []]).
  assert (Hin := walk_in pols w bd ba w1 Ew).
  assert (bd = None) as ->.
  { destruct bd as [dn|]; [|done]. simpl in Hd. unfold decision in Hd.
    assert (pol_effect dn = DENY) as He by by apply (Hok DENY).
    destruct ba as [al|]; [|by rewrite He in Hd].
    rewrite (Hprio al dn (Hin ALLOW al eq_refl) (Hin DENY dn eq_refl)) in Hd.
    rewrite Z.leb_refl in Hd. by rewrite He in Hd. }
  split.
  - intros p Hp He Hm Hn. destruct (walk_mono DENY _ _ _ _ _ _ _ Ew) as [? ?]; [|done]. right. eauto.
  - intros Hall. apply (walk_none ALLOW) in Ew; [|done]. simpl in Ew; subst. done.
Qed.
End walk.

(** ** The compiled policies *)

Section compiled.
Context `{PyRuntime}.
Context (attrs : list (string * pyval)) (probes : list string) (cat col : option string).
Implicit Types (p : Policy) (acc : accum) (r : CondResult).

Definition relevant p : bool :=
  policy_has_read_action p (bool_decide (pol_effect p = DENY)) && policy_matches_read_scope p probes.

Definition result_clause r : AccessClause := scope_clause (map PField (cr_predicates r)) cat col.

(** What one relevant policy adds to the accumulators. *)
Definition step acc p r : option accum :=
  match pol_effect p, cr_outcome r with
  | _, UNSATISFIABLE => Some acc
  | DENY, UNCOMPILABLE => None
  | DENY, _ => Some (mkAcc (acc_allow acc) (acc_deny acc ++ [result_clause r])
                           (acc_uncompilable acc) (acc_allow_all acc))
  | ALLOW, UNCOMPILABLE => Some (mkAcc (acc_allow acc) (acc_deny acc) true (acc_allow_all acc))
  | ALLOW, _ =>
      match cr_predicates r, scope_predicates cat col with
      | [], [] => Some (mkAcc (acc_allow acc) (acc_deny acc) (acc_uncompilable acc) true)
      | _, _ => Some (mkAcc (acc_allow acc ++ [result_clause r]) (acc_deny acc)
                            (acc_uncompilable acc) (acc_allow_all acc))
      end
  end.

Lemma compile_policies_cons p pols acc :
  compile_policies (p :: pols) attrs probes cat col acc =
  if relevant p then
    match compile_conditions (conditions p) attrs with
    | inl e => inl e
    | inr r => match step acc p r with
               | None => inr None
               | Some acc1 => compile_policies pols attrs probes cat col acc1
               end
    end
  else compile_policies pols attrs probes cat col acc.
Proof.
  cbn [compile_policies]. unfold relevant, step, result_clause.
  destruct (policy_has_read_action p _); simpl; [|done].
  destruct (policy_matches_read_scope p probes); simpl; [|done].
  destruct (compile_conditions _ _) as [|r]; [done|].
  destruct (pol_effect p), (cr_outcome r); try done;
    by destruct (cr_predicates r), (scope_predicates cat col).
Qed.

Definition grows_acc acc acc' : Prop :=
  (forall c, c ∈ acc_allow acc -> c ∈ acc_allow acc') /\
  (forall c, c ∈ acc_deny acc -> c ∈ acc_deny acc') /\
  (acc_uncompilable acc = true -> acc_uncompilable acc' = true) /\
  (acc_allow_all acc = true -> acc_allow_all acc' = true).

#[global] Instance grows_acc_preorder : PreOrder grows_acc.
Proof. split; [by intros acc|]. intros a b c (?&?&?&?) (?&?&?&?). repeat split; auto. Qed.

(** The trace a policy leaves in the accumulators. *)
Definition recorded acc p r : Prop :=
  match pol_effect p, cr_outcome r with
  | _, UNSATISFIABLE => True
  | DENY, UNCOMPILABLE => False
  | DENY, _ => result_clause r ∈ acc_deny acc
  | ALLOW, UNCOMPILABLE => acc_uncompilable acc = true
  | ALLOW, _ => acc_allow_all acc = true \/ result_clause r ∈ acc_allow acc
  end.

Lemma step_grows acc p r acc1 : step acc p r = Some acc1 -> grows_acc acc acc1 /\ recorded acc1 p r.
Proof.
  unfold step, recorded, grows_acc.
  destruct (pol_effect p), (cr_outcome r); try done; intros Hs;
    try (injection Hs as <-; simpl; repeat split; auto; set_solver);
    destruct (cr_predicates r), (scope_predicates cat col); injection Hs as <-; simpl;
    repeat split; auto; set_solver.
Qed.

Lemma recorded_grows acc acc' p r : grows_acc acc acc' -> recorded acc p r -> recorded acc' p r.
Proof.
  intros (Ha & Hd & Hu & Hall). unfold recorded.
  destruct (pol_effect p), (cr_outcome r); auto; intros [?|?]; auto.
Qed.

Lemma compile_policies_records pols acc acc' :
  compile_policies pols attrs probes cat col acc = inr (Some acc') ->
  grows_acc acc acc' /\
  forall p, p ∈ pols -> relevant p = true ->
    exists r, compile_conditions (conditions p) attrs = inr r /\ recorded acc' p r.
Proof.
  revert acc. induction pols as [|p pols IH]; intros acc.
  { intros [= <-]. split; [done|]. by intros p ?%elem_of_nil. }
  rewrite compile_policies_cons. destruct (relevant p) eqn:Er.
  - destruct (compile_conditions (conditions p) attrs) as [|r] eqn:Ec; [done|].
    destruct (step acc p r) as [acc1|] eqn:Es; [|done]. intros Hc.
    destruct (step_grows _ _ _ _ Es) as [Hg Hrec]. destruct (IH _ Hc) as [Hg' Hall].
    split; [by etrans|]. intros q [->|Hq]%elem_of_cons; eauto using recorded_grows.
  - intros Hc. destruct (IH _ Hc) as [Hg Hall]. split; [done|].
    intros q [->|Hq]%elem_of_cons; [congruence|eauto].
Qed.

(** Where a clause of the accumulators comes from. *)
Definition from_policy (pols : list Policy) (e : effect) (Q : CondResult -> Prop) : Prop :=
  exists p r, p ∈ pols /\ pol_effect p = e /\ relevant p = true /\
    compile_conditions (conditions p) attrs = inr r /\
    (cr_outcome r = SATISFIED \/ cr_outcome r = PREDICATES) /\ Q r.

Definition justified (pols : list Policy) acc : Prop :=
  (forall c, c ∈ acc_allow acc -> from_policy pols ALLOW (fun r => c = result_clause r)) /\
  (forall c, c ∈ acc_deny acc -> from_policy pols DENY (fun r => c = result_clause r)) /\
  (acc_allow_all acc = true ->
   from_policy pols ALLOW (fun r => cr_predicates r = [] /\ scope_predicates cat col = [])).

Lemma from_policy_here p pols e r Q :
  pol_effect p = e -> relevant p = true -> compile_conditions (conditions p) attrs = inr r ->
  (cr_outcome r = SATISFIED \/ cr_outcome r = PREDICATES) -> Q r -> p ∈ pols -> from_policy pols e Q.
Proof. intros. by exists p, r. Qed.

Lemma step_justified all p acc r acc1 :
  p ∈ all -> relevant p = true -> compile_conditions (conditions p) attrs = inr r ->
  step acc p r = Some acc1 -> justified all acc -> justified all acc1.
Proof.
  intros Hp Hr Hc Hs Hj. unfold step in Hs.
  assert (Hhere : forall e Q, pol_effect p = e ->
    (cr_outcome r = SATISFIED \/ cr_outcome r = PREDICATES) -> Q r -> from_policy all e Q)
    by (intros; by eapply from_policy_here).
  destruct (pol_effect p) eqn:Ee, (cr_outcome r) eqn:Eo; simplify_eq; try done;
    try (destruct (cr_predicates r) eqn:Eq, (scope_predicates cat col) eqn:Escope; simplify_eq);
    destruct Hj as (Ha & Hd & Hall); (split; [|split]); simpl; auto.
  all: first [ intros c Hin; apply elem_of_app in Hin as [?|Hin%list_elem_of_singleton]; subst; auto
             | intros _; by apply Hhere; auto ].
Qed.

Lemma compile_policies_justified all pols acc acc' :
  (forall p, p ∈ pols -> p ∈ all) -> justified all acc ->
  compile_policies pols attrs probes cat col acc = inr (Some acc') -> justified all acc'.
Proof.
  revert acc. induction pols as [|p pols IH]; intros acc Hin Hj.
  { by intros [= <-]. }
  rewrite compile_policies_cons. destruct (relevant p) eqn:Er; [|by apply IH; set_solver].
  destruct (compile_conditions (conditions p) attrs) as [|r] eqn:Ec; [done|].
  destruct (step acc p r) as [acc1|] eqn:Es; [|done]. apply IH; [set_solver|].
  eapply step_justified; eauto. set_solver.
Qed.

Lemma compile_policies_justified_init pols acc :
  compile_policies pols attrs probes cat col (mkAcc [] [] false false) = inr (Some acc) ->
  justified pols acc.
Proof.
  apply compile_policies_justified; [done|].
  split; [|split]; [by intros ? ?%elem_of_nil|by intros ? ?%elem_of_nil|done].
Qed.
End compiled.

(** ** Scope pins *)

Section theorems.
Context `{PyRuntime} {W : Type} `{Services W}.
Implicit Types (p : Policy) (d : document) (ctx : EvaluationContext).

Lemma fields_match_map ps d :
  forallb (fun q => predicate_matches q d) (map PField ps) = fields_match ps d.
Proof. apply forallb_map. Qed.

Lemma scope_clause_matches fps cat col d :
  clause_matches (scope_clause fps cat col) d =
  fields_match (scope_predicates cat col) d && forallb (fun q => predicate_matches q d) fps.
Proof. unfold clause_matches, scope_clause; simpl. by rewrite forallb_app, fields_match_map. Qed.

Lemma result_clause_matches cat col r d :
  clause_matches (result_clause cat col r) d =
  fields_match (scope_predicates cat col) d && fields_match (cr_predicates r) d.
Proof. unfold result_clause. by rewrite scope_clause_matches, fields_match_map. Qed.

Lemma grant_clauses_scoped reg rows cat col c d :
  c ∈ (compile_grant_attribute_clauses reg rows cat col).1 -> clause_matches c d = true ->
  fields_match (scope_predicates cat col) d = true.
Proof.
  destruct rows as [rows|]; simpl; [|by intros ?%elem_of_nil].
  induction rows as [|row rows IH]; simpl; [by intros ?%elem_of_nil|].
  destruct (grant_clauses reg rows cat col) as [cs unc]; simpl in *.
  destruct row as [[|x raw]|]; [exact IH| |exact IH].
  destruct (build_raw (x :: raw)) as [|preds]; [exact IH|].
  destruct (compile_attribute_predicates reg preds) as [fps []]; [exact IH|]. simpl.
  intros [->|Hin]%elem_of_cons; [|by intros; apply IH].
  rewrite scope_clause_matches. intros; by bool_hyps.
Qed.

(** What admitting a document says of the accumulators. *)
Lemma compile_read_filter_inv pols attrs reg rows cat col asset af :
  compile_read_filter pols attrs reg rows cat col asset = inr af ->
  uncompilable af = true /\ deny_all af = true \/
  exists acc,
    compile_policies pols attrs (read_scope_probe_paths cat col asset) cat col (mkAcc [] [] false false)
      = inr (Some acc) /\
    uncompilable af = acc_uncompilable acc || (compile_grant_attribute_clauses reg rows cat col).2 /\
    forall d, admits af d =
      (acc_allow_all acc ||
       existsb (fun c => clause_matches c d)
         (acc_allow acc ++ (compile_grant_attribute_clauses reg rows cat col).1)) &&
      negb (existsb (fun c => clause_matches c d) (acc_deny acc)).
Proof.
  unfold compile_read_filter.
  destruct (compile_policies _ _ _ _ _ _) as [|[acc|]]; [done| |by intros [= <-]; left].
  destruct (compile_grant_attribute_clauses reg rows cat col) as [attr_allow attr_unc]; simpl.
  intros Haf. right. exists acc. split; [done|].
  destruct (acc_allow_all acc).
  { injection Haf as <-. split; [done|]. intros d. simpl. by destruct (existsb _ _). }
  destruct (acc_allow acc ++ attr_allow) as [|c cs] eqn:Ecs; injection Haf as <-; [done|].
  split; [done|]. intros d. exact (from_clauses_spec (c :: cs) (acc_deny acc) _ d).
Qed.

(** A GET on a probe path that the engine matches is relevant. *)
Lemma engine_match_relevant p path cat col asset :
  re_match ".*" "GET" = Some true -> re_match "GET" "GET" = Some true ->
  path ∈ read_scope_probe_paths cat col asset ->
  engine_match path "GET" p = true -> relevant (read_scope_probe_paths cat col asset) p = true.
Proof.
  intros Hstar Hget Hpath. unfold engine_match, relevant, method_match, policy_has_read_action,
    policy_matches_read_scope. intros; bool_hyps. apply andb_true_iff; split.
  - destruct (actions p) as [|a acts] eqn:Ea; [done|].
    apply existsb_elem. exists "GET".
    split; [by case_bool_decide; vm_compute; apply list_elem_of_here|].
    unfold matches_action, any_match in *. rewrite !orb_true_iff in H1.
    destruct H1 as [[[?|Hs]|Hs]|?]; [done| | |done]; apply str_mem_In in Hs; apply existsb_elem.
    + exists ".*". by rewrite Ea, Hstar.
    + exists "GET". by rewrite Ea, Hget.
  - apply existsb_elem. eauto.
Qed.

Lemma outcome_fires attrs d ctx p r :
  consistent attrs d ctx -> forallb regex_free (conditions p) = true ->
  compile_conditions (conditions p) attrs = inr r ->
  (cr_outcome r = SATISFIED \/ cr_outcome r = PREDICATES) ->
  never (fires (W := W) ctx p) (negb (fields_match (cr_predicates r) d)).
Proof.
  intros Hc Hre Hr Ho.
  assert (Hs := compile_conditions_sound attrs d _ (conditions p) (Some (pol_id p)) r
                  (consistent_effect attrs d (effect_name (pol_effect p)) ctx Hc) Hre Hr).
  unfold outcome_sound in Hs. destruct Ho as [Ho|Ho]; rewrite Ho in Hs; [|done].
  by rewrite (compile_and_satisfied _ _ _ _ _ Hr Ho).
Qed.

Lemma outcome_unsat attrs d ctx p r :
  consistent attrs d ctx -> forallb regex_free (conditions p) = true ->
  compile_conditions (conditions p) attrs = inr r -> cr_outcome r = UNSATISFIABLE ->
  never (fires (W := W) ctx p) true.
Proof.
  intros Hc Hre Hr Ho.
  assert (Hs := compile_conditions_sound attrs d _ (conditions p) (Some (pol_id p)) r
                  (consistent_effect attrs d (effect_name (pol_effect p)) ctx Hc) Hre Hr).
  unfold outcome_sound in Hs. by rewrite Ho in Hs.
Qed.

Definition pols_regex_free (pols : list Policy) : bool :=
  forallb (fun p => forallb regex_free (conditions p)) pols.

Lemma pols_regex_free_in pols p :
  pols_regex_free pols = true -> p ∈ pols -> forallb regex_free (conditions p) = true.
Proof. unfold pols_regex_free. rewrite forallb_elem. auto. Qed.

(** In a state where no deny clause matches, no relevant DENY can fire. *)
Lemma deny_cannot_fire attrs d ctx acc p cat col r :
  consistent attrs d ctx -> forallb regex_free (conditions p) = true ->
  fields_match (scope_predicates cat col) d = true ->
  (forall c, c ∈ acc_deny acc -> clause_matches c d = false) ->
  pol_effect p = DENY -> compile_conditions (conditions p) attrs = inr r ->
  recorded cat col acc p r -> never (fires (W := W) ctx p) true.
Proof.
  intros Hc Hre Hscope Hdeny He Hr. unfold recorded. rewrite He.
  destruct (cr_outcome r) eqn:Eo; try done; intros Hrec;
    [|by eapply outcome_unsat|].
  all: specialize (Hdeny _ Hrec); rewrite result_clause_matches, Hscope in Hdeny; simpl in Hdeny.
  all: assert (Hn := outcome_fires attrs d ctx p r Hc Hre Hr ltac:(auto)).
  all: by rewrite Hdeny in Hn.
Qed.
End theorems.

(** ** Properties *)

(** C8 (safety).  The cardinal rule of row-level access control: the compiled
    filter is equal-or-stricter than the engine.  A document it admits, other
    than through an attribute grant, is one on which [evaluate_access] does not
    answer "denied" for a GET on any probe path of the scope, in any state of
    the usage counters.  Hypotheses: the request is consistent with the document
    ([consistent]), [match] conditions avoid the [regex] operator, and an ALLOW
    that is relevant to the scope also matches the concrete request. *)
Theorem compile_read_filter_equal_or_stricter `{PyRuntime} {W : Type} `{Services W}
    (pols : list Policy) (attrs : list (string * pyval)) (reg : registry)
    (rows : option (list (option (list raw_predicate)))) (cat col asset : option string)
    (af : AccessFilter) (d : document) (path : string) (ctx : EvaluationContext) (w : W) :
  re_match ".*" "GET" = Some true -> re_match "GET" "GET" = Some true ->
  path ∈ read_scope_probe_paths cat col asset ->
  consistent attrs d ctx -> pols_regex_free pols = true ->
  (forall p, p ∈ pols -> pol_effect p = ALLOW ->
     relevant (read_scope_probe_paths cat col asset) p = true -> engine_match path "GET" p = true) ->
  compile_read_filter pols attrs reg rows cat col asset = inr af -> admits af d = true ->
  existsb (fun c => clause_matches c d) (compile_grant_attribute_clauses reg rows cat col).1 = true \/
  match (evaluate_access pols path "GET" ctx w).1 with
  | inr (allowed, _) => allowed = true
  | inl _ => True
  end.
Proof.
  intros Hstar Hget Hpath Hcons Hre Hcover Hcomp Hadm.
  destruct (compile_read_filter_inv _ _ _ _ _ _ _ _ Hcomp) as [[_ Hda]|(acc & Hacc & _ & Hsem)].
  { by rewrite deny_all_admits in Hadm. }
  rewrite Hsem in Hadm. bool_hyps. rename H1 into Hallow, H2 into Hdeny.
  destruct (compile_policies_records _ _ _ _ _ _ _ Hacc) as [_ Hrec].
  assert (justified attrs (read_scope_probe_paths cat col asset) cat col pols acc) as (Ja & _ & Jall)
    by (by apply compile_policies_justified_init).
  assert (Hfrom : existsb (fun c => clause_matches c d) (compile_grant_attribute_clauses reg rows cat col).1 = true
    \/ from_policy attrs (read_scope_probe_paths cat col asset) pols ALLOW
         (fun r => fields_match (scope_predicates cat col) d = true /\ fields_match (cr_predicates r) d = true)).
  { apply orb_true_iff in Hallow as [Hall|Hany].
    - right. destruct (Jall Hall) as (p & r & ? & ? & ? & ? & ? & Hp & Hs).
      exists p, r. by rewrite Hp, Hs.
    - rewrite existsb_app in Hany. apply orb_true_iff in Hany as [Hany|?]; [|by left]. right.
      apply existsb_elem in Hany as (c & Hc & Hm). destruct (Ja c Hc) as (p & r & ? & ? & ? & ? & ? & ->).
      rewrite result_clause_matches in Hm; bool_hyps. by exists p, r. }
  destruct Hfrom as [?|(p0 & r0 & Hp0 & He0 & Hr0 & Hc0 & Ho0 & Hscope & Hm0)]; [by left|right].
  apply evaluate_access_allowed.
  - intros p Hp He Hm.
    destruct (Hrec p Hp) as (r & Hr & Hrc); [by eapply engine_match_relevant|].
    eapply deny_cannot_fire; eauto using pols_regex_free_in.
    by apply existsb_none.
  - exists p0. repeat split; auto.
    assert (Hn := outcome_fires (W := W) attrs d ctx p0 r0 Hcons (pols_regex_free_in _ _ Hre Hp0) Hc0 Ho0).
    by rewrite Hm0 in Hn.
Qed.

(** C9 (equivalence).  The projection loses nothing it could express: when no grant was
    inexpressible, all policies have the same priority, [match] conditions avoid the
    [regex] operator, the request is consistent with the document, the scope pins hold
    of the document, and every policy relevant to the scope also matches the concrete
    GET, every read the engine allows is admitted by the filter. *)
Theorem compile_read_filter_complete `{PyRuntime} {W : Type} `{Services W}
    (pols : list Policy) (attrs : list (string * pyval)) (reg : registry)
    (rows : option (list (option (list raw_predicate)))) (cat col asset : option string)
    (af : AccessFilter) (d : document) (path reason : string) (ctx : EvaluationContext) (w w' : W) :
  re_match ".*" "GET" = Some true -> re_match "GET" "GET" = Some true ->
  path ∈ read_scope_probe_paths cat col asset ->
  consistent attrs d ctx -> pols_regex_free pols = true ->
  (forall p, p ∈ pols -> relevant (read_scope_probe_paths cat col asset) p = true ->
     engine_match path "GET" p = true) ->
  (forall p q, p ∈ pols -> q ∈ pols -> pol_priority p = pol_priority q) ->
  fields_match (scope_predicates cat col) d = true ->
  compile_read_filter pols attrs reg rows cat col asset = inr af -> uncompilable af = false ->
  evaluate_access pols path "GET" ctx w = (inr (true, reason), w') ->
  admits af d = true.
Proof.
  intros Hstar Hget Hpath Hcons Hre Hcover Hprio Hscope Hcomp Hunc Heval.
  destruct (compile_read_filter_inv _ _ _ _ _ _ _ _ Hcomp) as [[? _]|(acc & Hacc & Hu & Hsem)];
    [congruence|].
  rewrite Hunc in Hu. symmetry in Hu. bool_hyps. rename H1 into Hu.
  destruct (compile_policies_records _ _ _ _ _ _ _ Hacc) as [_ Hrec].
  assert (justified attrs (read_scope_probe_paths cat col asset) cat col pols acc) as (_ & Jd & _)
    by (by apply compile_policies_justified_init).
  destruct (evaluate_access_allowed_inv _ _ _ _ _ _ _ Hprio Heval) as [Hdeny Hallow].
  rewrite Hsem. apply andb_true_iff; split.
  - apply not_false_iff_true. intros Hno; bool_hyps. rewrite existsb_app in *; bool_hyps.
    apply Hallow. intros p Hp He Hm.
    destruct (Hrec p Hp) as (r & Hr & Hrc); [by eapply engine_match_relevant|].
    assert (Hpre := pols_regex_free_in _ _ Hre Hp).
    unfold recorded in Hrc. rewrite He in Hrc.
    destruct (cr_outcome r) eqn:Eo; [|by eapply outcome_unsat; eauto| |congruence].
    all: destruct Hrc as [?|Hin]; [congruence|].
    all: assert (Hc := proj1 (existsb_none _ _) H3 _ Hin); simpl in Hc.
    all: rewrite result_clause_matches, Hscope in Hc; simpl in Hc.
    all: assert (Hn := outcome_fires (W := W) attrs d ctx p r Hcons Hpre Hr ltac:(auto)).
    all: by rewrite Hc in Hn.
  - apply negb_true_iff, existsb_none. intros c Hc.
    destruct (Jd c Hc) as (p & r & Hp & He & Hrel & Hr & Ho & ->).
    rewrite result_clause_matches, Hscope; simpl. apply not_true_iff_false. intros Hm.
    apply (Hdeny p Hp He (Hcover p Hp Hrel)).
    assert (Hn := outcome_fires (W := W) attrs d ctx p r Hcons (pols_regex_free_in _ _ Hre Hp) Hr Ho).
    by rewrite Hm in Hn.
Qed.

(** ** Witnesses *)

Lemma demo_cover p :
  p ∈ demo_policies ->
  @engine_match demo_runtime "/stac/catalogs/cat" "GET" p = true.
Proof. by intros [->|[->|[]%elem_of_nil]%elem_of_cons]%elem_of_cons; vm_compute. Qed.

Lemma demo_consistent : @consistent unit demo_services demo_attrs demo_doc demo_ctx.
Proof. split; [by eexists|by vm_compute]. Qed.

(** Witness of C8. *)
Lemma compile_read_filter_equal_or_stricter_witness :
  match (@evaluate_access demo_runtime unit demo_services demo_policies "/stac/catalogs/cat" "GET" demo_ctx tt).1 with
  | inr (allowed, _) => allowed = true
  | inl _ => True
  end.
Proof.
  destruct (@compile_read_filter_equal_or_stricter demo_runtime unit demo_services
    demo_policies demo_attrs [] None (Some "cat") None None demo_filter demo_doc
    "/stac/catalogs/cat" demo_ctx tt) as [Hgrant|Heval].
  - by vm_compute.
  - by vm_compute.
  - by apply list_elem_of_here.
  - apply demo_consistent.
  - by vm_compute.
  - intros p Hp _ _. by apply demo_cover.
  - by vm_compute.
  - by vm_compute.
  - by vm_compute in Hgrant.
  - exact Heval.
Defined.

(** Witness of C9. *)
Lemma compile_read_filter_complete_witness : @admits demo_runtime demo_filter demo_doc = true.
Proof.
  apply (@compile_read_filter_complete demo_runtime unit demo_services
    demo_policies demo_attrs [] None (Some "cat") None None demo_filter demo_doc
    "/stac/catalogs/cat" "Allowed by policy public-read" demo_ctx tt tt).
  - by vm_compute.
  - by vm_compute.
  - by apply list_elem_of_here.
  - apply demo_consistent.
  - by vm_compute.
  - intros p Hp _. by apply demo_cover.
  - by intros p q [->|[->|[]%elem_of_nil]%elem_of_cons]%elem_of_cons
      [->|[->|[]%elem_of_nil]%elem_of_cons]%elem_of_cons.
  - by vm_compute.
  - by vm_compute.
  - by vm_compute.
  - by vm_compute.
Defined.

(** ** Where the projection and the engine part

    The side conditions of the two theorems are needed: each of the following
    lemmas is a concrete deployment outside one of them. *)

(** [match] with [regex]: the engine searches, the compiler matches at the
    start.  A DENY whose pattern occurs inside the attribute is dropped from
    the filter, which then admits a document the engine denies. *)
Lemma regex_deny_widens :
  let pols :=
    [mkPolicy "open" ALLOW 0 ["GET"] ["/stac/.*"] [];
     mkPolicy "no-contractors" DENY 10 ["GET"] ["/stac/.*"]
       [mkCond "match" [("attribute", VStr "principal.attributes.dept"); ("operator", VStr "regex");
                        ("value", VStr "contractor")] [] None]] in
  let attrs := [("dept", VStr "ext-contractor")] in
  let ctx := mkCtx None None "/stac/catalogs/cat" "GET" None 0 (Some "cat")
    (Some (mkPrincipal [] None None attrs)) None [] None in
  match @compile_read_filter demo_runtime pols attrs [] None (Some "cat") None None with
  | inr af => @admits demo_runtime af demo_doc = true
  | inl _ => False
  end /\
  (@evaluate_access demo_runtime unit demo_services pols "/stac/catalogs/cat" "GET" ctx tt).1
    = inr (false, "Explicit DENY by policy no-contractors").
Proof. by vm_compute. Qed.

(** The same condition with a malformed pattern raises in the compiler; the
    engine resolves it by the effect of the policy. *)
Lemma regex_malformed_raises :
  let pols :=
    [mkPolicy "typo" ALLOW 0 ["GET"] ["/stac/.*"]
       [mkCond "match" [("attribute", VStr "principal.attributes.dept"); ("operator", VStr "regex");
                        ("value", VStr "(geo")] [] None]] in
  @compile_read_filter demo_runtime pols demo_attrs [] None (Some "cat") None None = inl ReError /\
  (@evaluate_access demo_runtime unit demo_services pols "/stac/catalogs/cat" "GET" demo_ctx tt).1
    = inr (false, "Deny by Default (No matching ALLOW policy found)").
Proof. by vm_compute. Qed.

(** An ALLOW for the action [SEARCH] alone is enough for the filter, while a
    GET on the same scope is denied: the cover hypothesis of
    [compile_read_filter_equal_or_stricter]. *)
Lemma search_only_allow_admits :
  let pols := [mkPolicy "search" ALLOW 0 ["SEARCH"] ["/stac/.*"] []] in
  match @compile_read_filter demo_runtime pols demo_attrs [] None (Some "cat") None None with
  | inr af => @admits demo_runtime af demo_doc = true
  | inl _ => False
  end /\
  (@evaluate_access demo_runtime unit demo_services pols "/stac/catalogs/cat" "GET" demo_ctx tt).1
    = inr (false, "Deny by Default (No matching ALLOW policy found)").
Proof. by vm_compute. Qed.

(** A grant row whose predicate list holds no object compiles to an allow
    clause with no predicate besides the scope pins. *)
Lemma non_object_grant_row_opens_scope :
  compile_grant_attribute_clauses PREDICATE_REGISTRY (Some [Some [RawOther]]) (Some "cat") None
    = ([scope_clause [] (Some "cat") None], false).
Proof. done. Qed.
