(* ===== verification/Engine.v ===== *)
(** * The decision of [evaluate_access]

    The engine keeps, in one pass over the effective policies, the best DENY
    and the best ALLOW seen so far.  The reference definition collects every
    policy that fires and then applies the documented rule: the highest
    priority wins, a DENY wins a tie, no policy is a denial. *)

From S2P Require Import Prelude Conditions Policies Demo.
From Stdlib Require Import Ascii NArith Permutation.

(** ** The order of policies *)

Lemma ascii_compare_lt_trans a b c :
  Ascii.compare a b = Lt -> Ascii.compare b c = Lt -> Ascii.compare a c = Lt.
Proof. unfold Ascii.compare. rewrite !N.compare_lt_iff. apply N.lt_trans. Qed.

Lemma string_compare_lt_trans a b c :
  String.compare a b = Lt -> String.compare b c = Lt -> String.compare a c = Lt.
Proof.
  revert b c. induction a as [|x a IH]; intros [|y b] [|z c]; simpl; try done.
  destruct (Ascii.compare x y) eqn:Exy, (Ascii.compare y z) eqn:Eyz; try done.
  - apply Ascii.compare_eq_iff in Exy as ->. rewrite Eyz. apply IH.
  - apply Ascii.compare_eq_iff in Exy as ->. by rewrite Eyz.
  - apply Ascii.compare_eq_iff in Eyz as <-. by rewrite Exy.
  - by rewrite (ascii_compare_lt_trans x y z).
Qed.

Lemma string_compare_refl a : String.compare a a = Eq.
Proof.
  induction a as [|x a IH]; simpl; [done|].
  by rewrite (N.compare_refl (N_of_ascii x) : Ascii.compare x x = Eq).
Qed.

(** [rank_lt] as a proposition. *)
Lemma rank_lt_spec p q :
  rank_lt p q = true <->
  pol_priority q < pol_priority p \/
  pol_priority p = pol_priority q /\ String.compare (pol_id p) (pol_id q) = Lt.
Proof.
  unfold rank_lt. rewrite orb_true_iff, andb_true_iff, Z.ltb_lt, Z.eqb_eq.
  destruct (String.compare _ _); intuition congruence.
Qed.

Lemma rank_lt_trans p q r : rank_lt p q = true -> rank_lt q r = true -> rank_lt p r = true.
Proof.
  rewrite !rank_lt_spec. intros [?|[? ?]] [?|[? ?]]; [left; lia..|].
  right. split; [congruence|]. by eapply string_compare_lt_trans.
Qed.

Lemma rank_lt_total p q :
  rank_lt p q = false -> rank_lt q p = false ->
  pol_priority p = pol_priority q /\ pol_id p = pol_id q.
Proof.
  intros Hpq Hqp. apply not_true_iff_false in Hpq, Hqp. rewrite rank_lt_spec in Hpq, Hqp.
  assert (pol_priority p = pol_priority q) as Hprio by lia. split; [done|].
  destruct (String.compare (pol_id p) (pol_id q)) eqn:E.
  - by apply String.compare_eq_iff.
  - destruct Hpq; auto.
  - rewrite String.compare_antisym, CompOpp_iff in E. destruct Hqp; auto.
Qed.

(** ** The best policy of a list *)

(** [best eff fired cur]: the running best over the policies of an effect. *)
Definition best (eff : effect) (fired : list Policy) (cur : option Policy) : option Policy :=
  fold_left (fun b p => if bool_decide (pol_effect p = eff) then keep_best p b else b) fired cur.

(** [b] has the least rank among the policies [l]. *)
Definition least (l : list Policy) (b : option Policy) : Prop :=
  match b with
  | None => l = []
  | Some q => q ∈ l /\ forall p, p ∈ l -> rank_lt p q = false
  end.

Definition of_effect (eff : effect) (l : list Policy) : list Policy :=
  filter (fun p => pol_effect p = eff) l.

Lemma rank_lt_irrefl p : rank_lt p p = false.
Proof.
  apply not_true_iff_false. rewrite rank_lt_spec. intros [?|[_ Hc]]; [lia|].
  by rewrite string_compare_refl in Hc.
Qed.

Lemma keep_best_least l b p : least l b -> least (l ++ [p]) (keep_best p b).
Proof.
  destruct b as [q|]; simpl.
  - intros [Hq Hmin]. destruct (rank_lt p q) eqn:Epq; simpl.
    + split; [set_solver|]. intros x Hx. apply elem_of_app in Hx as [Hx|Hx]; [|by rewrite list_elem_of_singleton in Hx; subst; apply rank_lt_irrefl].
      apply not_true_iff_false. intros Hxp. specialize (Hmin x Hx).
      by rewrite (rank_lt_trans x p q) in Hmin.
    + split; [set_solver|]. intros x Hx. apply elem_of_app in Hx as [Hx|Hx]; [auto|].
      by rewrite list_elem_of_singleton in Hx; subst.
  - intros ->. split; [set_solver|]. intros x Hx. simpl in Hx. rewrite list_elem_of_singleton in Hx; subst. apply rank_lt_irrefl.
Qed.

Lemma best_least eff fired l cur : least l cur -> least (l ++ of_effect eff fired) (best eff fired cur).
Proof.
  revert l cur. induction fired as [|p fired IH]; intros l cur Hl; simpl.
  - by rewrite app_nil_r.
  - unfold of_effect; rewrite filter_cons. case_bool_decide; case_decide; try done.
    + rewrite (cons_middle p l). rewrite app_assoc. apply IH. by apply keep_best_least.
    + by apply IH.
Qed.

Lemma best_spec eff fired : least (of_effect eff fired) (best eff fired None).
Proof. by apply (best_least eff fired [] None). Qed.

Lemma elem_of_effect eff l p : p ∈ of_effect eff l <-> pol_effect p = eff /\ p ∈ l.
Proof. unfold of_effect. by rewrite list_elem_of_filter. Qed.

(** ** The reference decision *)

(** An ALLOW fired whose priority is above that of every DENY that fired. *)
Definition granted (fired : list Policy) : bool :=
  existsb (fun p => bool_decide (pol_effect p = ALLOW) &&
    forallb (fun q => bool_decide (pol_effect q = ALLOW) || (pol_priority q <? pol_priority p)) fired)
    fired.

Definition decide_fired (fired : list Policy) : bool * string :=
  decision (select_winner (best DENY fired None) (best ALLOW fired None)).

(** A policy of least rank has the greatest priority. *)
Lemma least_priority l q p : least l (Some q) -> p ∈ l -> pol_priority p <= pol_priority q.
Proof.
  intros [_ Hmin] Hp. specialize (Hmin p Hp). apply not_true_iff_false in Hmin.
  rewrite rank_lt_spec in Hmin. lia.
Qed.

Lemma granted_spec fired :
  granted fired = true <->
  exists p, p ∈ fired /\ pol_effect p = ALLOW /\
    forall q, q ∈ fired -> pol_effect q = DENY -> pol_priority q < pol_priority p.
Proof.
  unfold granted. rewrite existsb_elem. split.
  - intros (p & Hp & Hok). bool_hyps. exists p. split_and!; [done|by apply bool_decide_eq_true in H|].
    intros q Hq He. rewrite forallb_elem in H0. specialize (H0 q Hq). rewrite He in H0.
    simpl in H0. lia.
  - intros (p & Hp & He & Hmax). exists p. split; [done|]. apply andb_true_iff.
    split; [by apply bool_decide_eq_true|]. apply forallb_elem. intros q Hq.
    destruct (pol_effect q) eqn:Eq; simpl; [done|]. apply Z.ltb_lt. auto.
Qed.

Lemma decide_fired_granted fired : (decide_fired fired).1 = granted fired.
Proof.
  unfold decide_fired. assert (Hd := best_spec DENY fired). assert (Ha := best_spec ALLOW fired).
  assert (Heff : forall e q, least (of_effect e fired) (Some q) -> pol_effect q = e /\ q ∈ fired)
    by by intros e q [Hq _]; apply elem_of_effect.
  assert (Hnil : forall e, of_effect e fired = [] -> forall q, q ∈ fired -> pol_effect q <> e).
  { intros e Hn q Hq He. assert (q ∈ of_effect e fired) as Hin by by apply elem_of_effect.
    rewrite Hn in Hin. by apply elem_of_nil in Hin. }
  symmetry. apply eq_true_iff_eq. rewrite granted_spec.
  destruct (best DENY fired None) as [dn|], (best ALLOW fired None) as [al|]; simpl.
  - destruct (Heff _ _ Hd) as [Ed Hdn], (Heff _ _ Ha) as [Ea Hal].
    destruct (pol_priority al <=? pol_priority dn) eqn:Ele; unfold decision;
      rewrite ?Ed, ?Ea; simpl; split; try done.
    + intros (p & Hp & Ep & Hmax). specialize (Hmax dn Hdn Ed).
      assert (pol_priority p <= pol_priority al)
        by (eapply least_priority; [exact Ha|by apply elem_of_effect]). lia.
    + intros _. exists al. split_and!; [done..|]. intros q Hq Eq.
      assert (pol_priority q <= pol_priority dn)
        by (eapply least_priority; [exact Hd|by apply elem_of_effect]). lia.
  - destruct (Heff _ _ Hd) as [Ed Hdn]. unfold decision; rewrite Ed; simpl.
    split; [|done]. intros (p & Hp & Ep & _). by destruct (Hnil _ Ha p Hp).
  - destruct (Heff _ _ Ha) as [Ea Hal]. unfold decision; rewrite Ea; simpl.
    split; [done|]. intros _. exists al. split_and!; [done..|]. intros q Hq Eq.
    by destruct (Hnil _ Hd q Hq).
  - split; [|done]. intros (p & Hp & Ep & _). by destruct (Hnil _ Ha p Hp).
Qed.

Section reference.
Context `{PyRuntime} {W : Type} `{Services W}.
Implicit Types (ctx : EvaluationContext) (p : Policy).

(** The policies that match the request and whose conditions hold, in order;
    an exception of a condition stops the evaluation. *)
Fixpoint collect (pols : list Policy) (path method : string) ctx : M W (list Policy) :=
  match pols with
  | [] => mret []
  | p :: pols' =>
      if negb (method_match p method && matches_resource p path) then collect pols' path method ctx
      else
        met ← evaluate_all (conditions p) (Some (pol_id p)) (set_effect (effect_name (pol_effect p)) ctx);
        rest ← collect pols' path method ctx;
        mret (if met : bool then p :: rest else rest)
  end.

(** The effect left in the context by an earlier policy is overwritten. *)
Lemma collect_effect pols path method ctx e w :
  collect pols path method (set_effect e ctx) w = collect pols path method ctx w.
Proof.
  revert w. induction pols as [|p pols IH]; intros w; simpl; [done|].
  destruct (negb _); [apply IH|]. unfold mbind, M_bind.
  change (set_effect _ (set_effect e ctx)) with (set_effect (effect_name (pol_effect p)) ctx).
  destruct (evaluate_all _ _ _ w) as [[|b] w1]; [done|]. by rewrite IH.
Qed.

(** The one-pass walk computes the bests of the collected policies. *)
Lemma walk_collect pols path method ctx bd ba w :
  walk pols path method ctx bd ba w =
  (fired ← collect pols path method ctx; mret (best DENY fired bd, best ALLOW fired ba)) w.
Proof.
  revert bd ba ctx w. induction pols as [|p pols IH]; intros bd ba ctx w; simpl; [done|].
  destruct (negb _); [apply IH|]. unfold mbind, M_bind.
  destruct (evaluate_all _ _ _ w) as [[|[]] w1]; [done| |]; simpl.
  - destruct (pol_effect p) eqn:Ee; rewrite IH; unfold mbind, M_bind; rewrite collect_effect;
      destruct (collect pols path method ctx w1) as [[|l] w2]; try done; simpl; by rewrite Ee.
  - rewrite IH; unfold mbind, M_bind; rewrite collect_effect.
    by destruct (collect pols path method ctx w1) as [[|l] w2].
Qed.

(** Stateless conditions: each has a verdict that does not depend on the state
    and leaves it unchanged. *)
Definition stateless (pols : list Policy) ctx (verdict : Policy -> bool) : Prop :=
  forall p, p ∈ pols ->
    pure_result (W := W)
      (evaluate_all (conditions p) (Some (pol_id p)) (set_effect (effect_name (pol_effect p)) ctx))
      (verdict p).

Lemma collect_stateless pols path method ctx verdict w :
  stateless pols ctx verdict ->
  collect pols path method ctx w =
  (inr (List.filter (fun p => method_match p method && matches_resource p path && verdict p) pols), w).
Proof.
  intros Hst. revert w. induction pols as [|p pols IH]; intros w; simpl; [done|].
  assert (stateless pols ctx verdict) as Hst' by (intros q Hq; apply Hst; set_solver).
  destruct (method_match p method && matches_resource p path); simpl; [|by apply IH].
  rewrite (bind_pure _ _ (verdict p)) by (apply Hst, list_elem_of_here).
  unfold mbind, M_bind. rewrite (IH Hst'). by destruct (verdict p).
Qed.

Lemma filter_perm (f : Policy -> bool) l l' :
  Permutation l l' -> Permutation (List.filter f l) (List.filter f l').
Proof.
  induction 1; simpl; repeat case_match; eauto using Permutation.
Qed.

(** Best policies of permuted lists have the same key. *)
Lemma least_perm l l' b b' :
  Permutation l l' -> least l b -> least l' b' ->
  option_map (fun p => (pol_priority p, pol_id p)) b = option_map (fun p => (pol_priority p, pol_id p)) b'.
Proof.
  intros Hperm. destruct b as [q|], b' as [q'|]; simpl; [|intros [Hq _] ->|intros -> [Hq _]|done].
  - intros [Hq Hmin] [Hq' Hmin'].
    destruct (rank_lt_total q q') as [-> ->]; [|apply Hmin; by rewrite Hperm|done].
    apply Hmin'. by rewrite <-Hperm.
  - symmetry in Hperm. apply Permutation_nil in Hperm as ->. by apply elem_of_nil in Hq.
  - apply Permutation_nil in Hperm as ->. by apply elem_of_nil in Hq.
Qed.

Lemma of_effect_perm e l l' : Permutation l l' -> Permutation (of_effect e l) (of_effect e l').
Proof. unfold of_effect. by intros ->. Qed.

Lemma best_effect e fired p : best e fired None = Some p -> pol_effect p = e.
Proof. intros Hb. assert (Hl := best_spec e fired). rewrite Hb in Hl.
  by destruct Hl as [[? _]%elem_of_effect _]. Qed.

(** The decision does not depend on the order in which policies fired. *)
Lemma decide_fired_perm l l' : Permutation l l' -> decide_fired l = decide_fired l'.
Proof.
  intros Hperm. unfold decide_fired.
  assert (Hd := least_perm _ _ _ _ (of_effect_perm DENY _ _ Hperm) (best_spec DENY l) (best_spec DENY l')).
  assert (Ha := least_perm _ _ _ _ (of_effect_perm ALLOW _ _ Hperm) (best_spec ALLOW l) (best_spec ALLOW l')).
  destruct (best DENY l None) as [dn|] eqn:E1, (best DENY l' None) as [dn'|] eqn:E2,
    (best ALLOW l None) as [al|] eqn:E3, (best ALLOW l' None) as [al'|] eqn:E4; try done;
    simpl in *; simplify_eq; unfold select_winner, decision; try apply best_effect in E1;
    try apply best_effect in E2; try apply best_effect in E3; try apply best_effect in E4.
  all: repeat match goal with Hx : pol_priority _ = pol_priority _ |- _ => rewrite <-?Hx; clear Hx end.
  all: try destruct (_ <=? _); rewrite ?E1, ?E2, ?E3, ?E4; congruence.
Qed.
End reference.

(** C10 (refinement).  [evaluate_access] implements its documented rule, with
    the side effects of the conditions: it evaluates the conditions of the
    matching policies in order (raising what they raise) and grants access
    exactly when an ALLOW fired whose priority is strictly above the priority
    of every DENY that fired. *)
Theorem evaluate_access_refines `{PyRuntime} {W : Type} `{Services W}
    (pols : list Policy) (path method : string) (ctx : EvaluationContext) (w : W) :
  match collect pols path method ctx w with
  | (inl e, w') => evaluate_access pols path method ctx w = (inl e, w')
  | (inr fired, w') =>
      exists reason, evaluate_access pols path method ctx w = (inr (granted fired, reason), w')
  end.
Proof.
  assert (Hw := walk_collect pols path method ctx None None w).
  unfold evaluate_access, mbind, M_bind in *. rewrite Hw.
  destruct (collect pols path method ctx w) as [[e|fired] w']; [done|]. simpl.
  rewrite <-decide_fired_granted. unfold decide_fired. destruct (decision _); simpl; eauto.
Qed.

(** With conditions that keep no state, the decision and
    its reason do not depend on the order of the effective policies. *)
Theorem evaluate_access_order_independent `{PyRuntime} {W : Type} `{Services W}
    (pols pols' : list Policy) (path method : string) (ctx : EvaluationContext)
    (verdict : Policy -> bool) (w : W) :
  Permutation pols pols' -> stateless (W := W) pols ctx verdict ->
  evaluate_access pols path method ctx w = evaluate_access pols' path method ctx w.
Proof.
  intros Hperm Hst.
  assert (stateless (W := W) pols' ctx verdict) as Hst' by (intros p Hp; apply Hst; by rewrite Hperm).
  unfold evaluate_access, mbind, M_bind. rewrite !walk_collect. unfold mbind, M_bind.
  rewrite (collect_stateless pols _ _ _ verdict), (collect_stateless pols' _ _ _ verdict) by done.
  apply (f_equal (fun x => (inr x, w))). by apply decide_fired_perm, filter_perm.
Qed.

(** Witness of [evaluate_access_order_independent]: the two policies of the demo deployment, swapped. *)
Lemma evaluate_access_order_independent_witness :
  @evaluate_access demo_runtime unit demo_services demo_policies "/stac/catalogs/cat" "GET" demo_ctx tt
  = @evaluate_access demo_runtime unit demo_services (rev demo_policies) "/stac/catalogs/cat" "GET" demo_ctx tt.
Proof.
  apply (@evaluate_access_order_independent demo_runtime unit demo_services demo_policies
    (rev demo_policies) "/stac/catalogs/cat" "GET" demo_ctx
    (fun p => pol_id p ==s "public-read") tt).
  - apply Permutation_rev.
  - by intros p [->|[->|[]%elem_of_nil]%elem_of_cons]%elem_of_cons [].
Defined.
