(* ===== verification/EffectivePolicies.v ===== *)
(** * Effective policies

    [iam/policies.py]: [_resolve_schema], [get_policy],
    [_resolve_collection_internal_id], [_resolve_effective_policies] (flat
    roles, custom policies, resource-scoped grants),
    [_collect_grant_quota_conditions] with [quota_to_conditions] of
    [iam/scale_config.py], and the service-level [evaluate_access] and
    [compile_read_filter] that start from the resolved list.

    Storage, the catalogs protocol and JSON decoding are the class
    [IamBackend].  Python iterates a [set] in an unspecified order: [set_iter]
    is that order, any permutation of the members. *)

From S2P Require Import Prelude AccessFilter AccessPg AttributePredicates Conditions Policies Demo Engine.
From Stdlib Require Import Permutation.

(** ** Backend *)

(** A row of the grants table; [""] stands for a missing kind or reference. *)
Record grant_row : Type := mkGrant {
  gr_id : scalar;
  object_kind : string;
  object_ref : string;
  gr_effect : pyval;
  gr_quota : pyval;
}.

Record catalogs_ops : Type := mkCatalogs {
  resolve_physical_schema : string -> exn + option string;
  resolve_catalog_id : string -> exn + option string;
  resolve_collection_id : string -> string -> exn + option string;
}.

Record iam_ops : Type := mkIam {
  get_role : string -> string -> exn + option (list string);
  resolve_effective_grants :
    option (string -> string -> option string -> exn + list grant_row);
}.

Class IamBackend := {
  catalogs_protocol : option catalogs_ops;
  storage_get_policy : string -> string -> string -> exn + option Policy;
  iam_storage : option iam_ops;
  json_loads : string -> option pyval;
  default_rate_limit : option (list (string * pyval));
  default_quota : option (list (string * pyval));
  set_iter : list string -> list string;
  set_iter_perm : forall l, Permutation (set_iter l) (dict_fromkeys l);
}.

(** ** Schemas and policies *)

(** [_SAFE_SCHEMA_RE]; [$] also matches before a final newline. *)
Fixpoint schema_tail_ok (n : nat) (s : string) : bool :=
  match s with
  | EmptyString => true
  | String "010"%char EmptyString => true
  | String a s' => match n with O => false | S n' => safe_char a && schema_tail_ok n' s' end
  end.

Definition validate_schema_name (schema : string) : exn + string :=
  match schema with
  | String a s' => if key_head_char a && schema_tail_ok 62 s' then inr schema else inl ValueError
  | EmptyString => inl ValueError
  end.

Section resolution.
Context `{IamBackend}.
Implicit Types (catalog_id collection_id : option string) (ids : list string).

Definition resolve_schema catalog_id (strict : bool) : exn + string :=
  match nonempty_str catalog_id with
  | None => inr "iam"
  | Some c =>
      if c ==s "_system_" then inr "iam"
      else match catalogs_protocol with
      | None => inl (if strict then ValueError else OtherError)
      | Some ops =>
          res ← resolve_physical_schema ops c;
          match nonempty_str res with
          | Some s => validate_schema_name s
          | None => if strict then inl ValueError else validate_schema_name "iam"
          end
      end
  end.

Definition get_policy (pid : string) catalog_id : exn + option Policy :=
  schema ← resolve_schema catalog_id false;
  match storage_get_policy pid schema (default "global" (nonempty_str catalog_id)) with
  | inl TableNotFoundError => if schema ==s "iam" then inl TableNotFoundError else inr None
  | r => r
  end.

(** The catalog schema first, then the global one. *)
Definition lookup_policy (pid : string) catalog_id : exn + option Policy :=
  pol ← get_policy pid catalog_id;
  match pol, nonempty_str catalog_id with
  | None, Some _ => get_policy pid None
  | _, _ => inr pol
  end.

(** Any failure keeps the external id. *)
Definition resolve_collection_internal_id catalog_id collection_id : option string :=
  match nonempty_str collection_id, nonempty_str catalog_id, catalogs_protocol with
  | Some col, Some cat, Some ops =>
      match resolve_catalog_id ops cat with
      | inr (Some internal) =>
          match resolve_collection_id ops internal col with
          | inr (Some i) => Some i
          | _ => collection_id
          end
      | _ => collection_id
      end
  | _, _, _ => collection_id
  end.

(** ** Flat roles *)

(** Roles looked up under a list of [(name, schema)]: the union of their
    policy ids, and the names that resolved. *)
Fixpoint fetch_roles (ops : iam_ops) (keys : list (string * string)) (ids resolved : list string)
    : exn + (list string * list string) :=
  match keys with
  | [] => inr (ids, resolved)
  | (name, schema) :: keys' =>
      role ← get_role ops name schema;
      match role with
      | Some pols => fetch_roles ops keys' (ids ++ pols) (resolved ++ [name])
      | None => fetch_roles ops keys' ids resolved
      end
  end.

Definition schemas_to_check (schema : string) : list string :=
  if schema ==s "iam" then ["iam"] else ["iam"; schema].

Definition role_keys (schemas principals : list string) : list (string * string) :=
  flat_map (fun s => map (fun p => (p, s)) (List.filter (fun p => negb (p ==s "")) principals)) schemas.

Fixpoint fetch_policies (pids : list string) catalog_id : exn + list Policy :=
  match pids with
  | [] => inr []
  | pid :: pids' =>
      pol ← lookup_policy pid catalog_id;
      rest ← fetch_policies pids' catalog_id;
      mret (match pol with Some p => p :: rest | None => rest end)
  end.

(** ** Grants *)

(** [rows.setdefault(ref, row)] over the rows of a kind: the first row wins. *)
Fixpoint first_rows (kind : string) (rows : list grant_row) (acc : list (string * grant_row))
    : list (string * grant_row) :=
  match rows with
  | [] => acc
  | row :: rows' =>
      if (object_kind row ==s kind) && negb (object_ref row ==s "") then
        match dict_get (object_ref row) acc with
        | Some _ => first_rows kind rows' acc
        | None => first_rows kind rows' (acc ++ [(object_ref row, row)])
        end
      else first_rows kind rows' acc
  end.

Context `{PyRuntime}.

Definition is_deny_grant (row : grant_row) : bool :=
  str_lower (py_str (if truthy (gr_effect row) then gr_effect row else VStr "allow")) ==s "deny".

(** [pol.model_copy(update={"effect": "DENY"})] for a deny grant. *)
Definition contribute (row : grant_row) (p : Policy) : Policy :=
  if is_deny_grant row
  then mkPolicy (pol_id p) DENY (pol_priority p) (actions p) (resources p) (conditions p)
  else p.

(** The grant step mutates [effective_policies] inside a [try]: the list built
    so far and whether an exception ended the step. *)
Fixpoint grant_policies (pids : list string) catalog_id (row : grant_row) (eff : list Policy)
    : list Policy * bool :=
  match pids with
  | [] => (eff, false)
  | pid :: pids' =>
      match lookup_policy pid catalog_id with
      | inl _ => (eff, true)
      | inr None => grant_policies pids' catalog_id row eff
      | inr (Some p) => grant_policies pids' catalog_id row (eff ++ [contribute row p])
      end
  end.

Fixpoint role_grants (ops : iam_ops) (names schemas : list string)
    (role_rows : list (string * grant_row)) catalog_id (eff : list Policy) : list Policy * bool :=
  match names with
  | [] => (eff, false)
  | name :: names' =>
      match dict_get name role_rows, fetch_roles ops (map (fun s => (name, s)) schemas) [] [] with
      | Some row, inr (ids, _) =>
          match grant_policies (set_iter ids) catalog_id row eff with
          | (eff', true) => (eff', true)
          | (eff', false) => role_grants ops names' schemas role_rows catalog_id eff'
          end
      | _, _ => (eff, true)
      end
  end.

Fixpoint policy_grants (pids : list string) (policy_rows : list (string * grant_row)) catalog_id
    (seen : list string) (eff : list Policy) : list Policy * bool :=
  match pids with
  | [] => (eff, false)
  | pid :: pids' =>
      if str_mem pid seen then policy_grants pids' policy_rows catalog_id seen eff
      else match lookup_policy pid catalog_id, dict_get pid policy_rows with
      | inr None, _ => policy_grants pids' policy_rows catalog_id seen eff
      | inr (Some p), Some row =>
          policy_grants pids' policy_rows catalog_id (pol_id p :: seen) (eff ++ [contribute row p])
      | _, _ => (eff, true)
      end
  end.

Definition grant_step (ops : iam_ops) (rows : list grant_row) (resolved schemas : list string)
    catalog_id (base : list Policy) : list Policy * bool :=
  let role_rows := first_rows "role" rows [] in
  let names := set_iter (List.filter (fun n => negb (str_mem n resolved)) (map fst role_rows)) in
  match role_grants ops names schemas role_rows catalog_id base with
  | (eff, true) => (eff, true)
  | (eff, false) =>
      let policy_rows := first_rows "policy" rows [] in
      policy_grants (set_iter (map fst policy_rows)) policy_rows catalog_id (map pol_id eff) eff
  end.

(** ** [_resolve_effective_policies] *)

(** Steps 1-3: flat roles, their policies, the custom policies; with the names
    of the resolved roles. *)
Definition base_policies (principals : list string) (schema : string) catalog_id
    (custom_policies : list Policy) : exn + (list Policy * list string) :=
  '(ids, resolved) ← (match iam_storage with
                      | Some ops => fetch_roles ops (role_keys (schemas_to_check schema) principals) [] []
                      | None => inr ([], [])
                      end);
  pols ← fetch_policies (set_iter ids) catalog_id;
  mret (pols ++ custom_policies, resolved).

Definition resolve_effective_policies (principals : list string) (schema : string) catalog_id
    (custom_policies : list Policy) (principal_id : option string) collection_id : exn + list Policy :=
  '(base, resolved) ← base_policies principals schema catalog_id custom_policies;
  match principal_id, iam_storage with
  | Some pid, Some ops =>
      match resolve_effective_grants ops with
      | Some resolve =>
          match resolve pid schema (resolve_collection_internal_id catalog_id collection_id) with
          | inl _ => inr base
          | inr rows => inr (grant_step ops rows resolved (schemas_to_check schema) catalog_id base).1
          end
      | None => inr base
      end
  | _, _ => inr base
  end.
End resolution.

(** ** Quotas of grants *)

(** The part of [ctx.extras] the quota step fills: the synthesised conditions,
    each with the counter namespace stamped for its config, and the ids of the
    grants already handled. *)
Record quota_extras : Type := mkExtras {
  quota_conditions : list (Condition * string);
  seen_grant_ids : list scalar;
}.

Section quotas.
Context `{IamBackend} `{PyRuntime}.

Definition quota_namespace (grant_id : scalar) : string := "grant:" +:+ py_str (scalar_py grant_id).

(** [grant_id in seen]. *)
Definition id_seen (grant_id : scalar) (seen : list scalar) : bool :=
  existsb (fun i => py_eq (scalar_py grant_id) (scalar_py i)) seen.

(** One of the two specs of a quota: the grant's own, else the platform
    default; no condition when the limit is not positive. *)
Definition quota_condition (ty : string) (spec : pyval) (dflt : option (list (string * pyval)))
    (namespace : string) : exn + list (Condition * string) :=
  match (match spec with VDict d => Some d | _ => dflt end) with
  | None => inr []
  | Some cfg =>
      let limit := cfg_get_or cfg "limit" (VInt 0) in
      match py_int (if truthy limit then limit else VInt 0) with
      | None => inl OtherError
      | Some n =>
          if n <=? 0 then inr []
          else
            let cfg' := match dict_get "scope" cfg with
                        | Some _ => cfg
                        | None => cfg ++ [("scope", VStr "principal")]
                        end in
            inr [(mkCond ty cfg' [] None, namespace)]
      end
  end.

Definition quota_to_conditions (quota : list (string * pyval)) (namespace : string)
    (rate_dflt quota_dflt : option (list (string * pyval))) : exn + list (Condition * string) :=
  rate ← quota_condition "rate_limit" (cfg_get quota "rate_limit") rate_dflt namespace;
  count ← quota_condition "max_count" (cfg_get quota "max_count") quota_dflt namespace;
  mret (rate ++ count).

(** The decoded [quota] of a row; anything but an object is no quota. *)
Definition decode_quota (raw : pyval) : list (string * pyval) :=
  match (match raw with VStr s => json_loads s | _ => Some raw end) with
  | Some (VDict d) => d
  | _ => []
  end.

(** The loop over the grants.  The extras are mutated in place: they survive
    the exception that ends the loop. *)
Fixpoint collect_quota_loop (rows : list grant_row) (x : quota_extras) : (exn + ()) * quota_extras :=
  match rows with
  | [] => (inr (), x)
  | row :: rows' =>
      if is_deny_grant row then collect_quota_loop rows' x
      else if id_seen (gr_id row) (seen_grant_ids x) then collect_quota_loop rows' x
      else
        let seen := gr_id row :: seen_grant_ids x in
        match quota_to_conditions (decode_quota (gr_quota row)) (quota_namespace (gr_id row))
                default_rate_limit default_quota with
        | inl e => (inl e, mkExtras (quota_conditions x) seen)
        | inr conds => collect_quota_loop rows' (mkExtras (quota_conditions x ++ conds) seen)
        end
  end.

Definition collect_grant_quota_conditions (rows : list grant_row) (x : quota_extras)
    : (exn + ()) * quota_extras :=
  if negb (existsb (fun r => truthy (gr_quota r)) rows) &&
     match default_rate_limit, default_quota with None, None => true | _, _ => false end
  then (inr (), x)
  else collect_quota_loop rows x.
End quotas.

(** ** The service operations *)

Section service.
Context `{IamBackend} `{PyRuntime} {W : Type} `{Services W}.

Definition lift_err {A} (e : exn + A) : M W A := fun w => (e, w).

(** [PolicyService.evaluate_access]. *)
Definition service_evaluate_access (principals : list string) (path method : string)
    (ctx : EvaluationContext) (catalog_id : option string) (custom_policies : list Policy)
    (principal_id collection_id : option string) : M W (bool * string) :=
  schema ← lift_err (resolve_schema catalog_id false);
  pols ← lift_err (resolve_effective_policies principals schema catalog_id custom_policies
                     principal_id collection_id);
  evaluate_access pols path method ctx.

(** [PolicyService.evaluate_policy_statements]: inline statements, where a
    DENY that fires ends the evaluation. *)
Fixpoint statements_loop (stmts : list Policy) (method path : string) (ctx : EvaluationContext)
    (has_allow_match : bool) : M W bool :=
  match stmts with
  | [] => mret has_allow_match
  | s :: stmts' =>
      if method_match s method && matches_resource s path then
        met ← evaluate_all (conditions s) None ctx;
        if met : bool then
          match pol_effect s with
          | DENY => mret false
          | ALLOW => statements_loop stmts' method path ctx true
          end
        else statements_loop stmts' method path ctx has_allow_match
      else statements_loop stmts' method path ctx has_allow_match
  end.

Definition evaluate_policy_statements (statements : list Policy) (method path : string)
    (ctx : EvaluationContext) : M W bool :=
  match statements with
  | [] => mret true
  | _ => statements_loop statements method path ctx false
  end.

(** [PolicyService.compile_read_filter]; [attr_rows] are the grant rows as the
    attribute-predicate step decodes them. *)
Definition service_compile_read_filter (principals : list string) (catalog_id collection_id asset_id : option string)
    (attributes : list (string * pyval)) (custom_policies : list Policy) (principal_id : option string)
    (r : registry) (attr_rows : option (list (option (list raw_predicate)))) : exn + AccessFilter :=
  schema ← resolve_schema catalog_id false;
  pols ← resolve_effective_policies principals schema catalog_id custom_policies
           principal_id collection_id;
  compile_read_filter pols attributes r attr_rows catalog_id collection_id asset_id.
End service.

(** ** What the grant step adds *)

Section grants_add.
Context `{IamBackend} `{PyRuntime}.
Implicit Types (eff base : list Policy) (catalog_id : option string) (row : grant_row).

Lemma grant_policies_spec pids catalog_id row eff :
  exists extra, (grant_policies pids catalog_id row eff).1 = eff ++ extra /\
    forall p, p ∈ extra -> exists pid q, pid ∈ pids /\ lookup_policy pid catalog_id = inr (Some q) /\
      p = contribute row q.
Proof.
  revert eff. induction pids as [|pid pids IH]; intros eff; simpl.
  { exists []. split; [by rewrite app_nil_r|set_solver]. }
  destruct (lookup_policy pid catalog_id) as [|[q|]] eqn:El; simpl.
  - exists []. split; [by rewrite app_nil_r|set_solver].
  - destruct (IH (eff ++ [contribute row q])) as (extra & -> & Hex).
    exists (contribute row q :: extra). split; [by rewrite <-app_assoc|].
    intros p [->|Hp]%elem_of_cons; [exists pid, q; set_solver|].
    destruct (Hex p Hp) as (pid' & q' & ? & ? & ?). exists pid', q'. set_solver.
  - destruct (IH eff) as (extra & -> & Hex). exists extra. split; [done|].
    intros p Hp. destruct (Hex p Hp) as (pid' & q' & ? & ? & ?). exists pid', q'. set_solver.
Qed.

Lemma grant_policies_complete pids catalog_id row eff eff' :
  grant_policies pids catalog_id row eff = (eff', false) ->
  (forall p, p ∈ eff -> p ∈ eff') /\
  forall pid q, pid ∈ pids -> lookup_policy pid catalog_id = inr (Some q) -> contribute row q ∈ eff'.
Proof.
  revert eff. induction pids as [|pid pids IH]; intros eff; simpl.
  { intros [= <-]. split; [done|set_solver]. }
  destruct (lookup_policy pid catalog_id) as [|[q|]] eqn:El; [done| |].
  - intros [Hsub Hall]%IH. split; [set_solver|].
    intros pid' q' [->|Hp]%elem_of_cons Hl; [|by eapply Hall].
    rewrite El in Hl. simplify_eq. set_solver.
  - intros [Hsub Hall]%IH. split; [done|].
    intros pid' q' [->|Hp]%elem_of_cons Hl; [congruence|by eapply Hall].
Qed.

(** Rows collected by [first_rows] are rows of the kind, keyed by reference. *)
Lemma first_rows_spec kind rows acc ref row :
  dict_get ref (first_rows kind rows acc) = Some row ->
  dict_get ref acc = Some row \/
  row ∈ rows /\ object_kind row = kind /\ object_ref row = ref.
Proof.
  revert acc. induction rows as [|r rows IH]; intros acc; simpl; [by left|].
  destruct ((object_kind r ==s kind) && negb (object_ref r ==s "")) eqn:Ek.
  - destruct (dict_get (object_ref r) acc) as [r0|] eqn:Er; intros [?|[? ?]]%IH;
      [by left|right; set_solver| |right; set_solver].
    rewrite dict_get_app in *. destruct (dict_get ref acc); [by left|]. right. simpl in *.
    destruct (ref ==s object_ref r) eqn:E; bool_hyps; simplify_eq. set_solver.
  - intros [?|[? ?]]%IH; [by left|right; set_solver].
Qed.

Lemma fetch_roles_spec ops keys ids resolved ids' resolved' :
  fetch_roles ops keys ids resolved = inr (ids', resolved') ->
  forall pid, pid ∈ ids' <-> pid ∈ ids \/
    exists name s pols, (name, s) ∈ keys /\ get_role ops name s = inr (Some pols) /\ pid ∈ pols.
Proof.
  revert ids resolved. induction keys as [|[name s] keys IH]; intros ids resolved; simpl.
  { intros [= <- <-] pid. split; [auto|]. intros [?|(? & ? & ? & ?%elem_of_nil & _)]; done. }
  unfold mbind, err_bind. destruct (get_role ops name s) as [|[pols|]] eqn:Er; [done| |];
    intros Hf pid; rewrite (IH _ _ Hf pid), ?elem_of_app; split.
  - intros [[?|?]|(n & s' & ps & ? & ? & ?)]; [by left|right; exists name, s, pols; set_solver|].
    right. exists n, s', ps. set_solver.
  - intros [?|(n & s' & ps & [[= -> ->]|?]%elem_of_cons & Hg & ?)]; [auto|left; right; congruence|].
    right. by exists n, s', ps.
  - intros [?|(n & s' & ps & ? & ? & ?)]; [by left|]. right. exists n, s', ps. set_solver.
  - intros [?|(n & s' & ps & [[= -> ->]|?]%elem_of_cons & Hg & ?)]; [auto|congruence|].
    right. by exists n, s', ps.
Qed.

Lemma elem_of_set_iter x l : x ∈ set_iter l <-> x ∈ l.
Proof. rewrite (set_iter_perm l), <-!str_mem_In. by rewrite str_mem_dict_fromkeys. Qed.

Context (ops : iam_ops) (rows : list grant_row) (resolved schemas : list string) (catalog_id : option string).

(** [p] is the contribution of a grant row: of a policy it names, or of a
    policy of the role it names. *)
Definition from_grant (p : Policy) : Prop :=
  exists row pid q,
    row ∈ rows /\ lookup_policy pid catalog_id = inr (Some q) /\ p = contribute row q /\
    (object_kind row = "policy" /\ object_ref row = pid \/
     object_kind row = "role" /\ object_ref row ∉ resolved /\
     exists s pols, s ∈ schemas /\ get_role ops (object_ref row) s = inr (Some pols) /\ pid ∈ pols).

Lemma role_grants_spec names role_rows eff :
  (forall n, n ∈ names -> n ∉ resolved) ->
  (forall n row, dict_get n role_rows = Some row ->
     row ∈ rows /\ object_kind row = "role" /\ object_ref row = n) ->
  exists extra, (role_grants ops names schemas role_rows catalog_id eff).1 = eff ++ extra /\
    forall p, p ∈ extra -> from_grant p.
Proof.
  revert eff. induction names as [|n names IH]; intros eff Hn Hrows; simpl.
  { exists []. split; [by rewrite app_nil_r|set_solver]. }
  assert (Hnil : exists extra, eff = eff ++ extra /\ forall p, p ∈ extra -> from_grant p)
    by (exists []; split; [by rewrite app_nil_r|set_solver]).
  destruct (dict_get n role_rows) as [row|] eqn:Ed; [|done].
  destruct (fetch_roles ops _ [] []) as [|[ids res]] eqn:Ef; [done|].
  destruct (Hrows n row Ed) as (Hrow & Hkind & Href).
  destruct (grant_policies_spec (set_iter ids) catalog_id row eff) as (extra1 & Heff & Hex1).
  assert (Hfrom : forall p, p ∈ extra1 -> from_grant p).
  { intros p Hp. destruct (Hex1 p Hp) as (pid & q & Hpid & Hl & ->).
    apply elem_of_set_iter, (fetch_roles_spec _ _ _ _ _ _ Ef) in Hpid as
      [?%elem_of_nil|(n' & s & pols & Hin & Hg & Hp')]; [done|].
    apply list_elem_of_fmap in Hin as (s' & [= -> ->] & Hs).
    exists row, pid, q. split_and!; [done..|right]. rewrite Href.
    split_and!; [done|set_solver|by exists s', pols]. }
  destruct (grant_policies (set_iter ids) catalog_id row eff) as [eff' []]; simpl in *; subst.
  - by exists extra1.
  - destruct (IH (eff ++ extra1)) as (extra2 & -> & Hex2); [set_solver|done|].
    exists (extra1 ++ extra2). split; [by rewrite app_assoc|]. set_solver.
Qed.

Lemma policy_grants_spec pids policy_rows seen eff :
  (forall n row, dict_get n policy_rows = Some row ->
     row ∈ rows /\ object_kind row = "policy" /\ object_ref row = n) ->
  exists extra, (policy_grants pids policy_rows catalog_id seen eff).1 = eff ++ extra /\
    forall p, p ∈ extra -> from_grant p.
Proof.
  intros Hrows. revert seen eff. induction pids as [|pid pids IH]; intros seen eff; simpl.
  { exists []. split; [by rewrite app_nil_r|set_solver]. }
  assert (Hnil : exists extra, eff = eff ++ extra /\ forall p, p ∈ extra -> from_grant p)
    by (exists []; split; [by rewrite app_nil_r|set_solver]).
  destruct (str_mem pid seen); [apply IH|].
  destruct (lookup_policy pid catalog_id) as [|[q|]] eqn:El; [done| |apply IH].
  destruct (dict_get pid policy_rows) as [row|] eqn:Ed; [|done].
  destruct (Hrows pid row Ed) as (Hrow & Hkind & Href).
  destruct (IH (pol_id q :: seen) (eff ++ [contribute row q])) as (extra & -> & Hex).
  exists (contribute row q :: extra). split; [by rewrite <-app_assoc|].
  intros p [->|Hp]%elem_of_cons; [|by apply Hex].
  exists row, pid, q. split_and!; [done..|by left].
Qed.

Lemma grant_step_spec base :
  exists extra, (grant_step ops rows resolved schemas catalog_id base).1 = base ++ extra /\
    forall p, p ∈ extra -> from_grant p.
Proof.
  assert (Hrows : forall kind n row, dict_get n (first_rows kind rows []) = Some row ->
     row ∈ rows /\ object_kind row = kind /\ object_ref row = n)
    by by intros kind n row [?|?]%first_rows_spec.
  unfold grant_step.
  destruct (role_grants_spec
    (set_iter (List.filter (fun n => negb (str_mem n resolved)) (map fst (first_rows "role" rows []))))
    (first_rows "role" rows []) base) as (extra1 & Hr & Hex1); [|by apply Hrows|].
  { intros n Hn. apply elem_of_set_iter, list_elem_of_In, filter_In in Hn as [_ Hn]; bool_hyps.
    rewrite <-str_mem_In. congruence. }
  destruct (role_grants _ _ _ _ _ _) as [eff []]; simpl in *; subst; [by exists extra1|].
  destruct (policy_grants_spec (set_iter (map fst (first_rows "policy" rows [])))
    (first_rows "policy" rows []) (map pol_id (base ++ extra1)) (base ++ extra1))
    as (extra2 & -> & Hex2); [by apply Hrows|].
  exists (extra1 ++ extra2). split; [by rewrite app_assoc|]. set_solver.
Qed.

(** The contribution of a role grant that is in force is in the result. *)
Lemma role_grants_complete names role_rows eff eff' n row s pols pid q :
  role_grants ops names schemas role_rows catalog_id eff = (eff', false) ->
  (forall p, p ∈ eff -> p ∈ eff') /\
  (n ∈ names -> dict_get n role_rows = Some row -> s ∈ schemas ->
   get_role ops n s = inr (Some pols) -> pid ∈ pols -> lookup_policy pid catalog_id = inr (Some q) ->
   contribute row q ∈ eff').
Proof.
  revert eff. induction names as [|m names IH]; intros eff; simpl.
  { intros [= <-]. split; [done|set_solver]. }
  destruct (dict_get m role_rows) as [row'|] eqn:Ed; [|done].
  destruct (fetch_roles ops _ [] []) as [|[ids res]] eqn:Ef; [done|].
  destruct (grant_policies (set_iter ids) catalog_id row' eff) as [eff1 []] eqn:Eg; [done|].
  destruct (grant_policies_complete _ _ _ _ _ Eg) as [Hsub1 Hall1].
  intros [Hsub Hall]%IH. split; [auto|].
  intros [->|Hn]%elem_of_cons Hd Hs Hg Hp Hl; [|by apply Hall].
  rewrite Ed in Hd. simplify_eq. apply Hsub, (Hall1 pid q); [|done].
  apply elem_of_set_iter, (fetch_roles_spec _ _ _ _ _ _ Ef). right. exists m, s, pols.
  split_and!; [|done..]. apply list_elem_of_fmap. by exists s.
Qed.

Lemma policy_grants_keeps pids policy_rows seen eff p :
  p ∈ eff -> p ∈ (policy_grants pids policy_rows catalog_id seen eff).1.
Proof.
  revert seen eff. induction pids as [|pid pids IH]; intros seen eff Hp; simpl; [done|].
  destruct (str_mem pid seen); [by apply IH|].
  destruct (lookup_policy pid catalog_id) as [|[q|]]; [done| |by apply IH].
  destruct (dict_get pid policy_rows); [|done]. apply IH. set_solver.
Qed.

Lemma grant_step_role_complete base eff n row s pols pid q :
  grant_step ops rows resolved schemas catalog_id base = (eff, false) ->
  dict_get n (first_rows "role" rows []) = Some row -> n ∉ resolved -> s ∈ schemas ->
  get_role ops n s = inr (Some pols) -> pid ∈ pols -> lookup_policy pid catalog_id = inr (Some q) ->
  contribute row q ∈ eff.
Proof.
  unfold grant_step. intros Hstep Hd Hres Hs Hg Hp Hl.
  destruct (role_grants _ _ _ _ _ _) as [eff1 []] eqn:Er; [done|].
  destruct (role_grants_complete _ _ _ _ n row s pols pid q Er) as [_ Hin].
  change eff with (eff, false).1. rewrite <-Hstep. apply policy_grants_keeps, Hin; try done.
  apply elem_of_set_iter, list_elem_of_In, filter_In. split.
  - apply list_elem_of_In. by eapply dict_get_in_keys.
  - apply negb_true_iff, not_true_iff_false. by rewrite str_mem_In.
Qed.
End grants_add.

Section service_lemmas.
Context `{IamBackend} `{PyRuntime} {W : Type} `{Services W}.

Lemma granted_false fired p :
  p ∈ fired -> pol_effect p = DENY ->
  (forall q, q ∈ fired -> pol_effect q = ALLOW -> pol_priority q <= pol_priority p) ->
  granted fired = false.
Proof.
  intros Hp He Hmax. apply not_true_iff_false. rewrite granted_spec.
  intros (q & Hq & Eq & Hlt). specialize (Hlt p Hp He). specialize (Hmax q Hq Eq). lia.
Qed.

Lemma evaluate_access_stateless pols path method ctx verdict (w : W) :
  stateless (W := W) pols ctx verdict ->
  evaluate_access pols path method ctx w =
  (inr (decide_fired (List.filter (fun p => method_match p method && matches_resource p path && verdict p)
                        pols)), w).
Proof.
  intros Hst. unfold evaluate_access, mbind, M_bind. rewrite walk_collect. unfold mbind, M_bind.
  by rewrite (collect_stateless _ _ _ _ verdict).
Qed.

Lemma contribute_deny row q :
  is_deny_grant row = true -> pol_effect (contribute row q) = DENY /\
  (forall m, method_match (contribute row q) m = method_match q m) /\
  (forall r, matches_resource (contribute row q) r = matches_resource q r) /\
  pol_priority (contribute row q) = pol_priority q.
Proof. unfold contribute. by intros ->. Qed.

(** Running the loop again over rows it has seen changes nothing. *)
Lemma id_seen_refl i l : id_seen i (i :: l) = true.
Proof. unfold id_seen; simpl. destruct i; simpl; rewrite ?Z.eqb_refl, ?String.eqb_refl; by try destruct b. Qed.

Lemma collect_quota_seen rows x x' :
  collect_quota_loop rows x = (inr (), x') ->
  (forall i, id_seen i (seen_grant_ids x) = true -> id_seen i (seen_grant_ids x') = true) /\
  forall row, row ∈ rows -> is_deny_grant row = false -> id_seen (gr_id row) (seen_grant_ids x') = true.
Proof.
  revert x. induction rows as [|row rows IH]; intros x; simpl.
  { intros [= <-]. split; [done|set_solver]. }
  destruct (is_deny_grant row) eqn:Ed.
  { intros [Hm Hs]%IH. split; [done|]. intros r [->|Hr]%elem_of_cons; [congruence|auto]. }
  destruct (id_seen (gr_id row) (seen_grant_ids x)) eqn:Es.
  { intros [Hm Hs]%IH. split; [done|]. intros r [->|Hr]%elem_of_cons ?; auto. }
  destruct (quota_to_conditions _ _ _ _) as [|conds]; [done|].
  intros [Hm Hs]%IH. simpl in Hm. split.
  - intros i Hi. apply Hm. unfold id_seen in *. simpl. by rewrite Hi, orb_true_r.
  - intros r [->|Hr]%elem_of_cons ?; [|auto]. apply Hm, id_seen_refl.
Qed.

Lemma collect_quota_idle rows x :
  (forall row, row ∈ rows -> is_deny_grant row = false -> id_seen (gr_id row) (seen_grant_ids x) = true) ->
  collect_quota_loop rows x = (inr (), x).
Proof.
  induction rows as [|row rows IH]; intros Hs; simpl; [done|].
  destruct (is_deny_grant row) eqn:Ed; [apply IH; set_solver|].
  rewrite Hs by (done || apply list_elem_of_here). apply IH. set_solver.
Qed.

(** Statements: a DENY that fires forces the answer. *)
Definition stmt_fires (method path : string) (verdict : Policy -> bool) (s : Policy) : bool :=
  method_match s method && matches_resource s path && verdict s.

Definition stmts_stateless (stmts : list Policy) (ctx : EvaluationContext) (verdict : Policy -> bool) : Prop :=
  forall s, s ∈ stmts -> pure_result (W := W) (evaluate_all (conditions s) None ctx) (verdict s).

Lemma statements_loop_spec stmts method path ctx verdict has w :
  stmts_stateless stmts ctx verdict ->
  statements_loop stmts method path ctx has w =
  (inr (negb (existsb (fun s => stmt_fires method path verdict s && bool_decide (pol_effect s = DENY)) stmts) &&
        (has || existsb (stmt_fires method path verdict) stmts)), w).
Proof.
  revert has. induction stmts as [|s stmts IH]; intros has Hst; simpl.
  { unfold mret, M_ret. by rewrite orb_false_r. }
  assert (stmts_stateless stmts ctx verdict) as Hst' by (intros q Hq; apply Hst; set_solver).
  unfold stmt_fires at 1 3.
  destruct (method_match s method && matches_resource s path); simpl; [|by apply IH].
  rewrite (bind_pure _ _ (verdict s)) by (apply Hst, list_elem_of_here).
  destruct (verdict s); simpl; [|by apply IH].
  destruct (pol_effect s); simpl; [|done]. rewrite IH by done. simpl. by rewrite orb_true_r.
Qed.
End service_lemmas.

(** ** Properties *)

(** Resource-scoped grants only add policies, and a failure of
    the grant step never aborts the request: the resolved list is the flat
    roles' policies and the custom policies, followed by policies each of
    which is the contribution of a grant row of the principal in this scope. *)
Theorem resolve_effective_policies_only_adds `{IamBackend} `{PyRuntime}
    (principals : list string) (schema : string) (catalog_id : option string)
    (custom_policies base : list Policy) (principal_id collection_id : option string)
    (resolved : list string) :
  base_policies principals schema catalog_id custom_policies = inr (base, resolved) ->
  exists extra,
    resolve_effective_policies principals schema catalog_id custom_policies principal_id collection_id
      = inr (base ++ extra) /\
    forall p, p ∈ extra -> exists pid ops resolve rows,
      principal_id = Some pid /\ iam_storage = Some ops /\
      resolve_effective_grants ops = Some resolve /\
      resolve pid schema (resolve_collection_internal_id catalog_id collection_id) = inr rows /\
      from_grant ops rows resolved (schemas_to_check schema) catalog_id p.
Proof.
  intros Hbase. unfold resolve_effective_policies. rewrite Hbase. simpl.
  assert (Hnil : forall P : Policy -> Prop,
    exists extra, (inr base : exn + list Policy) = inr (base ++ extra) /\ forall p, p ∈ extra -> P p)
    by (intros P; exists []; split; [by rewrite app_nil_r|set_solver]).
  destruct principal_id as [pid|]; [|apply Hnil].
  destruct iam_storage as [ops|] eqn:Eo; [|apply Hnil].
  destruct (resolve_effective_grants ops) as [resolve|] eqn:Er; [|apply Hnil].
  destruct (resolve _ _ _) as [|rows] eqn:Eg; [apply Hnil|].
  destruct (grant_step_spec ops rows resolved (schemas_to_check schema) catalog_id base)
    as (extra & -> & Hex).
  exists extra. split; [done|]. intros p Hp. exists pid, ops, resolve, rows. by split_and!; auto.
Qed.

(** C23 (safety).  A deny grant on a role is enforced end to end: when its row is the
    first of the role among the effective grants, the role is not one the principal
    already has by name, the grant step does not fail, and the conditions of the
    policies in force are stateless, then a request matched by a policy of the role
    whose conditions hold is denied, whatever the stored effect of that policy, unless
    an ALLOW of strictly higher priority is in force. *)
Theorem deny_grant_enforced `{IamBackend} `{PyRuntime} {W : Type} `{Services W}
    (principals : list string) (path method schema : string) (ctx : EvaluationContext)
    (catalog_id : option string) (custom_policies base eff : list Policy) (principal : string)
    (collection_id : option string) (resolved pols : list string) (ops : iam_ops)
    (resolve : string -> string -> option string -> exn + list grant_row) (rows : list grant_row)
    (role s pid : string) (row : grant_row) (q : Policy) (verdict : Policy -> bool) (w : W) :
  resolve_schema catalog_id false = inr schema ->
  base_policies principals schema catalog_id custom_policies = inr (base, resolved) ->
  iam_storage = Some ops -> resolve_effective_grants ops = Some resolve ->
  resolve principal schema (resolve_collection_internal_id catalog_id collection_id) = inr rows ->
  grant_step ops rows resolved (schemas_to_check schema) catalog_id base = (eff, false) ->
  dict_get role (first_rows "role" rows []) = Some row -> is_deny_grant row = true ->
  role ∉ resolved -> s ∈ schemas_to_check schema -> get_role ops role s = inr (Some pols) ->
  pid ∈ pols -> lookup_policy pid catalog_id = inr (Some q) ->
  method_match q method = true -> matches_resource q path = true ->
  stateless (W := W) eff ctx verdict -> verdict (contribute row q) = true ->
  (forall p, p ∈ eff -> pol_effect p = ALLOW -> pol_priority p <= pol_priority q) ->
  exists reason,
    service_evaluate_access principals path method ctx catalog_id custom_policies
      (Some principal) collection_id w = (inr (false, reason), w).
Proof.
  intros Hs Hb Hops Hres Hrows Hstep Hrow Hdeny Hnot Hsch Hrole Hpid Hl Hm Hr Hst Hv Hmax.
  assert (Hin := grant_step_role_complete _ _ _ _ _ _ _ _ _ _ _ _ _ Hstep Hrow Hnot Hsch Hrole Hpid Hl).
  destruct (contribute_deny row q Hdeny) as (He & Hcm & Hcr & Hprio).
  unfold service_evaluate_access, resolve_effective_policies, mbind, M_bind, lift_err.
  rewrite Hs, Hb. simpl. rewrite Hops, Hres, Hrows, Hstep. simpl.
  rewrite (evaluate_access_stateless _ _ _ _ verdict) by done.
  match goal with |- context [decide_fired ?f] =>
    assert (granted f = false) as Hg; [|rewrite <-decide_fired_granted in Hg; destruct (decide_fired f)] end.
  - apply (granted_false _ (contribute row q)); [|done|].
    + apply list_elem_of_In, filter_In. by rewrite <-list_elem_of_In, Hcm, Hcr, Hm, Hr, Hv.
    + intros p Hp%list_elem_of_In. apply filter_In in Hp as [Hp%list_elem_of_In _].
      rewrite Hprio. auto.
  - simpl in Hg; subst. eauto.
Qed.

(** A second resolution pass over the same request context
    never appends a grant's quota conditions twice. *)
Theorem collect_grant_quota_idempotent `{IamBackend} `{PyRuntime}
    (rows : list grant_row) (x x' : quota_extras) :
  collect_grant_quota_conditions rows x = (inr (), x') ->
  collect_grant_quota_conditions rows x' = (inr (), x').
Proof.
  unfold collect_grant_quota_conditions. destruct (_ && _); [by intros [= <-]|].
  intros [_ Hseen]%collect_quota_seen. by apply collect_quota_idle.
Qed.

(** Inline statements: with conditions that keep no state,
    the answer is true exactly when there is no statement at all, or some
    statement fired and none of the fired ones is a DENY. *)
Theorem evaluate_policy_statements_spec `{IamBackend} `{PyRuntime} {W : Type} `{Services W}
    (stmts : list Policy) (method path : string) (ctx : EvaluationContext)
    (verdict : Policy -> bool) (w : W) :
  stmts_stateless (W := W) stmts ctx verdict ->
  exists b, evaluate_policy_statements stmts method path ctx w = (inr b, w) /\
    (b = true <->
     stmts = [] \/
     (exists s, s ∈ stmts /\ stmt_fires method path verdict s = true) /\
     forall s, s ∈ stmts -> stmt_fires method path verdict s = true -> pol_effect s = ALLOW).
Proof.
  intros Hst. destruct stmts as [|s0 stmts]; [exists true; split; [done|by split; auto]|].
  unfold evaluate_policy_statements. rewrite (statements_loop_spec _ _ _ _ verdict) by done. eexists; split; [done|].
  rewrite orb_false_l, andb_true_iff, negb_true_iff, existsb_none, existsb_elem.
  split.
  - intros [Hno Hyes]. right. split; [done|]. intros s Hs Hf. specialize (Hno s Hs).
    rewrite Hf in Hno. by destruct (pol_effect s).
  - intros [?|[Hyes Hall]]; [done|]. split; [|done]. intros s Hs.
    destruct (stmt_fires method path verdict s) eqn:Ef; [|done]. by rewrite (Hall s Hs Ef).
Qed.

(** ** Witnesses *)

Definition demo_read : Policy := mkPolicy "read" ALLOW 0 ["GET"] ["/stac/.*"] [].

(** Two roles of the global schema that hold the policy [read]; the grants of
    every principal are [rows]. *)
Definition demo_ops (rows : list grant_row) : iam_ops :=
  mkIam (fun name schema =>
           inr (if ((name ==s "reader") || (name ==s "editor")) && (schema ==s "iam")
                then Some ["read"] else None))
        (Some (fun _ _ _ => inr rows)).

Definition demo_backend (rows : list grant_row) : IamBackend := {|
  catalogs_protocol := Some (mkCatalogs (fun c => inr (Some ("t_" +:+ c))) (fun c => inr (Some c))
                                        (fun _ c => inr (Some c)));
  storage_get_policy pid schema _ :=
    inr (if (pid ==s "read") && (schema ==s "iam") then Some demo_read else None);
  iam_storage := Some (demo_ops rows);
  json_loads _ := None;
  default_rate_limit := None;
  default_quota := None;
  set_iter := dict_fromkeys;
  set_iter_perm l := Permutation_refl _;
|}.

Definition deny_editor : grant_row := mkGrant (SStr "g1") "role" "editor" (VStr "deny") VNone.
Definition allow_editor : grant_row := mkGrant (SStr "g0") "role" "editor" (VStr "allow") VNone.
Definition demo_read_deny : Policy := mkPolicy "read" DENY 0 ["GET"] ["/stac/.*"] [].

(** Witness of [resolve_effective_policies_only_adds]. *)
Lemma resolve_effective_policies_only_adds_witness :
  exists extra,
    @resolve_effective_policies (demo_backend [deny_editor]) demo_runtime ["reader"] "t_cat" (Some "cat") []
      (Some "u") None = inr ([demo_read] ++ extra).
Proof.
  destruct (@resolve_effective_policies_only_adds (demo_backend [deny_editor]) demo_runtime
    ["reader"] "t_cat" (Some "cat") [] [demo_read] (Some "u") None ["reader"] eq_refl) as (extra & He & _).
  by exists extra.
Defined.

(** Witness of C23: the deny grant on [editor] overrides the ALLOW that the
    role [reader] brings. *)
Lemma deny_grant_enforced_witness :
  exists reason,
    @service_evaluate_access (demo_backend [deny_editor]) demo_runtime unit demo_services
      ["reader"] "/stac/catalogs/cat" "GET" demo_ctx (Some "cat") [] (Some "u") None tt
    = (inr (false, reason), tt).
Proof.
  apply (@deny_grant_enforced (demo_backend [deny_editor]) demo_runtime unit demo_services
    ["reader"] "/stac/catalogs/cat" "GET" "t_cat" demo_ctx (Some "cat") [] [demo_read]
    [demo_read; demo_read_deny] "u" None ["reader"] ["read"] (demo_ops [deny_editor])
    (fun _ _ _ => inr [deny_editor]) [deny_editor] "editor" "iam" "read" deny_editor demo_read
    (fun _ => true) tt); try match goal with |- _ = _ => reflexivity end.
  - by rewrite <-str_mem_In.
  - by apply list_elem_of_here.
  - by apply list_elem_of_here.
  - by intros p [->|[->|[]%elem_of_nil]%elem_of_cons]%elem_of_cons [].
  - by intros p [->|[->|[]%elem_of_nil]%elem_of_cons]%elem_of_cons.
Defined.

(** Witness of [collect_grant_quota_idempotent]. *)
Lemma collect_grant_quota_idempotent_witness :
  let row := mkGrant (SStr "g2") "role" "editor" VNone
    (VDict [("rate_limit", VDict [("limit", VInt 5); ("window_seconds", VInt 60)])]) in
  let x' := mkExtras [(mkCond "rate_limit" [("limit", VInt 5); ("window_seconds", VInt 60);
                         ("scope", VStr "principal")] [] None, "grant:g2")] [SStr "g2"] in
  @collect_grant_quota_conditions (demo_backend []) demo_runtime [row] x' = (inr (), x').
Proof.
  apply (@collect_grant_quota_idempotent (demo_backend []) demo_runtime _ (mkExtras [] [])).
  by vm_compute.
Defined.

(** Witness of [evaluate_policy_statements_spec]. *)
Lemma evaluate_policy_statements_spec_witness :
  exists b, @evaluate_policy_statements demo_runtime unit demo_services
    [demo_read; demo_read_deny] "GET" "/stac/x" demo_ctx tt = (inr b, tt).
Proof.
  destruct (@evaluate_policy_statements_spec (demo_backend []) demo_runtime unit demo_services
    [demo_read; demo_read_deny] "GET" "/stac/x" demo_ctx (fun _ => true) tt) as (b & Hb & _).
  - by intros p [->|[->|[]%elem_of_nil]%elem_of_cons]%elem_of_cons [].
  - by exists b.
Defined.

(** ** Deny grants that are not enforced

    Each of the hypotheses of [deny_grant_enforced] on the row is needed. *)

(** An allow grant and a deny grant on the same role: only the first row is
    kept, so a scoped deny behind a platform-wide allow has no effect. *)
Lemma second_deny_grant_lost :
  @service_evaluate_access (demo_backend [allow_editor; deny_editor]) demo_runtime unit demo_services
    [] "/stac/catalogs/cat" "GET" demo_ctx (Some "cat") [] (Some "u") None tt
  = (inr (true, "Allowed by policy read"), tt).
Proof. by vm_compute. Qed.

(** A deny grant on a role the principal also holds by name is skipped. *)
Lemma deny_grant_on_flat_role_lost :
  @service_evaluate_access (demo_backend [deny_editor]) demo_runtime unit demo_services
    ["editor"] "/stac/catalogs/cat" "GET" demo_ctx (Some "cat") [] (Some "u") None tt
  = (inr (true, "Allowed by policy read"), tt).
Proof. by vm_compute. Qed.

(** A deny grant on a policy that a role already brought is skipped as a
    duplicate. *)
Lemma deny_policy_grant_lost :
  let deny_read := mkGrant (SStr "g3") "policy" "read" (VStr "deny") VNone in
  @service_evaluate_access (demo_backend [deny_read]) demo_runtime unit demo_services
    ["reader"] "/stac/catalogs/cat" "GET" demo_ctx (Some "cat") [] (Some "u") None tt
  = (inr (true, "Allowed by policy read"), tt).
Proof. by vm_compute. Qed.

(** A malformed limit ends the loop: the quota of every later grant is not
    collected. *)
Lemma malformed_quota_drops_later_grants :
  let bad := mkGrant (SStr "g4") "role" "editor" VNone
    (VDict [("rate_limit", VDict [("limit", VStr "many")])]) in
  let good := mkGrant (SStr "g5") "role" "reader" VNone
    (VDict [("max_count", VDict [("limit", VInt 10)])]) in
  @collect_grant_quota_conditions (demo_backend []) demo_runtime [bad; good] (mkExtras [] [])
  = (inl OtherError, mkExtras [] [SStr "g4"]).
Proof. by vm_compute. Qed.
