(* ===== verification/Listing.v ===== *)
(** * Listing visibility

    [models/protocols/visibility.py] (the neutral contract: caller snapshot,
    projection of a filter to an id allow-list, fail-closed resolution) and
    [iam/listing_visibility.py] (its provider: one read-filter compilation per
    entry, a bounded cache with a time to live), with the entry point
    [IamModule.compile_read_filter] of [iam/module.py].

    The permission engine, the paged enumerations and the clock are parameters:
    the section [provider] is stated for any of them.  A context manager or
    context variable that only scopes [get_request_visibility] is the argument
    [visibility] of the resolution functions. *)

From S2P Require Import Prelude AccessFilter AttributePredicates Conditions Policies Demo.

(** ** The caller snapshot *)

Record RequestVisibility : Type := mkVis {
  v_principals : list string;
  v_principal_id : option string;
}.

Definition str_leb (a b : string) : bool :=
  match String.compare a b with Gt => false | _ => true end.

(** [sorted(l)] on strings. *)
Fixpoint str_insert (x : string) (l : list string) : list string :=
  match l with
  | [] => [x]
  | y :: l' => if str_leb x y then x :: l else y :: str_insert x l'
  end.

Definition str_sort (l : list string) : list string := fold_right str_insert [] l.

Definition cache_key (v : RequestVisibility) : list string :=
  str_sort (v_principals v) ++ [default "" (nonempty_str (v_principal_id v))].

(** ** Projection to an id allow-list *)

(** The sets are lists; [None] is "no restriction".  The second component is
    the reason of the fail-closed signal, when one is raised. *)
Definition id_values (field : string) (c : AccessClause) : list string :=
  match predicates c with
  | [PField (mkFP f vs)] => if f ==s field then vs else []
  | _ => []
  end.

Definition extract_id_constraint (flt : AccessFilter) (field : string)
    : option (list string) * option string :=
  if deny_all flt then (Some [], None)
  else if is_unconditional flt then (None, None)
  else if match union flt with [] => false | _ => true end ||
          match deny flt with [] => false | _ => true end || allow_all flt
  then (Some [], Some "unsupported_filter_shape")
  else (Some (flat_map (id_values field) (allow flt)), None).

Definition signal_fail_closed (reason : string) (counts : list (string * Z)) : list (string * Z) :=
  dict_set reason (default 0 (dict_get reason counts) + 1) counts.

(** ** The provider *)

Definition TTL_SECONDS : Z := 60.
Definition CACHE_MAXSIZE : nat := 512.
Definition PAGE : nat := 500.
Definition MAX_ENTRIES : nat := 10000.

Definition ids_filter (visible : list string) : AccessFilter :=
  match visible with
  | [] => deny_everything false
  | _ => from_clauses [mkClause [PField (mkFP "id" (str_sort visible))]] [] false
  end.

Abbreviation cache := (list (list string * (Z * AccessFilter))).

Fixpoint cache_find (k : list string) (c : cache) : option (Z * AccessFilter) :=
  match c with
  | [] => None
  | (k', v) :: c' => if bool_decide (k = k') then Some v else cache_find k c'
  end.

Definition cache_pop (k : list string) (c : cache) : cache :=
  List.filter (fun e => negb (bool_decide (k = e.1))) c.

(** [self._cache[key] = value]. *)
Fixpoint cache_set (k : list string) (v : Z * AccessFilter) (c : cache) : cache :=
  match c with
  | [] => [(k, v)]
  | (k', v') :: c' => if bool_decide (k = k') then (k', v) :: c' else (k', v') :: cache_set k v c'
  end.

(** [_cache_get] at time [now]: an expired entry is dropped. *)
Definition cache_get (now : Z) (k : list string) (c : cache) : option AccessFilter * cache :=
  match cache_find k c with
  | None => (None, c)
  | Some (expiry, flt) => if expiry <? now then (None, cache_pop k c) else (Some flt, c)
  end.

(** The loop that evicts the oldest entries while the cache is full. *)
Fixpoint evict_oldest (c : cache) : cache :=
  match c with
  | [] => []
  | _ :: c' => if (CACHE_MAXSIZE <=? length c)%nat then evict_oldest c' else c
  end.

(** [_cache_put]; the clock is read for the purge and for the expiry. *)
Definition cache_put (now_purge now : Z) (k : list string) (flt : AccessFilter) (c : cache) : cache :=
  let c' := if (CACHE_MAXSIZE <=? length c)%nat
            then evict_oldest (List.filter (fun e => negb (e.2.1 <? now_purge)) c) else c in
  cache_set k (now + TTL_SECONDS, flt) c'.

(** The paged enumeration: [page offset] is the page of [PAGE] entries from
    [offset].  The loop runs while [offset < MAX_ENTRIES]. *)
Fixpoint enumerate_from (fuel : nat) (page : nat -> exn + list string) (offset : nat)
    : exn + list string :=
  match fuel with
  | O => inr []
  | S fuel' =>
      if (MAX_ENTRIES <=? offset)%nat then inr []
      else
        ids ← page offset;
        if (length ids <? PAGE)%nat then inr ids
        else rest ← enumerate_from fuel' page (offset + PAGE)%nat; inr (ids ++ rest)
  end.

(** [MAX_ENTRIES / PAGE] iterations are enough. *)
Definition enumerate_ids (page : nat -> exn + list string) : exn + list string :=
  enumerate_from 20 page 0.

Section provider.
(** [compile_read_filter principals catalog collection asset principal_id]. *)
Context (perms : list string -> option string -> option string -> option string -> option string
                 -> exn + AccessFilter).
Context (catalog_pages : nat -> exn + list string)
        (collection_pages : string -> nat -> exn + list string)
        (asset_pages : string -> option string -> nat -> exn + list string).
Implicit Types (v : RequestVisibility).

Definition compile v (catalog_id collection_id : option string) : exn + AccessFilter :=
  perms (v_principals v) catalog_id collection_id None (v_principal_id v).

Definition compile_asset v (catalog_id collection_id : option string) (asset_id : string)
    : exn + AccessFilter :=
  perms (v_principals v) catalog_id collection_id (Some asset_id) (v_principal_id v).

(** The loop [if not scope.deny_all: visible.append(id)]. *)
Fixpoint visible_ids (scope_of : string -> exn + AccessFilter) (ids : list string)
    : exn + list string :=
  match ids with
  | [] => inr []
  | id :: ids' =>
      scope ← scope_of id;
      rest ← visible_ids scope_of ids';
      mret (if deny_all scope then rest else id :: rest)
  end.

Definition compute_catalog_filter v : exn + AccessFilter :=
  platform ← compile v None None;
  if allow_all platform && match deny platform with [] => true | _ => false end &&
     match union platform with [] => true | _ => false end
  then inr allow_everything
  else
    ids ← enumerate_ids catalog_pages;
    visible ← visible_ids (fun c => compile v (Some c) None) ids;
    mret (ids_filter visible).

Definition compute_collection_filter v (catalog_id : string) : exn + AccessFilter :=
  cat_scope ← compile v (Some catalog_id) None;
  if deny_all cat_scope then inr (deny_everything false)
  else
    ids ← enumerate_ids (collection_pages catalog_id);
    visible ← visible_ids (fun c => compile v (Some catalog_id) (Some c)) ids;
    mret (ids_filter visible).

Definition compute_asset_filter v (catalog_id : string) (collection_id : option string)
    : exn + AccessFilter :=
  col_scope ← compile v (Some catalog_id) collection_id;
  if deny_all col_scope then inr (deny_everything false)
  else
    ids ← enumerate_ids (asset_pages catalog_id collection_id);
    visible ← visible_ids (compile_asset v (Some catalog_id) collection_id) ids;
    mret (ids_filter visible).

(** What is listed, and its part of the cache key. *)
Inductive listing : Type :=
| Catalogs
| Collections (catalog_id : string)
| Assets (catalog_id : string) (collection_id : option string).

Definition listing_key (l : listing) : list string :=
  match l with
  | Catalogs => ["catalog"]
  | Collections c => ["collection"; c]
  | Assets c col => ["asset"; c; default "" (nonempty_str col)]
  end.

Definition compute_filter v (l : listing) : exn + AccessFilter :=
  match l with
  | Catalogs => compute_catalog_filter v
  | Collections c => compute_collection_filter v c
  | Assets c col => compute_asset_filter v c col
  end.

(** [catalog_listing_filter], [collection_listing_filter] and
    [asset_listing_filter]; the clock is read for the lookup, the purge and
    the expiry. *)
Definition listing_filter (t_get t_purge t_put : Z) v (l : listing) (c : cache)
    : AccessFilter * cache :=
  let key := listing_key l ++ cache_key v in
  match cache_get t_get key c with
  | (Some flt, c') => (flt, c')
  | (None, c') =>
      match compute_filter v l with
      | inl _ => (deny_everything false, c')
      | inr flt => (flt, cache_put t_purge t_put key flt c')
      end
  end.
End provider.

(** ** Resolution *)

Section resolve.
(** [None]: no provider is registered; [inl]: the provider raised. *)
Context (provider : option (RequestVisibility -> listing -> exn + AccessFilter)).

Definition resolve_listing_ids (visibility : option RequestVisibility) (l : listing)
    (counts : list (string * Z)) : option (list string) * list (string * Z) :=
  match visibility with
  | None => (None, counts)
  | Some v =>
      match provider with
      | None => (Some [], signal_fail_closed "provider_missing" counts)
      | Some p =>
          match p v l with
          | inl _ => (Some [], signal_fail_closed "provider_error" counts)
          | inr flt =>
              match extract_id_constraint flt "id" with
              | (ids, None) => (ids, counts)
              | (ids, Some reason) => (ids, signal_fail_closed reason counts)
              end
          end
      end
  end.
End resolve.

(** [IamModule.compile_read_filter], the engine the provider is built on: it
    declares no [asset_id], so a call with one raises [TypeError]. *)
Definition iam_module_compile_read_filter
    (policy_service : option (list string -> option string -> option string -> option string
                              -> exn + AccessFilter))
    (principals : list string) (catalog_id collection_id asset_id principal_id : option string)
    : exn + AccessFilter :=
  match asset_id with
  | Some _ => inl OtherError
  | None =>
      match policy_service with
      | None => inr (deny_everything false)
      | Some compile => compile principals catalog_id collection_id principal_id
      end
  end.

(** ** Lemmas *)

Lemma str_insert_perm x l : Permutation (str_insert x l) (x :: l).
Proof.
  induction l as [|y l IH]; simpl; [done|]. destruct (str_leb x y); [done|].
  rewrite IH. apply perm_swap.
Qed.

Lemma str_sort_perm l : Permutation (str_sort l) l.
Proof. induction l as [|x l IH]; simpl; [done|]. by rewrite str_insert_perm, IH. Qed.

(** Documents of the listing plane: a row is its [id]. *)
Definition row_of (id : string) : document := [("id", DScalar (SStr id))].

Lemma id_values_matches `{PyRuntime} c id :
  id ∈ id_values "id" c -> clause_matches c (row_of id) = true.
Proof.
  unfold id_values, clause_matches. destruct (predicates c) as [|[[f vs]|] [|]]; simpl;
    try by intros ?%elem_of_nil.
  destruct (f ==s "id") eqn:Ef; [|by intros ?%elem_of_nil]. bool_hyps; subst.
  intros Hid%str_mem_In. unfold field_matches; simpl. by rewrite Hid.
Qed.

Lemma extract_ids_filter visible :
  exists ids, extract_id_constraint (ids_filter visible) "id" = (Some ids, None) /\
    forall x, x ∈ ids <-> x ∈ visible.
Proof.
  destruct visible as [|x l]; [by exists []|].
  exists (str_sort (x :: l)). split; [by unfold extract_id_constraint; simpl; rewrite app_nil_r|].
  intros y. by rewrite str_sort_perm.
Qed.

Lemma visible_ids_spec scope_of ids visible :
  visible_ids scope_of ids = inr visible ->
  forall x, x ∈ visible <->
    x ∈ ids /\ exists s, scope_of x = inr s /\ deny_all s = false.
Proof.
  revert visible. induction ids as [|id ids IH]; intros visible; simpl.
  { intros [= <-] x. set_solver. }
  unfold mbind, err_bind. destruct (scope_of id) as [|s] eqn:Es; [done|].
  destruct (visible_ids scope_of ids) as [|rest] eqn:Ev; [done|]. intros [= <-] x.
  specialize (IH rest eq_refl x). destruct (deny_all s) eqn:Ed.
  - rewrite IH, elem_of_cons. split; [naive_solver|].
    intros [[->|?] (s' & ? & ?)]; [congruence|naive_solver].
  - rewrite !elem_of_cons, IH. naive_solver.
Qed.

Section compute.
Context (perms : list string -> option string -> option string -> option string -> option string
                 -> exn + AccessFilter).
Context (catalog_pages : nat -> exn + list string)
        (collection_pages : string -> nat -> exn + list string)
        (asset_pages : string -> option string -> nat -> exn + list string).

Definition listed_in (pages : nat -> exn + list string) (scope_of : string -> exn + AccessFilter)
    (x : string) : Prop :=
  exists all s, enumerate_ids pages = inr all /\ x ∈ all /\ scope_of x = inr s /\ deny_all s = false.

(** The scope that gates a whole listing. *)
Definition gate_open (v : RequestVisibility) (l : listing) : Prop :=
  match l with
  | Catalogs => True
  | Collections c => exists s, compile perms v (Some c) None = inr s /\ deny_all s = false
  | Assets c col => exists s, compile perms v (Some c) col = inr s /\ deny_all s = false
  end.

(** The entries a caller may list: enumerated, and not compiled to a denial. *)
Definition listed (v : RequestVisibility) (l : listing) (x : string) : Prop :=
  gate_open v l /\
  match l with
  | Catalogs => listed_in catalog_pages (fun c => compile perms v (Some c) None) x
  | Collections c => listed_in (collection_pages c) (fun col => compile perms v (Some c) (Some col)) x
  | Assets c col => listed_in (asset_pages c col) (compile_asset perms v (Some c) col) x
  end.

Lemma enumerated_filter pages scope_of flt :
  (ids ← enumerate_ids pages; visible ← visible_ids scope_of ids; mret (ids_filter visible)) = inr flt ->
  exists ids, extract_id_constraint flt "id" = (Some ids, None) /\
    forall x, x ∈ ids <-> listed_in pages scope_of x.
Proof.
  unfold mbind, err_bind. destruct (enumerate_ids pages) as [|all] eqn:Ea; [done|].
  destruct (visible_ids scope_of all) as [|visible] eqn:Ev; [done|]. intros [= <-].
  destruct (extract_ids_filter visible) as (ids & -> & Hids). exists ids. split; [done|].
  intros x. rewrite Hids, (visible_ids_spec _ _ _ Ev). unfold listed_in. rewrite Ea. split.
  - intros (Hx & s & Hs & Hd). by exists all, s.
  - intros (all' & s & [= <-] & Hx & Hs & Hd). eauto.
Qed.

Lemma denied_filter (P : string -> Prop) :
  (forall x, ~ P x) ->
  exists ids, extract_id_constraint (deny_everything false) "id" = (Some ids, None) /\
    forall x, x ∈ ids <-> P x.
Proof. intros HP. exists []. split; [done|]. intros x. rewrite elem_of_nil. by split; [|apply HP]. Qed.
End compute.

(** *** Enumeration *)

Lemma MAX_pages : MAX_ENTRIES = (20 * PAGE)%nat.
Proof. by vm_compute. Qed.

Lemma enumerate_from_spec fuel page all offset :
  (forall o, page o = inr (take PAGE (drop o all))) ->
  (MAX_ENTRIES <= offset + fuel * PAGE)%nat -> (exists k, offset = k * PAGE)%nat ->
  enumerate_from fuel page offset = inr (take (MAX_ENTRIES - offset) (drop offset all)).
Proof.
  intros Hpage. revert offset. induction fuel as [|fuel IH]; intros offset Hfuel Hmult; cbn [enumerate_from].
  { by replace (MAX_ENTRIES - offset)%nat with 0%nat by lia. }
  destruct (MAX_ENTRIES <=? offset)%nat eqn:Emax.
  { apply Nat.leb_le in Emax. by replace (MAX_ENTRIES - offset)%nat with 0%nat by lia. }
  apply Nat.leb_gt in Emax.
  assert (PAGE <= MAX_ENTRIES - offset)%nat as Hroom.
  { destruct Hmult as [k ->]. rewrite MAX_pages in *. clear -Emax.
    destruct (Nat.lt_ge_cases k 20); nia. }
  unfold mbind, err_bind. rewrite Hpage, length_take, length_drop.
  destruct (_ <? PAGE)%nat eqn:Elen.
  - apply Nat.ltb_lt in Elen. rewrite !take_ge; [done|rewrite length_drop; lia..].
  - apply Nat.ltb_ge in Elen. rewrite IH; [|lia|].
    2: { destruct Hmult as [k ->]. exists (S k). lia. }
    replace (MAX_ENTRIES - offset)%nat with (PAGE + (MAX_ENTRIES - (offset + PAGE)))%nat by lia.
    rewrite <-drop_drop, take_take_drop. done.
Qed.

(** *** The cache *)

Lemma cache_find_in k e c : cache_find k c = Some e -> (k, e) ∈ c.
Proof.
  induction c as [|[k' e'] c IH]; simpl; [done|]. case_bool_decide; intros; simplify_eq; set_solver.
Qed.

Lemma filter_sub {A} (f : A -> bool) l x : x ∈ List.filter f l -> x ∈ l.
Proof. rewrite !list_elem_of_In. by intros [? _]%filter_In. Qed.

Lemma length_filter_le {A} (f : A -> bool) l : (length (List.filter f l) <= length l)%nat.
Proof. induction l as [|x l IH]; simpl; [done|]. destruct (f x); simpl; lia. Qed.

Lemma evict_oldest_sub c e : e ∈ evict_oldest c -> e ∈ c.
Proof.
  induction c as [|e' c IH]; [done|]. cbn [evict_oldest]. destruct (_ <=? _)%nat; set_solver.
Qed.

Lemma evict_oldest_length c : (length (evict_oldest c) < CACHE_MAXSIZE)%nat.
Proof.
  induction c as [|e' c IH]; [by apply Nat.ltb_lt|]. cbn [evict_oldest].
  destruct (_ <=? _)%nat eqn:E; [done|]. by apply Nat.leb_gt in E.
Qed.

Lemma cache_set_in k v c e : e ∈ cache_set k v c -> e = (k, v) \/ e ∈ c.
Proof.
  induction c as [|[k' v'] c IH]; simpl; [set_solver|].
  case_bool_decide; subst; rewrite !elem_of_cons; naive_solver.
Qed.

Lemma cache_set_length k v c : (length (cache_set k v c) <= S (length c))%nat.
Proof. induction c as [|[k' v'] c IH]; simpl; [done|]. case_bool_decide; simpl; lia. Qed.

Lemma cache_put_in t1 t2 k flt c e :
  e ∈ cache_put t1 t2 k flt c -> e = (k, (t2 + TTL_SECONDS, flt)) \/ e ∈ c.
Proof.
  unfold cache_put. intros [->|He]%cache_set_in; [by left|right].
  destruct (_ <=? _)%nat; [|done]. by apply evict_oldest_sub, filter_sub in He.
Qed.

Lemma cache_put_length t1 t2 k flt c :
  (length c <= CACHE_MAXSIZE)%nat -> (length (cache_put t1 t2 k flt c) <= CACHE_MAXSIZE)%nat.
Proof.
  intros Hc. unfold cache_put. etransitivity; [apply cache_set_length|].
  destruct (CACHE_MAXSIZE <=? length c)%nat eqn:E.
  - apply evict_oldest_length.
  - apply Nat.leb_gt in E. lia.
Qed.

Lemma cache_get_spec t k c o c' :
  cache_get t k c = (o, c') ->
  (forall e, e ∈ c' -> e ∈ c) /\ (length c' <= length c)%nat /\
  (forall flt, o = Some flt -> exists expiry, (k, (expiry, flt)) ∈ c /\ t <= expiry).
Proof.
  unfold cache_get. destruct (cache_find k c) as [[expiry f]|] eqn:Ef; [|by intros [= <- <-]].
  destruct (expiry <? t) eqn:Et; intros [= <- <-]; bool_hyps.
  - split_and!; [by intros e ?%filter_sub|apply length_filter_le|done].
  - split_and!; [done..|]. intros flt [= <-]. exists expiry. split; [by apply cache_find_in|lia].
Qed.

(** Runs of the provider: calls with a clock that does not go back, in worlds
    (policies, entries) that may change between calls.  The log records every
    computed filter with its key and the time it was stored. *)
Record world : Type := mkWorld {
  w_perms : list string -> option string -> option string -> option string -> option string
            -> exn + AccessFilter;
  w_catalogs : nat -> exn + list string;
  w_collections : string -> nat -> exn + list string;
  w_assets : string -> option string -> nat -> exn + list string;
}.

Definition call (wd : world) (t1 t2 t3 : Z) (v : RequestVisibility) (l : listing) (c : cache) :=
  listing_filter (w_perms wd) (w_catalogs wd) (w_collections wd) (w_assets wd) t1 t2 t3 v l c.

Definition computed (wd : world) (v : RequestVisibility) (l : listing) : exn + AccessFilter :=
  compute_filter (w_perms wd) (w_catalogs wd) (w_collections wd) (w_assets wd) v l.

Abbreviation log := (list (Z * list string * AccessFilter)).

Inductive run : Z -> cache -> log -> Prop :=
| run_start t : run t [] []
| run_call t c lg wd t1 t2 t3 v l flt c' :
    run t c lg -> t <= t1 -> t1 <= t2 -> t2 <= t3 ->
    call wd t1 t2 t3 v l c = (flt, c') ->
    run t3 c' (match computed wd v l with
               | inr f => lg ++ [(t3, listing_key l ++ cache_key v, f)]
               | inl _ => lg
               end).

Definition cache_inv (c : cache) (lg : log) : Prop :=
  (length c <= CACHE_MAXSIZE)%nat /\
  forall k expiry flt, (k, (expiry, flt)) ∈ c -> (expiry - TTL_SECONDS, k, flt) ∈ lg.

Lemma call_inv wd t1 t2 t3 v l c lg flt c' :
  cache_inv c lg -> call wd t1 t2 t3 v l c = (flt, c') ->
  cache_inv c' (match computed wd v l with
                | inr f => lg ++ [(t3, listing_key l ++ cache_key v, f)]
                | inl _ => lg
                end).
Proof.
  intros [Hlen Hlog]. unfold call, listing_filter.
  destruct (cache_get t1 _ c) as [o c1] eqn:Eg.
  apply cache_get_spec in Eg as (Hsub & Hlen1 & _).
  assert (cache_inv c1 lg) as Hinv1 by (split; [lia|naive_solver]).
  unfold computed. destruct o as [f|].
  - intros [= <- <-]. destruct (compute_filter _ _ _ _ v l) as [|f']; [done|].
    destruct Hinv1 as [? Hl1]. split; [done|]. intros. apply elem_of_app. left. eauto.
  - destruct (compute_filter _ _ _ _ v l) as [|f']; intros [= <- <-]; [done|].
    destruct Hinv1 as [Hl1 Hlg1]. split; [by apply cache_put_length|].
    intros k expiry f [[= -> -> ->]|He]%cache_put_in; apply elem_of_app;
      [right; replace (t3 + TTL_SECONDS - TTL_SECONDS) with t3 by lia; set_solver|left; eauto].
Qed.

Lemma run_inv t c lg : run t c lg -> cache_inv c lg.
Proof.
  induction 1 as [t|]; [|by eapply call_inv].
  split; [by apply Nat.leb_le|by intros ? ? ? ?%elem_of_nil].
Qed.

(** ** Properties *)

(** The projection of a listing filter to an id allow-list
    never widens: an id of the allow-list is a row the filter admits, and "no
    restriction" is answered only for a filter that admits every row. *)
Theorem extract_id_constraint_conservative `{PyRuntime} (flt : AccessFilter) (id : string) :
  match (extract_id_constraint flt "id").1 with
  | Some ids => id ∈ ids -> admits flt (row_of id) = true
  | None => admits flt (row_of id) = true
  end.
Proof.
  unfold extract_id_constraint, is_unconditional. destruct flt as [da aa al de un us]; simpl.
  destruct da; [by intros ?%elem_of_nil|].
  destruct aa, de, us; simpl; try done; try by intros ?%elem_of_nil.
  rewrite list_elem_of_In, in_flat_map. intros (c & Hc & Hid).
  apply existsb_exists. exists c. split; [done|]. by apply id_values_matches, list_elem_of_In.
Qed.

(** C37 (functional).  When its computation succeeds, a listing shows exactly the entries
    that are enumerated and whose own read scope does not compile to [deny_everything],
    behind the gate of the listing: of a catalog whose scope is a denial no collection
    is shown, readable or not, and so for the assets of a collection. "No restriction"
    is answered only for the catalog listing of a caller whose platform scope is an
    ALLOW without exclusions: then all catalogs are listed, without a look at their own
    scopes. *)
Theorem listing_exact perms catalog_pages collection_pages asset_pages
    (v : RequestVisibility) (l : listing) (flt : AccessFilter) :
  compute_filter perms catalog_pages collection_pages asset_pages v l = inr flt ->
  match extract_id_constraint flt "id" with
  | (Some ids, signal) => signal = None /\
      forall x, x ∈ ids <-> listed perms catalog_pages collection_pages asset_pages v l x
  | (None, _) => l = Catalogs /\ exists s, compile perms v None None = inr s /\
      allow_all s = true /\ deny s = [] /\ union s = []
  end.
Proof.
  assert (Hex : forall P, (exists ids, extract_id_constraint flt "id" = (Some ids, None) /\
      forall x, x ∈ ids <-> P x) ->
      match extract_id_constraint flt "id" with
      | (Some ids, signal) => signal = None /\ forall x, x ∈ ids <-> P x
      | (None, _) => l = Catalogs /\ exists s, compile perms v None None = inr s /\
          allow_all s = true /\ deny s = [] /\ union s = []
      end) by by intros P (ids & -> & ?).
  destruct l as [|c|c col]; cbn [compute_filter];
    unfold compute_catalog_filter, compute_collection_filter, compute_asset_filter;
    unfold mbind at 1, err_bind at 1.
  - destruct (compile perms v None None) as [|s] eqn:Es; [done|].
    destruct (allow_all s && _ && _) eqn:Ea.
    + intros [= <-]. split; [done|]. bool_hyps. exists s.
      by destruct (deny s), (union s).
    + intros (ids & Hi & Hx)%enumerated_filter. apply Hex. exists ids. split; [done|].
      intros x. rewrite Hx. unfold listed; simpl. naive_solver.
  - destruct (compile perms v (Some c) None) as [|s] eqn:Es; [done|].
    destruct (deny_all s) eqn:Ed.
    + intros [= <-]. apply Hex, denied_filter. intros x [(s' & ? & ?) _]. congruence.
    + intros (ids & Hi & Hx)%enumerated_filter. apply Hex. exists ids. split; [done|].
      intros x. rewrite Hx. unfold listed; simpl. split; [intros; split; [by exists s|done]|by intros [_ ?]].
  - destruct (compile perms v (Some c) col) as [|s] eqn:Es; [done|].
    destruct (deny_all s) eqn:Ed.
    + intros [= <-]. apply Hex, denied_filter. intros x [(s' & ? & ?) _]. congruence.
    + intros (ids & Hi & Hx)%enumerated_filter. apply Hex. exists ids. split; [done|].
      intros x. rewrite Hx. unfold listed; simpl. split; [intros; split; [by exists s|done]|by intros [_ ?]].
Qed.

(** A published caller never gets a wider listing from a
    failure: when the computation raises (and no fresh filter is cached) the
    caller is answered the empty allow-list and nothing is cached under the key. *)
Theorem listing_fails_closed perms catalog_pages collection_pages asset_pages
    (t1 t2 t3 : Z) (v : RequestVisibility) (l : listing) (c : cache) (e : exn)
    (counts : list (string * Z)) :
  compute_filter perms catalog_pages collection_pages asset_pages v l = inl e ->
  (cache_get t1 (listing_key l ++ cache_key v) c).1 = None ->
  let provider v l :=
    inr (listing_filter perms catalog_pages collection_pages asset_pages t1 t2 t3 v l c).1 in
  (resolve_listing_ids (Some provider) (Some v) l counts).1 = Some [] /\
  forall entry, entry ∈ (listing_filter perms catalog_pages collection_pages asset_pages t1 t2 t3 v l c).2 ->
    entry ∈ c.
Proof.
  intros Hc Hg. simpl. unfold listing_filter. destruct (cache_get t1 _ c) as [o c1] eqn:Eg.
  simpl in Hg; subst. rewrite Hc. split; [done|].
  by apply cache_get_spec in Eg as (Hsub & _ & _).
Qed.

(** In every reachable state the cache holds at most 512
    entries, and a hit is at most a minute stale: the filter served at time
    [t] was computed for the same key and stored at [t - 60] or later. *)
Theorem listing_cache_staleness (t t1 : Z) (c : cache) (lg : log) (k : list string) (flt : AccessFilter) :
  run t c lg -> (cache_get t1 k c).1 = Some flt ->
  (length c <= CACHE_MAXSIZE)%nat /\
  exists t0, (t0, k, flt) ∈ lg /\ t1 - TTL_SECONDS <= t0.
Proof.
  intros [Hlen Hlog]%run_inv Hhit. split; [done|].
  destruct (cache_get t1 k c) as [o c'] eqn:Eg. simpl in Hhit; subst.
  apply cache_get_spec in Eg as (_ & _ & Hin). destruct (Hin flt eq_refl) as (expiry & He & Ht).
  exists (expiry - TTL_SECONDS). split; [by apply Hlog|lia].
Qed.

(** No cross-caller cache hit: two requests share a cache key
    only if they list the same entries of the same scope for the same
    principals (up to order) and the same principal id. *)
Theorem listing_key_separates (l l' : listing) (v v' : RequestVisibility) :
  listing_key l ++ cache_key v = listing_key l' ++ cache_key v' ->
  listing_key l = listing_key l' /\ Permutation (v_principals v) (v_principals v') /\
  nonempty_str (v_principal_id v) = nonempty_str (v_principal_id v').
Proof.
  intros Heq. assert (listing_key l = listing_key l' /\ cache_key v = cache_key v') as [Hl Hk].
  { destruct l, l'; simpl in Heq |- *; injection Heq; intros; try done; split; congruence. }
  split; [done|]. unfold cache_key in Hk. apply app_inj_tail in Hk as [Hs Hid].
  split; [by rewrite <-(str_sort_perm (v_principals v)), Hs, str_sort_perm|].
  destruct (v_principal_id v) as [[|? ?]|], (v_principal_id v') as [[|? ?]|]; simpl in *; by simplify_eq.
Qed.

(** The paged enumeration ends and returns the first
    10 000 entries in order, for any backend that serves pages of the list. *)
Theorem enumerate_ids_complete (page : nat -> exn + list string) (all : list string) :
  (forall o, page o = inr (take PAGE (drop o all))) ->
  enumerate_ids page = inr (take MAX_ENTRIES all).
Proof.
  intros Hpage. unfold enumerate_ids. rewrite (enumerate_from_spec 20 page all 0); [|done| |by exists 0%nat].
  - by rewrite Nat.sub_0_r.
  - by rewrite MAX_pages.
Qed.

(** ** Witnesses *)

(** A policy service of one catalog [cat] with collections [open] and
    [secret]; [secret] is denied by an unconditional policy. *)
Definition secret_policies : list Policy :=
  [mkPolicy "read" ALLOW 0 ["GET"] ["/stac/.*"] [];
   mkPolicy "no-secret" DENY 0 ["GET"] ["/stac/catalogs/cat/collections/secret.*"] []].

Definition secret_perms (_ : list string) (cat col asset _ : option string) : exn + AccessFilter :=
  @compile_read_filter demo_runtime secret_policies [] [] None cat col asset.

Definition one_page (ids : list string) (o : nat) : exn + list string := inr (take PAGE (drop o ids)).

Definition demo_vis : RequestVisibility := mkVis ["reader"] None.

Definition demo_listing (l : listing) : exn + AccessFilter :=
  compute_filter secret_perms (one_page ["cat"]) (fun _ => one_page ["open"; "secret"])
    (fun _ _ => one_page []) demo_vis l.

(** Witness of C37. *)
Lemma listing_exact_witness :
  demo_listing Catalogs = inr (ids_filter ["cat"]) /\
  forall x, x ∈ ["cat"] <->
    listed secret_perms (one_page ["cat"]) (fun _ => one_page ["open"; "secret"])
      (fun _ _ => one_page []) demo_vis Catalogs x.
Proof.
  split; [by vm_compute|].
  exact (proj2 (listing_exact secret_perms (one_page ["cat"]) (fun _ => one_page ["open"; "secret"])
    (fun _ _ => one_page []) demo_vis Catalogs (ids_filter ["cat"]) ltac:(by vm_compute))).
Defined.

(** Witness of [listing_fails_closed]: the enumeration raises. *)
Lemma listing_fails_closed_witness :
  (resolve_listing_ids
     (Some (fun v l => inr (listing_filter secret_perms (fun _ => inl OtherError)
        (fun _ => one_page []) (fun _ _ => one_page []) 0 0 0 v l []).1))
     (Some demo_vis) Catalogs []).1 = Some [].
Proof.
  apply (listing_fails_closed secret_perms (fun _ => inl OtherError) (fun _ => one_page [])
    (fun _ _ => one_page []) 0 0 0 demo_vis Catalogs [] OtherError []); by vm_compute.
Defined.

Definition demo_world : world :=
  mkWorld secret_perms (one_page ["cat"]) (fun _ => one_page []) (fun _ _ => one_page []).

(** Witness of [listing_cache_staleness]: a filter computed at time 5 and served at time 60. *)
Lemma listing_cache_staleness_witness :
  let key := listing_key Catalogs ++ cache_key demo_vis in
  let c := [(key, (65, ids_filter ["cat"]))] in
  (cache_get 60 key c).1 = Some (ids_filter ["cat"]) /\
  exists t0, (t0, key, ids_filter ["cat"]) ∈ [(5, key, ids_filter ["cat"])] /\ 60 - TTL_SECONDS <= t0.
Proof.
  split; [by vm_compute|].
  apply (listing_cache_staleness 5 60 [(listing_key Catalogs ++ cache_key demo_vis, (65, ids_filter ["cat"]))]).
  - refine (run_call 0 [] [] demo_world 3 4 5 demo_vis Catalogs (ids_filter ["cat"]) _ (run_start 0) _ _ _ _);
      [lia..|by vm_compute].
  - by vm_compute.
Defined.

(** Witness of [listing_key_separates]. *)
Lemma listing_key_separates_witness :
  Permutation ["a"; "b"] ["b"; "a"].
Proof.
  apply (listing_key_separates (Collections "c") (Collections "c") (mkVis ["a"; "b"] None) (mkVis ["b"; "a"] None)).
  by vm_compute.
Defined.

(** Witness of [enumerate_ids_complete]. *)
Lemma enumerate_ids_complete_witness :
  enumerate_ids (one_page ["a"; "b"]) = inr (take MAX_ENTRIES ["a"; "b"]).
Proof. apply (enumerate_ids_complete (one_page ["a"; "b"]) ["a"; "b"]). reflexivity. Defined.

(** ** Where listings and reads part *)

(** A collection whose reads are all denied by an unconditional DENY is still
    listed: its filter is not [deny_everything], it is an ALLOW clause together
    with a deny clause for the whole scope. *)
Lemma denied_collection_is_listed :
  match demo_listing (Collections "cat"), secret_perms [] (Some "cat") (Some "secret") None None with
  | inr flt, inr scope =>
      extract_id_constraint flt "id" = (Some ["open"; "secret"], None) /\
      @admits demo_runtime scope [("catalog_id", DScalar (SStr "cat")); ("collection_id", DScalar (SStr "secret"))]
        = false
  | _, _ => False
  end.
Proof. by vm_compute. Qed.

(** Through [IamModule] no asset listing can succeed: the per-asset
    compilation passes a keyword the module does not declare, and the error is
    turned into an empty listing. *)
Lemma asset_listing_never_succeeds svc catalogs collections assets v cat col s id ids :
  compile (iam_module_compile_read_filter svc) v (Some cat) col = inr s -> deny_all s = false ->
  enumerate_ids (assets cat col) = inr (id :: ids) ->
  compute_filter (iam_module_compile_read_filter svc) catalogs collections assets v (Assets cat col)
    = inl OtherError.
Proof.
  intros Hs Hd He. cbn [compute_filter]. unfold compute_asset_filter.
  rewrite Hs. unfold mbind at 1, err_bind at 1. rewrite Hd, He. done.
Qed.
