(* ===== verification/AccessScope.v ===== *)
(** * The read scope of a request

    [storage/access_scope.py]: the principals of a request and the read filter
    of a query over zero, one or several collections, compiled through the
    permission protocol.  The theorems instantiate the protocol with the policy
    service of EffectivePolicies. *)

From S2P Require Import Prelude AccessFilter AttributePredicates Conditions Policies Demo Drift Engine EffectivePolicies Listing.

(** [request.state.principal_role]: a list of roles or a single one. *)
Inductive principal_role : Type :=
| RoleList (roles : list string)
| RoleName (role : string).

Record request_state (P : Type) : Type := mkState {
  st_principal : option P;
  st_principal_id : option string;
  st_principal_role : option principal_role;
}.
Arguments mkState {P}.
Arguments st_principal {P}.
Arguments st_principal_id {P}.
Arguments st_principal_role {P}.

Definition principals_from_request_state {P} (st : option (request_state P))
    : list string * option P :=
  match st with
  | None => ([], None)
  | Some st =>
      (match nonempty_str (st_principal_id st) with Some i => [i] | None => [] end ++
       match st_principal_role st with
       | Some (RoleList l) => l
       | Some (RoleName r) => if r ==s "" then [] else [r]
       | None => []
       end, st_principal st)
  end.

(** Compile one filter per collection, in order. *)
Fixpoint compile_each (compile : string -> exn + AccessFilter) (collections : list string)
    : exn + list AccessFilter :=
  match collections with
  | [] => inr []
  | c :: cs => f ← compile c; fs ← compile_each compile cs; mret (f :: fs)
  end.

(** [perms principals catalog collection]: [compile_read_filter] of the
    registered protocol, for the principal of the request. *)
Definition compile_read_access_filter
    (perms : option (list string -> option string -> option string -> exn + AccessFilter))
    (catalog_id : option string) (collections : option (list string))
    (principals : option (list string)) : exn + AccessFilter :=
  match perms with
  | None => inr (deny_everything false)
  | Some compile =>
      let norm_principals := default [] principals in
      match default [] collections with
      | [] => compile norm_principals catalog_id None
      | [c] => compile norm_principals catalog_id (Some c)
      | cs =>
          subs ← compile_each (fun c => compile norm_principals catalog_id (Some c)) cs;
          inr (union_of subs)
      end
  end.

(** ** The policy service behind the protocol *)

Lemma Forall2_elem_l {A B} (P : A -> B -> Prop) l k x :
  Forall2 P l k -> x ∈ l -> exists y, y ∈ k /\ P x y.
Proof. induction 1; [by intros ?%elem_of_nil|]. intros [->|?]%elem_of_cons; set_solver. Qed.

Lemma Forall2_elem_r {A B} (P : A -> B -> Prop) l k y :
  Forall2 P l k -> y ∈ k -> exists x, x ∈ l /\ P x y.
Proof. induction 1; [by intros ?%elem_of_nil|]. intros [->|?]%elem_of_cons; set_solver. Qed.

Section scope.
Context `{IamBackend} `{PyRuntime}.

(** [IamModule.compile_read_filter] as the scope compiler calls it: no
    [asset_id] and no [principal_id]. *)
Definition module_perms (attributes : list (string * pyval)) (custom_policies : list Policy)
    (r : registry) (principals : list string) (catalog_id collection_id : option string)
    : exn + AccessFilter :=
  iam_module_compile_read_filter
    (Some (fun ps cat col pid => service_compile_read_filter ps cat col None attributes custom_policies pid r None))
    principals catalog_id collection_id None None.

(** A filter compiled for a collection admits only documents of it. *)
Lemma compile_read_filter_scoped pols attrs reg rows cat c asset af d :
  compile_read_filter pols attrs reg rows cat (Some c) asset = inr af -> admits af d = true ->
  fields_match (scope_predicates cat (Some c)) d = true.
Proof.
  intros Hc Hadm.
  destruct (compile_read_filter_inv _ _ _ _ _ _ _ _ Hc) as [[_ Hda]|(acc & Hacc & _ & Hsem)].
  { by rewrite deny_all_admits in Hadm. }
  rewrite Hsem in Hadm. apply andb_true_iff in Hadm as [Hallow _].
  destruct (compile_policies_justified_init _ _ _ _ _ _ Hacc) as (Ja & _ & Jall).
  apply orb_true_iff in Hallow as [Hall|Hany].
  - destruct (Jall Hall) as (p & r & ? & ? & ? & ? & ? & _ & Hs). by destruct cat.
  - rewrite existsb_app in Hany. apply orb_true_iff in Hany as [Hany|Hany];
      apply existsb_elem in Hany as (cl & Hin & Hm); [|by eapply grant_clauses_scoped].
    destruct (Ja cl Hin) as (p & r & ? & ? & ? & ? & ? & ->).
    rewrite result_clause_matches in Hm. by apply andb_true_iff in Hm as [? _].
Qed.

Lemma module_perms_scoped attrs custom reg ps cat c af d :
  module_perms attrs custom reg ps cat (Some c) = inr af -> admits af d = true ->
  field_matches (mkFP "collection_id" [c]) d = true.
Proof.
  unfold module_perms, iam_module_compile_read_filter, service_compile_read_filter, mbind, err_bind.
  destruct (resolve_schema _ _) as [|schema]; [done|].
  destruct (resolve_effective_policies _ _ _ _ _ _) as [|pols]; [done|]. intros Hc Hadm.
  assert (Hs := compile_read_filter_scoped _ _ _ _ _ _ _ _ _ Hc Hadm).
  unfold scope_predicates in Hs. rewrite fields_match_app in Hs. apply andb_true_iff in Hs as [_ Hs].
  simpl in Hs. by rewrite andb_true_r in Hs.
Qed.

Lemma compile_each_spec compile cs fs :
  compile_each compile cs = inr fs -> Forall2 (fun c f => compile c = inr f) cs fs.
Proof.
  revert fs. induction cs as [|c cs IH]; intros fs; simpl; [by intros [= <-]; constructor|].
  unfold mbind, err_bind. destruct (compile c) as [|f] eqn:Ec; [done|].
  destruct (compile_each compile cs) as [|fs']; [done|]. intros [= <-]. constructor; auto.
Qed.
End scope.

(** ** Properties *)

(** C38 (safety).  Per-collection isolation of a multi-collection read: on the
    documents of a collection [c] of the query, the combined filter answers
    exactly what the filter of [c] alone answers, so no grant or denial of another
    collection can reach them. *)
Theorem multi_collection_isolation `{IamBackend} `{PyRuntime}
    (attributes : list (string * pyval)) (custom_policies : list Policy) (r : registry)
    (catalog_id : option string) (collections principals : list string)
    (af af_c : AccessFilter) (c : string) (d : document) :
  (1 < length collections)%nat -> c ∈ collections ->
  doc_get d "collection_id" = DScalar (SStr c) ->
  compile_read_access_filter (Some (module_perms attributes custom_policies r))
    catalog_id (Some collections) (Some principals) = inr af ->
  compile_read_access_filter (Some (module_perms attributes custom_policies r))
    catalog_id (Some [c]) (Some principals) = inr af_c ->
  admits af d = admits af_c d.
Proof.
  intros Hlen Hc Hdoc Haf Haf_c. simpl in Haf_c.
  assert (exists fs, af = union_of fs /\
    Forall2 (fun c f => module_perms attributes custom_policies r principals catalog_id (Some c) = inr f)
      collections fs) as (fs & -> & Hfs).
  { destruct collections as [|c1 [|c2 cs]]; [simpl in *; lia..|]. unfold compile_read_access_filter in Haf.
    simpl default in Haf. cbv beta iota in Haf.
    destruct (compile_each _ (c1 :: c2 :: cs)) as [|fs] eqn:Ee; [done|]. exists fs.
    split; [by injection Haf|]. by apply compile_each_spec. }
  rewrite union_of_spec. apply eq_true_iff_eq. rewrite existsb_elem. split.
  - intros (f & Hf & Hadm). destruct (Forall2_elem_r _ _ _ _ Hfs Hf) as (c' & Hc' & Hcomp).
    assert (Hpin := module_perms_scoped _ _ _ _ _ _ _ _ Hcomp Hadm).
    unfold field_matches in Hpin; simpl in Hpin. rewrite Hdoc in Hpin. simpl in Hpin.
    rewrite orb_false_r in Hpin. bool_hyps; subst. congruence.
  - intros Hadm. destruct (Forall2_elem_l _ _ _ _ Hfs Hc) as (f & Hf & Hcomp).
    exists f. split; [done|]. congruence.
Qed.

(** ** Witnesses *)

Definition demo_scope (rows : list grant_row) (collections : list string) : AccessFilter :=
  match compile_read_access_filter (Some (@module_perms (demo_backend rows) demo_runtime [] [] []))
          (Some "cat") (Some collections) (Some ["reader"]) with
  | inr f => f
  | inl _ => deny_everything false
  end.

Definition doc_of (collection : string) : document :=
  [("catalog_id", DScalar (SStr "cat")); ("collection_id", DScalar (SStr collection))].

(** Witness of C38: a query over two collections, on a document of the first. *)
Lemma multi_collection_isolation_witness :
  @admits demo_runtime (demo_scope [] ["a"; "b"]) (doc_of "a")
  = @admits demo_runtime (demo_scope [] ["a"]) (doc_of "a") /\
  @admits demo_runtime (demo_scope [] ["a"]) (doc_of "a") = true.
Proof.
  split; [|by vm_compute].
  apply (@multi_collection_isolation (demo_backend []) demo_runtime [] [] [] (Some "cat") ["a"; "b"] ["reader"]
           _ _ "a"); [simpl; lia|by apply list_elem_of_here|done|by vm_compute|by vm_compute].
Defined.

(** ** Grants and the read scope

    The scope compiler does not pass the principal id, so no grant row reaches
    the read filter: a document that a direct GET denies through a deny grant
    is admitted by the filter of a search. *)
Lemma deny_grant_absent_from_read_scope :
  @admits demo_runtime (demo_scope [deny_editor] ["a"]) (doc_of "a") = true /\
  (@service_evaluate_access (demo_backend [deny_editor]) demo_runtime unit demo_services
     ["reader"] "/stac/catalogs/cat/collections/a/items" "GET" demo_ctx (Some "cat") [] (Some "u") (Some "a") tt).1
  = inr (false, "Explicit DENY by policy read").
Proof. by vm_compute. Qed.
