(* ===== verification/CircuitBreaker.v ===== *)
(** * The per-indexer circuit breaker

    [storage/circuit_breaker.py].  Every public method takes the breaker lock,
    so a method is one atomic operation on the state; the monotonic clock is
    an argument, in ticks. *)

From stdpp Require Import gmap strings.
From S2P Require Import Prelude.

Inductive CircuitState : Type := CLOSED | OPEN | HALF_OPEN.

#[global] Instance CircuitState_eq_dec : EqDecision CircuitState.
Proof. solve_decision. Defined.

Record IndexerCircuit : Type := mkCircuit {
  c_state : CircuitState;
  consecutive_failures : Z;
  opened_at : option Z;
}.

Definition new_circuit : IndexerCircuit := mkCircuit CLOSED 0 None.

Record CircuitBreaker : Type := mkBreaker {
  threshold : Z;
  cooldown : Z;
  circuits : gmap string IndexerCircuit;
}.

Definition set_circuit (id : string) (c : IndexerCircuit) (b : CircuitBreaker) : CircuitBreaker :=
  mkBreaker (threshold b) (cooldown b) (<[id := c]> (circuits b)).

(** [__init__]. *)
Definition make_breaker (failure_threshold cooldown_seconds : Z) : exn + CircuitBreaker :=
  if failure_threshold <? 1 then inl ValueError
  else if cooldown_seconds <=? 0 then inl ValueError
  else inr (mkBreaker failure_threshold cooldown_seconds ∅).

Definition is_open (now : Z) (id : string) (b : CircuitBreaker) : bool * CircuitBreaker :=
  match circuits b !! id with
  | None => (false, b)
  | Some c =>
      match c_state c with
      | CLOSED | HALF_OPEN => (false, b)
      | OPEN =>
          match opened_at c with
          | Some t =>
              if cooldown b <=? now - t
              then (false, set_circuit id (mkCircuit HALF_OPEN (consecutive_failures c) (opened_at c)) b)
              else (true, b)
          | None => (true, b)
          end
      end
  end.

Definition record_success (id : string) (b : CircuitBreaker) : CircuitBreaker :=
  match circuits b !! id with
  | None => b
  | Some _ => set_circuit id (mkCircuit CLOSED 0 None) b
  end.

Definition record_failure (now : Z) (id : string) (b : CircuitBreaker) : CircuitBreaker :=
  let c := default new_circuit (circuits b !! id) in
  let n := consecutive_failures c + 1 in
  set_circuit id
    (match c_state c with
     | HALF_OPEN => mkCircuit OPEN n (Some now)
     | CLOSED => if threshold b <=? n then mkCircuit OPEN n (Some now) else mkCircuit CLOSED n (opened_at c)
     | OPEN => mkCircuit OPEN n (opened_at c)
     end) b.

Definition state_of (id : string) (b : CircuitBreaker) : CircuitState :=
  match circuits b !! id with None => CLOSED | Some c => c_state c end.

Definition snapshot (b : CircuitBreaker) : gmap string (CircuitState * Z * option Z) :=
  (fun c => (c_state c, consecutive_failures c, opened_at c)) <$> circuits b.

Definition update_thresholds (failure_threshold cooldown_seconds : Z) (b : CircuitBreaker)
    : exn + CircuitBreaker :=
  if failure_threshold <? 1 then inl ValueError
  else if cooldown_seconds <=? 0 then inl ValueError
  else inr (mkBreaker failure_threshold cooldown_seconds (circuits b)).

Definition reset (id : option string) (b : CircuitBreaker) : CircuitBreaker :=
  match id with
  | None => mkBreaker (threshold b) (cooldown b) ∅
  | Some i => mkBreaker (threshold b) (cooldown b) (delete i (circuits b))
  end.

(** ** Operations as steps *)

Inductive op : Type :=
| IsOpen (id : string)
| Success (id : string)
| Failure (id : string)
| Update (failure_threshold cooldown_seconds : Z)
| Reset (id : option string).

(** An operation at time [now]; a rejected update leaves the breaker as it is. *)
Definition exec (now : Z) (o : op) (b : CircuitBreaker) : CircuitBreaker :=
  match o with
  | IsOpen id => (is_open now id b).2
  | Success id => record_success id b
  | Failure id => record_failure now id b
  | Update n c => match update_thresholds n c b with inr b' => b' | inl _ => b end
  | Reset id => reset id b
  end.

Fixpoint exec_all (ops : list (Z * op)) (b : CircuitBreaker) : CircuitBreaker :=
  match ops with
  | [] => b
  | (now, o) :: ops' => exec_all ops' (exec now o b)
  end.

(** Reachable at time [now], the clock never going back. *)
Inductive reachable : Z -> CircuitBreaker -> Prop :=
| reach_init now n c b : make_breaker n c = inr b -> reachable now b
| reach_step now now' o b : reachable now b -> now <= now' -> reachable now' (exec now' o b).

(** The indexers an operation acts on. *)
Definition touches (o : op) (id : string) : bool :=
  match o with
  | IsOpen i | Success i | Failure i | Reset (Some i) => i ==s id
  | Update _ _ => false
  | Reset None => true
  end.

(** ** Invariant *)

Definition circuit_ok (now : Z) (c : IndexerCircuit) : Prop :=
  0 <= consecutive_failures c /\
  match c_state c with
  | CLOSED => opened_at c = None
  | OPEN | HALF_OPEN => 1 <= consecutive_failures c /\ exists t, opened_at c = Some t /\ t <= now
  end.

Definition breaker_ok (now : Z) (b : CircuitBreaker) : Prop :=
  1 <= threshold b /\ 0 < cooldown b /\ map_Forall (fun _ => circuit_ok now) (circuits b).

Lemma circuit_ok_mono now now' c : circuit_ok now c -> now <= now' -> circuit_ok now' c.
Proof.
  unfold circuit_ok. intros [? Hc] Hle. split; [done|].
  destruct (c_state c); [done|..]; destruct Hc as [? (t & ? & ?)]; (split; [done|]); exists t; split; auto; lia.
Qed.

Lemma breaker_ok_mono now now' b : breaker_ok now b -> now <= now' -> breaker_ok now' b.
Proof.
  intros (? & ? & Hc) Hle. split_and!; [done..|]. intros i c Hi. by eapply circuit_ok_mono; eauto.
Qed.

Lemma set_circuit_ok now id c b : breaker_ok now b -> circuit_ok now c -> breaker_ok now (set_circuit id c b).
Proof. intros (? & ? & Hc) ?. split_and!; [done..|]. by apply map_Forall_insert_2. Qed.

Lemma is_open_ok now id b : breaker_ok now b -> breaker_ok now (is_open now id b).2.
Proof.
  intros Hok. unfold is_open. destruct (circuits b !! id) as [c|] eqn:Ec; [|done].
  destruct (c_state c) eqn:Es; [done| |done]. destruct (opened_at c) as [t|] eqn:Et; [|done].
  destruct (_ <=? _); [|done]. apply set_circuit_ok; [done|].
  destruct Hok as (_ & _ & Hc). specialize (Hc id c Ec). unfold circuit_ok in *. simpl.
  rewrite Es in Hc. destruct Hc as (? & ? & t' & ? & ?).
  split_and!; [done..|]. exists t'. split; [congruence|done].
Qed.

Lemma record_success_ok now id b : breaker_ok now b -> breaker_ok now (record_success id b).
Proof.
  intros Hok. unfold record_success. destruct (circuits b !! id); [|done]. by apply set_circuit_ok.
Qed.

Lemma record_failure_ok now id b : breaker_ok now b -> breaker_ok now (record_failure now id b).
Proof.
  intros Hok. unfold record_failure. apply set_circuit_ok; [done|].
  assert (circuit_ok now (default new_circuit (circuits b !! id))) as Hc.
  { destruct Hok as (_ & _ & Hc). destruct (circuits b !! id) as [c|] eqn:Ec; [|done]. by apply (Hc id). }
  destruct (default new_circuit (circuits b !! id)) as [st n o]; simpl.
  destruct Hc as [Hn Hc]; simpl in *. destruct st; simpl.
  - destruct (_ <=? _); unfold circuit_ok; simpl; subst; split; try lia; split; [lia|]. exists now. split; [done|lia].
  - destruct Hc as (? & t & -> & ?). unfold circuit_ok; simpl. split; [lia|]. split; [lia|]. eauto.
  - unfold circuit_ok; simpl. split; [lia|]. split; [lia|]. exists now. split; [done|lia].
Qed.

Lemma exec_ok now o b : breaker_ok now b -> breaker_ok now (exec now o b).
Proof.
  intros Hok. destruct o as [id|id|id|n c|[id|]]; simpl.
  - by apply is_open_ok.
  - by apply record_success_ok.
  - by apply record_failure_ok.
  - unfold update_thresholds. destruct (n <? 1) eqn:En; [done|]. destruct (c <=? 0) eqn:Ec; [done|].
    bool_hyps. destruct Hok as (? & ? & ?). split_and!; simpl; [lia..|done].
  - destruct Hok as (? & ? & Hc). split_and!; [done..|]. simpl. by apply map_Forall_delete.
  - destruct Hok as (? & ? & Hc). split_and!; [done..|]. simpl. apply map_Forall_empty.
Qed.

Lemma exec_frame now o b id : touches o id = false -> circuits (exec now o b) !! id = circuits b !! id.
Proof.
  destruct o as [i|i|i|n c|[i|]]; simpl; intros Ht; bool_hyps; try done.
  - unfold is_open. destruct (circuits b !! i) as [c|]; [|done]. destruct (c_state c); [done| |done].
    destruct (opened_at c); [|done]. destruct (_ <=? _); [|done]. by apply lookup_insert_ne.
  - unfold record_success. destruct (circuits b !! i); [|done]. by apply lookup_insert_ne.
  - by apply lookup_insert_ne.
  - unfold update_thresholds. by destruct (n <? 1), (c <=? 0).
  - by apply lookup_delete_ne.
Qed.

(** ** A streak of failures *)

(** Operations in which [id] only fails and the thresholds are not changed. *)
Definition streak_op (id : string) (o : op) : bool :=
  match o with
  | Failure _ => true
  | Update _ _ => false
  | o => negb (touches o id)
  end.

(** The times at which [id] failed. *)
Definition failure_times (id : string) (ops : list (Z * op)) : list Z :=
  omap (fun e => match e.2 with
                 | Failure i => if i ==s id then Some e.1 else None
                 | _ => None
                 end) ops.

(** The circuit after failures at [times]: it opens at the [n]-th of them. *)
Definition streak_circuit (n : Z) (times : list Z) : option IndexerCircuit :=
  match times with
  | [] => None
  | _ =>
      let k := Z.of_nat (length times) in
      Some (if k <? n then mkCircuit CLOSED k None
            else mkCircuit OPEN k (times !! Z.to_nat (n - 1)))
  end.

Lemma exec_thresholds now o b id :
  streak_op id o = true -> threshold (exec now o b) = threshold b.
Proof.
  destruct o as [i|i|i|n c|[i|]]; simpl; intros Ht; try done.
  - unfold is_open. destruct (circuits b !! i) as [c|]; [|done]. destruct (c_state c); [done| |done].
    destruct (opened_at c); [|done]. by destruct (_ <=? _).
  - unfold record_success. by destruct (circuits b !! i).
Qed.

Lemma record_failure_streak now id b times :
  1 <= threshold b -> circuits b !! id = streak_circuit (threshold b) times ->
  circuits (record_failure now id b) !! id = streak_circuit (threshold b) (times ++ [now]).
Proof.
  intros Hn Hc. unfold record_failure, set_circuit. cbn [circuits]. rewrite lookup_insert_eq, Hc.
  unfold streak_circuit. rewrite length_app. simpl length.
  replace (Z.of_nat (length times + 1)) with (Z.of_nat (length times) + 1) by lia.
  destruct times as [|t0 times0]; simpl app.
  - simpl. change (Z.of_nat 0 + 1) with 1. change (0 + 1) with 1.
    destruct (threshold b <=? 1) eqn:E1, (1 <? threshold b) eqn:E2; bool_hyps; try lia; try done.
    by replace (Z.to_nat (threshold b - 1)) with 0%nat by lia.
  - set (times := t0 :: times0). change (t0 :: times0 ++ [now]) with (times ++ [now]).
    assert (exists k, k = Z.of_nat (length times)) as [k Hk] by eauto. rewrite <-Hk. clearbody times.
    assert (forall o : option IndexerCircuit, match times ++ [now] with [] => None | _ :: _ => o end = o)
      as Hne by by destruct times.
    rewrite Hne.
    destruct (k <? threshold b) eqn:Ek; simpl.
    + destruct (threshold b <=? k + 1) eqn:E1, (k + 1 <? threshold b) eqn:E2; bool_hyps; try lia; try done.
      f_equal. f_equal. rewrite lookup_app_r by lia.
      by replace (Z.to_nat (threshold b - 1) - length times)%nat with 0%nat by lia.
    + assert (k + 1 <? threshold b = false) as -> by (bool_hyps; apply Z.ltb_ge; lia). bool_hyps.
      f_equal. f_equal. by rewrite lookup_app_l by lia.
Qed.

Lemma exec_all_streak ops id b times :
  1 <= threshold b -> forallb (fun e => streak_op id e.2) ops = true ->
  circuits b !! id = streak_circuit (threshold b) times ->
  circuits (exec_all ops b) !! id = streak_circuit (threshold b) (times ++ failure_times id ops).
Proof.
  revert b times. induction ops as [|[now o] ops IH]; intros b times Hn Hops Hc; cbn [exec_all].
  { by rewrite app_nil_r. }
  simpl in Hops. apply andb_true_iff in Hops as [Ho Hops].
  assert (Ht := exec_thresholds now o b id Ho).
  destruct (match o with Failure i => i ==s id | _ => false end) eqn:Ef.
  - destruct o as [| |i| |]; try done. bool_hyps; subst i. cbn [exec] in *.
    assert (failure_times id ((now, Failure id) :: ops) = now :: failure_times id ops) as ->
      by (unfold failure_times; simpl; by rewrite String.eqb_refl).
    rewrite (IH _ (times ++ [now])); [by rewrite Ht, <-app_assoc|by rewrite Ht|done|].
    rewrite Ht. by apply record_failure_streak.
  - assert (touches o id = false) as Hfr by (destruct o as [| |i| |[]]; simpl in *; try apply negb_true_iff in Ho; done).
    assert (failure_times id ((now, o) :: ops) = failure_times id ops) as Hft.
    { unfold failure_times; simpl. destruct o as [| |i| |]; try done. by rewrite Ef. }
    rewrite Hft.
    rewrite (IH _ times); [by rewrite Ht|by rewrite Ht|done|]. by rewrite Ht, exec_frame.
Qed.

(** ** Properties *)

(** In every reachable state each circuit is consistent:
    a closed one has no opening time, an open or half-open one has failed at
    least once and was opened at a past time, and the configuration is in range. *)
Theorem breaker_invariant (now : Z) (b : CircuitBreaker) : reachable now b -> breaker_ok now b.
Proof.
  induction 1 as [now n c b Hb|now now' o b _ IH Hle].
  - unfold make_breaker in Hb. destruct (n <? 1) eqn:En, (c <=? 0) eqn:Ec; simplify_eq; bool_hyps.
    split_and!; simpl; [lia..|]. apply map_Forall_empty.
  - by apply exec_ok, (breaker_ok_mono now).
Qed.

(** The breaker trips at exactly the threshold-th
    consecutive failure of an indexer, whatever happens to the other indexers
    in between: before it the circuit is closed and counts the failures, from
    it on the circuit is open since the time of that failure. *)
Theorem trips_at_threshold (b : CircuitBreaker) (id : string) (ops : list (Z * op)) :
  1 <= threshold b -> circuits b !! id = None ->
  forallb (fun e => streak_op id e.2) ops = true ->
  circuits (exec_all ops b) !! id = streak_circuit (threshold b) (failure_times id ops).
Proof. intros Hn Hc Hops. by apply (exec_all_streak ops id b []). Qed.

(** An open circuit rejects calls for exactly the cooldown;
    then a probe is let through, whose success closes the circuit and whose
    failure opens it again for a full cooldown. *)
Theorem cooldown_and_probe (b : CircuitBreaker) (id : string) (n t now : Z) :
  circuits b !! id = Some (mkCircuit OPEN n (Some t)) -> 0 < cooldown b ->
  let '(rejected, b1) := is_open now id b in
  rejected = (now <? t + cooldown b) /\
  (rejected = true -> b1 = b) /\
  (rejected = false ->
     state_of id b1 = HALF_OPEN /\
     circuits (record_success id b1) !! id = Some new_circuit /\
     forall fail later, (is_open later id (record_failure fail id b1)).1 = (later <? fail + cooldown b)).
Proof.
  intros Hc Hcd. unfold is_open at 1. rewrite Hc. cbn [c_state opened_at consecutive_failures].
  destruct (cooldown b <=? now - t) eqn:E; bool_hyps.
  - split_and!; [symmetry; apply Z.ltb_ge; lia|done|]. intros _. split_and!.
    + unfold state_of, set_circuit. cbn [circuits]. by rewrite lookup_insert_eq.
    + unfold record_success, set_circuit. cbn [circuits]. rewrite lookup_insert_eq. cbn [circuits].
      by rewrite lookup_insert_eq.
    + intros fail later. unfold is_open, record_failure, set_circuit. cbn [circuits].
      rewrite !lookup_insert_eq. simpl.
      destruct (cooldown b <=? later - fail) eqn:E2, (later <? fail + cooldown b) eqn:E3; bool_hyps; done || lia.
  - split_and!; [symmetry; apply Z.ltb_lt; lia|done|done].
Qed.

(** ** Witnesses *)

Definition demo_breaker : CircuitBreaker := mkBreaker 2 30 ∅.

(** Witness of [breaker_invariant]. *)
Lemma breaker_invariant_witness : breaker_ok 5 (record_failure 5 "es" demo_breaker).
Proof.
  apply (breaker_invariant 5 (record_failure 5 "es" demo_breaker)).
  refine (reach_step 0 5 (Failure "es") demo_breaker _ _); [by apply (reach_init 0 2 30)|lia].
Defined.

(** Witness of [trips_at_threshold]: two failures of [es] around a failure of another indexer. *)
Lemma trips_at_threshold_witness :
  circuits (exec_all [(1, Failure "es"); (2, Failure "vec"); (3, Failure "es"); (4, Failure "es")] demo_breaker)
    !! "es" = Some (mkCircuit OPEN 3 (Some 3)).
Proof.
  exact (trips_at_threshold demo_breaker "es"
    [(1, Failure "es"); (2, Failure "vec"); (3, Failure "es"); (4, Failure "es")] ltac:(simpl; lia) eq_refl eq_refl).
Defined.

(** Witness of [cooldown_and_probe]. *)
Lemma cooldown_and_probe_witness :
  let b := mkBreaker 2 30 {["es" := mkCircuit OPEN 2 (Some 3)]} in
  let '(rejected, b1) := is_open 40 "es" b in
  rejected = (40 <? 3 + 30) /\
  (rejected = true -> b1 = b) /\
  (rejected = false ->
     state_of "es" b1 = HALF_OPEN /\
     circuits (record_success "es" b1) !! "es" = Some new_circuit /\
     forall fail later, (is_open later "es" (record_failure fail "es" b1)).1 = (later <? fail + 30)).
Proof.
  exact (cooldown_and_probe (mkBreaker 2 30 {["es" := mkCircuit OPEN 2 (Some 3)]}) "es" 2 3 40 eq_refl eq_refl).
Defined.
