(* ===== verification/Leases.v ===== *)
(** * Leader leases

    [modules/db_config/locking_tools.py]: leader election through the table
    [configs.leader_lease].  A process acquires or renews a lease with one
    compare-and-set statement; a losing answer, an error or an open breaker all
    mean "not the leader".

    A database transaction is one step ([run_attempt]); [now] is the database
    clock of the transaction, in seconds.  [lease_cas_round_trip] is the retried
    call of one process, with the shared circuit breaker of CircuitBreaker.
    The world of the theorems interleaves the transactions and releases of any
    number of processes, and the control-plane retention of
    [catalog/maintenance_supervisor.py], which deletes rows long expired. *)

From S2P Require Import Prelude CircuitBreaker.

(** ** The table *)

Record lease : Type := mkLease {
  ls_name : string;
  ls_owner : string;
  ls_epoch : Z;
  ls_acquired : Z;
  ls_renewed : Z;
  ls_expires : Z;
}.
Abbreviation lease_table := (gmap Z lease).

(** [_LEASE_PRECHECK_SQL] and its test: a live lease of another owner. *)
Definition lease_precheck (now : Z) (owner : string) (key : Z) (t : lease_table) : bool :=
  match t !! key with
  | Some l => negb (ls_owner l ==s owner) && (now <? ls_expires l)
  | None => false
  end.

(** [_LEASE_CAS_SQL]: the returned [(owner, epoch)], and the table. *)
Definition lease_cas (now ttl : Z) (name owner : string) (key : Z) (t : lease_table)
    : option (string * Z) * lease_table :=
  match t !! key with
  | None => (Some (owner, 1), <[key := mkLease name owner 1 now now (now + ttl)]> t)
  | Some l =>
      let own := ls_owner l ==s owner in
      if (ls_expires l <? now) || own then
        let epoch := if own then ls_epoch l else ls_epoch l + 1 in
        let acquired := if own then ls_acquired l else now in
        (Some (owner, epoch), <[key := mkLease (ls_name l) owner epoch acquired now (now + ttl)]> t)
      else (None, t)
  end.

(** [_lease_best_effort_release]: the statement; it may also fail. *)
Definition lease_release (now : Z) (owner : string) (key : Z) (t : lease_table) : lease_table :=
  match t !! key with
  | Some l =>
      if ls_owner l ==s owner
      then <[key := mkLease (ls_name l) (ls_owner l) (ls_epoch l) (ls_acquired l) (ls_renewed l) now]> t
      else t
  | None => t
  end.

(** [_run_control_plane_retention]: one batch of rows expired for longer than the grace. *)
Definition LEASE_GRACE_SECONDS : Z := 600.
Definition lease_stale (now : Z) (t : lease_table) (key : Z) : bool :=
  match t !! key with Some l => ls_expires l <? now - LEASE_GRACE_SECONDS | None => false end.
Definition prune_leases (now : Z) (batch : list Z) (t : lease_table) : lease_table :=
  filter (fun kl => ~ (kl.1 ∈ batch /\ ls_expires kl.2 < now - LEASE_GRACE_SECONDS)) t.

(** ** One transaction

    How the transaction of [_run_cas] ends.  A dropped connection may lose the
    answer of a statement that was committed. *)
Inductive fate : Type :=
| Answered
| TransientDrop (committed : bool)
| LockNotAvailable
| PoolSaturation
| DbFailure (committed : bool).

Inductive answer : Type :=
| Row (owner : string) (epoch : Z)
| NoRow
| Raised (f : fate).

Definition committed_fate (f : fate) : bool :=
  match f with
  | Answered => true
  | TransientDrop c | DbFailure c => c
  | LockNotAvailable | PoolSaturation => false
  end.

Definition run_attempt (now ttl : Z) (name owner : string) (key : Z) (f : fate) (t : lease_table)
    : answer * lease_table :=
  let '(row, t') :=
    if lease_precheck now owner key t then (None, t) else lease_cas now ttl name owner key t in
  match f with
  | Answered => (match row with Some (o, e) => Row o e | None => NoRow end, t')
  | _ => (Raised f, if committed_fate f then t' else t)
  end.

(** ** The round trip *)

Definition LEASE_BREAKER_KEY : string := "leader_lease".
Definition MAX_RETRIES : nat := 3.

(** [retry_on_transient_connect]: [retries] more attempts after a drop.  The
    fates and clocks of the attempts are inputs. *)
Fixpoint run_cas (ttl : Z) (name owner : string) (key : Z) (retries : nat) (script : list (Z * fate))
    (t : lease_table) {struct script} : answer * lease_table :=
  match script with
  | [] => (NoRow, t)
  | (now, f) :: script =>
      match run_attempt now ttl name owner key f t with
      | (Raised (TransientDrop c), t') =>
          match retries with
          | O => (Raised (TransientDrop c), t')
          | S retries => run_cas ttl name owner key retries script t'
          end
      | r => r
      end
  end.

(** The row, or [None] for every way of not being the leader; the breaker uses
    the process clock [mono]. *)
Definition lease_cas_round_trip (mono ttl : Z) (name owner : string) (key : Z) (script : list (Z * fate))
    (b : CircuitBreaker) (t : lease_table) : option (string * Z) * CircuitBreaker * lease_table :=
  let (opened, b) := is_open mono LEASE_BREAKER_KEY b in
  if opened then (None, b, t)
  else
    match run_cas ttl name owner key MAX_RETRIES script t with
    | (Row o e, t') => (Some (o, e), record_success LEASE_BREAKER_KEY b, t')
    | (NoRow, t') => (None, record_success LEASE_BREAKER_KEY b, t')
    | (Raised (LockNotAvailable | PoolSaturation), t') => (None, b, t')
    | (Raised _, t') => (None, record_failure mono LEASE_BREAKER_KEY b, t')
    end.

(** [renew_lease]: whether the process is still the leader. *)
Definition renew_lease (mono ttl : Z) (name owner : string) (key : Z) (script : list (Z * fate))
    (b : CircuitBreaker) (t : lease_table) : bool * CircuitBreaker * lease_table :=
  match lease_cas_round_trip mono ttl name owner key script b t with
  | (row, b', t') => (match row with Some _ => true | None => false end, b', t')
  end.

(** ** The world *)

(** [held]: the tenures of the processes, with the database time of the last
    answered win.  [pruned]: how often the row of a key has been deleted.  [wins]: every
    answered win so far, with the count of deletions at that time. *)
Record world : Type := mkWorld {
  w_now : Z;
  w_leases : lease_table;
  w_held : gmap (string * Z) Z;
  w_pruned : Z -> nat;
  w_wins : list (Z * nat * string * Z);
}.

Section world.
Context (ttl : Z).

(** A process acts on the answer: a row starts or renews its tenure, anything
    else that ends the call ends it; a retried drop changes nothing. *)
Definition note_answer (now : Z) (owner : string) (key : Z) (a : answer) (t : lease_table) (w : world) : world :=
  match a with
  | Row o e => mkWorld now t (<[(owner, key) := now]> (w_held w)) (w_pruned w) ((key, w_pruned w key, o, e) :: w_wins w)
  | Raised (TransientDrop _) => mkWorld now t (w_held w) (w_pruned w) (w_wins w)
  | NoRow | Raised _ => mkWorld now t (delete (owner, key) (w_held w)) (w_pruned w) (w_wins w)
  end.

Inductive wstep : world -> world -> Prop :=
| step_attempt (now : Z) (name owner : string) (key : Z) (f : fate) (a : answer) (t' : lease_table) (w : world) :
    w_now w <= now -> run_attempt now ttl name owner key f (w_leases w) = (a, t') ->
    wstep w (note_answer now owner key a t' w)
(** the exit of the context manager: the tenure is over, then the release runs
    or fails *)
| step_exit (now : Z) (owner : string) (key : Z) (ok : bool) (w : world) :
    w_now w <= now ->
    wstep w (mkWorld now (if ok then lease_release now owner key (w_leases w) else w_leases w)
                     (delete (owner, key) (w_held w)) (w_pruned w) (w_wins w))
(** a call that ends without a transaction: the breaker is open, or the last
    retry was dropped *)
| step_decline (now : Z) (owner : string) (key : Z) (w : world) :
    w_now w <= now -> wstep w (mkWorld now (w_leases w) (delete (owner, key) (w_held w)) (w_pruned w) (w_wins w))
(** a batch of the retention *)
| step_prune (now : Z) (batch : list Z) (w : world) :
    w_now w <= now ->
    wstep w (mkWorld now (prune_leases now batch (w_leases w)) (w_held w)
               (fun key => if bool_decide (key ∈ batch) && lease_stale now (w_leases w) key then S (w_pruned w key) else w_pruned w key) (w_wins w))
| step_clock (now : Z) (w : world) :
    w_now w <= now -> wstep w (mkWorld now (w_leases w) (w_held w) (w_pruned w) (w_wins w)).

Definition start (w : world) : Prop := w_leases w = ∅ /\ w_held w = ∅ /\ w_wins w = [].

(** ** Invariant *)

(** A tenure that has not outlived its lease is the row of the table. *)
Definition tenure_ok (w : world) : Prop :=
  forall (owner : string) (key won : Z), w_held w !! (owner, key) = Some won ->
    won <= w_now w /\
    (won + ttl < w_now w \/
     exists l, w_leases w !! key = Some l /\ ls_owner l = owner /\ won + ttl <= ls_expires l).

(** An answered win is of a row since deleted, or never exceeds the epoch of the row,
    and the epoch tells the owner. *)
Definition win_ok (t : lease_table) (pruned : Z -> nat) (key : Z) (gen : nat) (owner : string) (epoch : Z) : Prop :=
  (gen < pruned key)%nat \/
  gen = pruned key /\ exists l, t !! key = Some l /\ (epoch < ls_epoch l \/ epoch = ls_epoch l /\ owner = ls_owner l).
Definition wins_ok (w : world) : Prop :=
  forall (key : Z) (gen : nat) (owner : string) (epoch : Z), (key, gen, owner, epoch) ∈ w_wins w ->
    win_ok (w_leases w) (w_pruned w) key gen owner epoch.

(** What a deletion leaves. *)
Lemma prune_lookup (now : Z) (batch : list Z) (t : lease_table) (key : Z) :
  prune_leases now batch t !! key = if bool_decide (key ∈ batch) && lease_stale now t key then None else t !! key.
Proof.
  unfold prune_leases, lease_stale. destruct (t !! key) as [l|] eqn:E; [|rewrite andb_false_r; by apply map_lookup_filter_None_2; left].
  destruct (bool_decide_reflect (key ∈ batch)), (Z.ltb_spec (ls_expires l) (now - LEASE_GRACE_SECONDS)); cbn [andb];
    [apply map_lookup_filter_None_2; right; intros ? Hx Hn; simplify_eq; cbn in Hn; tauto|apply map_lookup_filter_Some_2; [done|]; cbn; lia
    |apply map_lookup_filter_Some_2; [done|]; cbn; tauto..].
Qed.

(** What a compare-and-set leaves of another row or owner. *)
Lemma cas_spec (now : Z) (name owner : string) (key : Z) (t : lease_table) row (t' : lease_table) :
  lease_cas now ttl name owner key t = (row, t') ->
  (forall k, k <> key -> t' !! k = t !! k) /\
  match row with
  | Some (o, e) =>
      o = owner /\
      (exists l, t' !! key = Some l /\ ls_owner l = owner /\ ls_epoch l = e /\ ls_expires l = now + ttl) /\
      (forall l, t !! key = Some l ->
         (ls_owner l = owner /\ e = ls_epoch l) \/
         (ls_owner l <> owner /\ ls_expires l < now /\ e = ls_epoch l + 1))
  | None => t' = t
  end.
Proof.
  unfold lease_cas. destruct (t !! key) as [l|] eqn:E.
  - destruct (String.eqb_spec (ls_owner l) owner) as [Ho|Ho]; rewrite ?orb_true_r, ?orb_false_r.
    + intros [= <- <-]. split; [intros; by rewrite lookup_insert_ne|].
      split_and!; [done| |].
      * eexists. rewrite lookup_insert_eq. by split_and!.
      * intros ? [= <-]. by left.
    + destruct (Z.ltb_spec (ls_expires l) now).
      * intros [= <- <-]. split; [intros; by rewrite lookup_insert_ne|].
        split_and!; [done| |].
        -- eexists. rewrite lookup_insert_eq. by split_and!.
        -- intros ? [= <-]. by right.
      * by intros [= <- <-].
  - intros [= <- <-]. split; [intros; by rewrite lookup_insert_ne|].
    split_and!; [done| |done]. eexists. rewrite lookup_insert_eq. by split_and!.
Qed.

(** A transaction leaves the table as it was or as the compare-and-set does;
    the answer is a row only for the latter. *)
Lemma attempt_spec (now : Z) (name owner : string) (key : Z) (f : fate) (t : lease_table) (a : answer) (t' : lease_table) :
  run_attempt now ttl name owner key f t = (a, t') ->
  (t' = t /\ (forall o e, a <> Row o e)) \/
  exists o e, lease_cas now ttl name owner key t = (Some (o, e), t') /\
    (a = Row o e \/ exists f, a = Raised f).
Proof.
  unfold run_attempt. destruct (lease_precheck now owner key t).
  { destruct f as [|[]| | |[]]; intros [= <- <-]; by left. }
  destruct (lease_cas now ttl name owner key t) as [[[o e]|] t1] eqn:Ec.
  - destruct f as [|[]| | |[]]; intros [= <- <-]; first [by left|right; exists o, e; eauto].
  - destruct (cas_spec _ _ _ _ _ _ _ Ec) as [_ ->].
    destruct f as [|[]| | |[]]; intros [= <- <-]; by left.
Qed.

(** The table after a compare-and-set that took effect: other tenures on the key
    have outlived their lease. *)
Lemma cas_tenure (now : Z) (name owner : string) (key : Z) o e (t' : lease_table) (w : world) :
  w_now w <= now -> tenure_ok w -> lease_cas now ttl name owner key (w_leases w) = (Some (o, e), t') ->
  forall (owner' : string) (key' won : Z), w_held w !! (owner', key') = Some won ->
    won <= now /\
    (won + ttl < now \/
     exists l, t' !! key' = Some l /\ ls_owner l = owner' /\ won + ttl <= ls_expires l).
Proof.
  intros Hn Hok Hc owner' key' won Hh. destruct (Hok _ _ _ Hh) as [Hw Ht]. split; [lia|].
  destruct (cas_spec _ _ _ _ _ _ _ Hc) as (Hne & -> & (l & Hl & Ho & _ & Hx) & Hold).
  destruct Ht as [Ht|(l0 & Hl0 & Ho0 & Hx0)]; [left; lia|].
  destruct (decide (key' = key)) as [->|Hk]; [|right; exists l0; by rewrite Hne].
  destruct (Hold l0 Hl0) as [[Ho1 _]|(Ho1 & Hlt & _)].
  - right. exists l. split_and!; [done|congruence|lia].
  - left. lia.
Qed.

Lemma wstep_tenure w w' : wstep w w' -> tenure_ok w -> tenure_ok w'.
Proof.
  intros Hs Hok. destruct Hs as [now name owner key f a t' w Hn Hr|now owner key ok w Hn|now owner key w Hn|now batch w Hn|now w Hn].
  - assert (forall (owner' : string) (key' won : Z), w_held w !! (owner', key') = Some won ->
      won <= now /\ (won + ttl < now \/
        exists l, t' !! key' = Some l /\ ls_owner l = owner' /\ won + ttl <= ls_expires l)) as Hkeep.
    { destruct (attempt_spec _ _ _ _ _ _ _ _ Hr) as [[-> _]|(o & e & Hc & _)]; [|by eapply cas_tenure].
      intros owner' key' won Hh. destruct (Hok _ _ _ Hh) as [? [?|?]]; (split; [lia|]); [left; lia|by right]. }
    destruct a as [o e| |[]]; intros owner' key' won; cbn [note_answer w_held w_now w_leases];
      try (intros [_ Hh]%lookup_delete_Some; by apply Hkeep); try by apply Hkeep.
    intros [[[= <- <-] <-]|[_ Hh]]%lookup_insert_Some; [|by apply Hkeep]. split; [lia|]. right.
    destruct (attempt_spec _ _ _ _ _ _ _ _ Hr) as [[_ Hno]|(o' & e' & Hc & _)]; [by destruct (Hno o e)|].
    destruct (cas_spec _ _ _ _ _ _ _ Hc) as (_ & -> & (l & Hl & Ho & _ & Hx) & _).
    exists l. split_and!; [done..|lia].
  - intros owner' key' won. cbn. intros [Hne Hh]%lookup_delete_Some.
    destruct (Hok _ _ _ Hh) as [Hw Ht]. split; [lia|]. destruct Ht as [Ht|(l & Hl & Ho & Hx)]; [left; lia|].
    right. exists l. split_and!; [|done..]. destruct ok; [|done]. unfold lease_release.
    destruct (w_leases w !! key) as [l'|] eqn:E; [|done].
    destruct (String.eqb_spec (ls_owner l') owner) as [Ho'|]; [|done].
    rewrite lookup_insert_ne; [done|]. intros ->. congruence.
  - intros owner' key' won. cbn. intros [_ Hh]%lookup_delete_Some.
    destruct (Hok _ _ _ Hh) as [Hw Ht]. split; [lia|]. destruct Ht; [left; lia|by right].
  - intros owner' key' won Hh. cbn in Hh. destruct (Hok _ _ _ Hh) as [Hw Ht]. cbn [w_now w_leases]. split; [lia|].
    destruct Ht as [Ht|(l & Hl & Ho & Hx)]; [left; lia|]. rewrite prune_lookup.
    destruct (bool_decide _ && _) eqn:Ep; [|right; by exists l]. left. apply andb_true_iff in Ep as [_ Ep].
    unfold lease_stale in Ep. rewrite Hl in Ep. apply Z.ltb_lt in Ep. unfold LEASE_GRACE_SECONDS in Ep. lia.
  - intros owner' key' won Hh. cbn in Hh.
    destruct (Hok _ _ _ Hh) as [Hw Ht]. split; [cbn; lia|]. destruct Ht; [left; cbn; lia|by right].
Qed.

Lemma cas_wins (now : Z) (name owner : string) (key : Z) o e (t' : lease_table) (w : world) :
  wins_ok w -> lease_cas now ttl name owner key (w_leases w) = (Some (o, e), t') ->
  forall (k : Z) (gen : nat) (owner' : string) (epoch : Z), (k, gen, owner', epoch) ∈ (key, w_pruned w key, o, e) :: w_wins w ->
    win_ok t' (w_pruned w) k gen owner' epoch.
Proof.
  intros Hok Hc k gen owner' epoch. destruct (cas_spec _ _ _ _ _ _ _ Hc) as (Hne & -> & (l & Hl & Ho & He & _) & Hold).
  intros [[= -> -> -> ->]|Hin]%elem_of_cons; [right; split; [done|]; exists l; split; [done|]; right; by rewrite He, Ho|].
  destruct (Hok _ _ _ _ Hin) as [|(-> & l0 & Hl0 & Hep)]; [by left|]. right. split; [done|].
  destruct (decide (k = key)) as [->|Hk]; [|exists l0; by rewrite Hne].
  exists l. split; [done|]. destruct (Hold l0 Hl0) as [[Ho1 He1]|(_ & _ & He1)].
  - destruct Hep as [|[-> ->]]; [left; lia|right; split; congruence].
  - left. destruct Hep as [|[-> _]]; lia.
Qed.

Lemma release_row (now : Z) (owner : string) (key : Z) (t : lease_table) (k : Z) (l : lease) :
  t !! k = Some l ->
  exists l', lease_release now owner key t !! k = Some l' /\ ls_epoch l' = ls_epoch l /\ ls_owner l' = ls_owner l.
Proof.
  intros Hl. unfold lease_release. destruct (t !! key) as [l0|] eqn:E; [|by eauto].
  destruct (ls_owner l0 ==s owner); [|by eauto]. destruct (decide (k = key)) as [->|Hne].
  - rewrite lookup_insert_eq. simplify_eq. eauto.
  - rewrite lookup_insert_ne by done. eauto.
Qed.

Lemma wstep_wins w w' : wstep w w' -> wins_ok w -> wins_ok w'.
Proof.
  intros Hs Hok. destruct Hs as [now name owner key f a t' w Hn Hr|now owner key ok w Hn|now owner key w Hn|now batch w Hn|now w Hn];
    [|intros k gen o e Hin; cbn in Hin; destruct (Hok _ _ _ _ Hin) as [|(-> & l & Hl & He)]; [by left|]|done| |done].
  - destruct (attempt_spec _ _ _ _ _ _ _ _ Hr) as [[-> Hno]|(o & e & Hc & Ha)].
    + destruct a as [o e| |[]]; [by destruct (Hno o e)|exact Hok..].
    + pose proof (cas_wins _ _ _ _ _ _ _ _ Hok Hc) as Hw.
      destruct Ha as [->|[g ->]]; [exact Hw|].
      destruct g; intros k gen o' e' Hin; apply Hw; by right.
  - right. split; [done|]. cbn [w_leases]. destruct ok; [|by exists l].
    destruct (release_row now owner key _ _ _ Hl) as (l' & Hl' & He' & Ho').
    exists l'. split; [exact Hl'|]. by rewrite He', Ho'.
  - intros k gen o e Hin. unfold win_ok. cbn [w_leases w_pruned w_wins] in *. rewrite prune_lookup.
    destruct (Hok _ _ _ _ Hin) as [?|(-> & l & Hl & He)]; destruct (bool_decide _ && _); [left; lia|by left|left; lia|].
    right. split; [done|]. by exists l.
Qed.

(** No two owners won the same epoch of a row. *)
Definition wins_unique (w : world) : Prop :=
  forall (key : Z) (gen : nat) (o o' : string) (epoch : Z),
    (key, gen, o, epoch) ∈ w_wins w -> (key, gen, o', epoch) ∈ w_wins w -> o = o'.

Lemma wstep_wins_unique w w' : wstep w w' -> wins_ok w -> wins_unique w -> wins_unique w'.
Proof.
  intros Hs Hok Hu. destruct Hs as [now name owner key f a t' w Hn Hr| | | |]; [|exact Hu..].
  destruct a as [o e| |[]]; try exact Hu.
  destruct (attempt_spec _ _ _ _ _ _ _ _ Hr) as [[_ Hno]|(o1 & e1 & Hc & Ha)]; [by destruct (Hno o e)|].
  assert (o1 = o /\ e1 = e) as [-> ->] by (destruct Ha as [|[? ?]]; simplify_eq; done).
  pose proof (cas_wins _ _ _ _ _ _ _ _ Hok Hc) as Hw.
  destruct (cas_spec _ _ _ _ _ _ _ Hc) as (_ & -> & (l & Hl & Ho & He & _) & _).
  assert (forall o', (key, w_pruned w key, o', e) ∈ (key, w_pruned w key, owner, e) :: w_wins w -> o' = owner) as Hnew.
  { intros o' Hin. destruct (Hw _ _ _ _ Hin) as [?|(_ & l' & Hl' & [?|[_ ?]])]; simplify_eq; [lia|lia|done]. }
  intros k gen x y ep Hx Hy. cbn in Hx, Hy.
  destruct (decide (k = key /\ gen = w_pruned w key /\ ep = e)) as [(-> & -> & ->)|Hne]; [by rewrite (Hnew x Hx), (Hnew y Hy)|].
  apply elem_of_cons in Hx as [?|Hx], Hy as [?|Hy]; simplify_eq; [by destruct Hne..|]. by eapply Hu.
Qed.

Lemma history_ok w w' : rtc wstep w w' -> start w -> tenure_ok w' /\ wins_ok w' /\ wins_unique w'.
Proof.
  intros Hr (Ht & Hh & Hw). assert (tenure_ok w /\ wins_ok w /\ wins_unique w) as Hok.
  { split_and!; [intros o k won; by rewrite Hh, lookup_empty|intros k gen o e; rewrite Hw; by intros ?%elem_of_nil|].
    intros k gen o o' e. rewrite Hw. by intros ?%elem_of_nil. }
  clear Ht Hh Hw. induction Hr as [|w w1 w2 Hs Hr IH]; [done|].
  apply IH. destruct Hok as (? & ? & ?). split_and!; eauto using wstep_tenure, wstep_wins, wstep_wins_unique.
Qed.
End world.

(** The retried call of one process is a sequence of steps of the world. *)
Definition script_from (now : Z) (script : list (Z * fate)) : Prop :=
  Sorted Z.le (now :: map fst script).

Lemma run_cas_steps (ttl : Z) (name owner : string) (key : Z) retries script (w : world) a t' :
  script_from (w_now w) script ->
  run_cas ttl name owner key retries script (w_leases w) = (a, t') ->
  exists w', rtc (wstep ttl) w w' /\ w_leases w' = t' /\
    (forall o e, a = Row o e -> (key, w_pruned w' key, o, e) ∈ w_wins w' /\ w_held w' !! (owner, key) = Some (w_now w')).
Proof.
  revert retries w. induction script as [|[now f] script IH]; intros retries w Hs; cbn.
  { intros Heq. exists w. split; [done|]. split; [congruence|]. intros o e ->. done. }
  unfold script_from in *. cbn in Hs. inversion Hs as [|? ? Hs' Hn']; subst. inversion Hn' as [|? ? Hn]; subst.
  destruct (run_attempt now ttl name owner key f (w_leases w)) as [a0 t0] eqn:Er.
  pose proof (step_attempt ttl now name owner key f a0 t0 w Hn Er) as Hstep.
  destruct a0 as [o e| |g].
  - intros [= <- <-]. eexists. split_and!; [by apply rtc_once|done|]. cbn.
    intros o' e' [= <- <-]. split; [by left|apply lookup_insert_eq].
  - intros [= <- <-]. eexists. split_and!; [by apply rtc_once|done|by intros].
  - destruct g as [|c| | |c];
      try (intros [= <- <-]; eexists; split_and!; [by apply rtc_once|done|by intros]).
    destruct retries as [|retries].
    { intros [= <- <-]; eexists; split_and!; [by apply rtc_once|done|by intros]. }
    intros Hr. destruct (IH retries (mkWorld now t0 (w_held w) (w_pruned w) (w_wins w)) Hs' Hr) as (w' & H1 & H2 & H3).
    exists w'. split_and!; [|done..]. by eapply rtc_l.
Qed.

(** ** Properties *)

(** C39 (safety).  At most one process leads: in every interleaving of the
    transactions, lost answers, releases and failures of any number of
    processes, and of the retention that deletes expired rows, two processes
    never hold a tenure of the same key that has not outlived its lease; and as
    long as the row is not deleted the epoch of an answered win is a fencing
    token: between two deletions of its row no two owners win the same epoch of
    a key. *)
Theorem single_live_leader (ttl : Z) (w0 w : world) :
  start w0 -> rtc (wstep ttl) w0 w ->
  (forall (p q : string) (key a b : Z),
     w_held w !! (p, key) = Some a -> w_held w !! (q, key) = Some b ->
     w_now w <= a + ttl -> w_now w <= b + ttl -> p = q) /\
  (forall (key : Z) (gen : nat) (o o' : string) (epoch : Z),
     (key, gen, o, epoch) ∈ w_wins w -> (key, gen, o', epoch) ∈ w_wins w -> o = o').
Proof.
  intros Hs Hr. destruct (history_ok ttl w0 w Hr Hs) as (Ht & _ & Hu). split; [|exact Hu].
  intros p q key a b Hp Hq Ha Hb.
  destruct (Ht _ _ _ Hp) as [_ [?|(l & Hl & Ho & _)]]; [lia|].
  destruct (Ht _ _ _ Hq) as [_ [?|(l' & Hl' & Ho' & _)]]; [lia|]. congruence.
Qed.

(** A run: [p] leads, [q] is refused, [p] lapses, [q] takes over. *)
Definition w_start : world := mkWorld 0 ∅ ∅ (fun _ => 0%nat) [].
Definition w_attempt (now : Z) (owner : string) (w : world) : world :=
  let (a, t) := run_attempt now 300 "svc" owner 1 Answered (w_leases w) in note_answer now owner 1 a t w.

Lemma w_attempt_step now owner w : w_now w <= now -> wstep 300 w (w_attempt now owner w).
Proof.
  intros Hn. unfold w_attempt. destruct (run_attempt _ _ _ _ _ _ _) as [a t] eqn:E.
  by eapply step_attempt.
Qed.

Definition w_takeover : world := w_attempt 301 "q" (w_attempt 100 "q" (w_attempt 0 "p" w_start)).

Lemma single_live_leader_witness :
  w_held w_takeover !! ("p", 1) = Some 0 /\ w_held w_takeover !! ("q", 1) = Some 301 /\
  w_wins w_takeover = [(1, 0%nat, "q", 2); (1, 0%nat, "p", 1)] /\
  (forall p a, w_held w_takeover !! (p, 1) = Some a -> 301 <= a + 300 -> p = "q").
Proof.
  split; [reflexivity|]. split; [reflexivity|]. split; [reflexivity|]. intros p a Hp Ha.
  refine (proj1 (single_live_leader 300 w_start w_takeover _ _) p "q" 1 a 301 Hp _ _ _).
  - repeat split.
  - do 3 (eapply rtc_r; [|apply w_attempt_step; vm_compute; discriminate]). apply rtc_refl.
  - reflexivity.
  - exact Ha.
  - vm_compute. discriminate.
Defined.

(** ** Limits *)

(** The retention deletes the row with its epoch: the next owner starts at one again, and
    two owners have won the same epoch of the key. *)
Lemma pruned_epoch_comes_back :
  let t := (lease_cas 0 300 "svc" "p" 1 ∅).2 in
  (lease_cas 0 300 "svc" "p" 1 ∅).1 = Some ("p", 1) /\
  (lease_cas 902 300 "svc" "q" 1 (prune_leases 901 [1] t)).1 = Some ("q", 1) /\
  (lease_cas 902 300 "svc" "q" 1 t).1 = Some ("q", 2).
Proof. split; [|split]; by vm_compute. Qed.

(** A renewal does not detect that the tenure was interrupted: after another
    process took the lease over and released it, the renewal of the first one
    succeeds, in a new epoch that nobody compares. *)
Definition lease_after_release : lease_table :=
  lease_release 310 "q" 1 (w_leases w_takeover).

Lemma renewal_survives_takeover :
  (renew_lease 0 300 "svc" "p" 1 [(320, Answered)] (mkBreaker 5 30 ∅) lease_after_release).1.1 = true /\
  (lease_cas_round_trip 0 300 "svc" "p" 1 [(320, Answered)] (mkBreaker 5 30 ∅) lease_after_release).1.1
    = Some ("p", 3).
Proof. split; reflexivity. Qed.

(** An open breaker or a database error is never taken for leadership. *)
Lemma no_leadership_without_answer mono ttl name owner key script b t o e b' t' :
  lease_cas_round_trip mono ttl name owner key script b t = (Some (o, e), b', t') ->
  (is_open mono LEASE_BREAKER_KEY b).1 = false /\
  run_cas ttl name owner key MAX_RETRIES script t = (Row o e, t').
Proof.
  unfold lease_cas_round_trip. destruct (is_open mono LEASE_BREAKER_KEY b) as [[] b1]; [done|].
  destruct (run_cas _ _ _ _ _ _ _) as [[o' e'| |[]] t1]; intros [= <- <- <- <-]; done.
Qed.
