(* ===== verification/Scaling.v ===== *)
(** * The scaling decision

    [scaling/aggregator.py] (the shared document of signals and the decision
    functions) and the control step of [gcp/scaling_reconciler.py].

    Signal values and times are rationals.  The rank of a percentile is
    computed in binary floats by the source; it is the parameter [pct_rank],
    which no theorem fixes (the source clamps it into the list). *)

From Stdlib Require Import QArith.
From S2P Require Import Prelude.
Open Scope Z_scope.

Inductive scope : Type := Instance_ | Global.

Record ScalingSignal : Type := mkSignal {
  sg_source : string;
  sg_metric : string;
  sg_value : Q;
  sg_scope : scope;
}.

Record ScalingPolicyConfig : Type := mkPolicy {
  enabled : bool;
  min_replicas : Z;
  min_instances_floor : Z;
  max_replicas : Z;
  scale_out_saturation : Q;
  conn_pressure_ceiling : Q;
  per_instance_pool : Z;
  db_max_connections : Z;
  connection_headroom : Z;
  deadband : Q;
  scale_out_cooldown_seconds : Z;
  scale_in_cooldown_seconds : Z;
  step : Z;
  scale_in_step : Z;
  publish_interval_seconds : Z;
  cpu_scale_out_ceiling : Q;
  cpu_idle_ceiling : Q;
  duckdb_pool_autosize : bool;
  duckdb_pool_size_max : Z;
  duckdb_pool_step : Z;
  duckdb_pool_cooldown_seconds : Z;
}.

(** The bounds the configuration model enforces. *)
Definition policy_ok (p : ScalingPolicyConfig) : bool :=
  (0 <=? min_replicas p) && (1 <=? min_instances_floor p) && (1 <=? max_replicas p) &&
  (1 <=? per_instance_pool p) && (1 <=? db_max_connections p) && (0 <=? connection_headroom p) &&
  (0 <=? scale_out_cooldown_seconds p) && (0 <=? scale_in_cooldown_seconds p) &&
  (1 <=? step p) && (1 <=? scale_in_step p) && (1 <=? publish_interval_seconds p) &&
  (1 <=? duckdb_pool_size_max p) && (1 <=? duckdb_pool_step p) && (0 <=? duckdb_pool_cooldown_seconds p).

(** ** The document of signals

    A malformed entry or signal is [None]. *)

Record signals_doc : Type := mkDoc {
  d_instances : list (string * option (Q * list (option ScalingSignal)));
  d_global : list (string * option (Q * option ScalingSignal));
}.

Definition fresh {A} (now max_age : Q) (e : option (Q * A)) : bool :=
  match e with Some (ts, _) => Qle_bool (now - ts) max_age | None => false end.

Definition write_instance_signals (now max_age : Q) (instance_id : string) (signals : list ScalingSignal)
    (doc : signals_doc) : signals_doc :=
  mkDoc (dict_set instance_id (Some (now, map Some signals))
           (List.filter (fun kv => fresh now max_age kv.2) (d_instances doc)))
        (d_global doc).

Definition write_global_signals (now max_age : Q) (signals : list ScalingSignal) (doc : signals_doc)
    : signals_doc :=
  match signals with
  | [] => doc
  | _ =>
      mkDoc (d_instances doc)
            (fold_left (fun d s => dict_set (sg_source s +:+ ":" +:+ sg_metric s) (Some (now, Some s)) d) signals
               (List.filter (fun kv => fresh now max_age kv.2) (d_global doc)))
  end.

Definition collect_live_signals (doc : signals_doc) (max_age now : Q) : list ScalingSignal :=
  flat_map (fun kv => match kv.2 with
                      | Some (ts, sigs) => if Qle_bool (now - ts) max_age then omap id sigs else []
                      | None => []
                      end) (d_instances doc) ++
  omap (fun kv => match kv.2 with
                  | Some (ts, Some s) => if Qle_bool (now - ts) max_age then Some s else None
                  | _ => None
                  end) (d_global doc).

(** ** The decision *)

Definition Qlt_bool (a b : Q) : bool := negb (Qle_bool b a).
(** [max(values)] *)
Definition Qmax_list (l : list Q) : option Q :=
  match l with
  | [] => None
  | x :: l => Some (fold_left (fun m y => if Qlt_bool m y then y else m) l x)
  end.

Definition by_value (a b : Q) : Prop := Qle_bool a b = true.
#[global] Instance by_value_dec a b : Decision (by_value a b).
Proof. unfold by_value. apply _. Defined.

Section decision.
Context (pct_rank : Z -> Z).

Definition percentile95 (values : list Q) : Q :=
  let ordered := merge_sort by_value values in
  match ordered with
  | [] => 0%Q
  | [x] => x
  | _ =>
      let n := Z.of_nat (length ordered) in
      nth (Z.to_nat (Z.max 0 (Z.min (n - 1) (pct_rank (n - 1))))) ordered 0%Q
  end.

Definition extract_global_metric (signals : list ScalingSignal) (metric : string) : option Q :=
  Qmax_list (map sg_value (List.filter (fun s => match sg_scope s with Global => sg_metric s ==s metric | _ => false end)
                                       signals)).

Definition effective_max_replicas (p : ScalingPolicyConfig) : Z :=
  let budget_ceiling := (db_max_connections p - connection_headroom p) / Z.max 1 (per_instance_pool p) in
  Z.max (min_replicas p) (Z.min (max_replicas p) (Z.max 0 budget_ceiling)).

Definition instance_values (signals : list ScalingSignal) : list Q :=
  map sg_value (List.filter (fun s => match sg_scope s with Instance_ => true | Global => false end) signals).

Definition guard_tripped (signals : list ScalingSignal) (p : ScalingPolicyConfig) : bool :=
  match extract_global_metric signals "conn_pressure" with
  | Some v => Qle_bool (conn_pressure_ceiling p) v
  | None => false
  end.
Definition cpu_idle (signals : list ScalingSignal) (p : ScalingPolicyConfig) : bool :=
  match extract_global_metric signals "cpu_utilization" with
  | Some v => Qlt_bool v (cpu_idle_ceiling p)
  | None => false
  end.
Definition cpu_hot (signals : list ScalingSignal) (p : ScalingPolicyConfig) : bool :=
  match extract_global_metric signals "cpu_utilization" with
  | Some v => Qle_bool (cpu_scale_out_ceiling p) v
  | None => false
  end.

(** The target before clamping. *)
Definition raw_target (values : list Q) (fleet_max : Q) (signals : list ScalingSignal) (p : ScalingPolicyConfig)
    (current_min : Z) : Z :=
  if Qle_bool (scale_out_saturation p) fleet_max then
    if guard_tripped signals p then current_min
    else if cpu_idle signals p then current_min
    else current_min + step p
  else if cpu_hot signals p && negb (guard_tripped signals p) then current_min + step p
  else if Qlt_bool (percentile95 values) (scale_out_saturation p - deadband p) && negb (cpu_hot signals p)
  then current_min - scale_in_step p
  else current_min.

Definition scaling_floor (p : ScalingPolicyConfig) : Z := Z.max (min_instances_floor p) (min_replicas p).
Definition clamp_target (p : ScalingPolicyConfig) (t : Z) : Z :=
  Z.max (scaling_floor p) (Z.min (effective_max_replicas p) t).

Definition cooldown_for (p : ScalingPolicyConfig) (current_min target : Z) : Z :=
  if current_min <? target then scale_out_cooldown_seconds p
  else if target <? current_min then scale_in_cooldown_seconds p
  else 0.

Definition compute_desired_min (signals : list ScalingSignal) (p : ScalingPolicyConfig) (current_min : Z)
    (last_change_ts now : Q) : Z :=
  match instance_values signals with
  | [] => Z.max (min_instances_floor p) current_min
  | v :: vs =>
      let values := v :: vs in
      let fleet_max := match Qmax_list values with Some m => m | None => 0%Q end in
      let target := clamp_target p (raw_target values fleet_max signals p current_min) in
      if negb (target =? current_min) &&
         Qlt_bool (now - last_change_ts) (inject_Z (cooldown_for p current_min target))
      then current_min else target
  end.

Definition compute_duckdb_pool_bump (signals : list ScalingSignal) (p : ScalingPolicyConfig)
    (current_pool_size : Z) (last_pool_change_ts now : Q) : option Z :=
  if negb (duckdb_pool_autosize p) then None
  else
    let duckdb_values :=
      map sg_value (List.filter (fun s => match sg_scope s with Instance_ => true | Global => false end &&
                                          (sg_source s ==s "duckdb_pool") && (sg_metric s ==s "pool_saturation"))
                                signals) in
    match Qmax_list duckdb_values with
    | None => None
    | Some m =>
        if negb (cpu_idle signals p) then None
        else if Qlt_bool m (scale_out_saturation p) then None
        else if duckdb_pool_size_max p <=? current_pool_size then None
        else if Qlt_bool (now - last_pool_change_ts) (inject_Z (duckdb_pool_cooldown_seconds p)) then None
        else Some (Z.min (duckdb_pool_size_max p) (current_pool_size + duckdb_pool_step p))
    end.

(** ** The pool of the DuckDB engine

    The stored engine configuration: the field the actuator changes, one that
    stands for the rest, and the version of the row ([updated_at]). *)

Record DuckdbEngineConfig : Type := mkEngine { pool_size : Z; threads : Z }.
Abbreviation config_row := (option (DuckdbEngineConfig * Z)).

(** [get_config_versioned]: a missing row reads as the defaults, without a token. *)
Definition get_config_versioned (defaults : DuckdbEngineConfig) (row : config_row)
    : DuckdbEngineConfig * option Z :=
  match row with Some (c, v) => (c, Some v) | None => (defaults, None) end.

(** [set_config]: compare-and-set under a token, an upsert without one;
    [None] is [ConfigVersionConflictError]. *)
Definition set_config (cfg : DuckdbEngineConfig) (expected_version : option Z) (ts : Z) (row : config_row)
    : option config_row :=
  match expected_version, row with
  | Some v, Some (_, v') => if v' =? v then Some (Some (cfg, ts)) else None
  | Some _, None => None
  | None, _ => Some (Some (cfg, ts))
  end.

(** What one pass meets: whether there is a configuration service, what the
    cached read gives ([None]: it raised), whether the versioned read answers, the write of somebody
    else between read and write, whether the write goes through, and its time stamp. *)
Record pool_env : Type := mkPoolEnv {
  pe_configs : bool;
  pe_cached : option DuckdbEngineConfig;
  pe_read_ok : bool;
  pe_other : option (DuckdbEngineConfig * Z);
  pe_write_ok : bool;
  pe_ts : Z;
}.

Record reconciler : Type := mkReconciler {
  rc_last_change : Q;
  rc_last_pool_change : Q;
  rc_min_instances : Z;
  rc_row : config_row;
}.
Definition set_row (row : config_row) (r : reconciler) : reconciler :=
  mkReconciler (rc_last_change r) (rc_last_pool_change r) (rc_min_instances r) row.
Definition other_write (e : pool_env) (row : config_row) : config_row :=
  match pe_other e with Some w => Some w | None => row end.

Definition maybe_bump_duckdb_pool (defaults : DuckdbEngineConfig) (p : ScalingPolicyConfig)
    (signals : list ScalingSignal) (now : Q) (e : pool_env) (r : reconciler) : reconciler :=
  let quiet := set_row (other_write e (rc_row r)) r in
  let bump size := compute_duckdb_pool_bump signals p size (rc_last_pool_change r) now in
  if negb (duckdb_pool_autosize p) then quiet
  else if negb (pe_configs e) then quiet
  else
    match pe_cached e with
    | None => quiet
    | Some current_cfg =>
        match bump (pool_size current_cfg) with
        | None => quiet
        | Some _ =>
            if negb (pe_read_ok e) then quiet
            else
              let (fresh_cfg, version) := get_config_versioned defaults (rc_row r) in
              match bump (pool_size fresh_cfg) with
              | None => quiet
              | Some new_size =>
                  if negb (pe_write_ok e) then quiet
                  else
                    match set_config (mkEngine new_size (threads fresh_cfg)) version (pe_ts e)
                                     (other_write e (rc_row r)) with
                    | None => quiet
                    | Some row => mkReconciler (rc_last_change r) now (rc_min_instances r) row
                    end
              end
        end
    end.

(** ** The control step ([tick], [_reconcile_once])

    A tick meets a platform service or none, a cache document or none
    ([None]), and a platform that reports its floor and takes a new one, or not. *)

Record tick_env : Type := mkTick {
  te_platform : bool;
  te_doc : option signals_doc;
  te_now : Q;
  te_known : bool;
  te_set_ok : bool;
  te_pool : pool_env;
}.

Definition reconcile_once (defaults : DuckdbEngineConfig) (p : ScalingPolicyConfig) (e : tick_env)
    (r : reconciler) : reconciler :=
  if negb (enabled p) then r
  else if negb (te_platform e) then r
  else
    match te_doc e with
    | None => r
    | Some doc =>
        let now := te_now e in
        let max_age := inject_Z (publish_interval_seconds p * 3) in
        let signals := collect_live_signals doc max_age now in
        if negb (te_known e) then r
        else
          let desired := compute_desired_min signals p (rc_min_instances r) (rc_last_change r) now in
          if desired =? rc_min_instances r
          then maybe_bump_duckdb_pool defaults p signals now (te_pool e) r
          else if negb (te_set_ok e) then r
          else maybe_bump_duckdb_pool defaults p signals now (te_pool e)
                 (mkReconciler now (rc_last_pool_change r) desired (rc_row r))
    end.

(** ** Lemmas *)

(** The range the controller keeps the floor of the service in. *)
Definition in_range (p : ScalingPolicyConfig) (m : Z) : Prop :=
  scaling_floor p <= m <= Z.max (scaling_floor p) (effective_max_replicas p).

Lemma clamp_in_range p t : in_range p (clamp_target p t).
Proof. unfold in_range, clamp_target. lia. Qed.

(** A decision: held, or a clamped target whose cooldown has elapsed. *)
Lemma desired_min_cases signals p current last now :
  instance_values signals <> [] ->
  let r := compute_desired_min signals p current last now in
  r = current \/
  (exists values fleet_max, r = clamp_target p (raw_target values fleet_max signals p current)) /\
  Qlt_bool (now - last) (inject_Z (cooldown_for p current r)) = false.
Proof.
  unfold compute_desired_min. destruct (instance_values signals) as [|v vs]; [done|]. intros _.
  set (t := clamp_target p _).
  destruct (Z.eqb_spec t current) as [->|Hne]; cbn [negb andb]; [by left|].
  destruct (Qlt_bool _ _) eqn:E; [by left|right]. split; [|done]. by eexists _, _.
Qed.

Lemma raw_target_step values fleet_max signals p current :
  policy_ok p = true ->
  let t := raw_target values fleet_max signals p current in
  current - scale_in_step p <= t <= current + step p /\ (guard_tripped signals p = true -> t <= current).
Proof.
  unfold policy_ok. intros ?; bool_hyps. unfold raw_target.
  destruct (Qle_bool _ fleet_max), (guard_tripped signals p), (cpu_idle signals p), (cpu_hot signals p); cbn [andb negb];
    try destruct (Qlt_bool _ _); cbn [andb]; lia.
Qed.

(** ** Properties *)

(** One decision: no change before the cooldown of its direction, a raise of at
    most one step (or to the floor), none above the ceiling, and none at all
    while the database guard is tripped; without a reading of any instance the
    current value is held (raised to the configured floor). *)
Lemma desired_min_decision signals p current last now :
  policy_ok p = true ->
  let r := compute_desired_min signals p current last now in
  (instance_values signals = [] -> r = Z.max (min_instances_floor p) current) /\
  (instance_values signals <> [] -> r <> current ->
     in_range p r /\ Qle_bool (inject_Z (cooldown_for p current r)) (now - last) = true) /\
  r <= Z.max (scaling_floor p) (current + step p) /\
  (guard_tripped signals p = true -> r <= Z.max (scaling_floor p) current).
Proof.
  intros Hp r. assert (0 <= step p) as Hst by (unfold policy_ok in Hp; bool_hyps; lia).
  destruct (decide (instance_values signals = [])) as [He|He].
  - assert (r = Z.max (min_instances_floor p) current) as -> by (unfold r, compute_desired_min; by rewrite He).
    split_and!; [done|done| |]; unfold scaling_floor; lia.
  - destruct (desired_min_cases signals p current last now He) as [Hr|[(vs & m & Hr) Hc]]; fold r in Hr; rewrite Hr.
    + split_and!; [done|done|lia|lia].
    + destruct (raw_target_step vs m signals p current Hp) as [Hb Hg]. split_and!; [done| | |].
      * intros _ _. split; [apply clamp_in_range|]. fold r in Hc. rewrite Hr in Hc.
        unfold Qlt_bool in Hc. by apply negb_false_iff.
      * unfold clamp_target. lia.
      * intros Ht. specialize (Hg Ht). unfold clamp_target. lia.
Qed.

(** The pool actuator leaves the floor alone. *)
Lemma bump_keeps_floor defaults p signals now e r :
  rc_min_instances (maybe_bump_duckdb_pool defaults p signals now e r) = rc_min_instances r.
Proof.
  unfold maybe_bump_duckdb_pool. by repeat case_match.
Qed.

(** A bump is a growth of at most one step, within the configured maximum, of a
    pool that is saturated while the processors idle. *)
Lemma pool_bump_bounds signals p size last now n :
  policy_ok p = true ->
  compute_duckdb_pool_bump signals p size last now = Some n ->
  size < n <= duckdb_pool_size_max p /\ n <= size + duckdb_pool_step p /\ cpu_idle signals p = true.
Proof.
  intros Hp. unfold policy_ok in Hp. bool_hyps. unfold compute_duckdb_pool_bump.
  destruct (duckdb_pool_autosize p); [|done]. cbn [negb]. destruct (Qmax_list _); [|done].
  destruct (cpu_idle signals p); [|done]. cbn [negb].
  destruct (Qlt_bool _ (scale_out_saturation p)); [done|].
  destruct (Z.leb_spec (duckdb_pool_size_max p) size); [done|].
  destruct (Qlt_bool _ _); [done|]. intros [= <-]. split_and!; [lia|lia|lia|done].
Qed.

(** No lost update: with a stored row, the write of somebody else between the
    read and the write of the actuator survives, and without one the row keeps
    its other fields. *)
Lemma pool_write_keeps_updates defaults p signals now e r c v :
  rc_row r = Some (c, v) ->
  (forall w, pe_other e = Some w -> w.2 <> v) ->
  match rc_row (maybe_bump_duckdb_pool defaults p signals now e r) with
  | Some (c', v') => match pe_other e with Some w => (c', v') = w | None => threads c' = threads c end
  | None => False
  end.
Proof.
  intros Hr Ho. unfold maybe_bump_duckdb_pool. cbv zeta. set (quiet := set_row _ r).
  assert (match rc_row quiet with
          | Some (c', v') => match pe_other e with Some w => (c', v') = w | None => threads c' = threads c end
          | None => False end) as Hq.
  { unfold quiet, other_write. cbn. rewrite Hr. by destruct (pe_other e) as [[? ?]|]. }
  clearbody quiet.
  destruct (negb (duckdb_pool_autosize p)); [done|]. destruct (negb (pe_configs e)); [done|].
  destruct (pe_cached e); [|done]. destruct (compute_duckdb_pool_bump _ _ (pool_size d) _ _); [|done].
  destruct (negb (pe_read_ok e)); [done|]. unfold get_config_versioned. rewrite Hr.
  destruct (compute_duckdb_pool_bump _ _ (pool_size c) _ _); [|done]. destruct (negb (pe_write_ok e)); [done|].
  unfold set_config, other_write. destruct (pe_other e) as [[c' v']|] eqn:Eo.
  - specialize (Ho _ eq_refl). cbn in Ho. rewrite (proj2 (Z.eqb_neq v' v)) by done.
    exact Hq.
  - rewrite Z.eqb_refl. done.
Qed.

Lemma tick_in_range defaults p e r :
  policy_ok p = true ->
  in_range p (rc_min_instances r) -> in_range p (rc_min_instances (reconcile_once defaults p e r)).
Proof.
  intros Hp H0. unfold reconcile_once. destruct (negb (enabled p)); [done|]. destruct (negb (te_platform e)); [done|].
  destruct (te_doc e) as [doc|]; [|done]. destruct (negb (te_known e)); [done|].
  set (signals := collect_live_signals _ _ _).
  destruct (Z.eqb_spec (compute_desired_min signals p (rc_min_instances r) (rc_last_change r) (te_now e))
              (rc_min_instances r)) as [|Hne]; [by rewrite bump_keeps_floor|].
  destruct (negb (te_set_ok e)); [done|]. rewrite bump_keeps_floor. cbn.
  destruct (desired_min_decision signals p (rc_min_instances r) (rc_last_change r) (te_now e) Hp)
    as (Hnil & Hch & _ & _).
  destruct (decide (instance_values signals = [])) as [He|He]; [|by apply Hch].
  rewrite (Hnil He). unfold in_range, scaling_floor in *. lia.
Qed.

(** C40 (bounds).  The control loop never invents database capacity: when the configured
    floor of instances fits the connection budget and the loop starts in range, the
    floor it sets, over any sequence of ticks with any signals, times and platform
    failures, times the connection pool of an instance, stays within the database
    connections left by the headroom; and it never falls below the configured floor. *)
Theorem scaling_stays_in_budget (defaults : DuckdbEngineConfig) (p : ScalingPolicyConfig) (r0 : reconciler)
    (ticks : list tick_env) :
  policy_ok p = true ->
  scaling_floor p * per_instance_pool p <= db_max_connections p - connection_headroom p ->
  in_range p (rc_min_instances r0) ->
  let r := fold_left (fun r e => reconcile_once defaults p e r) ticks r0 in
  scaling_floor p <= rc_min_instances r /\
  rc_min_instances r * per_instance_pool p <= db_max_connections p - connection_headroom p.
Proof.
  intros Hp Hfit H0 r. assert (in_range p (rc_min_instances r)) as Hr.
  { unfold r. clear r Hfit. revert r0 H0.
    induction ticks as [|e ticks IH]; intros r0 H0; [done|]. cbn [fold_left]. apply IH. by apply tick_in_range. }
  unfold in_range in Hr. split; [lia|]. unfold policy_ok in Hp. bool_hyps.
  unfold effective_max_replicas in Hr. rewrite (Z.max_r 1 (per_instance_pool p)) in Hr by lia.
  set (avail := db_max_connections p - connection_headroom p) in *.
  assert (avail / per_instance_pool p * per_instance_pool p <= avail) by (rewrite Z.mul_comm; apply Z.mul_div_le; lia).
  assert (scaling_floor p <= avail / per_instance_pool p) by (apply Z.div_le_lower_bound; lia).
  assert (min_replicas p <= scaling_floor p) by (unfold scaling_floor; lia).
  assert (1 <= scaling_floor p) by (unfold scaling_floor; lia).
  assert (rc_min_instances r <= avail / per_instance_pool p) by lia. nia.
Qed.
End decision.

Definition demo_policy (min_rep : Z) : ScalingPolicyConfig :=
  mkPolicy true min_rep 1 10 (4#5) (4#5) 20 1000 800 (1#10) 60 120 1 2 15 (13#20) (3#10) true 32 2 120.
Definition hot (v : Q) : ScalingSignal := mkSignal "pg_pool" "pool_saturation" v Instance_.
Definition demo_signals (now v : Q) : signals_doc := mkDoc [("i1", Some (now, [Some (hot v)]))] [].
Definition demo_tick (now : Q) : tick_env :=
  mkTick true (Some (demo_signals now (9#10))) now true true (mkPoolEnv false None false None false 0).

Lemma scaling_stays_in_budget_witness :
  let r := fold_left (fun r e => reconcile_once (fun n => n) (mkEngine 8 1) (demo_policy 0) e r)
             [demo_tick 100; demo_tick 130; demo_tick 170] (mkReconciler 0 0 9 None) in
  rc_min_instances r = 10 /\ rc_min_instances r * 20 <= 200.
Proof.
  split; [vm_compute; reflexivity|].
  apply (scaling_stays_in_budget (fun n => n) (mkEngine 8 1) (demo_policy 0) (mkReconciler 0 0 9 None)
           [demo_tick 100; demo_tick 130; demo_tick 170]).
  - reflexivity.
  - vm_compute. discriminate.
  - split; vm_compute; discriminate.
Defined.

(** ** Limits *)

(** A configured minimum above the budget wins over it. *)
Lemma minimum_beats_budget :
  effective_max_replicas (demo_policy 30) = 30 /\
  (db_max_connections (demo_policy 30) - connection_headroom (demo_policy 30)) / per_instance_pool (demo_policy 30) = 10.
Proof. split; reflexivity. Qed.

(** The first write of the pool size carries no token: what somebody else
    stored meanwhile is overwritten. *)
Definition pool_signals : list ScalingSignal :=
  [mkSignal "duckdb_pool" "pool_saturation" (9#10) Instance_; mkSignal "m" "cpu_utilization" (1#10) Global].
Lemma first_pool_write_unconditional :
  rc_row (maybe_bump_duckdb_pool (mkEngine 8 1) (demo_policy 0) pool_signals 1000
            (mkPoolEnv true (Some (mkEngine 8 1)) true (Some (mkEngine 8 4, 50)) true 60)
            (mkReconciler 0 0 1 None))
  = Some (mkEngine 10 1, 60).
Proof. reflexivity. Qed.
