(* ===== verification/TtlGate.v ===== *)
(** * The TTL gate

    [tools/ttl_gate.py]: a per-key throttle with a bounded LRU of
    [timestamp, lock] entries.  [acquire] is a context manager that suspends on
    the lock of the key, so the gate is a step relation on the entries and the
    tasks inside [acquire]: entering, obtaining the lock (where the decision
    is taken), marking, leaving.  Locks have an identity: an evicted key that
    comes back gets a new one. *)

From stdpp Require Import gmap.
From S2P Require Import Prelude.

Record gate_entry : Type := mkEntry { e_ts : Z; e_lock : nat }.

(** [_entries] is an [OrderedDict], oldest first; [next_lock] names the next
    [asyncio.Lock()]. *)
Record TTLGate : Type := mkGate {
  ttl : Z;
  maxsize : nat;
  entries : list (string * gate_entry);
  next_lock : nat;
}.

Definition set_entries (es : list (string * gate_entry)) (g : TTLGate) : TTLGate :=
  mkGate (ttl g) (maxsize g) es (next_lock g).

(** [__init__]. *)
Definition make_gate (max_size ttl_seconds : Z) : exn + TTLGate :=
  if max_size <? 0 then inl ValueError
  else if ttl_seconds <? 0 then inl ValueError
  else inr (mkGate ttl_seconds (Z.to_nat max_size) [] 0).

Definition gate_len (g : TTLGate) : nat := length (entries g).

Definition clear (g : TTLGate) : TTLGate := set_entries [] g.

(** [OrderedDict.move_to_end] of a key with its entry. *)
Definition move_to_end (k : string) (e : gate_entry) (es : list (string * gate_entry))
    : list (string * gate_entry) :=
  List.filter (fun x => negb (x.1 ==s k)) es ++ [(k, e)].

(** [while self._maxsize and len > self._maxsize: popitem(last=False)]. *)
Fixpoint pop_oldest (max : nat) (es : list (string * gate_entry)) : list (string * gate_entry) :=
  match es with
  | [] => []
  | _ :: es' => if (max <? length es)%nat then pop_oldest max es' else es
  end.

Definition evict_if_needed (g : TTLGate) : TTLGate :=
  match maxsize g with
  | O => g
  | max => set_entries (pop_oldest max (entries g)) g
  end.

Definition get_lock (k : string) (g : TTLGate) : nat * TTLGate :=
  match dict_get k (entries g) with
  | None =>
      let lock := next_lock g in
      (lock, evict_if_needed
               (mkGate (ttl g) (maxsize g) (entries g ++ [(k, mkEntry 0 lock)]) (S lock)))
  | Some e => (e_lock e, set_entries (move_to_end k e (entries g)) g)
  end.

Definition set_timestamp (k : string) (ts : Z) (g : TTLGate) : TTLGate :=
  match dict_get k (entries g) with
  | None => g
  | Some e => set_entries (move_to_end k (mkEntry ts (e_lock e)) (entries g)) g
  end.

(** The decision of [acquire] once the lock is held. *)
Definition should_run (now : Z) (k : string) (g : TTLGate) : bool :=
  let last := match dict_get k (entries g) with Some e => e_ts e | None => 0 end in
  ttl g <=? now - last.

(** ** Tasks inside [acquire] *)

Inductive task : Type :=
| Waiting (k : string) (lock : nat)
| Holding (k : string) (lock : nat) (run marked : bool)
| Untracked (marked : bool).                  (* the handle of a disabled gate *)

Record system : Type := mkSys {
  clock : Z;
  gate : TTLGate;
  tasks : gmap nat task;
}.

Definition lock_free (l : nat) (ts : gmap nat task) : Prop :=
  forall t k r m, ts !! t <> Some (Holding k l r m).

Inductive step : system -> system -> Prop :=
| step_disabled s t now :
    clock s <= now -> tasks s !! t = None -> maxsize (gate s) = O ->
    step s (mkSys now (gate s) (<[t := Untracked false]> (tasks s)))
| step_enter s t now k l g :
    clock s <= now -> tasks s !! t = None -> maxsize (gate s) <> O ->
    get_lock k (gate s) = (l, g) ->
    step s (mkSys now g (<[t := Waiting k l]> (tasks s)))
| step_locked s t now k l :
    clock s <= now -> tasks s !! t = Some (Waiting k l) -> lock_free l (tasks s) ->
    step s (mkSys now (gate s) (<[t := Holding k l (should_run now k (gate s)) false]> (tasks s)))
| step_mark s t now k l r :
    clock s <= now -> tasks s !! t = Some (Holding k l r false) ->
    step s (mkSys now (set_timestamp k now (gate s)) (<[t := Holding k l r true]> (tasks s)))
| step_exit s t now :
    clock s <= now -> step s (mkSys now (gate s) (delete t (tasks s)))
| step_clear s now :
    clock s <= now -> step s (mkSys now (clear (gate s)) (tasks s)).

Inductive gate_reachable : system -> Prop :=
| gate_start now max_size ttl_seconds g :
    make_gate max_size ttl_seconds = inr g -> 0 <= now -> gate_reachable (mkSys now g ∅)
| gate_step s s' : gate_reachable s -> step s s' -> gate_reachable s'.

(** ** Dictionary lemmas *)

Lemma dict_get_move_eq k e es : dict_get k (move_to_end k e es) = Some e.
Proof.
  unfold move_to_end. rewrite dict_get_app. simpl. rewrite String.eqb_refl.
  assert (dict_get k (List.filter (fun x => negb (x.1 ==s k)) es) = None) as ->; [|done].
  induction es as [|[k' e'] es IH]; simpl; [done|]. destruct (k' ==s k) eqn:E; simpl; [done|].
  by rewrite String.eqb_sym, E.
Qed.

Lemma dict_get_move_ne k k' e es : k <> k' -> dict_get k (move_to_end k' e es) = dict_get k es.
Proof.
  intros Hne. unfold move_to_end. rewrite dict_get_app. simpl.
  rewrite (proj2 (String.eqb_neq k k') Hne).
  induction es as [|[k1 e1] es IH]; simpl; [done|].
  destruct (k1 ==s k') eqn:E; simpl.
  - bool_hyps; subst. by rewrite (proj2 (String.eqb_neq k k') Hne).
  - by destruct (k ==s k1).
Qed.

Lemma move_to_end_length k e es :
  dict_get k es <> None -> (length (move_to_end k e es) <= length es)%nat.
Proof.
  unfold move_to_end. rewrite length_app. simpl. induction es as [|[k' e'] es IH]; simpl; [done|].
  destruct (k ==s k') eqn:E; intros Hd.
  - rewrite String.eqb_sym, E. simpl. assert (Hf := List.filter_length_le (fun x => negb (x.1 ==s k)) es). lia.
  - rewrite String.eqb_sym, E. simpl. specialize (IH Hd). lia.
Qed.

Lemma pop_oldest_length max es : (length (pop_oldest max es) <= max)%nat.
Proof.
  induction es as [|e es IH]; [simpl; lia|]. cbn [pop_oldest].
  destruct (max <? length (e :: es))%nat eqn:E; [done|]. by apply Nat.ltb_ge in E.
Qed.

(** Evicting keeps the newest entry. *)
Lemma pop_oldest_last max es e : max <> O -> exists es', pop_oldest max (es ++ [e]) = es' ++ [e].
Proof.
  intros Hmax. induction es as [|x es IH]; simpl app.
  - cbn [pop_oldest]. destruct (max <? length [e])%nat eqn:E; [|by exists []].
    apply Nat.ltb_lt in E. simpl in E. lia.
  - cbn [pop_oldest]. destruct (max <? _)%nat; [done|]. by exists (x :: es).
Qed.

Lemma pop_oldest_get max es k e :
  NoDup (map fst es) -> dict_get k (pop_oldest max es) = Some e -> dict_get k es = Some e.
Proof.
  induction es as [|[k' e'] es IH]; [done|]. intros Hnd. cbn [pop_oldest map] in *.
  apply NoDup_cons in Hnd as [Hk Hnd]. destruct (max <? _)%nat; [|done].
  intros Hd%IH; [|done]. simpl. destruct (k ==s k') eqn:E; [|done]. bool_hyps; subst.
  by apply dict_get_in_keys in Hd.
Qed.

(** ** Invariant *)

Definition on_lock (x : task) (k : string) (l : nat) : Prop :=
  match x with
  | Waiting k' l' | Holding k' l' _ _ => k' = k /\ l' = l
  | Untracked _ => False
  end.

Definition entries_ok (g : TTLGate) : Prop :=
  (length (entries g) <= maxsize g)%nat /\ NoDup (map fst (entries g)) /\
  (forall k e, dict_get k (entries g) = Some e -> (e_lock e < next_lock g)%nat) /\
  (forall k k' e e', dict_get k (entries g) = Some e -> dict_get k' (entries g) = Some e' ->
     e_lock e = e_lock e' -> k = k').

Definition tasks_ok (g : TTLGate) (ts : gmap nat task) : Prop :=
  (forall t x k l, ts !! t = Some x -> on_lock x k l ->
     (l < next_lock g)%nat /\ forall k' e, dict_get k' (entries g) = Some e -> e_lock e = l -> k' = k) /\
  (forall t t' k k' l r r' m m', ts !! t = Some (Holding k l r m) -> ts !! t' = Some (Holding k' l r' m') -> t = t').

Definition system_ok (s : system) : Prop := entries_ok (gate s) /\ tasks_ok (gate s) (tasks s).

(** The locks of [g'] are locks of [g] under the same keys. *)
Definition locks_from (g g' : TTLGate) : Prop :=
  (next_lock g <= next_lock g')%nat /\
  forall k e', dict_get k (entries g') = Some e' ->
    (exists e, dict_get k (entries g) = Some e /\ e_lock e = e_lock e') \/ (next_lock g <= e_lock e')%nat.

Lemma tasks_ok_locks g g' ts : locks_from g g' -> tasks_ok g ts -> tasks_ok g' ts.
Proof.
  intros [Hn Hl] [Ht Hh]. split; [|done]. intros t x k l Hx Ho. destruct (Ht t x k l Hx Ho) as [Hlt Hk].
  split; [lia|]. intros k' e' Hd He. destruct (Hl k' e' Hd) as [(e & Hd' & He')|?]; [|lia].
  apply (Hk k' e); [done|congruence].
Qed.

Lemma keys_move k e es :
  NoDup (map fst es) -> NoDup (map fst (move_to_end k e es)).
Proof.
  intros Hnd. unfold move_to_end. rewrite map_app. simpl. apply NoDup_app. split_and!.
  - induction es as [|[k' e'] es IH]; simpl in *; [done|]. apply NoDup_cons in Hnd as [Hk Hnd].
    destruct (negb _); simpl; [|auto]. apply NoDup_cons. split; [|auto].
    rewrite list_elem_of_In, in_map_iff. intros ([k1 e1] & ? & Hin%filter_In). simpl in *; subst.
    apply Hk, list_elem_of_In, in_map_iff. exists (k', e1). naive_solver.
  - intros x Hx%list_elem_of_In Hk. rewrite list_elem_of_singleton in Hk; subst.
    apply in_map_iff in Hx as ([k1 e1] & ? & [_ Hf]%filter_In). simpl in *; subst.
    by rewrite String.eqb_refl in Hf.
  - apply NoDup_singleton.
Qed.

Lemma keys_pop max es : NoDup (map fst es) -> NoDup (map fst (pop_oldest max es)).
Proof.
  induction es as [|e es IH]; [done|]. intros Hnd. cbn [pop_oldest].
  destruct (max <? _)%nat; [|done]. apply IH. simpl in Hnd. by apply NoDup_cons in Hnd as [_ ?].
Qed.

(** Replacing an entry by one with the same lock, at the end. *)
Lemma move_entries_ok k e e' g :
  entries_ok g -> dict_get k (entries g) = Some e -> e_lock e' = e_lock e ->
  entries_ok (set_entries (move_to_end k e' (entries g)) g) /\
  locks_from g (set_entries (move_to_end k e' (entries g)) g).
Proof.
  intros (Hlen & Hnd & Hlt & Hinj) Hd Hl.
  assert (Hget : forall k1 e1, dict_get k1 (move_to_end k e' (entries g)) = Some e1 ->
    exists e0, dict_get k1 (entries g) = Some e0 /\ e_lock e0 = e_lock e1).
  { intros k1 e1. destruct (decide (k1 = k)) as [->|Hne].
    - rewrite dict_get_move_eq. intros [= <-]. by exists e.
    - rewrite dict_get_move_ne by done. eauto. }
  split; [split_and!; cbn [entries set_entries maxsize next_lock]|].
  - etransitivity; [apply move_to_end_length; congruence|done].
  - by apply keys_move.
  - intros k1 e1 (e0 & H0 & <-)%Hget. by eapply Hlt.
  - intros k1 k2 e1 e2 (e3 & H3 & <-)%Hget (e4 & H4 & <-)%Hget. by eapply Hinj.
  - split; [done|]. intros k1 e1 (e0 & ? & ?)%Hget. left. eauto.
Qed.

Lemma get_lock_ok k g l g' :
  entries_ok g -> maxsize g <> O -> get_lock k g = (l, g') ->
  entries_ok g' /\ locks_from g g' /\ (l < next_lock g')%nat /\
  (forall k' e, dict_get k' (entries g') = Some e -> e_lock e = l -> k' = k) /\
  maxsize g' = maxsize g /\ ttl g' = ttl g.
Proof.
  intros Hok Hmax. unfold get_lock. destruct (dict_get k (entries g)) as [e|] eqn:Ed; intros [= <- <-].
  - destruct (move_entries_ok k e e g Hok Ed eq_refl) as [Hok' Hfrom]. split_and!; try done.
    + destruct Hok as (_ & _ & Hlt & _). by apply (Hlt k).
    + intros k' e' Hd He. destruct Hok' as (_ & _ & _ & Hinj). apply (Hinj k' k e' e); [done| |done].
      apply dict_get_move_eq.
  - destruct Hok as (Hlen & Hnd & Hlt & Hinj). unfold evict_if_needed. simpl.
    destruct (maxsize g) as [|mx] eqn:Emx; [done|].
    unfold entries_ok, locks_from, set_entries. cbn [entries maxsize next_lock ttl].
    set (es := entries g ++ [(k, mkEntry 0 (next_lock g))]).
    assert (NoDup (map fst es)) as Hnd'.
    { unfold es. rewrite map_app. simpl. apply NoDup_app. split_and!; [done| |apply NoDup_singleton].
      intros x Hx Hk. rewrite list_elem_of_singleton in Hk; subst.
      by apply in_keys_dict_get in Hx as [? ?]; congruence. }
    assert (Hget : forall k1 e1, dict_get k1 (pop_oldest (S mx) es) = Some e1 ->
      dict_get k1 (entries g) = Some e1 \/ k1 = k /\ e1 = mkEntry 0 (next_lock g)).
    { intros k1 e1 Hd%pop_oldest_get; [|done]. unfold es in Hd. rewrite dict_get_app in Hd.
      destruct (dict_get k1 (entries g)); [by left|]. simpl in Hd.
      destruct (k1 ==s k) eqn:Ek; [|done]. bool_hyps. right. by simplify_eq. }
    split_and!; try done.
    + apply pop_oldest_length.
    + by apply keys_pop.
    + intros k1 e1 [Hd|[_ ->]]%Hget; [|simpl; lia]. specialize (Hlt k1 e1 Hd). simpl. lia.
    + intros k1 k2 e1 e2 [Hd1|[-> ->]]%Hget [Hd2|[-> ->]]%Hget; simpl; [by eapply Hinj| | |done].
      * specialize (Hlt k1 e1 Hd1). lia.
      * specialize (Hlt k2 e2 Hd2). lia.
    + lia.
    + intros k1 e1 [Hd|[_ ->]]%Hget; [left; eauto|right; done].
    + simpl. lia.
    + intros k1 e1 [Hd|[-> _]]%Hget; [|done]. intros He. specialize (Hlt k1 e1 Hd). lia.
Qed.

Lemma set_timestamp_ok k now g :
  entries_ok g -> entries_ok (set_timestamp k now g) /\ locks_from g (set_timestamp k now g).
Proof.
  intros Hok. unfold set_timestamp. destruct (dict_get k (entries g)) as [e|] eqn:Ed.
  - by apply (move_entries_ok k e).
  - split; [done|]. split; [done|]. eauto.
Qed.

(** Changing the state of one task that stays on its lock. *)
Lemma tasks_ok_insert g ts t x :
  tasks_ok g ts ->
  (forall k l, on_lock x k l ->
     (l < next_lock g)%nat /\ forall k' e, dict_get k' (entries g) = Some e -> e_lock e = l -> k' = k) ->
  (forall k l r m, x = Holding k l r m ->
     forall t' k' r' m', ts !! t' = Some (Holding k' l r' m') -> t' = t) ->
  tasks_ok g (<[t := x]> ts).
Proof.
  intros [Ht Hh] Hx Hl. split.
  - intros t' x' k l. destruct (decide (t = t')) as [->|Hne].
    + rewrite lookup_insert_eq. intros [= <-]. apply Hx.
    + rewrite lookup_insert_ne by done. apply Ht.
  - intros t1 t2 k1 k2 l r1 r2 m1 m2.
    destruct (decide (t = t1)) as [<-|Hn1], (decide (t = t2)) as [<-|Hn2]; [done|..];
      rewrite ?lookup_insert_eq, ?lookup_insert_ne by done.
    + intros [= ->] H2. symmetry. by eapply Hl.
    + intros H1 [= ->]. by eapply Hl.
    + by apply Hh.
Qed.

Lemma step_ok s s' : system_ok s -> step s s' -> system_ok s'.
Proof.
  intros [Hg Hts] Hstep. destruct Hstep as [s t now Hc Hn Hm|s t now k l g Hc Hn Hm Hl|s t now k l Hc Hw Hf
    |s t now k l r Hc Hh|s t now Hc|s now Hc]; unfold system_ok; cbn [gate tasks] in *.
  - split; [done|]. by apply tasks_ok_insert.
  - destruct (get_lock_ok k (gate s) l g Hg Hm Hl) as (Hg' & Hfrom & Hlt & Hk & _).
    split; [done|]. apply tasks_ok_insert; [by eapply tasks_ok_locks| |done].
    by intros k' l' [<- <-].
  - split; [done|]. apply tasks_ok_insert; [done| |].
    + intros k' l' [<- <-]. by apply (proj1 Hts t (Waiting k l)).
    + intros k' l' r m [= <- <- <- <-] t' k1 r1 m1 Ht'. by apply Hf in Ht'.
  - destruct (set_timestamp_ok k now (gate s) Hg) as [Hg' Hfrom]. split; [done|].
    assert (tasks_ok (set_timestamp k now (gate s)) (tasks s)) as Hts' by by eapply tasks_ok_locks.
    apply tasks_ok_insert; [done| |].
    + intros k' l' [<- <-]. by apply (proj1 Hts' t (Holding k l r false)).
    + intros k' l' r1 m [= <- <- <- <-] t' k1 r2 m1 Ht'. by eapply (proj2 Hts').
  - split; [done|]. destruct Hts as [Ht Hh]. split.
    + intros t' x k l [_ Hx]%lookup_delete_Some. by apply Ht with t'.
    + intros t1 t2 k1 k2 l r1 r2 m1 m2 [_ H1]%lookup_delete_Some [_ H2]%lookup_delete_Some. by eapply Hh.
  - split.
    + unfold entries_ok, clear, set_entries; cbn. split_and!; [lia|constructor|done|done].
    + destruct Hts as [Ht Hh]. split; [|done]. intros t x k l Hx Ho.
      split; [by apply (Ht t x k l)|done].
Qed.

Lemma reachable_ok s : gate_reachable s -> system_ok s.
Proof.
  induction 1 as [now mx tt0 g Hg Hnow|s s' _ IH Hs]; [|by eapply step_ok].
  unfold make_gate in Hg. destruct (mx <? 0), (tt0 <? 0); simplify_eq.
  split; [split_and!; simpl; [lia|constructor|done|done]|].
  split; simpl; intros *; by rewrite lookup_empty.
Qed.

(** ** Throttling *)

(** Executions in which the key [k] stays in the gate. *)
Inductive keeps (k : string) (s : system) : system -> Prop :=
| keeps_refl : keeps k s s
| keeps_step s1 s2 :
    keeps k s s1 -> step s1 s2 -> dict_get k (entries (gate s2)) <> None -> keeps k s s2.

Definition marked_since (k : string) (m : Z) (s : system) : Prop :=
  m <= clock s /\ exists e, dict_get k (entries (gate s)) = Some e /\ m <= e_ts e.

Lemma get_lock_ts k k' g l g' e :
  NoDup (map fst (entries g)) -> maxsize g <> O ->
  get_lock k' g = (l, g') -> dict_get k (entries g) = Some e ->
  dict_get k (entries g') = Some e \/ dict_get k (entries g') = None.
Proof.
  intros Hnd Hmax. unfold get_lock. destruct (dict_get k' (entries g)) as [e'|] eqn:Ed; intros [= <- <-] Hd.
  - left. cbn [entries set_entries]. destruct (decide (k = k')) as [->|Hne].
    + rewrite dict_get_move_eq. congruence.
    + by rewrite dict_get_move_ne.
  - unfold evict_if_needed. cbn [maxsize entries]. destruct (maxsize g) as [|mx]; [done|].
    unfold set_entries. cbn [entries].
    destruct (dict_get k (pop_oldest _ _)) as [e1|] eqn:Ep; [left|by right].
    apply pop_oldest_get in Ep; [rewrite dict_get_app, Hd in Ep; congruence|].
    rewrite map_app. simpl. apply NoDup_app. split_and!; [done| |apply NoDup_singleton].
    intros x Hx Hk. rewrite list_elem_of_singleton in Hk; subst.
    by apply in_keys_dict_get in Hx as [? ?]; congruence.
Qed.

Lemma marked_step k m s s' :
  system_ok s -> step s s' -> dict_get k (entries (gate s')) <> None ->
  marked_since k m s -> marked_since k m s'.
Proof.
  intros [(_ & Hnd & _) _] Hstep Hin [Hm (e & Hd & He)].
  destruct Hstep as [s t now Hc Hn Hmx|s t now k' l g Hc Hn Hmx Hl|s t now k' l Hc Hw Hf
    |s t now k' l r Hc Hh|s t now Hc|s now Hc]; unfold marked_since; cbn [gate clock] in *;
    (split; [lia|]); try by eauto.
  - destruct (get_lock_ts k k' _ _ _ e Hnd Hmx Hl Hd) as [?|?]; [eauto|done].
  - unfold set_timestamp in *. destruct (dict_get k' (entries (gate s))) as [e'|] eqn:Ed; [|eauto].
    cbn [entries set_entries]. destruct (decide (k = k')) as [->|Hne].
    + exists (mkEntry now (e_lock e')). rewrite dict_get_move_eq. simpl. split; [done|lia].
    + rewrite dict_get_move_ne by done. eauto.
Qed.

Lemma step_ttl s s' : step s s' -> ttl (gate s') = ttl (gate s).
Proof.
  destruct 1; cbn [gate]; try done.
  - unfold get_lock in *. destruct (dict_get k (entries (gate s))); simplify_eq; [done|].
    unfold evict_if_needed; simpl. by destruct (maxsize (gate s)).
  - unfold set_timestamp. by destruct (dict_get k _).
Qed.

(** ** Properties *)

(** In every reachable state the gate holds at most
    [maxsize] keys, and single flight holds: two tasks inside the gate for the
    same key are the same task, as long as both hold the lock that the gate has
    for that key (the exception is a task whose key was evicted meanwhile). *)
Theorem gate_bounded_single_flight (s : system) :
  gate_reachable s ->
  (length (entries (gate s)) <= maxsize (gate s))%nat /\
  forall t t' k e r r' m m',
    dict_get k (entries (gate s)) = Some e ->
    tasks s !! t = Some (Holding k (e_lock e) r m) ->
    tasks s !! t' = Some (Holding k (e_lock e) r' m') -> t = t'.
Proof.
  intros [(Hlen & _) [_ Hh]]%reachable_ok. split; [done|]. intros. by eapply Hh.
Qed.

(** Throttling: after a task marks a key at time [m], every
    decision on that key before [m + ttl] is "do not run", whatever other
    tasks do meanwhile, as long as the key is not evicted. *)
Theorem gate_throttles (s s2 : system) (t : nat) (k : string) (l : nat) (r : bool) (m now : Z) :
  gate_reachable s -> clock s <= m -> tasks s !! t = Some (Holding k l r false) ->
  dict_get k (entries (gate s)) <> None ->
  keeps k (mkSys m (set_timestamp k m (gate s)) (<[t := Holding k l r true]> (tasks s))) s2 ->
  now < m + ttl (gate s) ->
  should_run now k (gate s2) = false.
Proof.
  intros Hr Hc Ht Hd Hkeeps Hnow.
  set (s1 := mkSys m _ _) in Hkeeps.
  assert (Hs1 : step s s1) by by apply step_mark.
  assert (Hk : marked_since k m s2 /\ system_ok s2 /\ ttl (gate s2) = ttl (gate s)).
  { induction Hkeeps as [|sa sb _ IH Hab Hin].
    - split_and!; [|by eapply step_ok, Hs1; apply reachable_ok|by apply step_ttl].
      split; [done|]. unfold s1, set_timestamp. cbn [gate].
      destruct (dict_get k (entries (gate s))) as [e|]; [|done]. cbn [entries set_entries].
      exists (mkEntry m (e_lock e)). rewrite dict_get_move_eq. by split.
    - destruct IH as (Hmk & Hok & Htt).
      split_and!; [by eapply marked_step|by eapply step_ok|by rewrite <-Htt; apply step_ttl]. }
  destruct Hk as ([_ (e & He & Hle)] & _ & Htt).
  unfold should_run. rewrite He, Htt. apply Z.leb_gt. lia.
Qed.

(** ** Witnesses *)

Definition gate0 : system := mkSys 100 (mkGate 60 2 [] 0) ∅.
Definition gate1 : system := mkSys 100 (mkGate 60 2 [("k", mkEntry 0 0)] 1) {[7%nat := Waiting "k" 0]}.
Definition gate2 : system :=
  mkSys 101 (mkGate 60 2 [("k", mkEntry 0 0)] 1) {[7%nat := Holding "k" 0 true false]}.

(** A task enters the gate for [k] and obtains its lock. *)
Lemma gate2_reachable : gate_reachable gate2.
Proof.
  apply (gate_step gate1); [apply (gate_step gate0)|].
  - by apply (gate_start 100 2 60).
  - apply (step_enter gate0 7 100 "k" 0 (mkGate 60 2 [("k", mkEntry 0 0)] 1)); done.
  - refine (eq_rect _ (step gate1) (step_locked gate1 7 101 "k" 0 _ _ _) gate2 _);
      [simpl; lia|done| |by vm_compute].
    intros t k r m. unfold gate1; simpl. intros [_ ?]%lookup_singleton_Some. done.
Qed.

(** Witness of [gate_bounded_single_flight]. *)
Lemma gate_bounded_single_flight_witness : (length (entries (gate gate2)) <= maxsize (gate gate2))%nat.
Proof. apply (gate_bounded_single_flight gate2 gate2_reachable). Defined.

(** Witness of [gate_throttles]: marked at 105, asked again at 150. *)
Lemma gate_throttles_witness :
  should_run 150 "k" (gate (mkSys 105 (set_timestamp "k" 105 (gate gate2))
    (<[7%nat := Holding "k" 0 true true]> (tasks gate2)))) = false.
Proof.
  apply (gate_throttles gate2 _ 7 "k" 0 true 105 150 gate2_reachable); [simpl; lia|done|done|constructor|simpl; lia].
Defined.

(** ** Where the code and its documentation part *)

(** "True iff the TTL has elapsed (or this is the first call)": with a
    monotonic clock that is younger than the time to live, the first call for
    a key is suppressed. *)
Lemma first_call_suppressed now k g :
  dict_get k (entries g) = None -> now < ttl g -> should_run now k g = false.
Proof. intros Hd Hn. unfold should_run. rewrite Hd. apply Z.leb_gt. lia. Qed.

(** [mark] is documented as a no-op for a handle opened with
    [should_run=False]; it advances the timestamp and so extends the window. *)
Lemma suppressed_mark_extends :
  let g := mkGate 60 2 [("k", mkEntry 100 0)] 1 in
  should_run 150 "k" g = false /\ should_run 170 "k" g = true /\
  should_run 170 "k" (set_timestamp "k" 150 g) = false.
Proof. by vm_compute. Qed.
