(* ===== verification/UsageCounter.v ===== *)
(** * Usage counters

    [iam/usage_counter_bucket.py] (window algebra), [iam/usage_counter_pg.py]
    (durable table, one statement per operation), [iam/usage_counter_valkey.py]
    over the counting primitives of [tools/cache_valkey.py] (integer keys with a
    time to live), and the composite [iam/usage_counter_layered.py].

    The class [BoundedCounter] is what the condition handlers rely on; both
    drivers and the composite are instances, and the theorem about the
    [rate_limit] and [max_count] handlers is proved against the class.

    Times are integers: the clock in milliseconds, windows in seconds.  A store
    that is down raises. *)

From stdpp Require Import gmap strings pretty.
From S2P Require Import Prelude Conditions.

(** ** Windows *)

(** The window that holds [now]; [0] (the epoch) for a lifetime quota. *)
Definition bucket_for (window_seconds : option Z) (now : Z) : Z :=
  match window_seconds with
  | None => 0
  | Some n => if n <=? 0 then 0 else (now / 1000 / n) * n
  end.

Definition expires_for (bucket : Z) (window_seconds : option Z) : option Z :=
  match window_seconds with
  | None => None
  | Some n => if n <=? 0 then None else Some (bucket + 2 * n)
  end.

(** ** The Postgres driver *)

Record counter_row : Type := mkRow { count : Z; expires_at : option Z }.

Abbreviation row_key := (string * string * Z)%type.

Record pg_state : Type := mkPg { pg_up : bool; pg_now : Z; pg_rows : gmap row_key counter_row }.

Definition set_rows (t : gmap row_key counter_row) (s : pg_state) : pg_state :=
  mkPg (pg_up s) (pg_now s) t.

(** [INSERT ... ON CONFLICT DO UPDATE SET count = u.count + EXCLUDED.count,
    expires_at = COALESCE(u.expires_at, EXCLUDED.expires_at)]. *)
Definition upsert (k : row_key) (amount : Z) (expires : option Z) (t : gmap row_key counter_row)
    : gmap row_key counter_row :=
  match t !! k with
  | None => <[k := mkRow amount expires]> t
  | Some r => <[k := mkRow (count r + amount)
                      (match expires_at r with Some e => Some e | None => expires end)]> t
  end.

Definition row_count (k : row_key) (t : gmap row_key counter_row) : Z :=
  match t !! k with Some r => count r | None => 0 end.

Definition pg_key (pid pk : string) (w : option Z) (now : Z) : row_key := (pid, pk, bucket_for w now).

Definition pg_incr (pid pk : string) (w : option Z) (amount : Z) : M pg_state Z := fun s =>
  if amount <=? 0 then (inl ValueError, s)
  else if negb (pg_up s) then (inl OtherError, s)
  else
    let k := pg_key pid pk w (pg_now s) in
    let t := upsert k amount (expires_for (bucket_for w (pg_now s)) w) (pg_rows s) in
    (inr (row_count k t), set_rows t s).

Definition pg_get (pid pk : string) (w : option Z) : M pg_state Z := fun s =>
  if negb (pg_up s) then (inl OtherError, s)
  else (inr (row_count (pg_key pid pk w (pg_now s)) (pg_rows s)), s).

(** [_INCR_IF_BELOW]: the insert is guarded by [amount <= limit], the update by
    [count + amount <= limit]; without a write the current count is returned. *)
Definition pg_incr_if_below (pid pk : string) (limit : Z) (w : option Z) (amount : Z)
    : M pg_state (Z * bool) := fun s =>
  if amount <=? 0 then (inl ValueError, s)
  else if negb (pg_up s) then (inl OtherError, s)
  else
    let k := pg_key pid pk w (pg_now s) in
    let cas := if amount <=? limit
               then match pg_rows s !! k with
                    | None => true
                    | Some r => count r + amount <=? limit
                    end
               else false in
    if cas : bool then
      let t := upsert k amount (expires_for (bucket_for w (pg_now s)) w) (pg_rows s) in
      (inr (row_count k t, true), set_rows t s)
    else (inr (row_count k (pg_rows s), false), s).

Definition pg_reset (pid pk : string) (w : option Z) : M pg_state () := fun s =>
  if negb (pg_up s) then (inl OtherError, s)
  else (inr (), set_rows (delete (pg_key pid pk w (pg_now s)) (pg_rows s)) s).

(** [DELETE ... WHERE expires_at IS NOT NULL AND expires_at < NOW()]. *)
Definition row_expired (now : Z) (r : counter_row) : bool :=
  match expires_at r with Some e => e * 1000 <? now | None => false end.

Definition pg_reap_expired : M pg_state Z := fun s =>
  if negb (pg_up s) then (inl OtherError, s)
  else
    let live := filter (fun kv : row_key * counter_row => row_expired (pg_now s) kv.2 = false) (pg_rows s) in
    (inr (Z.of_nat (size (pg_rows s)) - Z.of_nat (size live)), set_rows live s).

(** ** The Valkey driver *)

(** A key holds an integer and, possibly, the time at which it expires. *)
Record vk_state : Type := mkVk { vk_up : bool; vk_now : Z; vk_keys : gmap string (Z * option Z) }.

Definition set_keys (t : gmap string (Z * option Z)) (s : vk_state) : vk_state :=
  mkVk (vk_up s) (vk_now s) t.

(** The value of a key that has not expired. *)
Definition vk_lookup (key : string) (s : vk_state) : option (Z * option Z) :=
  match vk_keys s !! key with
  | Some (v, Some e) => if vk_now s <? e then Some (v, Some e) else None
  | o => o
  end.

Definition key_for (pid pk : string) (bucket : Z) : string :=
  "uc:" +:+ pid +:+ ":" +:+ pk +:+ ":" +:+ pretty bucket.

(** [_ttl_seconds], in milliseconds. *)
Definition ttl_ms (w : option Z) (bucket now : Z) : option Z :=
  match w, expires_for bucket w with
  | Some n, Some e =>
      let ttl := e * 1000 - now in
      Some (if ttl <? n * 1000 then n * 1000 else Z.max ttl 0)
  | _, _ => None
  end.

(** [INCRBY], then [PEXPIRE] when the key was created by this call. *)
Definition incrby (key : string) (amount : Z) (ttl : option Z) (s : vk_state) : Z * vk_state :=
  let '(v, old) := default (0, None) (vk_lookup key s) in
  let nv := v + amount in
  let exp := match ttl with
             | Some t => if (0 <? t) && (nv =? amount) then Some (vk_now s + t) else old
             | None => old
             end in
  (nv, set_keys (<[key := (nv, exp)]> (vk_keys s)) s).

Definition vk_incr (pid pk : string) (w : option Z) (amount : Z) : M vk_state Z := fun s =>
  if amount <=? 0 then (inl ValueError, s)
  else if negb (vk_up s) then (inl OtherError, s)
  else
    let bucket := bucket_for w (vk_now s) in
    let '(nv, s') := incrby (key_for pid pk bucket) amount (ttl_ms w bucket (vk_now s)) s in
    (inr nv, s').

(** [get_count] answers [None] on any failure. *)
Definition vk_get (pid pk : string) (w : option Z) : M vk_state Z := fun s =>
  (inr (if vk_up s
        then match vk_lookup (key_for pid pk (bucket_for w (vk_now s))) s with
             | Some (v, _) => v
             | None => 0
             end
        else 0), s).

(** The server-side script: compare, then increment. *)
Definition vk_incr_if_below (pid pk : string) (limit : Z) (w : option Z) (amount : Z)
    : M vk_state (Z * bool) := fun s =>
  if amount <=? 0 then (inl ValueError, s)
  else if negb (vk_up s) then (inl OtherError, s)
  else
    let bucket := bucket_for w (vk_now s) in
    let key := key_for pid pk bucket in
    let cur := match vk_lookup key s with Some (v, _) => v | None => 0 end in
    if limit <? cur + amount then (inr (cur, false), s)
    else let '(nv, s') := incrby key amount (ttl_ms w bucket (vk_now s)) s in (inr (nv, true), s').

Definition vk_reset (pid pk : string) (w : option Z) : M vk_state () := fun s =>
  if negb (vk_up s) then (inl OtherError, s)
  else (inr (), set_keys (delete (key_for pid pk (bucket_for w (vk_now s))) (vk_keys s)) s).

(** ** The layered driver *)

Definition delta : Type := string * string * option Z * Z.

Record layered_state : Type := mkLayered {
  l_vk : vk_state;
  l_pg : pg_state;
  l_buffer : list delta;
}.

(** Run an operation of one of the stores inside the composite. *)
Definition on_vk {A} (c : M vk_state A) : M layered_state A := fun s =>
  let '(r, v) := c (l_vk s) in (r, mkLayered v (l_pg s) (l_buffer s)).
Definition on_pg {A} (c : M pg_state A) : M layered_state A := fun s =>
  let '(r, p) := c (l_pg s) in (r, mkLayered (l_vk s) p (l_buffer s)).

(** [try: ... except Exception: ...]. *)
Definition try_catch {W A} (c : M W A) (handler : M W A) : M W A := fun w =>
  match c w with
  | (inl _, w') => handler w'
  | r => r
  end.

Definition lifetime (w : option Z) : bool :=
  match w with None => true | Some n => n <=? 0 end.

(** [_record_pg_delta]: lifetime quotas are written through, windows are
    buffered; a failed write-through is logged. *)
Definition record_pg_delta (pid pk : string) (w : option Z) (amount : Z) : M layered_state () :=
  if lifetime w
  then try_catch (_ ← on_pg (pg_incr pid pk w amount); mret ()) (mret ())
  else fun s => (inr (), mkLayered (l_vk s) (l_pg s) (l_buffer s ++ [(pid, pk, w, amount)])).

Definition layered_incr (pid pk : string) (w : option Z) (amount : Z) : M layered_state Z :=
  if amount <=? 0 then raise ValueError
  else fun s =>
    match on_vk (vk_incr pid pk w amount) s with
    | (inl _, s') => on_pg (pg_incr pid pk w amount) s'
    | (inr new_count, s') => (_ ← record_pg_delta pid pk w amount; mret new_count) s'
    end.

Definition layered_incr_if_below (pid pk : string) (limit : Z) (w : option Z) (amount : Z)
    : M layered_state (Z * bool) :=
  if amount <=? 0 then raise ValueError
  else fun s =>
    match on_vk (vk_incr_if_below pid pk limit w amount) s with
    | (inl _, s') => on_pg (pg_incr_if_below pid pk limit w amount) s'
    | (inr r, s') =>
        (_ ← (if r.2 : bool then record_pg_delta pid pk w amount else mret ()); mret r) s'
    end.

Definition layered_get (pid pk : string) (w : option Z) : M layered_state Z := fun s =>
  match on_vk (vk_get pid pk w) s with
  | (inr v, s') => if 0 <? v then (inr v, s') else on_pg (pg_get pid pk w) s'
  | (inl _, s') => on_pg (pg_get pid pk w) s'
  end.

(** Both stores are cleared; failures are only logged. *)
Definition layered_reset (pid pk : string) (w : option Z) : M layered_state () :=
  _ ← try_catch (on_vk (vk_reset pid pk w)) (mret ());
  try_catch (on_pg (pg_reset pid pk w)) (mret ()).

Definition layered_reap_expired : M layered_state Z := on_pg pg_reap_expired.

(** [merged[key] = merged.get(key, 0) + amount]. *)
Definition delta_key : Type := string * string * option Z.

Fixpoint merge_delta (k : delta_key) (amount : Z) (merged : list (delta_key * Z))
    : list (delta_key * Z) :=
  match merged with
  | [] => [(k, amount)]
  | (k', a) :: m => if decide (k = k') then (k', a + amount) :: m else (k', a) :: merge_delta k amount m
  end.

Definition merge_deltas (deltas : list delta) : list (delta_key * Z) :=
  fold_left (fun m d => let '(pid, pk, w, amount) := d in merge_delta (pid, pk, w) amount m) deltas [].

(** [_flush_to_postgres]: one increment per distinct bucket, failures logged. *)
Fixpoint write_merged (merged : list (delta_key * Z)) : M pg_state () :=
  match merged with
  | [] => mret ()
  | ((pid, pk, w), amount) :: m =>
      _ ← try_catch (_ ← pg_incr pid pk w amount; mret ()) (mret ());
      write_merged m
  end.

Definition flush_to_postgres : M layered_state () := fun s =>
  let '(r, p) := write_merged (merge_deltas (l_buffer s)) (l_pg s) in
  (r, mkLayered (l_vk s) p []).

(** ** What the handlers rely on *)

(** An atomic compare-and-increment on a count per policy, principal and
    window: it never raises in a good state, it is allowed exactly when the
    count stays within the limit, and it then adds one. *)
Class BoundedCounter (W : Type) := {
  bc_op : counter_op W;
  bc_ok : W -> Prop;
  bc_count : W -> string -> string -> option Z -> Z;
  bc_law : forall pid pk limit w s, bc_ok s ->
    let allowed := bc_count s pid pk w + 1 <=? limit in
    exists s', bc_op pid pk limit w s = (inr (bc_count s' pid pk w, allowed), s') /\ bc_ok s' /\
      bc_count s' pid pk w = bc_count s pid pk w + (if allowed then 1 else 0);
}.

(** *** Postgres *)

Definition pg_ok (s : pg_state) : Prop := pg_up s = true /\ forall k, 0 <= row_count k (pg_rows s).

Definition pg_count (s : pg_state) (pid pk : string) (w : option Z) : Z :=
  row_count (pg_key pid pk w (pg_now s)) (pg_rows s).

Lemma row_count_upsert k k' amount e t :
  row_count k' (upsert k amount e t) = row_count k' t + (if decide (k = k') then amount else 0).
Proof.
  unfold row_count, upsert. destruct (decide (k = k')) as [<-|Hne].
  - destruct (t !! k); by rewrite lookup_insert_eq.
  - destruct (t !! k); rewrite lookup_insert_ne by done; lia.
Qed.

Lemma pg_law pid pk limit w s :
  pg_ok s ->
  let allowed := pg_count s pid pk w + 1 <=? limit in
  exists s', pg_incr_if_below pid pk limit w 1 s = (inr (pg_count s' pid pk w, allowed), s') /\ pg_ok s' /\
    pg_count s' pid pk w = pg_count s pid pk w + (if allowed then 1 else 0).
Proof.
  intros [Hup Hpos]. unfold pg_incr_if_below, pg_count. rewrite Hup. cbn [negb Z.leb].
  set (k := pg_key pid pk w (pg_now s)). specialize (Hpos k) as Hk.
  assert ((if 1 <=? limit
           then match pg_rows s !! k with None => true | Some r => count r + 1 <=? limit end else false)
          = (row_count k (pg_rows s) + 1 <=? limit)) as Hcas.
  { unfold row_count in *. destruct (pg_rows s !! k) as [r|], (1 <=? limit) eqn:E; bool_hyps; try done;
      symmetry; [apply Z.leb_gt; lia|by apply Z.leb_le|by apply Z.leb_gt]. }
  change (1 <=? 0) with false. cbv iota. rewrite Hcas.
  destruct (row_count k (pg_rows s) + 1 <=? limit).
  - exists (set_rows (upsert k 1 (expires_for (bucket_for w (pg_now s)) w) (pg_rows s)) s).
    split; [done|]. cbn [pg_now pg_rows set_rows]. fold k.
    split; [|by rewrite row_count_upsert, decide_True].
    split; [done|]. intros k'. cbn [pg_rows set_rows]. rewrite row_count_upsert.
    specialize (Hpos k'). case_decide; lia.
  - exists s. fold k. split; [done|]. split; [done|]. lia.
Qed.

#[global] Instance pg_counter : BoundedCounter pg_state := {|
  bc_op pid pk limit w := pg_incr_if_below pid pk limit w 1;
  bc_ok := pg_ok;
  bc_count := pg_count;
  bc_law := pg_law;
|}.

(** *** Valkey *)

Definition vk_value (key : string) (s : vk_state) : Z :=
  match vk_lookup key s with Some (v, _) => v | None => 0 end.

Definition vk_ok (s : vk_state) : Prop := vk_up s = true.

Definition vk_count (s : vk_state) (pid pk : string) (w : option Z) : Z :=
  vk_value (key_for pid pk (bucket_for w (vk_now s))) s.

Lemma vk_lookup_live key s v e : vk_lookup key s = Some (v, Some e) -> vk_now s < e.
Proof.
  unfold vk_lookup. destruct (vk_keys s !! key) as [[v' [e'|]]|]; try done.
  destruct (vk_now s <? e') eqn:E; [|done]. intros [= -> ->]. by bool_hyps.
Qed.

Lemma vk_lookup_insert key x s :
  (forall e, x.2 = Some e -> vk_now s < e) ->
  vk_lookup key (set_keys (<[key := x]> (vk_keys s)) s) = Some x.
Proof.
  intros He. unfold vk_lookup, set_keys. cbn [vk_keys vk_now]. rewrite lookup_insert_eq.
  destruct x as [v [e|]]; [|done]. by rewrite (proj2 (Z.ltb_lt _ _) (He e eq_refl)).
Qed.

Lemma vk_lookup_insert_ne key key' x s :
  key <> key' -> vk_lookup key' (set_keys (<[key := x]> (vk_keys s)) s) = vk_lookup key' s.
Proof. intros Hne. unfold vk_lookup, set_keys. cbn [vk_keys vk_now]. by rewrite lookup_insert_ne. Qed.

Lemma incrby_spec key amount ttl s nv s' :
  incrby key amount ttl s = (nv, s') ->
  vk_up s' = vk_up s /\ vk_now s' = vk_now s /\ nv = vk_value key s + amount /\ vk_value key s' = nv /\
  forall key', key <> key' -> vk_value key' s' = vk_value key' s.
Proof.
  unfold incrby, vk_value. destruct (vk_lookup key s) as [[v old]|] eqn:El; simpl; intros [= <- <-];
    (split_and!; [done..| |]).
  - rewrite vk_lookup_insert; [done|]. simpl. intros e.
    destruct ttl as [t|]; [destruct ((0 <? t) && _) eqn:E|]; intros Hx; subst; try by eapply vk_lookup_live.
    bool_hyps. simplify_eq. lia.
  - intros key' Hne. by rewrite vk_lookup_insert_ne.
  - rewrite vk_lookup_insert; [done|]. simpl. intros e.
    destruct ttl as [t|]; [destruct ((0 <? t) && _) eqn:E|]; intros Hx; subst; try done.
    bool_hyps. simplify_eq. lia.
  - intros key' Hne. by rewrite vk_lookup_insert_ne.
Qed.

Lemma vk_law pid pk limit w s :
  vk_ok s ->
  let allowed := vk_count s pid pk w + 1 <=? limit in
  exists s', vk_incr_if_below pid pk limit w 1 s = (inr (vk_count s' pid pk w, allowed), s') /\ vk_ok s' /\
    vk_count s' pid pk w = vk_count s pid pk w + (if allowed then 1 else 0).
Proof.
  unfold vk_ok. intros Hup. unfold vk_incr_if_below, vk_count. rewrite Hup. cbn [negb].
  change (1 <=? 0) with false. cbv iota. fold (vk_value (key_for pid pk (bucket_for w (vk_now s))) s).
  set (key := key_for pid pk (bucket_for w (vk_now s))).
  assert ((limit <? vk_value key s + 1) = negb (vk_value key s + 1 <=? limit)) as -> by apply Z.ltb_antisym.
  destruct (vk_value key s + 1 <=? limit); simpl.
  - destruct (incrby key 1 _ s) as [nv s'] eqn:Ei.
    destruct (incrby_spec _ _ _ _ _ _ Ei) as (Hup' & Hnow & Hnv & Hv & _).
    exists s'. rewrite Hnow. fold key. rewrite Hv. split_and!; [done|congruence|done].
  - exists s. fold key. split_and!; [done..|lia].
Qed.

#[global] Instance vk_counter : BoundedCounter vk_state := {|
  bc_op pid pk limit w := vk_incr_if_below pid pk limit w 1;
  bc_ok := vk_ok;
  bc_count := vk_count;
  bc_law := vk_law;
|}.

(** *** Layered *)

Lemma record_pg_delta_vk pid pk w amount s :
  exists s', record_pg_delta pid pk w amount s = (inr (), s') /\ l_vk s' = l_vk s.
Proof.
  unfold record_pg_delta. destruct (lifetime w); [|by eexists].
  unfold try_catch, mbind, M_bind, on_pg. destruct (pg_incr pid pk w amount (l_pg s)) as [[e|c] p]; by eexists.
Qed.

Lemma layered_law pid pk limit w s :
  vk_ok (l_vk s) ->
  let allowed := vk_count (l_vk s) pid pk w + 1 <=? limit in
  exists s', layered_incr_if_below pid pk limit w 1 s = (inr (vk_count (l_vk s') pid pk w, allowed), s') /\
    vk_ok (l_vk s') /\
    vk_count (l_vk s') pid pk w = vk_count (l_vk s) pid pk w + (if allowed then 1 else 0).
Proof.
  intros Hok. destruct (vk_law pid pk limit w (l_vk s) Hok) as (v & Hv & Hok' & Hc).
  unfold layered_incr_if_below, on_vk. change (1 <=? 0) with false. cbv beta iota. rewrite Hv.
  cbn [snd]. destruct (_ <=? limit).
  - destruct (record_pg_delta_vk pid pk w 1 (mkLayered v (l_pg s) (l_buffer s))) as (s' & Hs' & Hl).
    unfold mbind, M_bind. rewrite Hs'. exists s'. rewrite Hl. by split_and!.
  - exists (mkLayered v (l_pg s) (l_buffer s)). by split_and!.
Qed.

#[global] Instance layered_counter : BoundedCounter layered_state := {|
  bc_op pid pk limit w := layered_incr_if_below pid pk limit w 1;
  bc_ok s := vk_ok (l_vk s);
  bc_count s := vk_count (l_vk s);
  bc_law := layered_law;
|}.

(** ** The handlers against the interface *)

(** [n] requests in a row, each evaluating [c]. *)
Fixpoint run_n {W A} (n : nat) (c : M W A) (w : W) : list (exn + A) * W :=
  match n with
  | O => ([], w)
  | S n' => let '(r, w1) := c w in let '(rs, w2) := run_n n' c w1 in (r :: rs, w2)
  end.

(** The outcomes of [n] requests against a limit with [room] left. *)
Definition capped (e : exn) (n room : nat) : list (exn + bool) :=
  replicate (Nat.min n room) (inr true) ++ replicate (n - room) (inl e).

Lemma run_counter `{BoundedCounter W} (c : M W bool) (e : exn) pid pk limit win n w :
  (forall s, c s = match bc_op pid pk limit win s with
                   | (inr (_, allowed), s') => ((if allowed : bool then inr true else inl e), s')
                   | (inl x, s') => (inl x, s')
                   end) ->
  bc_ok w ->
  (run_n n c w).1 = capped e n (Z.to_nat (limit - bc_count w pid pk win)).
Proof.
  intros Hc. revert w. induction n as [|n IH]; intros w Hok; cbn [run_n]; [done|].
  destruct (bc_law pid pk limit win w Hok) as (w1 & Hop & Hok1 & Hcnt). rewrite Hc, Hop.
  specialize (IH w1 Hok1). destruct (run_n n c w1) as [rs w2]. cbn [fst] in *. subst rs.
  rewrite Hcnt. unfold capped. destruct (_ <=? limit) eqn:E; bool_hyps.
  - replace (Z.to_nat (limit - bc_count w pid pk win))
      with (S (Z.to_nat (limit - (bc_count w pid pk win + 1)))) by lia. done.
  - replace (Z.to_nat (limit - (bc_count w pid pk win + 0))) with 0%nat by lia.
    replace (Z.to_nat (limit - bc_count w pid pk win)) with 0%nat by lia.
    rewrite !Nat.min_0_r. simpl. by rewrite Nat.sub_0_r.
Qed.

(** A [rate_limit] condition lets through exactly the remaining
    allowance of the window, and raises for every further request of it,
    whichever counter driver is behind the protocol. *)
Theorem rate_limit_exact `{PyRuntime} {W : Type} `{Services W} `{BoundedCounter W}
    (pid : option string) (cfg : list (string * pyval)) (ctx : EvaluationContext)
    (policy key : string) (limit window : Z) (n : nat) (w : W) :
  usage_counter = Some bc_op -> path_method_matches cfg ctx = true ->
  policy_id_for pid cfg = Some policy ->
  principal_key_for (cfg_get_or cfg "scope" (VStr "principal")) ctx = mret (M := M W) (Some key) ->
  py_int (cfg_get_or cfg "limit" (VInt 0)) = Some limit ->
  py_int (cfg_get_or cfg "window_seconds" (VInt 60)) = Some window ->
  0 < limit -> 0 < window -> bc_ok w ->
  (run_n n (rate_limit pid cfg ctx) w).1
  = capped RateLimitExceededError n (Z.to_nat (limit - bc_count w policy key (Some window))).
Proof.
  intros Huc Hpath Hpid Hkey Hlim Hwin Hl Hw Hok.
  apply run_counter; [|done]. intros s. unfold rate_limit. rewrite Hpath, Hpid, Hkey. simpl.
  unfold mbind, M_bind, mret, M_ret, int_or_raise. rewrite Huc, Hlim, Hwin.
  unfold mret, M_ret, raise.
  assert ((limit <=? 0) || (window <=? 0) = false) as ->
    by (apply orb_false_iff; split; apply Z.leb_gt; lia).
  destruct (bc_op policy key limit (Some window) s) as [[x|[c allowed]] s']; [done|]. by destruct allowed.
Qed.

(** Likewise a [max_count] condition and its lifetime quota. *)
Theorem max_count_exact `{PyRuntime} {W : Type} `{Services W} `{BoundedCounter W}
    (pid : option string) (cfg : list (string * pyval)) (ctx : EvaluationContext)
    (policy key : string) (limit : Z) (n : nat) (w : W) :
  usage_counter = Some bc_op -> path_method_matches cfg ctx = true ->
  policy_id_for pid cfg = Some policy ->
  principal_key_for (cfg_get_or cfg "scope" (VStr "principal")) ctx = mret (M := M W) (Some key) ->
  py_int (cfg_get_or cfg "limit" (cfg_get_or cfg "max_count" (VInt 0))) = Some limit ->
  0 < limit -> bc_ok w ->
  (run_n n (max_count pid cfg ctx) w).1
  = capped QuotaExceededError n (Z.to_nat (limit - bc_count w policy key None)).
Proof.
  intros Huc Hpath Hpid Hkey Hlim Hl Hok.
  apply run_counter; [|done]. intros s. unfold max_count. rewrite Hpath, Hpid, Hkey. simpl.
  unfold mbind, M_bind, mret, M_ret, int_or_raise. rewrite Huc, Hlim.
  unfold mret, M_ret, raise.
  assert ((limit <=? 0) = false) as -> by (apply Z.leb_gt; lia).
  destruct (bc_op policy key limit None s) as [[x|[c allowed]] s']; [done|]. by destruct allowed.
Qed.

(** ** The two drivers agree *)

Lemma key_for_inj pid pk b pid' pk' b' :
  colon_free pid = true -> colon_free pid' = true ->
  key_for pid pk b = key_for pid' pk' b' -> pid = pid' /\ pk = pk' /\ b = b'.
Proof.
  intros Hp Hp' Heq. unfold key_for in Heq. apply str_app_inj_l in Heq.
  apply (str_sep_inj ":") in Heq as [-> Heq]; [|done..].
  apply (str_rsep_inj pk pk' (pretty b) (pretty b')) in Heq as [-> Heq]; [|apply pretty_colon_free..].
  by simplify_eq.
Qed.

(** Both stores are up, have the same clock and the same counts. *)
Definition drivers_agree (p : pg_state) (v : vk_state) : Prop :=
  pg_ok p /\ vk_ok v /\ pg_now p = vk_now v /\
  forall pid pk w, colon_free pid = true -> pg_count p pid pk w = vk_count v pid pk w.

(** A call of [incr_if_below], with an amount of one. *)
Definition call : Type := string * string * Z * option Z.

Fixpoint run_calls {W} (op : counter_op W) (calls : list call) (s : W) : list (exn + (Z * bool)) * W :=
  match calls with
  | [] => ([], s)
  | (pid, pk, limit, w) :: cs =>
      let '(r, s1) := op pid pk limit w s in
      let '(rs, s2) := run_calls op cs s1 in (r :: rs, s2)
  end.

Lemma pg_frame pid pk limit w s r s' pid' pk' w' :
  pg_incr_if_below pid pk limit w 1 s = (r, s') ->
  pg_key pid pk w (pg_now s) <> pg_key pid' pk' w' (pg_now s) ->
  pg_now s' = pg_now s /\ pg_count s' pid' pk' w' = pg_count s pid' pk' w'.
Proof.
  unfold pg_incr_if_below. change (1 <=? 0) with false. cbv beta iota.
  destruct (negb (pg_up s)); [by intros [= <- <-]|].
  destruct (if 1 <=? limit then _ else _); intros [= <- <-] Hne; [|done].
  split; [done|]. unfold pg_count. cbn [pg_now pg_rows set_rows].
  rewrite row_count_upsert, decide_False by done. lia.
Qed.

Lemma pg_now_frame pid pk limit w s r s' :
  pg_incr_if_below pid pk limit w 1 s = (r, s') -> pg_now s' = pg_now s.
Proof.
  unfold pg_incr_if_below. change (1 <=? 0) with false. cbv beta iota.
  destruct (negb (pg_up s)); [by intros [= <- <-]|].
  by destruct (if 1 <=? limit then _ else _); intros [= <- <-].
Qed.

Lemma vk_frame pid pk limit w s r s' :
  vk_incr_if_below pid pk limit w 1 s = (r, s') ->
  vk_now s' = vk_now s /\
  forall pid' pk' w',
    key_for pid pk (bucket_for w (vk_now s)) <> key_for pid' pk' (bucket_for w' (vk_now s)) ->
    vk_count s' pid' pk' w' = vk_count s pid' pk' w'.
Proof.
  unfold vk_incr_if_below. change (1 <=? 0) with false. cbv beta iota.
  destruct (negb (vk_up s)); [by intros [= <- <-]|].
  destruct (limit <? _); [by intros [= <- <-]|].
  destruct (incrby _ _ _ _) as [nv s1] eqn:Ei. intros [= <- <-].
  destruct (incrby_spec _ _ _ _ _ _ Ei) as (_ & Hnow & _ & _ & Hother).
  split; [done|]. intros pid' pk' w' Hne. unfold vk_count. rewrite Hnow. by apply Hother.
Qed.

Lemma drivers_step pid pk limit w p v :
  colon_free pid = true -> drivers_agree p v ->
  (pg_incr_if_below pid pk limit w 1 p).1 = (vk_incr_if_below pid pk limit w 1 v).1 /\
  drivers_agree (pg_incr_if_below pid pk limit w 1 p).2 (vk_incr_if_below pid pk limit w 1 v).2.
Proof.
  intros Hcf (Hp & Hv & Hnow & Hcnt).
  destruct (pg_law pid pk limit w p Hp) as (p' & Hpo & Hp' & Hpc).
  destruct (vk_law pid pk limit w v Hv) as (v' & Hvo & Hv' & Hvc).
  assert (Hpn := pg_now_frame _ _ _ _ _ _ _ Hpo). destruct (vk_frame _ _ _ _ _ _ _ Hvo) as [Hvn Hvf].
  rewrite Hpo, Hvo. cbn [fst snd]. rewrite Hpc, Hvc, !Hcnt by done.
  split; [done|]. split_and!; [done..|congruence|]. intros pid' pk' w' Hcf'.
  destruct (decide (pg_key pid pk w (pg_now p) = pg_key pid' pk' w' (pg_now p))) as [Heq|Hne].
  - injection Heq as <- <- Hb. unfold pg_count, vk_count, pg_key in *. rewrite Hpn in *.
    rewrite Hvn in *. rewrite <-Hnow in *. rewrite <-Hb. rewrite Hpc, Hvc. by rewrite (Hcnt pid pk w).
  - rewrite (proj2 (pg_frame _ _ _ _ _ _ _ pid' pk' w' Hpo Hne)), Hvf; [by apply Hcnt|].
    intros (-> & -> & Hb)%key_for_inj; [|done..]. apply Hne. unfold pg_key. congruence.
Qed.

(** The durable and the hot driver are interchangeable
    within a clock reading: on every sequence of calls from states with the
    same counts they give the same answers (policy ids being free of the
    separator of the Valkey keys). *)
Theorem counter_drivers_agree (calls : list call) (p : pg_state) (v : vk_state) :
  drivers_agree p v -> forallb (fun c => colon_free c.1.1.1) calls = true ->
  (run_calls (fun pid pk limit w => pg_incr_if_below pid pk limit w 1) calls p).1
  = (run_calls (fun pid pk limit w => vk_incr_if_below pid pk limit w 1) calls v).1.
Proof.
  revert p v. induction calls as [|[[[pid pk] limit] w] calls IH]; intros p v Hag Hcf; [done|].
  simpl in Hcf. apply andb_true_iff in Hcf as [Hc Hcf].
  destruct (drivers_step pid pk limit w p v Hc Hag) as [Hr Hag']. cbn [run_calls].
  destruct (pg_incr_if_below _ _ _ _ _ p) as [r p'], (vk_incr_if_below _ _ _ _ _ v) as [r' v'].
  cbn [fst snd] in *. subst r'. specialize (IH p' v' Hag' Hcf).
  destruct (run_calls _ calls p') as [rs p2], (run_calls _ calls v') as [rs' v2]. simpl in *. congruence.
Qed.

(** ** The batched write-through *)

(** The reference: one increment per buffered delta. *)
Fixpoint write_each (deltas : list delta) : M pg_state () :=
  match deltas with
  | [] => mret ()
  | (pid, pk, w, amount) :: ds =>
      _ ← try_catch (_ ← pg_incr pid pk w amount; mret ()) (mret ()); write_each ds
  end.

(** What an increment does to the rows, at time [now]. *)
Definition bump (now : Z) (k : delta_key) (amount : Z) (t : gmap row_key counter_row) :=
  let '(pid, pk, w) := k in upsert (pg_key pid pk w now) amount (expires_for (bucket_for w now) w) t.

Definition bump_all (now : Z) (l : list (delta_key * Z)) (t : gmap row_key counter_row) :=
  fold_left (fun t e => bump now e.1 e.2 t) l t.

Definition coalesce (a b : option Z) : option Z := match a with Some e => Some e | None => b end.

Lemma upsert_insert k a e t :
  upsert k a e t = <[k := mkRow (row_count k t + a)
                           (coalesce (t !! k ≫= expires_at) e)]> t.
Proof. unfold upsert, row_count, coalesce. by destruct (t !! k) as [[c [x|]]|]. Qed.

Lemma upsert_twice k a b e t : upsert k b e (upsert k a e t) = upsert k (a + b) e t.
Proof.
  rewrite !upsert_insert, insert_insert_eq. unfold row_count. rewrite lookup_insert_eq. simpl.
  f_equal. f_equal; [lia|]. unfold coalesce. by destruct (t !! k ≫= expires_at), e.
Qed.

(** An increment of an existing row commutes with any other. *)
Lemma upsert_comm k a e k' a' e' t r :
  t !! k = Some r -> (expires_at r = None -> e = None) ->
  upsert k a e (upsert k' a' e' t) = upsert k' a' e' (upsert k a e t).
Proof.
  intros Hr He. rewrite !upsert_insert. unfold row_count.
  destruct (decide (k = k')) as [<-|Hne].
  - rewrite !insert_insert_eq, !lookup_insert_eq, Hr. simpl. f_equal. f_equal; [lia|].
    unfold coalesce. destruct (expires_at r); [done|]. rewrite He by done. by destruct e'.
  - rewrite (lookup_insert_ne _ k' k), (lookup_insert_ne _ k k') by done. by rewrite insert_insert_ne.
Qed.

Definition has_row (now : Z) (k : delta_key) (t : gmap row_key counter_row) : Prop :=
  let '(pid, pk, w) := k in
  exists r, t !! pg_key pid pk w now = Some r /\
    (expires_at r = None -> expires_for (bucket_for w now) w = None).

Lemma bump_has_row now k a t : has_row now k (bump now k a t).
Proof.
  destruct k as [[pid pk] w]. simpl. rewrite upsert_insert, lookup_insert_eq. eexists; split; [done|].
  simpl. unfold coalesce. by destruct (t !! _ ≫= expires_at).
Qed.

Lemma has_row_bump now k k' a t : has_row now k t -> has_row now k (bump now k' a t).
Proof.
  destruct k as [[pid pk] w], k' as [[pid' pk'] w']. simpl. intros (r & Hr & He).
  rewrite upsert_insert. destruct (decide (pg_key pid pk w now = pg_key pid' pk' w' now)) as [Heq|Hne].
  - rewrite <-Heq, lookup_insert_eq, Hr. eexists; split; [done|]. simpl. unfold coalesce.
    destruct (expires_at r); [done|]. auto.
  - rewrite lookup_insert_ne by done. eauto.
Qed.

Lemma bump_all_comm now l k a t :
  has_row now k t -> bump now k a (bump_all now l t) = bump_all now l (bump now k a t).
Proof.
  revert t. induction l as [|[k' a'] l IH]; intros t Hk; simpl; [done|].
  rewrite IH by by apply has_row_bump. f_equal. destruct k as [[pid pk] w], k' as [[pid' pk'] w'].
  destruct Hk as (r & Hr & He). by eapply upsert_comm.
Qed.

Lemma bump_merge now k a m t : bump_all now (merge_delta k a m) t = bump now k a (bump_all now m t).
Proof.
  revert t. induction m as [|[k' a'] m IH]; intros t; simpl; [done|].
  case_decide as Hk; simpl; [subst|apply IH].
  rewrite bump_all_comm by apply bump_has_row. f_equal.
  destruct k' as [[pid pk] w]. simpl. by rewrite upsert_twice.
Qed.

Lemma bump_merges now ds m t :
  bump_all now (fold_left (fun m d => let '(pid, pk, w, amount) := d in merge_delta (pid, pk, w) amount m) ds m) t
  = bump_all now (map (fun d : delta => let '(pid, pk, w, amount) := d in ((pid, pk, w), amount)) ds)
      (bump_all now m t).
Proof.
  revert m. induction ds as [|[[[pid pk] w] a] ds IH]; intros m; simpl; [done|].
  by rewrite IH, bump_merge.
Qed.

Lemma merge_delta_pos k a m :
  0 < a -> Forall (fun e => 0 < e.2) m -> Forall (fun e => 0 < e.2) (merge_delta k a m).
Proof.
  intros Ha. induction 1 as [|[k' a'] m Hx Hm IH]; simpl; [by repeat constructor|].
  case_decide; constructor; simpl in *; auto; lia.
Qed.

Lemma merge_deltas_pos ds m :
  Forall (fun d : delta => 0 < d.2) ds -> Forall (fun e => 0 < e.2) m ->
  Forall (fun e => 0 < e.2)
    (fold_left (fun m d => let '(pid, pk, w, amount) := d in merge_delta (pid, pk, w) amount m) ds m).
Proof.
  intros Hds. revert m. induction Hds as [|[[[pid pk] w] a] ds Hd _ IH]; intros m Hm; simpl; [done|].
  apply IH. by apply merge_delta_pos.
Qed.

Lemma pg_incr_rows pid pk w a s :
  pg_up s = true -> 0 < a ->
  try_catch (_ ← pg_incr pid pk w a; mret ()) (mret ()) s
  = (inr (), set_rows (bump (pg_now s) (pid, pk, w) a (pg_rows s)) s).
Proof.
  intros Hup Ha. unfold try_catch, pg_incr, mbind, M_bind.
  rewrite (proj2 (Z.leb_gt a 0)) by lia. by rewrite Hup.
Qed.

Lemma write_merged_rows m s :
  pg_up s = true -> Forall (fun e => 0 < e.2) m ->
  write_merged m s = (inr (), set_rows (bump_all (pg_now s) m (pg_rows s)) s).
Proof.
  intros Hup Hm. revert s Hup. induction Hm as [|[[[pid pk] w] a] m Ha Hm IH]; intros s Hup; cbn [write_merged].
  - by destruct s.
  - unfold mbind at 1, M_bind at 1. rewrite pg_incr_rows by done. by rewrite IH.
Qed.

Lemma write_each_rows ds s :
  pg_up s = true -> Forall (fun d : delta => 0 < d.2) ds ->
  write_each ds s = (inr (), set_rows (bump_all (pg_now s)
    (map (fun d : delta => let '(pid, pk, w, amount) := d in ((pid, pk, w), amount)) ds) (pg_rows s)) s).
Proof.
  intros Hup Hm. revert s Hup. induction Hm as [|[[[pid pk] w] a] m Ha Hm IH]; intros s Hup; cbn [write_each].
  - by destruct s.
  - unfold mbind at 1, M_bind at 1. rewrite pg_incr_rows by done. by rewrite IH.
Qed.

(** Collapsing the buffered deltas before writing them
    through loses nothing: with the database up, the flush leaves the table
    exactly as one increment per delta would, and empties the buffer. *)
Theorem flush_equals_individual_writes (s : layered_state) :
  pg_up (l_pg s) = true -> Forall (fun d : delta => 0 < d.2) (l_buffer s) ->
  flush_to_postgres s = (inr (), mkLayered (l_vk s) (write_each (l_buffer s) (l_pg s)).2 []).
Proof.
  intros Hup Hpos. unfold flush_to_postgres, merge_deltas.
  rewrite write_merged_rows, write_each_rows by (done || by apply merge_deltas_pos).
  by rewrite bump_merges.
Qed.

(** ** Witnesses *)

Definition counting_services {W} `{BoundedCounter W} : Services W := {|
  usage_counter := Some bc_op;
  iam_membership := None;
  lookup_is_public _ := None;
  allow_anonymous_create _ _ := None;
  utc_now := 0; utc_hour := 12; utc_weekday := 1;
  sysadmin_role_name := "sysadmin";
  ext_handler _ := None;
|}.

Definition user_ctx : EvaluationContext :=
  mkCtx None (Some "u") "/stac" "GET" None 0 (Some "cat") None None [] None.

Definition empty_pg : pg_state := mkPg true 120500 ∅.
Definition empty_vk : vk_state := mkVk true 120500 ∅.

Lemma empty_pg_ok : pg_ok empty_pg.
Proof. split; [done|]. intros k. unfold row_count, empty_pg. simpl. by rewrite lookup_empty. Qed.

(** Witness of [rate_limit_exact]: two requests a minute, on Postgres; the third raises. *)
Lemma rate_limit_exact_witness :
  (run_n 3 (@rate_limit demo_runtime pg_state counting_services (Some "p")
     [("limit", VInt 2); ("window_seconds", VInt 60)] user_ctx) empty_pg).1
  = [inr true; inr true; inl RateLimitExceededError].
Proof.
  apply (@rate_limit_exact demo_runtime pg_state counting_services pg_counter (Some "p")
    [("limit", VInt 2); ("window_seconds", VInt 60)] user_ctx "p" "u" 2 60 3 empty_pg);
    try apply empty_pg_ok; try done; lia.
Defined.

(** Witness of [max_count_exact]: a lifetime quota of one, on the layered driver. *)
Lemma max_count_exact_witness :
  (run_n 2 (@max_count demo_runtime layered_state counting_services (Some "p")
     [("limit", VInt 1)] user_ctx) (mkLayered empty_vk empty_pg [])).1
  = [inr true; inl QuotaExceededError].
Proof.
  apply (@max_count_exact demo_runtime layered_state counting_services layered_counter (Some "p")
    [("limit", VInt 1)] user_ctx "p" "u" 1 2 (mkLayered empty_vk empty_pg [])); try done; lia.
Defined.

Lemma empty_drivers_agree : drivers_agree empty_pg empty_vk.
Proof.
  split_and!; [apply empty_pg_ok|done|done|]. intros pid pk w _.
  unfold pg_count, vk_count, row_count, vk_value, vk_lookup, empty_pg, empty_vk. simpl.
  by rewrite !lookup_empty.
Qed.

(** Witness of [counter_drivers_agree]. *)
Lemma counter_drivers_agree_witness :
  let calls := [("p", "u", 1, Some 60); ("p", "u", 1, Some 60); ("q", "ip:1", 5, None)] in
  (run_calls (fun pid pk limit w => pg_incr_if_below pid pk limit w 1) calls empty_pg).1
  = (run_calls (fun pid pk limit w => vk_incr_if_below pid pk limit w 1) calls empty_vk).1.
Proof. apply counter_drivers_agree; [apply empty_drivers_agree|done]. Defined.

(** Witness of [flush_equals_individual_writes]: three deltas of two buckets. *)
Lemma flush_equals_individual_writes_witness :
  let s := mkLayered empty_vk empty_pg
    [("p", "u", Some 60, 1); ("q", "u", Some 60, 1); ("p", "u", Some 60, 1)] in
  flush_to_postgres s = (inr (), mkLayered (l_vk s) (write_each (l_buffer s) (l_pg s)).2 []).
Proof.
  apply flush_equals_individual_writes; [done|]. repeat constructor; simpl; lia.
Defined.

(** ** Where a counter forgets or confuses *)

(** A Valkey restart empties the hot store and nothing reloads it from the
    table: a lifetime quota of one that was used up, and is recorded in the
    table, is granted again. *)
Lemma lifetime_quota_lost_on_restart :
  let used := mkLayered empty_vk (mkPg true 120500 {[("p", "u", 0) := mkRow 1 None]}) [] in
  (layered_incr_if_below "p" "u" 1 None 1 used).1 = inr (1, true) /\
  (pg_incr_if_below "p" "u" 1 None 1 (l_pg used)).1 = inr (1, false).
Proof. by vm_compute. Qed.

(** A delta buffered at the end of a window is written to the next one: the
    flush computes the bucket when it runs. *)
Lemma buffered_delta_changes_window :
  let s := mkLayered empty_vk (mkPg true 119500 ∅) [] in
  let s1 := (layered_incr_if_below "p" "u" 5 (Some 60) 1 s).2 in
  let later := mkLayered (l_vk s1) (mkPg true 121000 (pg_rows (l_pg s1))) (l_buffer s1) in
  row_count ("p", "u", 60) (pg_rows (l_pg (flush_to_postgres later).2)) = 0 /\
  row_count ("p", "u", 120) (pg_rows (l_pg (flush_to_postgres later).2)) = 1.
Proof. by vm_compute. Qed.

(** Distinct policies and principals can share a Valkey key. *)
Lemma valkey_key_collision b : key_for "stac:read" "u" b = key_for "stac" "read:u" b.
Proof. done. Qed.

(** Windows of different lengths that start together share a counter: a
    request under a limit per minute and a limit per hour counts twice. *)
Lemma windows_share_counter :
  let s1 := (pg_incr_if_below "p" "u" 10 (Some 60) 1 (mkPg true 3600500 ∅)).2 in
  (pg_incr_if_below "p" "u" 10 (Some 3600) 1 s1).1 = inr (2, true).
Proof. by vm_compute. Qed.
