(* ===== verification/BindingCache.v ===== *)
(** * Version-keyed caching of identity resolutions

    [iam/phantom_token.py] (binding versions, cached resolution), the writes of
    [iam/postgres_iam_storage.py] and [iam/postgres_policy_storage.py] that bump
    a version, and [iam/compiled_rule_cache.py].

    Roles and bindings of a caller are cached under a key that contains two
    counters, one of the platform schema and one of the tenant schema.  A writer
    commits and then increments the counter, so that readers that see the new
    count cannot find the old entry.  A process remembers a count for
    [VERSION_L1_TTL] milliseconds.

    The theorem interleaves any number of processes, requests and writes.  The
    cache behind the key (two tiers, with expiry and eviction) may lose any entry
    at any time; it answers only with what was stored under the key.  The shared
    backend may lose counters too ([st_lose]), which ends the guarantee.  The
    resolver reads one snapshot of the database, numbered by its revision. *)

From S2P Require Import Prelude.

(** ** Keys and versions *)

Definition VERSION_L1_TTL : Z := 2000.
Definition RESOLUTION_PREFIX : string := "iam:phantom:".

Definition resolution_key (provider subject_id schema : string) (platform_v catalog_v : Z) : string :=
  RESOLUTION_PREFIX +:+ (provider +:+ String ":" (subject_id +:+ String ":" (schema +:+ String ":"
    (pretty platform_v +:+ String ":" (pretty catalog_v))))).

(** The memo of one process: value and time stamp per schema. *)
Abbreviation version_memo := (gmap string (Z * Z)).

Definition memo_get (now : Z) (schema : string) (memo : version_memo) : option Z :=
  match memo !! schema with
  | Some (v, ts) => if now - ts <? VERSION_L1_TTL then Some v else None
  | None => None
  end.

(** [backend]: a distributed backend is present.  [answer]: what [get_count]
    returns, [None] when it raises; [stamp] is the clock when it has returned. *)
Definition get_binding_version (backend : bool) (now : Z) (schema : string) (answer : option (option Z))
    (stamp : Z) (memo : version_memo) : Z * version_memo :=
  if negb backend then (0, memo)
  else
    match memo_get now schema memo with
    | Some v => (v, memo)
    | None =>
        match answer with
        | None => (0, memo)
        | Some v => let value := default 0 v in (value, <[schema := (value, stamp)]> memo)
        end
    end.

(** Counters of the shared backend; [ok] is false when [incr] raises. *)
Abbreviation counters := (gmap string Z).
Definition count_of (c : counters) (s : string) : Z := default 0 (c !! s).

Definition bump_binding_version (backend ok : bool) (schema : string) (c : counters) (memo : version_memo)
    : counters * version_memo :=
  if negb backend then (c, memo)
  else (if ok then <[schema := count_of c schema + 1]> c else c, delete schema memo).

(** ** Writes

    The write operations of the storage layer and the counters they bump, in
    order, after their transaction. *)

Inductive iam_write : Type :=
| CreatePrincipal | UpdatePrincipal | DeletePrincipal
| CreateIdentityLink | DeleteIdentityLink
| CreateRole (schema : string) | UpdateRole (schema : string) | DeleteRole (schema : string)
| BindPolicyToRole (schema : string) | UnbindPolicyFromRole (schema : string)
| AddRoleHierarchy (schema : string) | RemoveRoleHierarchy (schema : string)
| InsertGrant (schema : string) | Revoke (schema : string) | RevokeByMatch (schema : string)
| CreatePolicy (schema : string) | UpdatePolicy (schema : string) | DeletePolicy (schema : string).

(** [PostgresIamStorage._bump_binding_version] *)
Definition storage_bumps (schema : string) : list string :=
  if schema ==s "iam" then [schema] else [schema; "iam"].

Definition bumps_of (w : iam_write) : list string :=
  match w with
  | CreatePrincipal | DeletePrincipal | CreateIdentityLink | DeleteIdentityLink => []
  | UpdatePrincipal => storage_bumps "iam"
  | CreateRole s | UpdateRole s | DeleteRole s | BindPolicyToRole s | UnbindPolicyFromRole s
  | AddRoleHierarchy s | RemoveRoleHierarchy s | InsertGrant s | Revoke s | RevokeByMatch s => storage_bumps s
  | CreatePolicy s | UpdatePolicy s | DeletePolicy s => [s]
  end.

(** ** The world *)

Record resolve_request : Type := mkReq { rq_provider : string; rq_subject : string; rq_schema : string }.

(** The schema whose counter is the second component of the key. *)
Definition catalog_schema (q : resolve_request) : string :=
  if (rq_schema q ==s "") || (rq_schema q ==s "iam") then "iam" else rq_schema q.

Definition key_of (q : resolve_request) (pv cv : Z) : string :=
  resolution_key (rq_provider q) (rq_subject q) (rq_schema q) pv cv.

(** A successful increment: the counter, the value it reached, the revision of
    the write it stands for, and its time. *)
Record event : Type := mkEvent { e_schema : string; e_count : Z; e_rev : nat; e_time : Z }.

Section world.
Context {B : Type}.
(** The bindings a request resolves to at a revision of the database, and the
    longest time between the answer of the counter and its entry into the memo. *)
Context (bindings_at : nat -> resolve_request -> option B) (lag : Z).

(** Where a call of [resolve_bindings_cached] stands.  [NeedVersion None] is
    before the platform version, [NeedVersion (Some pv)] before the catalog
    version; [ReadVersion] has the counter's answer and its time. *)
Inductive phase : Type :=
| NeedVersion (prev : option Z)
| ReadVersion (prev : option Z) (v tr : Z)
| Lookup (pv cv : Z)
| Resolve (pv cv : Z)
| Store (pv cv : Z) (r : option B)
| Done (r : option B).

Record call : Type := mkCall {
  c_pod : string; c_req : resolve_request; c_start : Z; c_failed : bool; c_phase : phase;
}.
Definition set_phase (ph : phase) (c : call) : call :=
  mkCall (c_pod c) (c_req c) (c_start c) (c_failed c) ph.
Definition set_failed (c : call) : call :=
  mkCall (c_pod c) (c_req c) (c_start c) true (c_phase c).

(** The schema a version is read for, and what follows. *)
Definition target (q : resolve_request) (prev : option Z) : string :=
  match prev with None => "iam" | Some _ => rq_schema q end.
Definition advance (q : resolve_request) (prev : option Z) (v : Z) : phase :=
  match prev with
  | None => if catalog_schema q ==s "iam" then Lookup v v else NeedVersion (Some v)
  | Some pv => Lookup pv v
  end.

Record world : Type := mkWorld {
  w_now : Z;
  w_rev : nat;
  w_ctr : counters;
  w_memo : gmap string version_memo;
  w_store : list (string * option B);
  w_calls : gmap nat call;
  w_pend : list (nat * string);
  w_log : list event;
  w_lost : bool;
}.
Definition memo_of (p : string) (w : world) : version_memo := default ∅ (w_memo w !! p).
Definition set_calls (cs : gmap nat call) (w : world) : world :=
  mkWorld (w_now w) (w_rev w) (w_ctr w) (w_memo w) (w_store w) cs (w_pend w) (w_log w) (w_lost w).
Definition set_memo (p : string) (m : version_memo) (w : world) : world :=
  mkWorld (w_now w) (w_rev w) (w_ctr w) (<[p := m]> (w_memo w)) (w_store w) (w_calls w) (w_pend w) (w_log w) (w_lost w).
Definition add_entry (k : string) (r : option B) (w : world) : world :=
  mkWorld (w_now w) (w_rev w) (w_ctr w) (w_memo w) ((k, r) :: w_store w) (w_calls w) (w_pend w) (w_log w) (w_lost w).
Definition goto (i : nat) (c : call) (ph : phase) (w : world) : world :=
  set_calls (<[i := set_phase ph c]> (w_calls w)) w.

Inductive wstep : world -> world -> Prop :=
| st_tick (t : Z) (w : world) :
    w_now w <= t ->
    wstep w (mkWorld t (w_rev w) (w_ctr w) (w_memo w) (w_store w) (w_calls w) (w_pend w) (w_log w) (w_lost w))
| st_commit (x : iam_write) (w : world) :
    wstep w (mkWorld (w_now w) (S (w_rev w)) (w_ctr w) (w_memo w) (w_store w) (w_calls w)
               (w_pend w ++ map (fun s => (S (w_rev w), s)) (bumps_of x)) (w_log w) (w_lost w))
| st_bump (ok : bool) (p : string) (r : nat) (s : string) (pend : list (nat * string)) (w : world) :
    w_pend w ≡ₚ (r, s) :: pend ->
    let b := bump_binding_version true ok s (w_ctr w) (memo_of p w) in
    wstep w (mkWorld (w_now w) (w_rev w) b.1 (<[p := b.2]> (w_memo w)) (w_store w) (w_calls w) pend
               (if ok then mkEvent s (count_of (w_ctr w) s + 1) r (w_now w) :: w_log w else w_log w) (w_lost w))
(** the shared backend, which keeps nothing on disk, restarts or evicts counters;
    what processes remember or have cached stays *)
| st_lose (c' : counters) (w : world) :
    c' ⊆ w_ctr w ->
    wstep w (mkWorld (w_now w) (w_rev w) c' (w_memo w) (w_store w) (w_calls w) (w_pend w) (w_log w) true)
| st_restart (p : string) (w : world) : wstep w (set_memo p ∅ w)
| st_start (i : nat) (p : string) (q : resolve_request) (w : world) :
    w_calls w !! i = None -> colon_free (rq_provider q) = true -> colon_free (rq_schema q) = true ->
    wstep w (set_calls (<[i := mkCall p q (w_now w) false (NeedVersion None)]> (w_calls w)) w)
| st_no_backend (i : nat) (c : call) (w : world) :
    w_calls w !! i = Some c -> c_phase c = NeedVersion None ->
    wstep w (goto i c (Done (bindings_at (w_rev w) (c_req c))) w)
| st_memo (i : nat) (c : call) (prev : option Z) (v : Z) (w : world) :
    w_calls w !! i = Some c -> c_phase c = NeedVersion prev ->
    memo_get (w_now w) (target (c_req c) prev) (memo_of (c_pod c) w) = Some v ->
    wstep w (goto i c (advance (c_req c) prev v) w)
| st_read (i : nat) (c : call) (prev : option Z) (w : world) :
    w_calls w !! i = Some c -> c_phase c = NeedVersion prev ->
    memo_get (w_now w) (target (c_req c) prev) (memo_of (c_pod c) w) = None ->
    wstep w (goto i c (ReadVersion prev (count_of (w_ctr w) (target (c_req c) prev)) (w_now w)) w)
| st_memoize (i : nat) (c : call) (prev : option Z) (v tr : Z) (w : world) :
    w_calls w !! i = Some c -> c_phase c = ReadVersion prev v tr -> w_now w <= tr + lag ->
    wstep w (goto i c (advance (c_req c) prev v)
               (set_memo (c_pod c) (<[target (c_req c) prev := (v, w_now w)]> (memo_of (c_pod c) w)) w))
| st_read_fails (i : nat) (c : call) (prev : option Z) (w : world) :
    w_calls w !! i = Some c -> c_phase c = NeedVersion prev ->
    wstep w (goto i (set_failed c) (advance (c_req c) prev 0) w)
| st_hit (i : nat) (c : call) (pv cv : Z) (r : option B) (w : world) :
    w_calls w !! i = Some c -> c_phase c = Lookup pv cv -> (key_of (c_req c) pv cv, r) ∈ w_store w ->
    wstep w (goto i c (Done r) w)
| st_miss (i : nat) (c : call) (pv cv : Z) (w : world) :
    w_calls w !! i = Some c -> c_phase c = Lookup pv cv ->
    wstep w (goto i c (Resolve pv cv) w)
| st_resolve (i : nat) (c : call) (pv cv : Z) (w : world) :
    w_calls w !! i = Some c -> c_phase c = Resolve pv cv ->
    wstep w (goto i c (Store pv cv (bindings_at (w_rev w) (c_req c))) w)
| st_store (i : nat) (c : call) (pv cv : Z) (r : option B) (kept : bool) (w : world) :
    w_calls w !! i = Some c -> c_phase c = Store pv cv r ->
    wstep w (goto i c (Done r) (if kept then add_entry (key_of (c_req c) pv cv) r w else w)).

Definition start (w : world) : Prop :=
  (forall s, 0 <= count_of (w_ctr w) s) /\
  w_memo w = ∅ /\ w_store w = [] /\ w_calls w = ∅ /\ w_pend w = [] /\ w_log w = [].

(** ** Keys are injective *)

Lemma key_of_inj q q' pv cv pv' cv' :
  colon_free (rq_provider q) = true -> colon_free (rq_provider q') = true ->
  colon_free (rq_schema q) = true -> colon_free (rq_schema q') = true ->
  key_of q pv cv = key_of q' pv' cv' -> q = q' /\ pv = pv' /\ cv = cv'.
Proof.
  destruct q as [p s t], q' as [p' s' t']. unfold key_of, resolution_key; cbn [rq_provider rq_subject rq_schema].
  intros Hp Hp' Ht Ht' Heq. apply str_app_inj_l in Heq.
  apply (str_sep_inj ":") in Heq as [-> Heq]; [|done..].
  rewrite <- !str_app_cons, !str_app_assoc in Heq.
  apply str_rsep_inj in Heq as [Heq ?%(inj pretty)]; [|apply pretty_colon_free..].
  apply str_rsep_inj in Heq as [Heq ?%(inj pretty)]; [|apply pretty_colon_free..].
  apply str_rsep_inj in Heq as [-> ->]; [|done..]. by subst.
Qed.

(** ** Invariant *)

(** A version read for [s] is sound when the counter reached it, and fresh at
    [t] when it counts every increment before [t]. *)
Definition sound (w : world) (s : string) (v : Z) : Prop := v <= count_of (w_ctr w) s.
Definition fresh_at (w : world) (s : string) (v t : Z) : Prop :=
  forall e, e ∈ w_log w -> e_schema e = s -> e_time e < t -> e_count e <= v.

(** A revision covers a pair of versions: it has every write they count. *)
Definition rev_covers (w : world) (q : resolve_request) (pv cv : Z) (n : nat) : Prop :=
  forall e, e ∈ w_log w ->
    (e_schema e = "iam" /\ e_count e <= pv) \/ (e_schema e = catalog_schema q /\ e_count e <= cv) ->
    (e_rev e <= n)%nat.

(** How far back a call that starts now may see. *)
Definition horizon (c : call) : Z := c_start c - VERSION_L1_TTL - lag.

Definition version_ok (w : world) (c : call) (s : string) (v : Z) : Prop :=
  sound w s v /\ (c_failed c = false -> fresh_at w s v (horizon c)).
Definition value_ok (w : world) (q : resolve_request) (pv cv : Z) (r : option B) : Prop :=
  exists n, (n <= w_rev w)%nat /\ r = bindings_at n q /\ rev_covers w q pv cv n.
Definition prev_ok (w : world) (c : call) (prev : option Z) : Prop :=
  match prev with
  | None => True
  | Some pv => version_ok w c "iam" pv /\ catalog_schema (c_req c) = rq_schema (c_req c)
  end.

(** The answer of a finished call. *)
Definition answer_ok (w : world) (c : call) (r : option B) : Prop :=
  exists n, (n <= w_rev w)%nat /\ r = bindings_at n (c_req c) /\
    (c_failed c = false ->
     forall e, e ∈ w_log w -> e_schema e = "iam" \/ e_schema e = catalog_schema (c_req c) ->
       e_time e < horizon c -> (e_rev e <= n)%nat).

Definition phase_ok (w : world) (c : call) : Prop :=
  match c_phase c with
  | NeedVersion prev => prev_ok w c prev
  | ReadVersion prev v tr =>
      prev_ok w c prev /\ sound w (target (c_req c) prev) v /\
      fresh_at w (target (c_req c) prev) v tr /\ c_start c <= tr <= w_now w
  | Lookup pv cv | Resolve pv cv =>
      version_ok w c "iam" pv /\ version_ok w c (catalog_schema (c_req c)) cv
  | Store pv cv r =>
      version_ok w c "iam" pv /\ version_ok w c (catalog_schema (c_req c)) cv /\
      value_ok w (c_req c) pv cv r
  | Done r => answer_ok w c r
  end.

Definition call_ok (w : world) (c : call) : Prop :=
  c_start c <= w_now w /\ colon_free (rq_provider (c_req c)) = true /\
  colon_free (rq_schema (c_req c)) = true /\ phase_ok w c.
Definition memo_ok (w : world) (s : string) (m : Z * Z) : Prop :=
  sound w s m.1 /\ m.2 <= w_now w /\ fresh_at w s m.1 (m.2 - lag).
Definition entry_ok (w : world) (kr : string * option B) : Prop :=
  exists q pv cv, kr.1 = key_of q pv cv /\ colon_free (rq_provider q) = true /\
    colon_free (rq_schema q) = true /\ sound w "iam" pv /\ sound w (catalog_schema q) cv /\
    value_ok w q pv cv kr.2.
Definition event_ok (w : world) (e : event) : Prop :=
  sound w (e_schema e) (e_count e) /\ (e_rev e <= w_rev w)%nat /\ e_time e <= w_now w.

Record winv (w : world) : Prop := {
  wi_ctr : forall s, 0 <= count_of (w_ctr w) s;
  wi_log : Forall (event_ok w) (w_log w);
  wi_pend : Forall (fun rs => (rs.1 <= w_rev w)%nat) (w_pend w);
  wi_memo : forall p s m, memo_of p w !! s = Some m -> memo_ok w s m;
  wi_store : Forall (entry_ok w) (w_store w);
  wi_calls : map_Forall (fun _ => call_ok w) (w_calls w);
}.

(** ** Growth: what every step does to the facts of the invariant *)

Record grows (w w' : world) : Prop := {
  g_now : w_now w <= w_now w';
  g_rev : (w_rev w <= w_rev w')%nat;
  g_ctr : forall s, count_of (w_ctr w) s <= count_of (w_ctr w') s;
  g_log : forall e, e ∈ w_log w' ->
    e ∈ w_log w \/ (w_now w <= e_time e /\ count_of (w_ctr w) (e_schema e) < e_count e);
}.

Section grow.
Context (w w' : world) (Hg : grows w w').

Lemma sound_grow s v : sound w s v -> sound w' s v.
Proof. unfold sound. pose proof (g_ctr _ _ Hg s). lia. Qed.
Lemma fresh_grow s v t : t <= w_now w -> fresh_at w s v t -> fresh_at w' s v t.
Proof. intros Ht Hf e He Hs Hlt. destruct (g_log _ _ Hg e He) as [|[]]; [by apply Hf|lia]. Qed.
Lemma covers_grow q pv cv n :
  sound w "iam" pv -> sound w (catalog_schema q) cv -> rev_covers w q pv cv n -> rev_covers w' q pv cv n.
Proof.
  unfold sound. intros Hp Hc Hr e He Hx. destruct (g_log _ _ Hg e He) as [|[_ Hlt]]; [by apply Hr|].
  destruct Hx as [[E ?]|[E ?]]; rewrite E in Hlt; lia.
Qed.
Lemma value_grow q pv cv r :
  sound w "iam" pv -> sound w (catalog_schema q) cv -> value_ok w q pv cv r -> value_ok w' q pv cv r.
Proof.
  intros Hp Hc (n & Hn & Hr & Hcv). exists n. pose proof (g_rev _ _ Hg).
  split_and!; [lia|done|by apply covers_grow].
Qed.
Lemma memo_grow s m : 0 <= lag -> memo_ok w s m -> memo_ok w' s m.
Proof.
  intros Hl (Hs & Hm & Hf). pose proof (g_now _ _ Hg).
  split_and!; [by apply sound_grow|lia|apply fresh_grow; [lia|done]].
Qed.
Lemma entry_grow kr : entry_ok w kr -> entry_ok w' kr.
Proof.
  intros (q & pv & cv & Hk & H1 & H2 & Hp & Hc & Hv). exists q, pv, cv.
  split_and!; try done; [by apply sound_grow..|by apply value_grow].
Qed.
Lemma event_grow e : event_ok w e -> event_ok w' e.
Proof.
  intros (Hs & Hr & Ht). pose proof (g_now _ _ Hg). pose proof (g_rev _ _ Hg).
  split_and!; [by apply sound_grow|lia|lia].
Qed.

Lemma version_grow c s v : 0 <= lag -> c_start c <= w_now w -> version_ok w c s v -> version_ok w' c s v.
Proof.
  intros Hl Hn [Hs Hf]. split; [by apply sound_grow|]. intros Hc. apply fresh_grow; [|by apply Hf].
  unfold horizon, VERSION_L1_TTL. lia.
Qed.
Lemma prev_grow c prev : 0 <= lag -> c_start c <= w_now w -> prev_ok w c prev -> prev_ok w' c prev.
Proof. intros Hl Hn. destruct prev as [pv|]; [|done]. intros [Hv He]. split; [by apply version_grow|done]. Qed.
Lemma answer_grow c r : 0 <= lag -> c_start c <= w_now w -> answer_ok w c r -> answer_ok w' c r.
Proof.
  intros Hl Hn (n & Hle & Hr & He). pose proof (g_rev _ _ Hg). exists n. split_and!; [lia|done|].
  intros Hf e Hin Hs Ht. destruct (g_log _ _ Hg e Hin) as [|[? _]]; [by apply He|].
  unfold horizon, VERSION_L1_TTL in Ht. lia.
Qed.

Lemma call_grow c : 0 <= lag -> call_ok w c -> call_ok w' c.
Proof.
  intros Hl (Hn & H1 & H2 & Hph). pose proof (g_now _ _ Hg). split_and!; [lia|done|done|]. unfold phase_ok in *.
  destruct (c_phase c); destruct_and?; split_and?;
    eauto using prev_grow, sound_grow, fresh_grow, version_grow, answer_grow; try lia.
  apply value_grow; [| |done]; match goal with H : version_ok _ _ ?s ?v |- sound _ ?s ?v => apply H end.
Qed.

Lemma inv_grow :
  0 <= lag -> winv w ->
  Forall (event_ok w') (w_log w') -> Forall (fun rs => (rs.1 <= w_rev w')%nat) (w_pend w') ->
  (forall p s m, memo_of p w' !! s = Some m -> memo_of p w !! s = Some m \/ memo_ok w' s m) ->
  (forall kr, kr ∈ w_store w' -> kr ∈ w_store w \/ entry_ok w' kr) ->
  (forall i c, w_calls w' !! i = Some c -> w_calls w !! i = Some c \/ call_ok w' c) ->
  winv w'.
Proof.
  intros Hl [Hz _ _ Hm Hs Hc] He Hp Hm' Hs' Hc'. split; [|done|done| | |].
  - intros s. pose proof (g_ctr _ _ Hg s). specialize (Hz s). lia.
  - intros p s m Hlk. destruct (Hm' _ _ _ Hlk); [|done]. apply memo_grow; [done|]. by eapply Hm.
  - rewrite Forall_forall in Hs |- *. intros kr Hkr. destruct (Hs' _ Hkr); [|done]. by apply entry_grow, Hs.
  - intros i c Hi. destruct (Hc' _ _ Hi); [|done]. apply call_grow; [done|]. by eapply Hc.
Qed.
End grow.

(** ** Preservation *)

Section steps.
Context (Hlag : 0 <= lag).

Lemma grows_core w w' :
  w_now w = w_now w' -> w_rev w = w_rev w' -> w_ctr w = w_ctr w' -> w_log w = w_log w' -> grows w w'.
Proof. intros E1 E2 E3 E4. split; rewrite ?E1, ?E2, ?E3, ?E4; [done..|]. intros e He. by left. Qed.

Lemma inv_goto i c ph w :
  winv w -> call_ok w (set_phase ph c) -> winv (goto i c ph w).
Proof.
  intros Hw Hc. pose proof (grows_core w (goto i c ph w) eq_refl eq_refl eq_refl eq_refl) as Hg.
  apply (inv_grow w _ Hg); [done|done| |apply Hw|by left|by left|].
  - eapply Forall_impl; [apply Hw|]. intros e. by apply event_grow.
  - intros j c'. cbn. destruct (decide (i = j)) as [<-|Hne].
    + rewrite lookup_insert_eq. intros [= <-]. right. by apply (call_grow w _ Hg).
    + rewrite lookup_insert_ne by done. by left.
Qed.

Lemma memo_of_set p p' m w :
  memo_of p' (set_memo p m w) = if decide (p = p') then m else memo_of p' w.
Proof.
  unfold memo_of. cbn. case_decide as E; [subst; by rewrite lookup_insert_eq|by rewrite lookup_insert_ne].
Qed.

Lemma inv_set_memo p m w :
  winv w -> (forall s x, m !! s = Some x -> memo_of p w !! s = Some x \/ memo_ok w s x) ->
  winv (set_memo p m w).
Proof.
  intros Hw Hm. pose proof (grows_core w (set_memo p m w) eq_refl eq_refl eq_refl eq_refl) as Hg.
  apply (inv_grow w _ Hg); [done|done| |apply Hw| |by left|by left].
  - eapply Forall_impl; [apply Hw|]. intros e. by apply event_grow.
  - intros p' s x. rewrite memo_of_set. case_decide; [subst|by left].
    intros Hx. destruct (Hm _ _ Hx); [by left|right]. by apply (memo_grow w _ Hg).
Qed.

Lemma inv_add_entry k r w : winv w -> entry_ok w (k, r) -> winv (add_entry k r w).
Proof.
  intros Hw He. pose proof (grows_core w (add_entry k r w) eq_refl eq_refl eq_refl eq_refl) as Hg.
  apply (inv_grow w _ Hg); [done|done| |apply Hw|by left| |by left].
  - eapply Forall_impl; [apply Hw|]. intros e. by apply event_grow.
  - intros kr. cbn. intros [->|Hin]%elem_of_cons; [right|by left]. by apply (entry_grow w _ Hg).
Qed.

Lemma inv_tick t w :
  winv w -> w_now w <= t ->
  winv (mkWorld t (w_rev w) (w_ctr w) (w_memo w) (w_store w) (w_calls w) (w_pend w) (w_log w) (w_lost w)).
Proof.
  intros Hw Ht. match goal with |- winv ?w' => assert (grows w w') as Hg end.
  { split; cbn; [done|done|done|by left]. }
  apply (inv_grow w _ Hg); [done|done| |apply Hw|by left|by left|by left].
  eapply Forall_impl; [apply Hw|]. intros e. by apply event_grow.
Qed.

Lemma inv_commit x w :
  winv w ->
  winv (mkWorld (w_now w) (S (w_rev w)) (w_ctr w) (w_memo w) (w_store w) (w_calls w)
          (w_pend w ++ map (fun s => (S (w_rev w), s)) (bumps_of x)) (w_log w) (w_lost w)).
Proof.
  intros Hw. match goal with |- winv ?w' => assert (grows w w') as Hg end.
  { split; cbn; [done|lia|done|by left]. }
  apply (inv_grow w _ Hg); [done|done| | |by left|by left|by left].
  - eapply Forall_impl; [apply Hw|]. intros e. by apply event_grow.
  - cbn. apply Forall_app. split.
    + eapply Forall_impl; [apply Hw|]. intros rs. cbn. lia.
    + apply Forall_forall. intros rs (s & -> & _)%list_elem_of_fmap. cbn. lia.
Qed.

Lemma count_of_insert (c : counters) (s s' : string) (v : Z) :
  count_of (<[s := v]> c) s' = if decide (s = s') then v else count_of c s'.
Proof.
  unfold count_of. case_decide as E; [subst; by rewrite lookup_insert_eq|by rewrite lookup_insert_ne].
Qed.

Lemma inv_bump ok p r s pend w :
  winv w -> w_pend w ≡ₚ (r, s) :: pend ->
  let b := bump_binding_version true ok s (w_ctr w) (memo_of p w) in
  winv (mkWorld (w_now w) (w_rev w) b.1 (<[p := b.2]> (w_memo w)) (w_store w) (w_calls w) pend
          (if ok then mkEvent s (count_of (w_ctr w) s + 1) r (w_now w) :: w_log w else w_log w) (w_lost w)).
Proof.
  intros Hw Hp. cbn. match goal with |- winv ?w' => assert (grows w w') as Hg end.
  { split; cbn; [done|done| |].
    - intros s'. destruct ok; [|done]. rewrite count_of_insert. case_decide; [subst; lia|done].
    - intros e He. destruct ok; [|by left]. apply elem_of_cons in He as [->|He]; [right; cbn; lia|by left]. }
  assert (Forall (fun rs => (rs.1 <= w_rev w)%nat) ((r, s) :: pend)) as Hr by (rewrite <- Hp; apply Hw).
  apply Forall_cons in Hr as [Hr Hpend].
  apply (inv_grow w _ Hg); [done|done| |done| |by left|by left].
  - assert (Forall (event_ok w) (w_log w)) as Hl by apply Hw.
    eapply Forall_impl in Hl; [|intros e; by apply event_grow]. cbn. destruct ok; [|done].
    apply Forall_cons. split; [|done]. split_and!; cbn; [|done|done].
    unfold sound. cbn. rewrite count_of_insert, decide_True by done. lia.
  - intros p' s' m. unfold memo_of. cbn. destruct (decide (p = p')) as [<-|Hne].
    + rewrite lookup_insert_eq. cbn. rewrite lookup_delete_Some. intros [_ Hm]. by left.
    + rewrite lookup_insert_ne by done. by left.
Qed.

(** *** Versions *)

Lemma catalog_schema_eq q : catalog_schema q = "iam" \/ catalog_schema q = rq_schema q.
Proof. unfold catalog_schema. destruct (_ || _); [by left|by right]. Qed.

Lemma advance_ok w c prev v :
  prev_ok w c prev -> version_ok w c (target (c_req c) prev) v ->
  phase_ok w (set_phase (advance (c_req c) prev v) c).
Proof.
  intros Hp Hv. unfold advance. destruct prev as [pv|]; cbn in Hp, Hv |- *.
  - destruct Hp as [Hp He]. unfold phase_ok; cbn. rewrite He. done.
  - destruct (String.eqb_spec (catalog_schema (c_req c)) "iam") as [E|E]; unfold phase_ok; cbn.
    + rewrite E. done.
    + split; [done|]. by destruct (catalog_schema_eq (c_req c)).
Qed.

Lemma fresh_mono w s v t t' : t' <= t -> fresh_at w s v t -> fresh_at w s v t'.
Proof. intros Ht Hf e He Hs Hlt. apply Hf; [done|done|lia]. Qed.

Lemma memo_version w c s v :
  winv w -> c_start c <= w_now w -> memo_get (w_now w) s (memo_of (c_pod c) w) = Some v -> version_ok w c s v.
Proof.
  intros Hw Hn. unfold memo_get. destruct (memo_of (c_pod c) w !! s) as [[v' ts]|] eqn:E; [|done].
  destruct (Z.ltb_spec (w_now w - ts) VERSION_L1_TTL); [|done]. intros [= <-].
  destruct (wi_memo w Hw _ _ _ E) as (Hs & _ & Hf). split; [done|]. intros _.
  apply (fresh_mono w s v' (ts - lag)); [unfold horizon; lia|done].
Qed.

Lemma read_version w s : winv w -> fresh_at w s (count_of (w_ctr w) s) (w_now w).
Proof.
  intros Hw e He Hs _. pose proof (wi_log w Hw) as Hl. rewrite Forall_forall in Hl.
  destruct (Hl e He) as [Hsd _]. by rewrite <- Hs.
Qed.

(** *** Answers *)

Lemma value_answer w c pv cv r :
  version_ok w c "iam" pv -> version_ok w c (catalog_schema (c_req c)) cv ->
  value_ok w (c_req c) pv cv r -> answer_ok w c r.
Proof.
  intros [_ Hp] [_ Hc] (n & Hn & Hr & Hcv). exists n. split_and!; [done|done|].
  intros Hf e He Hs Ht. apply Hcv; [done|].
  destruct Hs as [Hs|Hs]; [left|right]; (split; [done|]); [by apply Hp|by apply Hc].
Qed.

Lemma hit_value w c pv cv r :
  winv w -> call_ok w c -> (key_of (c_req c) pv cv, r) ∈ w_store w -> value_ok w (c_req c) pv cv r.
Proof.
  intros Hw (_ & H1 & H2 & _) Hin. pose proof (wi_store w Hw) as Hst. rewrite Forall_forall in Hst.
  destruct (Hst _ Hin) as (q & pv' & cv' & Hk & Hq1 & Hq2 & _ & _ & Hv). cbn in Hk, Hv.
  apply key_of_inj in Hk as (-> & -> & ->); done.
Qed.

Lemma snapshot_value w q pv cv : winv w -> value_ok w q pv cv (bindings_at (w_rev w) q).
Proof.
  intros Hw. exists (w_rev w). split_and!; [done|done|]. intros e He _.
  pose proof (wi_log w Hw) as Hl. rewrite Forall_forall in Hl. by apply Hl.
Qed.

Lemma snapshot_answer w c : winv w -> answer_ok w c (bindings_at (w_rev w) (c_req c)).
Proof.
  intros Hw. destruct (snapshot_value w (c_req c) 0 0 Hw) as (n & Hn & Hr & _).
  exists (w_rev w). split_and!; [done|done|]. intros _ e He _ _.
  pose proof (wi_log w Hw) as Hl. rewrite Forall_forall in Hl. by apply Hl.
Qed.

(** *** The steps of a call *)

Section call_steps.
Context (i : nat) (c : call) (w : world) (Hw : winv w) (Hi : w_calls w !! i = Some c).

Lemma this_call : call_ok w c.
Proof. by eapply Hw. Qed.
Lemma this_phase ph : c_phase c = ph -> phase_ok w c -> phase_ok w (set_phase ph c).
Proof. intros <-. unfold phase_ok. by cbn. Qed.
Lemma step_phase ph : phase_ok w (set_phase ph c) -> winv (goto i c ph w).
Proof. intros Hph. apply inv_goto; [done|]. destruct this_call as (? & ? & ? & _). by split_and!. Qed.

Lemma inv_version prev v :
  c_phase c = NeedVersion prev -> version_ok w c (target (c_req c) prev) v ->
  winv (goto i c (advance (c_req c) prev v) w).
Proof.
  intros Hph Hv. apply step_phase, advance_ok; [|done].
  destruct this_call as (_ & _ & _ & H). unfold phase_ok in H. by rewrite Hph in H.
Qed.

Lemma inv_memoize prev v tr :
  c_phase c = ReadVersion prev v tr -> w_now w <= tr + lag ->
  winv (goto i c (advance (c_req c) prev v)
          (set_memo (c_pod c) (<[target (c_req c) prev := (v, w_now w)]> (memo_of (c_pod c) w)) w)).
Proof.
  intros Hph Htr. destruct this_call as (Hn & H1 & H2 & Hp). unfold phase_ok in Hp. rewrite Hph in Hp.
  destruct Hp as (Hp & Hs & Hf & Ht1 & Ht2). apply inv_goto.
  - apply inv_set_memo; [done|]. intros s x. rewrite lookup_insert_Some. intros [[<- <-]|[_ ?]]; [right|by left].
    split_and!; cbn; [done|done|]. eapply fresh_mono; [|done]. lia.
  - apply (call_grow w _ (grows_core w _ eq_refl eq_refl eq_refl eq_refl) _ Hlag). split_and!; [done..|].
    apply advance_ok; [done|]. split; [done|]. intros _. eapply fresh_mono; [|done].
    unfold horizon, VERSION_L1_TTL. lia.
Qed.

Lemma inv_read_fails prev :
  c_phase c = NeedVersion prev -> winv (goto i (set_failed c) (advance (c_req c) prev 0) w).
Proof.
  intros Hph. apply inv_goto; [done|]. destruct this_call as (Hn & H1 & H2 & Hp). unfold phase_ok in Hp.
  rewrite Hph in Hp. split_and!; [done..|]. apply (advance_ok w (set_failed c) prev 0).
  - destruct prev as [pv|]; [|done]. destruct Hp as [[Hs _] He]. split; [|done]. by split.
  - split; [|done]. apply Hw.
Qed.

Lemma inv_store pv cv r kept :
  c_phase c = Store pv cv r ->
  winv (goto i c (Done r) (if kept : bool then add_entry (key_of (c_req c) pv cv) r w else w)).
Proof.
  intros Hph. destruct this_call as (Hn & H1 & H2 & Hp). unfold phase_ok in Hp. rewrite Hph in Hp.
  destruct Hp as (Hp & Hv & Hr).
  assert (call_ok w (set_phase (Done r) c)) as Hd
    by (split_and!; [done..|exact (value_answer w c pv cv r Hp Hv Hr)]).
  destruct kept; [|by apply inv_goto].
  apply inv_goto; [|by apply (call_grow w _ (grows_core w _ eq_refl eq_refl eq_refl eq_refl) _ Hlag)].
  apply inv_add_entry; [done|]. exists (c_req c), pv, cv. split_and!; [done..|apply Hp|apply Hv|done].
Qed.

Lemma inv_lookup pv cv ph :
  c_phase c = Lookup pv cv \/ c_phase c = Resolve pv cv ->
  (version_ok w c "iam" pv -> version_ok w c (catalog_schema (c_req c)) cv -> phase_ok w (set_phase ph c)) ->
  winv (goto i c ph w).
Proof.
  intros Hph H. apply step_phase. destruct this_call as (_ & _ & _ & Hp). unfold phase_ok in Hp.
  destruct Hph as [Hph|Hph]; rewrite Hph in Hp; destruct Hp; by apply H.
Qed.
End call_steps.

Lemma wstep_lost w w' : wstep w w' -> w_lost w' = false -> w_lost w = false.
Proof. intros Hst. destruct Hst; cbn; try done. by destruct kept. Qed.

Lemma wstep_inv w w' : winv w -> wstep w w' -> w_lost w' = false -> winv w'.
Proof.
  intros Hw Hst Hno. destruct Hst as [| | |c' w Hsub| |i p q w|i c w Hi|i c prev v w Hi Hph Hm|i c prev w Hi Hph|
    i c prev v tr w Hi|i c prev w Hi|i c pv cv r w Hi Hph Hin|i c pv cv w Hi Hph|i c pv cv w Hi Hph|i c pv cv r kept w Hi].
  - by apply inv_tick.
  - by apply inv_commit.
  - by apply inv_bump.
  - done.
  - apply inv_set_memo; [done|]. intros s x Hx. by rewrite lookup_empty in Hx.
  - apply (inv_goto i (mkCall p q (w_now w) false (NeedVersion None)) (NeedVersion None)); [done|]. by split_and!.
  - apply (step_phase i c w Hw Hi). exact (snapshot_answer w c Hw).
  - apply inv_version; [done..|]. apply memo_version; [done| |done]. by apply (this_call i c w Hw Hi).
  - apply (step_phase i c w Hw Hi). destruct (this_call i c w Hw Hi) as (Hn & _ & _ & Hp).
    unfold phase_ok in Hp. rewrite Hph in Hp. unfold phase_ok; cbn.
    split_and!; [done|unfold sound; lia|by apply read_version|done|done].
  - by apply inv_memoize with tr.
  - by apply inv_read_fails.
  - apply (inv_lookup i c w Hw Hi pv cv); [by left|]. intros Hp Hc.
    refine (value_answer w c pv cv r Hp Hc _). apply hit_value; [done| |done]. by apply (this_call i c w Hw Hi).
  - apply (inv_lookup i c w Hw Hi pv cv); [by left|]. by intros.
  - apply (inv_lookup i c w Hw Hi pv cv); [by right|]. intros Hp Hc. unfold phase_ok; cbn.
    split_and!; [done|done|]. by apply snapshot_value.
  - by apply inv_store.
Qed.

Lemma start_inv w : start w -> winv w.
Proof.
  intros (Hz & Hm & Hs & Hc & Hp & Hl). split; [done|by rewrite Hl|by rewrite Hp| |by rewrite Hs|by rewrite Hc].
  intros p s m. unfold memo_of. by rewrite Hm, lookup_empty.
Qed.

Lemma history_inv w0 w : start w0 -> rtc wstep w0 w -> w_lost w = false -> winv w.
Proof.
  intros Hs Hr. apply start_inv in Hs. induction Hr as [|w1 w2 w3 Hst Hr IH]; [done|]. intros Hno.
  apply IH; [|done]. apply (wstep_inv w1); [done..|]. clear -Hr Hno. induction Hr as [|x y z Hxy _ IHr]; [done|].
  eapply wstep_lost; [exact Hxy|]. by apply IHr.
Qed.
End steps.

(** ** Properties *)

End world.

(** ** A concrete history *)

Definition demo_req : resolve_request := mkReq "kc" "u1" "cat".
Definition demo_bindings (n : nat) (q : resolve_request) : option string :=
  if (n <? 1)%nat then Some "editor" else None.
Definition demo_world : world (B := string) := mkWorld 0 0 ∅ ∅ [] ∅ [] [] false.

(** A request that finds nothing cached, from its start to its answer. *)
Ltac resolve_uncached i p :=
  (eapply rtc_l; [eapply (st_start _ _ i p demo_req); reflexivity|]);
  (eapply rtc_l; [eapply (st_read _ _ i); reflexivity|]); (eapply rtc_l; [eapply (st_memoize _ _ i); [reflexivity..|by vm_compute]|]);
  (eapply rtc_l; [eapply (st_read _ _ i); reflexivity|]); (eapply rtc_l; [eapply (st_memoize _ _ i); [reflexivity..|by vm_compute]|]);
  (eapply rtc_l; [eapply (st_miss _ _ i); reflexivity|]); (eapply rtc_l; [eapply (st_resolve _ _ i); reflexivity|]);
  (eapply rtc_l; [eapply (st_store _ _ i) with (kept := true); reflexivity|]).

Definition demo_call (start : Z) (r : option string) : call :=
  mkCall "pod1" demo_req start false (Done r).
(** After a first request, and after a write a while later. *)
Definition demo_warm : world :=
  mkWorld 0 0 ∅ {["pod1" := {["iam" := (0, 0); "cat" := (0, 0)]}]} [(key_of demo_req 0 0, Some "editor")]
    {[0%nat := demo_call 0 (Some "editor")]} [] [] false.
Definition demo_written (t : Z) (bumped : bool) : world :=
  mkWorld t 1 (if bumped then {["iam" := 1; "cat" := 1]} else ∅)
    ((if bumped then <["pod2" := ∅]> else id) {["pod1" := {["iam" := (0, 0); "cat" := (0, 0)]}]})
    [(key_of demo_req 0 0, Some "editor")]
    {[0%nat := demo_call 0 (Some "editor")]} []
    (if bumped then [mkEvent "iam" 1 1 0; mkEvent "cat" 1 1 0] else []) false.

Lemma rtc_eq {A} (R : relation A) x y : x = y -> rtc R x y.
Proof. intros ->. apply rtc_refl. Qed.

Lemma demo_warm_reached : rtc (wstep demo_bindings 100) demo_world demo_warm.
Proof. resolve_uncached 0%nat "pod1". apply rtc_eq. vm_compute. reflexivity. Qed.

Lemma demo_revoke_reached t : 0 <= t -> rtc (wstep demo_bindings 100) demo_warm (demo_written t true).
Proof.
  intros Ht. eapply rtc_l; [apply (st_commit _ _ (Revoke "cat"))|].
  eapply rtc_l; [apply (st_bump _ _ true "pod2" 1 "cat" [(1%nat, "iam")]); apply Permutation_refl|].
  eapply rtc_l; [apply (st_bump _ _ true "pod2" 1 "iam" []); apply Permutation_refl|].
  eapply rtc_l; [apply (st_tick _ _ t); exact Ht|]. apply rtc_eq. vm_compute. reflexivity.
Qed.

Lemma binding_history :
  exists w c, rtc (wstep demo_bindings 100) demo_world w /\ w_lost w = false /\
    w_calls w !! 1%nat = Some c /\ c_phase c = Done None /\ c_failed c = false /\
    c_req c = demo_req /\ c_start c = 3000 /\ mkEvent "cat" 1 1 0 ∈ w_log w.
Proof.
  eexists _, (demo_call 3000 None). split.
  { etransitivity; [exact demo_warm_reached|]. etransitivity; [by apply (demo_revoke_reached 3000)|].
    resolve_uncached 1%nat "pod1". apply rtc_refl. }
  do 2 (split; [reflexivity|]). split_and!; try reflexivity. apply list_elem_of_further, list_elem_of_here.
Qed.


(** ** Limits *)

(** Deleting a principal (or an identity link) bumps nothing: a request much
    later, with no write pending and every version read, is answered from the
    entry cached before. *)
Lemma deleted_principal_resolves :
  bumps_of DeletePrincipal = [] /\ bumps_of DeleteIdentityLink = [] /\
  exists w c, rtc (wstep demo_bindings 100) demo_world w /\
    w_calls w !! 1%nat = Some c /\ c_start c = 100000 /\ c_failed c = false /\ w_pend w = [] /\
    c_phase c = Done (Some "editor") /\ demo_bindings (w_rev w) (c_req c) = None.
Proof.
  split; [done|]. split; [done|]. eexists _, (demo_call 100000 (Some "editor")). split.
  { etransitivity; [exact demo_warm_reached|].
    eapply rtc_l; [apply (st_commit _ _ DeletePrincipal)|].
    eapply rtc_l; [apply (st_tick _ _ 100000); by vm_compute|].
    etransitivity; [apply (rtc_eq _ _ (demo_written 100000 false)); vm_compute; reflexivity|].
    eapply rtc_l; [eapply (st_start _ _ 1 "pod1" demo_req); reflexivity|].
    eapply rtc_l; [eapply (st_read _ _ 1); reflexivity|].
    eapply rtc_l; [eapply (st_memoize _ _ 1); [reflexivity..|by vm_compute]|].
    eapply rtc_l; [eapply (st_read _ _ 1); reflexivity|].
    eapply rtc_l; [eapply (st_memoize _ _ 1); [reflexivity..|by vm_compute]|].
    eapply rtc_l; [eapply (st_hit _ _ 1) with (r := Some "editor"); [reflexivity..|apply list_elem_of_here]|].
    apply rtc_refl. }
  split; [reflexivity|]. split_and!; reflexivity.
Qed.

(** A request that cannot read the counters looks under version 0, where the
    entries of the first version are: it may get a revoked binding, as long as
    the cache keeps the entry. *)
Lemma unreadable_version_serves_old :
  exists w c, rtc (wstep demo_bindings 100) demo_world w /\
    w_calls w !! 1%nat = Some c /\ c_start c = 100000 /\ c_failed c = true /\
    c_phase c = Done (Some "editor") /\ demo_bindings (w_rev w) (c_req c) = None.
Proof.
  eexists _, (set_failed (demo_call 100000 (Some "editor"))). split.
  { etransitivity; [exact demo_warm_reached|]. etransitivity; [by apply (demo_revoke_reached 100000)|].
    eapply rtc_l; [eapply (st_start _ _ 1 "pod1" demo_req); reflexivity|].
    eapply rtc_l; [eapply (st_read_fails _ _ 1); reflexivity|].
    eapply rtc_l; [eapply (st_read_fails _ _ 1); reflexivity|].
    eapply rtc_l; [eapply (st_hit _ _ 1) with (r := Some "editor"); [reflexivity..|apply list_elem_of_here]|].
    apply rtc_refl. }
  split; [reflexivity|]. split_and!; reflexivity.
Qed.

(** After a restart of the shared backend the counters start again at version 0, where
    a process may still have an entry of that version: a request that reads every
    version gets a revoked binding. *)
Lemma lost_counters_serve_old :
  exists w c, rtc (wstep demo_bindings 100) demo_world w /\
    w_calls w !! 1%nat = Some c /\ c_start c = 100000 /\ c_failed c = false /\ w_lost w = true /\
    c_phase c = Done (Some "editor") /\ demo_bindings (w_rev w) (c_req c) = None.
Proof.
  eexists _, (demo_call 100000 (Some "editor")). split.
  { etransitivity; [exact demo_warm_reached|]. etransitivity; [by apply (demo_revoke_reached 100000)|].
    eapply rtc_l; [apply (st_lose _ _ ∅), map_empty_subseteq|].
    eapply rtc_l; [eapply (st_start _ _ 1 "pod1" demo_req); reflexivity|].
    eapply rtc_l; [eapply (st_read _ _ 1); reflexivity|].
    eapply rtc_l; [eapply (st_memoize _ _ 1); [reflexivity..|by vm_compute]|].
    eapply rtc_l; [eapply (st_read _ _ 1); reflexivity|].
    eapply rtc_l; [eapply (st_memoize _ _ 1); [reflexivity..|by vm_compute]|].
    eapply rtc_l; [eapply (st_hit _ _ 1) with (r := Some "editor"); [reflexivity..|apply list_elem_of_here]|].
    apply rtc_refl. }
  split; [reflexivity|]. split_and!; reflexivity.
Qed.
