(* ===== verification/RuleCache.v ===== *)
(** * The compiled-rule cache

    [iam/compiled_rule_cache.py], its use by [get_effective_policies] of
    [iam/policies.py], and the order in which the policy writes of the service
    commit, bump the version and clear the cache of their process.  Times are
    milliseconds. *)

From S2P Require Import Prelude.

Section cache.
Context {V : Type}.

(** ** [CompiledRuleCache] *)

Abbreviation rule_key := (string * string)%type.

Record rule_entry : Type := mkRule { re_value : V; re_fetched : Z; re_version : Z }.
Record rule_cache : Type := mkRuleCache {
  rc_maxsize : Z;
  rc_store : list (rule_key * rule_entry);
  rc_hits : Z;
  rc_misses : Z;
}.

Definition rc_new (maxsize : Z) : rule_cache := mkRuleCache (Z.max 1 maxsize) [] 0 0.
Definition rc_configure (maxsize : Z) (c : rule_cache) : rule_cache :=
  mkRuleCache (Z.max 1 maxsize) (rc_store c) (rc_hits c) (rc_misses c).
Definition rc_clear (c : rule_cache) : rule_cache := mkRuleCache (rc_maxsize c) [] (rc_hits c) (rc_misses c).

Fixpoint rc_get (k : rule_key) (l : list (rule_key * rule_entry)) : option rule_entry :=
  match l with
  | [] => None
  | (k', e) :: l => if decide (k' = k) then Some e else rc_get k l
  end.
(** Assignment keeps the place of an existing key. *)
Fixpoint rc_set (k : rule_key) (e : rule_entry) (l : list (rule_key * rule_entry))
    : list (rule_key * rule_entry) :=
  match l with
  | [] => [(k, e)]
  | (k', e') :: l => if decide (k' = k) then (k', e) :: l else (k', e') :: rc_set k e l
  end.

(** The entry a lookup may use. *)
Definition rc_hit (now ttl version : Z) (k : rule_key) (c : rule_cache) : option V :=
  match rc_get k (rc_store c) with
  | Some e => if (re_version e =? version) && (now - re_fetched e <? ttl) then Some (re_value e) else None
  | None => None
  end.

Definition rc_insert (now version : Z) (k : rule_key) (v : V) (c : rule_cache) : rule_cache :=
  let store := rc_set k (mkRule v now version) (rc_store c) in
  let store :=
    if rc_maxsize c <? Z.of_nat (length store) then
      match store with
      | (k0, _) :: rest => if decide (k0 = k) then store else rest
      | [] => store
      end
    else store in
  mkRuleCache (rc_maxsize c) store (rc_hits c) (rc_misses c).

(** [compute] ran between the two clock readings and returned [v]. *)
Definition get_or_compute (now1 now2 ttl version : Z) (k : rule_key) (v : V) (c : rule_cache)
    : V * Z * rule_cache :=
  match rc_hit now1 ttl version k c with
  | Some x => (x, version, mkRuleCache (rc_maxsize c) (rc_store c) (rc_hits c + 1) (rc_misses c))
  | None =>
      (v, version, rc_insert now2 version k v
         (mkRuleCache (rc_maxsize c) (rc_store c) (rc_hits c) (rc_misses c + 1)))
  end.

(** ** Bound and lookup *)

Lemma rc_set_length k e l :
  length (rc_set k e l) = match rc_get k l with Some _ => length l | None => S (length l) end.
Proof.
  induction l as [|[k' e'] l IH]; [done|]. cbn. case_decide; [done|]. cbn. rewrite IH. by destruct (rc_get k l).
Qed.

Lemma rc_set_head k e l :
  rc_get k l = None -> l <> [] -> exists x rest, rc_set k e l = x :: rest /\ x.1 <> k.
Proof.
  destruct l as [|[k' e'] l]; [done|]. cbn. case_decide; [done|]. intros _ _. by eexists _, _.
Qed.

(** The store stays within its size while the size is not lowered. *)
Lemma rc_insert_bounded now version k v c :
  1 <= rc_maxsize c -> Z.of_nat (length (rc_store c)) <= rc_maxsize c ->
  let c' := rc_insert now version k v c in
  Z.of_nat (length (rc_store c')) <= rc_maxsize c' /\ rc_maxsize c' = rc_maxsize c.
Proof.
  intros H1 Hl. split; [|done]. unfold rc_insert; cbn [rc_store rc_maxsize].
  destruct (Z.ltb_spec (rc_maxsize c) (Z.of_nat (length (rc_set k (mkRule v now version) (rc_store c))))) as [Hlt|];
    [|lia].
  rewrite rc_set_length in Hlt. destruct (rc_get k (rc_store c)) eqn:E; [lia|].
  destruct (rc_set_head k (mkRule v now version) (rc_store c) E) as ([k0 e0] & rest & Hs & Hne).
  { intros Hn. rewrite Hn in Hlt. cbn in Hlt. lia. }
  pose proof (rc_set_length k (mkRule v now version) (rc_store c)) as Hlen. rewrite E in Hlen.
  rewrite Hs in Hlen |- *. cbn in Hlen. rewrite decide_False by done. lia.
Qed.

(** ** The writes of the policy service

    One key, the caches of any number of processes, and the shared version.
    [update_policy] and [delete_policy] commit before they bump;
    [create_policy] passes its open transaction to the storage, which bumps
    before the caller commits. *)

Record pworld : Type := mkPw {
  pw_policies : V;
  pw_version : Z;
  pw_pending : bool;
  pw_caches : gmap string rule_cache;
}.

Inductive pstep (k : rule_key) (ttl : Z) : pworld -> pworld -> Prop :=
| ps_commit (v : V) (w : pworld) :
    pstep k ttl w (mkPw v (pw_version w) true (pw_caches w))
| ps_bump (w : pworld) :
    pstep k ttl w (mkPw (pw_policies w) (pw_version w + 1) false (pw_caches w))
| ps_clear (p : string) (c : rule_cache) (w : pworld) :
    pw_caches w !! p = Some c ->
    pstep k ttl w (mkPw (pw_policies w) (pw_version w) (pw_pending w) (<[p := rc_clear c]> (pw_caches w)))
| ps_read (p : string) (c : rule_cache) (now1 now2 : Z) (w : pworld) :
    pw_caches w !! p = Some c ->
    pstep k ttl w (mkPw (pw_policies w) (pw_version w) (pw_pending w)
      (<[p := (get_or_compute now1 now2 ttl (pw_version w) k (pw_policies w) c).2]> (pw_caches w))).

(** Entries of the current version hold the current policies. *)
Definition entries_ok (k : rule_key) (w : pworld) (c : rule_cache) : Prop :=
  forall e, rc_get k (rc_store c) = Some e ->
    re_version e <= pw_version w /\
    (pw_pending w = false -> re_version e = pw_version w -> re_value e = pw_policies w).
Definition pinv (k : rule_key) (w : pworld) : Prop := map_Forall (fun _ => entries_ok k w) (pw_caches w).

Lemma rc_get_set_eq k e l : rc_get k (rc_set k e l) = Some e.
Proof. induction l as [|[k' e'] l IH]; cbn; [by rewrite decide_True|]. case_decide; cbn; by case_decide. Qed.

Lemma rc_insert_get now version k v c e :
  rc_get k (rc_store (rc_insert now version k v c)) = Some e -> e = mkRule v now version.
Proof.
  unfold rc_insert; cbn [rc_store]. pose proof (rc_get_set_eq k (mkRule v now version) (rc_store c)) as Hg.
  destruct (_ <? _); [|rewrite Hg; by intros [= <-]].
  destruct (rc_set _ _ _) as [|[k0 e0] rest]; [done|]. cbn in Hg. case_decide; [subst; cbn|].
  - rewrite decide_True by done. intros [= <-]. by injection Hg.
  - rewrite Hg. by intros [= <-].
Qed.

Lemma pstep_inv k ttl w w' : pinv k w -> pstep k ttl w w' -> pinv k w'.
Proof.
  intros Hi Hst. destruct Hst as [v w|w|p c w Hp|p c now1 now2 w Hp].
  - intros p c Hp e He. cbn in *. split; [|done]. by apply (Hi p c Hp e He).
  - intros p c Hp e He. cbn in *. destruct (Hi p c Hp e He) as [Hle _]. split; [lia|]. intros _ E. lia.
  - intros p' c'. cbn. rewrite lookup_insert_Some. intros [[<- <-]|[_ Hp']]; [done|by apply (Hi p')].
  - intros p' c'. cbn. rewrite lookup_insert_Some. intros [[<- <-]|[_ Hp']]; [|by apply (Hi p')].
    unfold get_or_compute. destruct (rc_hit now1 ttl (pw_version w) k c); cbn [snd].
    + intros e He. by apply (Hi p c Hp).
    + intros e ->%rc_insert_get. by split.
Qed.

(** Updates and deletions are seen at once: whenever no write lies between its
    commit and its bump, every process that reads with the current version gets
    the committed policies, from its cache or from the storage. *)
Lemma committed_policies_served k ttl w0 w p c now1 now2 :
  (forall p c, pw_caches w0 !! p = Some c -> rc_store c = []) ->
  rtc (pstep k ttl) w0 w -> pw_pending w = false -> pw_caches w !! p = Some c ->
  (get_or_compute now1 now2 ttl (pw_version w) k (pw_policies w) c).1.1 = pw_policies w.
Proof.
  intros H0 Hr Hpend Hp.
  assert (pinv k w) as Hi.
  { assert (pinv k w0) as Hi0 by (intros q d Hq e He; by rewrite (H0 _ _ Hq) in He).
    clear Hp Hpend H0. induction Hr as [|y z u Hyz _ IH]; [done|]. apply IH. by eapply pstep_inv. }
  unfold get_or_compute, rc_hit. destruct (rc_get k (rc_store c)) as [e|] eqn:E; [|done].
  destruct (Z.eqb_spec (re_version e) (pw_version w)) as [Hv|]; [|done]. cbn [andb].
  destruct (_ <? _); [|done]. cbn. destruct (Hi p c Hp e E) as [_ He]. by apply He.
Qed.
End cache.
Arguments rule_cache : clear implicits.
Arguments pworld : clear implicits.

(** ** The snapshot of the configuration *)

(** [_set_ttl_seconds] and [refresh_config_snapshot]: [None] when the
    configuration cannot be read. *)
Definition set_ttl_ms (value : Z) : Z := Z.max 100 value.
Definition refresh_config_snapshot {V} (cfg : option (Z * Z)) (s : Z * rule_cache V) : Z * rule_cache V :=
  match cfg with
  | Some (ttl, maxsize) => (set_ttl_ms ttl, rc_configure maxsize s.2)
  | None => s
  end.

(** ** Limits *)

(** A creation bumps before it commits: a process that reads in between caches
    the old policies under the new version, and serves them after the commit. *)
Lemma created_policy_hidden :
  let k := ("global", "iam") in
  let bumped := 1 in
  let '(_, _, c) := get_or_compute 0 0 60000 bumped k ["allow"] (rc_new 8) in
  (get_or_compute 59000 59000 60000 bumped k ["allow"; "deny"] c).1 = (["allow"], bumped).
Proof. reflexivity. Qed.

(** Lowering the size does not bring the store down to it: an insertion removes
    at most the one entry it adds. *)
Lemma shrunk_cache_stays_large :
  let fill c n := rc_insert 0 0 (n, "iam") tt c in
  let c := fold_left fill ["a"; "b"; "c"; "d"] (rc_new 4) in
  let c' := fold_left fill ["e"; "f"; "g"; "h"] (rc_configure 1 c) in
  (rc_maxsize c', length (rc_store c')) = (1, 4%nat).
Proof. reflexivity. Qed.
