(* ===== verification/LocalCache.v ===== *)
(** * In-process caches and their byte budget

    The local backends of [tools/cache.py] ([LocalAsyncCacheBackend],
    [LocalSyncCacheBackend] and the helpers they share) and the process-wide
    [_L1MemoryBudget].  Times are integers; the deep size of a value is the
    parameter [size_of].  Statistics are left out. *)

From S2P Require Import Prelude.

Section local.
Context {V : Type} (size_of : V -> Z).

(** ** One backend *)

Record cache_entry : Type := mkEntry {
  ce_value : V;
  ce_expires : option Z;
  ce_pinned : bool;
  ce_size : Z;
  ce_hits : Z;
}.

(** [b_store] is the [OrderedDict], least recently used first; [b_sync] is
    [_evict_thread_safe]. *)
Record backend : Type := mkBackend {
  b_store : list (string * cache_entry);
  b_max : Z;
  b_bytes : Z;
  b_sync : bool;
}.
Definition with_store (st : list (string * cache_entry)) (delta : Z) (b : backend) : backend :=
  mkBackend st (b_max b) (b_bytes b + delta) (b_sync b).

Definition is_expired (now : Z) (e : cache_entry) : bool :=
  match ce_expires e with Some t => t <? now | None => false end.

Definition od_del (k : string) (l : list (string * cache_entry)) : list (string * cache_entry) :=
  List.filter (fun kv => negb (kv.1 ==s k)) l.
(** [store[key] = entry; store.move_to_end(key)] *)
Definition od_put_end (k : string) (e : cache_entry) (l : list (string * cache_entry)) :=
  od_del k l ++ [(k, e)].

Definition local_drop (k : string) (b : backend) : bool * backend :=
  match dict_get k (b_store b) with
  | None => (false, b)
  | Some e => (true, with_store (od_del k (b_store b)) (- ce_size e) b)
  end.

Definition L1_EVICTION_SAMPLE : nat := 8.

(** [(hits + 1) / max(1, size_bytes)], compared as rationals. *)
Definition score_lt (a b : cache_entry) : bool :=
  (ce_hits a + 1) * Z.max 1 (ce_size b) <? (ce_hits b + 1) * Z.max 1 (ce_size a).
Definition lower (best : option (string * cache_entry)) (kv : string * cache_entry) : option (string * cache_entry) :=
  match best with
  | None => Some kv
  | Some m => if score_lt kv.2 m.2 then Some kv else best
  end.
Definition lowest (sample : list (string * cache_entry)) : option (string * cache_entry) :=
  fold_left lower sample None.

Definition evictable (b : backend) : list (string * cache_entry) :=
  List.filter (fun kv => negb (ce_pinned kv.2)) (b_store b).

(** Freed bytes, and the backend. *)
Definition local_evict_one_for_budget (b : backend) : Z * backend :=
  match lowest (take L1_EVICTION_SAMPLE (evictable b)) with
  | None => (0, b)
  | Some (k, e) => (ce_size e, with_store (od_del k (b_store b)) (- ce_size e) b)
  end.

(** The entry-count eviction removes the oldest entry that is not pinned, or the
    oldest one; [None] is the [StopIteration] of an empty store. *)
Fixpoint local_evict_if_needed (fuel : nat) (b : backend) : option backend :=
  if Z.of_nat (length (b_store b)) <? b_max b then Some b
  else
    match fuel with
    | O => None
    | S fuel =>
        match evictable b, b_store b with
        | (k, e) :: _, _ | [], (k, e) :: _ =>
            local_evict_if_needed fuel (with_store (od_del k (b_store b)) (- ce_size e) b)
        | [], [] => None
        end
    end.

(** [budget] is [None] when byte eviction is off; a quarter of it is the
    admission limit. *)
Definition local_set (now : Z) (budget : option Z) (k : string) (v : V) (ttl : option Z) (cond : option bool)
    (b : backend) : option (bool * backend) :=
  let old := dict_get k (b_store b) in
  let has_key := match old with Some _ => true | None => false end in
  if match cond with Some x => negb (Bool.eqb x has_key) | None => false end then Some (false, b)
  else
    let size := match budget with Some _ => size_of v | None => 0 end in
    if match cond, budget with None, Some bud => bud <? 4 * size | _, _ => false end
    then Some (true, (local_drop k b).2)
    else
      let expires := option_map (fun t => now + t) ttl in
      match old with
      | Some o =>
          Some (true, with_store (od_put_end k (mkEntry v expires false size (ce_hits o)) (b_store b))
                                 (size - ce_size o) b)
      | None =>
          b' ← local_evict_if_needed (length (b_store b)) b;
          Some (true, with_store (b_store b' ++ [(k, mkEntry v expires false size 0)]) size b')
      end.

Definition local_get (now : Z) (k : string) (b : backend) : option V * backend :=
  match dict_get k (b_store b) with
  | None => (None, b)
  | Some e =>
      if is_expired now e then (None, (local_drop k b).2)
      else (Some (ce_value e),
            with_store (od_put_end k (mkEntry (ce_value e) (ce_expires e) (ce_pinned e) (ce_size e) (ce_hits e + 1))
                                   (b_store b)) 0 b)
  end.

Definition local_exists (now : Z) (k : string) (b : backend) : bool * backend :=
  match dict_get k (b_store b) with
  | None => (false, b)
  | Some e => if is_expired now e then (false, (local_drop k b).2) else (true, b)
  end.

(** [clear(key=)], [clear(namespace=)] and [clear()]; clearing by tags does nothing. *)
Inductive clear_arg : Type := ClearKey (k : string) | ClearNamespace (ns : string) | ClearTags | ClearAll.

Definition local_clear (a : clear_arg) (b : backend) : bool * backend :=
  match a with
  | ClearKey k => local_drop k b
  | ClearNamespace ns =>
      let to_delete := List.filter (fun k => String.prefix (ns +:+ ":") k) (map fst (b_store b)) in
      (negb (length to_delete =? 0)%nat, fold_left (fun b k => (local_drop k b).2) to_delete b)
  | ClearTags => (false, b)
  | ClearAll => (negb (length (b_store b) =? 0)%nat, with_store [] (- b_bytes b) b)
  end.

(** ** The budget of the process *)

Record l1_state : Type := mkL1 { l1_backends : list backend; l1_approx : Z }.

Definition sum_bytes (bs : list backend) : Z := foldr (fun b acc => b_bytes b + acc) 0 bs.

(** [max(candidates, key=bytes)]: the first with the most bytes. *)
Definition bytes_at (bs : list backend) (j : nat) : Z :=
  match bs !! j with Some b => b_bytes b | None => 0 end.
Definition heavier (bs : list backend) (best : option nat) (j : nat) : option nat :=
  match best with
  | None => Some j
  | Some m => if bytes_at bs m <? bytes_at bs j then Some j else best
  end.
Definition pick_victim (cands : list nat) (bs : list backend) : option nat := fold_left (heavier bs) cands None.
Definition drop_cand (j : nat) (cands : list nat) : list nat := List.filter (fun i => negb (i =? j)%nat) cands.

Fixpoint enforce_loop (fuel : nat) (budget total : Z) (cands : list nat) (bs : list backend)
    : Z * list backend :=
  match fuel with
  | O => (total, bs)
  | S fuel =>
      if total <=? budget then (total, bs)
      else
        match pick_victim cands bs with
        | None => (total, bs)
        | Some j =>
            match bs !! j with
            | None => (total, bs)
            | Some b =>
                let (freed, b') := local_evict_one_for_budget b in
                let bs' := <[j := b']> bs in
                if freed <=? 0 then enforce_loop fuel budget total (drop_cand j cands) bs'
                else enforce_loop fuel budget (total - freed)
                       (if b_bytes b' <=? 0 then drop_cand j cands else cands) bs'
            end
        end
  end.

(** A sync caller evicts from thread-safe backends only. *)
Definition may_evict (sync_caller : bool) (b : backend) : bool := negb sync_caller || b_sync b.
Definition budget_victim (sync_caller : bool) (b : backend) : bool := (0 <? b_bytes b) && may_evict sync_caller b.
Definition entries_in (bs : list backend) : nat := foldr (fun b acc => (length (b_store b) + acc)%nat) 0%nat bs.

Definition enforce (budget : option Z) (sync_caller : bool) (s : l1_state) : l1_state :=
  match budget with
  | None => s
  | Some bud =>
      if l1_approx s <=? bud then s
      else
        let bs := l1_backends s in
        let cands := List.filter (fun j => match bs !! j with Some b => budget_victim sync_caller b | None => false end)
                                 (seq 0 (length bs)) in
        let (total, bs') := enforce_loop (entries_in bs + length cands) bud (sum_bytes bs) cands bs in
        mkL1 bs' total
  end.

(** [_charge]: the running total follows the bytes of the backend. *)
Definition put_backend (j : nat) (b b' : backend) (s : l1_state) : l1_state :=
  mkL1 (<[j := b']> (l1_backends s)) (l1_approx s + (b_bytes b' - b_bytes b)).

(** ** The operations of a process *)

Inductive l1_op : Type :=
| OpGet (j : nat) (now : Z) (k : string)
| OpSet (j : nat) (now : Z) (k : string) (v : V) (ttl : option Z) (cond : option bool)
| OpExists (j : nat) (now : Z) (k : string)
| OpClear (j : nat) (a : clear_arg).

(** The [set] of a backend: the write, then the enforcement.  [None]: the store
    raised. *)
Definition backend_set (budget : option Z) (j : nat) (b : backend) (now : Z) (k : string) (v : V) (ttl : option Z)
    (cond : option bool) (s : l1_state) : option (bool * l1_state) :=
  '(ok, b') ← local_set now budget k v ttl cond b;
  let s' := put_backend j b b' s in
  Some (ok : bool, if ok then enforce budget (b_sync b) s' else s').

Definition l1_exec (budget : option Z) (o : l1_op) (s : l1_state) : option l1_state :=
  let on j (f : backend -> option l1_state) := match l1_backends s !! j with Some b => f b | None => Some s end in
  match o with
  | OpGet j now k => on j (fun b => Some (put_backend j b (local_get now k b).2 s))
  | OpExists j now k => on j (fun b => Some (put_backend j b (local_exists now k b).2 s))
  | OpClear j a => on j (fun b => Some (put_backend j b (local_clear a b).2 s))
  | OpSet j now k v ttl cond =>
      on j (fun b => option_map snd (backend_set budget j b now k v ttl cond s))
  end.

Definition l1_run (budget : option Z) (ops : list l1_op) (s : l1_state) : option l1_state :=
  fold_left (fun os o => s ← os; l1_exec budget o s) ops (Some s).
(** ** Invariant of a backend *)

Definition sizes (l : list (string * cache_entry)) : Z := foldr (fun kv acc => ce_size kv.2 + acc) 0 l.
Definition entry_ok (kv : string * cache_entry) : Prop := 0 < ce_size kv.2 /\ ce_pinned kv.2 = false.

(** The byte count is the sum of the entry sizes, the store is within its entry
    cap, and every entry is charged and evictable. *)
Record backend_ok (b : backend) : Prop := {
  ok_nodup : NoDup (map fst (b_store b));
  ok_entries : Forall entry_ok (b_store b);
  ok_bytes : b_bytes b = sizes (b_store b);
  ok_max : 1 <= b_max b;
  ok_len : Z.of_nat (length (b_store b)) <= b_max b;
}.

Lemma od_del_absent k l : dict_get k l = None -> od_del k l = l.
Proof.
  induction l as [|[k' e] l IH]; simpl; [done|]. rewrite (String.eqb_sym k').
  destruct (k ==s k'); simpl; [done|]. intros ?. by rewrite IH.
Qed.

Lemma od_del_keys k k' l : k' ∈ map fst (od_del k l) <-> k' ∈ map fst l /\ k' <> k.
Proof.
  induction l as [|[k1 e] l IH]; simpl; [set_solver|].
  destruct (k1 ==s k) eqn:E; simpl; bool_hyps; set_solver.
Qed.

Lemma od_del_nodup k l : NoDup (map fst l) -> NoDup (map fst (od_del k l)).
Proof.
  induction l as [|[k1 e] l IH]; simpl; [done|]. intros [? ?]%NoDup_cons.
  destruct (k1 ==s k); simpl; [auto|]. constructor; [rewrite od_del_keys; tauto|auto].
Qed.

Lemma od_del_forall (P : string * cache_entry -> Prop) k l : Forall P l -> Forall P (od_del k l).
Proof. unfold od_del. induction 1; simpl; [done|]. case_match; auto. Qed.

Lemma od_del_get k k' l : dict_get k' (od_del k l) = if k ==s k' then None else dict_get k' l.
Proof.
  induction l as [|[k1 e] l IH]; simpl; [by destruct (k ==s k')|].
  destruct (k1 ==s k) eqn:E; simpl; rewrite IH; clear IH; bool_hyps; subst.
  - rewrite (String.eqb_sym k'). by destruct (k ==s k').
  - destruct (k ==s k') eqn:E1, (k' ==s k1) eqn:E2; bool_hyps; congruence.
Qed.

Lemma od_del_present k e l :
  NoDup (map fst l) -> dict_get k l = Some e ->
  sizes (od_del k l) = sizes l - ce_size e /\ S (length (od_del k l)) = length l.
Proof.
  induction l as [|[k1 e1] l IH]; simpl; [done|]. intros [Hni Hnd]%NoDup_cons.
  rewrite (String.eqb_sym k1). destruct (k ==s k1) eqn:E; simpl; bool_hyps; intros Hg.
  - simplify_eq. rewrite od_del_absent; [lia|].
    destruct (dict_get k1 l) eqn:Hk; [|done]. by apply dict_get_in_keys in Hk.
  - destruct (IH Hnd Hg). lia.
Qed.

Lemma sizes_app l1 l2 : sizes (l1 ++ l2) = sizes l1 + sizes l2.
Proof. induction l1; simpl; [done|]. lia. Qed.

Lemma sizes_nonneg l : Forall entry_ok l -> 0 <= sizes l.
Proof. induction 1 as [|? ? [? ?]]; simpl; lia. Qed.

Lemma dict_get_forall (P : string * cache_entry -> Prop) k e l :
  Forall P l -> dict_get k l = Some e -> P (k, e).
Proof.
  induction 1 as [|[k1 e1] l ? ? IH]; simpl; [done|].
  destruct (k ==s k1) eqn:E; intros; bool_hyps; simplify_eq; auto.
Qed.

Lemma bytes_nonneg b : backend_ok b -> 0 <= b_bytes b.
Proof. intros []. rewrite ok_bytes0. by apply sizes_nonneg. Qed.

(** Removing one entry, the step every eviction, expiry and clear is made of. *)
Lemma delete_ok k e b :
  backend_ok b -> dict_get k (b_store b) = Some e ->
  let b' := with_store (od_del k (b_store b)) (- ce_size e) b in
  backend_ok b' /\ b_bytes b' = b_bytes b - ce_size e /\ 0 < ce_size e /\
  S (length (b_store b')) = length (b_store b).
Proof.
  intros [Hnd He Hb Hm Hl] Hg. destruct (od_del_present k e _ Hnd Hg) as [Hs Hlen].
  destruct (dict_get_forall _ _ _ _ He Hg) as [Hpos _]. simpl in *.
  split_and!; [constructor; simpl; [by apply od_del_nodup|by apply od_del_forall|lia|done|lia]|lia|done|done].
Qed.

(** Replacing the entry of a key, or adding one. *)
Lemma put_end_ok k e b (delta : Z) :
  backend_ok b -> 0 < ce_size e -> ce_pinned e = false ->
  delta = ce_size e - match dict_get k (b_store b) with Some o => ce_size o | None => 0 end ->
  (dict_get k (b_store b) = None -> Z.of_nat (length (b_store b)) < b_max b) ->
  backend_ok (with_store (od_put_end k e (b_store b)) delta b).
Proof.
  intros [Hnd He Hb Hm Hl] Hpos Hpin -> Hroom. unfold od_put_end. constructor; simpl; try done.
  - rewrite map_app. apply NoDup_app. split_and!; [by apply od_del_nodup| |simpl; apply NoDup_singleton].
    intros k' [_ Hk']%od_del_keys. simpl. set_solver.
  - apply Forall_app. split; [by apply od_del_forall|]. by repeat constructor.
  - rewrite sizes_app. simpl. destruct (dict_get k (b_store b)) as [o|] eqn:Hg.
    + destruct (od_del_present k o _ Hnd Hg). lia.
    + rewrite od_del_absent by done. lia.
  - rewrite length_app. simpl. destruct (dict_get k (b_store b)) as [o|] eqn:Hg.
    + destruct (od_del_present k o _ Hnd Hg). lia.
    + rewrite od_del_absent by done. specialize (Hroom eq_refl). lia.
Qed.

(** What an operation that adds nothing does to a backend. *)
Definition shrunk (b b' : backend) : Prop :=
  backend_ok b' /\ b_bytes b' <= b_bytes b /\ b_sync b' = b_sync b.

Lemma shrunk_refl b : backend_ok b -> shrunk b b.
Proof. intros ?. unfold shrunk. split_and!; [done|lia|done]. Qed.

Lemma shrunk_trans b1 b2 b3 : shrunk b1 b2 -> shrunk b2 b3 -> shrunk b1 b3.
Proof. unfold shrunk. intros (?&?&?) (?&?&?). split_and!; [done|lia|congruence]. Qed.

Lemma local_drop_shrunk k b : backend_ok b -> shrunk b (local_drop k b).2.
Proof.
  intros Hb. unfold local_drop. destruct (dict_get k (b_store b)) as [e|] eqn:Hg; [|by apply shrunk_refl].
  destruct (delete_ok k e b Hb Hg) as (?&?&?&?). unfold shrunk. split_and!; simpl in *; [done|lia|done].
Qed.

Lemma local_get_shrunk now k b : backend_ok b -> shrunk b (local_get now k b).2.
Proof.
  intros Hb. unfold local_get. destruct (dict_get k (b_store b)) as [e|] eqn:Hg; [|by apply shrunk_refl].
  destruct (is_expired now e); [by apply local_drop_shrunk|].
  destruct (dict_get_forall _ _ _ _ (ok_entries b Hb) Hg) as [Hp Hpin]. simpl in *.
  unfold shrunk. split_and!; simpl; [|lia|done].
  apply put_end_ok; simpl; rewrite ?Hg; [done|done|done|lia|done].
Qed.

Lemma local_exists_shrunk now k b : backend_ok b -> shrunk b (local_exists now k b).2.
Proof.
  intros Hb. unfold local_exists. destruct (dict_get k (b_store b)) as [e|]; [|by apply shrunk_refl].
  destruct (is_expired now e); [by apply local_drop_shrunk|by apply shrunk_refl].
Qed.

Lemma local_clear_shrunk a b : backend_ok b -> shrunk b (local_clear a b).2.
Proof.
  intros Hb. destruct a as [k|ns| |]; simpl; [by apply local_drop_shrunk| |by apply shrunk_refl|].
  - generalize (List.filter (fun k => String.prefix (ns +:+ ":") k) (map fst (b_store b))).
    intros ks. revert b Hb. induction ks as [|k ks IH]; intros b Hb; simpl; [by apply shrunk_refl|].
    pose proof (local_drop_shrunk k b Hb) as Hs. eapply shrunk_trans; [exact Hs|]. apply IH. apply Hs.
  - pose proof (bytes_nonneg b Hb). destruct Hb. unfold shrunk. split_and!; simpl; [|lia|done].
    constructor; simpl; [constructor|constructor|lia|done|lia].
Qed.
(** ** Evictions and writes *)

Lemma lowest_from best sample :
  match fold_left lower sample best with
  | Some m => best = Some m \/ m ∈ sample
  | None => best = None /\ sample = []
  end.
Proof.
  revert best. induction sample as [|kv sample IH]; intros best; simpl; [destruct best; auto|].
  specialize (IH (lower best kv)). destruct (fold_left lower sample (lower best kv)) as [m|].
  - destruct IH as [IH|IH]; [|set_solver]. destruct best as [m'|]; simpl in IH; [destruct (score_lt kv.2 m'.2)|];
      simplify_eq; set_solver.
  - destruct IH as [IH _]. destruct best as [m'|]; simpl in IH; [destruct (score_lt kv.2 m'.2)|]; done.
Qed.

Lemma nodup_get (l : list (string * cache_entry)) k e : NoDup (map fst l) -> (k, e) ∈ l -> dict_get k l = Some e.
Proof.
  induction l as [|[k1 e1] l IH]; simpl; [set_solver|]. intros [Hni Hnd]%NoDup_cons [?|Hin]%elem_of_cons.
  - simplify_eq. by rewrite String.eqb_refl.
  - destruct (k ==s k1) eqn:E; [|by apply IH]. bool_hyps; subst. destruct Hni.
    by apply (list_elem_of_fmap_2 fst) in Hin.
Qed.

Lemma evictable_all b : backend_ok b -> evictable b = b_store b.
Proof.
  intros Hb. unfold evictable. pose proof (ok_entries b Hb) as He. clear Hb.
  induction He as [|kv l [_ Hp] _ IH]; simpl; [done|]. by rewrite Hp, IH.
Qed.

(** A budget eviction takes one entry and frees its bytes, unless the store is
    empty. *)
Lemma evict_one_ok b :
  backend_ok b ->
  let '(freed, b') := local_evict_one_for_budget b in
  shrunk b b' /\ b_bytes b' = b_bytes b - freed /\
  (b_store b = [] /\ freed = 0 /\ b' = b \/ 0 < freed /\ S (length (b_store b')) = length (b_store b)).
Proof.
  intros Hb. unfold local_evict_one_for_budget. rewrite evictable_all by done.
  pose proof (lowest_from None (take L1_EVICTION_SAMPLE (b_store b))) as Hlow. unfold lowest.
  destruct (fold_left _ _ None) as [[k e]|].
  - destruct Hlow as [?|Hin]; [done|]. apply subseteq_take in Hin.
    pose proof (nodup_get _ _ _ (ok_nodup b Hb) Hin) as Hg.
    destruct (delete_ok k e b Hb Hg) as (?&?&?&?). unfold shrunk. simpl in *. split_and!; try done; lia.
  - destruct Hlow as [_ Hnil]. split_and!; [by apply shrunk_refl|lia|]. left. split_and!; try done.
    by destruct (b_store b).
Qed.

Lemma evict_if_needed_ok fuel b :
  backend_ok b -> (length (b_store b) <= fuel)%nat ->
  exists b', local_evict_if_needed fuel b = Some b' /\ shrunk b b' /\ b_max b' = b_max b /\
    Z.of_nat (length (b_store b')) < b_max b' /\
    (forall k, dict_get k (b_store b) = None -> dict_get k (b_store b') = None) /\
    (forall k e, dict_get k (b_store b') = Some e -> dict_get k (b_store b) = Some e).
Proof.
  revert b. induction fuel as [|fuel IH]; intros b Hb Hlen; simpl.
  all: destruct (Z.ltb_spec (Z.of_nat (length (b_store b))) (b_max b)) as [Hlt|Hge].
  1,3: exists b; split_and!; try done; by apply shrunk_refl.
  - pose proof (ok_max b Hb). lia.
  - rewrite (evictable_all b Hb).
    destruct (b_store b) as [|[k e] l] eqn:Hst; [pose proof (ok_max b Hb); simpl in *; lia|].
    assert (Hg : dict_get k (b_store b) = Some e) by (rewrite Hst; simpl; by rewrite String.eqb_refl).
    destruct (delete_ok k e b Hb Hg) as (Hb1&Hby&Hpos&Hl1). rewrite Hst in *.
    destruct (IH (with_store (od_del k ((k, e) :: l)) (- ce_size e) b) Hb1) as (b'&Hev&Hsh&Hmax&Hl&Hnone&Hsome);
      [simpl in *; lia|].
    exists b'. split_and!; [exact Hev| |by rewrite Hmax|done| |].
    + eapply shrunk_trans; [|exact Hsh]. unfold shrunk. split_and!; [done|lia|done].
    + intros k' Hk'. apply Hnone. cbn [with_store b_store]. rewrite od_del_get. by destruct (k ==s k').
    + intros k' e' Hk'. apply Hsome in Hk'. cbn [with_store b_store] in Hk'. rewrite od_del_get in Hk'.
      by destruct (k ==s k').
Qed.

(** With the byte budget on, a write keeps the invariant of its backend; a write
    rejected by its condition changes nothing. *)
Lemma local_set_ok now bud k v ttl cond b :
  (forall v, 0 < size_of v) -> backend_ok b ->
  exists ok b', local_set now (Some bud) k v ttl cond b = Some (ok, b') /\
    backend_ok b' /\ b_sync b' = b_sync b /\ (ok = false -> b' = b).
Proof.
  intros Hpos Hb. unfold local_set.
  destruct (match cond with Some x => _ | None => false end); [by exists false, b|].
  destruct (match cond with Some _ => false | None => _ end).
  { pose proof (local_drop_shrunk k b Hb) as (?&?&?). eexists true, _. by split_and!. }
  destruct (dict_get k (b_store b)) as [o|] eqn:Hg.
  - eexists true, _. split_and!; [done| |done|done]. apply put_end_ok; simpl; rewrite ?Hg; auto; done.
  - destruct (evict_if_needed_ok (length (b_store b)) b Hb) as (b'&->&(Hb'&_&Hs)&_&Hl&Hn&_); [done|].
    eexists true, _. split_and!; [done| |done|done]. specialize (Hn k Hg). simpl.
    rewrite <- (od_del_absent k (b_store b')) by done.
    change (od_del k (b_store b') ++ ?l) with (od_put_end k (mkEntry v (option_map (fun t => now + t) ttl) false (size_of v) 0) (b_store b')).
    apply put_end_ok; simpl; rewrite ?Hn; auto; lia.
Qed.
(** ** Enforcement of the budget *)

Definition wsum (w : backend -> Z) (bs : list backend) : Z := foldr (fun b acc => w b + acc) 0 bs.
(** Bytes a caller may not evict. *)
Definition outside (sync_caller : bool) (b : backend) : Z := if may_evict sync_caller b then 0 else b_bytes b.

Lemma wsum_insert w bs j b b' :
  bs !! j = Some b -> wsum w (<[j := b']> bs) = wsum w bs - w b + w b'.
Proof.
  revert j. induction bs as [|b0 bs IH]; intros [|j] Hj; simplify_eq/=; [lia|]. rewrite (IH j Hj). lia.
Qed.

Lemma entries_insert bs j b b' :
  bs !! j = Some b ->
  (entries_in (<[j := b']> bs) + length (b_store b) = entries_in bs + length (b_store b'))%nat.
Proof.
  revert j. induction bs as [|b0 bs IH]; intros [|j] Hj; simplify_eq/=; [lia|]. specialize (IH j Hj). lia.
Qed.

Lemma wsum_le w w' bs : (forall b, b ∈ bs -> w b <= w' b) -> wsum w bs <= wsum w' bs.
Proof.
  induction bs as [|b bs IH]; intros H; simpl; [lia|].
  pose proof (H b (list_elem_of_here _ _)). assert (wsum w bs <= wsum w' bs) by (apply IH; set_solver). lia.
Qed.

Lemma pick_victim_from bs best cands :
  match fold_left (heavier bs) cands best with
  | Some j => best = Some j \/ j ∈ cands
  | None => best = None /\ cands = []
  end.
Proof.
  revert best. induction cands as [|j cands IH]; intros best; simpl; [destruct best; auto|].
  specialize (IH (heavier bs best j)). destruct (fold_left (heavier bs) cands (heavier bs best j)) as [m|].
  - destruct IH as [IH|IH]; [|set_solver]. destruct best as [m'|]; simpl in IH; [case_match|]; simplify_eq; set_solver.
  - destruct IH as [IH _]. destruct best as [m'|]; simpl in IH; [case_match|]; done.
Qed.

Lemma drop_cand_length j cands : j ∈ cands -> (S (length (drop_cand j cands)) <= length cands)%nat.
Proof.
  unfold drop_cand. induction cands as [|i cands IH]; [set_solver|]. simpl.
  destruct (Nat.eqb_spec i j) as [->|]; simpl.
  - intros _. pose proof (List.filter_length_le (fun i => negb (i =? j)%nat) cands). lia.
  - intros [?|?]%elem_of_cons; [congruence|]. specialize (IH H). lia.
Qed.

Lemma elem_drop_cand i j cands : i ∈ drop_cand j cands <-> i ∈ cands /\ i <> j.
Proof.
  unfold drop_cand. rewrite !list_elem_of_In, List.filter_In, Bool.negb_true_iff, Nat.eqb_neq. done.
Qed.

(** The state of the loop: the total is exact, every candidate may be evicted from
    and every backend that holds bytes and may be evicted from is a candidate. *)
Record loop_ok (sc : bool) (total : Z) (cands : list nat) (bs : list backend) : Prop := {
  lp_ok : Forall backend_ok bs;
  lp_total : total = wsum b_bytes bs;
  lp_cands : forall j, j ∈ cands -> exists b, bs !! j = Some b /\ may_evict sc b = true;
  lp_all : forall j b, bs !! j = Some b -> may_evict sc b = true -> 0 < b_bytes b -> j ∈ cands;
}.

Lemma loop_drop_cand sc total j cands bs b :
  loop_ok sc total cands bs -> bs !! j = Some b -> b_bytes b <= 0 -> loop_ok sc total (drop_cand j cands) bs.
Proof.
  intros [Hok Ht Hc Ha] Hj Hb. constructor; [done|done| |].
  - intros i [Hi _]%elem_drop_cand. auto.
  - intros i b' Hi Hm Hpos. apply elem_drop_cand. split; [eauto|]. intros ->. simplify_eq. lia.
Qed.

Lemma loop_evict sc total j cands bs b b' freed :
  loop_ok sc total cands bs -> bs !! j = Some b -> j ∈ cands ->
  shrunk b b' -> b_bytes b' = b_bytes b - freed ->
  loop_ok sc (total - freed) cands (<[j := b']> bs).
Proof.
  intros [Hok Ht Hc Ha] Hj Hin (Hb'&_&Hs) Hby.
  assert (Hm : forall sc, may_evict sc b' = may_evict sc b) by (intros; unfold may_evict; by rewrite Hs).
  constructor.
  - by apply Forall_insert.
  - rewrite (wsum_insert _ _ _ _ _ Hj). lia.
  - intros i Hi. destruct (Hc i Hi) as (bi&Hbi&Hmi). destruct (decide (i = j)) as [->|].
    + exists b'. simplify_eq. rewrite Hm, list_lookup_insert_eq; [done|by eapply lookup_lt_Some].
    + exists bi. by rewrite list_lookup_insert_ne.
  - intros i bi Hi Hmi Hpos. destruct (decide (i = j)) as [->|]; [done|].
    rewrite list_lookup_insert_ne in Hi by done. eauto.
Qed.

(** What the loop leaves: the exact total, the bytes it may not evict untouched, and
    the budget met unless nothing is left to evict. *)
Definition loop_done (sc : bool) (bud : Z) (bs : list backend) (res : Z * list backend) : Prop :=
  Forall backend_ok res.2 /\ res.1 = wsum b_bytes res.2 /\
  wsum (outside sc) res.2 = wsum (outside sc) bs /\ length res.2 = length bs /\
  (res.1 <= bud \/ forall j b, res.2 !! j = Some b -> may_evict sc b = true -> b_bytes b <= 0).

Lemma loop_no_cands sc bud total bs : loop_ok sc total [] bs -> loop_done sc bud bs (total, bs).
Proof.
  intros [Hok Ht Hc Ha]. unfold loop_done. simpl. split_and!; try done. right. intros j b Hj Hm.
  destruct (Z.le_gt_cases (b_bytes b) 0) as [|Hp]; [done|]. specialize (Ha j b Hj Hm Hp). set_solver.
Qed.

(** Enough steps, one per entry and one per candidate, end the loop within the
    budget, or with nothing left the caller may evict. *)
Lemma enforce_loop_ok sc fuel bud total cands bs :
  loop_ok sc total cands bs -> (entries_in bs + length cands <= fuel)%nat ->
  loop_done sc bud bs (enforce_loop fuel bud total cands bs).
Proof.
  revert total cands bs. induction fuel as [|fuel IH]; intros total cands bs Hlp Hfuel; simpl.
  { destruct cands; [by apply loop_no_cands|simpl in *; lia]. }
  destruct (Z.leb_spec total bud) as [Hle|Hgt].
  { destruct Hlp. unfold loop_done. split_and!; try done. by left. }
  pose proof (pick_victim_from bs None cands) as Hp. unfold pick_victim.
  destruct (fold_left (heavier bs) cands None) as [j|]; [|destruct Hp as [_ ->]; by apply loop_no_cands].
  destruct Hp as [?|Hin]; [done|]. destruct (lp_cands _ _ _ _ Hlp j Hin) as (b&Hj&Hm). rewrite Hj.
  assert (Hb : backend_ok b) by (eapply Forall_lookup_1; [apply Hlp|done]).
  pose proof (evict_one_ok b Hb) as He. destruct (local_evict_one_for_budget b) as [freed b'] eqn:Hev.
  destruct He as (Hsh&Hby&Hcase).
  pose proof (loop_evict _ _ _ _ _ _ _ _ Hlp Hj Hin Hsh Hby) as Hlp'.
  pose proof (entries_insert bs j b b' Hj) as Hent. pose proof (drop_cand_length j cands Hin) as Hdl.
  assert (Hj' : <[j := b']> bs !! j = Some b') by (apply list_lookup_insert_eq; by eapply lookup_lt_Some).
  assert (Hnext : forall t c, loop_ok sc t c (<[j := b']> bs) -> (entries_in (<[j := b']> bs) + length c <= fuel)%nat ->
    loop_done sc bud bs (enforce_loop fuel bud t c (<[j := b']> bs))).
  { intros t c Hl Hf. specialize (IH t c _ Hl Hf). unfold loop_done in *.
    rewrite length_insert, (wsum_insert _ _ _ _ _ Hj) in IH. unfold outside at 3 4 in IH.
    replace (may_evict sc b') with true in IH by (destruct Hsh as (_&_&Hs); unfold may_evict in *; by rewrite Hs).
    rewrite Hm in IH. by replace (wsum (outside sc) bs) with (wsum (outside sc) bs - 0 + 0) by lia. }
  destruct Hcase as [(Hst&->&->)|(Hpos&Hlen)].
  - simpl. apply Hnext; [|lia]. rewrite Z.sub_0_r in Hlp'. eapply loop_drop_cand; [done|done|].
    by rewrite (ok_bytes b Hb), Hst.
  - destruct (Z.leb_spec freed 0); [lia|].
    destruct (Z.leb_spec (b_bytes b') 0); apply Hnext; [by eapply loop_drop_cand|lia|done|lia].
Qed.
(** ** A process within its budget *)

Definition state_ok (bud : Z) (s : l1_state) : Prop :=
  Forall backend_ok (l1_backends s) /\ l1_approx s = wsum b_bytes (l1_backends s) /\ l1_approx s <= bud.

Lemma outside_le sc bs : Forall backend_ok bs -> wsum (outside sc) bs <= wsum b_bytes bs.
Proof.
  intros Hok. apply wsum_le. intros b Hb. rewrite Forall_forall in Hok. specialize (bytes_nonneg b (Hok b Hb)).
  unfold outside. case_match; lia.
Qed.

Lemma enforce_ok sc bud s :
  Forall backend_ok (l1_backends s) -> l1_approx s = wsum b_bytes (l1_backends s) ->
  wsum (outside sc) (l1_backends s) <= bud -> state_ok bud (enforce (Some bud) sc s).
Proof.
  intros Hok Ha Hout. unfold enforce. destruct (Z.leb_spec (l1_approx s) bud) as [|_]; [by split_and!|].
  set (bs := l1_backends s) in *.
  set (cands := List.filter _ _).
  assert (Hin : forall j, j ∈ cands <-> exists b, bs !! j = Some b /\ budget_victim sc b = true).
  { intros j. unfold cands. rewrite list_elem_of_In, List.filter_In, List.in_seq. split.
    - intros [_ H]. destruct (bs !! j) as [b|]; [eauto|done].
    - intros (b&Hj&Hv). apply lookup_lt_Some in Hj as ?. rewrite Hj. split; [lia|done]. }
  assert (Hlp : loop_ok sc (sum_bytes bs) cands bs).
  { constructor; [done|done| |].
    - intros j (b&Hj&[_ ?]%andb_prop)%Hin. eauto.
    - intros j b Hj Hm Hp. apply Hin. exists b. split; [done|]. unfold budget_victim.
      destruct (Z.ltb_spec 0 (b_bytes b)); [done|lia]. }
  pose proof (enforce_loop_ok sc (entries_in bs + length cands) bud _ _ _ Hlp (le_n _)) as Hd.
  destruct (enforce_loop _ bud _ cands bs) as [total bs']. destruct Hd as (Hok'&Ht&Ho&_&Hfin). simpl in *.
  split_and!; [done|done|]. destruct Hfin as [|Hnone]; [done|]. simpl. subst total.
  transitivity (wsum (outside sc) bs'); [|lia]. apply wsum_le. intros b [j Hj]%list_elem_of_lookup.
  unfold outside. destruct (may_evict sc b) eqn:Hm; [by eapply Hnone|lia].
Qed.

Lemma put_backend_acc j b b' s :
  l1_approx s = wsum b_bytes (l1_backends s) -> l1_backends s !! j = Some b ->
  l1_approx (put_backend j b b' s) = wsum b_bytes (l1_backends (put_backend j b b' s)).
Proof. intros Ha Hj. simpl. rewrite (wsum_insert _ _ _ _ _ Hj). lia. Qed.

Lemma put_backend_shrunk bud j b b' s :
  state_ok bud s -> l1_backends s !! j = Some b -> shrunk b b' -> state_ok bud (put_backend j b b' s).
Proof.
  intros (Hok&Ha&Hle) Hj (Hb'&Hby&_). split_and!; [by apply Forall_insert|by apply put_backend_acc|simpl; lia].
Qed.

Lemma l1_exec_ok bud o s :
  (forall v, 0 < size_of v) -> state_ok bud s ->
  exists s', l1_exec (Some bud) o s = Some s' /\ state_ok bud s'.
Proof.
  intros Hpos Hs. destruct o as [j now k|j now k v ttl cond|j now k|j a]; unfold l1_exec; cbv beta iota zeta;
    (destruct (l1_backends s !! j) as [b|] eqn:Hj; [|by exists s]);
    assert (Hb : backend_ok b) by (eapply Forall_lookup_1; [apply Hs|done]).
  - eexists. split; [done|]. by apply put_backend_shrunk, local_get_shrunk.
  - destruct (local_set_ok now bud k v ttl cond b Hpos Hb) as (ok&b'&Hset&Hb'&Hsy&Hno).
    unfold backend_set. rewrite Hset. destruct ok; eexists; (split; [done|]).
    + destruct Hs as (Hok&Ha&Hle).
      apply enforce_ok; [by apply Forall_insert|by apply put_backend_acc|].
      cbn [put_backend l1_backends]. rewrite (wsum_insert _ _ _ _ _ Hj).
      assert (Hz : forall b0 : backend, b_sync b0 = b_sync b -> outside (b_sync b) b0 = 0).
      { intros b0 Hb0. unfold outside, may_evict. rewrite Hb0. by destruct (b_sync b). }
      rewrite (Hz b), (Hz b') by done. pose proof (outside_le (b_sync b) _ Hok). lia.
    + rewrite Hno by done. by apply put_backend_shrunk, shrunk_refl.
  - eexists. split; [done|]. by apply put_backend_shrunk, local_exists_shrunk.
  - eexists. split; [done|]. by apply put_backend_shrunk, local_clear_shrunk.
Qed.

Definition fresh (b : backend) : Prop := b_store b = [] /\ b_bytes b = 0 /\ 1 <= b_max b.

Lemma fresh_state_ok bud bs : 0 <= bud -> Forall fresh bs -> state_ok bud (mkL1 bs 0).
Proof.
  intros ? Hf. split_and!; simpl; [| |lia].
  - eapply Forall_impl; [exact Hf|]. intros b (Hs&Hb&Hm). constructor; rewrite ?Hs; simpl; try done; try lia; constructor.
  - induction Hf as [|b bs (_&Hb&_) _ IH]; simpl; lia.
Qed.

(** ** What a backend can return *)

(** Value and expiry of a key. *)
Definition entry_of (k : string) (b : backend) : option (V * option Z) :=
  option_map (fun e => (ce_value e, ce_expires e)) (dict_get k (b_store b)).
Definition sub (b' b : backend) : Prop := forall k p, entry_of k b' = Some p -> entry_of k b = Some p.
Definition sub_at (s' s : l1_state) (j : nat) : Prop :=
  forall b', l1_backends s' !! j = Some b' -> exists b, l1_backends s !! j = Some b /\ sub b' b.

Lemma sub_refl b : sub b b.
Proof. by intros ? ?. Qed.

Lemma sub_trans b1 b2 b3 : sub b1 b2 -> sub b2 b3 -> sub b1 b3.
Proof. intros H12 H23 k p Hp. by apply H23, H12. Qed.

Lemma del_entry k k' delta b :
  entry_of k' (with_store (od_del k (b_store b)) delta b) = if k ==s k' then None else entry_of k' b.
Proof. unfold entry_of. simpl. rewrite od_del_get. by destruct (k ==s k'). Qed.

Lemma del_sub k delta b : sub (with_store (od_del k (b_store b)) delta b) b.
Proof. intros k' p. rewrite del_entry. by destruct (k ==s k'). Qed.

Lemma put_end_entry k e delta b k' :
  entry_of k' (with_store (od_put_end k e (b_store b)) delta b) =
  if k ==s k' then Some (ce_value e, ce_expires e) else entry_of k' b.
Proof.
  unfold entry_of, od_put_end. simpl. rewrite dict_get_app, od_del_get. simpl. rewrite (String.eqb_sym k').
  destruct (k ==s k'); [done|]. by destruct (dict_get k' (b_store b)).
Qed.

Lemma drop_sub k b : sub (local_drop k b).2 b.
Proof. unfold local_drop. destruct (dict_get k (b_store b)); [apply del_sub|apply sub_refl]. Qed.

Lemma drop_absent k b : entry_of k (local_drop k b).2 = None.
Proof.
  unfold local_drop. destruct (dict_get k (b_store b)) eqn:Hg; simpl; [by rewrite del_entry, String.eqb_refl|].
  unfold entry_of. by rewrite Hg.
Qed.

Lemma local_get_sub now k b : sub (local_get now k b).2 b.
Proof.
  unfold local_get. destruct (dict_get k (b_store b)) as [e|] eqn:Hg; [|apply sub_refl].
  destruct (is_expired now e); [apply drop_sub|]. intros k' p. simpl. rewrite put_end_entry. simpl.
  destruct (k ==s k') eqn:E; [|done]. bool_hyps; subst. unfold entry_of. by rewrite Hg.
Qed.

Lemma local_get_live now k v b :
  (local_get now k b).1 = Some v -> exists x, entry_of k b = Some (v, x) /\ from_option (fun x => now <= x) True x.
Proof.
  unfold local_get, entry_of, is_expired. destruct (dict_get k (b_store b)) as [e|]; [|done].
  destruct (ce_expires e) as [x|] eqn:Hx; [destruct (Z.ltb_spec x now); [done|]|]; simpl; intros; simplify_eq;
    eexists; by rewrite Hx.
Qed.

Lemma local_clear_sub a b : sub (local_clear a b).2 b.
Proof.
  destruct a as [k|ns| |]; simpl; [apply drop_sub| |apply sub_refl|by intros ? ?].
  generalize (List.filter (fun k => String.prefix (ns +:+ ":") k) (map fst (b_store b))). intros ks.
  revert b. induction ks as [|k ks IH]; intros b; simpl; [apply sub_refl|].
  intros k' p Hp. by apply (drop_sub k b), IH.
Qed.

Lemma local_exists_sub now k b : sub (local_exists now k b).2 b.
Proof.
  unfold local_exists. destruct (dict_get k (b_store b)); [|apply sub_refl].
  destruct (is_expired now _); [apply drop_sub|apply sub_refl].
Qed.

Lemma evict_if_needed_sub fuel b b' : local_evict_if_needed fuel b = Some b' -> sub b' b.
Proof.
  revert b. induction fuel as [|fuel IH]; intros b; simpl; (destruct (_ <? _); [intros; simplify_eq; apply sub_refl|]); [done|].
  assert (Hk : forall k e, local_evict_if_needed fuel (with_store (od_del k (b_store b)) (- ce_size e) b) = Some b' -> sub b' b).
  { intros k e Hev k' p Hp. by apply (del_sub k (- ce_size e) b), (IH _ Hev). }
  destruct (evictable b) as [|[k e] ?]; [|by apply Hk]. destruct (b_store b) as [|[k e] ?] eqn:Hst; [done|]. by apply Hk.
Qed.

(** A write stores its entry or drops the key; every other entry was there before. *)
Lemma local_set_entries now budget k v ttl cond b b' k' p :
  local_set now budget k v ttl cond b = Some (true, b') -> entry_of k' b' = Some p ->
  k' = k /\ p = (v, option_map (fun d => now + d) ttl) \/ k' <> k /\ entry_of k' b = Some p.
Proof.
  unfold local_set. destruct (match cond with Some _ => _ | None => false end); [done|].
  destruct (match cond with Some _ => false | None => _ end).
  { intros [= <-] Hp. destruct (decide (k' = k)) as [->|]; [by rewrite drop_absent in Hp|].
    right. split; [done|]. by apply (drop_sub k b). }
  destruct (dict_get k (b_store b)) as [o|] eqn:Hg.
  - intros [= <-]. rewrite put_end_entry. simpl. destruct (k ==s k') eqn:E; bool_hyps; [|auto].
    intros; simplify_eq; auto.
  - destruct (local_evict_if_needed _ b) as [b1|] eqn:Hev; [|done]. intros [= <-].
    unfold entry_of. simpl. rewrite dict_get_app.
    assert (Hk1 : dict_get k (b_store b1) = None).
    { pose proof (evict_if_needed_sub _ _ _ Hev k) as Hs. unfold entry_of in Hs. rewrite Hg in Hs.
      destruct (dict_get k (b_store b1)) as [e|]; [|done]. by specialize (Hs _ eq_refl). }
    destruct (decide (k' = k)) as [->|Hne].
    + rewrite Hk1. simpl. rewrite String.eqb_refl. intros; simplify_eq/=; auto.
    + intros Hp. right. split; [done|]. apply (evict_if_needed_sub _ _ _ Hev k' p). unfold entry_of.
      destruct (dict_get k' (b_store b1)); [done|]. simpl in Hp. apply String.eqb_neq in Hne. by rewrite Hne in Hp.
Qed.

Lemma local_set_rejected now budget k v ttl cond b b' :
  local_set now budget k v ttl cond b = Some (false, b') -> b' = b /\ cond <> None.
Proof.
  unfold local_set. destruct cond as [x|].
  - case_match; [by intros; simplify_eq|]. simpl.
    destruct (dict_get k (b_store b)); [done|]. by destruct (local_evict_if_needed _ b).
  - destruct (match budget with Some _ => _ | None => _ end); [done|].
    destruct (dict_get k (b_store b)); [done|]. by destruct (local_evict_if_needed _ b).
Qed.

Lemma evict_one_sub b : sub (local_evict_one_for_budget b).2 b.
Proof. unfold local_evict_one_for_budget. destruct (lowest _) as [[k e]|]; [apply del_sub|apply sub_refl]. Qed.

Lemma enforce_loop_sub fuel bud total cands bs j b' :
  (enforce_loop fuel bud total cands bs).2 !! j = Some b' -> exists b, bs !! j = Some b /\ sub b' b.
Proof.
  revert total cands bs. induction fuel as [|fuel IH]; intros total cands bs; simpl; [eauto using sub_refl|].
  destruct (total <=? bud); [intros; eexists; split; [done|apply sub_refl]|].
  destruct (pick_victim cands bs) as [i|]; [|intros; eexists; split; [done|apply sub_refl]].
  destruct (bs !! i) as [b|] eqn:Hi; [|intros; eexists; split; [done|apply sub_refl]].
  pose proof (evict_one_sub b) as Hsub. destruct (local_evict_one_for_budget b) as [freed b1]. simpl in Hsub.
  assert (Hback : forall b2, <[i := b1]> bs !! j = Some b2 -> exists b0, bs !! j = Some b0 /\ sub b2 b0).
  { intros b2 Hb2. apply list_lookup_insert_Some in Hb2 as [(->&->&_)|[_ Hb2]]; [eauto|].
    exists b2. split; [done|apply sub_refl]. }
  destruct (freed <=? 0); intros (b2&Hb2&Hs)%IH; destruct (Hback _ Hb2) as (b0&?&Hs0);
    exists b0; (split; [done|]); by eapply sub_trans.
Qed.

Lemma enforce_sub budget sc s j : sub_at (enforce budget sc s) s j.
Proof.
  intros b' Hb'. destruct budget as [bud|]; simpl in Hb'; [|exists b'; split; [done|apply sub_refl]].
  destruct (l1_approx s <=? bud); [exists b'; split; [done|apply sub_refl]|].
  destruct (enforce_loop _ bud _ _ _) as [total bs'] eqn:He. simpl in Hb'.
  eapply enforce_loop_sub. by rewrite He.
Qed.

(** An operation on another backend. *)
Lemma l1_exec_other budget o s s' j :
  l1_exec budget o s = Some s' ->
  match o with OpGet i _ _ | OpSet i _ _ _ _ _ | OpExists i _ _ | OpClear i _ => i <> j end -> sub_at s' s j.
Proof.
  assert (Hid : forall s0, l1_backends s0 !! j = l1_backends s !! j -> sub_at s0 s j).
  { intros s0 Heq b' Hb'. exists b'. rewrite <- Heq. split; [done|apply sub_refl]. }
  assert (Hput : forall i b b', i <> j -> sub_at (put_backend i b b' s) s j).
  { intros. apply Hid. simpl. by rewrite list_lookup_insert_ne. }
  destruct o as [i now k|i now k v ttl cond|i now k|i a]; unfold l1_exec; cbv beta iota zeta; intros Hex Hi;
    (destruct (l1_backends s !! i) as [b|]; [|simplify_eq; by apply Hid]).
  - simplify_eq. by apply Hput.
  - unfold backend_set in Hex. destruct (local_set _ _ _ _ _ _ _) as [[ok b1]|]; simplify_eq/=.
    destruct ok; [|by apply Hput]. intros b2 Hb2. apply enforce_sub in Hb2 as (b3&Hb3&Hs).
    apply (Hput i b b1 Hi) in Hb3 as (b4&Hb4&Hs4). exists b4. split; [done|]. by eapply sub_trans.
  - simplify_eq. by apply Hput.
  - simplify_eq. by apply Hput.
Qed.

(** ** One backend of a process *)

Section one_backend.
Context (budget : option Z) (j : nat).
Abbreviation store := (l1_state).

(** The tier is backend [j] of a process; the operations of the other backends can
    evict its entries. *)
Definition lt_view (s : store) (k : string) : option (V * option Z) := b ← l1_backends s !! j; entry_of k b.
Definition lt_get (now : Z) (k : string) (s : store) : option (V) * store :=
  match l1_backends s !! j with
  | Some b => let (r, b') := local_get now k b in (r, put_backend j b b' s)
  | None => (None, s)
  end.
Definition lt_set (now : Z) (k : string) (e : V) (ttl : option Z) (cond : option bool) (s : store)
    : option (bool * store) :=
  b ← l1_backends s !! j; backend_set budget j b now k e ttl cond s.
Definition lt_clear_ns (ns : string) (s : store) : store :=
  match l1_backends s !! j with
  | Some b => put_backend j b (local_clear (ClearNamespace ns) b).2 s
  | None => s
  end.
Definition lt_other (o : l1_op) (s : store) : option store :=
  match o with
  | OpGet i _ _ | OpSet i _ _ _ _ _ | OpExists i _ _ | OpClear i _ =>
      if (i =? j)%nat then None else l1_exec budget o s
  end.

Lemma lt_view_put b b' (s : store) k :
  l1_backends s !! j = Some b -> lt_view (put_backend j b b' s) k = entry_of k b'.
Proof.
  intros Hb. unfold lt_view. simpl. rewrite list_lookup_insert_eq; [done|]. by eapply lookup_lt_Some.
Qed.

Lemma lt_view_sub (s s' : store) k p : sub_at s' s j -> lt_view s' k = Some p -> lt_view s k = Some p.
Proof.
  unfold lt_view. intros Hs Hp. destruct (l1_backends s' !! j) as [b'|] eqn:Hb'; simpl in Hp; [|done].
  destruct (Hs b' Hb') as (b&->&Hsub). by apply Hsub.
Qed.

(** The state a write leaves, before the enforcement of the budget. *)
Lemma lt_set_inv now k e ttl cond (s s' : store) ok :
  lt_set now k e ttl cond s = Some (ok, s') ->
  exists b b', l1_backends s !! j = Some b /\ local_set now budget k e ttl cond b = Some (ok, b') /\
    forall k' p, lt_view s' k' = Some p -> entry_of k' b' = Some p.
Proof.
  unfold lt_set, backend_set. destruct (l1_backends s !! j) as [b|] eqn:Hb; simpl; [|done].
  destruct (local_set now budget k e ttl cond b) as [[ok' b']|] eqn:Hs; simpl; [|done].
  intros [= -> <-]. exists b, b'. split_and!; [done|done|]. intros k' p Hp.
  rewrite <- (lt_view_put b b' s) by done. destruct ok; [|done]. eapply lt_view_sub; [|exact Hp]. apply enforce_sub.
Qed.

(** [_drop_entry] *)
Definition lt_drop (k : string) (s : store) : store :=
  match l1_backends s !! j with Some b => put_backend j b (local_drop k b).2 s | None => s end.

Lemma lt_drop_sub k (s : store) k' p : lt_view (lt_drop k s) k' = Some p -> lt_view s k' = Some p.
Proof.
  unfold lt_drop. destruct (l1_backends s !! j) as [b|] eqn:Hb; [|done].
  rewrite lt_view_put by done. unfold lt_view. rewrite Hb. simpl. apply drop_sub.
Qed.

Lemma lt_get_live now k (s : store) v :
  (lt_get now k s).1 = Some v -> exists x, lt_view s k = Some (v, x) /\ from_option (fun x => now <= x) True x.
Proof.
  unfold lt_get, lt_view. destruct (l1_backends s !! j) as [b|]; [|done].
  destruct (local_get now k b) as [r b'] eqn:Hg. simpl. intros ->. apply local_get_live. by rewrite Hg.
Qed.

Lemma lt_get_sub now k (s : store) k' p : lt_view (lt_get now k s).2 k' = Some p -> lt_view s k' = Some p.
Proof.
  unfold lt_get. destruct (l1_backends s !! j) as [b|] eqn:Hb; [|done].
  pose proof (local_get_sub now k b) as Hs. destruct (local_get now k b) as [r b']. simpl.
  rewrite lt_view_put by done. unfold lt_view. rewrite Hb. simpl. apply Hs.
Qed.

Lemma lt_set_entries now k e ttl cond (s s' : store) k' p :
  lt_set now k e ttl cond s = Some (true, s') -> lt_view s' k' = Some p ->
  k' = k /\ p = (e, option_map (fun d => now + d) ttl) \/ k' <> k /\ lt_view s k' = Some p.
Proof.
  intros (b&b'&Hb&Hset&Hv)%lt_set_inv Hp.
  unfold lt_view at 1. rewrite Hb. simpl. eapply local_set_entries; [exact Hset|auto].
Qed.

Lemma lt_set_rejected now k e ttl cond (s s' : store) k' p :
  lt_set now k e ttl cond s = Some (false, s') ->
  cond <> None /\ (lt_view s' k' = Some p -> lt_view s k' = Some p).
Proof.
  intros (b&b'&Hb&Hset&Hv)%lt_set_inv.
  apply local_set_rejected in Hset as [-> ?]. split; [done|]. unfold lt_view at 2. rewrite Hb. simpl. auto.
Qed.

Lemma lt_clear_ns_sub ns (s : store) k p : lt_view (lt_clear_ns ns s) k = Some p -> lt_view s k = Some p.
Proof.
  unfold lt_clear_ns. destruct (l1_backends s !! j) as [b|] eqn:Hb; [|done].
  rewrite lt_view_put by done. unfold lt_view. rewrite Hb. simpl. apply (local_clear_sub (ClearNamespace ns)).
Qed.

Lemma lt_other_sub o (s s' : store) k p : lt_other o s = Some s' -> lt_view s' k = Some p -> lt_view s k = Some p.
Proof.
  intros Ho. apply lt_view_sub. unfold lt_other in Ho.
  destruct o as [i ? ?|i ? ? ? ? ?|i ? ?|i ?]; (destruct (Nat.eqb_spec i j); [done|]); by eapply l1_exec_other.
Qed.
End one_backend.

(** With a byte budget, and a positive size for every value, no sequence of
    reads, writes (conditional ones included, which bypass the admission limit),
    expiries and clears on the backends of a process fails or leaves them holding
    more bytes than the budget, whichever of them are thread-safe; the running
    total is exact, every backend is within its entry cap and its byte count is the
    sum of the sizes of its entries. *)
Theorem l1_stays_in_budget (bud : Z) (bs : list backend) (ops : list l1_op) :
  (forall v, 0 < size_of v) -> 0 <= bud -> Forall fresh bs ->
  exists s, l1_run (Some bud) ops (mkL1 bs 0) = Some s /\
    sum_bytes (l1_backends s) <= bud /\ l1_approx s = sum_bytes (l1_backends s) /\
    Forall backend_ok (l1_backends s).
Proof.
  intros Hpos Hbud Hf. pose proof (fresh_state_ok bud bs Hbud Hf) as Hs. clear Hf. revert Hs.
  generalize (mkL1 bs 0). unfold l1_run.
  induction ops as [|o ops IH]; intros s Hs; simpl.
  - exists s. destruct Hs as (Hok&Ha&Hle). split_and!; [done| |done|done]. rewrite Ha in Hle. done.
  - destruct (l1_exec_ok bud o s Hpos Hs) as (s'&->&Hs'). by apply IH.
Qed.
End local.

(** ** Witness and limit *)

Definition demo_size (v : string) : Z := 1 + Z.of_nat (String.length v).
Definition demo_backends : list (backend (V := string)) := [mkBackend [] 3 0 false; mkBackend [] 3 0 true].
Definition demo_ops : list (l1_op (V := string)) :=
  [OpSet 0 0 "a" "xxxx" None None; OpSet 0 1 "b" "yyyy" None None; OpGet 0 2 "a";
   OpSet 1 3 "c" "zzzz" (Some 5) None; OpSet 1 4 "d" "wwwwwwwwwww" None (Some false); OpGet 1 20 "c"].

Lemma l1_stays_in_budget_witness :
  exists s, l1_run demo_size (Some 20) demo_ops (mkL1 demo_backends 0) = Some s /\
    sum_bytes (l1_backends s) <= 20 /\ l1_approx s = sum_bytes (l1_backends s) /\
    Forall backend_ok (l1_backends s).
Proof.
  apply l1_stays_in_budget.
  - intros v. unfold demo_size. lia.
  - lia.
  - repeat constructor; simpl; lia.
Defined.

(** Entries written while the budget was off are charged nothing.  Once eight of
    them are the least recently used of a backend, each enforcement evicts one of
    them, takes the zero bytes it freed for a backend of pinned entries and stops,
    and the backend stays over the budget. *)
Definition uncharged : list (l1_op (V := string)) :=
  map (fun i => OpSet 0 0 (pretty i) "x" None None) (seq 0 10).
Definition charged : list (l1_op (V := string)) :=
  map (fun i => OpSet 0 1 (pretty i) "xxxxxxxxx" None None) (seq 10 5).

Example uncharged_entries_shield :
  exists s s', l1_run demo_size None uncharged (mkL1 [mkBackend [] 100 0 false] 0) = Some s /\
    l1_run demo_size (Some 40) charged s = Some s' /\ sum_bytes (l1_backends s') = 50.
Proof. eexists _, _. split_and!; vm_compute; reflexivity. Qed.

