(* ===== verification/TieredCache.v ===== *)
(** * The two-tier cache

    [TieredAsyncBackend] and the version envelope of [tools/cache.py], over
    [ValkeyCacheBackend] of [tools/cache_valkey.py] as second tier.

    Processes ("pods") have a first tier each and share the second.  A read
    consults both and the higher version wins; a write goes to the first tier and,
    in the background and with retries, to the second; an invalidation writes a
    tombstone to both.  The first tier is used through the interface [CacheTier],
    which the local backend of [LocalCache] implements.

    Time is one integer clock; [cap] is the time to live of first-tier entries and
    [lag] the time within which the second tier answers a read, if it does. *)

From S2P Require Import Prelude LocalCache.

(** ** Version envelopes *)

Section versions.
Context {A : Type}.

(** A value without a version was stored before envelopes were introduced. *)
Inductive ev_envelope : Type := Wrap (ver : Z) (v : A) | Tombstone (ver : Z) | Legacy (v : A).

(** Version, value, and whether it is a tombstone. *)
Definition ev_parse (e : ev_envelope) : Z * option A * bool :=
  match e with
  | Wrap ver v => (ver, Some v, false)
  | Tombstone ver => (ver, None, true)
  | Legacy v => (0, Some v, false)
  end.
Definition ev_ver (e : ev_envelope) : Z := (ev_parse e).1.1.
Definition ev_val (e : ev_envelope) : option A := (ev_parse e).1.2.
Definition ev_tomb (e : ev_envelope) : bool := (ev_parse e).2.
End versions.
Arguments ev_envelope : clear implicits.

(** ** The interface of a first tier *)

(** What the tiered backend relies on: reads return live entries, a write stores
    its entry or drops the key, and nothing else appears.  [None] is an exception
    of the store. *)
Class CacheTier (A T : Type) : Type := {
  tview : T -> string -> option (ev_envelope A * option Z);
  tget : Z -> string -> T -> option (ev_envelope A) * T;
  tset : Z -> string -> ev_envelope A -> option Z -> option bool -> T -> option (bool * T);
  tclear_ns : string -> T -> T;
  tother_op : Type;
  tother : tother_op -> T -> option T;
  tget_spec : forall now k t e,
    (tget now k t).1 = Some e -> exists x, tview t k = Some (e, x) /\ from_option (fun x => now <= x) True x;
  tget_sub : forall now k t k' p, tview (tget now k t).2 k' = Some p -> tview t k' = Some p;
  tset_spec : forall now k e ttl cond t t' k' p,
    tset now k e ttl cond t = Some (true, t') -> tview t' k' = Some p ->
    k' = k /\ p = (e, option_map (fun d => now + d) ttl) \/ k' <> k /\ tview t k' = Some p;
  tset_reject : forall now k e ttl cond t t' k' p,
    tset now k e ttl cond t = Some (false, t') -> tview t' k' = Some p -> tview t k' = Some p;
  tset_always : forall now k e ttl t t' b, tset now k e ttl None t = Some (b, t') -> b = true;
  tclear_sub : forall ns t k p, tview (tclear_ns ns t) k = Some p -> tview t k = Some p;
  tother_sub : forall o t t' k p, tother o t = Some t' -> tview t' k = Some p -> tview t k = Some p;
}.

(** ** The second tier *)

(** A command is executed and answered, lost, or executed with its answer lost. *)
Inductive l2_outcome : Type := Answered | Lost | Unanswered.

Section valkey.
Context {A : Type}.
Abbreviation server := (gmap string (ev_envelope A * option Z)).

Definition live (now : Z) (p : ev_envelope A * option Z) : bool :=
  match p.2 with Some x => now <? x | None => true end.
Definition server_get (now : Z) (k : string) (m : server) : option (ev_envelope A) :=
  p ← m !! k; if live now p then Some p.1 else None.

(** A failing command is logged and answered as a miss. *)
Definition valkey_get (oc : l2_outcome) (now : Z) (k : string) (m : server) : option (ev_envelope A) :=
  match oc with Answered => server_get now k m | _ => None end.

Definition server_set (now : Z) (k : string) (e : ev_envelope A) (ttl : option Z) (cond : option bool) (m : server)
    : bool * server :=
  let present := match server_get now k m with Some _ => true | None => false end in
  if match cond with Some c => Bool.eqb c present | None => true end
  then (true, <[k := (e, option_map (fun d => now + d) ttl)]> m)
  else (false, m).
Definition valkey_set (oc : l2_outcome) (now : Z) (k : string) (e : ev_envelope A) (ttl : option Z) (cond : option bool)
    (m : server) : bool * server :=
  match oc with
  | Answered => server_set now k e ttl cond m
  | Lost => (false, m)
  | Unanswered => (false, (server_set now k e ttl cond m).2)
  end.

Definition valkey_exists (oc : l2_outcome) (now : Z) (k : string) (m : server) : bool :=
  match valkey_get oc now k m with Some _ => true | None => false end.

(** [clear(namespace=)] unlinks the keys that match [namespace|*]. *)
Definition in_namespace (ns k : string) : bool := String.prefix (ns +:+ "|") k.
Definition valkey_clear_ns (oc : l2_outcome) (ns : string) (m : server) : server :=
  match oc with
  | Lost => m
  | _ => base.filter (fun kp => in_namespace ns kp.1 = false) m
  end.
End valkey.

(** ** The tiered backend *)

Section tiered.
Context {A T : Type} `{CacheTier A T} (cap lag : Z) (l2_retry_attempts : nat).

Inductive l2_reply : Type := L2Reply (o : option (ev_envelope A)) | L2Raised.
(** The value returned, and the envelope the first tier is refreshed with. *)
Inductive get_result : Type := GetRaises | GetReturns (v : option A) (refresh : option (ev_envelope A)).

Definition tiered_get (required_l2 : bool) (l1_raw : option (ev_envelope A)) (l2 : l2_reply) : get_result :=
  let l1_val := match l1_raw with Some e => if ev_tomb e then None else ev_val e | None => None end in
  match l2 with
  | L2Raised => if required_l2 then GetRaises else GetReturns l1_val None
  | L2Reply l2_raw =>
      match l2_raw with
      | None => GetReturns l1_val None
      | Some e2 =>
          if match l1_raw with None => true | Some e1 => ev_ver e1 <=? ev_ver e2 end then
            if ev_tomb e2 then
              GetReturns None (match l1_raw with
                               | Some e1 => if ev_tomb e1 then None else Some (Tombstone (ev_ver e2))
                               | None => None
                               end)
            else GetReturns (ev_val e2) (option_map (Wrap (ev_ver e2)) (ev_val e2))
          else GetReturns l1_val None
      end
  end.

#[local] Arguments tiered_get : simpl never.

(** [min(ttl, l1_cap)], or the cap. *)
Definition l1_ttl (ttl : option Z) : Z := match ttl with Some t => Z.min t cap | None => cap end.

(** An operation between two of its suspension points. *)
Inductive inflight : Type :=
| FGet (p : nat) (k : string) (l1_raw : option (ev_envelope A)) (started : Z) (reply : option (option (ev_envelope A)))
| FSet (k : string) (e : ev_envelope A) (ttl : option Z) (cond : option bool) (attempts : nat)
| FClear (k : string) (e : ev_envelope A)
| FClearNs (ns : string).

Record tworld : Type := mkTWorld {
  w_now : Z;
  w_l1 : nat -> T;
  w_l2 : gmap string (ev_envelope A * option Z);
  w_ops : gmap nat inflight;
  w_next : nat;
  w_log : list (string * option A);
}.
Definition set_l1 (p : nat) (t : T) (w : tworld) : tworld :=
  mkTWorld (w_now w) (fun q => if (q =? p)%nat then t else w_l1 w q) (w_l2 w) (w_ops w) (w_next w) (w_log w).
Definition set_l2 m (w : tworld) : tworld := mkTWorld (w_now w) (w_l1 w) m (w_ops w) (w_next w) (w_log w).
Definition spawn (f : inflight) (w : tworld) : tworld :=
  mkTWorld (w_now w) (w_l1 w) (w_l2 w) (<[w_next w := f]> (w_ops w)) (S (w_next w)) (w_log w).
Definition set_op (i : nat) (f : inflight) (w : tworld) : tworld :=
  mkTWorld (w_now w) (w_l1 w) (w_l2 w) (<[i := f]> (w_ops w)) (w_next w) (w_log w).
Definition end_op (i : nat) (w : tworld) : tworld :=
  mkTWorld (w_now w) (w_l1 w) (w_l2 w) (delete i (w_ops w)) (w_next w) (w_log w).
Definition returned (k : string) (v : option A) (w : tworld) : tworld :=
  mkTWorld (w_now w) (w_l1 w) (w_l2 w) (w_ops w) (w_next w) ((k, v) :: w_log w).

Inductive tevent : Type :=
| EWait (d : nat)
| EL1 (p : nat) (o : tother_op (A := A) (T := T))
| EL2Evict (k : string)
| EGet (p : nat) (k : string)
| ESet (p : nat) (k : string) (v : A) (ttl : option Z) (cond : option bool)
| EClear (p : nat) (k : string)
| EClearNs (p : nat) (ns : string)
| ENext (i : nat) (oc : l2_outcome).

(** [set]: the envelope is stamped once; a write the first tier rejects ends there. *)
Definition tiered_set (p : nat) (k : string) (v : A) (ttl : option Z) (cond : option bool) (w : tworld) : option tworld :=
  let e := Wrap (w_now w) v in
  '(ok, t) ← tset (w_now w) k e (Some (l1_ttl ttl)) cond (w_l1 w p);
  let w := set_l1 p t w in
  Some (if (ok : bool) && negb (l2_retry_attempts =? 0)%nat then spawn (FSet k e ttl cond l2_retry_attempts) w else w).

(** [clear(key=)] up to the write to the second tier. *)
Definition tiered_clear (p : nat) (k : string) (w : tworld) : option tworld :=
  let e := Tombstone (w_now w) in
  '(_, t) ← tset (w_now w) k e (Some cap) None (w_l1 w p);
  Some (spawn (FClear k e) (set_l1 p t w)).

Definition refresh_l1 (p : nat) (k : string) (refresh : option (ev_envelope A)) (w : tworld) : option tworld :=
  match refresh with
  | None => Some w
  | Some e => '(_, t) ← tset (w_now w) k e (Some cap) None (w_l1 w p); Some (set_l1 p t w)
  end.

(** The next step of an operation.  The second tier answers a failing read with a
    miss; it answers no read later than [lag]. *)
Definition op_step (i : nat) (oc : l2_outcome) (f : inflight) (w : tworld) : option tworld :=
  match f with
  | FGet p k l1_raw started None =>
      match oc with
      | Answered =>
          if w_now w <=? started + lag
          then Some (set_op i (FGet p k l1_raw started (Some (valkey_get Answered (w_now w) k (w_l2 w)))) w)
          else None
      | _ => Some (set_op i (FGet p k l1_raw started (Some (valkey_get oc (w_now w) k (w_l2 w)))) w)
      end
  | FGet p k l1_raw started (Some o) =>
      match tiered_get false l1_raw (L2Reply o) with
      | GetRaises => Some (end_op i w)
      | GetReturns v refresh => w ← refresh_l1 p k refresh w; Some (returned k v (end_op i w))
      end
  | FSet k e ttl cond attempts =>
      let (ok, m) := valkey_set oc (w_now w) k e ttl cond (w_l2 w) in
      let w := set_l2 m w in
      Some (if (ok : bool) || (attempts <=? 1)%nat then end_op i w else set_op i (FSet k e ttl cond (attempts - 1)) w)
  | FClear k e => Some (end_op i (set_l2 (valkey_set oc (w_now w) k e (Some cap) None (w_l2 w)).2 w))
  | FClearNs ns => Some (end_op i (set_l2 (valkey_clear_ns oc ns (w_l2 w)) w))
  end.

Definition tstep (ev : tevent) (w : tworld) : option tworld :=
  match ev with
  | EWait d => Some (mkTWorld (w_now w + Z.of_nat d) (w_l1 w) (w_l2 w) (w_ops w) (w_next w) (w_log w))
  | EL1 p o => t ← tother o (w_l1 w p); Some (set_l1 p t w)
  | EL2Evict k => Some (set_l2 (delete k (w_l2 w)) w)
  | EGet p k =>
      let (r, t) := tget (w_now w) k (w_l1 w p) in
      Some (spawn (FGet p k r (w_now w) None) (set_l1 p t w))
  | ESet p k v ttl cond => tiered_set p k v ttl cond w
  | EClear p k => tiered_clear p k w
  | EClearNs p ns => Some (spawn (FClearNs ns) (set_l1 p (tclear_ns ns (w_l1 w p)) w))
  | ENext i oc => f ← w_ops w !! i; op_step i oc f w
  end.

Fixpoint trun (es : list tevent) (w : tworld) : option tworld :=
  match es with [] => Some w | e :: es => w ← tstep e w; trun es w end.
(** ** What a step changes *)

(** The entries a step writes to the first tier of a pod, its new operations, and
    what becomes of a key in the second tier. *)
Inductive new_l1 (w : tworld) (q : nat) (k : string) : tevent -> ev_envelope A -> option Z -> Prop :=
| NL1Set v ttl cond : new_l1 w q k (ESet q k v ttl cond) (Wrap (w_now w) v) (Some (w_now w + l1_ttl ttl))
| NL1Clear : new_l1 w q k (EClear q k) (Tombstone (w_now w)) (Some (w_now w + cap))
| NL1Refresh i oc raw st o v e :
    w_ops w !! i = Some (FGet q k raw st (Some o)) ->
    tiered_get false raw (L2Reply o) = GetReturns v (Some e) ->
    new_l1 w q k (ENext i oc) e (Some (w_now w + cap)).

Inductive new_l2 (w : tworld) (k : string) : tevent -> option (ev_envelope A * option Z) -> Prop :=
| NL2Evict : new_l2 w k (EL2Evict k) None
| NL2Ns i oc ns : w_ops w !! i = Some (FClearNs ns) -> in_namespace ns k = true -> new_l2 w k (ENext i oc) None
| NL2Set i oc e ttl cond n :
    w_ops w !! i = Some (FSet k e ttl cond n) ->
    new_l2 w k (ENext i oc) (Some (e, option_map (fun d => w_now w + d) ttl))
| NL2Clear i oc e :
    w_ops w !! i = Some (FClear k e) -> new_l2 w k (ENext i oc) (Some (e, Some (w_now w + cap))).

Inductive new_op (w : tworld) : tevent -> nat -> inflight -> Prop :=
| NGet p k : new_op w (EGet p k) (w_next w) (FGet p k (tget (w_now w) k (w_l1 w p)).1 (w_now w) None)
| NSet p k v ttl cond n : new_op w (ESet p k v ttl cond) (w_next w) (FSet k (Wrap (w_now w) v) ttl cond n)
| NClear p k : new_op w (EClear p k) (w_next w) (FClear k (Tombstone (w_now w)))
| NClearNs p ns : new_op w (EClearNs p ns) (w_next w) (FClearNs ns)
| NReply i oc p k raw st :
    w_ops w !! i = Some (FGet p k raw st None) -> (oc = Answered -> w_now w <= st + lag) ->
    new_op w (ENext i oc) i (FGet p k raw st (Some (valkey_get oc (w_now w) k (w_l2 w))))
| NRetry i oc k e ttl cond n :
    w_ops w !! i = Some (FSet k e ttl cond n) -> new_op w (ENext i oc) i (FSet k e ttl cond (n - 1)).

Lemma set_l1_view p t w q k pr :
  tview (w_l1 (set_l1 p t w) q) k = Some pr ->
  q = p /\ tview t k = Some pr \/ tview (w_l1 w q) k = Some pr.
Proof. simpl. destruct (Nat.eqb_spec q p); auto. Qed.

Lemma refresh_inv p k refresh w w' :
  refresh_l1 p k refresh w = Some w' ->
  w' = w /\ refresh = None \/
  exists e t, refresh = Some e /\ tset (w_now w) k e (Some cap) None (w_l1 w p) = Some (true, t) /\ w' = set_l1 p t w.
Proof.
  destruct refresh as [e|]; simpl; [|intros; simplify_eq; auto].
  destruct (tset _ _ _ _ _ _) as [[b t]|] eqn:Hs; simpl; [|done]. intros ?; simplify_eq.
  right. pose proof (tset_always _ _ _ _ _ _ _ Hs) as ->. eauto.
Qed.

Lemma l1_after ev w w' q k e x :
  tstep ev w = Some w' -> tview (w_l1 w' q) k = Some (e, x) ->
  tview (w_l1 w q) k = Some (e, x) \/ new_l1 w q k ev e x.
Proof.
  destruct ev as [d|p o|k'|p k'|p k' v ttl cond|p k'|p ns|i oc]; simpl; intros Hst Hv.
  - simplify_eq. auto.
  - destruct (tother o (w_l1 w p)) as [t|] eqn:Ho; simplify_eq/=.
    apply set_l1_view in Hv as [[-> Hv]|Hv]; [left; by eapply tother_sub|auto].
  - simplify_eq. auto.
  - destruct (tget (w_now w) k' (w_l1 w p)) as [r t] eqn:Hg. simplify_eq.
    apply set_l1_view in Hv as [[-> Hv]|Hv]; [|auto]. left. eapply tget_sub. by rewrite Hg.
  - unfold tiered_set in Hst. destruct (tset _ _ _ _ _ _) as [[b t]|] eqn:Hs; simpl in Hst; [|done].
    assert (Hv' : tview (w_l1 (set_l1 p t w) q) k = Some (e, x)) by (destruct (_ && _); by simplify_eq).
    apply set_l1_view in Hv' as [[-> Hv']|Hv']; [|auto]. destruct b; [|left; by eapply tset_reject].
    destruct (tset_spec _ _ _ _ _ _ _ _ _ Hs Hv') as [[-> ?]|[? ?]]; [|auto]. simplify_eq. right. constructor.
  - unfold tiered_clear in Hst. destruct (tset _ _ _ _ _ _) as [[b t]|] eqn:Hs; simplify_eq/=.
    pose proof (tset_always _ _ _ _ _ _ _ Hs) as ->.
    apply set_l1_view in Hv as [[-> Hv]|Hv]; [|auto].
    destruct (tset_spec _ _ _ _ _ _ _ _ _ Hs Hv) as [[-> ?]|[? ?]]; [|auto]. simplify_eq. right. constructor.
  - simplify_eq. apply set_l1_view in Hv as [[-> Hv]|Hv]; [left; by eapply tclear_sub|auto].
  - destruct (w_ops w !! i) as [f|] eqn:Hf; simpl in Hst; [|done].
    destruct f as [p k' raw st [o|]|k' e' ttl cond n|k' e'|ns]; simpl in Hst.
    + destruct (tiered_get false raw (L2Reply o)) as [|vv rf] eqn:Hg; [simplify_eq; by left|].
      destruct (refresh_l1 p k' rf w) as [w1|] eqn:Hr; simplify_eq/=.
      apply refresh_inv in Hr as [[-> _]|(e1&t&->&Hs&->)]; [auto|].
      apply set_l1_view in Hv as [[-> Hv]|Hv]; [|auto].
      destruct (tset_spec _ _ _ _ _ _ _ _ _ Hs Hv) as [[-> ?]|[? ?]]; [|auto]. simplify_eq. right. by econstructor.
    + destruct oc; [destruct (_ <=? _)|..]; simplify_eq; by left.
    + destruct (valkey_set _ _ _ _ _ _ _). destruct (_ || _); simplify_eq; by left.
    + simplify_eq; by left.
    + simplify_eq; by left.
Qed.
Lemma valkey_set_at oc now k e ttl cond (m : gmap string (ev_envelope A * option Z)) k' :
  (valkey_set oc now k e ttl cond m).2 !! k' = m !! k' \/
  k' = k /\ (valkey_set oc now k e ttl cond m).2 !! k' = Some (e, option_map (fun d => now + d) ttl).
Proof.
  assert (Hs : (server_set now k e ttl cond m).2 !! k' = m !! k' \/
    k' = k /\ (server_set now k e ttl cond m).2 !! k' = Some (e, option_map (fun d => now + d) ttl)).
  { unfold server_set. destruct (match cond with Some _ => _ | None => _ end); simpl; [|auto].
    destruct (decide (k = k')) as [->|]; [rewrite lookup_insert_eq|rewrite lookup_insert_ne]; auto. }
  destruct oc; simpl; auto.
Qed.

Lemma l2_after ev w w' k :
  tstep ev w = Some w' -> w_l2 w' !! k = w_l2 w !! k \/ new_l2 w k ev (w_l2 w' !! k).
Proof.
  destruct ev as [d|p o|k'|p k'|p k' v ttl cond|p k'|p ns|i oc]; simpl; intros Hst.
  - simplify_eq. auto.
  - destruct (tother o (w_l1 w p)); simplify_eq/=. auto.
  - simplify_eq/=. destruct (decide (k' = k)) as [->|].
    + right. rewrite lookup_delete_eq. constructor.
    + left. by rewrite lookup_delete_ne.
  - destruct (tget _ _ _). simplify_eq. auto.
  - unfold tiered_set in Hst. destruct (tset _ _ _ _ _ _) as [[b t]|]; simpl in Hst; [|done].
    left. destruct (_ && _); by simplify_eq.
  - unfold tiered_clear in Hst. destruct (tset _ _ _ _ _ _) as [[b t]|]; simplify_eq/=. auto.
  - simplify_eq. auto.
  - destruct (w_ops w !! i) as [f|] eqn:Hf; simpl in Hst; [|done].
    destruct f as [p k' raw st [o|]|k' e' ttl cond n|k' e'|ns]; simpl in Hst.
    + left. destruct (tiered_get false raw (L2Reply o)) as [|vv rf]; [by simplify_eq|].
      destruct (refresh_l1 p k' rf w) as [w1|] eqn:Hr; simplify_eq/=.
      by apply refresh_inv in Hr as [[-> _]|(e1&t&_&_&->)].
    + left. destruct oc; [destruct (_ <=? _)|..]; by simplify_eq.
    + destruct (valkey_set_at oc (w_now w) k' e' ttl cond (w_l2 w) k) as [Hs|[-> Hs]];
        destruct (valkey_set _ _ _ _ _ _ _) as [ok m]; simpl in Hs;
        (assert (w_l2 w' = m) as -> by (destruct (_ || _); by simplify_eq)); [by left|].
      right. rewrite Hs. by econstructor.
    + simplify_eq/=. destruct (valkey_set_at oc (w_now w) k' e' (Some cap) None (w_l2 w) k) as [Hs|[-> Hs]]; [by left|].
      right. rewrite Hs. by econstructor.
    + simplify_eq/=. unfold valkey_clear_ns. destruct oc; [|by left|];
        (destruct (in_namespace ns k) eqn:Hns;
         [right; rewrite map_lookup_filter_None_2 by (right; intros ? _; simpl; congruence); by econstructor
         |left; destruct (w_l2 w !! k) eqn:Hk;
           [by apply map_lookup_filter_Some_2|apply map_lookup_filter_None_2; by left]]).
Qed.

Lemma spawn_ops f w i g : w_ops (spawn f w) !! i = Some g -> i = w_next w /\ g = f \/ w_ops w !! i = Some g.
Proof. simpl. intros [[<- <-]|[? ?]]%lookup_insert_Some; auto. Qed.

Lemma set_op_ops j f w i g : w_ops (set_op j f w) !! i = Some g -> i = j /\ g = f \/ w_ops w !! i = Some g.
Proof. simpl. intros [[<- <-]|[? ?]]%lookup_insert_Some; auto. Qed.

Lemma end_op_ops j w i g : w_ops (end_op j w) !! i = Some g -> i <> j /\ w_ops w !! i = Some g.
Proof. simpl. intros [? ?]%lookup_delete_Some. auto. Qed.

Lemma ops_after ev w w' i f :
  tstep ev w = Some w' -> w_ops w' !! i = Some f ->
  w_ops w !! i = Some f \/ new_op w ev i f /\ ((i < w_next w')%nat \/ is_Some (w_ops w !! i)).
Proof.
  destruct ev as [d|p o|k'|p k'|p k' v ttl cond|p k'|p ns|j oc]; simpl; intros Hst Hf.
  - simplify_eq. auto.
  - destruct (tother o (w_l1 w p)); simplify_eq/=. auto.
  - simplify_eq/=. auto.
  - destruct (tget _ _ _) as [r t] eqn:Hg. simplify_eq. apply spawn_ops in Hf as [[-> ->]|?]; [|auto].
    right. replace r with (tget (w_now w) k' (w_l1 w p)).1 by (by rewrite Hg). simpl. split; [apply NGet|left; lia].
  - unfold tiered_set in Hst. destruct (tset _ _ _ _ _ _) as [[b t]|]; simpl in Hst; [|done].
    destruct (_ && _); simplify_eq; [|auto]. apply spawn_ops in Hf as [[-> ->]|?]; [right; simpl; split; [apply NSet|left; lia]|auto].
  - unfold tiered_clear in Hst. destruct (tset _ _ _ _ _ _) as [[b t]|]; simplify_eq/=.
    apply spawn_ops in Hf as [[-> ->]|?]; [right; simpl; split; [apply NClear|left; lia]|auto].
  - simplify_eq. apply spawn_ops in Hf as [[-> ->]|?]; [right; simpl; split; [apply NClearNs|left; lia]|auto].
  - destruct (w_ops w !! j) as [g|] eqn:Hg; simpl in Hst; [|done].
    destruct g as [p k' raw st [o|]|k' e' ttl cond n|k' e'|ns]; simpl in Hst.
    + left. destruct (tiered_get false raw (L2Reply o)) as [|vv rf]; [simplify_eq; by apply end_op_ops in Hf as [_ ?]|].
      destruct (refresh_l1 p k' rf w) as [w1|] eqn:Hr; simplify_eq/=. apply lookup_delete_Some in Hf as [_ Hf].
      by apply refresh_inv in Hr as [[-> _]|(e1&t&_&_&->)].
    + destruct oc; [destruct (Z.leb_spec (w_now w) (st + lag))|..]; simplify_eq;
        (apply set_op_ops in Hf as [[-> ->]|?]; [right; split; [by constructor|by right; rewrite Hg]|auto]).
    + destruct (valkey_set _ _ _ _ _ _ _) as [ok m]. destruct (_ || _); simplify_eq.
      * left. by apply end_op_ops in Hf as [_ ?].
      * apply set_op_ops in Hf as [[-> ->]|?]; [right; split; [by econstructor|by right; rewrite Hg]|auto].
    + left. simplify_eq. by apply end_op_ops in Hf as [_ ?].
    + left. simplify_eq. by apply end_op_ops in Hf as [_ ?].
Qed.
Inductive new_log (w : tworld) : tevent -> string -> option A -> Prop :=
| NLog i oc q k raw st o v rf :
    w_ops w !! i = Some (FGet q k raw st (Some o)) ->
    tiered_get false raw (L2Reply o) = GetReturns v rf -> new_log w (ENext i oc) k v.

Lemma log_after ev w w' :
  tstep ev w = Some w' ->
  w_now w <= w_now w' /\ (w_next w <= w_next w')%nat /\
  (w_log w' = w_log w \/ exists k v, new_log w ev k v /\ w_log w' = (k, v) :: w_log w).
Proof.
  assert (Hsame : w_now w <= w_now w /\ (w_next w <= w_next w)%nat /\
    (w_log w = w_log w \/ exists k v, new_log w ev k v /\ w_log w = (k, v) :: w_log w)) by (split; [lia|split; [lia|auto]]).
  assert (Hspawn : forall f, w_now w <= w_now w /\ (w_next w <= w_next (spawn f w))%nat /\
    (w_log w = w_log w \/ exists k v, new_log w ev k v /\ w_log w = (k, v) :: w_log w)) by (split; [lia|split; [simpl; lia|auto]]).
  destruct ev as [d|p o|k'|p k'|p k' v ttl cond|p k'|p ns|j oc]; simpl; intros Hst.
  - simplify_eq/=. split_and!; [lia|lia|auto].
  - destruct (tother o (w_l1 w p)); by simplify_eq/=.
  - by simplify_eq/=.
  - destruct (tget _ _ _) as [r t]. simplify_eq. apply (Hspawn (FClearNs k')).
  - unfold tiered_set in Hst. destruct (tset _ _ _ _ _ _) as [[b t]|]; simpl in Hst; [|done].
    destruct (_ && _); simplify_eq; [apply (Hspawn (FClearNs k'))|done].
  - unfold tiered_clear in Hst. destruct (tset _ _ _ _ _ _) as [[b t]|]; simplify_eq/=. apply (Hspawn (FClearNs k')).
  - simplify_eq. apply (Hspawn (FClearNs ns)).
  - destruct (w_ops w !! j) as [g|] eqn:Hg; simpl in Hst; [|done].
    destruct g as [p k' raw st [o|]|k' e' ttl cond n|k' e'|ns]; simpl in Hst.
    + destruct (tiered_get false raw (L2Reply o)) as [|vv rf] eqn:Ht; [by simplify_eq|].
      destruct (refresh_l1 p k' rf w) as [w1|] eqn:Hr; simplify_eq/=.
      apply refresh_inv in Hr as [[-> _]|(e1&t&_&_&->)]; simpl; (split_and!; [lia|lia|]); right;
        exists k', vv; (split; [by econstructor|done]).
    + destruct oc; [destruct (_ <=? _)|..]; by simplify_eq.
    + destruct (valkey_set _ _ _ _ _ _ _) as [ok m]. destruct (_ || _); by simplify_eq.
    + by simplify_eq.
    + by simplify_eq.
Qed.

(** ** Ages of entries *)

Definition op_vers (f : inflight) : list (ev_envelope A) :=
  match f with
  | FGet _ _ raw _ reply => option_list raw ++ option_list (mjoin reply)
  | FSet _ e _ _ _ | FClear _ e => [e]
  | FClearNs _ => []
  end.

(** No version is ahead of the clock and no entry of a first tier outlives the cap. *)
Record aged (w : tworld) : Prop := {
  a_now : 0 <= w_now w;
  a_l1 : forall q k e x, tview (w_l1 w q) k = Some (e, x) ->
    ev_ver e <= w_now w /\ exists t, x = Some t /\ t <= w_now w + cap;
  a_l2 : forall k e x, w_l2 w !! k = Some (e, x) -> ev_ver e <= w_now w;
  a_ops : forall i f e, w_ops w !! i = Some f -> e ∈ op_vers f -> ev_ver e <= w_now w;
  a_next : forall i f, w_ops w !! i = Some f -> (i < w_next w)%nat;
}.

Lemma refresh_ver raw o v e :
  tiered_get false raw (L2Reply o) = GetReturns v (Some e) -> exists e2, o = Some e2 /\ ev_ver e = ev_ver e2.
Proof.
  unfold tiered_get. destruct o as [e2|]; [|by intros]. exists e2. split; [done|].
  destruct (match raw with Some _ => _ | None => _ end); [|done].
  destruct e2; simpl in *; repeat case_match; simplify_eq/=; done.
Qed.

Lemma valkey_get_from oc now k (m : gmap string (ev_envelope A * option Z)) e :
  valkey_get oc now k m = Some e -> exists x, m !! k = Some (e, x).
Proof.
  destruct oc; simpl; [|done..]. unfold server_get. destruct (m !! k) as [[e' x]|]; simpl; [|done].
  destruct (live now (e', x)); [|done]. intros; simplify_eq. eauto.
Qed.

Lemma aged_step ev w w' : tstep ev w = Some w' -> aged w -> aged w'.
Proof.
  intros Hst [Hn H1 H2 Ho Hx]. destruct (log_after _ _ _ Hst) as (Hnow&Hnx&_).
  assert (Hl2 : forall oc k e, valkey_get oc (w_now w) k (w_l2 w) = Some e -> ev_ver e <= w_now w).
  { intros oc k e (x&Hk)%valkey_get_from. eauto. }
  constructor; [lia| | | |].
  - intros q k e x Hv. destruct (l1_after _ _ _ _ _ _ _ Hst Hv) as [Hold|Hnew].
    + destruct (H1 q k e x Hold) as (?&t&->&?). split; [lia|]. exists t. split; [done|lia].
    + destruct Hnew as [v ttl cond| |i oc raw st o v e Hop Hg]; simpl; (split; [|eexists; split; [done|]]); try (unfold ev_ver; simpl; lia).
      * unfold l1_ttl. destruct ttl; lia.
      * destruct (refresh_ver _ _ _ _ Hg) as (e2&->&->). etrans; [|exact Hnow].
        eapply Ho; [exact Hop|]. simpl. set_solver.
  - intros k e x Hk. destruct (l2_after _ _ _ k Hst) as [Hs|Hnew]; [rewrite Hs in Hk; etrans; [eauto|lia]|].
    rewrite Hk in Hnew. inversion Hnew; subst; (etrans; [|exact Hnow]); (eapply Ho; [eassumption|]); simpl; set_solver.
  - intros i f e Hf He. destruct (ops_after _ _ _ _ _ Hst Hf) as [Hold|[Hnew _]]; [etrans; [eauto|lia]|].
    etrans; [|exact Hnow].
    destruct Hnew as [p k|p k v ttl cond n|p k|p ns|i oc p k raw st Hop _|i oc k e' ttl cond n Hop]; simpl in He.
    + apply elem_of_app in He as [He|He]; [|set_solver].
      destruct (tget (w_now w) k (w_l1 w p)).1 as [e1|] eqn:Hg; [|set_solver].
      apply list_elem_of_singleton in He as ->. destruct (tget_spec _ _ _ _ Hg) as (x&Hv&_). by apply H1 in Hv as [? _].
    + apply list_elem_of_singleton in He as ->. done.
    + apply list_elem_of_singleton in He as ->. done.
    + set_solver.
    + apply elem_of_app in He as [He|He]; [eapply Ho; [exact Hop|]; simpl; set_solver|].
      destruct (valkey_get oc (w_now w) k (w_l2 w)) as [e2|] eqn:Hg; [|set_solver].
      apply list_elem_of_singleton in He as ->. eauto.
    + eapply Ho; [exact Hop|]. done.
  - intros i f Hf. destruct (ops_after _ _ _ _ _ Hst Hf) as [Hold|[_ [?|[g Hg]]]];
      [specialize (Hx i f Hold); lia|done|specialize (Hx i g Hg); lia].
Qed.
(** ** Invalidation of a key *)

Section cleared.
Context (k : string) (v : A) (c E : Z).

(** Written at or after the clear, and not the cleared value. *)
Definition good (e : ev_envelope A) : Prop := c <= ev_ver e /\ ev_val e <> Some v.
(** Left over from before the clear, in a first tier until [E]. *)
Definition stale (e : ev_envelope A) (x : option Z) : Prop := ev_ver e <= c /\ exists t, x = Some t /\ t <= E.

Definition op_touches (f : inflight) : bool :=
  match f with
  | FGet _ k' _ _ _ | FSet k' _ _ _ _ | FClear k' _ => k' ==s k
  | FClearNs ns => in_namespace ns k
  end.
Definition idle (w : tworld) : Prop := forall i f, w_ops w !! i = Some f -> op_touches f = false.

(** Events that start nothing on the key. *)
Definition untouched (ev : tevent) : bool :=
  match ev with
  | EGet _ k' | ESet _ k' _ _ _ | EClear _ k' => negb (k' ==s k)
  | EClearNs _ ns => negb (in_namespace ns k)
  | _ => true
  end.

(** Events after the clear: reads answered by the second tier, no eviction and no
    namespace clear of the key there, and no write of the value, nor of another with
    a life shorter than that of the tombstone. *)
Definition harmless (ev : tevent) : Prop :=
  match ev with
  | EL2Evict k' => k' <> k
  | ESet _ k' v' ttl _ => k' = k -> v' <> v /\ from_option (fun d => cap <= d) True ttl
  | EClearNs _ ns => in_namespace ns k = false
  | ENext _ oc => oc = Answered
  | _ => True
  end.

(** Until the tombstone is in the second tier: of the operations on the key only
    the clear [id] is in flight. *)
Record waiting (id : option nat) (w : tworld) : Prop := {
  q_l1 : forall q e x, tview (w_l1 w q) k = Some (e, x) -> good e \/ stale e x;
  q_ops : forall i f, w_ops w !! i = Some f -> op_touches f = true -> id = Some i /\ f = FClear k (Tombstone c);
}.

Lemma key_waiting_step ev id w w' :
  tstep ev w = Some w' -> untouched ev = true -> (forall i oc, ev = ENext i oc -> id <> Some i) ->
  waiting id w -> waiting id w'.
Proof.
  intros Hst Hu Hid [H1 Ho]. constructor.
  - intros q e x Hv. destruct (l1_after _ _ _ _ _ _ _ Hst Hv) as [Hold|Hnew]; [eauto|].
    destruct Hnew as [v' ttl cond| |i oc raw st o v' e Hop Hg]; simpl in Hu; [by rewrite String.eqb_refl in Hu..|].
    exfalso. destruct (Ho i _ Hop) as [_ ?]; [apply String.eqb_refl|done].
  - intros i f Hf Ht. destruct (ops_after _ _ _ _ _ Hst Hf) as [Hold|[Hnew _]]; [eauto|]. exfalso.
    destruct Hnew as [p k'|p k' v' ttl cond n|p k'|p ns|i oc p k' raw st Hop _|i oc k' e' ttl cond n Hop];
      simpl in *; try (by rewrite Ht in Hu).
    + by destruct (Ho i _ Hop Ht) as [_ ?].
    + by destruct (Ho i _ Hop Ht) as [_ ?].
Qed.

Lemma waiting_run es id w w' :
  trun es w = Some w' -> Forall (fun ev => untouched ev = true /\ forall i oc, ev = ENext i oc -> id <> Some i) es ->
  waiting id w -> waiting id w' /\ w_now w <= w_now w'.
Proof.
  intros Hrun Hes. revert w Hrun. induction Hes as [|ev es [Hu Hid] _ IH]; intros w Hrun Hw; simpl in Hrun.
  - simplify_eq. split; [done|lia].
  - destruct (tstep ev w) as [w1|] eqn:Hst; simpl in Hrun; [|done].
    destruct (log_after _ _ _ Hst) as (?&_&_).
    destruct (IH w1 Hrun) as [? ?]; [by eapply key_waiting_step|]. split; [done|lia].
Qed.

Definition get_ok (raw : option (ev_envelope A)) (st : Z) (reply : option (option (ev_envelope A))) : Prop :=
  (forall e, raw = Some e -> good e \/ ev_ver e <= c /\ st <= E) /\
  match reply with
  | None => True
  | Some (Some e2) => good e2
  | Some None => forall e, raw = Some e -> good e
  end.

Definition op_ok (f : inflight) : Prop :=
  match f with
  | FGet _ k' raw st reply => k' = k -> get_ok raw st reply
  | FSet k' e ttl _ _ => k' = k -> good e /\ from_option (fun d => cap <= d) True ttl
  | FClear k' e => k' = k -> good e
  | FClearNs ns => in_namespace ns k = false
  end.

(** After the clear: what is left of before in the first tiers dies before the
    second tier can forget the tombstone, or what replaced it. *)
Record cleared (base : list (string * option A)) (w : tworld) : Prop := {
  c_now : c <= w_now w /\ E + lag < w_now w + cap;
  c_l1 : forall q e x, tview (w_l1 w q) k = Some (e, x) -> good e \/ stale e x;
  c_l2 : forall e x, w_l2 w !! k = Some (e, x) -> good e;
  c_guard : w_now w <= E + lag -> exists e x, w_l2 w !! k = Some (e, x) /\ from_option (fun t => E + lag < t) True x;
  c_ops : forall i f, w_ops w !! i = Some f -> op_ok f;
  c_log : exists new, w_log w = new ++ base /\ (k, Some v) ∉ new;
}.

(** The result of a read of the key, and what it leaves in the first tier. *)
Lemma tiered_get_good raw st o v' rf :
  get_ok raw st (Some o) -> tiered_get false raw (L2Reply o) = GetReturns v' rf ->
  v' <> Some v /\ forall e, rf = Some e -> good e.
Proof.
  intros [Hraw Hrep] Hg. unfold tiered_get in Hg. unfold good, ev_tomb in *.
  destruct o as [e2|].
  - destruct raw as [e1|].
    + destruct (Z.leb_spec (ev_ver e1) (ev_ver e2)) as [|Hlt].
      * destruct e2; simpl in *; [|destruct (ev_parse e1) as [[? ?] []]|]; simplify_eq/=;
          (split; [by try apply Hrep|]); intros e He; simplify_eq/=; done.
      * destruct (Hraw e1 eq_refl) as [[Hc Hv]|[? _]]; [|destruct Hrep; lia].
        destruct e1; simpl in *; simplify_eq/=; done.
    + destruct e2; simpl in *; simplify_eq/=; (split; [by try apply Hrep|]); intros e He; simplify_eq/=; done.
  - simplify_eq. split; [|done]. destruct raw as [e1|]; [|done].
    destruct (Hrep e1 eq_refl) as [_ Hv]. destruct e1; done.
Qed.

Lemma good_wrap n v' : c <= n -> v' <> v -> good (Wrap n v').
Proof. intros ? ?. split; [done|]. unfold ev_val. simpl. congruence. Qed.

Lemma cleared_l1 ev base w w' :
  tstep ev w = Some w' -> harmless ev -> cleared base w ->
  forall q e x, tview (w_l1 w' q) k = Some (e, x) -> good e \/ stale e x.
Proof.
  intros Hst Hh [[Hc _] H1 H2 Hg Ho _] q e x Hv. destruct (l1_after _ _ _ _ _ _ _ Hst Hv) as [Hold|Hnew]; [eauto|].
  left. destruct Hnew as [v' ttl cond| |i oc raw st o v' e Hop Hget]; simpl in Hh.
  - destruct (Hh eq_refl) as [Hne _]. by apply good_wrap.
  - split; [done|]. done.
  - eapply tiered_get_good; [|exact Hget|done]. by apply (Ho _ _ Hop).
Qed.

Lemma cleared_l2 ev base w w' :
  tstep ev w = Some w' -> harmless ev -> cleared base w ->
  (forall e x, w_l2 w' !! k = Some (e, x) -> good e) /\
  (w_now w' <= E + lag -> exists e x, w_l2 w' !! k = Some (e, x) /\ from_option (fun t => E + lag < t) True x).
Proof.
  intros Hst Hh [[Hc Hcap] H1 H2 Hg Ho _]. destruct (log_after _ _ _ Hst) as (Hnow&_&_).
  destruct (l2_after _ _ _ k Hst) as [->|Hnew].
  { split; [done|]. intros ?. apply Hg. lia. }
  assert (Hset : forall e x, good e -> from_option (fun t => E + lag < t) True x ->
    (forall e' x', Some (e, x) = Some (e', x') -> good e') /\
    (w_now w' <= E + lag -> exists e' x', Some (e, x) = Some (e', x') /\ from_option (fun t => E + lag < t) True x')).
  { intros e x Hge Hx. split; [intros; by simplify_eq|eauto]. }
  destruct (w_l2 w' !! k) as [pr|]; inversion Hnew; subst; simpl in Hh.
  - destruct (Ho _ _ ltac:(eassumption) eq_refl) as [Hge Httl]. apply Hset; [done|].
    destruct ttl as [d|]; simpl in *; [lia|done].
  - apply Hset; [by apply (Ho _ _ ltac:(eassumption))|]. simpl. lia.
  - done.
  - match goal with H : w_ops w !! _ = Some (FClearNs _) |- _ => apply Ho in H; simpl in H; congruence end.
Qed.

Lemma cleared_ops ev base w w' :
  tstep ev w = Some w' -> harmless ev -> cleared base w -> forall i f, w_ops w' !! i = Some f -> op_ok f.
Proof.
  intros Hst Hh [[Hc Hcap] H1 H2 Hg Ho _] i f Hf.
  destruct (ops_after _ _ _ _ _ Hst Hf) as [Hold|[Hnew _]]; [eauto|].
  destruct Hnew as [p k'|p k' v' ttl cond n|p k'|p ns|i oc p k' raw st Hop Hlag|i oc k' e' ttl cond n Hop]; simpl in Hh |- *.
  - intros ->. split; [|done]. intros e He. destruct (tget_spec _ _ _ _ He) as (x&Hv&Hx).
    destruct (H1 _ _ _ Hv) as [|(?&t&->&?)]; [by left|right]. simpl in Hx. lia.
  - intros ->. destruct (Hh eq_refl) as [Hne Httl]. split; [|done]. by apply good_wrap.
  - intros ->. by split.
  - done.
  - intros ->. destruct (Ho _ _ Hop eq_refl) as [Hraw _]. split; [done|]. subst oc. specialize (Hlag eq_refl).
    destruct (valkey_get Answered (w_now w) k (w_l2 w)) as [e2|] eqn:Hget.
    + apply valkey_get_from in Hget as [x Hx]. eauto.
    + intros e He. destruct (Hraw e He) as [|[_ Hst']]; [done|]. destruct Hg as (e2&x&Hl2&Hx); [lia|].
      simpl in Hget. unfold server_get, live in Hget. rewrite Hl2 in Hget. simpl in Hget.
      destruct x as [t|]; simpl in *; [|done]. destruct (Z.ltb_spec (w_now w) t); [done|lia].
  - apply (Ho _ _ Hop).
Qed.

Lemma cleared_step ev base w w' :
  tstep ev w = Some w' -> harmless ev -> cleared base w -> cleared base w'.
Proof.
  intros Hst Hh Hc. destruct (log_after _ _ _ Hst) as (Hnow&_&Hlog).
  destruct (cleared_l2 _ _ _ _ Hst Hh Hc) as [H2 Hg]. constructor.
  - destruct Hc as [[? ?] _ _ _ _ _]. lia.
  - by eapply cleared_l1.
  - done.
  - done.
  - by eapply cleared_ops.
  - destruct (c_log _ _ Hc) as (new&Hn&Hni). destruct Hlog as [->|(k'&v'&Hnl&->)]; [eauto|].
    exists ((k', v') :: new). split; [by rewrite Hn|].
    intros [Heq|?]%elem_of_cons; [|done]. destruct Hnl as [i oc q k'' raw st o v'' rf Hop Hget]. simplify_eq.
    by destruct (tiered_get_good _ _ _ _ _ (c_ops _ _ Hc _ _ Hop eq_refl) Hget) as [? _].
Qed.

Lemma cleared_run es base w w' :
  trun es w = Some w' -> Forall harmless es -> cleared base w -> cleared base w'.
Proof.
  intros Hrun Hes. revert w Hrun. induction Hes as [|ev es Hh _ IH]; intros w Hrun Hw; simpl in Hrun; [by simplify_eq|].
  destruct (tstep ev w) as [w1|] eqn:Hst; simpl in Hrun; [|done]. eapply IH; [done|]. by eapply cleared_step.
Qed.

(** The tombstone reaches the second tier. *)
Lemma waiting_cleared id w w' :
  waiting (Some id) w -> w_ops w !! id = Some (FClear k (Tombstone c)) ->
  c <= w_now w -> E + lag < w_now w + cap ->
  tstep (ENext id Answered) w = Some w' -> cleared (w_log w') w'.
Proof.
  intros [H1 Ho] Hid Hc Hcap Hst. simpl in Hst. rewrite Hid in Hst. simpl in Hst. simplify_eq. constructor; simpl.
  - lia.
  - done.
  - intros e x Hk. rewrite lookup_insert_eq in Hk. simplify_eq. by split.
  - intros _. eexists _, _. split; [by rewrite lookup_insert_eq|]. simpl. lia.
  - intros i f [Hne Hf]%lookup_delete_Some. destruct (op_touches f) eqn:Ht.
    + destruct (Ho _ _ Hf Ht) as [? _]. congruence.
    + destruct f; simpl in *; try done; bool_hyps; congruence.
  - exists []. split; [done|set_solver].
Qed.
End cleared.

(** ** The theorem *)

(** Nothing cached in the pods, nothing in flight, and no version of the second
    tier ahead of the clock. *)
Definition fresh_world (w : tworld) : Prop :=
  0 <= w_now w /\ (forall q k, tview (w_l1 w q) k = None) /\ w_ops w = ∅ /\
  (forall k e x, w_l2 w !! k = Some (e, x) -> ev_ver e <= w_now w).

Lemma fresh_aged w : fresh_world w -> aged w.
Proof.
  intros (Hn&H1&Ho&H2). constructor; [done| |done| |].
  - intros q k e x Hv. by rewrite H1 in Hv.
  - intros i f e Hf. by rewrite Ho in Hf.
  - intros i f Hf. by rewrite Ho in Hf.
Qed.

Lemma aged_run es w w' : trun es w = Some w' -> aged w -> aged w' /\ w_now w <= w_now w'.
Proof.
  revert w. induction es as [|ev es IH]; intros w Hrun Hw; simpl in Hrun; [simplify_eq; split; [done|lia]|].
  destruct (tstep ev w) as [w1|] eqn:Hst; simpl in Hrun; [|done]. destruct (log_after _ _ _ Hst) as (?&_&_).
  destruct (IH w1 Hrun) as [? ?]; [by eapply aged_step|]. split; [done|lia].
Qed.
(** An operation stays in flight until its own next step. *)
Lemma op_persists ev w w' i f :
  tstep ev w = Some w' -> (forall oc, ev <> ENext i oc) -> (i < w_next w)%nat ->
  w_ops w !! i = Some f -> w_ops w' !! i = Some f.
Proof.
  intros Hst Hev Hi Hf.
  assert (Hsp : forall g w1, w_next w1 = w_next w -> w_ops w1 = w_ops w -> w_ops (spawn g w1) !! i = Some f).
  { intros g w1 Hn Ho. simpl. rewrite lookup_insert_ne by lia. by rewrite Ho. }
  destruct ev as [d|p o|k'|p k'|p k' v ttl cond|p k'|p ns|j oc]; simpl in Hst.
  - by simplify_eq.
  - destruct (tother o (w_l1 w p)); by simplify_eq/=.
  - by simplify_eq/=.
  - destruct (tget _ _ _) as [r t]. simplify_eq. by apply Hsp.
  - unfold tiered_set in Hst. destruct (tset _ _ _ _ _ _) as [[b t]|]; simpl in Hst; [|done].
    destruct (_ && _); simplify_eq; [by apply Hsp|done].
  - unfold tiered_clear in Hst. destruct (tset _ _ _ _ _ _) as [[b t]|]; simplify_eq/=. by apply Hsp.
  - simplify_eq. by apply Hsp.
  - assert (Hij : j <> i) by (intros ->; by apply (Hev oc)).
    destruct (w_ops w !! j) as [g|] eqn:Hg; simpl in Hst; [|done].
    destruct g as [p k' raw st [o|]|k' e' ttl cond n|k' e'|ns]; simpl in Hst.
    + destruct (tiered_get false raw (L2Reply o)) as [|vv rf]; [simplify_eq; simpl; by rewrite lookup_delete_ne|].
      destruct (refresh_l1 p k' rf w) as [w1|] eqn:Hr; simplify_eq/=. rewrite lookup_delete_ne by done.
      by apply refresh_inv in Hr as [[-> _]|(e1&t&_&_&->)].
    + destruct oc; [destruct (_ <=? _)|..]; simplify_eq; simpl; by rewrite lookup_insert_ne.
    + destruct (valkey_set _ _ _ _ _ _ _) as [ok m]. destruct (_ || _); simplify_eq; simpl;
        [by rewrite lookup_delete_ne|by rewrite lookup_insert_ne].
    + simplify_eq. simpl. by rewrite lookup_delete_ne.
    + simplify_eq. simpl. by rewrite lookup_delete_ne.
Qed.

Lemma op_persists_run es w w' i f :
  trun es w = Some w' -> Forall (fun ev => forall oc, ev <> ENext i oc) es -> (i < w_next w)%nat ->
  w_ops w !! i = Some f -> w_ops w' !! i = Some f.
Proof.
  intros Hrun Hes. revert w Hrun. induction Hes as [|ev es Hev _ IH]; intros w Hrun Hi Hf; simpl in Hrun; [by simplify_eq|].
  destruct (tstep ev w) as [w1|] eqn:Hst; simpl in Hrun; [|done]. destruct (log_after _ _ _ Hst) as (_&?&_).
  eapply IH; [done|lia|]. by eapply op_persists.
Qed.

(** The first half of a clear: the key is as before but for the tombstone. *)
Lemma waiting_clear k v E p w w' :
  aged w -> waiting k v (w_now w) E None w -> tstep (EClear p k) w = Some w' ->
  waiting k v (w_now w) E (Some (w_next w)) w' /\ w_now w' = w_now w /\
  w_next w' = S (w_next w) /\ w_ops w' !! w_next w = Some (FClear k (Tombstone (w_now w))).
Proof.
  intros Ha [H1 Ho] Hst. split; [constructor|].
  - intros q e x Hv. destruct (l1_after _ _ _ _ _ _ _ Hst Hv) as [Hold|Hnew]; [eauto|].
    inversion Hnew; subst. left. split; [done|]. done.
  - intros i f Hf Ht. destruct (ops_after _ _ _ _ _ Hst Hf) as [Hold|[Hnew _]].
    + by destruct (Ho _ _ Hold Ht) as [? _].
    + by inversion Hnew.
  - simpl in Hst. unfold tiered_clear in Hst. destruct (tset _ _ _ _ _ _) as [[b t]|]; simplify_eq/=.
    by rewrite lookup_insert_eq.
Qed.

(** C25: a key is invalidated by one pod while no operation on it is in flight, its
    last use more than [lag] ago, and the tombstone reaches the second tier.  From
    then on no read of the key, on any pod and however reads, writes with retries,
    clears, local evictions and expiries interleave, returns the invalidated value
    unless it is written again, provided reads are answered by the second tier, the
    second tier does not evict the key and no new value of the key has a life
    shorter than the cap of the first tier. *)
Theorem cleared_value_never_returns (k : string) (v : A) (p : nat) (es0 es1 es2 es3 : list tevent)
    (w0 w1 w2 w3 w4 w5 w6 : tworld) :
  fresh_world w0 ->
  trun es0 w0 = Some w1 -> idle k w1 ->
  trun es1 w1 = Some w2 -> Forall (fun ev => untouched k ev = true) es1 -> w_now w1 + lag < w_now w2 ->
  tstep (EClear p k) w2 = Some w3 ->
  trun es2 w3 = Some w4 ->
  Forall (fun ev => untouched k ev = true /\ forall oc, ev <> ENext (w_next w2) oc) es2 ->
  tstep (ENext (w_next w2) Answered) w4 = Some w5 ->
  trun es3 w5 = Some w6 -> Forall (harmless k v) es3 ->
  exists new, w_log w6 = new ++ w_log w5 /\ (k, Some v) ∉ new.
Proof.
  intros Hf H0 Hidle H1 Hu1 Hlag Hcl H2 Hu2 Hnx H3 Hh.
  destruct (aged_run _ _ _ H0 (fresh_aged _ Hf)) as [Ha1 _].
  destruct (aged_run _ _ _ H1 Ha1) as [Ha2 Hn12].
  assert (Hw1 : waiting k v (w_now w2) (w_now w1 + cap) None w1).
  { constructor.
    - intros q e x Hv. right. destruct (a_l1 _ Ha1 _ _ _ _ Hv) as [? Ht]. split; [lia|done].
    - intros i f Hi Ht. by rewrite (Hidle i f Hi) in Ht. }
  assert (Hw2 : waiting k v (w_now w2) (w_now w1 + cap) None w2).
  { eapply waiting_run; [exact H1| |exact Hw1]. eapply Forall_impl; [exact Hu1|]. intros ev Hev. by split. }
  destruct (waiting_clear _ _ _ _ _ _ Ha2 Hw2 Hcl) as (Hw3&Hn3&Hnx3&Hop3).
  assert (waiting k v (w_now w2) (w_now w1 + cap) (Some (w_next w2)) w4 /\ w_now w3 <= w_now w4) as [Hw4 Hn34].
  { eapply waiting_run; [exact H2| |exact Hw3]. eapply Forall_impl; [exact Hu2|]. intros ev [? Hev].
    split; [done|]. intros i oc -> ?. simplify_eq. by eapply Hev. }
  assert (Hop4 : w_ops w4 !! w_next w2 = Some (FClear k (Tombstone (w_now w2)))).
  { eapply op_persists_run; [exact H2| |lia|exact Hop3]. eapply Forall_impl; [exact Hu2|naive_solver]. }
  eapply c_log, cleared_run; [exact H3|exact Hh|].
  eapply waiting_cleared; [exact Hw4|exact Hop4|lia|lia|exact Hnx].
Qed.
End tiered.

(** ** The local backend as first tier *)

Section local_tier.
Context {A : Type} (size_of : ev_envelope A -> Z) (budget : option Z) (j : nat).
Abbreviation store := (l1_state (V := ev_envelope A)).

#[export, refine] Instance local_tier : CacheTier A store := {|
  tview := lt_view j;
  tget := lt_get j;
  tset := lt_set size_of budget j;
  tclear_ns := lt_clear_ns j;
  tother_op := l1_op (V := ev_envelope A);
  tother := lt_other size_of budget j;
|}.
Proof.
  - intros now k s e. apply lt_get_live.
  - intros now k s k' p. apply lt_get_sub.
  - intros now k e ttl cond s s' k' p. apply lt_set_entries.
  - intros now k e ttl cond s s' k' p Hs. by eapply lt_set_rejected.
  - intros now k e ttl s s' [] Hs; [done|]. by destruct (lt_set_rejected _ _ _ _ _ _ _ _ _ _ k (e, None) Hs) as [? _].
  - intros ns s k p. apply lt_clear_ns_sub.
  - intros o s s' k p. apply lt_other_sub.
Defined.
End local_tier.

(** ** Witness *)

Definition demo_env_size (e : ev_envelope string) : Z := 1.
#[local] Instance demo_tier : CacheTier string (l1_state (V := ev_envelope string)) := local_tier demo_env_size (Some 100) 0.
Definition pods0 (q : nat) : l1_state (V := ev_envelope string) := mkL1 [mkBackend [] 8 0 false; mkBackend [] 8 0 false] 0.
Abbreviation demo_state := (tworld (A := string) (T := l1_state (V := ev_envelope string))).
Abbreviation demo_event := (tevent (A := string) (T := l1_state (V := ev_envelope string))).
Definition demo_world : demo_state := mkTWorld 100 pods0 ∅ ∅ 0 [].

(** Two pods cache a value, a third operation evicts elsewhere; one pod clears. *)
Definition demo_before : list demo_event := [ESet 0 "k" "old" (Some 300) None; ENext 0 Lost; ENext 0 Answered;
  EWait 1; EGet 1 "k"; ENext 1 Answered; ENext 1 Answered].
Definition demo_after : list demo_event := [EGet 1 "k"; EWait 3; ENext 3 Answered; ENext 3 Answered;
  ESet 0 "k" "new" None None; EGet 1 "k"; ENext 4 Answered; ENext 5 Answered; ENext 5 Answered; EWait 40;
  EGet 0 "k"; ENext 6 Answered; ENext 6 Answered].

Definition demo_run : list demo_event -> demo_state -> option demo_state := trun 30 5 3.
Definition demo_get (o : option demo_state) : demo_state := from_option id demo_world o.
Definition demo_w1 : demo_state := demo_get (demo_run demo_before demo_world).
Definition demo_w2 : demo_state := demo_get (demo_run [EWait 6] demo_w1).
Definition demo_w3 : demo_state := demo_get (tstep 30 5 3 (EClear 0 "k") demo_w2).
Definition demo_w5 : demo_state := demo_get (tstep 30 5 3 (ENext 2 Answered) demo_w3).
Definition demo_w6 : demo_state := demo_get (demo_run demo_after demo_w5).

Lemma demo_some (o : option demo_state) : (if o then true else false) = true -> o = Some (demo_get o).
Proof. by destruct o. Qed.

Lemma cleared_value_never_returns_witness :
  w_log demo_w6 = [("k", Some "new"); ("k", Some "new"); ("k", None); ("k", Some "old")] /\
  exists new, w_log demo_w6 = new ++ w_log demo_w5 /\ ("k", Some "old") ∉ new.
Proof.
  split; [vm_compute; reflexivity|].
  eapply (cleared_value_never_returns 30 5 3 "k" "old" 0 demo_before [EWait 6] [] demo_after
            demo_world demo_w1 demo_w2 demo_w3 demo_w3 demo_w5 demo_w6).
  - split_and!; [vm_compute; congruence|done|done|done].
  - apply demo_some. vm_compute. reflexivity.
  - intros i f Hf. replace (w_ops demo_w1) with (∅ : gmap nat (inflight (A := string))) in Hf by (vm_compute; reflexivity).
    done.
  - apply demo_some. vm_compute. reflexivity.
  - by repeat constructor.
  - vm_compute. reflexivity.
  - apply demo_some. vm_compute. reflexivity.
  - done.
  - constructor.
  - apply demo_some. vm_compute. reflexivity.
  - apply demo_some. vm_compute. reflexivity.
  - repeat constructor; simpl; auto; done.
Defined.
