(* ===== verification/Cached.v ===== *)
(** * The [cached] decorator

    [cached] of [tools/cache.py] over a local backend: the keys of calls, the
    stale-grace record, the shared rebuild of a missing key ([_await_shared_rebuild])
    and the clears of a decorated function, of both tiers.

    [F k t] is what the decorated function returns when a call with key [k]
    completes at time [t]; it may also raise.  The unit of time is a tenth of a
    second.  [digest] is the hexadecimal SHA-256. *)

From S2P Require Import Prelude LocalCache TieredCache.

(** ** Keys *)

Section keys.
Context (digest : string -> string).

(** [parts] are the representations of the arguments that are not ignored. *)
Definition make_cache_key (ns : string) (parts : list string) : string :=
  let raw := String.concat "|" (ns :: parts) in
  if (200 <? String.length raw)%nat then digest raw else raw.

Definition key_prefix (grace : Z) : string := if 0 <? grace then "sv1|" else "".
Definition build_key (grace : Z) (ns : string) (parts : list string) : string :=
  key_prefix grace +:+ make_cache_key ns parts.

(** ** Clearing a decorated function *)

(** An async function over a local backend drops everything, over two tiers it
    clears a namespace of both; a sync function clears a namespace of its own
    backend. *)
Definition async_cache_clear_local {V} (b : backend (V := V)) : backend := (local_clear ClearAll b).2.
Definition async_cache_clear_namespace (grace : Z) (ns : string) : string := key_prefix grace +:+ ns.
Definition sync_cache_clear {V} (ns : string) (b : backend (V := V)) : bool * backend :=
  local_clear (ClearNamespace ns) b.

(** [cache_clear_prefix] over a local backend. *)
Definition cache_clear_prefix_local {V} (grace : Z) (sub_ns : string) (b : backend (V := V)) : backend :=
  fold_left (fun b k => (local_drop k b).2)
    (List.filter (fun k => String.prefix ((key_prefix grace +:+ sub_ns) +:+ "|") k) (map fst (b_store b))) b.
End keys.

(** ** Stale-grace records *)

Section stale.
Context {V : Type}.

Inductive stored : Type := Plain (v : V) | StaleWrap (at_ ttl : Z) (v : V).

(** The value, and whether its logical life is over. *)
Definition stale_unwrap (now : Z) (w : stored) : stored * bool :=
  match w with
  | Plain v => (Plain v, false)
  | StaleWrap at_ ttl v => (Plain v, ttl <? now - at_)
  end.
End stale.
Arguments stored : clear implicits.

(** ** Calls *)

(** [distributed] with [max_distributed_ttl], in tenths of a second. *)
Definition DEFAULT_MAX_DISTRIBUTED_TTL : Z := 36000.
Inductive dist_cap : Type := LocalOnly | CapDefault | CapAt (d : Z) | CapInfinite.
Definition effective_cap (c : dist_cap) : option Z :=
  match c with
  | LocalOnly | CapInfinite => None
  | CapDefault => Some DEFAULT_MAX_DISTRIBUTED_TTL
  | CapAt d => Some d
  end.

Section calls.
Context {V : Type} (size_of : stored V -> Z) (budget : option Z) (j : nat).
Context (grace : Z) (ttl : option Z) (cap : dist_cap) (jitter : Z) (condition : stored V -> bool) (F : string -> Z -> V).
Abbreviation store := (l1_state (V := stored V)).

(** [_resolve_ttl]: the draw [u] lies within the jitter; without a time to live a
    distributed function has the cap, unless the cap is infinite. *)
Definition resolve_ttl (u : Z) : option Z :=
  match ttl with
  | None => effective_cap cap
  | Some t => Some (if jitter =? 0 then t else Z.max 1 (t + u))
  end.

(** A read of the cache: fresh, stale or nothing; an entry the condition rejects is
    dropped. *)
Inductive read_result : Type := Fresh (w : stored V) | Candidate (w : stored V) | Missing.
Definition cached_read (now : Z) (k : string) (s : store) : read_result * store :=
  match lt_get j now k s with
  | (None, s) => (Missing, s)
  | (Some raw, s) =>
      let (w, is_stale) := if 0 <? grace then stale_unwrap now raw else (raw, false) in
      if is_stale then (Candidate w, s)
      else if condition w then (Fresh w, s)
      else (Missing, lt_drop j k s)
  end.

(** A caller that waits for the rebuild of its key, since when, and the stale value
    it can fall back on. *)
Record waiter : Type := mkWaiter { wt_key : string; wt_since : Z; wt_stale : option (stored V) }.
Inductive served : Type := Value (w : stored V) | Raised.
Record reply : Type := mkReply { rp_key : string; rp_since : Z; rp_now : Z; rp_degraded : bool; rp_out : served }.

(** [cw_rebuilds]: the rebuild task per key, and whether it is running the function. *)
Record cworld : Type := mkCWorld {
  cw_now : Z;
  cw_store : store;
  cw_rebuilds : gmap string bool;
  cw_waiting : list waiter;
  cw_log : list reply;
}.

Inductive cevent : Type :=
| CTick (d : nat)
| CCall (k : string)
| CLocked (k : string)
| CDone (k : string) (ok : bool) (u : Z)
| CGiveUp (i : nat)
| CInvalidate (k : string)
| CClear
| COther (o : l1_op (V := stored V)).

(** A caller whose rebuild failed or took too long. *)
Definition fall_back (now : Z) (w : waiter) : reply :=
  mkReply (wt_key w) (wt_since w) now true (match wt_stale w with Some v => Value v | None => Raised end).

(** The rebuild of [k] ends: its callers get the result. *)
Definition finish (k : string) (out : served) (s : store) (c : cworld) : cworld :=
  let mine := List.filter (fun w => wt_key w ==s k) (cw_waiting c) in
  let others := List.filter (fun w => negb (wt_key w ==s k)) (cw_waiting c) in
  let answer w := match out with
                  | Raised => fall_back (cw_now c) w
                  | Value _ => mkReply (wt_key w) (wt_since w) (cw_now c) false out
                  end in
  mkCWorld (cw_now c) s (delete k (cw_rebuilds c)) others (map answer mine ++ cw_log c).

(** What the function returned, written to the cache unless the condition rejects it. *)
Definition store_result (now : Z) (k : string) (u : Z) (s : store) : option store :=
  let v := F k now in
  if condition (Plain v) then
    '(_, s) ← match resolve_ttl u with
              | Some t =>
                  if 0 <? grace then lt_set size_of budget j now k (StaleWrap now t v) (Some (t + grace)) None s
                  else lt_set size_of budget j now k (Plain v) (Some t) None s
              | None => lt_set size_of budget j now k (Plain v) None None s
              end;
    Some s
  else Some s.

(** [None]: not enabled, or the backend raised. *)
Definition cstep (ev : cevent) (c : cworld) : option cworld :=
  match ev with
  | CTick d => Some (mkCWorld (cw_now c + Z.of_nat d) (cw_store c) (cw_rebuilds c) (cw_waiting c) (cw_log c))
  | CCall k =>
      let wait stale s :=
        let rs := match cw_rebuilds c !! k with Some r => cw_rebuilds c | None => <[k := false]> (cw_rebuilds c) end in
        Some (mkCWorld (cw_now c) s rs (cw_waiting c ++ [mkWaiter k (cw_now c) stale]) (cw_log c)) in
      match cached_read (cw_now c) k (cw_store c) with
      | (Fresh w, s) =>
          Some (mkCWorld (cw_now c) s (cw_rebuilds c) (cw_waiting c)
                  (mkReply k (cw_now c) (cw_now c) false (Value w) :: cw_log c))
      | (Candidate w, s) => wait (Some w) s
      | (Missing, s) => wait None s
      end
  | CLocked k =>
      match cw_rebuilds c !! k with
      | Some false =>
          match cached_read (cw_now c) k (cw_store c) with
          | (Fresh w, s) => Some (finish k (Value w) s c)
          | (_, s) => Some (mkCWorld (cw_now c) s (<[k := true]> (cw_rebuilds c)) (cw_waiting c) (cw_log c))
          end
      | _ => None
      end
  | CDone k ok u =>
      match cw_rebuilds c !! k with
      | Some true =>
          if (- jitter <=? u) && (u <=? jitter) then
            if ok then
              s ← store_result (cw_now c) k u (cw_store c);
              Some (finish k (Value (Plain (F k (cw_now c)))) s c)
            else Some (finish k Raised (cw_store c) c)
          else None
      | _ => None
      end
  | CGiveUp i =>
      w ← cw_waiting c !! i;
      Some (mkCWorld (cw_now c) (cw_store c) (cw_rebuilds c) (delete i (cw_waiting c))
              (fall_back (cw_now c) w :: cw_log c))
  | CInvalidate k => Some (mkCWorld (cw_now c) (lt_drop j k (cw_store c)) (cw_rebuilds c) (cw_waiting c) (cw_log c))
  | CClear =>
      b ← l1_backends (cw_store c) !! j;
      Some (mkCWorld (cw_now c) (put_backend j b (async_cache_clear_local b) (cw_store c))
              (cw_rebuilds c) (cw_waiting c) (cw_log c))
  | COther o =>
      s ← lt_other size_of budget j o (cw_store c);
      Some (mkCWorld (cw_now c) s (cw_rebuilds c) (cw_waiting c) (cw_log c))
  end.

Definition crun (es : list cevent) (c : cworld) : option cworld :=
  fold_left (fun oc ev => c ← oc; cstep ev c) es (Some c).
(** ** Age of what is served *)

(** The longest time to live, if there is one. *)
Definition ttl_max : option Z :=
  match ttl with
  | None => effective_cap cap
  | Some t => Some (if jitter =? 0 then t else Z.max 1 (t + jitter))
  end.
Definition within (d : option Z) (x : Z) : Prop := match d with Some d => x <= d | None => True end.
Definition plus_grace (d : option Z) : option Z := option_map (Z.add grace) d.

(** [w] is what the function returned for [k] at most [d] before [now]. *)
Definition aged_at_most (d : option Z) (now : Z) (k : string) (w : stored V) : Prop :=
  exists a, w = Plain (F k a) /\ a <= now /\ within d (now - a).

Definition entry_fine (now : Z) (k : string) (e : stored V * option Z) : Prop :=
  match e.1 with
  | StaleWrap a t v => 0 < grace /\ v = F k a /\ a <= now /\ within ttl_max t /\ e.2 = Some (a + (t + grace))
  | Plain v =>
      exists a, v = F k a /\ a <= now /\
      (ttl_max = None \/ grace <= 0 /\ exists t, within ttl_max t /\ e.2 = Some (a + t))
  end.
Definition store_fine (now : Z) (s : store) : Prop := forall k e, lt_view j s k = Some e -> entry_fine now k e.

Definition waiter_fine (now : Z) (w : waiter) : Prop :=
  wt_since w <= now /\ forall v, wt_stale w = Some v -> aged_at_most (plus_grace ttl_max) (wt_since w) (wt_key w) v.

(** A reply is a value at most the time to live old or, when the rebuild failed or
    took too long, one that was within the grace period when the call was made; only
    a call with no such value raises. *)
Definition reply_fine (r : reply) : Prop :=
  rp_since r <= rp_now r /\
  match rp_out r with
  | Raised => rp_degraded r = true
  | Value w => if rp_degraded r then aged_at_most (plus_grace ttl_max) (rp_since r) (rp_key r) w
               else aged_at_most ttl_max (rp_now r) (rp_key r) w
  end.

Record cworld_fine (c : cworld) : Prop := {
  cf_store : store_fine (cw_now c) (cw_store c);
  cf_wait : Forall (waiter_fine (cw_now c)) (cw_waiting c);
  cf_log : Forall reply_fine (cw_log c);
}.

Lemma resolve_ttl_max u :
  u <= jitter -> match resolve_ttl u with Some t => within ttl_max t | None => ttl_max = None end.
Proof.
  unfold resolve_ttl, ttl_max. destruct ttl; [|destruct (effective_cap cap); simpl; [lia|done]].
  destruct (jitter =? 0); simpl; lia.
Qed.

Lemma within_le d x y : x <= y -> within d y -> within d x.
Proof. destruct d; simpl; [lia|done]. Qed.
Lemma within_grace d x : within d (x - grace) -> within (plus_grace d) x.
Proof. destruct d; simpl; [lia|done]. Qed.
#[local] Hint Resolve within_le within_grace : core.

Lemma store_fine_sub now s s' :
  (forall k e, lt_view j s' k = Some e -> lt_view j s k = Some e) -> store_fine now s -> store_fine now s'.
Proof. intros Hsub Hs k e He. by apply Hs, Hsub. Qed.

Lemma store_fine_mono now now' s : now <= now' -> store_fine now s -> store_fine now' s.
Proof.
  intros Hle Hs k [w x] He. specialize (Hs k _ He). unfold entry_fine in *. simpl in *. destruct w.
  - destruct Hs as (a&?&?&?). exists a. split_and!; try done; lia.
  - destruct Hs as (?&?&?&?&?). split_and!; try done; lia.
Qed.

Lemma cached_read_fine now k s r s' :
  cached_read now k s = (r, s') -> store_fine now s ->
  store_fine now s' /\
  match r with
  | Fresh w => aged_at_most ttl_max now k w
  | Candidate w => aged_at_most (plus_grace ttl_max) now k w
  | Missing => True
  end.
Proof.
  intros Hr Hs. unfold cached_read in Hr.
  pose proof (store_fine_sub now s _ (lt_get_sub j now k s) Hs) as Hs1.
  pose proof (lt_get_live j now k s) as Hlive.
  destruct (lt_get j now k s) as [[raw|] s1]; simpl in Hs1; [|by simplify_eq].
  destruct (Hlive raw eq_refl) as (x&Hv&Hx). specialize (Hs k _ Hv). unfold entry_fine in Hs. simpl in Hs.
  destruct raw as [v|a t v].
  - destruct Hs as (a&->&?&Hm).
    assert (within ttl_max (now - a)) as Hage.
    { destruct Hm as [->|(_&t&Ht&->)]; [done|]. simpl in Hx. eapply within_le, Ht. lia. }
    replace (if 0 <? grace then stale_unwrap now (Plain (F k a)) else (Plain (F k a), false))
      with (Plain (F k a), false) in Hr by (by destruct (0 <? grace)).
    destruct (condition (Plain (F k a))); simplify_eq.
    + split; [done|]. by exists a.
    + split; [|done]. by eapply store_fine_sub, Hs1; apply lt_drop_sub.
  - destruct Hs as (Hg&->&?&?&->). simpl in Hx. destruct (Z.ltb_spec 0 grace); [|lia]. simpl in Hr.
    destruct (Z.ltb_spec t (now - a)).
    + simplify_eq. split; [done|]. exists a. split_and!; [done|lia|]. apply within_grace. eapply within_le; [|done]. lia.
    + destruct (condition (Plain (F k a))); simplify_eq.
      * split; [done|]. exists a. split_and!; [done|lia|]. eapply within_le; [|done]. lia.
      * split; [|done]. by eapply store_fine_sub, Hs1; apply lt_drop_sub.
Qed.

Lemma store_result_fine now k u s s' :
  store_result now k u s = Some s' -> u <= jitter -> store_fine now s -> store_fine now s'.
Proof.
  intros Hr Hu Hs. unfold store_result in Hr. destruct (condition _); [|by simplify_eq].
  assert (Hset : forall w d,
    lt_set size_of budget j now k w d None s ≫= (fun '(_, s) => Some s) = Some s' ->
    entry_fine now k (w, option_map (fun d => now + d) d) -> store_fine now s').
  { intros w d Hset Hw. destruct (lt_set size_of budget j now k w d None s) as [[b s1]|] eqn:H1; simplify_eq/=.
    intros k' e He. destruct b.
    - destruct (lt_set_entries _ _ _ _ _ _ _ _ _ _ k' e H1 He) as [[-> ->]|[_ ?]]; [done|by apply Hs].
    - apply Hs. by eapply lt_set_rejected. }
  pose proof (resolve_ttl_max u Hu) as Ht. destruct (resolve_ttl u) as [t|].
  - destruct (Z.ltb_spec 0 grace); (eapply Hset; [exact Hr|]); unfold entry_fine; simpl.
    + split_and!; [done|done|lia|done|f_equal; lia].
    + exists now. split_and!; [done|lia|]. right. split; [done|]. by exists t.
  - eapply Hset; [exact Hr|]. exists now. split_and!; [done|simpl; lia|by left].
Qed.

Lemma fall_back_fine now w : waiter_fine now w -> reply_fine (fall_back now w).
Proof. intros [Hs Hv]. split; simpl; [done|]. destruct (wt_stale w); [by apply Hv|done]. Qed.

Lemma finish_fine k out s c :
  cworld_fine c -> store_fine (cw_now c) s ->
  (forall w, out = Value w -> aged_at_most ttl_max (cw_now c) k w) -> cworld_fine (finish k out s c).
Proof.
  intros [_ Hw Hl] Hs Hout. constructor; simpl; [done| |].
  - apply Forall_forall. intros w Hin. apply list_elem_of_In, List.filter_In in Hin as [Hin _].
    rewrite Forall_forall in Hw. by apply Hw, list_elem_of_In.
  - apply Forall_app. split; [|done]. apply Forall_forall. intros r Hr.
    apply list_elem_of_In, in_map_iff in Hr as (w&<-&[Hin Hk]%List.filter_In).
    rewrite Forall_forall in Hw. specialize (Hw w ltac:(by apply list_elem_of_In)).
    destruct out as [v|]; [|by apply fall_back_fine]. bool_hyps. subst. split; simpl; [apply Hw|auto].
Qed.
Lemma wait_fine c s k stale rs :
  cworld_fine c -> store_fine (cw_now c) s ->
  (forall v, stale = Some v -> aged_at_most (plus_grace ttl_max) (cw_now c) k v) ->
  cworld_fine (mkCWorld (cw_now c) s rs (cw_waiting c ++ [mkWaiter k (cw_now c) stale]) (cw_log c)).
Proof.
  intros [_ Hw Hl] Hs Hst. constructor; simpl; [done| |done]. apply Forall_app. split; [done|].
  repeat constructor; simpl; [lia|done].
Qed.

Lemma with_store_fine c s rs :
  cworld_fine c -> store_fine (cw_now c) s ->
  cworld_fine (mkCWorld (cw_now c) s rs (cw_waiting c) (cw_log c)).
Proof. intros [_ Hw Hl] Hs. by constructor. Qed.

Lemma cstep_fine ev c c' : within ttl_max 0 -> cstep ev c = Some c' -> cworld_fine c -> cworld_fine c'.
Proof.
  intros Hmax Hst Hc. pose proof (cf_store c Hc) as Hs.
  destruct ev as [d|k|k|k ok u|i|k| |o]; simpl in Hst.
  - simplify_eq. destruct Hc as [_ Hw Hl]. constructor; simpl; [|  |done].
    + eapply store_fine_mono, Hs. lia.
    + eapply Forall_impl; [exact Hw|]. intros w [? ?]. split; [simpl in *; lia|done].
  - destruct (cached_read (cw_now c) k (cw_store c)) as [r s] eqn:Hr.
    destruct (cached_read_fine _ _ _ _ _ Hr Hs) as [Hs1 Hv]. destruct r as [w|w|]; simplify_eq.
    + constructor; simpl; [done|apply Hc|]. constructor; [|apply Hc]. split; simpl; [lia|done].
    + apply wait_fine; [done|done|]. intros; by simplify_eq.
    + apply wait_fine; done.
  - destruct (cw_rebuilds c !! k) as [[]|]; [done| |done].
    destruct (cached_read (cw_now c) k (cw_store c)) as [r s] eqn:Hr.
    destruct (cached_read_fine _ _ _ _ _ Hr Hs) as [Hs1 Hv].
    destruct r as [w|w|]; simplify_eq; [|by apply with_store_fine..].
    apply finish_fine; [done|done|]. intros; by simplify_eq.
  - destruct (cw_rebuilds c !! k) as [[]|]; [|done..].
    destruct (Z.leb_spec (- jitter) u), (Z.leb_spec u jitter); simpl in Hst; try done.
    destruct ok; [|simplify_eq; by apply finish_fine].
    destruct (store_result (cw_now c) k u (cw_store c)) as [s|] eqn:Hr; simplify_eq/=.
    apply finish_fine; [done|by eapply store_result_fine|]. intros w [= <-].
    exists (cw_now c). split_and!; [done|lia|by rewrite Z.sub_diag].
  - destruct (cw_waiting c !! i) as [w|] eqn:Hw; simplify_eq/=.
    constructor; simpl; [done| |].
    + apply Forall_delete, Hc.
    + constructor; [|apply Hc]. apply fall_back_fine. eapply Forall_lookup_1; [apply Hc|done].
  - simplify_eq. apply with_store_fine; [done|]. eapply store_fine_sub, Hs. apply lt_drop_sub.
  - destruct (l1_backends (cw_store c) !! j) as [b|] eqn:Hb; simplify_eq/=.
    apply with_store_fine; [done|]. intros k e He. rewrite (lt_view_put j b) in He by done. done.
  - destruct (lt_other size_of budget j o (cw_store c)) as [s|] eqn:Ho; simplify_eq/=.
    apply with_store_fine; [done|]. eapply store_fine_sub, Hs. intros k e. by eapply lt_other_sub.
Qed.

End calls.

(** ** Witness *)

Definition demo_call (k : string) (t : Z) : Z := t.
Definition demo_store : l1_state (V := stored Z) := mkL1 [mkBackend [] 4 0 false] 0.
(** A value is computed, served fresh, and served within the grace period when the
    next rebuild fails. *)
Definition demo_calls : list (cevent (V := Z)) :=
  [CCall "k"; CLocked "k"; CDone "k" true 2; CTick 30; CCall "k"; CTick 60; CCall "k"; CLocked "k";
   CCall "k"; CGiveUp 1; CDone "k" false 0; CInvalidate "k"; CCall "k"; CGiveUp 0].
Definition demo_crun := crun (fun _ => 1) (Some 100) 0 3000 (Some 60) CapDefault 5 (fun _ => true) demo_call.
Definition demo_calls_world : cworld := from_option id (mkCWorld 0 demo_store ∅ [] [])
  (demo_crun demo_calls (mkCWorld 0 demo_store ∅ [] [])).


(** ** What the clears reach *)

Definition pipe_free (s : string) : bool := str_forallb (fun a => negb (Ascii.eqb a "|")) s.

(** The namespace clear of the second tier reaches the calls with an argument whose
    key is short: the key of a call without arguments ends with the namespace, and a
    long key is a digest. *)
Lemma namespace_clear_reach (digest : string -> string) (grace : Z) (ns : string) (parts : list string) :
  (forall s, pipe_free (digest s) = true) ->
  in_namespace (async_cache_clear_namespace grace ns) (build_key digest grace ns parts) =
    match parts with [] => false | _ => (String.length (String.concat "|" (ns :: parts)) <=? 200)%nat end.
Proof.
  intros Hd. unfold in_namespace, async_cache_clear_namespace, build_key, make_cache_key.
  rewrite <- str_app_assoc, prefix_app_same.
  destruct (Nat.ltb_spec 200 (String.length (String.concat "|" (ns :: parts)))) as [Hl|Hl].
  - rewrite prefix_sep_free by apply Hd. destruct parts; [done|]. symmetry. by apply Nat.leb_gt.
  - destruct parts as [|p ps].
    + simpl. by rewrite prefix_longer.
    + change (String.concat "|" (ns :: p :: ps)) with (ns +:+ ("|" +:+ String.concat "|" (p :: ps))) in *.
      rewrite prefix_app_same. change "|"%string with ("|" +:+ "")%string at 1. rewrite prefix_app_same.
      etrans; [by destruct (String.concat "|" (p :: ps))|]. symmetry. by apply Nat.leb_le.
Qed.

(** The clear of a local backend looks for keys [ns:...], which a decorated function
    never builds: clearing a cached sync function, or the first tier of a cached
    async one, drops nothing. *)
Lemma local_namespace_clear_drops_nothing (digest : string -> string) {V} (grace : Z) (ns : string)
    (b : backend (V := V)) :
  colon_free ns = true ->
  (forall s, colon_free (digest s) = true) ->
  Forall (fun k => exists parts, k = build_key digest grace ns parts) (map fst (b_store b)) ->
  sync_cache_clear ns b = (false, b).
Proof.
  intros Hns Hdig Hkeys. unfold sync_cache_clear. simpl.
  assert (Hf : List.filter (fun k => String.prefix (ns +:+ ":") k) (map fst (b_store b)) = []); [|by rewrite Hf].
  induction Hkeys as [|k ks [parts ->] _ IH]; simpl; [done|]. rewrite IH. unfold build_key, make_cache_key.
  assert (Hkp : forall a, colon_free a = true -> colon_free (key_prefix grace +:+ a) = true).
  { intros a Ha. unfold key_prefix. by destruct (0 <? grace). }
  destruct (200 <? _)%nat.
  - rewrite prefix_sep_free; [done|]. by apply (Hkp (digest _)).
  - destruct parts as [|p ps]; cbn [String.concat].
    + rewrite prefix_sep_free; [done|]. by apply Hkp.
    + rewrite str_app_assoc, prefix_sep_short; [done|by apply Hkp| |done].
      unfold key_prefix. destruct (0 <? grace); [|done]. change (String.length ns <= 4 + String.length ns)%nat. lia.
Qed.

(** ** Limits of the two tiers *)

#[local] Existing Instance demo_tier.

(** [TieredAsyncBackend.exists] asks each tier. *)
Definition tiered_exists (now : Z) (k : string) (b : backend (V := ev_envelope string))
    (m : gmap string (ev_envelope string * option Z)) : bool :=
  (local_exists now k b).1 || valkey_exists Answered now k m.

Definition tlog (es : list demo_event) : list (string * option string) :=
  w_log (demo_get (demo_run es demo_world)).

(** A background write that lands after the tombstone replaces it, whatever its
    version: the cleared value is back, on every pod. *)
Example late_write_undoes_clear :
  tlog [ESet 0 "k" "old" (Some 300) None; EClear 1 "k"; ENext 1 Answered; ENext 0 Answered;
        EWait 31; EGet 1 "k"; ENext 2 Answered; ENext 2 Answered] = [("k", Some "old")].
Proof. vm_compute. reflexivity. Qed.

(** A write with a life shorter than that of the tombstone takes its place and ends
    before the copy another pod still has. *)
Example short_lived_write_unguards :
  tlog [ESet 0 "k" "old" (Some 300) None; ENext 0 Answered; EClear 1 "k"; ENext 1 Answered;
        ESet 1 "k" "new" (Some 2) None; ENext 2 Answered; EWait 3;
        EGet 0 "k"; ENext 3 Answered; ENext 3 Answered] = [("k", Some "old")].
Proof. vm_compute. reflexivity. Qed.

(** A namespace clear leaves the first tiers as they are, that of its own pod
    included. *)
Example namespace_clear_leaves_first_tiers :
  tlog [ESet 0 "ns|'a'" "old" (Some 300) None; ENext 0 Answered; EClearNs 0 "ns"; ENext 1 Answered;
        EGet 0 "ns|'a'"; ENext 2 Answered; ENext 2 Answered] = [("ns|'a'", Some "old")].
Proof. vm_compute. reflexivity. Qed.

(** A second tier that does not answer is read as empty. *)
Example unavailable_tier_serves_old :
  tlog [ESet 0 "k" "old" (Some 300) None; ENext 0 Answered; EClear 1 "k"; ENext 1 Answered;
        EGet 0 "k"; ENext 2 Lost; ENext 2 Answered] = [("k", Some "old")].
Proof. vm_compute. reflexivity. Qed.

(** The Valkey backend answers a failure with a miss, so that a required second tier
    never makes a read raise. *)
Lemma required_tier_never_raises (required : bool) (raw : option (ev_envelope string)) oc now k
    (m : gmap string (ev_envelope string * option Z)) :
  tiered_get required raw (L2Reply (valkey_get oc now k m)) <> GetRaises.
Proof. unfold tiered_get. by repeat case_match. Qed.

(** A cleared key exists while its tombstone lives. *)
Example exists_sees_tombstone :
  let w := demo_get (demo_run [EClear 0 "k"; ENext 0 Answered; EGet 0 "k"; ENext 1 Answered; ENext 1 Answered] demo_world) in
  w_log w = [("k", None)] /\
  option_map (fun b => tiered_exists (w_now w) "k" b (w_l2 w)) (l1_backends (w_l1 w 0%nat) !! 0%nat) = Some true.
Proof. split; vm_compute; reflexivity. Qed.

(** ** [LocalCache] *)

(** [_full_key], and the key under which [get_or_set] keeps a value with a grace
    period. *)
Definition full_key (ns key : string) : string := if ns ==s "" then key else ns +:+ ":" +:+ key.
Definition get_or_set_key (stale_on : bool) (ns key : string) : string :=
  if stale_on then "sv1|" +:+ full_key ns key else full_key ns key.

(** [clear(key=)] and [get] use the key without its version prefix: with the default
    grace period they do not see what [get_or_set] stores. *)
Lemma get_or_set_key_missed ns key : get_or_set_key true ns key <> full_key ns key.
Proof.
  unfold get_or_set_key. generalize (full_key ns key). intros s Heq.
  assert (Hl : String.length ("sv1|" +:+ s) = String.length s) by (by rewrite Heq).
  change (4 + String.length s = String.length s)%nat in Hl. lia.
Qed.
