(* ===== verification/Handlers.v ===== *)
(** * Properties of the condition handlers

    What [catalog_admin_required] and [time_window] of [iam/conditions.py]
    decide, and a quota that does not count below a logical operator.
    The handlers themselves are in Conditions; the counting ones are treated in
    UsageCounter, against the counter interface. *)

From S2P Require Import Prelude AccessFilter Conditions Policies Demo.

Section handlers.
Context `{PyRuntime} {W : Type} `{Services W}.
Implicit Types (cfg : list (string * pyval)) (ctx : EvaluationContext).

(** The bound of a time window, when the config has a well-formed one. *)
Definition bound_of (v : pyval) : option (option Z) :=
  if truthy v then
    match v with VStr s => t ← fromisoformat (replace_Z s); option_map Some t | _ => None end
  else Some None.

Definition int_of (v : pyval) : option Z :=
  match v with VInt z => Some z | VBool b => Some (if b then 1 else 0) | _ => None end.

(** The clock is inside the window of the config. *)
Definition in_window cfg : bool :=
  match bound_of (cfg_get cfg "start"), bound_of (cfg_get cfg "end"),
        int_of (cfg_get_or cfg "start_hour" (VInt 0)), int_of (cfg_get_or cfg "end_hour" (VInt 24)) with
  | Some s, Some e, Some h0, Some h1 =>
      match s with Some t => t <=? utc_now | None => true end &&
      match e with Some t => utc_now <=? t | None => true end &&
      negb (truthy (cfg_get_or cfg "weekdays_only" (VBool false)) && (4 <? utc_weekday)) &&
      (h0 <=? utc_hour) && (utc_hour <? h1)
  | _, _, _, _ => false
  end.

Lemma iso_bound_spec v (w : W) :
  iso_bound v w = match bound_of v with
                  | Some b => (inr b, w)
                  | None => (inl match v with
                                 | VStr s => if fromisoformat (replace_Z s) then OtherError else IamError
                                 | _ => OtherError
                                 end, w)
                  end.
Proof.
  unfold iso_bound, bound_of. destruct (truthy v); [|done]. destruct v; try done.
  by destruct (fromisoformat (replace_Z s)) as [[?|]|].
Qed.

Lemma num_or_raise_spec v (w : W) :
  num_or_raise v w = match int_of v with Some z => (inr z, w) | None => (inl OtherError, w) end.
Proof. by destruct v. Qed.

(** The two guards on the clock, as they run. *)
Lemma after_bound (s : option Z) (k : () -> M W bool) (w : W) :
  match (match s with
         | Some t => if utc_now <? t then raise AccessDeniedError else mret tt
         | None => mret tt
         end : M W ()) w with
  | (inl e, w') => (inl e, w')
  | (inr x, w') => k x w'
  end = if match s with Some t => t <=? utc_now | None => true end then k tt w else (inl AccessDeniedError, w).
Proof. destruct s as [t|]; [|done]. rewrite Z.ltb_antisym. by destruct (t <=? utc_now). Qed.

Lemma before_bound (e : option Z) (k : () -> M W bool) (w : W) :
  match (match e with
         | Some t => if t <? utc_now then raise AccessDeniedError else mret tt
         | None => mret tt
         end : M W ()) w with
  | (inl x, w') => (inl x, w')
  | (inr x, w') => k x w'
  end = if match e with Some t => utc_now <=? t | None => true end then k tt w else (inl AccessDeniedError, w).
Proof. destruct e as [t|]; [|done]. rewrite Z.ltb_antisym. by destruct (utc_now <=? t). Qed.

(** The three ways through [catalog_admin_required] for a validated config. *)
Definition sysadmin_bypass (k : CatalogAdminConditionConfig) (p : principal) : Prop :=
  ca_allow_sysadmin k = true /\ ca_sysadmin_role k ∈ roles p.

Definition platform_bypass (k : CatalogAdminConditionConfig) (p : principal) : Prop :=
  ca_allow_platform k = true /\ exists m, principal_membership p = Some m /\ mem_platform m = true.

Definition catalog_role_held (k : CatalogAdminConditionConfig) (p : principal) (catalog_id : string) : Prop :=
  exists m role, principal_membership p = Some m /\ role ∈ ca_required_roles k /\
    role ∈ default [] (dict_get catalog_id (mem_catalog_roles m)).

Lemma sysadmin_bypass_b k p :
  ca_allow_sysadmin k && str_mem (ca_sysadmin_role k) (roles p) = true <-> sysadmin_bypass k p.
Proof. by rewrite andb_true_iff, str_mem_In. Qed.

Lemma catalog_role_held_b k p catalog_id :
  catalog_role_held k p catalog_id <->
  match principal_membership p with
  | Some m => existsb (fun r => str_mem r (default [] (dict_get catalog_id (mem_catalog_roles m))))
                (ca_required_roles k) = true
  | None => False
  end.
Proof.
  unfold catalog_role_held. destruct (principal_membership p) as [m|]; [|naive_solver].
  rewrite existsb_elem. setoid_rewrite str_mem_In. naive_solver.
Qed.

(** The allow-list of presets, which only guards the preset routes. *)
Definition preset_allowed (k : CatalogAdminConditionConfig) ctx : Prop :=
  match ca_allowed_preset_names k, preset_of_path (ctx_path ctx) with
  | Some names, Some preset => preset ∈ names
  | _, _ => True
  end.
End handlers.

(** [catalog_admin_required] passes exactly for an identified
    caller of a catalog-scoped request, under a config that validates, who is a
    sysadmin or a platform member (where the config lets them through), or who
    holds a required role in that very catalog and asks for a preset on the
    allow-list, if there is one. *)
Theorem catalog_admin_exact `{PyRuntime} {W : Type} `{Services W}
    (cfg : list (string * pyval)) (ctx : EvaluationContext) (w : W) :
  catalog_admin cfg ctx w = (inr true, w) <->
  exists catalog_id p k,
    nonempty_str (ctx_catalog_id ctx) = Some catalog_id /\ ctx_principal_obj ctx = Some p /\
    catalog_admin_config cfg = Some k /\
    (sysadmin_bypass k p \/ platform_bypass k p \/ catalog_role_held k p catalog_id /\ preset_allowed k ctx).
Proof.
  unfold catalog_admin. destruct (nonempty_str (ctx_catalog_id ctx)) as [cat|];
    [|split; [done|by intros (? & ? & ? & ? & _)]].
  destruct (ctx_principal_obj ctx) as [p|]; [|split; [done|by intros (? & ? & ? & _ & ? & _)]].
  destruct (catalog_admin_config cfg) as [k|]; [|split; [done|by intros (? & ? & ? & _ & _ & ? & _)]].
  trans (sysadmin_bypass k p \/ platform_bypass k p \/ catalog_role_held k p cat /\ preset_allowed k ctx).
  2:{ split; [intros Hd; by exists cat, p, k|by intros (? & ? & ? & [= <-] & [= <-] & [= <-] & Hd)]. }
  rewrite <-(sysadmin_bypass_b k p). destruct (_ && str_mem _ (roles p)); [by split; auto|].
  unfold platform_bypass. rewrite catalog_role_held_b. destruct (principal_membership p) as [m|]; [|naive_solver].
  destruct (ca_allow_platform k && mem_platform m) eqn:Ep.
  { apply andb_true_iff in Ep as [Hp Hm]. split; [|done]. intros _. right; left. eauto. }
  rewrite <-not_true_iff_false, andb_true_iff in Ep.
  trans (existsb (fun r => str_mem r (default [] (dict_get cat (mem_catalog_roles m)))) (ca_required_roles k) = true
         /\ preset_allowed k ctx); [|naive_solver].
  destruct (existsb _ (ca_required_roles k)); simpl; [|by split; [|intros [? _]]].
  trans (preset_allowed k ctx); [|by split; [|intros [_ ?]]].
  unfold preset_allowed, mret, M_ret.
  destruct (ca_allowed_preset_names k), (preset_of_path (ctx_path ctx)); rewrite <-?str_mem_In; try done.
  by split; [intros [=]|intros ->].
Qed.

(** [time_window] passes exactly when the clock is inside
    the configured window, and raises otherwise: it never answers "false". *)
Theorem time_window_exact `{PyRuntime} {W : Type} `{Services W}
    (cfg : list (string * pyval)) (ctx : EvaluationContext) (w : W) :
  if in_window cfg then time_window cfg ctx w = (inr true, w)
  else exists e, time_window cfg ctx w = (inl e, w).
Proof.
  unfold in_window, time_window, mbind, M_bind.
  destruct (int_of (cfg_get_or cfg "start_hour" (VInt 0))) as [h0|] eqn:E0,
    (int_of (cfg_get_or cfg "end_hour" (VInt 24))) as [h1|] eqn:E1.
  all: rewrite iso_bound_spec; destruct (bound_of (cfg_get cfg "start")) as [s|]; [|by eauto].
  all: rewrite after_bound; destruct (match s with Some _ => _ | None => _ end) eqn:Es;
    [|by destruct (bound_of (cfg_get cfg "end")); simpl; eauto].
  all: rewrite iso_bound_spec; destruct (bound_of (cfg_get cfg "end")) as [e|]; [|by eauto].
  all: rewrite before_bound; destruct (match e with Some _ => _ | None => _ end); [|by simpl; eauto].
  all: destruct (truthy _ && (4 <? utc_weekday)); [by simpl; unfold raise; eauto|].
  all: rewrite num_or_raise_spec, E0; try by eauto.
  all: destruct (h0 <=? utc_hour); simpl; [rewrite num_or_raise_spec, E1|by eauto].
  all: try destruct (utc_hour <? h1); simpl; unfold raise; by eauto.
Qed.

(** ** Quotas below a logical operator

    A nested condition is rebuilt from its dictionary and has no owning policy,
    so a [rate_limit] under [and] passes without counting, in every state. *)
Lemma nested_rate_limit_never_counts `{PyRuntime} {W : Type} `{Services W} cfg ctx policy (w : W) :
  cfg_get cfg "_policy_id" = VNone ->
  evaluate_condition (mkCond "and" [] [mkCond "rate_limit" cfg [] None] None) (Some policy) ctx w = (inr true, w).
Proof.
  intros Hcfg. cbn. unfold mbind, M_bind, leaf_handler. simpl. unfold rate_limit, policy_id_for. simpl.
  rewrite Hcfg. by destruct (negb _).
Qed.
