(* ===== verification/TaskRouting.v ===== *)
(** * Task routing

    [tasks/routing/matrix.py] (the default routing of every registered task and
    process), [tasks/routing/model.py] ([RunnerTarget], [resolved_targets],
    materialisation), [tasks/routing/resolver.py] ([select_target]) and the
    offload rules of [tasks/execution.py].  The terminal actions of a target do
    not influence selection and are left out of the record. *)

From S2P Require Import Prelude.

(** ** Data *)

Inductive ExecHint : Type := INTERACTIVE | SYNC | BACKGROUND | OFFLOAD | HEAVY.

#[global] Instance ExecHint_eq_dec : EqDecision ExecHint.
Proof. solve_decision. Defined.

Definition all_hints : list ExecHint := [INTERACTIVE; SYNC; BACKGROUND; OFFLOAD; HEAVY].

Record RunnerTarget : Type := mkTarget {
  consumers : list string;
  runner : string;
  options : list (string * Z);
  hints : list ExecHint;               (* a set: no repetition *)
}.

Record InventoryItem : Type := mkItem {
  task_key : string;
  kind : string;
  affinity_tier : option string;
}.

(** ** The routing matrix *)

Definition CLOUD_PROCESS_CONSUMERS : list (string * list string) :=
  [("gdal", ["catalog"; "maps"]); ("tiles_preseed", ["maps"]); ("tiles_export", ["maps"])].

Definition CLOUD_PROCESS_TIMEOUT_SECONDS : list (string * Z) :=
  [("tiles_preseed", 86400); ("tiles_export", 86400)].

Definition LIGHTWEIGHT_PROCESSES : list string := ["requeue_dead_letter_tasks"; "tiles_invalidate"].

Definition OFFLOADABLE_SYSTEM_TASKS : list string :=
  ["catalog_provision"; "event_drain"; "storage_drain_offload"].

Definition process_consumers (key : string) : list string :=
  default ["catalog"] (dict_get key CLOUD_PROCESS_CONSUMERS).

(** The targets the loop stores for one item. *)
Definition item_targets (preset : string) (item : InventoryItem) : list RunnerTarget :=
  let key := task_key item in
  if kind item ==s "task" then
    let tier := match affinity_tier item with Some "" | None => "catalog" | Some t => t end in
    if negb (preset ==s "onprem") && str_mem key OFFLOADABLE_SYSTEM_TASKS
    then [mkTarget [tier] "gcp_cloud_run" [] [OFFLOAD]]
    else [mkTarget [tier] "background" [] [BACKGROUND]]
  else if negb (preset ==s "onprem") then
    if str_mem key LIGHTWEIGHT_PROCESSES
    then [mkTarget ["catalog"] "background" [] [BACKGROUND]]
    else
      let opts := match dict_get key CLOUD_PROCESS_TIMEOUT_SECONDS with
                  | Some t => if t =? 0 then [] else [("timeout_seconds", t)]
                  | None => []
                  end in
      [mkTarget (process_consumers key) "gcp_cloud_run" opts [OFFLOAD; HEAVY]]
  else [mkTarget (process_consumers key) "background" [] [BACKGROUND]].

Abbreviation routing_map := (list (string * list RunnerTarget)).

Fixpoint build_routing_matrix (inventory : list InventoryItem) (preset : string)
    (tasks processes : routing_map) : routing_map * routing_map :=
  match inventory with
  | [] => (tasks, processes)
  | item :: rest =>
      let targets := item_targets preset item in
      if kind item ==s "task"
      then build_routing_matrix rest preset (dict_set (task_key item) targets tasks) processes
      else build_routing_matrix rest preset tasks (dict_set (task_key item) targets processes)
  end.

Record TaskRoutingConfig : Type := mkRouting { tasks : routing_map; processes : routing_map }.

(** The preset named by the environment. *)
Definition normalize_preset (env : string) : string :=
  let p := str_lower (str_strip env) in
  if p ==s "onprem" then "onprem" else "cloud".

(** [_materialize_if_empty] over the registered inventory. *)
Definition materialize (cfg : TaskRoutingConfig) (inventory : list InventoryItem) (env : string)
    : TaskRoutingConfig :=
  match tasks cfg, processes cfg with
  | [], [] =>
      match inventory with
      | [] => cfg
      | _ => let '(t, p) := build_routing_matrix inventory (normalize_preset env) [] [] in mkRouting t p
      end
  | _, _ => cfg
  end.

Definition resolved_targets (cfg : TaskRoutingConfig) (key : string) : list RunnerTarget :=
  match dict_get key (tasks cfg) with
  | Some ts => ts
  | None => default [] (dict_get key (processes cfg))
  end.

(** ** Selection *)

Definition effective_hints (t : RunnerTarget) : list ExecHint :=
  match hints t with [] => all_hints | hs => hs end.

Definition hint_mem (h : ExecHint) (l : list ExecHint) : bool := bool_decide (h ∈ l).

Section select.
Context (request_hints : list ExecHint) (this_service : string) (can_handle : string -> bool).

Definition target_matches (t : RunnerTarget) : bool :=
  if match consumers t with [] => false | _ => true end && negb (str_mem this_service (consumers t))
  then false
  else if negb (can_handle (runner t)) then false
  else match request_hints with
       | [] => true
       | hs => forallb (fun h => hint_mem h (effective_hints t)) hs
       end.

(** The head of the candidates sorted by [(-len(effective_hints), position)]. *)
Fixpoint best_target (best : option RunnerTarget) (l : list RunnerTarget) : option RunnerTarget :=
  match l with
  | [] => best
  | t :: l' =>
      best_target
        (match best with
         | None => Some t
         | Some b => if (length (effective_hints b) <? length (effective_hints t))%nat
                     then Some t else Some b
         end) l'
  end.

Definition select_target (targets : list RunnerTarget) : option RunnerTarget :=
  best_target None (List.filter target_matches targets).
End select.

(** ** Offload *)

(** [offload_required]; the second signal is the workclass of the task. *)
Definition offload_required (cfg : TaskRoutingConfig) (async_write_workclass : string -> bool)
    (key : string) : bool :=
  existsb (fun t => hint_mem OFFLOAD (hints t) || hint_mem HEAVY (hints t)) (resolved_targets cfg key) ||
  async_write_workclass key.

Definition OFFLOAD_RUNNER_TYPES : list string := ["gcp_cloud_run"; "worker_queue"].

Definition restrict_to_offload_runners {R} (runner_type : R -> string) (runners : list R) : list R :=
  match List.filter (fun r => str_mem (runner_type r) OFFLOAD_RUNNER_TYPES) runners with
  | [] => runners
  | offload => offload
  end.

(** ** Lemmas *)

Lemma build_spec inventory preset ts ps key :
  NoDup (map task_key inventory) ->
  let '(ts', ps') := build_routing_matrix inventory preset ts ps in
  (forall item, item ∈ inventory -> task_key item = key ->
     if kind item ==s "task" then dict_get key ts' = Some (item_targets preset item) /\ dict_get key ps' = dict_get key ps
     else dict_get key ps' = Some (item_targets preset item) /\ dict_get key ts' = dict_get key ts) /\
  (key ∉ map task_key inventory -> dict_get key ts' = dict_get key ts /\ dict_get key ps' = dict_get key ps).
Proof.
  revert ts ps. induction inventory as [|i rest IH]; intros ts ps Hnd; simpl.
  { split; [by intros ? ?%elem_of_nil|done]. }
  simpl in Hnd. apply NoDup_cons in Hnd as [Hni Hnd].
  destruct (kind i ==s "task") eqn:Ek.
  all: match goal with |- context [build_routing_matrix ?r ?x ?t ?p] =>
         specialize (IH t p Hnd); destruct (build_routing_matrix r x t p) as [ts' ps'] end.
  all: destruct IH as [IHin IHout]; split.
  1,3: intros item [->|Hin]%elem_of_cons Hkey.
  1,3: rewrite Ek; subst key; destruct (IHout Hni) as [-> ->]; by rewrite dict_get_set_eq.
  1,2: assert (task_key i <> key) as Hne 
         by (intros Heq; apply Hni; rewrite Heq, <-Hkey; apply list_elem_of_In, in_map, list_elem_of_In, Hin).
  1,2: specialize (IHin item Hin Hkey); by destruct (kind item ==s "task"); rewrite ?dict_get_set_ne in IHin.
  all: rewrite not_elem_of_cons; intros [Hne Hout]; destruct (IHout Hout) as [-> ->]; by rewrite ?dict_get_set_ne.
Qed.

Lemma best_target_spec best l :
  match best_target best l with
  | None => best = None /\ l = []
  | Some t => (best = Some t \/ t ∈ l) /\
      (forall t', best = Some t' \/ t' ∈ l -> (length (effective_hints t') <= length (effective_hints t))%nat)
  end.
Proof.
  revert best. induction l as [|x l IH]; intros best; simpl.
  { destruct best as [b|]; [|done]. split; [by left|]. intros t' [[= ->]|?%elem_of_nil]; done. }
  match goal with |- context [best_target ?b ?r] => specialize (IH b); destruct (best_target b r) as [t|] end.
  - destruct IH as [Hin Hmax]. destruct best as [b|].
    + destruct (length (effective_hints b) <? length (effective_hints x))%nat eqn:E;
        [apply Nat.ltb_lt in E|apply Nat.ltb_ge in E].
      * split; [destruct Hin as [[= ->]|?]; right; set_solver|].
        intros t' [[= ->]|[->|?]%elem_of_cons]; [|by apply Hmax; left|by apply Hmax; right].
        assert (length (effective_hints x) <= length (effective_hints t))%nat by (by apply Hmax; left). lia.
      * split; [destruct Hin as [[= ->]|?]; [by left|right; set_solver]|].
        intros t' [[= ->]|[->|?]%elem_of_cons]; [by apply Hmax; left| |by apply Hmax; right].
        assert (length (effective_hints b) <= length (effective_hints t))%nat by (by apply Hmax; left). lia.
    + split; [destruct Hin as [[= ->]|?]; right; set_solver|].
      intros t' [?|[->|?]%elem_of_cons]; [done|by apply Hmax; left|by apply Hmax; right].
  - destruct best as [b|]; [|by destruct IH]. by destruct (_ <? _)%nat; destruct IH.
Qed.

Lemma materialize_targets inventory env item :
  NoDup (map task_key inventory) -> item ∈ inventory ->
  resolved_targets (materialize (mkRouting [] []) inventory env) (task_key item)
  = item_targets (normalize_preset env) item.
Proof.
  intros Hnd Hin. unfold materialize, resolved_targets. cbn [tasks processes].
  destruct inventory as [|i inv]; [by apply elem_of_nil in Hin|].
  assert (Hb := build_spec (i :: inv) (normalize_preset env) [] [] (task_key item) Hnd).
  destruct (build_routing_matrix _ _ _ _) as [ts ps]. destruct Hb as [Hb _].
  specialize (Hb item Hin eq_refl). cbn [tasks processes].
  destruct (kind item ==s "task"); destruct Hb as [H1 H2]; by rewrite ?H1, ?H2, ?H1.
Qed.

Lemma normalize_preset_cases env : normalize_preset env = "onprem" \/ normalize_preset env = "cloud".
Proof. unfold normalize_preset. destruct (_ ==s "onprem"); auto. Qed.

Lemma item_targets_spec preset item :
  exists t, item_targets preset item = [t] /\ consumers t <> [] /\ hints t <> [] /\
    (runner t = "background" /\ hints t = [BACKGROUND] \/
     runner t = "gcp_cloud_run" /\ OFFLOAD ∈ hints t /\ BACKGROUND ∉ hints t /\ preset <> "onprem").
Proof.
  assert (forall key, process_consumers key <> []) as Hc.
  { intros key. unfold process_consumers, CLOUD_PROCESS_CONSUMERS, dict_get. by repeat destruct (key ==s _). }
  unfold item_targets. destruct (kind item ==s "task"), (preset ==s "onprem") eqn:Ep; bool_hyps; cbn [negb andb].
  - eexists. split_and!; [done..|by left].
  - destruct (str_mem (task_key item) OFFLOADABLE_SYSTEM_TASKS); eexists; (split_and!; [done..|]); [right|by left].
    split_and!; [done|set_solver|set_solver|done].
  - eexists. split_and!; [done|apply Hc|done|by left].
  - destruct (str_mem (task_key item) LIGHTWEIGHT_PROCESSES); eexists; [split_and!; [done..|by left]|].
    split_and!; [done|apply Hc|done|right]. split_and!; [done|set_solver|set_solver|done].
Qed.

(** ** Properties *)

(** The routing materialised from the registry is coherent for
    every registered task: it has exactly one target, on a named tier; routing
    asks for an offload exactly when that target is the external runner; and
    the on-premise profile never names the external runner. *)
Theorem materialized_routing_coherent (inventory : list InventoryItem) (env : string) (item : InventoryItem) :
  NoDup (map task_key inventory) -> item ∈ inventory ->
  let cfg := materialize (mkRouting [] []) inventory env in
  exists t,
    resolved_targets cfg (task_key item) = [t] /\ consumers t <> [] /\
    (offload_required cfg (fun _ => false) (task_key item) = true <-> runner t = "gcp_cloud_run") /\
    (normalize_preset env = "onprem" -> runner t = "background").
Proof.
  intros Hnd Hin cfg. unfold offload_required, cfg. rewrite (materialize_targets _ _ _ Hnd Hin).
  destruct (item_targets_spec (normalize_preset env) item) as (t & -> & Hc & _ & Hcase).
  exists t. split_and!; [done|done| |].
  - simpl. rewrite !orb_false_r. unfold hint_mem.
    destruct Hcase as [[Hr Hh]|(Hr & Hoff & Hbg & _)].
    + rewrite Hr, Hh. by rewrite !bool_decide_eq_false_2 by set_solver.
    + rewrite Hr. by rewrite bool_decide_eq_true_2.
  - intros Hp. by destruct Hcase as [[-> _]|(_ & _ & _ & ?)].
Qed.

(** [select_target] returns a target exactly when one is
    viable for this service and the request, and then a viable one whose
    effective hint set is largest. *)
Theorem select_target_correct (request_hints : list ExecHint) (this_service : string)
    (can_handle : string -> bool) (targets : list RunnerTarget) :
  match select_target request_hints this_service can_handle targets with
  | Some t =>
      t ∈ targets /\ target_matches request_hints this_service can_handle t = true /\
      forall t', t' ∈ targets -> target_matches request_hints this_service can_handle t' = true ->
        (length (effective_hints t') <= length (effective_hints t))%nat
  | None => forall t, t ∈ targets -> target_matches request_hints this_service can_handle t = false
  end.
Proof.
  assert (Hf : forall t, t ∈ List.filter (target_matches request_hints this_service can_handle) targets <->
    t ∈ targets /\ target_matches request_hints this_service can_handle t = true)
    by (intros t; by rewrite !list_elem_of_In, filter_In).
  unfold select_target. assert (Hb := best_target_spec None (List.filter
    (target_matches request_hints this_service can_handle) targets)).
  destruct (best_target None _) as [t|].
  - destruct Hb as [[?|Hin] Hmax]; [done|]. apply Hf in Hin as [Hin Hm]. split_and!; [done..|].
    intros t' Ht' Hm'. apply Hmax. right. by apply Hf.
  - destruct Hb as [_ Hnil]. intros t Ht. apply not_true_iff_false. intros Hm.
    assert (t ∈ List.filter (target_matches request_hints this_service can_handle) targets) as Hin by by apply Hf.
    rewrite Hnil in Hin. by apply elem_of_nil in Hin.
Qed.

(** Restricting to offload runners never empties the candidate
    set, and leaves an in-process runner only when there is no offload runner. *)
Theorem restrict_to_offload_sound {R : Type} (runner_type : R -> string) (runners : list R) :
  (restrict_to_offload_runners runner_type runners = [] -> runners = []) /\
  (forall r r0, r ∈ restrict_to_offload_runners runner_type runners -> r0 ∈ runners ->
     str_mem (runner_type r0) OFFLOAD_RUNNER_TYPES = true ->
     r ∈ runners /\ str_mem (runner_type r) OFFLOAD_RUNNER_TYPES = true).
Proof.
  unfold restrict_to_offload_runners.
  destruct (List.filter _ runners) as [|x l] eqn:Ef; split; try done.
  - intros r r0 Hr Hr0 Ho. exfalso.
    assert (r0 ∈ List.filter (fun r => str_mem (runner_type r) OFFLOAD_RUNNER_TYPES) runners) as Hin
      by by apply list_elem_of_In, filter_In; rewrite <-list_elem_of_In.
    rewrite Ef in Hin. by apply elem_of_nil in Hin.
  - intros r r0 Hr _ _. rewrite <-Ef in Hr. apply list_elem_of_In, filter_In in Hr as [Hr ?].
    by rewrite <-list_elem_of_In in Hr.
Qed.

(** ** Witnesses *)

Definition demo_inventory : list InventoryItem :=
  [mkItem "gdal" "process" None; mkItem "event_drain" "task" (Some "catalog");
   mkItem "tiles_invalidate" "process" None].

(** Witness of [materialized_routing_coherent]. *)
Lemma materialized_routing_coherent_witness :
  exists t, resolved_targets (materialize (mkRouting [] []) demo_inventory " OnPrem ") "gdal" = [t] /\
    runner t = "background".
Proof.
  destruct (materialized_routing_coherent demo_inventory " OnPrem " (mkItem "gdal" "process" None))
    as (t & Ht & _ & _ & Hon).
  - apply (bool_decide_unpack _). by vm_compute.
  - by apply list_elem_of_here.
  - exists t. split; [done|]. by apply Hon.
Defined.

(** Witness of [restrict_to_offload_sound]. *)
Lemma restrict_to_offload_sound_witness :
  str_mem "gcp_cloud_run" OFFLOAD_RUNNER_TYPES = true.
Proof.
  destruct (restrict_to_offload_sound id ["background"; "gcp_cloud_run"]) as [_ Hoff].
  apply (Hoff "gcp_cloud_run" "gcp_cloud_run"); [by apply list_elem_of_here|by right; left|done].
Defined.

(** ** Specificity

    The documentation says that the most specific target wins.  A target that
    declares no hint counts as serving all of them, so it is preferred to a
    target that declares exactly the requested one. *)
Lemma unhinted_target_preferred :
  select_target [OFFLOAD] "catalog" (fun _ => true)
    [mkTarget [] "gcp_cloud_run" [] [OFFLOAD]; mkTarget [] "background" [] []]
  = Some (mkTarget [] "background" [] []).
Proof. by vm_compute. Qed.
