(* ===== verification/Pmtiles.v ===== *)
(** * The PMTiles archive writer

    [tiles/writers/pmtiles_writer.py]: Hilbert tile ids, varint-packed
    directories, the fixed header, and the two entry points [write_pmtiles] and
    [write_pmtiles_from_entries].

    Bytes are integers.  [None] stands for a call that raises ([struct.error])
    or does not return.  The output stream is the list of bytes written so far.
    The optional [pmtiles] package is a parameter: its tile-id function, and its
    writer, which appends bytes to the stream and may then fail.  Products of
    floats ([int(min_lon * 1e7)]) reach the header as integers.

    The reader at the end of the definitions is the one the format documents; the
    round trip is stated against it. *)

From S2P Require Import Prelude.

(** ** Tile ids *)

Fixpoint hilbert (n : nat) (tx ty d : Z) : Z :=
  match n with
  | O => d
  | S n' =>
      let s := Z.shiftl 1 (Z.of_nat n') in
      let rx := if 0 <? Z.land tx s then 1 else 0 in
      let ry := if 0 <? Z.land ty s then 1 else 0 in
      let d := d + s * s * Z.lxor (3 * rx) ry in
      if ry =? 0 then
        let '(tx, ty) := if rx =? 1 then (s - 1 - tx, s - 1 - ty) else (tx, ty) in
        hilbert n' ty tx d
      else hilbert n' tx ty d
  end.

Definition builtin_zxy_to_tileid (z : nat) (x y : Z) : Z :=
  match z with
  | O => 0
  | _ => (4 ^ Z.of_nat z - 1) / 3 + hilbert z x y 0
  end.

(** ** Directories *)

Record entry : Type := Entry {
  tile_id : Z;
  offset : Z;
  elength : Z;
  run_length : Z;
}.

(** The loop of [_write_varint]; it does not end on a negative value. *)
Fixpoint varint_loop (fuel : nat) (value : Z) : option (list Z) :=
  match fuel with
  | O => None
  | S fuel =>
      let byte := Z.land value 127 in
      let value := Z.shiftr value 7 in
      if value =? 0 then Some [byte]
      else bs ← varint_loop fuel value; Some (Z.lor byte 128 :: bs)
  end.

Definition write_varint (value : Z) : option (list Z) :=
  varint_loop (S (Z.to_nat (Z.log2 value))) value.

(** One [_write_varint] per value, on the same buffer. *)
Fixpoint write_varints (values : list Z) : option (list Z) :=
  match values with
  | [] => Some []
  | v :: vs => b ← write_varint v; bs ← write_varints vs; Some (b ++ bs)
  end.

Fixpoint id_deltas (last_id : Z) (entries : list entry) : list Z :=
  match entries with
  | [] => []
  | e :: es => (tile_id e - last_id) :: id_deltas (tile_id e) es
  end.

(** The offset column: 0 for an entry that continues the previous one. *)
Fixpoint offset_column (prev : option entry) (entries : list entry) : list Z :=
  match entries with
  | [] => []
  | e :: es =>
      match prev with
      | Some p => if (run_length p =? 1) && (offset e =? offset p + elength p) then 0 else offset e + 1
      | None => offset e + 1
      end :: offset_column (Some e) es
  end.

Definition serialize_directory (entries : list entry) : option (list Z) :=
  write_varints (Z.of_nat (length entries) :: id_deltas 0 entries ++ map run_length entries
                 ++ map elength entries ++ offset_column None entries).

(** ** The header *)

Definition HEADER_SIZE : Z := 127.
Definition MAX_ROOT_ENTRIES : Z := 16384.
Definition LEAF_SIZE : nat := Z.to_nat 4096.
Definition COMPRESSION_NONE : Z := 1.
Definition TILE_TYPE_MVT : Z := 1.

Fixpoint le_bytes (n : nat) (v : Z) : list Z :=
  match n with
  | O => []
  | S n => v mod 256 :: le_bytes n (v / 256)
  end.

(** [struct.pack_into("<Q", ...)] and [struct.pack_into("<i", ...)]. *)
Definition pack_u64 (v : Z) : option (list Z) :=
  if (0 <=? v) && (v <? 2 ^ 64) then Some (le_bytes 8 v) else None.
Definition pack_i32 (v : Z) : option (list Z) :=
  if (- 2 ^ 31 <=? v) && (v <? 2 ^ 31) then Some (le_bytes 4 (v mod 2 ^ 32)) else None.

Fixpoint pack_all (pack : Z -> option (list Z)) (vs : list Z) : option (list Z) :=
  match vs with
  | [] => Some []
  | v :: vs => b ← pack v; bs ← pack_all pack vs; Some (b ++ bs)
  end.

Record geometry_e7 : Type := mkGeo {
  min_lon : Z; min_lat : Z; max_lon : Z; max_lat : Z; center_lon : Z; center_lat : Z;
}.

(** "PMTiles" and the version. *)
Definition magic : list Z := [80; 77; 84; 105; 108; 101; 115; 3].

(** [_write_header]: the fields fill the 127 bytes in order.  [sections] are the
    eight offsets and lengths, [n] the number of tiles. *)
Definition write_header (sections : list Z) (n : Z) (min_zoom max_zoom : Z) (g : geometry_e7)
    : option (list Z) :=
  u ← pack_all pack_u64 (sections ++ [n; n; n]);
  i ← pack_all pack_i32 [min_lon g; min_lat g; max_lon g; max_lat g];
  c ← pack_all pack_i32 [center_lon g; center_lat g];
  Some (magic ++ u ++ [1; COMPRESSION_NONE; COMPRESSION_NONE; TILE_TYPE_MVT;
                       Z.land min_zoom 255; Z.land max_zoom 255]
        ++ i ++ [Z.land ((min_zoom + max_zoom) / 2) 255] ++ c).

(** ** The writer *)

Definition blob : Type := list Z.

(** Data section and directory entries of the sorted tiles. *)
Fixpoint build_entries (raw : list (Z * blob)) (data_offset : Z) : list entry :=
  match raw with
  | [] => []
  | (id, data) :: raw =>
      Entry id data_offset (Z.of_nat (length data)) 1
        :: build_entries raw (data_offset + Z.of_nat (length data))
  end.

(** [dir_entries[i : i + leaf_size]] for [i] in [range(0, len, leaf_size)]. *)
Fixpoint chunks (fuel size : nat) (es : list entry) : list (list entry) :=
  match fuel, es with
  | S fuel, _ :: _ => take size es :: chunks fuel size (drop size es)
  | _, _ => []
  end.

Fixpoint build_leaves (cs : list (list entry)) (acc : Z) : option (list entry * list Z) :=
  match cs with
  | [] => Some ([], [])
  | c :: cs =>
      leaf_bytes ← serialize_directory c;
      let len := Z.of_nat (length leaf_bytes) in
      r ← build_leaves cs (acc + len);
      Some (Entry (match c with e :: _ => tile_id e | [] => 0 end) acc len 0 :: r.1, leaf_bytes ++ r.2)
  end.

(** Root and leaf directories. *)
Definition build_directories (es : list entry) : option (list Z * list Z) :=
  if Z.of_nat (length es) <=? MAX_ROOT_ENTRIES then
    root ← serialize_directory es; Some (root, [])
  else
    r ← build_leaves (chunks (length es) LEAF_SIZE es) 0;
    root ← serialize_directory r.1; Some (root, r.2).

(** The built-in path: the bytes of the archive. *)
Definition builtin_archive (raw : list (Z * blob)) (metadata : list Z) (min_zoom max_zoom : Z)
    (g : geometry_e7) : option (list Z) :=
  let es := build_entries raw 0 in
  let data := List.concat (map snd raw) in
  dirs ← build_directories es;
  let '(root, leaves) := dirs in
  let len (l : list Z) := Z.of_nat (length l) in
  let metadata_offset := HEADER_SIZE + len root in
  let leaf_dirs_offset := metadata_offset + len metadata in
  let tile_data_offset := leaf_dirs_offset + len leaves in
  header ← write_header [HEADER_SIZE; len root; metadata_offset; len metadata; leaf_dirs_offset; len leaves;
                         tile_data_offset; len data]
             (Z.of_nat (length es)) min_zoom max_zoom g;
  Some (header ++ root ++ metadata ++ leaves ++ data).

Record pmtiles_lib : Type := mkLib {
  lib_zxy_to_tileid : nat -> Z -> Z -> Z;
  (** the bytes the library appends to the stream, and whether it returned *)
  lib_write : list (Z * blob) -> list Z -> Z -> Z -> geometry_e7 -> list Z * bool;
}.

Section writer.
Context (lib : option pmtiles_lib).

Definition zxy_to_tileid (z : nat) (x y : Z) : Z :=
  match lib with
  | Some l => lib_zxy_to_tileid l z x y
  | None => builtin_zxy_to_tileid z x y
  end.

(** [_write_pmtiles_from_raw]: the library when installed, the built-in writer
    when it is not or when it failed.  The result is the stream and [n_tiles]. *)
Definition write_pmtiles_from_raw (raw : list (Z * blob)) (output metadata : list Z)
    (min_zoom max_zoom : Z) (g : geometry_e7) : option (list Z * Z) :=
  let builtin output :=
    a ← builtin_archive raw metadata min_zoom max_zoom g; Some (output ++ a, Z.of_nat (length raw)) in
  match lib with
  | Some l =>
      let '(written, ok) := lib_write l raw metadata min_zoom max_zoom g in
      if ok : bool then Some (output ++ written, Z.of_nat (length raw)) else builtin (output ++ written)
  | None => builtin output
  end.

(** [raw.sort(key=...)], which is stable. *)
Fixpoint insert_raw (t : Z * blob) (l : list (Z * blob)) : list (Z * blob) :=
  match l with
  | [] => [t]
  | u :: l' => if t.1 <=? u.1 then t :: l else u :: insert_raw t l'
  end.

Definition sort_raw (l : list (Z * blob)) : list (Z * blob) := foldr insert_raw [] l.

Record tile : Type := mkTile { t_z : nat; t_x : Z; t_y : Z; t_data : blob }.

Definition nonempty_tile (t : tile) : bool := match t_data t with [] => false | _ => true end.

Definition raw_of (tiles : list tile) : list (Z * blob) :=
  map (fun t => (zxy_to_tileid (t_z t) (t_x t) (t_y t), t_data t)) (List.filter nonempty_tile tiles).

(** The stream, [n_tiles] and [n_empty_tiles]. *)
Definition write_pmtiles (tiles : list tile) (output metadata : list Z) (min_zoom max_zoom : Z)
    (g : geometry_e7) : option (list Z * Z * Z) :=
  r ← write_pmtiles_from_raw (sort_raw (raw_of tiles)) output metadata min_zoom max_zoom g;
  Some (r.1, r.2, Z.of_nat (length (List.filter (fun t => negb (nonempty_tile t)) tiles))).

(** [data_source.seek(offset); data_source.read(length)]. *)
Definition read_at (off len : Z) (bytes : list Z) : list Z :=
  take (Z.to_nat len) (drop (Z.to_nat off) bytes).

Definition write_pmtiles_from_entries (entries : list entry) (data_source output metadata : list Z)
    (min_zoom max_zoom : Z) (g : geometry_e7) : option (list Z * Z) :=
  let raw := List.filter (fun t => match t.2 with [] => false | _ => true end)
               (map (fun e => (tile_id e, read_at (offset e) (elength e) data_source)) entries) in
  write_pmtiles_from_raw raw output metadata min_zoom max_zoom g.
End writer.

(** ** Two-phase archive of [tiles_preseed/task.py] *)

Section preseed.
Context (lib : option pmtiles_lib).

(** A tile with what [render_tile] gave for it; [None] is an exception. *)
Record rendered : Type := mkRendered { r_z : nat; r_x : Z; r_y : Z; r_mvt : option blob }.

(** The counters [results]. *)
Record preseed_results : Type := mkResults { generated : Z; skipped : Z; errors : Z }.

(** The loop over the tiles of a bbox: entries, the data file, and the counters. *)
Fixpoint preseed_tiles (rs : list rendered) (data_offset : Z) (results : preseed_results)
    : list entry * list Z * preseed_results :=
  match rs with
  | [] => ([], [], results)
  | r :: rs =>
      match r_mvt r with
      | Some (b :: bs) =>
          let mvt := b :: bs in
          let len := Z.of_nat (length mvt) in
          let '(es, data, results) :=
            preseed_tiles rs (data_offset + len) (mkResults (generated results + 1) (skipped results) (errors results)) in
          (Entry (zxy_to_tileid lib (r_z r) (r_x r) (r_y r)) data_offset len 1 :: es, mvt ++ data, results)
      | Some [] => preseed_tiles rs data_offset (mkResults (generated results) (skipped results + 1) (errors results))
      | None => preseed_tiles rs data_offset (mkResults (generated results) (skipped results) (errors results + 1))
      end
  end.

(** [sorted(tile_entries, key=lambda e: e.tile_id)]. *)
Fixpoint insert_entry (e : entry) (l : list entry) : list entry :=
  match l with
  | [] => [e]
  | u :: l' => if tile_id e <=? tile_id u then e :: l else u :: insert_entry e l'
  end.

Definition sort_entries (l : list entry) : list entry := foldr insert_entry [] l.

(** [_preseed_pmtiles]: the archive file and the counters. *)
Definition preseed_pmtiles (rs : list rendered) (metadata : list Z) (min_zoom max_zoom : Z) (g : geometry_e7)
    : option (list Z * preseed_results) :=
  let '(es, data, results) := preseed_tiles rs 0 (mkResults 0 0 0) in
  r ← write_pmtiles_from_entries lib (sort_entries es) data [] metadata min_zoom max_zoom g;
  Some (r.1, results).
End preseed.

(** ** The reader of the format *)

Fixpoint read_varint (bytes : list Z) : option (Z * list Z) :=
  match bytes with
  | [] => None
  | b :: bytes =>
      if b <? 128 then Some (b, bytes)
      else r ← read_varint bytes; Some (b - 128 + 128 * r.1, r.2)
  end.

Fixpoint read_varints (n : nat) (bytes : list Z) : option (list Z * list Z) :=
  match n with
  | O => Some ([], bytes)
  | S n => r ← read_varint bytes; rs ← read_varints n r.2; Some (r.1 :: rs.1, rs.2)
  end.

(** Rebuild the entries from the four columns. *)
Fixpoint rebuild (last_id prev_end : Z) (deltas runs lens offs : list Z) : list entry :=
  match deltas, runs, lens, offs with
  | d :: deltas, r :: runs, l :: lens, o :: offs =>
      let off := if o =? 0 then prev_end else o - 1 in
      Entry (last_id + d) off l r :: rebuild (last_id + d) (off + l) deltas runs lens offs
  | _, _, _, _ => []
  end.

Definition read_directory (bytes : list Z) : option (list entry) :=
  h ← read_varint bytes;
  let n := Z.to_nat h.1 in
  a ← read_varints n h.2; b ← read_varints n a.2; c ← read_varints n b.2; d ← read_varints n c.2;
  Some (rebuild 0 0 a.1 b.1 c.1 d.1).

Fixpoint le_val (bs : list Z) : Z :=
  match bs with [] => 0 | b :: bs => b + 256 * le_val bs end.

Definition get_u64 (off : Z) (archive : list Z) : Z := le_val (read_at off 8 archive).

(** The last entry whose id is at most [id]. *)
Definition find_entry (id : Z) (es : list entry) : option entry :=
  last (List.filter (fun e => tile_id e <=? id) es).

Definition covers (id : Z) (e : entry) : bool := id <? tile_id e + run_length e.

(** A tile of the archive, through the root directory and at most one leaf. *)
Definition read_tile (archive : list Z) (id : Z) : option blob :=
  let data e := read_at (get_u64 56 archive + offset e) (elength e) archive in
  root ← read_directory (read_at (get_u64 8 archive) (get_u64 16 archive) archive);
  e ← find_entry id root;
  if run_length e =? 0 then
    leaf ← read_directory (read_at (get_u64 40 archive + offset e) (elength e) archive);
    e ← find_entry id leaf;
    if covers id e then Some (data e) else None
  else if covers id e then Some (data e) else None.


(** ** Tile ids are a bijection *)

Lemma land_bit (t : Z) (n : nat) : (0 <? Z.land t (Z.shiftl 1 (Z.of_nat n))) = Z.testbit t (Z.of_nat n).
Proof.
  rewrite Z.shiftl_1_l. destruct (Z.testbit t (Z.of_nat n)) eqn:E.
  - apply Z.ltb_lt. assert (Z.land t (2 ^ Z.of_nat n) <> 0).
    { intros H0. assert (Z.testbit (Z.land t (2 ^ Z.of_nat n)) (Z.of_nat n) = false) as Hf by by rewrite H0, Z.bits_0.
      by rewrite Z.land_spec, E, Z.pow2_bits_true in Hf by lia. }
    pose proof (proj2 (Z.land_nonneg t (2 ^ Z.of_nat n))) as Hn.
    assert (0 <= 2 ^ Z.of_nat n) by (apply Z.pow_nonneg; lia). specialize (Hn (or_intror H0)). lia.
  - apply Z.ltb_ge. replace (Z.land t (2 ^ Z.of_nat n)) with 0; [lia|]. symmetry. apply Z.bits_inj'. intros i Hi.
    rewrite Z.land_spec, Z.bits_0, Z.pow2_bits_eqb by lia.
    destruct (Z.eqb_spec (Z.of_nat n) i) as [<-|]; [by rewrite E|apply andb_false_r].
Qed.

Lemma hilbert_S n x y d :
  hilbert (S n) x y d =
  let s := 2 ^ Z.of_nat n in
  match Z.testbit x (Z.of_nat n), Z.testbit y (Z.of_nat n) with
  | false, false => hilbert n y x d
  | false, true => hilbert n x y (d + s * s)
  | true, true => hilbert n x y (d + s * s * 2)
  | true, false => hilbert n (s - 1 - y) (s - 1 - x) (d + s * s * 3)
  end.
Proof.
  cbn [hilbert]. rewrite !land_bit, Z.shiftl_1_l.
  destruct (Z.testbit x _), (Z.testbit y _); cbv zeta.
  - change (Z.lxor (3 * 1) 1) with 2. done.
  - change (Z.lxor (3 * 1) 0) with 3. done.
  - change (Z.lxor (3 * 0) 1) with 1. cbn [Z.eqb]. f_equal. lia.
  - change (Z.lxor (3 * 0) 0) with 0. cbn [Z.eqb]. f_equal. lia.
Qed.

Lemma hilbert_acc n x y d : hilbert n x y d = d + hilbert n x y 0.
Proof.
  revert x y d. induction n as [|n IH]; intros x y d; [simpl; lia|].
  rewrite !hilbert_S. cbv zeta. destruct (Z.testbit x _), (Z.testbit y _);
    first [apply IH|rewrite (IH _ _ (d + _)), (IH _ _ (0 + _)); lia].
Qed.

(** Only the low bits of the coordinates matter, also when a rotation has made
    them negative. *)
Lemma hilbert_mod n x x' y y' d :
  x mod 2 ^ Z.of_nat n = x' mod 2 ^ Z.of_nat n -> y mod 2 ^ Z.of_nat n = y' mod 2 ^ Z.of_nat n ->
  hilbert n x y d = hilbert n x' y' d.
Proof.
  revert x x' y y' d. induction n as [|n IH]; intros x x' y y' d Hx Hy; [done|].
  assert (Hbit : forall a b, a mod 2 ^ Z.of_nat (S n) = b mod 2 ^ Z.of_nat (S n) ->
                 Z.testbit a (Z.of_nat n) = Z.testbit b (Z.of_nat n)).
  { intros a b Hab. rewrite <-(Z.mod_pow2_bits_low a (Z.of_nat (S n))), <-(Z.mod_pow2_bits_low b (Z.of_nat (S n))) by lia.
    by rewrite Hab. }
  assert (Hlow : forall a b, a mod 2 ^ Z.of_nat (S n) = b mod 2 ^ Z.of_nat (S n) ->
                 a mod 2 ^ Z.of_nat n = b mod 2 ^ Z.of_nat n).
  { intros a b Hab. rewrite Nat2Z.inj_succ, Z.pow_succ_r in Hab by lia.
    rewrite <-(Z.mod_mod_divide a (2 * 2 ^ Z.of_nat n)), <-(Z.mod_mod_divide b (2 * 2 ^ Z.of_nat n)) by (exists 2; lia).
    by rewrite Hab. }
  rewrite !hilbert_S. cbv zeta. rewrite (Hbit _ _ Hx), (Hbit _ _ Hy).
  assert (Hrot : forall a b, a mod 2 ^ Z.of_nat n = b mod 2 ^ Z.of_nat n ->
                 (2 ^ Z.of_nat n - 1 - a) mod 2 ^ Z.of_nat n = (2 ^ Z.of_nat n - 1 - b) mod 2 ^ Z.of_nat n).
  { intros a b Hab. rewrite Zminus_mod, Hab, <-Zminus_mod. done. }
  destruct (Z.testbit x' _), (Z.testbit y' _); apply IH; auto.
Qed.

Lemma testbit_top (x : Z) (n : nat) :
  0 <= x < 2 ^ Z.of_nat (S n) ->
  let s := 2 ^ Z.of_nat n in
  if Z.testbit x (Z.of_nat n) then x mod s = x - s /\ s <= x else x mod s = x /\ x < s.
Proof.
  intros Hx s. rewrite Nat2Z.inj_succ, Z.pow_succ_r in Hx by lia. fold s in Hx.
  assert (0 < s) by (apply Z.pow_pos_nonneg; lia).
  pose proof (Z.testbit_spec' x (Z.of_nat n) ltac:(lia)) as Hb. fold s in Hb.
  pose proof (Z.div_mod x s ltac:(lia)). pose proof (Z.mod_pos_bound x s ltac:(lia)).
  assert (x / s = 0 \/ x / s = 1) as [Hq|Hq].
  { assert (0 <= x / s < 2); [|lia]. split; [apply Z.div_pos; lia|apply Z.div_lt_upper_bound; lia]. }
  all: rewrite Hq in *; destruct (Z.testbit x (Z.of_nat n)); simpl in Hb; try (by rewrite Z.mod_small in Hb by lia); lia.
Qed.

(** The inverse of one level of the curve. *)
Fixpoint unhilbert (n : nat) (d : Z) : Z * Z :=
  match n with
  | O => (0, 0)
  | S n =>
      let s := 2 ^ Z.of_nat n in
      let q := d / (s * s) in
      let '(x, y) := unhilbert n (d mod (s * s)) in
      if q =? 0 then (y, x)
      else if q =? 1 then (x, y + s)
      else if q =? 2 then (x + s, y + s)
      else (s - 1 - y + s, s - 1 - x)
  end.

Lemma unhilbert_S n d q r x y :
  0 <= r < 2 ^ Z.of_nat n * 2 ^ Z.of_nat n -> d = 2 ^ Z.of_nat n * 2 ^ Z.of_nat n * q + r ->
  unhilbert n r = (x, y) ->
  unhilbert (S n) d =
  let s := 2 ^ Z.of_nat n in
  if q =? 0 then (y, x) else if q =? 1 then (x, y + s)
  else if q =? 2 then (x + s, y + s) else (s - 1 - y + s, s - 1 - x).
Proof.
  intros Hr -> Hxy. cbn [unhilbert]. set (S2 := _ * _) in *.
  replace ((S2 * q + r) / S2) with q by (apply (Z.div_unique _ _ q r); [lia|done]).
  replace ((S2 * q + r) mod S2) with r by (apply (Z.mod_unique _ _ q r); [lia|done]).
  by rewrite Hxy.
Qed.

Lemma hilbert_correct n x y :
  0 <= x < 2 ^ Z.of_nat n -> 0 <= y < 2 ^ Z.of_nat n ->
  0 <= hilbert n x y 0 < 2 ^ Z.of_nat n * 2 ^ Z.of_nat n /\ unhilbert n (hilbert n x y 0) = (x, y).
Proof.
  revert x y. induction n as [|n IH]; intros x y Hx Hy; [simpl in *; split; [lia|f_equal; lia]|].
  pose proof (testbit_top x n Hx) as Tx. pose proof (testbit_top y n Hy) as Ty. cbv zeta in *.
  assert (Hs : 0 < 2 ^ Z.of_nat n) by (apply Z.pow_pos_nonneg; lia).
  assert (E2 : 2 ^ Z.of_nat (S n) = 2 * 2 ^ Z.of_nat n) by (rewrite Nat2Z.inj_succ, Z.pow_succ_r; lia).
  rewrite E2 in *. set (s := 2 ^ Z.of_nat n) in *.
  rewrite hilbert_S. cbv zeta. fold s.
  assert (Hm : forall a b, a mod s = b -> 0 <= b < s -> a mod s = b mod s).
  { intros a b -> Hb. by rewrite Z.mod_small. }
  destruct (Z.testbit x _), (Z.testbit y _), Tx as [Mx Lx], Ty as [My Ly].
  - rewrite hilbert_acc, (hilbert_mod n x (x - s) y (y - s)) by (apply Hm; [done|lia]).
    destruct (IH (x - s) (y - s)) as [Hr Hu]; [lia..|]. split; [nia|].
    rewrite (unhilbert_S n _ 2 _ (x - s) (y - s) Hr); [cbv zeta; fold s; cbn [Z.eqb Pos.eqb]; f_equal; lia|fold s; lia|done].
  - rewrite hilbert_acc, (hilbert_mod n (s - 1 - y) (s - 1 - y) (s - 1 - x) (s - 1 - (x - s))).
    + destruct (IH (s - 1 - y) (s - 1 - (x - s))) as [Hr Hu]; [lia..|]. split; [nia|].
      rewrite (unhilbert_S n _ 3 _ (s - 1 - y) (s - 1 - (x - s)) Hr); [cbv zeta; fold s; cbn [Z.eqb Pos.eqb]; f_equal; lia|fold s; lia|done].
    + done.
    + apply Hm; [|lia]. symmetry. apply (Z.mod_unique _ _ (-1)); [lia|]. fold s. lia.
  - rewrite hilbert_acc, (hilbert_mod n x x y (y - s)) by first [done|apply Hm; [done|lia]].
    destruct (IH x (y - s)) as [Hr Hu]; [lia..|]. split; [nia|].
    rewrite (unhilbert_S n _ 1 _ x (y - s) Hr); [cbv zeta; fold s; cbn [Z.eqb Pos.eqb]; f_equal; lia|fold s; lia|done].
  - destruct (IH y x) as [Hr Hu]; [lia..|]. split; [nia|].
    rewrite (unhilbert_S n _ 0 _ y x Hr); [done|lia|done].
Qed.

(** The reference inverse of a tile id: the zoom is the level whose range holds
    the id. *)
Definition base (z : nat) : Z := (4 ^ Z.of_nat z - 1) / 3.

Lemma base_S z : base (S z) = base z + 4 ^ Z.of_nat z.
Proof.
  unfold base. rewrite Nat2Z.inj_succ, Z.pow_succ_r by lia.
  assert (H : exists k, 4 ^ Z.of_nat z = 3 * k + 1).
  { induction z as [|z [k IH]]; [by exists 0|]. exists (4 * k + 1). rewrite Nat2Z.inj_succ, Z.pow_succ_r by lia. lia. }
  destruct H as [k ->].
  replace (4 * (3 * k + 1) - 1) with ((4 * k + 1) * 3) by lia. replace (3 * k + 1 - 1) with (k * 3) by lia.
  rewrite !Z.div_mul by lia. lia.
Qed.

Lemma base_nonneg z : 0 <= base z.
Proof. induction z as [|z IH]; [done|]. rewrite base_S. assert (0 <= 4 ^ Z.of_nat z) by (apply Z.pow_nonneg; lia). lia. Qed.

Lemma base_mono z z' : (z <= z')%nat -> base z <= base z'.
Proof.
  induction 1 as [|z' _ IH]; [done|]. rewrite base_S.
  assert (0 <= 4 ^ Z.of_nat z') by (apply Z.pow_nonneg; lia). lia.
Qed.

Lemma square_pow n : 2 ^ Z.of_nat n * 2 ^ Z.of_nat n = 4 ^ Z.of_nat n.
Proof. rewrite <-Z.pow_mul_l. done. Qed.

(** A tile exists at its zoom level. *)
Definition valid_tile (z : nat) (x y : Z) : bool :=
  (0 <=? x) && (x <? 2 ^ Z.of_nat z) && (0 <=? y) && (y <? 2 ^ Z.of_nat z).

Lemma tileid_spec z x y :
  valid_tile z x y = true ->
  base z <= builtin_zxy_to_tileid z x y < base (S z) /\
  unhilbert z (builtin_zxy_to_tileid z x y - base z) = (x, y).
Proof.
  unfold valid_tile. intros Hv. bool_hyps. destruct (hilbert_correct z x y) as [Hr Hu]; [lia..|].
  rewrite square_pow in Hr. rewrite base_S.
  assert (builtin_zxy_to_tileid z x y = base z + hilbert z x y 0) as ->.
  { destruct z; [|done]. simpl in *. done. }
  split; [lia|]. by replace (base z + hilbert z x y 0 - base z) with (hilbert z x y 0) by lia.
Qed.

Lemma tileid_inj z x y z' x' y' :
  valid_tile z x y = true -> valid_tile z' x' y' = true ->
  builtin_zxy_to_tileid z x y = builtin_zxy_to_tileid z' x' y' -> z = z' /\ x = x' /\ y = y'.
Proof.
  intros [Hr Hu]%tileid_spec [Hr' Hu']%tileid_spec Heq. rewrite Heq in *.
  assert (z = z') as <-.
  { destruct (decide (z < z')%nat) as [Hl|Hl]; [pose proof (base_mono (S z) z' Hl); lia|].
    destruct (decide (z' < z)%nat) as [Hl'|Hl']; [pose proof (base_mono (S z') z Hl'); lia|lia]. }
  rewrite Hu in Hu'. by simplify_eq.
Qed.

Lemma tileid_nonneg z x y : valid_tile z x y = true -> 0 <= builtin_zxy_to_tileid z x y.
Proof. intros [Hr _]%tileid_spec. pose proof (base_nonneg z). lia. Qed.

(** *** The curve visits every tile, and moves to a neighbour at each step *)

Lemma unhilbert_quadrant n q r :
  0 <= r < 4 ^ Z.of_nat n -> 0 <= q <= 3 ->
  unhilbert (S n) (4 ^ Z.of_nat n * q + r) =
  let s := 2 ^ Z.of_nat n in
  let '(x, y) := unhilbert n r in
  if q =? 0 then (y, x) else if q =? 1 then (x, y + s)
  else if q =? 2 then (x + s, y + s) else (s - 1 - y + s, s - 1 - x).
Proof.
  rewrite <-square_pow. intros Hr Hq. destruct (unhilbert n r) as [x y] eqn:E.
  by rewrite (unhilbert_S n _ q r x y).
Qed.

Lemma quadrant n d :
  0 <= d < 4 ^ Z.of_nat (S n) ->
  exists q r, d = 4 ^ Z.of_nat n * q + r /\ 0 <= q <= 3 /\ 0 <= r < 4 ^ Z.of_nat n.
Proof.
  rewrite Nat2Z.inj_succ, Z.pow_succ_r by lia. intros Hd. set (m := 4 ^ Z.of_nat n) in *.
  assert (0 < m) by (apply Z.pow_pos_nonneg; lia).
  exists (d / m), (d mod m). split; [by apply Z.div_mod; lia|]. split; [|by apply Z.mod_pos_bound].
  split; [apply Z.div_pos; lia|]. assert (d / m < 4); [|lia]. apply Z.div_lt_upper_bound; lia.
Qed.

Ltac split_quadrant q Hq :=
  assert (q = 0 \/ q = 1 \/ q = 2 \/ q = 3) as [->|[->|[->| ->]]] by lia; clear Hq.

Lemma unhilbert_range n d x y :
  0 <= d < 4 ^ Z.of_nat n -> unhilbert n d = (x, y) -> 0 <= x < 2 ^ Z.of_nat n /\ 0 <= y < 2 ^ Z.of_nat n.
Proof.
  revert d x y. induction n as [|n IH]; intros d x y Hd Hxy; [by simpl in *; simplify_eq|].
  destruct (quadrant n d Hd) as (q & r & -> & Hq & Hr). rewrite unhilbert_quadrant in Hxy by done.
  destruct (unhilbert n r) as [x' y'] eqn:E. destruct (IH _ _ _ Hr E). cbv zeta in Hxy.
  rewrite Nat2Z.inj_succ, Z.pow_succ_r by lia. set (s := 2 ^ Z.of_nat n) in *.
  split_quadrant q Hq; cbn [Z.eqb Pos.eqb] in Hxy; simplify_eq; lia.
Qed.

Lemma hilbert_surjective n d x y :
  0 <= d < 4 ^ Z.of_nat n -> unhilbert n d = (x, y) -> hilbert n x y 0 = d.
Proof.
  revert d x y. induction n as [|n IH]; intros d x y Hd Hxy; [simpl in *; simplify_eq; lia|].
  destruct (quadrant n d Hd) as (q & r & -> & Hq & Hr). rewrite unhilbert_quadrant in Hxy by done.
  destruct (unhilbert n r) as [x' y'] eqn:E. destruct (unhilbert_range _ _ _ _ Hr E). cbv zeta in Hxy.
  rewrite <-(IH _ _ _ Hr E), <-square_pow, hilbert_S. cbv zeta. set (s := 2 ^ Z.of_nat n) in *.
  assert (Hlo : forall a, 0 <= a < s -> Z.testbit a (Z.of_nat n) = false).
  { intros a Ha. pose proof (testbit_top a n) as T. cbv zeta in T. fold s in T.
    rewrite Nat2Z.inj_succ, Z.pow_succ_r in T by lia. fold s in T. destruct (Z.testbit a _); [lia|done]. }
  assert (Hhi : forall a, s <= a < 2 * s -> Z.testbit a (Z.of_nat n) = true).
  { intros a Ha. pose proof (testbit_top a n) as T. cbv zeta in T. fold s in T.
    rewrite Nat2Z.inj_succ, Z.pow_succ_r in T by lia. fold s in T. destruct (Z.testbit a _); [done|lia]. }
  assert (Hm : forall a, (a + s) mod s = a mod s) by (intros a; rewrite <-(Z.mul_1_l s) at 1; apply Z.mod_add; lia).
  split_quadrant q Hq; cbn [Z.eqb Pos.eqb] in Hxy; simplify_eq.
  - rewrite !Hlo by lia. lia.
  - rewrite (Hlo x), Hhi by lia. rewrite hilbert_acc, (hilbert_mod n _ x _ y') by done. lia.
  - rewrite !Hhi by lia. rewrite hilbert_acc, (hilbert_mod n _ x' _ y') by done. lia.
  - rewrite (Hlo (s - 1 - x')), Hhi by lia.
    rewrite hilbert_acc, (hilbert_mod n _ x' _ y'); [lia|by f_equal; lia|].
    fold s. replace (s - 1 - (s - 1 - y' + s)) with (y' - s) by lia. by rewrite <-(Hm (y' - s)), Z.sub_add.
Qed.

Lemma unhilbert_first n : unhilbert n 0 = (0, 0).
Proof.
  induction n as [|n IH]; [done|]. replace 0 with (4 ^ Z.of_nat n * 0 + 0) at 1 by lia.
  rewrite unhilbert_quadrant, IH; [done|split; [lia|apply Z.pow_pos_nonneg; lia]|lia].
Qed.

Lemma unhilbert_last n : unhilbert n (4 ^ Z.of_nat n - 1) = (2 ^ Z.of_nat n - 1, 0).
Proof.
  induction n as [|n IH]; [done|].
  assert (0 < 4 ^ Z.of_nat n) by (apply Z.pow_pos_nonneg; lia).
  rewrite Nat2Z.inj_succ, !Z.pow_succ_r by lia.
  replace (4 * 4 ^ Z.of_nat n - 1) with (4 ^ Z.of_nat n * 3 + (4 ^ Z.of_nat n - 1)) by lia.
  rewrite unhilbert_quadrant, IH by lia. cbv zeta. cbn [Z.eqb Pos.eqb]. f_equal; lia.
Qed.

(** Two tiles that share a side. *)
Definition neighbours (p q : Z * Z) : Prop := Z.abs (p.1 - q.1) + Z.abs (p.2 - q.2) = 1.

Lemma unhilbert_step n d :
  0 <= d -> d + 1 < 4 ^ Z.of_nat n -> neighbours (unhilbert n d) (unhilbert n (d + 1)).
Proof.
  revert d. induction n as [|n IH]; intros d Hd Hd1; [simpl in *; lia|].
  destruct (quadrant n d) as (q & r & -> & Hq & Hr); [lia|].
  rewrite Nat2Z.inj_succ, Z.pow_succ_r in Hd1 by lia. set (m := 4 ^ Z.of_nat n) in *.
  destruct (decide (r + 1 < m)) as [Hlt|Hge].
  - specialize (IH r (proj1 Hr) Hlt). rewrite <-Z.add_assoc, !unhilbert_quadrant by (fold m; lia).
    destruct (unhilbert n r) as [x y], (unhilbert n (r + 1)) as [x' y']. unfold neighbours in *. cbv zeta.
    split_quadrant q Hq; cbn [Z.eqb Pos.eqb fst snd] in *; lia.
  - assert (r = m - 1) as -> by lia. replace (m * q + (m - 1) + 1) with (m * (q + 1) + 0) by lia.
    assert (q <> 3) by nia. subst m. rewrite !unhilbert_quadrant, unhilbert_first, unhilbert_last by lia.
    unfold neighbours. cbv zeta. set (s := 2 ^ Z.of_nat n).
    split_quadrant q Hq; try done; try change (0 + 1) with 1; try change (1 + 1) with 2;
      try change (2 + 1) with 3; cbn [Z.eqb Pos.eqb fst snd]; lia.
Qed.

(** ** Varints and directories *)

Lemma lor_128 b : 0 <= b < 128 -> Z.lor b 128 = b + 128.
Proof.
  intros Hb. symmetry. apply Z.add_nocarry_lor. apply Z.bits_inj'. intros i Hi.
  rewrite Z.land_spec, Z.bits_0. change 128 with (2 ^ 7). rewrite Z.pow2_bits_eqb by lia.
  destruct (Z.eqb_spec 7 i) as [<-|]; [|apply andb_false_r].
  rewrite <-(Z.mod_small b (2 ^ 7)) by lia. by rewrite Z.mod_pow2_bits_high by lia.
Qed.

Lemma varint_loop_S fuel v :
  varint_loop (S fuel) v =
  if Z.shiftr v 7 =? 0 then Some [Z.land v 127]
  else bs ← varint_loop fuel (Z.shiftr v 7); Some (Z.lor (Z.land v 127) 128 :: bs).
Proof. done. Qed.

Lemma varint_loop_spec fuel v :
  0 <= v < 2 ^ Z.of_nat (fuel + 7) ->
  exists bs, varint_loop (S fuel) v = Some bs /\ forall rest, read_varint (bs ++ rest) = Some (v, rest).
Proof.
  revert v. induction fuel as [|fuel IH]; intros v Hv; rewrite varint_loop_S;
    change 127 with (Z.ones 7); rewrite Z.shiftr_div_pow2, Z.land_ones by lia; change (2 ^ 7) with 128;
    pose proof (Z.div_mod v 128 ltac:(lia)) as Hdm; pose proof (Z.mod_pos_bound v 128 ltac:(lia)) as Hm.
  - simpl in Hv. rewrite Z.div_small in * by lia. exists [v mod 128]. split; [done|]. intros rest. simpl.
    destruct (Z.ltb_spec (v mod 128) 128); [do 2 f_equal; lia|lia].
  - destruct (Z.eqb_spec (v / 128) 0) as [E|E].
    + exists [v mod 128]. split; [done|]. intros rest. simpl.
      destruct (Z.ltb_spec (v mod 128) 128); [do 2 f_equal; lia|lia].
    + destruct (IH (v / 128)) as (bs & Hbs & Hread).
      { split; [apply Z.div_pos; lia|]. apply Z.div_lt_upper_bound; [lia|].
        replace (S fuel + 7)%nat with (S (fuel + 7)) in Hv by lia.
        rewrite Nat2Z.inj_succ, Z.pow_succ_r in Hv by lia.
        assert (0 < 2 ^ Z.of_nat (fuel + 7)) by (apply Z.pow_pos_nonneg; lia). lia. }
      rewrite Hbs. eexists; split; [done|]. intros rest. rewrite lor_128 by lia. simpl.
      destruct (Z.ltb_spec (v mod 128 + 128) 128); [lia|]. rewrite Hread. simpl. do 2 f_equal. lia.
Qed.

Lemma write_varint_spec v :
  0 <= v -> exists bs, write_varint v = Some bs /\ forall rest, read_varint (bs ++ rest) = Some (v, rest).
Proof.
  intros Hv. apply varint_loop_spec. split; [done|].
  destruct (decide (v = 0)) as [->|Hn]; [by apply Z.pow_pos_nonneg; lia|].
  pose proof (Z.log2_spec v ltac:(lia)) as [_ Hl].
  eapply Z.lt_le_trans; [exact Hl|]. apply Z.pow_le_mono_r; [lia|]. pose proof (Z.log2_nonneg v). lia.
Qed.

(** On a negative value no number of iterations is enough. *)
Lemma varint_negative fuel v : v < 0 -> varint_loop fuel v = None.
Proof.
  revert v. induction fuel as [|fuel IH]; intros v Hv; [done|]. rewrite varint_loop_S.
  assert (Z.shiftr v 7 < 0) as Hs by by apply Z.shiftr_neg.
  rewrite (proj2 (Z.eqb_neq _ _)) by lia. by rewrite IH.
Qed.

Lemma write_varints_spec vs :
  Forall (fun v => 0 <= v) vs ->
  exists bs, write_varints vs = Some bs /\ forall rest, read_varints (length vs) (bs ++ rest) = Some (vs, rest).
Proof.
  induction 1 as [|v vs Hv _ (bs & Hw & Hr)]; [by exists []|].
  destruct (write_varint_spec v Hv) as (b & Hb & Hrv). exists (b ++ bs). simpl. rewrite Hb, Hw.
  split; [done|]. intros rest. rewrite <-app_assoc, Hrv. simpl. by rewrite Hr.
Qed.

Lemma write_varints_app u v bu bv :
  write_varints u = Some bu -> write_varints v = Some bv -> write_varints (u ++ v) = Some (bu ++ bv).
Proof.
  revert bu. induction u as [|x u IH]; intros bu; simpl; [by intros [= <-]|].
  destruct (write_varint x) as [bx|]; simpl; [|done].
  destruct (write_varints u) as [bu'|] eqn:Eu; simpl; [|done]. intros [= <-] Hv.
  rewrite (IH bu' eq_refl Hv). simpl. by rewrite app_assoc.
Qed.

(** The entries a directory can hold: ids do not decrease, sizes and offsets are
    not negative. *)
Fixpoint entries_ok (last_id : Z) (es : list entry) : Prop :=
  match es with
  | [] => True
  | e :: es => last_id <= tile_id e /\ 0 <= offset e /\ 0 <= elength e /\ 0 <= run_length e
               /\ entries_ok (tile_id e) es
  end.

Lemma offset_column_ok prev last_id es :
  entries_ok last_id es -> Forall (fun v => 0 <= v) (offset_column prev es).
Proof.
  revert prev last_id. induction es as [|e es IH]; intros prev last_id; [constructor|].
  intros (_ & Ho & _ & _ & Hes). constructor; [|by eapply IH].
  destruct prev as [p|]; [destruct (_ && _)|]; lia.
Qed.

Lemma columns_ok last_id es :
  entries_ok last_id es ->
  Forall (fun v => 0 <= v) (id_deltas last_id es ++ map run_length es ++ map elength es).
Proof.
  intros H. rewrite !Forall_app.
  revert last_id H. induction es as [|e es IH]; intros last_id; [repeat constructor|].
  intros (Hi & _ & Hl & Hr & Hes). destruct (IH _ Hes) as (? & ? & ?).
  split_and!; constructor; simpl; (lia || done).
Qed.

Lemma rebuild_columns last_id prev es :
  entries_ok last_id es ->
  rebuild last_id (match prev with Some p => offset p + elength p | None => 0 end)
    (id_deltas last_id es) (map run_length es) (map elength es) (offset_column prev es) = es.
Proof.
  revert last_id prev. induction es as [|e es IH]; intros last_id prev; [done|].
  intros (_ & Ho & _ & _ & Hes). simpl. replace (last_id + (tile_id e - last_id)) with (tile_id e) by lia.
  assert (Hoff : (if (match prev with
                      | Some p => if (run_length p =? 1) && (offset e =? offset p + elength p) then 0 else offset e + 1
                      | None => offset e + 1
                      end) =? 0
                  then match prev with Some p => offset p + elength p | None => 0 end
                  else match prev with
                       | Some p => if (run_length p =? 1) && (offset e =? offset p + elength p) then 0 else offset e + 1
                       | None => offset e + 1
                       end - 1) = offset e).
  { destruct prev as [p|]; [destruct ((run_length p =? 1) && (offset e =? offset p + elength p)) eqn:E|].
    - bool_hyps. simpl. lia.
    - rewrite (proj2 (Z.eqb_neq (offset e + 1) 0)) by lia. lia.
    - rewrite (proj2 (Z.eqb_neq (offset e + 1) 0)) by lia. lia. }
  rewrite Hoff. f_equal; [by destruct e|]. apply (IH (tile_id e) (Some e) Hes).
Qed.

Lemma length_id_deltas l es : length (id_deltas l es) = length es.
Proof. revert l. induction es; intros; simpl; auto. Qed.
Lemma length_offset_column p es : length (offset_column p es) = length es.
Proof. revert p. induction es; intros; simpl; auto. Qed.

Lemma directory_roundtrip_gen es :
  entries_ok 0 es ->
  exists bs, serialize_directory es = Some bs /\ forall rest, read_directory (bs ++ rest) = Some es.
Proof.
  intros Hok. unfold serialize_directory, read_directory.
  destruct (write_varint_spec (Z.of_nat (length es))) as (b & Hb & Hrb); [lia|].
  pose proof (columns_ok 0 es Hok) as Hcols. pose proof (offset_column_ok None 0 es Hok) as Hoff.
  rewrite !Forall_app in Hcols. destruct Hcols as (H1 & H2 & H3).
  destruct (write_varints_spec _ H1) as (b1 & W1 & R1). destruct (write_varints_spec _ H2) as (b2 & W2 & R2).
  destruct (write_varints_spec _ H3) as (b3 & W3 & R3). destruct (write_varints_spec _ Hoff) as (b4 & W4 & R4).
  exists (b ++ b1 ++ b2 ++ b3 ++ b4). split.
  - cbn [write_varints]. rewrite Hb. cbn [mbind option_bind].
    rewrite (write_varints_app _ _ _ _ W1 (write_varints_app _ _ _ _ W2 (write_varints_app _ _ _ _ W3 W4))). done.
  - intros rest. rewrite <-!app_assoc, Hrb. cbn [mbind option_bind fst snd]. rewrite Nat2Z.id.
    rewrite length_id_deltas in R1. rewrite length_map in R2, R3. rewrite length_offset_column in R4.
    rewrite R1. cbn [mbind option_bind fst snd]. rewrite R2. cbn [mbind option_bind fst snd].
    rewrite R3. cbn [mbind option_bind fst snd]. rewrite R4. cbn [mbind option_bind fst snd].
    f_equal. apply (rebuild_columns 0 None es Hok).
Qed.

(** ** Reading a part of the archive *)

Lemma read_at_mid (off len : Z) (a b c : list Z) :
  off = Z.of_nat (length a) -> len = Z.of_nat (length b) -> read_at off len (a ++ b ++ c) = b.
Proof. intros -> ->. unfold read_at. by rewrite !Nat2Z.id, drop_app_length, take_app_length. Qed.

Lemma le_bytes_length n v : length (le_bytes n v) = n.
Proof. revert v. induction n; intros; simpl; auto. Qed.

Lemma le_val_bytes n v : 0 <= v < 256 ^ Z.of_nat n -> le_val (le_bytes n v) = v.
Proof.
  revert v. induction n as [|n IH]; intros v Hv; [simpl in *; lia|].
  rewrite Nat2Z.inj_succ, Z.pow_succ_r in Hv by lia. simpl. rewrite IH.
  - pose proof (Z.div_mod v 256). lia.
  - split; [apply Z.div_pos; lia|apply Z.div_lt_upper_bound; lia].
Qed.

Lemma pack_u64_inv v b : pack_u64 v = Some b -> b = le_bytes 8 v /\ 0 <= v < 2 ^ 64.
Proof. unfold pack_u64. case_match eqn:Er; [|done]. intros [= <-]. bool_hyps. split; [done|lia]. Qed.

Lemma pack_i32_length v b : pack_i32 v = Some b -> length b = 4%nat.
Proof. unfold pack_i32. case_match; [|done]. by intros [= <-]. Qed.

Lemma pack_all_u64 vs u :
  pack_all pack_u64 vs = Some u ->
  length u = (8 * length vs)%nat /\
  forall k v a c, vs !! k = Some v -> get_u64 (Z.of_nat (length a + 8 * k)) (a ++ u ++ c) = v.
Proof.
  revert u. induction vs as [|v vs IH]; intros u; cbn [pack_all]; [by intros [= <-]|].
  destruct (pack_u64 v) as [b|] eqn:Eb; cbn [mbind option_bind]; [|done].
  destruct (pack_all pack_u64 vs) as [u'|]; cbn [mbind option_bind]; [|done]. intros [= <-].
  destruct (IH u' eq_refl) as [Hlen Hget]. apply pack_u64_inv in Eb as [-> Hv].
  split; [rewrite length_app, le_bytes_length; cbn [length]; lia|].
  intros [|k] v' a c Hk; simpl in Hk; simplify_eq.
  - unfold get_u64. rewrite (read_at_mid _ _ a (le_bytes 8 v') (u' ++ c)); [by apply le_val_bytes|lia|done].
  - specialize (Hget k v' (a ++ le_bytes 8 v) c Hk). rewrite length_app, le_bytes_length in Hget.
    rewrite <-Hget. f_equal; [lia|]. by rewrite <-!app_assoc.
Qed.

Lemma pack_all_i32_length vs u : pack_all pack_i32 vs = Some u -> length u = (4 * length vs)%nat.
Proof.
  revert u. induction vs as [|v vs IH]; intros u; cbn [pack_all]; [by intros [= <-]|].
  destruct (pack_i32 v) as [b|] eqn:Eb; cbn [mbind option_bind]; [|done].
  destruct (pack_all pack_i32 vs) as [u'|]; cbn [mbind option_bind]; [|done]. intros [= <-].
  rewrite length_app, (pack_i32_length _ _ Eb), (IH u' eq_refl). cbn [length]. lia.
Qed.

(** The header is 127 bytes, and its 64-bit fields read back. *)
Lemma write_header_spec sections n mn mx g h :
  length sections = 8%nat -> write_header sections n mn mx g = Some h ->
  length h = 127%nat /\
  forall k v rest, sections !! k = Some v -> get_u64 (Z.of_nat (8 + 8 * k)) (h ++ rest) = v.
Proof.
  intros Hs. unfold write_header.
  destruct (pack_all pack_u64 _) as [u|] eqn:Eu; cbn [mbind option_bind]; [|done].
  destruct (pack_all pack_i32 [min_lon g; min_lat g; max_lon g; max_lat g]) as [i|] eqn:Ei; cbn [mbind option_bind]; [|done].
  destruct (pack_all pack_i32 [center_lon g; center_lat g]) as [c|] eqn:Ec; cbn [mbind option_bind]; [|done].
  intros <-%Some_inj. apply pack_all_u64 in Eu as [Hu Hget]. apply pack_all_i32_length in Ei, Ec.
  rewrite length_app, Hs in Hu. simpl in Hu, Ei, Ec. split.
  - rewrite !length_app, Hu, Ei, Ec. done.
  - intros k v rest Hk. rewrite <-!app_assoc. apply (Hget k v magic). by apply lookup_app_l_Some.
Qed.

(** ** Looking up an entry *)

Definition ids_increase (es : list entry) : Prop := StronglySorted (fun e e' => tile_id e < tile_id e') es.

Lemma last_cons_some {A} (x y : A) l : last l = Some y -> last (x :: l) = Some y.
Proof. by destruct l. Qed.

Lemma find_entry_in id es e : find_entry id es = Some e -> e ∈ es /\ tile_id e <= id.
Proof.
  unfold find_entry. intros H%last_Some_elem_of. apply list_elem_of_In, filter_In in H as [H%list_elem_of_In ?].
  split; [done|]. by apply Z.leb_le.
Qed.

Lemma find_entry_hit es e : ids_increase es -> e ∈ es -> find_entry (tile_id e) es = Some e.
Proof.
  unfold find_entry. induction 1 as [|a es _ IH Ha]; [by intros ?%elem_of_nil|].
  rewrite elem_of_cons. intros [->|He]; simpl.
  - rewrite Z.leb_refl. assert (List.filter (fun e => tile_id e <=? tile_id a) es = []) as ->; [|done].
    clear IH. induction Ha as [|b es Hb _ IH]; [done|]. simpl. by rewrite (proj2 (Z.leb_gt _ _)).
  - destruct (tile_id a <=? tile_id e); [|auto]. apply last_cons_some; auto.
Qed.

Lemma find_covers es id e :
  ids_increase es -> Forall (fun e => run_length e = 1) es ->
  (find_entry id es = Some e /\ covers id e = true) <-> (e ∈ es /\ tile_id e = id).
Proof.
  intros Hs Hr. unfold covers. split.
  - intros [[He Hle]%find_entry_in Hc%Z.ltb_lt]. split; [done|].
    rewrite (proj1 (Forall_forall _ _) Hr e He) in Hc. lia.
  - intros [He <-]. split; [by apply find_entry_hit|].
    rewrite (proj1 (Forall_forall _ _) Hr e He). apply Z.ltb_lt. lia.
Qed.

(** *** Chunks *)

Definition head_id (c : list entry) : Z := match c with e :: _ => tile_id e | [] => 0 end.

Definition find_chunk (id : Z) (cs : list (list entry)) : option (list entry) :=
  last (List.filter (fun c => head_id c <=? id) cs).

Definition chunk_ok (c : list entry) : Prop := c <> [] /\ Forall (fun e => head_id c <= tile_id e) c.

Lemma filter_nil_of {A} (p : A -> bool) l : Forall (fun x => p x = false) l -> List.filter p l = [].
Proof. induction 1 as [|x l Hx _ IH]; [done|]. simpl. by rewrite Hx. Qed.

Lemma find_in_chunks id cs :
  Forall chunk_ok cs -> find_entry id (List.concat cs) = c ← find_chunk id cs; find_entry id c.
Proof.
  unfold find_entry, find_chunk. induction 1 as [|c cs [Hne Hc] Hcs IH]; [done|].
  simpl. rewrite List.filter_app.
  destruct (last (List.filter (fun c => head_id c <=? id) cs)) as [c'|] eqn:El.
  - simpl in IH. assert (exists e, last (List.filter (fun e => tile_id e <=? id) (List.concat cs)) = Some e) as [e He].
    { rewrite IH. apply last_Some_elem_of in El. apply list_elem_of_In, filter_In in El as [Hin%list_elem_of_In Hle].
      pose proof (proj1 (Forall_forall _ _) Hcs c' Hin) as [Hne' _]. destruct c' as [|e0 c']; [done|].
      simpl in *. rewrite Hle. destruct (last (e0 :: _)) as [e1|] eqn:E1; [eauto|]. by apply last_None in E1. }
    rewrite last_app, He. rewrite IH in He. destruct (head_id c <=? id); [by rewrite (last_cons_some _ _ _ El)|by rewrite El].
  - apply last_None in El. rewrite El. simpl in IH. apply last_None in IH. rewrite IH, app_nil_r.
    destruct (head_id c <=? id) eqn:Eh; [done|]. simpl.
    rewrite filter_nil_of; [done|]. eapply Forall_impl; [exact Hc|]. simpl. intros e He. apply Z.leb_gt in Eh. apply Z.leb_gt. lia.
Qed.

(** *** What the writer builds *)

Definition ids_sorted (raw : list (Z * blob)) : Prop := StronglySorted (fun a b => a.1 < b.1) raw.

(** The entry of a tile points at its bytes. *)
Definition points_at (data : list Z) (base_off : Z) (e : entry) (t : Z * blob) : Prop :=
  tile_id e = t.1 /\ run_length e = 1 /\ base_off <= offset e /\ 0 <= elength e /\
  forall a c, read_at (Z.of_nat (length a) - base_off + offset e) (elength e) (a ++ data ++ c) = t.2.

Lemma build_entries_spec raw off :
  Forall2 (points_at (List.concat (map snd raw)) off) (build_entries raw off) raw.
Proof.
  revert off. induction raw as [|[id d] raw IH]; intros off; [constructor|]. cbn [build_entries map snd List.concat].
  constructor.
  - split_and!; cbn [tile_id run_length offset elength fst snd]; try (done || lia).
    intros a c. rewrite <-app_assoc. apply read_at_mid; lia.
  - eapply Forall2_impl; [apply IH|]. intros e t (? & ? & ? & ? & Hread). split_and!; try (done || lia).
    intros a c. rewrite <-app_assoc, (app_assoc a d).
    rewrite <-(Hread (a ++ d) c). f_equal. rewrite length_app. lia.
Qed.

Lemma points_at_ids data off es raw :
  Forall2 (points_at data off) es raw -> ids_sorted raw -> ids_increase es.
Proof.
  induction 1 as [|e t es raw (He & _) Hes IH]; intros Hs; [constructor|].
  apply StronglySorted_inv in Hs as [Hs Ht]. constructor; [by apply IH|]. rewrite He.
  clear -Hes Ht. induction Hes as [|e' t' es raw (He' & _) _ IH]; [constructor|].
  apply Forall_cons in Ht as [? ?]. constructor; [by rewrite He'|auto].
Qed.

Lemma points_at_runs data off es raw :
  Forall2 (points_at data off) es raw -> Forall (fun e => run_length e = 1) es.
Proof. induction 1 as [|e t es raw (_ & ? & _) _ IH]; constructor; auto. Qed.

Lemma entries_ok_sorted es lo :
  ids_increase es -> Forall (fun e => 0 <= offset e /\ 0 <= elength e /\ 0 <= run_length e) es ->
  Forall (fun e => lo <= tile_id e) es -> entries_ok lo es.
Proof.
  intros Hs. revert lo. induction Hs as [|e es _ IH He]; intros lo Hf Hlo; [done|].
  apply Forall_cons in Hf as [(? & ? & ?) Hf]. apply Forall_cons in Hlo as [? _].
  simpl. split_and!; try done. apply IH; [done|]. eapply Forall_impl; [exact He|]. simpl. lia.
Qed.

Lemma points_at_entries_ok data off es raw lo :
  0 <= off -> Forall2 (points_at data off) es raw -> ids_sorted raw -> Forall (fun t => lo <= t.1) raw ->
  entries_ok lo es.
Proof.
  intros Ho H Hs Hlo. apply entries_ok_sorted; [by eapply points_at_ids| |].
  - clear -Ho H. induction H as [|e t es raw (_ & ? & ? & ? & _) _ IH]; constructor; [lia|auto].
  - clear -H Hlo. induction H as [|e t es raw (Ht & _) _ IH]; [constructor|].
    apply Forall_cons in Hlo as [? ?]. constructor; [by rewrite Ht|auto].
Qed.

(** Chunks of an increasing list. *)
Lemma ids_increase_app es es' :
  ids_increase (es ++ es') -> ids_increase es /\ ids_increase es' /\
  forall e e', e ∈ es -> e' ∈ es' -> tile_id e < tile_id e'.
Proof.
  induction es as [|a es IH]; [intros H; split_and!; [constructor|done|by intros ? ? ?%elem_of_nil]|].
  simpl. intros [H Ha]%StronglySorted_inv. destruct (IH H) as (H1 & H2 & H3).
  apply Forall_app in Ha as [Ha Ha']. split_and!; [by constructor|done|].
  intros e e' [->|He]%elem_of_cons He'; [by apply (proj1 (Forall_forall _ _) Ha')|by apply H3].
Qed.

Lemma chunk_ok_increase c : c <> [] -> ids_increase c -> chunk_ok c.
Proof.
  intros Hne Hi. destruct Hi as [|e c' _ He]; [done|]. split; [done|]. constructor; [done|].
  eapply Forall_impl; [exact He|]. simpl. lia.
Qed.

Lemma chunks_concat fuel size es : (0 < size)%nat -> (length es <= fuel)%nat -> List.concat (chunks fuel size es) = es.
Proof.
  revert es. induction fuel as [|fuel IH]; intros [|e es] Hs Hf; simpl in *; try done; [lia|].
  change (take size (e :: es) ++ List.concat (chunks fuel size (drop size (e :: es))) = e :: es).
  rewrite IH; [apply take_drop|done|]. rewrite length_drop. simpl. lia.
Qed.

Lemma chunks_ok fuel size es :
  (0 < size)%nat -> ids_increase es ->
  Forall (fun c => c <> [] /\ ids_increase c /\ exists a b, es = a ++ c ++ b) (chunks fuel size es).
Proof.
  revert es. induction fuel as [|fuel IH]; intros [|e es] Hs Hi; try constructor.
  - rewrite <-(take_drop size (e :: es)) in Hi. apply ids_increase_app in Hi as (Hi & _).
    split_and!; [by destruct size; [lia|]|done|]. exists [], (drop size (e :: es)). by rewrite take_drop.
  - eapply Forall_impl; [apply IH; [done|]|].
    + rewrite <-(take_drop size (e :: es)) in Hi. by apply ids_increase_app in Hi as (_ & Hi & _).
    + intros c (? & ? & a & b & Hab). split_and!; try done. exists (take size (e :: es) ++ a), b.
      by rewrite <-app_assoc, <-Hab, take_drop.
Qed.

Lemma chunk_heads_increase fuel size es roots :
  (0 < size)%nat -> ids_increase es ->
  Forall2 (fun e c => tile_id e = head_id c) roots (chunks fuel size es) ->
  ids_increase roots /\ forall e lo, e ∈ roots -> Forall (fun x => lo <= tile_id x) es -> lo <= tile_id e.
Proof.
  revert es roots. induction fuel as [|fuel IH]; intros es roots Hs Hi Hr.
  - simpl in Hr. inversion Hr. split; [constructor|by intros ? ? ?%elem_of_nil].
  - destruct es as [|e0 es]; simpl in Hr; [inversion Hr; split; [constructor|by intros ? ? ?%elem_of_nil]|].
    inversion Hr as [|e c roots' cs He Hr']; subst. destruct size as [|size]; [lia|]. simpl in He.
    assert (Hd : ids_increase (drop size es) /\ Forall (fun x => tile_id e0 + 1 <= tile_id x) (drop size es)).
    { apply StronglySorted_inv in Hi as [Hi He0]. rewrite <-(take_drop size es) in Hi, He0.
      apply ids_increase_app in Hi as (_ & Hi & _). apply Forall_app in He0 as [_ He0].
      split; [done|]. eapply Forall_impl; [exact He0|]. simpl. lia. }
    destruct (IH _ _ Hs (proj1 Hd) Hr') as [Hinc Hlo]. split.
    + constructor; [done|]. apply Forall_forall. intros e' He'. specialize (Hlo e' _ He' (proj2 Hd)). lia.
    + intros e' lo [->|He']%elem_of_cons Hall; apply Forall_cons in Hall as [H0 Hall]; [lia|].
      specialize (Hlo e' _ He' (proj2 Hd)). lia.
Qed.

(** The root entry of a chunk points at its leaf directory. *)
Definition leads_to (bytes : list Z) (base_off : Z) (e : entry) (c : list entry) : Prop :=
  tile_id e = head_id c /\ run_length e = 0 /\ base_off <= offset e /\ 0 <= elength e /\
  forall a b, read_directory (read_at (Z.of_nat (length a) - base_off + offset e) (elength e) (a ++ bytes ++ b)) = Some c.

Lemma build_leaves_spec cs acc :
  Forall (entries_ok 0) cs ->
  exists roots bytes, build_leaves cs acc = Some (roots, bytes) /\ Forall2 (leads_to bytes acc) roots cs.
Proof.
  intros H. revert acc. induction H as [|c cs Hc _ IH]; intros acc; [exists [], []; split; [done|constructor]|].
  destruct (directory_roundtrip_gen c Hc) as (bs & Hbs & Hread). cbn [build_leaves]. rewrite Hbs. cbn [mbind option_bind].
  destruct (IH (acc + Z.of_nat (length bs))) as (roots & bytes & -> & Hroots). cbn [mbind option_bind fst snd].
  do 2 eexists. split; [done|]. constructor.
  - split_and!; cbn [tile_id run_length offset elength]; try (done || lia).
    intros a b. rewrite <-app_assoc, read_at_mid by lia. rewrite <-(app_nil_r bs). apply Hread.
  - eapply Forall2_impl; [exact Hroots|]. intros e c' (? & ? & ? & ? & Hr). split_and!; try (done || lia).
    intros a b. rewrite <-app_assoc, (app_assoc a bs). rewrite <-(Hr (a ++ bs) b). do 2 f_equal. rewrite length_app. lia.
Qed.

Lemma entries_ok_weaken lo lo' es : lo <= lo' -> entries_ok lo' es -> entries_ok lo es.
Proof. destruct es; simpl; [done|]. intros ? (? & ?). split; [lia|done]. Qed.

Lemma leads_to_find bytes off roots cs id :
  Forall2 (leads_to bytes off) roots cs ->
  match find_entry id roots, find_chunk id cs with
  | Some e, Some c => leads_to bytes off e c
  | None, None => True
  | _, _ => False
  end.
Proof.
  unfold find_entry, find_chunk. induction 1 as [|e c roots cs Hec _ IH]; [done|]. simpl.
  destruct Hec as (Hid & Hrest). rewrite Hid. destruct (head_id c <=? id); [|done].
  destruct (last (List.filter (fun e => tile_id e <=? id) roots)) as [e'|] eqn:E1,
    (last (List.filter (fun c => head_id c <=? id) cs)) as [c'|] eqn:E2; try done.
  - by rewrite (last_cons_some _ _ _ E1), (last_cons_some _ _ _ E2).
  - apply last_None in E1, E2. rewrite E1, E2. by split.
Qed.

(** The bytes before a section do not matter, once its offset is known. *)
Lemma tile_in_data data es raw (a c : list Z) id d :
  Forall2 (points_at data 0) es raw -> ids_sorted raw ->
  (exists e, find_entry id es = Some e /\ covers id e = true /\
     read_at (Z.of_nat (length a) + offset e) (elength e) (a ++ data ++ c) = d) <-> (id, d) ∈ raw.
Proof.
  intros Hes Hs. pose proof (points_at_ids _ _ _ _ Hes Hs) as Hi. pose proof (points_at_runs _ _ _ _ Hes) as Hr.
  trans (exists e, (e ∈ es /\ tile_id e = id) /\ read_at (Z.of_nat (length a) + offset e) (elength e) (a ++ data ++ c) = d).
  { split.
    - intros (e & Hf & Hc & Hd). exists e. split; [by apply find_covers|done].
    - intros (e & He%find_covers & Hd); [|done..]. exists e. naive_solver. }
  clear Hs Hi Hr. induction Hes as [|e t es raw (Hid & _ & _ & _ & Hread) _ IH].
  - split; [by intros (? & [?%elem_of_nil _] & _)|by intros ?%elem_of_nil].
  - specialize (Hread a c). rewrite Z.sub_0_r in Hread. rewrite elem_of_cons, <-IH. setoid_rewrite elem_of_cons. split.
    + intros (e' & [[->|He'] <-] & <-); [left|right; eauto 10]. rewrite Hid, Hread. by destruct t.
    + intros [<-|(e' & [He' <-] & <-)]; [exists e|exists e']; simpl in *; split_and!; auto.
Qed.

(** The entry of a tile through the root directory and at most one leaf. *)
Definition find_through (rs : list entry) (id : Z) (leaf_at : entry -> option (list entry)) : option entry :=
  e ← find_entry id rs; if run_length e =? 0 then leaf ← leaf_at e; find_entry id leaf else Some e.

Lemma entries_ok_app_l lo c b : entries_ok lo (c ++ b) -> entries_ok lo c.
Proof. revert lo. induction c as [|e c IH]; intros lo; simpl; [done|]. naive_solver. Qed.

Lemma entries_ok_app_r lo a c : 0 <= lo -> entries_ok lo (a ++ c) -> entries_ok 0 c.
Proof.
  revert lo. induction a as [|e a IH]; intros lo Hlo; simpl; [by apply entries_ok_weaken|].
  intros (? & ? & ? & ? & ?). apply (IH (tile_id e)); [lia|done].
Qed.

Lemma entries_ok_nonneg lo es : 0 <= lo -> entries_ok lo es -> Forall (fun x => 0 <= tile_id x) es.
Proof.
  revert lo. induction es as [|e es IH]; intros lo Hlo; [constructor|]. intros (? & _ & _ & _ & H).
  constructor; [lia|]. apply (IH (tile_id e)); [lia|done].
Qed.

Lemma build_directories_spec es :
  ids_increase es -> entries_ok 0 es -> Forall (fun e => run_length e = 1) es ->
  exists root leaves rs, build_directories es = Some (root, leaves) /\ read_directory root = Some rs /\
  forall id a b,
    find_through rs id (fun e => read_directory (read_at (Z.of_nat (length a) + offset e) (elength e) (a ++ leaves ++ b)))
    = find_entry id es.
Proof.
  intros Hi Hok Hr. unfold build_directories. destruct (_ <=? MAX_ROOT_ENTRIES).
  - destruct (directory_roundtrip_gen es Hok) as (bs & -> & Hread). exists bs, [], es. split_and!; [done|by rewrite <-(app_nil_r bs), Hread|].
    intros id a b. unfold find_through. destruct (find_entry id es) as [e|] eqn:E; [|done]. simpl.
    apply find_entry_in in E as [He _]. by rewrite (proj1 (Forall_forall _ _) Hr e He).
  - assert (0 < LEAF_SIZE)%nat as Hsz by (unfold LEAF_SIZE; lia).
    pose proof (chunks_ok (length es) LEAF_SIZE es Hsz Hi) as Hcs.
    pose proof (chunks_concat (length es) LEAF_SIZE es Hsz (le_n _)) as Hcat.
    set (cs := chunks (length es) LEAF_SIZE es) in *.
    destruct (build_leaves_spec cs 0) as (roots & bytes & -> & Hroots).
    { eapply Forall_impl; [exact Hcs|]. intros c (_ & _ & a & b & Hes). rewrite Hes in Hok.
      by eapply entries_ok_app_l, (entries_ok_app_r 0 a). }
    cbn [mbind option_bind fst snd].
    destruct (chunk_heads_increase (length es) LEAF_SIZE es roots Hsz Hi) as [Hinc Hlo].
    { eapply Forall2_impl; [exact Hroots|]. by intros e c (? & _). }
    destruct (directory_roundtrip_gen roots) as (root & -> & Hread).
    { apply entries_ok_sorted; [done| |].
      - clear -Hroots. induction Hroots as [|e c ? ? (_ & ? & ? & ? & _) _ IH]; constructor; [lia|auto].
      - apply Forall_forall. intros e He. by apply (Hlo e 0 He), (entries_ok_nonneg 0). }
    exists root, bytes, roots. split_and!; [done|by rewrite <-(app_nil_r root), Hread|].
    intros id a b. unfold find_through. rewrite <-Hcat, find_in_chunks.
    + pose proof (leads_to_find _ _ _ _ id Hroots) as Hf.
      destruct (find_entry id roots) as [e|], (find_chunk id cs) as [c|]; try done. simpl.
      destruct Hf as (_ & -> & _ & _ & Hread'). specialize (Hread' a b). rewrite Z.sub_0_r in Hread'. simpl. by rewrite Hread'.
    + eapply Forall_impl; [exact Hcs|]. intros c (? & ? & _). by apply chunk_ok_increase.
Qed.

Lemma read_tile_through archive id :
  read_tile archive id =
  root ← read_directory (read_at (get_u64 8 archive) (get_u64 16 archive) archive);
  e ← find_through root id (fun e => read_directory (read_at (get_u64 40 archive + offset e) (elength e) archive));
  if covers id e then Some (read_at (get_u64 56 archive + offset e) (elength e) archive) else None.
Proof.
  unfold read_tile, find_through. destruct (read_directory _) as [root|]; [|done]. simpl.
  destruct (find_entry id root) as [e|]; [|done]. simpl. destruct (run_length e =? 0); [|done].
  by destruct (read_directory _) as [leaf|].
Qed.

Lemma builtin_archive_spec raw metadata mn mx g :
  ids_sorted raw -> Forall (fun t => 0 <= t.1) raw ->
  exists root leaves, build_directories (build_entries raw 0) = Some (root, leaves) /\
  forall archive, builtin_archive raw metadata mn mx g = Some archive ->
    Z.of_nat (length archive) =
      HEADER_SIZE + Z.of_nat (length (root ++ metadata ++ leaves ++ List.concat (map snd raw))) /\
    forall id d, read_tile archive id = Some d <-> (id, d) ∈ raw.
Proof.
  intros Hs Hnn. set (es := build_entries raw 0). set (data := List.concat (map snd raw)).
  pose proof (build_entries_spec raw 0) as Hpt. fold es data in Hpt.
  destruct (build_directories_spec es) as (root & leaves & rs & Hdirs & Hroot & Hfind).
  { by eapply points_at_ids. } { by eapply points_at_entries_ok. } { by eapply points_at_runs. }
  exists root, leaves. split; [done|]. intros archive. unfold builtin_archive. fold es data. rewrite Hdirs. cbn [mbind option_bind].
  destruct (write_header _ _ _ _ _) as [h|] eqn:Eh; cbn [mbind option_bind]; [|done]. intros <-%Some_inj.
  apply write_header_spec in Eh as [Hlen Hget]; [|done].
  split; [rewrite length_app, Hlen; unfold HEADER_SIZE; lia|]. intros id d.
  set (archive := h ++ root ++ metadata ++ leaves ++ data).
  assert (H8 : get_u64 8 archive = HEADER_SIZE) by by apply (Hget 0%nat).
  assert (H16 : get_u64 16 archive = Z.of_nat (length root)) by by apply (Hget 1%nat).
  assert (H40 : get_u64 40 archive = Z.of_nat (length (h ++ root ++ metadata))).
  { trans (HEADER_SIZE + Z.of_nat (length root) + Z.of_nat (length metadata)); [by apply (Hget 4%nat)|]. rewrite !length_app, Hlen. unfold HEADER_SIZE. lia. }
  assert (H56 : get_u64 56 archive = Z.of_nat (length (h ++ root ++ metadata ++ leaves))).
  { trans (HEADER_SIZE + Z.of_nat (length root) + Z.of_nat (length metadata) + Z.of_nat (length leaves)); [by apply (Hget 6%nat)|]. rewrite !length_app, Hlen. unfold HEADER_SIZE. lia. }
  rewrite read_tile_through, H8, H16, H40, H56.
  assert (read_at HEADER_SIZE (Z.of_nat (length root)) archive = root) as ->
    by (by apply read_at_mid; rewrite ?Hlen).
  rewrite Hroot. cbn [mbind option_bind].
  assert (Ha : archive = (h ++ root ++ metadata) ++ leaves ++ data) by by rewrite <-!app_assoc.
  pose proof (Hfind id (h ++ root ++ metadata) data) as Hf. rewrite <-Ha in Hf. rewrite Hf.
  assert (Hd : archive = (h ++ root ++ metadata ++ leaves) ++ data ++ []) by by rewrite <-!app_assoc, app_nil_r.
  rewrite <-(tile_in_data data es raw (h ++ root ++ metadata ++ leaves) [] id d Hpt Hs), <-Hd.
  destruct (find_entry id es) as [e|]; cbn [mbind option_bind]; [|by split; [done|intros (? & ? & _)]].
  destruct (covers id e) eqn:Ec; split.
  - intros [= <-]. eauto.
  - by intros (e' & [= <-] & _ & ->).
  - done.
  - by intros (e' & [= <-] & ? & _); congruence.
Qed.

(** ** Sorting the tiles *)

Lemma insert_raw_perm t l : Permutation (insert_raw t l) (t :: l).
Proof.
  induction l as [|u l IH]; [done|]. simpl. destruct (t.1 <=? u.1); [done|]. rewrite IH. apply Permutation_swap.
Qed.

Lemma sort_raw_perm l : Permutation (sort_raw l) l.
Proof. induction l as [|t l IH]; [done|]. simpl. by rewrite insert_raw_perm, IH. Qed.

Lemma insert_raw_sorted t l :
  ids_sorted l -> Forall (fun u => u.1 <> t.1) l -> ids_sorted (insert_raw t l).
Proof.
  induction 1 as [|u l Hs IH Hu]; intros Hne; [repeat constructor|]. apply Forall_cons in Hne as [Hn Hne]. simpl.
  destruct (t.1 <=? u.1) eqn:E; bool_hyps.
  - constructor; [by constructor|]. constructor; [lia|]. eapply Forall_impl; [exact Hu|]. simpl. lia.
  - constructor; [by apply IH|]. rewrite insert_raw_perm. by constructor; [lia|].
Qed.

Lemma sort_raw_sorted l : NoDup (map fst l) -> ids_sorted (sort_raw l).
Proof.
  induction l as [|t l IH]; simpl; [constructor|]. intros [Hn Hnd]%NoDup_cons. apply insert_raw_sorted; [by apply IH|].
  apply Forall_forall. intros u Hu Heq. apply Hn. rewrite <-Heq. apply list_elem_of_fmap. exists u. split; [done|].
  by rewrite <-sort_raw_perm.
Qed.

(** ** When the writer returns *)

Lemma pack_all_total pack vs : Forall (fun v => is_Some (pack v)) vs -> is_Some (pack_all pack vs).
Proof. induction 1 as [|v vs [b Hb] _ [bs Hbs]]; simpl; [done|]. rewrite Hb, Hbs. simpl. eauto. Qed.

(** The bounding box fits the header's 32-bit fields. *)
Definition geo_ok (g : geometry_e7) : bool :=
  forallb (fun v => (- 2 ^ 31 <=? v) && (v <? 2 ^ 31))
    [min_lon g; min_lat g; max_lon g; max_lat g; center_lon g; center_lat g].

(** Bytes of the archive of the sorted tiles. *)
Definition archive_size (raw : list (Z * blob)) (metadata : list Z) : Z :=
  match build_directories (build_entries raw 0) with
  | Some (root, leaves) =>
      HEADER_SIZE + Z.of_nat (length (root ++ metadata ++ leaves ++ List.concat (map snd raw)))
  | None => 0
  end.

Lemma build_entries_length raw off : length (build_entries raw off) = length raw.
Proof. revert off. induction raw as [|[id d] raw IH]; intros off; simpl; [done|]. by rewrite IH. Qed.

Lemma nonempty_count (raw : list (Z * blob)) :
  Forall (fun t => t.2 <> []) raw -> (length raw <= length (List.concat (map snd raw)))%nat.
Proof.
  induction 1 as [|[id d] raw Hd _ IH]; [done|]. simpl in *. rewrite length_app. destruct d; simpl; [done|lia].
Qed.

Lemma pack_all_fits lo hi pack vs :
  (forall v, (lo <=? v) && (v <? hi) = true -> is_Some (pack v)) ->
  forallb (fun v => (lo <=? v) && (v <? hi)) vs = true -> is_Some (pack_all pack vs).
Proof.
  intros Hp Hvs. apply pack_all_total, Forall_forall. intros v Hv. apply Hp.
  apply (proj1 (forallb_forall _ _) Hvs). by apply list_elem_of_In.
Qed.

Lemma write_header_total sections n mn mx g :
  geo_ok g = true -> forallb (fun v => (0 <=? v) && (v <? 2 ^ 64)) (sections ++ [n; n; n]) = true ->
  is_Some (write_header sections n mn mx g).
Proof.
  unfold geo_ok, write_header. intros Hg Hs.
  destruct (pack_all_fits _ _ pack_u64 _ ltac:(by intros v Hv; unfold pack_u64; rewrite Hv; eauto) Hs) as [u ->].
  change [min_lon g; min_lat g; max_lon g; max_lat g; center_lon g; center_lat g]
    with ([min_lon g; min_lat g; max_lon g; max_lat g] ++ [center_lon g; center_lat g]) in Hg.
  rewrite forallb_app in Hg. apply andb_prop in Hg as [Hi Hc].
  assert (Hp : forall v, (- 2 ^ 31 <=? v) && (v <? 2 ^ 31) = true -> is_Some (pack_i32 v))
    by (by intros v Hv; unfold pack_i32; rewrite Hv; eauto).
  destruct (pack_all_fits _ _ pack_i32 _ Hp Hi) as [i ->], (pack_all_fits _ _ pack_i32 _ Hp Hc) as [c ->].
  cbn [mbind option_bind]. eauto.
Qed.

Lemma builtin_archive_total raw metadata mn mx g root leaves :
  build_directories (build_entries raw 0) = Some (root, leaves) -> Forall (fun t => t.2 <> []) raw ->
  geo_ok g = true -> archive_size raw metadata < 2 ^ 64 -> is_Some (builtin_archive raw metadata mn mx g).
Proof.
  intros Hd Hne Hg. unfold archive_size, builtin_archive. rewrite Hd, build_entries_length. cbn [mbind option_bind].
  apply nonempty_count in Hne. rewrite !length_app. intros Hsz.
  match goal with |- context [write_header ?s ?n _ _ _] => destruct (write_header_total s n mn mx g Hg) as [h ->] end;
    [|cbn [mbind option_bind]; eauto].
  apply forallb_forall. intros v Hv. unfold HEADER_SIZE in *.
  repeat (destruct Hv as [<-|Hv]; [apply andb_true_intro; split; [apply Z.leb_le|apply Z.ltb_lt]; lia|]). destruct Hv.
Qed.

(** ** The two-phase archive is the in-memory one *)

Definition rendered_tile (r : rendered) : tile := mkTile (r_z r) (r_x r) (r_y r) (default [] (r_mvt r)).

(** What [write_pmtiles_from_entries] reads back for an entry. *)
Definition entry_raw (data : list Z) (e : entry) : Z * blob := (tile_id e, read_at (offset e) (elength e) data).

Lemma insert_entry_raw data e l :
  map (entry_raw data) (insert_entry e l) = insert_raw (entry_raw data e) (map (entry_raw data) l).
Proof. induction l as [|u l IH]; [done|]. simpl. destruct (_ <=? _); [done|]. simpl. by rewrite IH. Qed.

Lemma sort_entries_raw data l : map (entry_raw data) (sort_entries l) = sort_raw (map (entry_raw data) l).
Proof. induction l as [|e l IH]; [done|]. simpl. by rewrite insert_entry_raw, IH. Qed.

Lemma preseed_tiles_raw lib rs off results es data results' (a : list Z) :
  off = Z.of_nat (length a) -> preseed_tiles lib rs off results = (es, data, results') ->
  map (entry_raw (a ++ data)) es = raw_of lib (map rendered_tile rs).
Proof.
  revert off results es data results' a.
  induction rs as [|[z x y m] rs IH]; intros off results es data results' a Hoff; simpl; [by intros [= <- <- <-]|].
  destruct m as [[|b bs]|]; simpl; [by apply IH| |by apply IH].
  destruct (preseed_tiles _ _ _ _) as [[es1 data1] r1] eqn:E. intros [= <- <- <-].
  unfold raw_of. cbn [List.filter nonempty_tile t_data rendered_tile r_mvt default map from_option id].
  f_equal.
  - unfold entry_raw. simpl tile_id. cbn [r_z r_x r_y rendered_tile t_z t_x t_y t_data]. f_equal.
    apply (read_at_mid _ _ a (b :: bs) data1); [done|done].
  - apply (IH _ _ _ _ _ (a ++ b :: bs)) in E; [|by rewrite length_app, Nat2Z.inj_add, Hoff].
    by rewrite <-app_assoc in E.
Qed.

Lemma raw_of_nonempty lib tiles :
  List.filter (fun t : Z * blob => match t.2 with [] => false | _ => true end) (raw_of lib tiles) = raw_of lib tiles.
Proof.
  unfold raw_of. induction tiles as [|[z x y [|b bs]] tiles IH]; [done|done|]. simpl. f_equal. exact IH.
Qed.

Lemma preseed_tiles_counts lib rs off results es data results' :
  preseed_tiles lib rs off results = (es, data, results') ->
  generated results' = generated results + Z.of_nat (length (raw_of lib (map rendered_tile rs))) /\
  generated results' + skipped results' + errors results'
    = generated results + skipped results + errors results + Z.of_nat (length rs).
Proof.
  unfold raw_of. revert off results es data results'.
  induction rs as [|[z x y m] rs IH]; intros off results es data results'; simpl; [intros [= <- <- <-]; lia|].
  destruct m as [[|b bs]|]; simpl; [intros H%IH; simpl in H; lia| |intros H%IH; simpl in H; lia].
  destruct (preseed_tiles _ _ _ _) as [[es1 data1] r1] eqn:E. intros [= <- <- <-].
  apply IH in E. simpl in E. lia.
Qed.

Lemma filter_all {A} (f : A -> bool) l : List.filter f l = l <-> Forall (fun u => f u = true) l.
Proof.
  split; [|by induction 1 as [|u l' Hu _ IH]; [|simpl; rewrite Hu, IH]].
  intros H. rewrite <-H. apply Forall_forall. intros u Hu. apply list_elem_of_In, List.filter_In in Hu. tauto.
Qed.

(** The archive the preseed task assembles from its temporary data file is,
    byte for byte, the archive [write_pmtiles] makes of the same tiles held in
    memory, whatever the tiles (also with repeated ids and failed renders), with or
    without the [pmtiles] package; and both fail on the same inputs.  The counters
    add up to the number of tiles. *)
Theorem two_phase_archive_equiv lib rs metadata mn mx g :
  (fst <$> preseed_pmtiles lib rs metadata mn mx g)
  = (fun r => r.1.1) <$> write_pmtiles lib (map rendered_tile rs) [] metadata mn mx g
  /\ forall archive results, preseed_pmtiles lib rs metadata mn mx g = Some (archive, results) ->
     generated results = Z.of_nat (length (raw_of lib (map rendered_tile rs))) /\
     generated results + skipped results + errors results = Z.of_nat (length rs).
Proof.
  unfold preseed_pmtiles, write_pmtiles, write_pmtiles_from_entries.
  destruct (preseed_tiles lib rs 0 (mkResults 0 0 0)) as [[es data] results] eqn:E.
  pose proof (preseed_tiles_raw lib rs 0 _ es data results [] eq_refl E) as Hraw. simpl app in Hraw.
  change (fun e => (tile_id e, read_at (offset e) (elength e) data)) with (entry_raw data).
  rewrite sort_entries_raw, Hraw.
  rewrite (proj2 (filter_all _ _)).
  2:{ rewrite sort_raw_perm. apply filter_all, raw_of_nonempty. }
  split; [by destruct (write_pmtiles_from_raw _ _ _ _ _ _ _)|].
  intros archive results' H. destruct (write_pmtiles_from_raw _ _ _ _ _ _ _); [|done]. simplify_eq/=.
  destruct (preseed_tiles_counts lib rs 0 _ _ _ _ E) as [Hg Hn]. simpl in *. lia.
Qed.

(** ** Claims *)

(** The zoom level and position a tile id stands for: the reference inverse. *)
Fixpoint tileid_to_zxy (fuel z : nat) (id : Z) : option (nat * Z * Z) :=
  match fuel with
  | O => None
  | S fuel =>
      if id <? base (S z) then let '(x, y) := unhilbert z (id - base z) in Some (z, x, y)
      else tileid_to_zxy fuel (S z) id
  end.

Lemma tileid_to_zxy_spec fuel z z' id :
  base z' <= id < base (S z') -> (z <= z')%nat -> (z' - z < fuel)%nat ->
  tileid_to_zxy fuel z id = let '(x, y) := unhilbert z' (id - base z') in Some (z', x, y).
Proof.
  revert z. induction fuel as [|fuel IH]; intros z Hid Hz Hf; [lia|]. cbn [tileid_to_zxy].
  destruct (decide (z = z')) as [->|Hne]; [by rewrite (proj2 (Z.ltb_lt _ _)) by lia|].
  pose proof (base_mono (S z) z' ltac:(lia)). rewrite (proj2 (Z.ltb_ge _ _)) by lia. apply IH; [done|lia|lia].
Qed.

Lemma tileid_of_unhilbert z id :
  base z <= id < base (S z) ->
  let '(x, y) := unhilbert z (id - base z) in valid_tile z x y = true /\ builtin_zxy_to_tileid z x y = id.
Proof.
  rewrite base_S. intros Hid. destruct (unhilbert z (id - base z)) as [x y] eqn:E.
  destruct (unhilbert_range z (id - base z) x y ltac:(lia) E) as [Hx Hy].
  pose proof (hilbert_surjective z (id - base z) x y ltac:(lia) E) as Hh.
  split; [unfold valid_tile; repeat (apply andb_true_intro; split); (apply Z.leb_le || apply Z.ltb_lt); lia|].
  assert (builtin_zxy_to_tileid z x y = base z + hilbert z x y 0) as -> by (destruct z; [done|reflexivity]). lia.
Qed.

(** Tile ids number the tiles of the pyramid without gap or collision: the id
    of a tile decodes to that tile (so two tiles of any zooms never share an id),
    the ids of zoom [z] are exactly the [4^z] integers after those of the zooms
    below, every one of them is the id of a tile, and consecutive ids of a zoom are
    tiles that share a side. *)
Theorem tileid_bijection (z : nat) :
  (forall x y fuel, valid_tile z x y = true -> (z < fuel)%nat ->
     base z <= builtin_zxy_to_tileid z x y < base (S z) /\
     tileid_to_zxy fuel 0 (builtin_zxy_to_tileid z x y) = Some (z, x, y))
  /\ base (S z) = base z + 4 ^ Z.of_nat z
  /\ (forall id, base z <= id < base (S z) ->
      exists x y, valid_tile z x y = true /\ builtin_zxy_to_tileid z x y = id)
  /\ (forall x y x' y', valid_tile z x y = true -> valid_tile z x' y' = true ->
      builtin_zxy_to_tileid z x' y' = builtin_zxy_to_tileid z x y + 1 -> neighbours (x, y) (x', y')).
Proof.
  split_and!; [|apply base_S| |].
  - intros x y fuel Hv Hf. apply tileid_spec in Hv as [Hr Hu]. split; [done|].
    by rewrite (tileid_to_zxy_spec fuel 0 z), Hu by (lia || done).
  - intros id Hid. pose proof (tileid_of_unhilbert z id Hid) as H. destruct (unhilbert _ _) as [x y]. eauto.
  - intros x y x' y' [Hr Hu]%tileid_spec [Hr' Hu']%tileid_spec Heq. rewrite <-Hu, <-Hu', Heq.
    rewrite base_S in *. replace (_ + 1 - base z) with (builtin_zxy_to_tileid z x y - base z + 1) by lia.
    apply unhilbert_step; lia.
Qed.

(** Witness of [tileid_bijection]: the tile 3/5/2. *)
Lemma tileid_bijection_witness :
  tileid_to_zxy 4 0 (builtin_zxy_to_tileid 3 5 2) = Some (3%nat, 5, 2) /\ builtin_zxy_to_tileid 3 5 2 = 76.
Proof.
  split; [|reflexivity]. apply (proj1 (tileid_bijection 3) 5 2 4%nat); [reflexivity|lia].
Defined.

(** The coordinates of a tile. *)
Definition coords (t : tile) : nat * Z * Z := (t_z t, t_x t, t_y t).

Definition valid (t : tile) : bool := valid_tile (t_z t) (t_x t) (t_y t).

Lemma raw_of_in tiles z x y d :
  Forall (fun t => valid t = true) tiles -> valid_tile z x y = true ->
  (builtin_zxy_to_tileid z x y, d) ∈ raw_of None tiles <-> d <> [] /\ mkTile z x y d ∈ tiles.
Proof.
  intros Hv Hz. unfold raw_of. rewrite list_elem_of_fmap. split.
  - intros ([z' x' y' d'] & Heq & Hin). apply list_elem_of_In, List.filter_In in Hin as [Hin Hne]. simpl in *.
    apply list_elem_of_In in Hin. pose proof (proj1 (Forall_forall _ _) Hv _ Hin) as Hv'.
    injection Heq as Hid ->. destruct (tileid_inj _ _ _ _ _ _ Hz Hv' Hid) as (-> & -> & ->).
    split; [by destruct d'|done].
  - intros [Hd Hin]. exists (mkTile z x y d). split; [done|]. apply list_elem_of_In, List.filter_In.
    split; [by apply list_elem_of_In|by destruct d].
Qed.

Lemma raw_of_distinct tiles :
  Forall (fun t => valid t = true) tiles -> NoDup (map coords tiles) -> NoDup (map fst (raw_of None tiles)).
Proof.
  unfold raw_of. induction tiles as [|t tiles IH]; [constructor|]. intros [Ht Hv]%Forall_cons [Hn Hnd]%NoDup_cons.
  simpl. destruct (nonempty_tile t); [|by apply IH]. simpl. apply NoDup_cons. split; [|by apply IH].
  intros (u & Heq & Hu)%list_elem_of_fmap. apply list_elem_of_fmap in Hu as (v & -> & Hin).
  apply list_elem_of_In, List.filter_In in Hin as [Hin%list_elem_of_In _]. simpl in Heq.
  apply Hn, list_elem_of_fmap. exists v. split; [|done].
  destruct (tileid_inj _ _ _ _ _ _ Ht (proj1 (Forall_forall _ _) Hv _ Hin) Heq) as (? & ? & ?).
  unfold coords. congruence.
Qed.

Lemma raw_of_nonneg tiles :
  Forall (fun t => valid t = true) tiles -> Forall (fun u => 0 <= u.1) (raw_of None tiles).
Proof.
  intros Hv. apply Forall_forall. intros u Hu. apply list_elem_of_fmap in Hu as (t & -> & Hin).
  apply list_elem_of_In, List.filter_In in Hin as [Hin%list_elem_of_In _].
  by apply tileid_nonneg, (proj1 (Forall_forall _ _) Hv).
Qed.

Lemma raw_of_data tiles : Forall (fun u => u.2 <> []) (raw_of None tiles).
Proof.
  eapply Forall_impl; [apply filter_all, raw_of_nonempty|]. simpl. intros [i d]. by destruct d.
Qed.

(** C22 (roundtrip).  An archive of the built-in writer gives back exactly the tiles it was
    made of.  For tiles that exist at their zoom and have distinct coordinates, a
    bounding box that fits the header and an archive below [2^64] bytes, the writer
    returns; what it appends to the stream has the size the sections add up to; a
    reader of the format finds the bytes of every non-empty tile, through the root
    directory alone or through a leaf when there are more than [16384] tiles, and
    finds nothing at the coordinates of any other tile. *)
Theorem archive_roundtrip tiles output metadata mn mx g :
  Forall (fun t => valid t = true) tiles -> NoDup (map coords tiles) -> geo_ok g = true ->
  archive_size (sort_raw (raw_of None tiles)) metadata < 2 ^ 64 ->
  exists archive n_empty,
    write_pmtiles None tiles output metadata mn mx g
      = Some (output ++ archive, Z.of_nat (length tiles) - n_empty, n_empty) /\
    Z.of_nat (length archive) = archive_size (sort_raw (raw_of None tiles)) metadata /\
    forall z x y d, valid_tile z x y = true ->
      read_tile archive (builtin_zxy_to_tileid z x y) = Some d <-> d <> [] /\ mkTile z x y d ∈ tiles.
Proof.
  intros Hv Hnd Hg Hsz. set (raw := sort_raw (raw_of None tiles)) in *.
  destruct (builtin_archive_spec raw metadata mn mx g) as (root & leaves & Hdirs & Hspec).
  { apply sort_raw_sorted. by apply raw_of_distinct. } { unfold raw. rewrite sort_raw_perm. by apply raw_of_nonneg. }
  destruct (builtin_archive_total raw metadata mn mx g root leaves) as [archive Ha];
    [done|unfold raw; rewrite sort_raw_perm; apply raw_of_data|done|done|].
  destruct (Hspec _ Ha) as [Hlen Hread].
  exists archive, (Z.of_nat (length (List.filter (fun t => negb (nonempty_tile t)) tiles))). split_and!.
  - unfold write_pmtiles, write_pmtiles_from_raw. fold raw. rewrite Ha. simpl. do 3 f_equal.
    unfold raw. rewrite sort_raw_perm. unfold raw_of. rewrite length_map.
    rewrite <-(List.filter_length nonempty_tile tiles). lia.
  - unfold archive_size. by rewrite Hdirs.
  - intros z x y d Hz. rewrite Hread. unfold raw. rewrite sort_raw_perm. by apply raw_of_in.
Qed.

Definition demo_tiles : list tile :=
  [mkTile 1 1 0 [7; 8]; mkTile 0 0 0 [1; 2; 3]; mkTile 1 0 1 []; mkTile 2 3 3 [9]].
Definition world : geometry_e7 :=
  mkGeo (-1800000000) (-900000000) 1800000000 900000000 0 0.

(** Witness of C22: four tiles, one of them empty. *)
Lemma archive_roundtrip_witness :
  exists archive,
    write_pmtiles None demo_tiles [] [123; 125] 0 2 world = Some (archive, 3, 1) /\
    read_tile archive (builtin_zxy_to_tileid 1 1 0) = Some [7; 8].
Proof.
  destruct (archive_roundtrip demo_tiles [] [123; 125] 0 2 world) as (archive & n & Hw & _ & Hr);
    [repeat constructor|by apply (bool_decide_unpack _); vm_compute|reflexivity|vm_compute; reflexivity|].
  exists archive. split.
  - assert (exists a, write_pmtiles None demo_tiles [] [123; 125] 0 2 world = Some (a, 3, 1)) as [a Ha]
      by (eexists; vm_compute; reflexivity).
    rewrite Hw in Ha |- *. injection Ha as _ _ ->. reflexivity.
  - apply Hr; [reflexivity|]. split; [discriminate|]. left.
Defined.

(** ** Limits of the writer *)

Lemma write_varints_length vs bs : write_varints vs = Some bs -> (length vs <= length bs)%nat.
Proof.
  revert bs. induction vs as [|v vs IH]; intros bs; simpl; [lia|].
  unfold write_varint. rewrite varint_loop_S. set (f := Z.to_nat (Z.log2 v)).
  destruct (Z.shiftr v 7 =? 0); [|destruct (varint_loop f (Z.shiftr v 7)) as [b|]; simpl; [|done]];
    cbn [mbind option_bind]; destruct (write_varints vs) as [bs'|]; simpl; try done;
    specialize (IH _ eq_refl); intros [= <-]; simpl; rewrite ?length_app; lia.
Qed.

(** A directory takes at least four bytes an entry, so the root directory of [4064]
    entries already ends after the first 16 KiB of the archive, in which the format
    wants it; the writer splits above [16384] entries. *)
Lemma directory_size es bs :
  serialize_directory es = Some bs -> (4 * length es + 1 <= length bs)%nat.
Proof.
  intros H%write_varints_length. simpl in H.
  rewrite !length_app, length_id_deltas, !length_map in H.
  assert (forall p, length (offset_column p es) = length es) as Ho.
  { clear. induction es; intros p; simpl; auto. }
  rewrite Ho in H. lia.
Qed.

(** Out of order entries: no number of iterations serializes the negative delta. *)
Lemma unsorted_directory e e' es fuel :
  tile_id e' < tile_id e -> varint_loop fuel (tile_id e' - tile_id e) = None /\ serialize_directory (e :: e' :: es) = None.
Proof.
  intros Hlt. assert (Hv : forall fuel, varint_loop fuel (tile_id e' - tile_id e) = None) by (intros; apply varint_negative; lia).
  split; [apply Hv|]. assert (write_varint (tile_id e' - tile_id e) = None) as Hn by apply Hv.
  unfold serialize_directory. cbn [write_varints id_deltas app]. rewrite Hn. cbn [mbind option_bind].
  destruct (write_varint (Z.of_nat _)); cbn [mbind option_bind]; [|done].
  by destruct (write_varint (tile_id e - 0)).
Qed.

(** A library that fails after writing leaves its bytes in front of the archive the
    fallback writes, which a reader no longer finds. *)
Example partial_library_write :
  let lib := Some (mkLib builtin_zxy_to_tileid (fun _ _ _ _ _ => (repeat 0 127, false))) in
  exists stream, write_pmtiles lib demo_tiles [] [123; 125] 0 2 world = Some (stream, 3, 1) /\
  read_tile stream (builtin_zxy_to_tileid 1 1 0) = None /\
  read_tile (drop 127 stream) (builtin_zxy_to_tileid 1 1 0) = Some [7; 8].
Proof. eexists. split; [vm_compute; reflexivity|]. split; vm_compute; reflexivity. Qed.

(** Two bounding boxes that share a tile: the archive holds it twice. *)
Example overlapping_bboxes :
  let rs := [mkRendered 1 1 0 (Some [7; 8]); mkRendered 1 1 0 (Some [7; 8])] in
  exists stream, preseed_pmtiles None rs [] 0 2 world = Some (stream, mkResults 2 0 0) /\
  read_directory (read_at (get_u64 8 stream) (get_u64 16 stream) stream) = Some [Entry 4 0 2 1; Entry 4 2 2 1].
Proof. eexists. split; vm_compute; reflexivity. Qed.
