(* ===== verification/TaskQueue.v ===== *)
(** * The task queue

    The [tasks] table and every statement that changes it
    ([modules/tasks/tasks_module.py], [maintenance.py], [dispatcher.py],
    [execution.py]).

    A table maps task ids to rows.  Ids are UUIDv7, unique by construction, and
    a row keeps its creation [timestamp], so the id alone names the row of the
    primary key.  Each operation is one SQL statement (or one transaction), which
    runs atomically; [enqueue] and [dismiss_job] read before they write and are
    also given as two steps.  [NOW()] and [datetime.now] are one clock in seconds,
    the argument [now].  The rows other transactions hold locked, which
    [SKIP LOCKED] passes over, are an argument [locked].  [ORDER BY timestamp]
    leaves ties open; the model breaks them by id. *)

From S2P Require Import Prelude.

(** ** Rows *)

Inductive task_status : Type :=
| CREATED | PENDING | ACTIVE | RUNNING | COMPLETED | FAILED | DISMISSED | DEAD_LETTER.

#[global] Instance task_status_eq_dec : EqDecision task_status.
Proof. solve_decision. Defined.

(** The columns set at insertion; no operation of the queue changes them. *)
Record task_spec : Type := mkSpec {
  catalog_id : string;
  scope : string;
  caller_id : option string;
  task_type : string;
  kind : string;
  execution_mode : string;
  inputs : list (string * pyval);
  timestamp : Z;
  collection_id : option string;
  dedup_key : option string;
  max_retries : Z;
}.

Record row : Type := mkRow {
  spec : task_spec;
  status : task_status;
  progress : Z;
  outputs : option pyval;
  error_message : option string;
  started_at : option Z;
  finished_at : option Z;
  dismiss_confirmed_at : option Z;
  locked_until : option Z;
  last_heartbeat_at : option Z;
  owner_id : option string;
  runner_ref : option string;
  retry_count : Z;
}.

Abbreviation table := (gmap Z row).

(** [SET column = value]. *)
Definition set_status v r :=
  mkRow (spec r) v (progress r) (outputs r) (error_message r) (started_at r) (finished_at r)
    (dismiss_confirmed_at r) (locked_until r) (last_heartbeat_at r) (owner_id r) (runner_ref r) (retry_count r).
Definition set_progress v r :=
  mkRow (spec r) (status r) v (outputs r) (error_message r) (started_at r) (finished_at r)
    (dismiss_confirmed_at r) (locked_until r) (last_heartbeat_at r) (owner_id r) (runner_ref r) (retry_count r).
Definition set_outputs v r :=
  mkRow (spec r) (status r) (progress r) v (error_message r) (started_at r) (finished_at r)
    (dismiss_confirmed_at r) (locked_until r) (last_heartbeat_at r) (owner_id r) (runner_ref r) (retry_count r).
Definition set_error v r :=
  mkRow (spec r) (status r) (progress r) (outputs r) v (started_at r) (finished_at r)
    (dismiss_confirmed_at r) (locked_until r) (last_heartbeat_at r) (owner_id r) (runner_ref r) (retry_count r).
Definition set_started v r :=
  mkRow (spec r) (status r) (progress r) (outputs r) (error_message r) v (finished_at r)
    (dismiss_confirmed_at r) (locked_until r) (last_heartbeat_at r) (owner_id r) (runner_ref r) (retry_count r).
Definition set_finished v r :=
  mkRow (spec r) (status r) (progress r) (outputs r) (error_message r) (started_at r) v
    (dismiss_confirmed_at r) (locked_until r) (last_heartbeat_at r) (owner_id r) (runner_ref r) (retry_count r).
Definition set_dismiss_confirmed v r :=
  mkRow (spec r) (status r) (progress r) (outputs r) (error_message r) (started_at r) (finished_at r)
    v (locked_until r) (last_heartbeat_at r) (owner_id r) (runner_ref r) (retry_count r).
Definition set_locked v r :=
  mkRow (spec r) (status r) (progress r) (outputs r) (error_message r) (started_at r) (finished_at r)
    (dismiss_confirmed_at r) v (last_heartbeat_at r) (owner_id r) (runner_ref r) (retry_count r).
Definition set_heartbeat v r :=
  mkRow (spec r) (status r) (progress r) (outputs r) (error_message r) (started_at r) (finished_at r)
    (dismiss_confirmed_at r) (locked_until r) v (owner_id r) (runner_ref r) (retry_count r).
Definition set_owner v r :=
  mkRow (spec r) (status r) (progress r) (outputs r) (error_message r) (started_at r) (finished_at r)
    (dismiss_confirmed_at r) (locked_until r) (last_heartbeat_at r) v (runner_ref r) (retry_count r).
Definition set_ref v r :=
  mkRow (spec r) (status r) (progress r) (outputs r) (error_message r) (started_at r) (finished_at r)
    (dismiss_confirmed_at r) (locked_until r) (last_heartbeat_at r) (owner_id r) v (retry_count r).
Definition set_retry v r :=
  mkRow (spec r) (status r) (progress r) (outputs r) (error_message r) (started_at r) (finished_at r)
    (dismiss_confirmed_at r) (locked_until r) (last_heartbeat_at r) (owner_id r) (runner_ref r) v.

Definition coalesce {A} (x y : option A) : option A := match x with Some _ => x | None => y end.

(** [column = value]: NULL equals nothing. *)
Definition sql_eq (x : option string) (v : string) : bool := match x with Some s => s ==s v | None => false end.
(** [column < value] and [column <= value]. *)
Definition sql_lt (x : option Z) (v : Z) : bool := match x with Some t => t <? v | None => false end.
Definition sql_ge (x : option Z) (v : Z) : bool := match x with Some t => v <=? t | None => false end.

(** [LIKE] with the wildcards [%] and [_]. *)
Fixpoint sql_like (p : string) : string -> bool :=
  match p with
  | "" => fun s => match s with "" => true | _ => false end
  | String c p =>
      if Ascii.eqb c "%"%char then
        fix any s := sql_like p s || match s with "" => false | String _ s => any s end
      else fun s => match s with
                    | "" => false
                    | String d s => (Ascii.eqb c "_"%char || Ascii.eqb c d) && sql_like p s
                    end
  end%string.

(** One row by id, under a condition: whether a row matched, and the table. *)
Definition update_where (id : Z) (p : row -> bool) (f : row -> row) (tbl : table) : bool * table :=
  match tbl !! id with
  | Some r => if p r then (true, <[id := f r]> tbl) else (false, tbl)
  | None => (false, tbl)
  end.

(** Every row under a condition. *)
Definition update_all (p : Z -> row -> bool) (f : row -> row) (tbl : table) : table :=
  map_imap (fun id r => Some (if p id r then f r else r)) tbl.

Definition optional {A} (o : option A) (p : A -> bool) : bool := match o with Some a => p a | None => true end.

(** [in_statuses]: [status IN (...)]. *)
Definition in_statuses (l : list task_status) (r : row) : bool := bool_decide (status r ∈ l).

(** ** Insertion *)

(** [TaskCreate], with the kind the registry resolves. *)
Record task_create : Type := mkCreate {
  c_task_type : string;
  c_kind : string;
  c_scope : string;
  c_execution_mode : string;
  c_caller_id : option string;
  c_inputs : list (string * pyval);
  c_title : option pyval;
  c_collection_id : option string;
  c_dedup_key : option string;
  c_max_retries : option Z;
}.

Definition DEFAULT_MAX_RETRIES : Z := 3.

(** The partial index and the dedup checks share this condition. *)
Definition dedup_live (r : row) : bool := negb (in_statuses [COMPLETED; FAILED; DEAD_LETTER] r).

Definition dedup_match (cat key : string) (r : row) : bool :=
  sql_eq (dedup_key (spec r)) key && (catalog_id (spec r) ==s cat) && dedup_live r.

Definition table_exists (p : row -> bool) (tbl : table) : bool := existsb (fun kv => p kv.2) (map_to_list tbl).

(** [get_active_task_by_dedup_key]: the newest match. *)
Definition get_active_task_by_dedup_key (cat key : string) (tbl : table) : option (Z * task_status) :=
  foldr (fun kv best =>
           if dedup_match cat key kv.2 then
             match best with
             | Some (id, r) => if timestamp (spec r) <? timestamp (spec kv.2) then Some kv else best
             | None => Some kv
             end
           else best) None (map_to_list tbl)
  ≫= fun kv => Some (kv.1, status kv.2).

Definition dedup_hit (cat : string) (key : option string) (tbl : table) : bool :=
  match key with Some k => table_exists (dedup_match cat k) tbl | None => false end.

Definition fresh_row (s : task_spec) (st : task_status) (owner : option string) (lease heartbeat : option Z) : row :=
  mkRow s st 0 None None None None None lease heartbeat owner None 0.

(** The title stamped into the inputs. *)
Definition effective_inputs (default_title : pyval) (internal_key : string) (cid : option string) (td : task_create)
    : list (string * pyval) :=
  let base := c_inputs td in
  let titled :=
    match c_title td with
    | Some t => if truthy t then dict_set "title" t base
                else if truthy (cfg_get base "title") then base else dict_set "title" default_title base
    | None => if truthy (cfg_get base "title") then base else dict_set "title" default_title base
    end in
  match cid with Some c => dict_set internal_key (VStr c) titled | None => titled end.

Section create.
Context (default_title : pyval) (internal_key : string).

(** The [INSERT] of [create_task]. *)
Definition create_insert (now id : Z) (td : task_create) (schema : string) (initial_status : task_status)
    (owner : option string) (lease : option Z) (cid : option string) (tbl : table) : option Z * table :=
  let s := mkSpec schema (c_scope td) (c_caller_id td) (c_task_type td) (c_kind td) (c_execution_mode td)
             (effective_inputs default_title internal_key cid td) now (c_collection_id td) (c_dedup_key td)
             (default DEFAULT_MAX_RETRIES (c_max_retries td)) in
  let hb := if decide (initial_status = ACTIVE) then Some now else None in
  (Some id, <[id := fresh_row s initial_status owner lease hb]> tbl).

(** [create_task]; [None] on a dedup hit. *)
Definition create_task (now id : Z) (td : task_create) (schema : string) (initial_status : task_status)
    (owner : option string) (lease : option Z) (cid : option string) (tbl : table) : option Z * table :=
  if dedup_hit schema (c_dedup_key td) tbl then (None, tbl)
  else create_insert now id td schema initial_status owner lease cid tbl.
End create.

(** The second statement of [enqueue]; the conflict target is the partial index,
    which includes the timestamp. *)
Definition enqueue_insert (now id : Z) (td : task_create) (schema : string) (key : option string)
    (mode scp : string) (tbl : table) : option Z * table :=
  let conflict := match key with
                  | Some k => table_exists (fun r => dedup_match schema k r && (timestamp (spec r) =? now)) tbl
                  | None => false
                  end in
  if conflict then (None, tbl)
  else
    let s := mkSpec schema scp (c_caller_id td) (c_task_type td) (c_kind td) mode (c_inputs td) now
               (c_collection_id td) key DEFAULT_MAX_RETRIES in
    (Some id, <[id := fresh_row s PENDING None None None]> tbl).

Definition enqueue (now id : Z) (td : task_create) (schema : string) (key : option string)
    (mode scp : string) (tbl : table) : option Z * table :=
  if dedup_hit schema key tbl then (None, tbl) else enqueue_insert now id td schema key mode scp tbl.

(** ** Claims *)

Section claims.
(** [hard_retry_cap] and the lookback window. *)
Context (cap lookback : Z).

(** [set_hard_retry_cap]; [None] is [ValueError]. *)
Definition set_hard_retry_cap (value : Z) : option Z := if value <? 1 then None else Some value.

(** The mode filter: a type list that is empty adds no condition. *)
Definition mode_filter (async_types sync_types : list string) (r : row) : bool :=
  ((execution_mode (spec r) ==s "ASYNCHRONOUS") && str_mem (task_type (spec r)) async_types)
  || ((execution_mode (spec r) ==s "SYNCHRONOUS") && str_mem (task_type (spec r)) sync_types).

(** PENDING, within the lookback window, its back-off elapsed, of a type the
    process runs. *)
Definition ready (now : Z) (async_types sync_types : list string) (r : row) : bool :=
  bool_decide (status r = PENDING) && (now - lookback <=? timestamp (spec r))
  && match locked_until r with Some t => t <=? now | None => true end
  && mode_filter async_types sync_types r.

(** [ORDER BY timestamp], ties by id. *)
Definition key_le (a b : Z * row) : Prop :=
  timestamp (spec a.2) < timestamp (spec b.2)
  \/ (timestamp (spec a.2) = timestamp (spec b.2) /\ a.1 <= b.1).

#[global] Instance key_le_dec a b : Decision (key_le a b).
Proof. unfold key_le. apply _. Defined.

Definition claim_row (now vt : Z) (owner : string) (r : row) : row :=
  set_status ACTIVE (set_locked (Some (now + vt)) (set_owner (Some owner)
    (set_started (coalesce (started_at r) (Some now)) (set_heartbeat (Some now) r)))).

Definition claim_next (now : Z) (async_types sync_types : list string) (vt : Z) (owner : string)
    (locked : list Z) (tbl : table) : option Z * table :=
  match async_types, sync_types with
  | [], [] => (None, tbl)
  | _, _ =>
      let eligible := List.filter (fun kv => ready now async_types sync_types kv.2
                                             && negb (bool_decide (kv.1 ∈ locked))) (map_to_list tbl) in
      match merge_sort key_le eligible with
      | [] => (None, tbl)
      | (id, r) :: _ => (Some id, <[id := claim_row now vt owner r]> tbl)
      end
  end.

Definition eligible (now : Z) (async_types sync_types : list string) (r : row) : bool :=
  ready now async_types sync_types r && (retry_count r <? cap).

(** [DISTINCT ON (catalog_id) ... ORDER BY catalog_id, timestamp]: the oldest
    eligible row of each tenant. *)
Definition candidates (now : Z) (async_types sync_types : list string) (tbl : table) : list (Z * row) :=
  let el := List.filter (fun kv => eligible now async_types sync_types kv.2) (map_to_list tbl) in
  List.filter (fun kv => forallb (fun kv' => negb (catalog_id (spec kv.2) ==s catalog_id (spec kv'.2))
                                             || bool_decide (key_le kv kv')) el) el.

(** The rows [claim_batch] locks: of the candidates no other transaction holds,
    the first [batch_size] by timestamp. *)
Definition batch (now : Z) (async_types sync_types : list string) (batch_size : nat) (locked : list Z)
    (tbl : table) : list (Z * row) :=
  take batch_size
    (merge_sort key_le
       (List.filter (fun kv => negb (bool_decide (kv.1 ∈ locked))) (candidates now async_types sync_types tbl))).

(** The claimed ids with the error each row carried, for the [task.retried] event. *)
Definition claim_batch (now : Z) (async_types sync_types : list string) (vt : Z) (owner : string)
    (batch_size : nat) (locked : list Z) (tbl : table) : list (Z * option string) * table :=
  match async_types, sync_types with
  | [], [] => ([], tbl)
  | _, _ =>
      let b := batch now async_types sync_types batch_size locked tbl in
      (map (fun kv => (kv.1, error_message kv.2)) b,
       update_all (fun id _ => bool_decide (id ∈ map fst b))
         (fun r => set_error None (claim_row now vt owner r)) tbl)
  end.

(** The [task.retried] events of a claim. *)
Definition retried_events (claimed : list (Z * option string)) : list (Z * string) :=
  omap (fun c => match c.2 with Some e => if e ==s "" then None else Some (c.1, e) | None => None end) claimed.

(** [claim_for_execution]: the container takes the row its spawner created. *)
Definition claim_for_execution (now id : Z) (schema owner : string) (vt : Z) (tbl : table) : bool * table :=
  update_where id
    (fun r => (catalog_id (spec r) ==s schema)
              && negb (in_statuses [COMPLETED; FAILED; DISMISSED; DEAD_LETTER] r)
              && negb (bool_decide (status r = ACTIVE)
                       && match locked_until r with Some t => now <? t | None => false end
                       && negb (sql_eq (owner_id r) owner)))
    (claim_row now vt owner) tbl.

(** [claim_for_dispatch]. *)
Definition claim_for_dispatch (now id : Z) (owner : string) (lease : Z) (prefix prior : option string)
    (tbl : table) : bool * table :=
  update_where id
    (fun r => bool_decide (status r = ACTIVE)
              && match owner_id r with
                 | None => true
                 | Some o => match prefix with Some p => sql_like (p +:+ "%") o | None => false end
                             || (o ==s owner)
                             || match prior with Some p => o ==s p | None => false end
                 end)
    (fun r => set_owner (Some owner) (set_locked (Some lease) (set_heartbeat (Some now) (set_started None r)))) tbl.

(** ** Lease expiry *)

Definition DRAIN_WORKCLASS_TASK_TYPES : list string := ["event_drain"; "storage_drain"; "storage_drain_offload"].
Definition DRAIN_RECLAIM_GRACE_SECONDS : Z := 600.

(** The attempts a row may use up: [LEAST(max_retries, hard_cap)]. *)
Definition limit (r : row) : Z := Z.min (max_retries (spec r)) cap.

Definition stuck (now : Z) (r : row) : bool :=
  in_statuses [ACTIVE; RUNNING] r
  && sql_lt (locked_until r)
       (now - if str_mem (task_type (spec r)) DRAIN_WORKCLASS_TASK_TYPES then DRAIN_RECLAIM_GRACE_SECONDS else 0).

Definition reap_row (now : Z) (r : row) : row :=
  let dead := limit r <=? retry_count r + 1 in
  let msg := if dead then
               if cap <=? retry_count r + 1 then "Reaped: hard retry cap (" +:+ pretty cap +:+ ") reached"
               else "Reaped: max_retries (" +:+ pretty (max_retries (spec r)) +:+ ") reached"
             else "Reaped by tasks.reap_stuck_tasks (heartbeat expired)" in
  set_status (if dead then DEAD_LETTER else PENDING)
    (set_retry (retry_count r + 1) (set_owner None (set_locked None (set_heartbeat None
      (set_finished (if dead then Some now else None) (set_error (Some msg) r)))))).

(** [reap_stuck_tasks]: the number of rows reaped, and of those dead-lettered.
    [max_retries] is NOT NULL, so [p_max_retries] is never used. *)
Definition reap_stuck_tasks (now : Z) (locked : list Z) (tbl : table) : nat * nat * table :=
  let victim id r := stuck now r && negb (bool_decide (id ∈ locked)) in
  let victims := List.filter (fun kv => victim kv.1 kv.2) (map_to_list tbl) in
  (length victims,
   length (List.filter (fun kv => bool_decide (status (reap_row now kv.2) = DEAD_LETTER)) victims),
   update_all victim (reap_row now) tbl).

(** ** Terminal writes *)

(** [owner_guard] and [created_at_guard]. *)
Definition guards (owner : option string) (created_at : option Z) (r : row) : bool :=
  optional owner (sql_eq (owner_id r)) && optional created_at (fun t => timestamp (spec r) =? t).

Definition complete_task (id finished : Z) (outs : option pyval) (owner : option string) (created_at : option Z)
    (tbl : table) : bool * table :=
  update_where id (guards owner created_at)
    (fun r => set_status COMPLETED (set_progress 100 (set_finished (Some finished) (set_outputs outs
                (set_locked None (set_owner None r)))))) tbl.

Definition retry_row (now finished : Z) (err : string) (r : row) : row :=
  let again := retry_count r + 1 <? limit r in
  set_status (if again then PENDING else DEAD_LETTER)
    (set_error (Some (if cap <=? retry_count r + 1
                      then err +:+ " [hard retry cap " +:+ pretty cap +:+ " reached]" else err))
    (set_retry (retry_count r + 1)
    (set_locked (if again then Some (now + 2 ^ (retry_count r + 1)) else None)
    (set_finished (if again then finished_at r else Some finished)
    (set_owner (if again then None else owner_id r) r))))).

Definition fail_row (finished : Z) (err : string) (r : row) : row :=
  set_status FAILED (set_error (Some err) (set_finished (Some finished) (set_locked None (set_owner None r)))).

Definition fail_task (now id finished : Z) (err : string) (retry : bool) (owner : option string)
    (created_at : option Z) (tbl : table) : bool * table :=
  update_where id (guards owner created_at)
    (if retry then retry_row now finished err else fail_row finished err) tbl.

Definition dead_letter_row (finished : Z) (err : string) (r : row) : row :=
  set_status DEAD_LETTER (set_error (Some err) (set_finished (Some finished) (set_locked None (set_owner None r)))).

Definition dead_letter_task (id finished : Z) (err : string) (owner : option string) (created_at : option Z)
    (tbl : table) : bool * table :=
  update_where id (guards owner created_at) (dead_letter_row finished err) tbl.

(** ** Heartbeats and bookkeeping *)

Definition extend (now vt : Z) (r : row) : row := set_locked (Some (now + vt)) (set_heartbeat (Some now) r).

(** [heartbeat_tasks]: the batch pairs an id with the creation time of its row. *)
Definition heartbeat_tasks (now : Z) (tasks : list (Z * Z)) (vt : Z) (tbl : table) : table :=
  update_all (fun id r => bool_decide ((id, timestamp (spec r)) ∈ tasks) && bool_decide (status r = ACTIVE))
    (extend now vt) tbl.

Definition heartbeat_task_if_active (now id vt : Z) (created_at : option Z) (tbl : table) : bool * table :=
  update_where id (fun r => guards None created_at r && bool_decide (status r = ACTIVE)) (extend now vt) tbl.

Definition set_runner_ref (id : Z) (ref : string) (tbl : table) : table :=
  (update_where id (fun _ => true) (set_ref (Some ref)) tbl).2.

Definition persist_outputs (id : Z) (outs : option pyval) (tbl : table) : table :=
  (update_where id (fun _ => true) (fun r => set_outputs outs (set_progress 100 r)) tbl).2.

Definition stamp_dismiss_confirmed (now id : Z) (tbl : table) : bool * table :=
  update_where id
    (fun r => bool_decide (status r = DISMISSED) && bool_decide (dismiss_confirmed_at r = None))
    (set_dismiss_confirmed (Some now)) tbl.

Definition reset_task_to_pending (now id : Z) (backoff : option Z) (tbl : table) : table :=
  (update_where id (fun r => bool_decide (status r = ACTIVE))
     (fun r => set_status PENDING (set_locked (option_map (Z.add now) backoff)
                 (set_owner None (set_heartbeat None r)))) tbl).2.

(** ** Selections of the liveness reconciler *)

Definition gcp_owner (r : row) : bool :=
  match owner_id r with Some o => sql_like "gcp_cloud_run_%" o | None => false end.

(** [LIMIT 500] without an order: any 500 of the matches; here the first by id. *)
Definition select_rows (p : Z -> row -> bool) (tbl : table) : list (Z * row) :=
  take 500 (List.filter (fun kv => p kv.1 kv.2) (map_to_list tbl)).

Definition select_lapsed_gcp_tasks (now : Z) (locked : list Z) : table -> list (Z * row) :=
  select_rows (fun id r => bool_decide (status r = ACTIVE) && sql_lt (locked_until r) now && gcp_owner r
                           && negb (bool_decide (id ∈ locked))).

Definition select_stale_gcp_tasks (now grace_seconds : Z) : table -> list (Z * row) :=
  select_rows (fun _ r => bool_decide (status r = ACTIVE) && sql_lt (locked_until r) (now - grace_seconds)
                          && gcp_owner r).

Definition select_dismissed_unconfirmed_gcp_tasks (locked : list Z) : table -> list (Z * row) :=
  select_rows (fun id r => bool_decide (status r = DISMISSED) && bool_decide (dismiss_confirmed_at r = None)
                           && gcp_owner r && negb (bool_decide (id ∈ locked))).

(** ** Maintenance *)

(** [cleanup_orphan_tasks]; [None] when the catalogs table does not exist. *)
Definition cleanup_orphan_tasks (now grace : Z) (active_catalogs : option (list string)) (tbl : table) : table :=
  match active_catalogs with
  | None => tbl
  | Some cats =>
      update_all (fun _ r => in_statuses [PENDING; ACTIVE] r && (scope (spec r) ==s "CATALOG")
                             && (timestamp (spec r) <? now - grace) && negb (str_mem (catalog_id (spec r)) cats)
                             && negb (catalog_id (spec r) ==s "system"))
        (fun r => set_status DEAD_LETTER (set_error (Some "Orphaned: catalog no longer exists")
                    (set_finished (Some now) (set_locked None r)))) tbl
  end.

Definition requeueable (r : row) : bool := in_statuses [DEAD_LETTER; FAILED] r.

Definition requeue_row (reset_retries : bool) (r : row) : row :=
  set_status PENDING (set_locked None (set_finished None (set_error None (set_owner None
    (set_retry (if reset_retries then 0 else retry_count r) r))))).

Definition tenant_guard (cat col : option string) (r : row) : bool :=
  optional cat (fun c => catalog_id (spec r) ==s c)
  && match cat, col with Some _, Some c => sql_eq (collection_id (spec r)) c | _, _ => true end.

(** [requeue_dead_letter_task]; [inl] is [UnclaimableRequeueError]. *)
Definition requeue_dead_letter_task (id : Z) (reset_retries : bool) (cat col : option string) (tbl : table)
    : (() + bool) * table :=
  let p r := requeueable r && tenant_guard cat col r in
  match update_where id (fun r => p r && (reset_retries || (retry_count r <? cap))) (requeue_row reset_retries) tbl with
  | (true, tbl') => (inr true, tbl')
  | (false, _) =>
      (if negb reset_retries && match tbl !! id with Some r => p r && (cap <=? retry_count r) | None => false end
       then inl () else inr false, tbl)
  end.

(** [ORDER BY finished_at DESC]: NULLs first, ties by id. *)
Definition finished_ge (a b : Z * row) : Prop :=
  match finished_at a.2, finished_at b.2 with
  | None, None => a.1 <= b.1
  | None, Some _ => True
  | Some _, None => False
  | Some x, Some y => y < x \/ (x = y /\ a.1 <= b.1)
  end.

#[global] Instance finished_ge_dec a b : Decision (finished_ge a b).
Proof. unfold finished_ge. destruct (finished_at a.2), (finished_at b.2); apply _. Defined.

(** [requeue_dead_letter_tasks_by_type]; [jsonb_text] is [inputs->>key] of a
    value.  The keys of [inputs_match] are identifiers. *)
Definition requeue_dead_letter_tasks_by_type (jsonb_text : pyval -> option string) (ty : string) (since : option Z)
    (lim : nat) (reset_retries : bool) (inputs_match : list (string * string)) (tbl : table) : nat * table :=
  let p r := requeueable r && (task_type (spec r) ==s ty) && optional since (sql_ge (finished_at r))
             && forallb (fun kv => match dict_get kv.1 (inputs (spec r)) with
                                   | Some v => sql_eq (jsonb_text v) kv.2
                                   | None => false
                                   end) inputs_match in
  let victims := map fst (take lim (merge_sort finished_ge (List.filter (fun kv => p kv.2) (map_to_list tbl)))) in
  (length victims, update_all (fun id _ => bool_decide (id ∈ victims)) (requeue_row reset_retries) tbl).

Definition purge (p : row -> bool) (cat : option string) (tbl : table) : table :=
  filter (fun kv => p kv.2 && optional cat (fun c => catalog_id (spec kv.2) ==s c) = false) tbl.

Definition purge_completed_tasks (now older_than : Z) : option string -> table -> table :=
  purge (fun r => in_statuses [COMPLETED; FAILED] r && sql_lt (finished_at r) (now - older_than)).

Definition purge_dead_letter_tasks (now older_than : Z) : option string -> table -> table :=
  purge (fun r => bool_decide (status r = DEAD_LETTER)
                  && (default (timestamp (spec r)) (finished_at r) <? now - older_than)).

(** The update of [_maybe_dlq_unclaimable], and of [_dead_capability_bulk_sql]. *)
Definition dlq_unclaimable (now id ts : Z) (err : string) (tbl : table) : bool * table :=
  update_where id
    (fun r => (timestamp (spec r) =? ts) && bool_decide (status r = PENDING) && (retry_count r =? 0))
    (dead_letter_row now err) tbl.

Definition bulk_dlq (jsonb_text : pyval -> option string) (now : Z) (ty inputs_key capability err : string)
    (tbl : table) : table :=
  update_all (fun _ r => (task_type (spec r) ==s ty) && bool_decide (status r = PENDING) && (retry_count r =? 0)
                         && match dict_get inputs_key (inputs (spec r)) with
                            | Some v => sql_eq (jsonb_text v) capability
                            | None => false
                            end)
    (dead_letter_row now err) tbl.

(** [sweep_unclaimable_rows]: [types] are the task types without a live owner. *)
Definition sweep_unclaimable_rows (now min_age : Z) (types : list string) (err : string) (tbl : table) : table :=
  match types with
  | [] => tbl
  | _ => update_all (fun _ r => bool_decide (status r = PENDING) && (retry_count r =? 0)
                                && str_mem (task_type (spec r)) types && (timestamp (spec r) <? now - min_age))
           (dead_letter_row now err) tbl
  end.
End claims.

(** ** Dismissal *)

Inductive dismiss_result : Type := NotFound | AlreadyDismissed | StateConflict | Dismissed.

(** [dismiss_job]: [seen] is the status [get_task] returned, from a cache that may
    be behind the table; the update that follows checks no status. *)
Definition dismiss_job (now id : Z) (schema : string) (seen : option task_status) (tbl : table)
    : dismiss_result * table :=
  match seen with
  | None => (NotFound, tbl)
  | Some DISMISSED => (AlreadyDismissed, tbl)
  | Some (COMPLETED | FAILED | DEAD_LETTER) => (StateConflict, tbl)
  | Some st =>
      let '(matched, tbl') :=
        update_where id (fun r => catalog_id (spec r) ==s schema)
          (fun r => set_status DISMISSED
                      (match st with
                       | PENDING | CREATED => set_dismiss_confirmed (Some now) r
                       | _ => r
                       end)) tbl in
      (if matched : bool then Dismissed else NotFound, tbl')
  end.

(** ** Runs

    The operations with their arguments, so that a run of the system is a list of
    timed operations.  [cap] and [lookback] are constant along a run. *)

Inductive op : Type :=
| OCreate (id : Z) (td : task_create) (schema : string) (st : task_status) (owner : option string)
    (lease : option Z) (cid : option string)
| OEnqueue (id : Z) (td : task_create) (schema : string) (key : option string) (mode scp : string)
| OClaimNext (async_types sync_types : list string) (vt : Z) (owner : string) (locked : list Z)
| OClaimBatch (async_types sync_types : list string) (vt : Z) (owner : string) (batch_size : nat) (locked : list Z)
| OClaimForExecution (id : Z) (schema owner : string) (vt : Z)
| OClaimForDispatch (id : Z) (owner : string) (lease : Z) (prefix prior : option string)
| OReap (locked : list Z)
| OComplete (id finished : Z) (outs : option pyval) (owner : option string) (created_at : option Z)
| OFail (id finished : Z) (err : string) (retry : bool) (owner : option string) (created_at : option Z)
| ODeadLetter (id finished : Z) (err : string) (owner : option string) (created_at : option Z)
| OHeartbeat (tasks : list (Z * Z)) (vt : Z)
| OHeartbeatOne (id vt : Z) (created_at : option Z)
| OSetRunnerRef (id : Z) (ref : string)
| OPersistOutputs (id : Z) (outs : option pyval)
| OStampDismiss (id : Z)
| OResetToPending (id : Z) (backoff : option Z)
| OCleanupOrphans (grace : Z) (active_catalogs : option (list string))
| ORequeue (id : Z) (reset_retries : bool) (cat col : option string)
| ORequeueByType (jsonb_text : pyval -> option string) (ty : string) (since : option Z) (lim : nat)
    (reset_retries : bool) (inputs_match : list (string * string))
| OPurgeCompleted (older_than : Z) (cat : option string)
| OPurgeDeadLetter (older_than : Z) (cat : option string)
| ODlqUnclaimable (id ts : Z) (err : string)
| OBulkDlq (jsonb_text : pyval -> option string) (ty inputs_key capability err : string)
| ODismiss (id : Z) (schema : string) (seen : option task_status)
| OSweepUnclaimable (min_age : Z) (types : list string) (err : string).

Section exec.
Context (cap lookback : Z) (default_title : pyval) (internal_key : string).

Definition exec (now : Z) (o : op) (tbl : table) : table :=
  match o with
  | OCreate id td schema st owner lease cid =>
      (create_task default_title internal_key now id td schema st owner lease cid tbl).2
  | OEnqueue id td schema key mode scp => (enqueue now id td schema key mode scp tbl).2
  | OClaimNext a s vt owner locked => (claim_next lookback now a s vt owner locked tbl).2
  | OClaimBatch a s vt owner n locked => (claim_batch cap lookback now a s vt owner n locked tbl).2
  | OClaimForExecution id schema owner vt => (claim_for_execution now id schema owner vt tbl).2
  | OClaimForDispatch id owner lease prefix prior => (claim_for_dispatch now id owner lease prefix prior tbl).2
  | OReap locked => (reap_stuck_tasks cap now locked tbl).2
  | OComplete id finished outs owner created => (complete_task id finished outs owner created tbl).2
  | OFail id finished err retry owner created => (fail_task cap now id finished err retry owner created tbl).2
  | ODeadLetter id finished err owner created => (dead_letter_task id finished err owner created tbl).2
  | OHeartbeat tasks vt => heartbeat_tasks now tasks vt tbl
  | OHeartbeatOne id vt created => (heartbeat_task_if_active now id vt created tbl).2
  | OSetRunnerRef id ref => set_runner_ref id ref tbl
  | OPersistOutputs id outs => persist_outputs id outs tbl
  | OStampDismiss id => (stamp_dismiss_confirmed now id tbl).2
  | OResetToPending id backoff => reset_task_to_pending now id backoff tbl
  | OCleanupOrphans grace cats => cleanup_orphan_tasks now grace cats tbl
  | ORequeue id reset cat col => (requeue_dead_letter_task cap id reset cat col tbl).2
  | ORequeueByType jt ty since lim reset im => (requeue_dead_letter_tasks_by_type jt ty since lim reset im tbl).2
  | OPurgeCompleted older cat => purge_completed_tasks now older cat tbl
  | OPurgeDeadLetter older cat => purge_dead_letter_tasks now older cat tbl
  | ODlqUnclaimable id ts err => (dlq_unclaimable now id ts err tbl).2
  | OBulkDlq jt ty ik c err => bulk_dlq jt now ty ik c err tbl
  | ODismiss id schema seen => (dismiss_job now id schema seen tbl).2
  | OSweepUnclaimable min_age types err => sweep_unclaimable_rows now min_age types err tbl
  end.

Fixpoint run (ops : list (Z * op)) (tbl : table) : table :=
  match ops with
  | [] => tbl
  | (now, o) :: ops => run ops (exec now o tbl)
  end.

(** *** Checks and inserts apart

    The check and the insert of [create_task] and [enqueue] are two statements; the
    statements of other sessions come between them.  [pend]: the creations that have
    passed their check, by session, with the time of their transaction. *)

(** The catalog and the key a creation is for. *)
Definition dedup_of (o : op) : option (string * option string) :=
  match o with
  | OCreate _ td schema _ _ _ _ => Some (schema, c_dedup_key td)
  | OEnqueue _ _ schema key _ _ => Some (schema, key)
  | _ => None
  end.

Definition insert_checked (now : Z) (o : op) (tbl : table) : table :=
  match o with
  | OCreate id td schema st owner lease cid =>
      (create_insert default_title internal_key now id td schema st owner lease cid tbl).2
  | OEnqueue id td schema key mode scp => (enqueue_insert now id td schema key mode scp tbl).2
  | _ => tbl
  end.

Inductive qevent : Type :=
| QOp (now : Z) (o : op)
| QCheck (session : nat) (now : Z) (o : op)
| QInsert (session : nat).

Definition qstep (e : qevent) (w : table * gmap nat (Z * op)) : table * gmap nat (Z * op) :=
  let (tbl, pend) := w in
  match e with
  | QOp now o => (exec now o tbl, pend)
  | QCheck p now o =>
      match dedup_of o with
      | Some (cat, key) => if dedup_hit cat key tbl then w else (tbl, <[p := (now, o)]> pend)
      | None => w
      end
  | QInsert p =>
      match pend !! p with
      | Some (now, o) => (insert_checked now o tbl, delete p pend)
      | None => w
      end
  end.

Fixpoint qrun (es : list qevent) (w : table * gmap nat (Z * op)) : table * gmap nat (Z * op) :=
  match es with [] => w | e :: es => qrun es (qstep e w) end.
End exec.
