(* ===== verification/TaskQueueProofs.v ===== *)
(** * The task queue is correct

    Properties of runs of [TaskQueue]: well-formed rows, exclusive leases, final
    results, bounded attempts, deduplication, fair claims and absence of
    starvation. *)

From S2P Require Import Prelude TaskQueue.

(** ** What an operation does to one row

    [row_step] is the queue as a state machine of single rows: every change a row
    can undergo, with the condition it happens under.  [exec_row] shows that the
    statements above, selections and limits included, do nothing else. *)

Section steps.
Context (cap lookback : Z) (default_title : pyval) (internal_key : string).
Abbreviation exec := (exec cap lookback default_title internal_key).
Abbreviation run := (run cap lookback default_title internal_key).

Inductive row_step (now id : Z) (r : row) : op -> option row -> Prop :=
| step_claim_next a s vt owner locked :
    ready lookback now a s r = true -> id ∉ locked ->
    row_step now id r (OClaimNext a s vt owner locked) (Some (claim_row now vt owner r))
| step_claim_batch a s vt owner n locked :
    eligible cap lookback now a s r = true -> id ∉ locked ->
    row_step now id r (OClaimBatch a s vt owner n locked) (Some (set_error None (claim_row now vt owner r)))
| step_claim_for_execution schema owner vt :
    in_statuses [COMPLETED; FAILED; DISMISSED; DEAD_LETTER] r = false ->
    (status r = ACTIVE -> sql_eq (owner_id r) owner = false -> forall t, locked_until r = Some t -> t <= now) ->
    row_step now id r (OClaimForExecution id schema owner vt) (Some (claim_row now vt owner r))
| step_claim_for_dispatch owner lease prefix prior :
    status r = ACTIVE ->
    (owner_id r = None \/ owner_id r = Some owner \/ (exists p, prior = Some p /\ owner_id r = Some p)
     \/ (exists p o, prefix = Some p /\ owner_id r = Some o /\ sql_like (p +:+ "%") o = true)) ->
    row_step now id r (OClaimForDispatch id owner lease prefix prior)
      (Some (set_owner (Some owner) (set_locked (Some lease) (set_heartbeat (Some now) (set_started None r)))))
| step_reap locked :
    stuck now r = true -> id ∉ locked -> row_step now id r (OReap locked) (Some (reap_row cap now r))
| step_complete finished outs owner created :
    guards owner created r = true ->
    row_step now id r (OComplete id finished outs owner created)
      (Some (set_status COMPLETED (set_progress 100 (set_finished (Some finished) (set_outputs outs
               (set_locked None (set_owner None r)))))))
| step_fail finished err retry owner created :
    guards owner created r = true ->
    row_step now id r (OFail id finished err retry owner created)
      (Some ((if retry : bool then retry_row cap now finished err else fail_row finished err) r))
| step_dead_letter finished err owner created :
    guards owner created r = true ->
    row_step now id r (ODeadLetter id finished err owner created) (Some (dead_letter_row finished err r))
| step_heartbeat tasks vt :
    status r = ACTIVE -> (id, timestamp (spec r)) ∈ tasks ->
    row_step now id r (OHeartbeat tasks vt) (Some (extend now vt r))
| step_heartbeat_one vt created :
    status r = ACTIVE -> row_step now id r (OHeartbeatOne id vt created) (Some (extend now vt r))
| step_ref ref : row_step now id r (OSetRunnerRef id ref) (Some (set_ref (Some ref) r))
| step_outputs outs : row_step now id r (OPersistOutputs id outs) (Some (set_outputs outs (set_progress 100 r)))
| step_stamp :
    status r = DISMISSED -> row_step now id r (OStampDismiss id) (Some (set_dismiss_confirmed (Some now) r))
| step_reset backoff :
    status r = ACTIVE ->
    row_step now id r (OResetToPending id backoff)
      (Some (set_status PENDING (set_locked (option_map (Z.add now) backoff) (set_owner None (set_heartbeat None r)))))
| step_orphan grace cats :
    status r = PENDING \/ status r = ACTIVE -> catalog_id (spec r) ∉ cats ->
    row_step now id r (OCleanupOrphans grace (Some cats))
      (Some (set_status DEAD_LETTER (set_error (Some "Orphaned: catalog no longer exists")
               (set_finished (Some now) (set_locked None r)))))
| step_requeue reset cat col :
    requeueable r = true -> tenant_guard cat col r = true -> (reset = true \/ retry_count r < cap) ->
    row_step now id r (ORequeue id reset cat col) (Some (requeue_row reset r))
| step_requeue_type jt ty since lim reset im :
    requeueable r = true -> task_type (spec r) = ty ->
    row_step now id r (ORequeueByType jt ty since lim reset im) (Some (requeue_row reset r))
| step_purge_completed older cat :
    status r = COMPLETED \/ status r = FAILED -> row_step now id r (OPurgeCompleted older cat) None
| step_purge_dead older cat :
    status r = DEAD_LETTER -> row_step now id r (OPurgeDeadLetter older cat) None
| step_dlq ts err :
    status r = PENDING -> retry_count r = 0 ->
    row_step now id r (ODlqUnclaimable id ts err) (Some (dead_letter_row now err r))
| step_bulk_dlq jt ty ik c err :
    task_type (spec r) = ty -> status r = PENDING -> retry_count r = 0 ->
    row_step now id r (OBulkDlq jt ty ik c err) (Some (dead_letter_row now err r))
| step_dismiss schema st :
    (st = CREATED \/ st = PENDING \/ st = ACTIVE \/ st = RUNNING) ->
    row_step now id r (ODismiss id schema (Some st))
      (Some (set_status DISMISSED (match st with
                                   | PENDING | CREATED => set_dismiss_confirmed (Some now) r
                                   | _ => r
                                   end)))
| step_sweep min_age types err :
    task_type (spec r) ∈ types -> status r = PENDING -> retry_count r = 0 ->
    row_step now id r (OSweepUnclaimable min_age types err) (Some (dead_letter_row now err r)).

Lemma update_where_lookup id p f (tbl : table) j :
  (update_where id p f tbl).2 !! j =
  if decide (j = id) then (fun r => if p r : bool then f r else r) <$> tbl !! id else tbl !! j.
Proof.
  unfold update_where. destruct (decide (j = id)) as [->|Hne].
  - destruct (tbl !! id) as [r|] eqn:E; [|done]. simpl. destruct (p r); simpl; [by rewrite lookup_insert_eq|done].
  - destruct (tbl !! id) as [r|]; [|done]. destruct (p r); simpl; [by rewrite lookup_insert_ne|done].
Qed.

Lemma update_all_lookup p f (tbl : table) j :
  update_all p f tbl !! j = (fun r => if p j r : bool then f r else r) <$> tbl !! j.
Proof. unfold update_all. rewrite map_lookup_imap. by destruct (tbl !! j). Qed.

Lemma purge_lookup p cat (tbl : table) j r :
  tbl !! j = Some r -> purge p cat tbl !! j = Some r \/ (purge p cat tbl !! j = None /\ p r = true).
Proof.
  intros Hr. unfold purge. destruct (p r && optional cat (fun c => catalog_id (spec r) ==s c)) eqn:E.
  - right. bool_hyps. split; [|done]. apply map_lookup_filter_None. right. intros x Hx. rewrite Hr in Hx.
    simplify_eq/=. intros Hf. by apply not_true_iff_false in Hf; apply Hf, andb_true_iff.
  - left. by apply map_lookup_filter_Some.
Qed.

Lemma merge_sort_elem {A} (R : A -> A -> Prop) `{!RelDecision R} kv l : kv ∈ merge_sort R l <-> kv ∈ l.
Proof. by rewrite merge_sort_Permutation. Qed.

Lemma in_filter {A} (p : A -> bool) x l : x ∈ List.filter p l <-> p x = true /\ x ∈ l.
Proof. rewrite !list_elem_of_In, List.filter_In. tauto. Qed.

Lemma take_elem {A} n (x : A) l : x ∈ take n l -> x ∈ l.
Proof. intros (i & Hi & _)%elem_of_take. by eapply list_elem_of_lookup_2. Qed.

Lemma batch_spec now a s n locked (tbl : table) id r :
  (id, r) ∈ batch cap lookback now a s n locked tbl ->
  tbl !! id = Some r /\ eligible cap lookback now a s r = true /\ id ∉ locked.
Proof.
  unfold batch, candidates. intros Hin%take_elem%merge_sort_elem%in_filter.
  rewrite !in_filter, elem_of_map_to_list in Hin. simpl in Hin. destruct Hin as (Hl & _ & He & Hr).
  split_and!; [done|done|]. by apply negb_true_iff, bool_decide_eq_false in Hl.
Qed.

(** Fresh ids: what UUIDv7 generation provides. *)
Definition op_fresh (o : op) (tbl : table) : Prop :=
  match o with OCreate id _ _ _ _ _ _ | OEnqueue id _ _ _ _ _ => tbl !! id = None | _ => True end.

Lemma update_where_row id p f (tbl : table) j r :
  tbl !! j = Some r ->
  (update_where id p f tbl).2 !! j = Some r
  \/ (j = id /\ p r = true /\ (update_where id p f tbl).2 !! j = Some (f r)).
Proof.
  intros Hr. rewrite update_where_lookup. destruct (decide (j = id)) as [->|]; [|by left].
  rewrite Hr. simpl. destruct (p r); auto.
Qed.

Lemma update_all_row p f (tbl : table) j r :
  tbl !! j = Some r ->
  update_all p f tbl !! j = Some r \/ (p j r = true /\ update_all p f tbl !! j = Some (f r)).
Proof. intros Hr. rewrite update_all_lookup, Hr. simpl. destruct (p j r); auto. Qed.

Lemma in_statuses_spec l r : in_statuses l r = true <-> status r ∈ l.
Proof. apply bool_decide_eq_true. Qed.

Lemma claim_batch_row now a s vt owner n locked (tbl : table) id r :
  tbl !! id = Some r ->
  (claim_batch cap lookback now a s vt owner n locked tbl).2 !! id = Some r \/
  (eligible cap lookback now a s r = true /\ id ∉ locked /\
   (claim_batch cap lookback now a s vt owner n locked tbl).2 !! id = Some (set_error None (claim_row now vt owner r))).
Proof.
  intros Hr. unfold claim_batch. set (b := batch _ _ _ _ _ _ _ _).
  assert (H : update_all (fun id _ => bool_decide (id ∈ map fst b)) (fun r => set_error None (claim_row now vt owner r)) tbl !! id
              = Some r \/ (eligible cap lookback now a s r = true /\ id ∉ locked /\
     update_all (fun id _ => bool_decide (id ∈ map fst b)) (fun r => set_error None (claim_row now vt owner r)) tbl !! id
              = Some (set_error None (claim_row now vt owner r)))).
  { destruct (update_all_row (fun id _ => bool_decide (id ∈ map fst b))
                (fun r => set_error None (claim_row now vt owner r)) tbl id r Hr) as [?|[Hin ?]]; [by left|]. right.
    apply bool_decide_eq_true, list_elem_of_fmap in Hin as ([id' r'] & -> & Hin). simpl in *.
    apply batch_spec in Hin as (Hr' & He & Hl). naive_solver. }
  destruct a; [destruct s; [by left|]|]; exact H.
Qed.

Lemma claim_next_row now a s vt owner locked (tbl : table) id r :
  tbl !! id = Some r ->
  (claim_next lookback now a s vt owner locked tbl).2 !! id = Some r \/
  (ready lookback now a s r = true /\ id ∉ locked /\
   (claim_next lookback now a s vt owner locked tbl).2 !! id = Some (claim_row now vt owner r)).
Proof.
  intros Hr. unfold claim_next. set (l := merge_sort _ _).
  assert (Hl : forall id' r', (id', r') ∈ l -> tbl !! id' = Some r' /\ ready lookback now a s r' = true /\ id' ∉ locked).
  { intros id' r' Hin%merge_sort_elem. apply in_filter in Hin as [Hb Hin%elem_of_map_to_list]. simpl in *. bool_hyps.
    split_and!; [done..|]. by eapply bool_decide_eq_false. }
  assert (H : forall t : option Z * table,
    t = (match l with [] => (None, tbl) | (id, r) :: _ => (Some id, <[id := claim_row now vt owner r]> tbl) end) ->
    t.2 !! id = Some r \/ (ready lookback now a s r = true /\ id ∉ locked /\ t.2 !! id = Some (claim_row now vt owner r))).
  { intros t ->. destruct l as [|[id' r'] l']; [by left|]. simpl. destruct (Hl id' r' ltac:(left)) as (Hr' & ? & ?).
    destruct (decide (id = id')) as [->|]; [|left; by rewrite lookup_insert_ne]. right. rewrite lookup_insert_eq. naive_solver. }
  destruct a; [destruct s; [by left|]|]; by apply H.
Qed.

(** The statement matched the row: its condition as a hypothesis. *)
Ltac matched Hr Hg :=
  match goal with
  | |- context [(update_where ?i ?p ?f ?t).2 !! ?j] => destruct (update_where_row i p f t j _ Hr) as [?|(-> & Hg & ->)]
  | |- context [update_all ?p ?f ?t !! ?j] => destruct (update_all_row p f t j _ Hr) as [?|[Hg ->]]
  end; [by left|right].

Ltac bool_decide_hyps :=
  repeat match goal with
  | H : bool_decide _ = true |- _ => apply bool_decide_eq_true in H
  | H : bool_decide _ = false |- _ => apply bool_decide_eq_false in H
  | H : in_statuses _ _ = true |- _ => apply in_statuses_spec in H
  end.

Lemma insert_row_fresh (tbl : table) id j r r' :
  tbl !! id = None -> tbl !! j = Some r -> <[id := r']> tbl !! j = Some r.
Proof. intros Hn Hr. rewrite lookup_insert_ne; [done|]. by intros ->; rewrite Hn in Hr. Qed.

Lemma exec_row now o (tbl : table) id r :
  tbl !! id = Some r -> op_fresh o tbl ->
  exec now o tbl !! id = Some r \/ row_step now id r o (exec now o tbl !! id).
Proof.
  intros Hr Hf. destruct o; simpl in *.
  - left. unfold create_task, create_insert. destruct (dedup_hit _ _ _); [done|]. by apply insert_row_fresh.
  - left. unfold enqueue, enqueue_insert. destruct (dedup_hit _ _ _); [done|].
    destruct (match key with Some _ => _ | None => _ end); [done|]. by apply insert_row_fresh.
  - destruct (claim_next_row now async_types sync_types vt owner locked tbl id r Hr) as [?|(? & ? & ->)]; [by left|].
    right. by constructor.
  - destruct (claim_batch_row now async_types sync_types vt owner batch_size locked tbl id r Hr) as [?|(? & ? & ->)]; [by left|].
    right. by constructor.
  - unfold claim_for_execution. matched Hr Hg. bool_hyps.
    constructor; [done|]. intros Hs Ho t Ht. match goal with H : _ && _ = false |- _ => rename H into Hb end.
    rewrite Ht, Ho, bool_decide_eq_true_2, andb_true_r in Hb by done. by apply Z.ltb_ge in Hb.
  - unfold claim_for_dispatch. matched Hr Hg. bool_hyps. bool_decide_hyps. constructor; [done|].
    destruct (owner_id r) as [o|]; [right|by left].
    repeat match goal with H : _ || _ = true |- _ => apply orb_true_iff in H as [H|H] end.
    + destruct prefix as [p|]; [|done]. eauto 10.
    + bool_hyps. subst. by left.
    + destruct prior as [p|]; [|done]. bool_hyps. subst. eauto 10.
  - matched Hr Hg. bool_hyps. bool_decide_hyps. by constructor.
  - unfold complete_task. matched Hr Hg. by constructor.
  - unfold fail_task. matched Hr Hg. by constructor.
  - unfold dead_letter_task. matched Hr Hg. by constructor.
  - unfold heartbeat_tasks. matched Hr Hg. bool_hyps. bool_decide_hyps. by constructor.
  - unfold heartbeat_task_if_active. matched Hr Hg. bool_hyps. bool_decide_hyps. by constructor.
  - unfold set_runner_ref. matched Hr Hg. by constructor.
  - unfold persist_outputs. matched Hr Hg. by constructor.
  - unfold stamp_dismiss_confirmed. matched Hr Hg. bool_hyps. bool_decide_hyps. by constructor.
  - unfold reset_task_to_pending. matched Hr Hg. bool_decide_hyps. by constructor.
  - unfold cleanup_orphan_tasks. destruct active_catalogs as [cats|]; [|by left].
    matched Hr Hg. bool_hyps. bool_decide_hyps. constructor; [set_solver|by apply str_mem_false].
  - unfold requeue_dead_letter_task.
    destruct (update_where id0 _ _ tbl) as [[] tbl'] eqn:E; [|by left]. simpl.
    replace tbl' with (true, tbl').2 by done. rewrite <-E. matched Hr Hg. bool_hyps.
    constructor; [done..|]. destruct reset_retries; [by left|]. right. simpl in *. by bool_hyps.
  - unfold requeue_dead_letter_tasks_by_type. simpl. matched Hr Hg. bool_decide_hyps.
    apply list_elem_of_fmap in Hg as ([id' r'] & -> & Hin%take_elem%merge_sort_elem%in_filter).
    rewrite elem_of_map_to_list in Hin. simpl in *. destruct Hin as [Hp Hr']. simplify_eq. bool_hyps. by constructor.
  - unfold purge_completed_tasks. destruct (purge_lookup (fun r => in_statuses [COMPLETED; FAILED] r && sql_lt (finished_at r) (now - older_than)) cat tbl id r Hr) as [?|[-> Hp]]; [by left|].
    right. bool_hyps. bool_decide_hyps. constructor. set_solver.
  - unfold purge_dead_letter_tasks.
    match goal with |- context [purge ?p _ _ !! _] => destruct (purge_lookup p cat tbl id r Hr) as [?|[-> Hp]] end; [by left|].
    right. bool_hyps. bool_decide_hyps. by constructor.
  - unfold dlq_unclaimable. matched Hr Hg. bool_hyps. bool_decide_hyps. by constructor.
  - unfold bulk_dlq. matched Hr Hg. bool_hyps. bool_decide_hyps. by constructor.
  - unfold dismiss_job. destruct seen as [[]|]; try by left.
    all: match goal with |- context [update_where ?i ?p ?f ?t] => destruct (update_where i p f t) as [m tbl'] eqn:E end;
      simpl; replace tbl' with (m, tbl').2 by done; rewrite <-E; matched Hr Hg; apply step_dismiss; tauto.
  - unfold sweep_unclaimable_rows. destruct types as [|t ts]; [by left|]. matched Hr Hg. bool_hyps. bool_decide_hyps.
    constructor; [by apply str_mem_In|done..].
Qed.

Lemma absent_where id p f (tbl : table) j : tbl !! j = None -> (update_where id p f tbl).2 !! j = None.
Proof. intros Hn. rewrite update_where_lookup. destruct (decide (j = id)) as [->|]; [by rewrite Hn|done]. Qed.

Lemma exec_new now o (tbl : table) id r :
  tbl !! id = None -> exec now o tbl !! id = Some r ->
  retry_count r = 0 /\ timestamp (spec r) = now /\
  ((exists td schema key mode scp, o = OEnqueue id td schema key mode scp /\ dedup_hit schema key tbl = false /\
     status r = PENDING /\ owner_id r = None /\ dedup_key (spec r) = key /\ catalog_id (spec r) = schema /\
     progress r = 0 /\ max_retries (spec r) = DEFAULT_MAX_RETRIES) \/
   (exists td schema st owner lease cid, o = OCreate id td schema st owner lease cid /\
     dedup_hit schema (c_dedup_key td) tbl = false /\
     status r = st /\ owner_id r = owner /\ locked_until r = lease /\ dedup_key (spec r) = c_dedup_key td /\
     catalog_id (spec r) = schema /\ progress r = 0 /\
     last_heartbeat_at r = (if decide (st = ACTIVE) then Some now else None))).
Proof.
  intros Hn. destruct o; simpl.
  3-25: intros H; exfalso; revert H; apply eq_None_ne_Some; clear r.
  - unfold create_task, create_insert. destruct (dedup_hit _ _ _) eqn:E; simpl; [by rewrite Hn|].
    destruct (decide (id = id0)) as [<-|]; [|by rewrite lookup_insert_ne, Hn]. rewrite lookup_insert_eq.
    intros [= <-]. simpl. split_and!; [done..|]. right. by eexists _, _, _, _, _, _.
  - unfold enqueue, enqueue_insert. destruct (dedup_hit _ _ _) eqn:E; simpl; [by rewrite Hn|].
    destruct (match key with Some _ => _ | None => _ end); simpl; [by rewrite Hn|].
    destruct (decide (id = id0)) as [<-|]; [|by rewrite lookup_insert_ne, Hn]. rewrite lookup_insert_eq.
    intros [= <-]. simpl. split_and!; [done..|]. left. by eexists _, _, _, _, _.
  - unfold claim_next. set (l := merge_sort _ _).
    assert (Hl : forall id' r', (id', r') ∈ l -> tbl !! id' = Some r').
    { intros id' r' Hin%merge_sort_elem. by apply in_filter in Hin as [_ Hin%elem_of_map_to_list]. }
    destruct l as [|[id' r'] l']; [by destruct async_types, sync_types|].
    specialize (Hl id' r' ltac:(left)).
    destruct async_types, sync_types; simpl; try done; rewrite lookup_insert_ne by congruence; done.
  - unfold claim_batch. destruct async_types, sync_types; simpl; rewrite ?update_all_lookup, Hn; done.
  - by apply absent_where.
  - by apply absent_where.
  - simpl. by rewrite update_all_lookup, Hn.
  - by apply absent_where.
  - by apply absent_where.
  - by apply absent_where.
  - unfold heartbeat_tasks. by rewrite update_all_lookup, Hn.
  - by apply absent_where.
  - by apply absent_where.
  - by apply absent_where.
  - by apply absent_where.
  - by apply absent_where.
  - unfold cleanup_orphan_tasks. destruct active_catalogs; [|done]. by rewrite update_all_lookup, Hn.
  - unfold requeue_dead_letter_task. destruct (update_where id0 _ _ tbl) as [[] tbl'] eqn:E; [|done]. simpl.
    replace tbl' with (true, tbl').2 by done. rewrite <-E. by apply absent_where.
  - unfold requeue_dead_letter_tasks_by_type. simpl. by rewrite update_all_lookup, Hn.
  - apply map_lookup_filter_None. by left.
  - apply map_lookup_filter_None. by left.
  - by apply absent_where.
  - unfold bulk_dlq. by rewrite update_all_lookup, Hn.
  - unfold dismiss_job. destruct seen as [[]|]; try done.
    all: match goal with |- context [update_where ?i ?p ?f ?t] => destruct (update_where i p f t) as [m tbl'] eqn:E end;
      simpl; replace tbl' with (m, tbl').2 by done; rewrite <-E; by apply absent_where.
  - unfold sweep_unclaimable_rows. destruct types; [done|]. by rewrite update_all_lookup, Hn.
Qed.
(** The operation does not insert a row under [id]. *)
Definition other_id (id : Z) (o : op) : Prop :=
  match o with OCreate i _ _ _ _ _ _ | OEnqueue i _ _ _ _ _ => i <> id | _ => True end.

(** Ids stay fresh along a run. *)
Fixpoint fresh_run (ops : list (Z * op)) (tbl : table) : Prop :=
  match ops with
  | [] => True
  | (now, o) :: ops => op_fresh o tbl /\ fresh_run ops (exec now o tbl)
  end.

(** *** Rows are well formed *)

(** Which columns are set in which state. *)
Definition row_ok (r : row) : Prop :=
  0 <= retry_count r /\ 0 <= progress r <= 100 /\
  match status r with
  | PENDING => owner_id r = None
  | ACTIVE => is_Some (owner_id r) /\ is_Some (locked_until r) /\ is_Some (last_heartbeat_at r)
  | COMPLETED => owner_id r = None /\ locked_until r = None /\ is_Some (finished_at r) /\ progress r = 100
  | FAILED => owner_id r = None /\ locked_until r = None /\ is_Some (finished_at r)
  | DEAD_LETTER => locked_until r = None /\ is_Some (finished_at r)
  | CREATED | RUNNING | DISMISSED => True
  end.

(** The ways [create_task] is called: a row is born CREATED, PENDING or RUNNING, or
    born claimed with an owner and a lease. *)
Definition op_ok (o : op) : Prop :=
  match o with
  | OCreate _ _ _ st owner lease _ =>
      match st with
      | CREATED | RUNNING => True
      | PENDING => owner = None
      | ACTIVE => is_Some owner /\ is_Some lease
      | _ => False
      end
  | _ => True
  end.

Ltac inv_step H := inversion H; subst; clear H.

Lemma coalesce_is_Some {A} (x : option A) y : is_Some (coalesce x (Some y)).
Proof. destruct x; simpl; eauto. Qed.

Lemma row_step_ok now id r o r' : row_ok r -> row_step now id r o (Some r') -> row_ok r'.
Proof.
  intros (Hc & Hp & Hs) Hstep. unfold row_ok.
  inv_step Hstep; unfold reap_row, retry_row, fail_row; simpl;
    repeat match goal with H : status r = _ |- _ => progress rewrite ?H in * end; simpl in *;
    repeat (case_match; simpl in *; try done); split_and!; first [lia|done|naive_solver].
Qed.

Lemma exec_row_ok now o (tbl : table) :
  op_fresh o tbl -> op_ok o -> map_Forall (fun _ => row_ok) tbl -> map_Forall (fun _ => row_ok) (exec now o tbl).
Proof.
  intros Hf Ho Hall id r' Hr'. destruct (tbl !! id) as [r|] eqn:Hr.
  - destruct (exec_row now o tbl id r Hr Hf) as [Hsame|Hstep].
    + rewrite Hsame in Hr'. simplify_eq. by eapply Hall.
    + rewrite Hr' in Hstep. eapply row_step_ok; [|exact Hstep]. by eapply Hall.
  - apply exec_new in Hr' as (H0 & _ & [(td & sc & key & mode & scp & -> & _ & Hs & How & _ & _ & Hp & _)|
      (td & sc & st & owner & lease & cid & -> & _ & Hs & How & Hl & _ & _ & Hp & Hh)]); [| |done].
    + unfold row_ok. rewrite Hs, H0, Hp, How. split_and!; (lia || done).
    + unfold row_ok. rewrite Hs, H0, Hp, How, Hl, Hh. simpl in Ho.
      destruct st; simpl; split_and!; try (lia || done || naive_solver).
Qed.

(** A row carries the columns its status calls for in every state the operations of [op]
    reach from an empty table ([update_task], which writes a status without them, is not
    one of them): a PENDING row has no owner, an ACTIVE row an owner,
    a lease and a heartbeat, a finished row no lease and a finish time, and a
    COMPLETED row full progress and no owner; retry counts are never negative and
    progress stays a percentage. *)
Theorem rows_well_formed ops :
  fresh_run ops ∅ -> Forall (fun e => op_ok e.2) ops -> map_Forall (fun _ => row_ok) (run ops ∅).
Proof.
  assert (H : forall tbl, map_Forall (fun _ => row_ok) tbl -> fresh_run ops tbl -> Forall (fun e => op_ok e.2) ops ->
              map_Forall (fun _ => row_ok) (run ops tbl)); [|by apply H, map_Forall_empty].
  induction ops as [|[now o] ops IH]; intros tbl Hall Hf Ho; [done|]. simpl in *.
  destruct Hf as [Hf Hfs]. apply Forall_cons in Ho as [Ho Hos]. apply IH; [by apply exec_row_ok|done|done].
Qed.

(** *** A live lease is exclusive *)

(** An operation of anyone but the holder: claims, reapers and heartbeats of any
    process, and terminal writes, which carry their own owner.  [cat] is the
    catalog of the row. *)
Definition foreign (owner cat : string) (id : Z) (o : op) : Prop :=
  match o with
  | OClaimForExecution i _ o' _ => i = id -> o' <> owner
  | OClaimForDispatch i o' _ prefix prior =>
      i = id -> o' <> owner /\ prior <> Some owner /\
                match prefix with Some p => sql_like (p +:+ "%") owner = false | None => True end
  | OComplete i _ _ ow _ | OFail i _ _ _ ow _ | ODeadLetter i _ _ ow _ =>
      i = id -> exists o', ow = Some o' /\ o' <> owner
  | OResetToPending i _ | ODismiss i _ _ => i <> id
  | OCleanupOrphans _ (Some cats) => cat ∈ cats
  | _ => True
  end.

(** A heartbeat at [now] does not set the lease back before [lease]. *)
Definition keeps_lease (lease now : Z) (o : op) : Prop :=
  match o with OHeartbeat _ vt | OHeartbeatOne _ vt _ => lease <= now + vt | _ => True end.

(** The row as its holder left it; others may have stored outputs or a runner
    handle, or renewed the lease. *)
Definition held (owner : string) (lease : Z) (r0 r : row) : Prop :=
  spec r = spec r0 /\ status r = ACTIVE /\ owner_id r = Some owner /\
  (exists t, locked_until r = Some t /\ lease <= t) /\
  retry_count r = retry_count r0 /\ started_at r = started_at r0 /\ error_message r = error_message r0.

Lemma guards_other owner o' created r :
  owner_id r = Some owner -> o' <> owner -> guards (Some o') created r = false.
Proof. intros Hr Hne. unfold guards. simpl. rewrite Hr. simpl. by destruct (String.eqb_spec owner o') as [->|]. Qed.

Lemma held_step owner lease r0 now o id r r' :
  held owner lease r0 r -> now < lease -> foreign owner (catalog_id (spec r0)) id o -> keeps_lease lease now o ->
  row_step now id r o r' -> exists r1, r' = Some r1 /\ held owner lease r0 r1.
Proof.
  intros (Hsp & Hst & How & (t & Ht & Hle) & Hrc & Hsa & Her) Hnow Hf Hk Hstep.
  assert (Hno : forall a s, ready lookback now a s r = false).
  { intros a s. unfold ready. by rewrite Hst. }
  inv_step Hstep; simpl in *;
    try (match goal with H : ready _ _ _ _ _ = true |- _ => by rewrite Hno in H end);
    try (match goal with H : eligible _ _ _ _ _ _ = true |- _ => unfold eligible in H; by rewrite Hno in H end);
    try (match goal with H : status r = _ |- _ => congruence end);
    try (match goal with H : guards _ _ _ = true |- _ =>
           destruct (Hf eq_refl) as (o' & -> & Hne); by rewrite (guards_other owner o' _ r How Hne) in H end);
    try (match goal with H : requeueable _ = true |- _ => apply in_statuses_spec in H; rewrite Hst in H; set_solver end);
    try (eexists; split; [reflexivity|]; unfold held; simpl; split_and!; eauto; fail).
  - exfalso. match goal with H : status r = ACTIVE -> _ |- _ => rename H into Hex end.
    assert (sql_eq (owner_id r) owner0 = false) as Hne.
    { rewrite How. simpl. apply String.eqb_neq. intros <-. by apply Hf. }
    specialize (Hex Hst Hne t Ht). lia.
  - exfalso. destruct (Hf eq_refl) as (Hne & Hpr & Hpx). rewrite How in *.
    match goal with H : _ \/ _ |- _ => destruct H as [?|[?|[(p & -> & ?)|(p & o' & -> & ? & ?)]]] end; simplify_eq; congruence.
  - exfalso. match goal with H : stuck _ _ = true |- _ => unfold stuck in H; bool_hyps end.
    rewrite Ht in *. cbn [sql_lt] in *. bool_hyps. unfold DRAIN_RECLAIM_GRACE_SECONDS in *.
    destruct (str_mem _ _); lia.
  - exfalso. match goal with H : _ \/ _ |- _ => destruct H; congruence end.
Qed.

Lemma held_run owner lease r0 ops (tbl : table) id r :
  tbl !! id = Some r -> held owner lease r0 r -> fresh_run ops tbl ->
  Forall (fun e => e.1 < lease /\ foreign owner (catalog_id (spec r0)) id e.2 /\ keeps_lease lease e.1 e.2) ops ->
  exists r', run ops tbl !! id = Some r' /\ held owner lease r0 r'.
Proof.
  revert tbl r. induction ops as [|[now o] ops IH]; intros tbl r Hr Hh Hf Hall; [eauto|].
  destruct Hf as [Hf Hfs]. apply Forall_cons in Hall as [(Hn & Hfo & Hk) Hall]. simpl in *.
  destruct (exec_row now o tbl id r Hr Hf) as [Hsame|Hstep]; [by eapply IH|].
  destruct (held_step owner lease r0 now o id r _ Hh Hn Hfo Hk Hstep) as (r1 & Hr1 & Hh1). by eapply IH.
Qed.


(** *** A completed task is final *)

(** Not an unguarded terminal write, nor a dismissal, of this task; and no id is
    given out twice. *)
Definition no_override (id : Z) (o : op) : Prop :=
  match o with
  | OCreate i _ _ _ _ _ _ | OEnqueue i _ _ _ _ _ => i <> id
  | OComplete i _ _ None _ | OFail i _ _ _ None _ | ODeadLetter i _ _ None _ => i <> id
  | ODismiss i _ _ | OPersistOutputs i _ => i <> id
  | _ => True
  end.

Lemma completed_step now id r o r' :
  row_ok r -> status r = COMPLETED -> no_override id o -> row_step now id r o r' ->
  r' = None \/ exists r1, r' = Some r1 /\ row_ok r1 /\ status r1 = COMPLETED /\ outputs r1 = outputs r
                                /\ finished_at r1 = finished_at r /\ retry_count r1 = retry_count r.
Proof.
  intros Hok Hs Hno Hstep. destruct r' as [r'|]; [right|by left].
  pose proof (row_step_ok _ _ _ _ _ Hok Hstep) as Hok'.
  destruct Hok as (_ & _ & Hcols). rewrite Hs in Hcols. destruct Hcols as (How & _ & _).
  assert (Hno' : forall a s, ready lookback now a s r = false) by (intros a s; unfold ready; by rewrite Hs).
  assert (Hg : forall o' c, guards (Some o') c r = false) by (intros o' c; unfold guards; simpl; by rewrite How).
  inv_step Hstep; simpl in *;
    try (match goal with H : ready _ _ _ _ _ = true |- _ => by rewrite Hno' in H end);
    try (match goal with H : eligible _ _ _ _ _ _ = true |- _ => unfold eligible in H; by rewrite Hno' in H end);
    try (match goal with H : status r = _ |- _ => congruence end);
    try (match goal with H : guards ?o' _ _ = true |- _ => destruct o'; [by rewrite Hg in H|done] end);
    try (match goal with H : requeueable _ = true |- _ => apply in_statuses_spec in H; rewrite Hs in H; set_solver end);
    try (match goal with H : stuck _ _ = true |- _ => unfold stuck, in_statuses in H; by rewrite Hs in H end);
    try (match goal with H : in_statuses _ _ = false |- _ => unfold in_statuses in H; by rewrite Hs in H end);
    try (match goal with H : _ \/ _ |- _ => destruct H; congruence end);
    try done; eexists; by split_and!.
Qed.
Lemma deleted_stays id ops (tbl : table) :
  Forall (fun e => no_override id e.2) ops -> tbl !! id = None -> run ops tbl !! id = None.
Proof.
  revert tbl. induction ops as [|[now o] ops IH]; intros tbl Hno Hn; [done|].
  apply Forall_cons in Hno as [Hno Hnos]. simpl in *. apply IH; [done|].
  destruct (exec now o tbl !! id) as [r|] eqn:E; [|done]. exfalso.
  apply exec_new in E as (_ & _ & [(? & ? & ? & ? & ? & -> & _)|(? & ? & ? & ? & ? & ? & -> & _)]); done.
Qed.


(** *** Attempts are bounded *)

(** The row is PENDING before the operation and ACTIVE after it: an attempt begins. *)
Definition claimed_by (now : Z) (o : op) (id : Z) (tbl : table) : nat :=
  match tbl !! id, exec now o tbl !! id with
  | Some r, Some r' => if bool_decide (status r = PENDING) && bool_decide (status r' = ACTIVE) then 1 else 0
  | _, _ => 0
  end.

Fixpoint attempts (id : Z) (ops : list (Z * op)) (tbl : table) : nat :=
  match ops with
  | [] => 0
  | (now, o) :: ops => claimed_by now o id tbl + attempts id ops (exec now o tbl)
  end.

(** No operator requeue of the task, and no release of a claim without a failure. *)
Definition no_requeue (id : Z) (ty : string) (o : op) : Prop :=
  match o with
  | ORequeue i _ _ _ | OResetToPending i _ => i <> id
  | ORequeueByType _ ty' _ _ _ _ => ty' <> ty
  | _ => True
  end.

(** Attempts left: one if the row waits, and one for each failure it may still
    report. *)
Definition budget (r : row) : Z :=
  (if bool_decide (status r = PENDING) then 1 else 0) + Z.max 0 (limit cap r - 1 - retry_count r).

Lemma budget_step now id r o r' :
  no_requeue id (task_type (spec r)) o -> row_step now id r o (Some r') ->
  spec r' = spec r /\
  (if bool_decide (status r = PENDING) && bool_decide (status r' = ACTIVE) then 1 else 0) + budget r' <= budget r.
Proof.
  intros Hno Hstep. unfold budget, limit.
  inv_step Hstep; unfold reap_row, retry_row, fail_row, limit; simpl in *;
    repeat match goal with H : status r = _ |- _ => progress rewrite ?H in * end; simpl;
    try (split; [done|]; repeat case_match; bool_hyps; repeat case_bool_decide; simpl; (lia || congruence)); try done.
  - destruct retry; simpl; (split; [done|]); repeat case_match; bool_hyps; repeat case_bool_decide; simpl; (lia || congruence).
  - destruct st; simpl; (split; [done|]); repeat case_bool_decide; simpl; lia.
Qed.

Lemma budget_nonneg r : 0 <= budget r.
Proof. unfold budget. case_bool_decide; lia. Qed.

(** Nothing starts an attempt on a row that is not there; deleted ids do not return. *)
Lemma attempts_deleted id ops (tbl : table) :
  Forall (fun e => other_id id e.2) ops ->
  tbl !! id = None -> attempts id ops tbl = 0%nat.
Proof.
  revert tbl. induction ops as [|[now o] ops IH]; intros tbl Hne Hn; [done|]. apply Forall_cons in Hne as [Hne Hnes].
  simpl in *. unfold claimed_by. rewrite Hn. simpl. apply IH; [done|].
  destruct (exec now o tbl !! id) as [r|] eqn:E; [|done]. exfalso.
  apply exec_new in E as (_ & _ & [(? & ? & ? & ? & ? & -> & _)|(? & ? & ? & ? & ? & ? & -> & _)]); done.
Qed.

Lemma attempts_budget id ops (tbl : table) r :
  tbl !! id = Some r -> fresh_run ops tbl ->
  Forall (fun e => no_requeue id (task_type (spec r)) e.2 /\
                   other_id id e.2) ops ->
  Z.of_nat (attempts id ops tbl) <= budget r.
Proof.
  revert tbl r. induction ops as [|[now o] ops IH]; intros tbl r Hr Hf Hall; [apply budget_nonneg|].
  destruct Hf as [Hf Hfs]. apply Forall_cons in Hall as [[Hno Hne] Hall]. cbn [attempts]. simpl in Hno.
  unfold claimed_by. rewrite Hr. destruct (exec_row now o tbl id r Hr Hf) as [Hsame|Hstep].
  - rewrite Hsame. specialize (IH _ r Hsame Hfs Hall). repeat case_bool_decide; simpl; (lia || congruence).
  - destruct (exec now o tbl !! id) as [r'|] eqn:Hr'.
    + destruct (budget_step now id r o r' Hno Hstep) as [Hsp Hb]. rewrite <-Hsp in Hall. specialize (IH _ r' Hr' Hfs Hall).
      destruct (_ && _); lia.
    + rewrite attempts_deleted; [|by eapply Forall_impl; [exact Hall|]; intros ? [_ ?]|done]. pose proof (budget_nonneg r). lia.
Qed.

(** C13 (termination).  A task is started a bounded number of times, however the fleet
    behaves: from the moment its row is there, over any run in which nobody requeues
    it or gives its claim back unfailed, the row turns from PENDING to ACTIVE at most
    once, plus once for each failure report it may still take before
    [LEAST(max_retries, hard_retry_cap)].  A fresh row is started at most
    [max 1 (LEAST(max_retries, hard_retry_cap))] times. *)
Theorem attempts_bounded id ops (tbl : table) r :
  tbl !! id = Some r -> fresh_run ops tbl ->
  Forall (fun e => no_requeue id (task_type (spec r)) e.2 /\
                   other_id id e.2) ops ->
  Z.of_nat (attempts id ops tbl) <= 1 + Z.max 0 (limit cap r - 1 - retry_count r) /\
  (retry_count r = 0 -> Z.of_nat (attempts id ops tbl) <= Z.max 1 (limit cap r)).
Proof.
  intros Hr Hf Hall. pose proof (attempts_budget id ops tbl r Hr Hf Hall) as Hb. unfold budget in Hb.
  case_bool_decide; lia.
Qed.
(** *** At most one live task per deduplication key *)

Lemma row_step_spec now id r o r' : row_step now id r o (Some r') -> spec r' = spec r.
Proof.
  intros Hstep. inv_step Hstep; try done; [by destruct retry|by destruct st].
Qed.

(** A dead-lettered row that kept its owner has no attempt left. *)
Definition spent (r : row) : Prop := status r = DEAD_LETTER -> owner_id r <> None -> limit cap r <= retry_count r.

(** The operation brings no finished task back to life: no requeue, no unguarded
    retry, no dismissal of a task that has finished meanwhile, and no sweep of
    orphans, which leaves rows dead but owned. *)
Definition no_revive (tbl : table) (o : op) : Prop :=
  match o with
  | ORequeue _ _ _ _ | ORequeueByType _ _ _ _ _ _ | OCleanupOrphans _ (Some _) | OFail _ _ _ true None _ => False
  | ODismiss id _ _ => forall r, tbl !! id = Some r -> dedup_live r = true
  | _ => True
  end.

Lemma not_live r : dedup_live r = false <-> status r = COMPLETED \/ status r = FAILED \/ status r = DEAD_LETTER.
Proof.
  unfold dedup_live. rewrite negb_false_iff, in_statuses_spec, !elem_of_cons, elem_of_nil. tauto.
Qed.

Lemma spent_step now id r o r' tbl :
  tbl !! id = Some r -> no_revive tbl o -> row_ok r -> spent r -> row_step now id r o (Some r') ->
  spent r' /\ (dedup_live r = false -> dedup_live r' = false).
Proof.
  intros Hr Hno Hok Hsp Hstep. unfold spent in *. rewrite !not_live.
  assert (Hdead : forall o' c, guards o' c r = true -> status r = COMPLETED \/ status r = FAILED -> o' = None).
  { intros [o'|] c Hg Hs; [|done]. destruct Hok as (_ & _ & Hc). unfold guards in Hg. simpl in Hg. exfalso.
    destruct Hs as [Hs|Hs]; rewrite Hs in Hc; destruct Hc as (Ho & _); by rewrite Ho in Hg. }
  inv_step Hstep; simpl in *; try done;
    unfold eligible, ready, stuck, in_statuses, dedup_live, limit in *; simpl in *;
    repeat match goal with H : status r = _ |- _ => progress rewrite ?H in * end; simpl;
    bool_hyps; bool_decide_hyps; try (split; [intros; congruence|intuition congruence]; fail).
  - split; [done|]. intros Hs. rewrite !elem_of_cons, elem_of_nil in H0. intuition congruence.
  - split; [done|]. intros Hs. rewrite !elem_of_cons, elem_of_nil in H. intuition congruence.
  - destruct retry; simpl; [|by split; [|auto]]. destruct owner as [ow|]; [|done]. unfold limit.
    destruct (Z.ltb_spec (retry_count r + 1) (Z.min (max_retries (spec r)) cap)) as [Hlt|Hge]; (split; [done || lia|]);
      intros Hs; [exfalso|tauto].
    destruct Hs as [Hs|[Hs|Hs]]; [by discriminate (Hdead _ _ H1 (or_introl Hs))|by discriminate (Hdead _ _ H1 (or_intror Hs))|].
    unfold guards in H1. bool_hyps. simpl in *. specialize (Hsp Hs). destruct (owner_id r); [|done]. specialize (Hsp ltac:(done)). lia.
  - split; [done|]. intros Hs%not_live. unfold dedup_live in Hs. by rewrite (Hno r Hr) in Hs.
Qed.

Definition dedup_unique (tbl : table) : Prop :=
  forall i j ri rj k, tbl !! i = Some ri -> tbl !! j = Some rj ->
    dedup_match (catalog_id (spec rj)) k ri = true -> dedup_match (catalog_id (spec rj)) k rj = true -> i = j.

Lemma dedup_hit_false cat k (tbl : table) i r :
  dedup_hit cat (Some k) tbl = false -> tbl !! i = Some r -> dedup_match cat k r = false.
Proof.
  intros Hh Hr. destruct (dedup_match cat k r) eqn:E; [|done]. exfalso.
  unfold dedup_hit, table_exists in Hh. apply not_true_iff_false in Hh. apply Hh, existsb_exists.
  exists (i, r). split; [|done]. by apply list_elem_of_In, elem_of_map_to_list.
Qed.

Lemma dedup_match_spec r r' cat k : spec r' = spec r -> dedup_match cat k r' = true -> dedup_live r = true -> dedup_match cat k r = true.
Proof. unfold dedup_match. intros -> H ->. by apply andb_true_iff in H as [-> _]. Qed.

Definition inserts (o : op) : option Z :=
  match o with OCreate i _ _ _ _ _ _ | OEnqueue i _ _ _ _ _ => Some i | _ => None end.

Lemma sql_eq_true x v : sql_eq x v = true -> x = Some v.
Proof. destruct x; simpl; [|done]. intros H. by apply String.eqb_eq in H as ->. Qed.

(** A live row with a key was a live row with that key, or is new and its key was free. *)
Lemma exec_match_back now o (tbl : table) i r' cat k :
  op_fresh o tbl -> no_revive tbl o -> map_Forall (fun _ r => row_ok r /\ spent r) tbl ->
  exec now o tbl !! i = Some r' -> dedup_match cat k r' = true ->
  match tbl !! i with
  | Some r => spec r = spec r' /\ dedup_match cat k r = true
  | None => dedup_hit cat (Some k) tbl = false /\ inserts o = Some i /\ dedup_of o = Some (cat, Some k)
  end.
Proof.
  intros Hf Hno Hall Hr' Hm. destruct (tbl !! i) as [r|] eqn:Hr.
  - destruct (exec_row now o tbl i r Hr Hf) as [Hsame|Hstep]; [rewrite Hr' in Hsame; by simplify_eq|].
    rewrite Hr' in Hstep. pose proof (row_step_spec _ _ _ _ _ Hstep) as Hsp. split; [done|].
    destruct (Hall _ _ Hr) as [Hok Hs]. destruct (spent_step _ _ _ _ _ _ Hr Hno Hok Hs Hstep) as [_ Hlive].
    eapply dedup_match_spec; [exact Hsp|exact Hm|]. destruct (dedup_live r) eqn:E; [done|].
    unfold dedup_match in Hm. by rewrite Hlive, andb_false_r in Hm.
  - unfold dedup_match in Hm. bool_hyps. match goal with H : sql_eq _ _ = true |- _ => apply sql_eq_true in H end.
    apply exec_new in Hr' as (_ & _ & [(td & sc & key & mode & scp & -> & Hh & _ & _ & Hk & Hc & _)|
      (td & sc & st & owner & lease & cid & -> & Hh & _ & _ & _ & Hk & Hc & _)]); [| |done];
      (split_and!; [congruence|done|simpl; congruence]).
Qed.

Lemma exec_dedup now o (tbl : table) :
  op_fresh o tbl -> no_revive tbl o -> map_Forall (fun _ r => row_ok r /\ spent r) tbl ->
  dedup_unique tbl -> dedup_unique (exec now o tbl).
Proof.
  intros Hf Hno Hall Hu. pose proof (fun i r' cat k => exec_match_back now o tbl i r' cat k Hf Hno Hall) as Hback.
  intros i j ri rj k Hi Hj Mi Mj. pose proof (Hback _ _ _ _ Hi Mi) as Bi. pose proof (Hback _ _ _ _ Hj Mj) as Bj.
  destruct (tbl !! i) as [r1|] eqn:E1, (tbl !! j) as [r2|] eqn:E2.
  - destruct Bi as [S1 M1], Bj as [S2 M2]. rewrite <-S2 in *. by eapply Hu.
  - destruct Bi as [_ M1], Bj as [Hh _]. by rewrite (dedup_hit_false _ _ _ _ _ Hh E1) in M1.
  - destruct Bj as [_ M2], Bi as [Hh _]. by rewrite (dedup_hit_false _ _ _ _ _ Hh E2) in M2.
  - destruct Bi as (_ & Oi & _), Bj as (_ & Oj & _). congruence.
Qed.

Lemma exec_rows_fine now o (tbl : table) :
  op_fresh o tbl -> op_ok o -> no_revive tbl o -> map_Forall (fun _ r => row_ok r /\ spent r) tbl ->
  map_Forall (fun _ r => row_ok r /\ spent r) (exec now o tbl).
Proof.
  intros Hf Hok Hno Hall id r' Hr'.
  split; [exact (exec_row_ok now o tbl Hf Hok (fun i r Hr => proj1 (Hall i r Hr)) id r' Hr')|].
  destruct (tbl !! id) as [r|] eqn:Hr.
  - destruct (Hall _ _ Hr) as [Hro Hs]. destruct (exec_row now o tbl id r Hr Hf) as [Hsame|Hstep].
    + rewrite Hr' in Hsame. by simplify_eq.
    + rewrite Hr' in Hstep. by eapply spent_step.
  - apply exec_new in Hr' as (_ & _ & [(? & ? & ? & ? & ? & -> & _ & Hs & _)|(? & ? & st & ? & ? & ? & -> & _ & Hs & _)]);
      [| |done]; intros Hd; [congruence|]. rewrite Hs in Hd. by rewrite Hd in Hok.
Qed.

(** An insert after a check that still holds is the whole operation. *)
Lemma insert_checked_exec now o (tbl : table) cat key :
  dedup_of o = Some (cat, key) -> dedup_hit cat key tbl = false ->
  insert_checked default_title internal_key now o tbl = exec now o tbl.
Proof. destruct o; intros [= <- <-] Hh; simpl; unfold create_task, enqueue; by rewrite Hh. Qed.

(** A creation that has passed its check finds its key free, and no two of them are for
    the same key. *)
Definition pend_ok (tbl : table) (pend : gmap nat (Z * op)) : Prop :=
  forall p now o, pend !! p = Some (now, o) ->
    op_ok o /\ is_Some (dedup_of o) /\
    forall cat k, dedup_of o = Some (cat, Some k) ->
      dedup_hit cat (Some k) tbl = false /\
      forall p' now' o', pend !! p' = Some (now', o') -> dedup_of o' = Some (cat, Some k) -> p' = p.

Record dedup_state (w : table * gmap nat (Z * op)) : Prop := {
  ds_rows : map_Forall (fun _ r => row_ok r /\ spent r) w.1;
  ds_unique : dedup_unique w.1;
  ds_pend : pend_ok w.1 w.2;
}.

(** Another creation for the key is between its check and its insert. *)
Definition overlapping (o : op) (pend : gmap nat (Z * op)) : bool :=
  match dedup_of o with
  | Some (cat, Some k) => existsb (fun x => bool_decide (dedup_of x.2.2 = Some (cat, Some k))) (map_to_list pend)
  | _ => false
  end.

Lemma not_overlapping o pend cat k p' now' o' :
  overlapping o pend = false -> dedup_of o = Some (cat, Some k) -> pend !! p' = Some (now', o') -> dedup_of o' <> Some (cat, Some k).
Proof.
  unfold overlapping. intros Ho Hd Hp Heq. rewrite Hd in Ho. apply not_true_iff_false in Ho. apply Ho, existsb_exists.
  exists (p', (now', o')). split; [by apply list_elem_of_In, elem_of_map_to_list|by apply bool_decide_eq_true_2].
Qed.

(** What a history may do at one event: other operations revive nothing; a creation is
    checked by a session with none under way, as its callers create rows, while no other
    creation for its key is between its check and its insert; ids are fresh. *)
Definition event_ok (e : qevent) (w : table * gmap nat (Z * op)) : Prop :=
  match e with
  | QOp _ o => dedup_of o = None /\ no_revive w.1 o
  | QCheck p _ o =>
      w.2 !! p = None /\ op_ok o /\ overlapping o w.2 = false
  | QInsert p => match w.2 !! p with Some (_, o) => op_fresh o w.1 | None => True end
  end.
Fixpoint dedup_history (es : list qevent) (w : table * gmap nat (Z * op)) : Prop :=
  match es with
  | [] => True
  | e :: es => event_ok e w /\ dedup_history es (qstep cap lookback default_title internal_key e w)
  end.

Lemma dedup_hit_free cat k (tbl : table) :
  (forall i r, tbl !! i = Some r -> dedup_match cat k r = false) -> dedup_hit cat (Some k) tbl = false.
Proof.
  intros H. unfold dedup_hit, table_exists. apply not_true_iff_false. intros ([i r] & Hin & Hm)%existsb_exists.
  apply list_elem_of_In, elem_of_map_to_list in Hin. specialize (H _ _ Hin). simpl in Hm. congruence.
Qed.

(** A key that was free stays free, unless the operation creates a row for it. *)
Lemma exec_keeps_free now o (tbl : table) cat k :
  op_fresh o tbl -> no_revive tbl o -> map_Forall (fun _ r => row_ok r /\ spent r) tbl ->
  dedup_of o <> Some (cat, Some k) -> dedup_hit cat (Some k) tbl = false -> dedup_hit cat (Some k) (exec now o tbl) = false.
Proof.
  intros Hf Hno Hall Hne Hh. apply dedup_hit_free. intros i r' Hr'. destruct (dedup_match cat k r') eqn:Hm; [|done].
  pose proof (exec_match_back now o tbl i r' cat k Hf Hno Hall Hr' Hm) as Hb. destruct (tbl !! i) as [r|] eqn:Hr.
  - destruct Hb as [_ Hb]. by rewrite (dedup_hit_false _ _ _ _ _ Hh Hr) in Hb.
  - destruct Hb as (_ & _ & Hb). congruence.
Qed.

Lemma dedup_of_none o : dedup_of o = None -> (forall tbl, op_fresh o tbl) /\ op_ok o.
Proof. by destruct o. Qed.
Lemma dedup_of_some o cat key : dedup_of o = Some (cat, key) -> forall tbl, no_revive tbl o.
Proof. by destruct o. Qed.

Lemma qop_state now o tbl pend :
  dedup_state (tbl, pend) -> event_ok (QOp now o) (tbl, pend) -> dedup_state (exec now o tbl, pend).
Proof.
  intros [Hr Hu Hp] [Hd Hno]. destruct (dedup_of_none o Hd) as [Hf Hok]. simpl in *.
  split; simpl; [by apply exec_rows_fine|by apply exec_dedup|].
  intros p now' o' Ho. destruct (Hp _ _ _ Ho) as (H1 & H2 & H3). split_and!; [done|done|].
  intros cat k Hk. destruct (H3 _ _ Hk) as [Hh Huniq]. split; [|done]. apply exec_keeps_free; [done..| |done]. by rewrite Hd.
Qed.

Lemma qinsert_state now o p tbl pend :
  dedup_state (tbl, pend) -> pend !! p = Some (now, o) -> op_fresh o tbl ->
  dedup_state (insert_checked default_title internal_key now o tbl, delete p pend).
Proof.
  intros [Hr Hu Hp] Ho Hf. simpl in *. destruct (Hp _ _ _ Ho) as (Hok & [[cat key] Hd] & Hfree).
  assert (dedup_hit cat key tbl = false) as Hh by (destruct key as [k|]; [by apply Hfree|done]).
  rewrite (insert_checked_exec now o tbl cat key Hd Hh). pose proof (dedup_of_some _ _ _ Hd tbl) as Hno.
  split; simpl; [by apply exec_rows_fine|by apply exec_dedup|].
  intros p' now' o' [Hne Ho']%lookup_delete_Some. destruct (Hp _ _ _ Ho') as (H1 & H2 & H3). split_and!; [done|done|].
  intros cat' k Hk. destruct (H3 _ _ Hk) as [Hh' Huniq]. split.
  - apply exec_keeps_free; [done..| |done]. intros Hsame. destruct Hne. exact (Huniq p now o Ho Hsame).
  - intros p2 now2 o2 [_ Ho2]%lookup_delete_Some. by apply (Huniq p2 now2).
Qed.

Lemma qcheck_state now o p tbl pend :
  dedup_state (tbl, pend) -> event_ok (QCheck p now o) (tbl, pend) ->
  dedup_state (qstep cap lookback default_title internal_key (QCheck p now o) (tbl, pend)).
Proof.
  intros Hs (Hnone & Hok & Halone). simpl in *. destruct (dedup_of o) as [[cat key]|] eqn:Hd; [|done].
  destruct (dedup_hit cat key tbl) eqn:Hh; [done|]. destruct Hs as [Hr Hu Hp]. split; simpl in *; [done|done|].
  intros p1 now1 o1 [[<- [= <- <-]]|[Hne Ho1]]%lookup_insert_Some.
  - rewrite Hd. split_and!; [done|by eexists|]. intros cat' k [= <- ->]. split; [done|].
    intros p' now' o' [[<- _]|[_ Ho']]%lookup_insert_Some Hd'; [done|]. by destruct (not_overlapping _ _ _ _ _ _ _ Halone Hd Ho').
  - destruct (Hp _ _ _ Ho1) as (H1 & H2 & H3). split_and!; [done|done|]. intros cat' k Hk.
    destruct (H3 _ _ Hk) as [Hh' Huniq]. split; [done|].
    intros p' now' o' [[<- [= <- <-]]|[_ Ho']]%lookup_insert_Some Hd'; [|by eapply Huniq].
    by destruct (not_overlapping _ _ _ _ _ _ _ Halone Hd' Ho1).
Qed.

Lemma dedup_history_state es w :
  dedup_history es w -> dedup_state w -> dedup_state (qrun cap lookback default_title internal_key es w).
Proof.
  revert w. induction es as [|e es IH]; intros [tbl pend] Hh Hs; [done|]. destruct Hh as [He Hh]. apply (IH _ Hh).
  destruct e as [now o|p now o|p]; [by apply qop_state|by apply qcheck_state|].
  simpl in *. destruct (pend !! p) as [[now o]|] eqn:Ho; [|done]. by apply (qinsert_state now o p).
Qed.

(** C15 (invariant).  At most one live task carries a deduplication key of a catalog, in every
    state reached from an empty table by the checks and inserts of enqueues and creations of any
    number of sessions, by claims, heartbeats, guarded terminal writes, reaper passes and
    retention in between, as long as no two creations for the same key of a catalog overlap
    between check and insert (the database does not prevent that): a redelivered event does not
    duplicate work. *)
Theorem dedup_invariant es :
  dedup_history es (∅, ∅) -> dedup_unique (qrun cap lookback default_title internal_key es (∅, ∅)).1.
Proof.
  intros Hh. apply (ds_unique _ (dedup_history_state es (∅, ∅) Hh ltac:(by split; [|intros ????? Hi|intros ??? Ho]))).
Qed.

(** *** What a batch holds *)

#[global] Instance key_le_trans : Transitive key_le.
Proof. intros [i x] [j y] [k z]. unfold key_le. simpl. lia. Qed.

#[global] Instance key_le_total : Total key_le.
Proof. intros [i x] [j y]. unfold key_le. simpl. lia. Qed.

Lemma candidates_spec now a s (tbl : table) id r :
  (id, r) ∈ candidates cap lookback now a s tbl <->
  tbl !! id = Some r /\ eligible cap lookback now a s r = true /\
  forall j rj, tbl !! j = Some rj -> eligible cap lookback now a s rj = true ->
    catalog_id (spec rj) = catalog_id (spec r) -> key_le (id, r) (j, rj).
Proof.
  unfold candidates. rewrite !in_filter, forallb_elem, elem_of_map_to_list. simpl. split.
  - intros (Hall & He & Hr). split_and!; [done..|]. intros j rj Hj Hej Hc.
    specialize (Hall (j, rj) ltac:(by rewrite in_filter, elem_of_map_to_list)). simpl in Hall.
    rewrite Hc, String.eqb_refl in Hall. by apply bool_decide_eq_true in Hall.
  - intros (Hr & He & Hmin). split_and!; [|done..]. intros [j rj] [Hej Hj%elem_of_map_to_list]%in_filter. simpl in *.
    destruct (String.eqb_spec (catalog_id (spec r)) (catalog_id (spec rj))) as [Hc|]; [|done]. simpl.
    by apply bool_decide_eq_true, Hmin.
Qed.

(** Every tenant with an eligible task has a candidate, its oldest one. *)
Lemma tenant_head now a s (tbl : table) id r :
  tbl !! id = Some r -> eligible cap lookback now a s r = true ->
  exists h rh, (h, rh) ∈ candidates cap lookback now a s tbl /\ catalog_id (spec rh) = catalog_id (spec r) /\
               key_le (h, rh) (id, r).
Proof.
  intros Hr He.
  set (l := List.filter (fun kv => eligible cap lookback now a s kv.2 && (catalog_id (spec kv.2) ==s catalog_id (spec r)))
              (map_to_list tbl)).
  assert (Hin : forall j rj, (j, rj) ∈ merge_sort key_le l <->
            tbl !! j = Some rj /\ eligible cap lookback now a s rj = true /\ catalog_id (spec rj) = catalog_id (spec r)).
  { intros j rj. unfold l. rewrite (merge_sort_Permutation key_le), in_filter, elem_of_map_to_list, andb_true_iff, String.eqb_eq. simpl. tauto. }
  pose proof (StronglySorted_merge_sort key_le l) as Hs.
  destruct (merge_sort key_le l) as [|[h rh] rest]; [by specialize (proj2 (Hin id r) ltac:(done)) as ?%elem_of_nil|].
  apply StronglySorted_inv in Hs as [_ Hmin]. rewrite Forall_forall in Hmin.
  assert (Hle : forall j rj, (j, rj) ∈ (h, rh) :: rest -> key_le (h, rh) (j, rj)).
  { intros j rj [Heq|Hj]%elem_of_cons; [|by apply Hmin]. simplify_eq. right. simpl. lia. }
  destruct (proj1 (Hin h rh) ltac:(left)) as (Hh & Heh & Hch). exists h, rh. split_and!; [|done|by apply Hle, Hin].
  apply candidates_spec. split_and!; [done..|]. intros j rj Hj Hej Hcj. apply Hle, Hin. split_and!; [done..|congruence].
Qed.

(** One candidate a tenant. *)
Lemma candidates_distinct now a s (tbl : table) i ri j rj :
  (i, ri) ∈ candidates cap lookback now a s tbl -> (j, rj) ∈ candidates cap lookback now a s tbl ->
  catalog_id (spec ri) = catalog_id (spec rj) -> i = j /\ ri = rj.
Proof.
  intros (Hi & Hei & Hmi)%candidates_spec (Hj & Hej & Hmj)%candidates_spec Hc.
  specialize (Hmi j rj Hj Hej (eq_sym Hc)). specialize (Hmj i ri Hi Hei Hc). unfold key_le in *. simpl in *.
  assert (i = j) as <- by lia. split; [done|congruence].
Qed.

Lemma candidates_length now a s (tbl : table) (cats : list string) :
  (forall j rj, tbl !! j = Some rj -> catalog_id (spec rj) ∈ cats) ->
  (length (candidates cap lookback now a s tbl) <= length cats)%nat.
Proof.
  intros Hc. rewrite <-(length_map (fun kv => catalog_id (spec kv.2))).
  apply NoDup_incl_length.
  - apply NoDup_ListNoDup. apply NoDup_fmap_2_strong.
    + intros [i ri] [j rj] Hi Hj Heq. destruct (candidates_distinct _ _ _ _ _ _ _ _ Hi Hj Heq) as [-> ->]. done.
    + unfold candidates. apply NoDup_ListNoDup. do 2 apply List.NoDup_filter. apply NoDup_ListNoDup, NoDup_map_to_list.
  - intros c Hin%list_elem_of_In. apply list_elem_of_fmap in Hin as ([j rj] & -> & Hj). apply list_elem_of_In.
    apply candidates_spec in Hj as (Hj & _). by eapply Hc.
Qed.


Lemma take_sorted_le (l : list (Z * row)) n x y :
  StronglySorted key_le l -> x ∈ take n l -> y ∈ l -> y ∉ take n l -> key_le x y.
Proof.
  intros Hs Hx Hy Hny. rewrite <-(take_drop n l) in Hs, Hy. apply elem_of_app in Hy as [|Hy]; [done|].
  revert Hs Hx Hy. generalize (take n l) (drop n l). clear. intros a b. induction a as [|z a IH]; [by intros _ ?%elem_of_nil|].
  simpl. intros [Hs Hz]%StronglySorted_inv Hx Hy. apply elem_of_cons in Hx as [->|Hx]; [|by apply IH].
  rewrite Forall_forall in Hz. apply Hz, elem_of_app. by right.
Qed.

(** With no type to claim the batch is empty, so one description serves both
    branches. *)
Lemma claim_batch_eq now a s vt owner n locked (tbl : table) :
  let b := batch cap lookback now a s n locked tbl in
  (claim_batch cap lookback now a s vt owner n locked tbl).1 = map (fun kv => (kv.1, error_message kv.2)) b /\
  forall j, (claim_batch cap lookback now a s vt owner n locked tbl).2 !! j =
    (fun r => if bool_decide (j ∈ map fst b) then set_error None (claim_row now vt owner r) else r) <$> tbl !! j.
Proof.
  intros b. destruct (a ++ s) as [|t ts] eqn:E.
  - apply app_eq_nil in E as [-> ->]. assert (b = []) as ->; [|by split; [|intros j; simpl; destruct (tbl !! j)]].
    destruct b as [|[i ri] b'] eqn:Eb; [done|]. exfalso.
    assert (Hin : (i, ri) ∈ batch cap lookback now [] [] n locked tbl) by (fold b; rewrite Eb; left).
    apply batch_spec in Hin as (_ & He & _). unfold eligible, ready, mode_filter in He. simpl in He.
    rewrite !andb_false_r in He. done.
  - unfold claim_batch. fold b. destruct a, s; try done; simpl; (split; [done|]); intros j; apply update_all_lookup.
Qed.

Lemma batch_ids b (claimed : list (Z * option string)) :
  claimed = map (fun kv : Z * row => (kv.1, error_message kv.2)) b -> map fst claimed = map fst b.
Proof. intros ->. rewrite map_map. done. Qed.

Lemma batch_fst now a s n locked (tbl : table) id :
  id ∈ map fst (batch cap lookback now a s n locked tbl) ->
  exists r, (id, r) ∈ batch cap lookback now a s n locked tbl /\ tbl !! id = Some r /\ id ∉ locked /\
            (id, r) ∈ candidates cap lookback now a s tbl.
Proof.
  intros ([i r] & -> & Hin)%list_elem_of_fmap. simpl. exists r. pose proof (batch_spec _ _ _ _ _ _ _ _ Hin) as (? & _ & ?).
  split_and!; [done..|]. unfold batch in Hin. apply take_elem, merge_sort_elem, in_filter in Hin. tauto.
Qed.

(** The oldest eligible task of its tenant. *)
Definition oldest_of_tenant now a s (tbl : table) id r : Prop :=
  tbl !! id = Some r /\ eligible cap lookback now a s r = true /\
  forall j rj, tbl !! j = Some rj -> eligible cap lookback now a s rj = true ->
    catalog_id (spec rj) = catalog_id (spec r) -> key_le (id, r) (j, rj).

(** C16 (functional).  A claim is fair.  A batch holds at most [batch_size] tasks and at most one
    of each tenant, each the oldest eligible task of its tenant and locked by nobody
    else; it is filled with the oldest such tasks, and left short only when no
    further tenant has one.  The claimed rows become ACTIVE under the caller with a
    lease, their previous error goes to the [task.retried] event, and no other row
    changes. *)
Theorem claim_batch_fair now a s vt owner n locked (tbl : table) claimed tbl' :
  claim_batch cap lookback now a s vt owner n locked tbl = (claimed, tbl') ->
  (length claimed <= n)%nat /\
  (forall id e, (id, e) ∈ claimed ->
     exists r, oldest_of_tenant now a s tbl id r /\ error_message r = e /\ id ∉ locked /\
       tbl' !! id = Some (set_error None (claim_row now vt owner r))) /\
  (forall id j r rj, id ∈ map fst claimed -> j ∈ map fst claimed -> tbl !! id = Some r -> tbl !! j = Some rj ->
     catalog_id (spec rj) = catalog_id (spec r) -> j = id) /\
  (forall id, id ∉ map fst claimed -> tbl' !! id = tbl !! id) /\
  (forall j rj, oldest_of_tenant now a s tbl j rj -> j ∉ locked -> j ∉ map fst claimed ->
     length claimed = n /\ forall id r, id ∈ map fst claimed -> tbl !! id = Some r -> key_le (id, r) (j, rj)).
Proof.
  intros Hc. set (b := batch cap lookback now a s n locked tbl).
  destruct (claim_batch_eq now a s vt owner n locked tbl) as [Hcl Htbl]. rewrite Hc in *. fold b in Hcl, Htbl. simpl in *.
  pose proof (batch_ids b claimed Hcl) as Hids. rewrite Hids. split_and!.
  - rewrite Hcl, length_map. unfold b, batch. rewrite length_take. lia.
  - intros id e Hin. rewrite Hcl in Hin. apply list_elem_of_fmap in Hin as ([i r] & Heq & Hin). simplify_eq/=.
    destruct (batch_fst now a s n locked tbl i ltac:(apply list_elem_of_fmap; by exists (i, r))) as (r' & _ & Hr' & Hl & Hcand).
    pose proof (batch_spec _ _ _ _ _ _ _ _ Hin) as (Hr & He & _).
    assert (r' = r) as -> by congruence. exists r. split_and!; [by apply candidates_spec|done..|].
    rewrite Htbl, Hr, bool_decide_eq_true_2; [done|]. apply list_elem_of_fmap. by exists (i, r).
  - intros id j r rj (r' & _ & Hr' & _ & Hcand)%batch_fst (rj' & _ & Hj' & _ & Hcj)%batch_fst Hr Hj Heq. simplify_eq.
    by destruct (candidates_distinct _ _ _ _ _ _ _ _ Hcj Hcand Heq) as [-> _].
  - intros id Hn. rewrite Htbl, bool_decide_eq_false_2 by done. by destruct (tbl !! id).
  - intros j rj Hj%candidates_spec Hl Hn.
    set (free := merge_sort key_le (List.filter (fun kv => negb (bool_decide (kv.1 ∈ locked))) (candidates cap lookback now a s tbl))).
    assert (Hfree : (j, rj) ∈ free).
    { apply merge_sort_elem, in_filter. split; [|done]. simpl. by rewrite bool_decide_eq_false_2. }
    assert (Hnt : (j, rj) ∉ take n free) by (intros ?; apply Hn, list_elem_of_fmap; by exists (j, rj)). split.
    + rewrite Hcl, length_map. change b with (take n free). rewrite length_take. destruct (decide (n <= length free)%nat); [lia|].
      exfalso. apply Hnt. by rewrite take_ge by lia.
    + intros id r Hid Hr. apply batch_fst in Hid as (r' & Hin & Hr' & _). simplify_eq.
      eapply (take_sorted_le free n); [apply StronglySorted_merge_sort; apply _|done..].
Qed.

(** *** Every waiting task is started *)

(** Ids of the rows ahead of a row: older ones of its tenant. *)
Definition ahead (id : Z) (r : row) (tbl : table) : list Z :=
  map fst (List.filter (fun kv => (catalog_id (spec kv.2) ==s catalog_id (spec r)) && negb (bool_decide (key_le (id, r) kv)))
             (map_to_list tbl)).

(** The attempts they may still use up. *)
Definition backlog (ids : list Z) (tbl : table) : Z :=
  foldr (fun j acc => match tbl !! j with Some rj => budget rj | None => 0 end + acc) 0 ids.

(** A claim call that serves the row: it asks for the row's type, has room for
    every tenant of [cats], and finds nothing locked. *)
Definition serves (r : row) (cats : list string) (o : op) : bool :=
  match o with
  | OClaimBatch a s _ _ n [] => mode_filter a s r && (length cats <=? n)%nat
  | _ => false
  end.

(** What may happen meanwhile: anything but taking the waiting task [id] out of the
    queue, requeueing a task ahead of it or giving back its claim unfailed, and work
    for tenants outside [cats]. *)
Definition meanwhile (id : Z) (r : row) (older : list Z) (cats : list string) (now : Z) (o : op) : Prop :=
  match o with
  | OCreate i _ schema _ _ _ _ | OEnqueue i _ schema _ _ _ => i <> id /\ i ∉ older /\ timestamp (spec r) < now /\ schema ∈ cats
  | OComplete i _ _ None _ | OFail i _ _ _ None _ | ODeadLetter i _ _ None _ => i <> id
  | OResetToPending i _ | ORequeue i _ _ _ => i ∉ older
  | ORequeueByType _ _ _ _ _ _ => False
  | OCleanupOrphans _ (Some live) => catalog_id (spec r) ∈ live
  | ODlqUnclaimable i _ _ | ODismiss i _ _ => i <> id
  | OBulkDlq _ ty _ _ _ => ty <> task_type (spec r)
  | OSweepUnclaimable _ types _ => task_type (spec r) ∉ types
  | _ => True
  end.

(** The row still waits as it did. *)
Definition waiting (r0 r : row) : Prop :=
  spec r = spec r0 /\ status r = PENDING /\ owner_id r = None /\ locked_until r = locked_until r0 /\
  retry_count r = retry_count r0.

Lemma waiting_step now id r0 r o older cats r' :
  waiting r0 r -> meanwhile id r0 older cats now o -> row_step now id r o r' ->
  exists r1, r' = Some r1 /\ (waiting r0 r1 \/ status r1 = ACTIVE).
Proof.
  intros (Hsp & Hs & Ho & Hl & Hc) Hm Hstep.
  assert (Hg : forall o' c, guards (Some o') c r = false) by (intros o' c; unfold guards; simpl; by rewrite Ho).
  inv_step Hstep; simpl in *; try done; try (eexists; split; [done|]; by right);
    try (match goal with H : status r = _ |- _ => congruence end);
    try (match goal with H : guards ?o' _ _ = true |- _ => destruct o'; [by rewrite Hg in H|done] end);
    try (match goal with H : requeueable _ = true |- _ => unfold requeueable, in_statuses in H; by rewrite Hs in H end);
    try (match goal with H : stuck _ _ = true |- _ => unfold stuck, in_statuses in H; by rewrite Hs in H end);
    try (match goal with H : _ \/ _ |- _ => destruct H; congruence end);
    try (eexists; split; [done|]; left; unfold waiting; simpl; by split_and!; fail).
  - eexists; split; [done|]. left. unfold waiting. by split_and!.
  - eexists; split; [done|]. left. unfold waiting. by split_and!.
Qed.

Lemma ahead_spec id r (tbl : table) j :
  j ∈ ahead id r tbl <->
  exists rj, tbl !! j = Some rj /\ catalog_id (spec rj) = catalog_id (spec r) /\ ~ key_le (id, r) (j, rj).
Proof.
  unfold ahead. rewrite list_elem_of_fmap. split.
  - intros ([i ri] & -> & [Hp Hin%elem_of_map_to_list]%in_filter). simpl in *. bool_hyps. bool_decide_hyps. eauto.
  - intros (rj & Hj & Hc & Hk). exists (j, rj). split; [done|]. apply in_filter. rewrite elem_of_map_to_list. simpl.
    by rewrite Hc, String.eqb_refl, bool_decide_eq_false_2.
Qed.

(** Nothing of what may happen meanwhile enlarges the backlog. *)
Lemma budget_meanwhile now o id r older cats (tbl : table) j :
  op_fresh o tbl -> meanwhile id r older cats now o -> j ∈ older ->
  match exec now o tbl !! j with Some rj => budget rj | None => 0 end
  <= match tbl !! j with Some rj => budget rj | None => 0 end.
Proof.
  intros Hf Hm Hj. destruct (tbl !! j) as [rj|] eqn:Hr.
  - destruct (exec_row now o tbl j rj Hr Hf) as [->|Hstep]; [done|].
    destruct (exec now o tbl !! j) as [rj'|]; [|apply budget_nonneg].
    destruct (budget_step now j rj o rj') as [_ Hb]; [|exact Hstep|destruct (_ && _); lia].
    destruct o; simpl in *; try done; by intros ->.
  - destruct (exec now o tbl !! j) as [rj'|] eqn:Hr'; [|done]. exfalso.
    apply exec_new in Hr' as (_ & _ & [(? & ? & ? & ? & ? & -> & _)|(? & ? & ? & ? & ? & ? & -> & _)]); [| |done];
      simpl in Hm; tauto.
Qed.

Lemma backlog_mono ids (tbl tbl' : table) :
  (forall j, j ∈ ids -> match tbl' !! j with Some rj => budget rj | None => 0 end
                        <= match tbl !! j with Some rj => budget rj | None => 0 end) ->
  backlog ids tbl' <= backlog ids tbl.
Proof.
  induction ids as [|i ids IH]; intros Hle; [done|]. simpl. pose proof (Hle i ltac:(left)).
  specialize (IH ltac:(intros j Hj; apply Hle; by right)). lia.
Qed.

Lemma backlog_strict ids (tbl tbl' : table) h :
  (forall j, j ∈ ids -> match tbl' !! j with Some rj => budget rj | None => 0 end
                        <= match tbl !! j with Some rj => budget rj | None => 0 end) ->
  h ∈ ids -> match tbl' !! h with Some rj => budget rj | None => 0 end + 1
             <= match tbl !! h with Some rj => budget rj | None => 0 end ->
  backlog ids tbl' + 1 <= backlog ids tbl.
Proof.
  intros Hle Hh Hlt. induction ids as [|i ids IH]; [by apply elem_of_nil in Hh|]. simpl.
  pose proof (Hle i ltac:(left)) as Hi.
  apply elem_of_cons in Hh as [<-|Hh].
  - pose proof (backlog_mono ids tbl tbl' ltac:(intros j Hj; apply Hle; by right)). unfold backlog in *. lia.
  - specialize (IH ltac:(intros j Hj; apply Hle; by right) Hh). unfold backlog in *. lia.
Qed.

Lemma backlog_nonneg ids (tbl : table) : 0 <= backlog ids tbl.
Proof.
  induction ids as [|i ids IH]; simpl; [done|]. destruct (tbl !! i) as [ri|]; [|done]. pose proof (budget_nonneg ri). lia.
Qed.


(** The row may be claimed at [now]. *)
Definition due (r : row) (now : Z) : Prop :=
  now - lookback <= timestamp (spec r) /\ (forall t, locked_until r = Some t -> t <= now) /\ retry_count r < cap.

Lemma serves_step now o id r0 r (cats : list string) (older : list Z) (tbl : table) :
  tbl !! id = Some r -> waiting r0 r -> serves r0 cats o = true -> due r0 now ->
  (forall j rj, tbl !! j = Some rj -> catalog_id (spec rj) ∈ cats) ->
  (forall j rj, tbl !! j = Some rj -> catalog_id (spec rj) = catalog_id (spec r0) -> ~ key_le (id, r0) (j, rj) -> j ∈ older) ->
  (exists r1, exec now o tbl !! id = Some r1 /\ status r1 = ACTIVE) \/
  exists h, h ∈ older /\ match exec now o tbl !! h with Some rj => budget rj | None => 0 end + 1
                         <= match tbl !! h with Some rj => budget rj | None => 0 end.
Proof.
  intros Hr (Hsp & Hs & Ho & Hl & Hc) Hsv (Hlook & Hlock & Hcap) Hcats Holder.
  destruct o as [| | |a s vt owner n locked| | | | | | | | | | | | | | | | | | | | |]; try done. destruct locked; [|done].
  unfold serves in Hsv. apply andb_true_iff in Hsv as [Hmode Hn%Nat.leb_le].
  assert (He : eligible cap lookback now a s r = true).
  { unfold eligible, ready. rewrite Hs, Hl, Hc, Hsp. unfold mode_filter in *. rewrite Hsp, Hmode.
    rewrite bool_decide_eq_true_2, (proj2 (Z.leb_le _ _) Hlook), (proj2 (Z.ltb_lt _ _) Hcap) by done. simpl.
    destruct (locked_until r0) as [t|]; [|done]. by rewrite (proj2 (Z.leb_le t now) (Hlock t eq_refl)). }
  destruct (tenant_head now a s tbl id r Hr He) as (h & rh & Hh & Hch & Hle).
  destruct (claim_batch_eq now a s vt owner n [] tbl) as [_ Htbl].
  assert (Hin : h ∈ map fst (batch cap lookback now a s n [] tbl)).
  { apply list_elem_of_fmap. exists (h, rh). split; [done|]. unfold batch. rewrite take_ge.
    - apply merge_sort_elem, in_filter. by split.
    - rewrite merge_sort_Permutation. pose proof (candidates_length now a s tbl cats Hcats) as Hcl.
      etrans; [apply List.filter_length_le|]. lia. }
  pose proof (proj1 (candidates_spec _ _ _ _ _ _) Hh) as (Hrh & Heh & _).
  assert (Hafter : exec now (OClaimBatch a s vt owner n []) tbl !! h = Some (set_error None (claim_row now vt owner rh))).
  { simpl. rewrite Htbl, Hrh, bool_decide_eq_true_2 by done. done. }
  destruct (decide (h = id)) as [->|Hne]; [left; by eexists|]. right. exists h. split.
  - apply (Holder h rh Hrh); [congruence|]. unfold key_le in *. simpl in *. rewrite Hsp in *. lia.
  - rewrite Hafter, Hrh. unfold eligible, ready in Heh. bool_hyps. bool_decide_hyps. unfold budget. simpl.
    rewrite bool_decide_eq_true_2 by done. unfold limit. simpl. lia.
Qed.


Lemma exec_cats now o id r older (cats : list string) (tbl : table) :
  op_fresh o tbl -> meanwhile id r older cats now o ->
  (forall j rj, tbl !! j = Some rj -> catalog_id (spec rj) ∈ cats) ->
  forall j rj, exec now o tbl !! j = Some rj -> catalog_id (spec rj) ∈ cats.
Proof.
  intros Hf Hm Hc j rj' Hj'. destruct (tbl !! j) as [rj|] eqn:Hj.
  - destruct (exec_row now o tbl j rj Hj Hf) as [Hsame|Hstep]; [rewrite Hsame in Hj'; simplify_eq; by eapply Hc|].
    rewrite Hj' in Hstep. rewrite (row_step_spec _ _ _ _ _ Hstep). by eapply Hc.
  - apply exec_new in Hj' as (_ & _ & [(? & ? & ? & ? & ? & -> & _ & _ & _ & _ & -> & _)|(? & ? & ? & ? & ? & ? & -> & _ & _ & _ & _ & _ & -> & _)]);
      [| |done]; simpl in Hm; tauto.
Qed.

Lemma exec_older now o id r (older : list Z) cats (tbl : table) :
  op_fresh o tbl -> meanwhile id r older cats now o ->
  (forall j rj, tbl !! j = Some rj -> catalog_id (spec rj) = catalog_id (spec r) -> ~ key_le (id, r) (j, rj) -> j ∈ older) ->
  forall j rj, exec now o tbl !! j = Some rj -> catalog_id (spec rj) = catalog_id (spec r) ->
    ~ key_le (id, r) (j, rj) -> j ∈ older.
Proof.
  intros Hf Hm Ho j rj' Hj' Hc Hk. destruct (tbl !! j) as [rj|] eqn:Hj.
  - destruct (exec_row now o tbl j rj Hj Hf) as [Hsame|Hstep]; [rewrite Hsame in Hj'; simplify_eq; by eapply Ho|].
    rewrite Hj' in Hstep. pose proof (row_step_spec _ _ _ _ _ Hstep) as Hsp.
    apply (Ho j rj Hj); [congruence|]. unfold key_le in *. simpl in *. by rewrite <-Hsp.
  - apply exec_new in Hj' as (_ & Hts & [(? & ? & ? & ? & ? & -> & _)|(? & ? & ? & ? & ? & ? & -> & _)]); [| |done];
      simpl in Hm; exfalso; apply Hk; left; simpl; rewrite Hts; tauto.
Qed.

Definition served (r : row) (cats : list string) (ops : list (Z * op)) : nat :=
  length (List.filter (fun e => serves r cats e.2) ops).

Lemma starts_within id r0 (older : list Z) (cats : list string) ops : forall (tbl : table) r,
  tbl !! id = Some r -> waiting r0 r -> fresh_run ops tbl ->
  Forall (fun e => meanwhile id r0 older cats e.1 e.2 /\ (serves r0 cats e.2 = true -> due r0 e.1)) ops ->
  (forall j rj, tbl !! j = Some rj -> catalog_id (spec rj) ∈ cats) ->
  (forall j rj, tbl !! j = Some rj -> catalog_id (spec rj) = catalog_id (spec r0) -> ~ key_le (id, r0) (j, rj) -> j ∈ older) ->
  (1 <= attempts id ops tbl)%nat \/ Z.of_nat (served r0 cats ops) <= backlog older tbl.
Proof.
  induction ops as [|[now o] ops IH]; intros tbl r Hr Hw Hf Hall Hcats Holder; [right; apply backlog_nonneg|].
  destruct Hf as [Hf Hfs]. apply Forall_cons in Hall as [[Hm Hdue] Hall]. simpl in Hm, Hdue.
  assert (Hmono : forall j, j ∈ older -> match exec now o tbl !! j with Some rj => budget rj | None => 0 end
                        <= match tbl !! j with Some rj => budget rj | None => 0 end).
  { intros j Hj. by eapply budget_meanwhile. }
  assert (Hact : (exists r1, exec now o tbl !! id = Some r1 /\ status r1 = ACTIVE) -> (1 <= attempts id ((now, o) :: ops) tbl)%nat).
  { intros (r1 & Hr1 & Hs1). simpl. unfold claimed_by. rewrite Hr, Hr1. destruct Hw as (_ & Hs & _).
    rewrite !bool_decide_eq_true_2 by done. simpl. lia. }
  assert (Hnext : (exists r1, exec now o tbl !! id = Some r1 /\ status r1 = ACTIVE) \/
                  (exists r1, exec now o tbl !! id = Some r1 /\ waiting r0 r1)).
  { destruct (exec_row now o tbl id r Hr Hf) as [Hsame|Hstep]; [right; eauto|].
    destruct (waiting_step _ _ _ _ _ _ _ _ Hw Hm Hstep) as (r1 & Hr1 & [Hw1|Hs1]); eauto. }
  destruct Hnext as [Hnext|(r1 & Hr1 & Hw1)]; [left; by apply Hact|].
  destruct (IH _ r1 Hr1 Hw1 Hfs Hall) as [Hatt|Hserved];
    [by eapply exec_cats|by eapply exec_older|left; simpl; lia|].
  unfold served in *. simpl. destruct (serves r0 cats o) eqn:Esv.
  - destruct (serves_step now o id r0 r cats older tbl Hr Hw Esv (Hdue eq_refl) Hcats Holder) as [Hs|(h & Hh & Hlt)];
      [left; by apply Hact|]. right. pose proof (backlog_strict older tbl _ h Hmono Hh Hlt). simpl. lia.
  - right. pose proof (backlog_mono older tbl _ Hmono). lia.
Qed.

(** C12 (liveness).  No task starves.  A PENDING task is started after at most one serving
    claim call more than the attempts the older tasks of its own tenant may still use
    up, whatever the other tenants enqueue and however often tasks fail, are reaped
    and are retried in between. *)
Theorem waiting_task_starts id r (cats : list string) ops (tbl : table) :
  tbl !! id = Some r -> status r = PENDING -> owner_id r = None -> fresh_run ops tbl ->
  (forall j rj, tbl !! j = Some rj -> catalog_id (spec rj) ∈ cats) ->
  Forall (fun e => meanwhile id r (ahead id r tbl) cats e.1 e.2 /\ (serves r cats e.2 = true -> due r e.1)) ops ->
  backlog (ahead id r tbl) tbl < Z.of_nat (served r cats ops) ->
  (1 <= attempts id ops tbl)%nat.
Proof.
  intros Hr Hs Ho Hf Hc Hall Hlt.
  destruct (starts_within id r (ahead id r tbl) cats ops tbl r Hr) as [?|?]; [by split_and!|done..| |done|lia].
  intros j rj Hj Hcj Hk. apply ahead_spec. eauto.
Qed.
End steps.
