(* ===== verification/TaskQueueCases.v ===== *)
(** * The task queue on concrete runs

    Inputs at which the theorems of [TaskQueueProofs] apply, and the corner cases
    of the queue: runs on which an operation does more, or less, than its
    documentation says. *)

From S2P Require Import Prelude TaskQueue TaskQueueProofs.

Definition day : Z := 86400.

(** A task of type "t", the deployment's cap and lookback, one dispatcher call. *)
Definition td : task_create := mkCreate "t" "task" "CATALOG" "ASYNCHRONOUS" None [] None None None None.
Abbreviation run1 := (run 5 (30 * day) (VStr "Task") "_internal").
Abbreviation exec1 := (exec 5 (30 * day) (VStr "Task") "_internal").
Definition claim (owner : string) : op := OClaimBatch ["t"] [] 300 owner 10 [].
Definition put (id : Z) (cat : string) (key : option string) : op := OEnqueue id td cat key "ASYNCHRONOUS" "CATALOG".

(** Two tenants; the first task fails once and is retried. *)
Definition demo_ops : list (Z * op) :=
  [(0, put 1 "c1" (Some "k")); (1, put 2 "c1" None); (2, put 3 "c2" None); (3, claim "w1");
   (10, OFail 1 10 "boom" true (Some "w1") (Some 0)); (11, claim "w2"); (13, claim "w2"); (20, OReap []);
   (400, OReap []); (401, claim "w3"); (410, OComplete 1 410 (Some VNone) (Some "w3") (Some 0))].

Definition status_of (tbl : table) (id : Z) : option task_status := status <$> tbl !! id.

Example demo_run :
  map (status_of (run1 demo_ops ∅)) [1; 2; 3] = [Some COMPLETED; Some PENDING; Some ACTIVE].
Proof. vm_compute. reflexivity. Qed.

(** ** Witnesses *)

Lemma demo_rows_well_formed : map_Forall (fun _ => row_ok) (run1 demo_ops ∅).
Proof.
  apply rows_well_formed.
  - repeat (split; [vm_compute; reflexivity || exact I|]). exact I.
  - repeat constructor.
Qed.

(** The table after the first claim: worker w1 holds task 1 until 303. *)
Definition claimed_table : table := run1 (take 4 demo_ops) ∅.



(** Witness of C13: task 1 of the demo is started at most three times, and
    takes all three. *)
Lemma attempts_bounded_witness :
  attempts 5 (30 * day) (VStr "Task") "_internal" 1 (drop 1 demo_ops) (run1 (take 1 demo_ops) ∅) = 3%nat /\
  (attempts 5 (30 * day) (VStr "Task") "_internal" 1 (drop 1 demo_ops) (run1 (take 1 demo_ops) ∅) <= 3)%nat.
Proof.
  split; [vm_compute; reflexivity|].
  assert (exists r, run1 (take 1 demo_ops) ∅ !! 1 = Some r) as [r Hr] by (eexists; vm_compute; reflexivity).
  pose proof Hr as Hc. vm_compute in Hc. injection Hc as Hc.
  destruct (attempts_bounded 5 (30 * day) (VStr "Task") "_internal" 1 (drop 1 demo_ops) (run1 (take 1 demo_ops) ∅) r)
    as [_ H]; [exact Hr| | |].
  - repeat (split; [vm_compute; reflexivity || exact I|]). exact I.
  - repeat constructor; simpl; discriminate.
  - assert (limit 5 r = 3) as Hl by by rewrite <-Hc. rewrite Hl in H. specialize (H ltac:(by rewrite <-Hc)). lia.
Defined.

(** Two sessions create tasks for two keys at the same time, and an event delivered
    again while the first task is pending or failing finds it. *)
Abbreviation qrun1 := (qrun 5 (30 * day) (VStr "Task") "_internal").
Definition demo_events : list qevent :=
  [QCheck 0 0 (put 1 "c1" (Some "k")); QCheck 1 0 (put 2 "c1" (Some "l")); QInsert 1; QInsert 0;
   QCheck 2 1 (put 3 "c1" (Some "k")); QInsert 2; QOp 3 (claim "w1"); QOp 10 (OFail 1 10 "boom" true (Some "w1") (Some 0));
   QCheck 2 11 (put 3 "c1" (Some "k")); QInsert 2].

(** Witness of C15. *)
Lemma dedup_invariant_witness :
  map (status_of (qrun1 demo_events (∅, ∅)).1) [1; 2; 3] = [Some PENDING; Some PENDING; None] /\
  dedup_unique (qrun1 demo_events (∅, ∅)).1.
Proof.
  split; [vm_compute; reflexivity|]. apply dedup_invariant.
  repeat (split; [vm_compute; repeat split|]). exact I.
Defined.

Definition wait_ops : list (Z * op) :=
  [(10, claim "w1"); (11, claim "w1"); (12, claim "w2"); (400, OReap []); (401, claim "w2")].

(** Witness of C12: task 2 waits behind task 1 of its tenant, which may take three
    attempts; four serving calls start it. *)
Lemma waiting_task_starts_witness :
  (1 <= attempts 5 (30 * day) (VStr "Task") "_internal" 2 wait_ops (run1 (take 3 demo_ops) ∅))%nat.
Proof.
  assert (exists r, run1 (take 3 demo_ops) ∅ !! 2 = Some r) as [r Hr] by (eexists; vm_compute; reflexivity).
  pose proof Hr as Hc. vm_compute in Hc. injection Hc as Hc.
  apply (waiting_task_starts 5 (30 * day) (VStr "Task") "_internal" 2 r ["c1"; "c2"]).
  - exact Hr.
  - by rewrite <-Hc.
  - by rewrite <-Hc.
  - repeat split.
  - apply (map_Forall_to_list (fun _ rj => catalog_id (spec rj) ∈ ["c1"; "c2"])).
    assert (exists l, map_to_list (run1 (take 3 demo_ops) ∅) = l /\ Forall (uncurry (fun _ rj => catalog_id (spec rj) ∈ ["c1"; "c2"])) l)
      as (l & -> & Hl); [|exact Hl].
    eexists. split; [vm_compute; reflexivity|]. repeat constructor.
  - rewrite <-Hc. repeat constructor; simpl; try done; try lia; unfold due; simpl; intros; split_and!; (lia || done).
  - rewrite <-Hc. vm_compute. reflexivity.
Defined.

(** Witness of C16: room for one task only; the older tenant is served. *)
Lemma claim_batch_fair_witness :
  exists r, oldest_of_tenant 5 (30 * day) 3 ["t"] [] (run1 (take 3 demo_ops) ∅) 1 r /\
  map fst (claim_batch 5 (30 * day) 3 ["t"] [] 300 "w1" 1 [] (run1 (take 3 demo_ops) ∅)).1 = [1].
Proof.
  destruct (claim_batch 5 (30 * day) 3 ["t"] [] 300 "w1" 1 [] (run1 (take 3 demo_ops) ∅)) as [claimed tbl'] eqn:E.
  destruct (claim_batch_fair _ _ _ _ _ _ _ _ _ _ _ _ E) as (_ & Hin & _).
  assert (claimed = [(1, None)]) as -> by (vm_compute in E; congruence).
  destruct (Hin 1 None ltac:(left)) as (r & Hr & _). exists r. split; [exact Hr|reflexivity].
Defined.

(** ** Corner cases *)

(** A dismissed task still blocks its deduplication key. *)
Example dismissed_blocks_key :
  let tbl := run1 [(0, put 1 "c1" (Some "k")); (1, ODismiss 1 "c1" (Some PENDING))] ∅ in
  status_of tbl 1 = Some DISMISSED /\ (enqueue 2 2 td "c1" (Some "k") "ASYNCHRONOUS" "CATALOG" tbl).1 = None.
Proof. vm_compute. split; reflexivity. Qed.

(** Dismissal leaves the owner, so the worker's next write undoes it: the task
    completes, or goes back to the queue. *)
Example dismissal_undone :
  let tbl := run1 [(0, put 1 "c1" None); (1, claim "w1"); (2, ODismiss 1 "c1" (Some ACTIVE))] ∅ in
  status_of tbl 1 = Some DISMISSED /\
  status_of (exec1 3 (OComplete 1 3 None (Some "w1") (Some 0)) tbl) 1 = Some COMPLETED /\
  status_of (exec1 3 (OFail 1 3 "stopped" true (Some "w1") (Some 0)) tbl) 1 = Some PENDING.
Proof. vm_compute. repeat split. Qed.

(** A dismissal decided on a cached status overwrites a task that completed. *)
Example stale_dismissal :
  let tbl := run1 [(0, put 1 "c1" None); (1, claim "w1"); (2, OComplete 1 2 None (Some "w1") (Some 0))] ∅ in
  status_of tbl 1 = Some COMPLETED /\ status_of (exec1 3 (ODismiss 1 "c1" (Some ACTIVE)) tbl) 1 = Some DISMISSED.
Proof. vm_compute. split; reflexivity. Qed.

(** At the cap a waiting row is out of reach of the dispatchers and of the reaper:
    no pass of either ever changes it. *)
Lemma capped_row_stuck cap lookback now a s vt owner n locked (tbl : table) id r :
  tbl !! id = Some r -> status r = PENDING -> cap <= retry_count r ->
  (claim_batch cap lookback now a s vt owner n locked tbl).2 !! id = Some r /\
  (reap_stuck_tasks cap now locked tbl).2 !! id = Some r.
Proof.
  intros Hr Hs Hc. split.
  - destruct (claim_batch_row cap lookback now a s vt owner n locked tbl id r Hr) as [?|(He & _)]; [done|].
    unfold eligible in He. bool_hyps. lia.
  - simpl. rewrite update_all_lookup, Hr. simpl. unfold stuck, in_statuses. by rewrite Hs.
Qed.

(** [claim_next] does claim it. *)
Example claim_next_ignores_cap :
  let r := set_retry 7 (fresh_row (mkSpec "c1" "CATALOG" None "t" "task" "ASYNCHRONOUS" [] 0 None None 3) PENDING None None None) in
  (claim_next (30 * day) 10 ["t"] [] 300 "w1" [] {[1 := r]}).1 = Some 1 /\
  (claim_batch 5 (30 * day) 10 ["t"] [] 300 "w1" 10 [] {[1 := r]}).1 = [].
Proof. vm_compute. split; reflexivity. Qed.

(** The bulk requeue that keeps the retry counts creates such rows. *)
Example bulk_requeue_unclaimable :
  let r := set_retry 5 (fresh_row (mkSpec "c1" "CATALOG" None "t" "task" "ASYNCHRONOUS" [] 0 None None 9) DEAD_LETTER None None None) in
  let tbl := (requeue_dead_letter_tasks_by_type (fun _ => None) "t" None 1000 false [] {[1 := r]}).2 in
  status_of tbl 1 = Some PENDING /\ (claim_batch 5 (30 * day) 10 ["t"] [] 300 "w1" 10 [] tbl).1 = [] /\
  (requeue_dead_letter_task 5 1 false None None {[1 := r]}).1 = inl ().
Proof. vm_compute. repeat split. Qed.

(** [enqueue] neither checks nor stores the key of [task_data], and drops its retry
    budget. *)
Example enqueue_ignores_task_data :
  let td' := mkCreate "t" "task" "CATALOG" "ASYNCHRONOUS" None [] None None (Some "k") (Some 1) in
  let tbl := (enqueue 0 1 td' "c1" None "ASYNCHRONOUS" "CATALOG" ∅).2 in
  (enqueue 1 2 td' "c1" None "ASYNCHRONOUS" "CATALOG" tbl).1 = Some 2 /\
  (dedup_key ∘ spec <$> tbl !! 1) = Some None /\ (max_retries ∘ spec <$> tbl !! 1) = Some 3.
Proof. vm_compute. repeat split. Qed.

(** Two enqueues that both check before either inserts: the timestamps differ, so
    the index does not stop the second, and two live tasks share the key. *)
Example concurrent_enqueue :
  let tbl := (qrun1 [QCheck 0 0 (put 1 "c1" (Some "k")); QCheck 1 1 (put 2 "c1" (Some "k")); QInsert 0; QInsert 1] (∅, ∅)).1 in
  map (status_of tbl) [1; 2] = [Some PENDING; Some PENDING].
Proof. vm_compute. reflexivity. Qed.

(** A requeue does not look at the key: two live tasks share it. *)
Example requeue_duplicates_key :
  let tbl := run1 [(0, put 1 "c1" (Some "k")); (1, claim "w1"); (2, OFail 1 2 "bad" false (Some "w1") (Some 0));
                   (3, put 2 "c1" (Some "k")); (4, ORequeue 1 true None None)] ∅ in
  map (status_of tbl) [1; 2] = [Some PENDING; Some PENDING].
Proof. vm_compute. reflexivity. Qed.

(** A worker that gives back a claim it has lost takes the task from its new owner. *)
Example stale_release :
  let tbl := run1 [(0, put 1 "c1" None); (1, claim "w1"); (302, OReap []); (303, claim "w2")] ∅ in
  (owner_id <$> tbl !! 1) = Some (Some "w2") /\
  status_of (exec1 304 (OResetToPending 1 None) tbl) 1 = Some PENDING.
Proof. vm_compute. split; reflexivity. Qed.

(** The heartbeat of a stalled worker renews the lease of the new owner. *)
Example stale_heartbeat :
  let tbl := run1 [(0, put 1 "c1" None); (1, claim "w1"); (302, OReap []); (303, claim "w2"); (600, OHeartbeat [(1, 0)] 300)] ∅ in
  (owner_id <$> tbl !! 1) = Some (Some "w2") /\ (locked_until <$> tbl !! 1) = Some (Some 900).
Proof. vm_compute. split; reflexivity. Qed.

(** The owner names a process, not an attempt: when the same process claims a task
    again, the report of its first attempt ends the second. *)
Example stale_attempt_same_owner :
  let tbl := run1 [(0, put 1 "c1" None); (1, claim "w1"); (302, OReap []); (303, claim "w1")] ∅ in
  (complete_task 1 304 (Some (VStr "first attempt")) (Some "w1") (Some 0) tbl).1 = true.
Proof. vm_compute. reflexivity. Qed.

(** An orphan is dead-lettered with its owner, whose failure report revives it. *)
Example orphan_revived :
  let tbl := run1 [(0, put 1 "c1" None); (1, claim "w1"); (100, OCleanupOrphans 50 (Some ["c2"]))] ∅ in
  status_of tbl 1 = Some DEAD_LETTER /\
  status_of (exec1 101 (OFail 1 101 "no catalog" true (Some "w1") (Some 0)) tbl) 1 = Some PENDING.
Proof. vm_compute. split; reflexivity. Qed.

(** The last allowed attempt is one earlier than "unless [retry_count >= max_retries]":
    with [retry_count = max_retries - 1] the reaper already dead-letters. *)
Lemma reaper_limit cap now r :
  retry_count r + 1 = limit cap r -> status (reap_row cap now r) = DEAD_LETTER /\ retry_count r < limit cap r.
Proof. intros H. unfold reap_row. rewrite H, Z.leb_refl. simpl. split; [done|lia]. Qed.

(** A claimed row is ACTIVE, and the reactive dead-letter wants PENDING. *)
Lemma reactive_dlq_never_fires now vt owner r now' ts err id (tbl : table) :
  tbl !! id = Some (set_error None (claim_row now vt owner r)) ->
  dlq_unclaimable now' id ts err tbl = (false, tbl).
Proof. intros Hr. unfold dlq_unclaimable, update_where. rewrite Hr. simpl. by rewrite andb_false_r. Qed.
