(* ===== verification/Dispatcher.v ===== *)
(** * Dispatching claimed tasks

    [modules/tasks/dispatcher.py] ([BatchedHeartbeat], [_dispatch_one], the reactive
    dead-letter), [execution.py] ([apply_terminal_action] and the checklist drain)
    and [reconciliation.py], on the table of [TaskQueue].

    What a runner does with a task is a [run_result]; what the capability oracle, the
    advisory lock and a probe answer are arguments.  Task ids key the heartbeat
    registry directly. *)

From S2P Require Import Prelude TaskQueue TaskQueueProofs.

(** ** Terminal actions *)

Inductive ActionVerb : Type := ROUTE | REPORT | A_DEAD_LETTER | A_FAIL.

#[global] Instance ActionVerb_eq_dec : EqDecision ActionVerb.
Proof. solve_decision. Defined.

Record Action : Type := mkAction { action : ActionVerb; process : option string; payload : list (string * pyval) }.

Inductive terminal_outcome : Type := success | failure | timeout.

Definition ROUTE_DEPTH_KEY : string := "_route_depth".
Definition MAX_ROUTE_DEPTH : Z := 16.
Definition INTERNAL_KEY : string := "_request_correlation_id".
Definition SYSTEM_USER_ID : string := "system:platform".
Definition EXECUTION_OVERRIDES_KEY : string := "__execution_overrides__".

(** [a or b] on strings. *)
Definition str_or (a : option string) (b : string) : string :=
  match a with Some a => if a ==s "" then b else a | None => b end.

(** [d.pop(k, None)]. *)
Definition dict_pop {A} (k : string) (d : list (string * A)) : list (string * A) :=
  List.filter (fun kv => negb (kv.1 ==s k)) d.

(** [{**a, **b}]. *)
Definition dict_merge {A} (a b : list (string * A)) : list (string * A) :=
  fold_left (fun d kv => dict_set kv.1 kv.2 d) b a.

(** [_PROVISIONING_TASK_TYPES]. *)
Definition PROVISIONING_TASK_TYPES : list string := ["gcp_provision_catalog"; "catalog_provision"].

(** [BatchedHeartbeat._owned]: the creation time of each registered task. *)
Abbreviation registry := (gmap Z Z).

Section dispatcher.
Context `{PyRuntime}.
Context (cap lookback : Z) (default_title : pyval).

(** [_route_depth] of the inputs; anything [int] refuses counts as 0. *)
Definition route_depth (ins : list (string * pyval)) : Z :=
  default 0 (py_int (cfg_get_or ins ROUTE_DEPTH_KEY (VInt 0))).

(** The inputs of a follow-on, or [None] at the depth limit. *)
Definition route_inputs (ins pl : list (string * pyval)) : option (list (string * pyval)) :=
  let depth := route_depth ins in
  if MAX_ROUTE_DEPTH <=? depth then None
  else Some (dict_set ROUTE_DEPTH_KEY (VInt (depth + 1)) (dict_merge ins pl)).

(** [_read_task_status]; a failed read is [None]. *)
Definition read_task_status (readable : bool) (id : Z) (tbl : table) : option task_status :=
  if readable then status <$> tbl !! id else None.

Definition reached_failure (readable : bool) (oc : terminal_outcome) (id : Z) (tbl : table) : bool :=
  match oc with
  | success => true
  | failure | timeout =>
      match read_task_status readable id tbl with Some (DEAD_LETTER | FAILED) => true | _ => false end
  end.

(** [_drain_provisioning_checklist]: the catalog to drain and the terminal status of
    its pending steps. *)
Definition drain_provisioning_checklist (readable : bool) (oc : terminal_outcome) (id : Z) (ty : string)
    (ins : list (string * pyval)) (tbl : table) : option (pyval * string) :=
  if negb (str_mem ty PROVISIONING_TASK_TYPES) then None
  else
    let cat := cfg_get ins "catalog_id" in
    if negb (truthy cat) then None
    else if reached_failure readable oc id tbl then
      Some (cat, match oc with success => "degraded" | failure | timeout => "failed" end)
    else None.

(** The inputs [_dispatch_one] passes on.  The claim returns the column as the driver
    delivers it: [as_text], a JSON text, is not a [dict] and counts as none; a [dict]
    is the one [dispatch] has popped its reserved keys from. *)
Definition passed_inputs (as_text : bool) (s : task_spec) : list (string * pyval) :=
  if as_text then [] else dict_pop EXECUTION_OVERRIDES_KEY (dict_pop INTERNAL_KEY (inputs s)).

(** [apply_terminal_action] for task [id] with inputs [ins]: the follow-on task, the
    drained checklist and the table. *)
Definition apply_terminal_action (kind_of : string -> string) (readable : bool) (cid : option string)
    (now new_id id : Z) (s : task_spec) (ins : list (string * pyval)) (oc : terminal_outcome) (act : option Action) (tbl : table)
    : option Z * option (pyval * string) * table :=
  let drained := drain_provisioning_checklist readable oc id (task_type s) ins tbl in
  let none := (None, drained, tbl) in
  match act with
  | Some (mkAction ROUTE (Some p) pl) =>
      if p ==s "" then none
      else if negb (reached_failure readable oc id tbl) then none
      else match route_inputs ins pl with
           | None => none
           | Some forwarded =>
               let td := mkCreate p (kind_of p) (str_or (Some (scope s)) "CATALOG") "ASYNCHRONOUS"
                           (Some (str_or (caller_id s) SYSTEM_USER_ID)) forwarded None (collection_id s) None None in
               let '(created, tbl') :=
                 create_task default_title INTERNAL_KEY now new_id td (catalog_id s) PENDING None None cid tbl in
               (created, drained, tbl')
           end
  | _ => none
  end.

(** ** The heartbeat registry *)

Definition register (id created : Z) (owned : registry) : registry := <[id := created]> owned.
Definition unregister (id : Z) (owned : registry) : registry := delete id owned.
(** [_flush]: one update for every registered task. *)
Definition flush (now vt : Z) (owned : registry) (tbl : table) : table :=
  if decide (owned = ∅) then tbl else heartbeat_tasks now (map_to_list owned) vt tbl.

(** ** Tasks no live worker can run *)

Definition TASK_TYPE_CAPABILITY_INPUTS_KEY : list (string * string) := [].

(** [_emit_bulk_dlq]. *)
Definition emit_bulk_dlq (jsonb_text : pyval -> option string) (now : Z) (ty capability err : string) (tbl : table)
    : table :=
  match dict_get ty TASK_TYPE_CAPABILITY_INPUTS_KEY with
  | Some key => if key ==s "" then tbl else bulk_dlq jsonb_text now ty key capability err tbl
  | None => tbl
  end.

(** What the oracle says before and inside the transaction, whether the advisory
    lock was free, and whether the database call raised. *)
Record probe_answers : Type := mkAnswers { live_before : bool; got_lock : bool; live_inside : bool; raised : bool }.

(** [_maybe_dlq_unclaimable]. *)
Definition maybe_dlq_unclaimable (jsonb_text : pyval -> option string) (pa : probe_answers) (now id : Z)
    (s : task_spec) (capability err : string) (tbl : table) : bool * table :=
  if raised pa || live_before pa || negb (got_lock pa) || live_inside pa then (false, tbl)
  else match dlq_unclaimable now id (timestamp s) err tbl with
       | (true, tbl') => (true, emit_bulk_dlq jsonb_text now (task_type s) capability err tbl')
       | (false, _) => (false, tbl)
       end.

(** [sweep_dead_capability_rows]. *)
Definition sweep_dead_capability_rows (jsonb_text : pyval -> option string) (pa : probe_answers) (now : Z)
    (ty : option string) (capability err : string) (tbl : table) : table :=
  match ty with
  | Some ty =>
      if negb (str_mem ty (map fst TASK_TYPE_CAPABILITY_INPUTS_KEY)) then tbl
      else if raised pa || live_before pa || negb (got_lock pa) || live_inside pa then tbl
      else emit_bulk_dlq jsonb_text now ty capability err tbl
  | None => tbl
  end.

(** ** One dispatch *)

(** How [execution_engine.dispatch] ends. *)
Inductive run_result : Type :=
| RDone (outs : option pyval)
| RDeferred
| RCancelled
| RTimedOut
| RPermanent (e : string)
| RError (e : string).

Record routing_terminal : Type := mkTerminal {
  on_success : option Action;
  on_failure : option Action;
  on_timeout : option Action;
}.

Record dispatch_state : Type := mkDispatch { d_table : table; d_owned : registry }.

(** The follow-on, the drained checklist, and whether the exception propagates. *)
Record dispatch_out : Type := mkOut { followon : option Z; drained : option (pyval * string); reraised : bool }.

(** The terminal write of a result: whether it landed, and the outcome whose action
    follows. *)
Definition terminal_write (now id : Z) (owner : string) (s : task_spec) (timeout_msg : string) (res : run_result)
    (tbl : table) : bool * table * option terminal_outcome :=
  let o := Some owner in
  let c := Some (timestamp s) in
  match res with
  | RDone outs => (complete_task id now outs o c tbl, Some success)
  | RDeferred => ((false, tbl), None)
  | RCancelled => (fail_task cap now id now "Runner interrupted (SIGTERM)" true o c tbl, None)
  | RTimedOut => (dead_letter_task id now timeout_msg o c tbl, Some timeout)
  | RPermanent e => (fail_task cap now id now e false o c tbl, Some failure)
  | RError e => (fail_task cap now id now e true o c tbl, Some failure)
  end.

Definition terminal_action (t : routing_terminal) (oc : terminal_outcome) : option Action :=
  match oc with success => on_success t | failure => on_failure t | timeout => on_timeout t end.

(** [_dispatch_one] of a claimed row, whose columns at claim time are [s].
    [accepted] is the verdict of [can_claim] (an exception counts as accepted),
    [capability] what the task requires; [st] is the state when the runner has ended,
    whatever happened to the table while it ran.  The routing's [timeout_seconds] only
    decides whether [RTimedOut] is among the results. *)
Definition dispatch_one (kind_of : string -> string) (jsonb_text : pyval -> option string) (readable as_text : bool)
    (cid : option string) (now new_id id : Z) (owner : string) (s : task_spec) (accepted : bool)
    (capability : option string) (pa : probe_answers) (err timeout_msg : string) (backoff : option Z)
    (t : routing_terminal) (res : run_result) (st : dispatch_state) : dispatch_out * dispatch_state :=
  if negb accepted then
    let '(dlqed, tbl) := match capability with
                         | Some c => if c ==s "" then (false, d_table st)
                                     else maybe_dlq_unclaimable jsonb_text pa now id s c err (d_table st)
                         | None => (false, d_table st)
                         end in
    if dlqed : bool then (mkOut None None false, mkDispatch tbl (d_owned st))
    else (mkOut None None false, mkDispatch (reset_task_to_pending now id backoff tbl) (d_owned st))
  else
    let owned := register id (timestamp s) (d_owned st) in
    let '(landed, tbl, oc) := terminal_write now id owner s timeout_msg res (d_table st) in
    let '(fo, dr, tbl') := match oc with
                           | Some oc => if landed : bool
                                        then apply_terminal_action kind_of readable cid now new_id id s (passed_inputs as_text s) oc
                                               (terminal_action t oc) tbl
                                        else (None, None, tbl)
                           | None => (None, None, tbl)
                           end in
    (mkOut fo dr (match res with RCancelled => true | _ => false end),
     mkDispatch tbl' (match res with RDeferred => owned | _ => unregister id owned end)).

(** ** Reconciliation on read *)

Inductive LivenessVerdict : Type := ALIVE | DEAD | UNKNOWN | TERMINAL_SUCCEEDED | TERMINAL_FAILED.
Inductive VerdictAction : Type := EXTEND_LEASE | FAIL_RETRY | COMPLETE | NOOP.

Definition decide_verdict_action (v : LivenessVerdict) : VerdictAction :=
  match v with
  | ALIVE => EXTEND_LEASE
  | DEAD | TERMINAL_FAILED => FAIL_RETRY
  | TERMINAL_SUCCEEDED => COMPLETE
  | UNKNOWN => NOOP
  end.

(** [reconcile_task_liveness] of the snapshot [task]: the row to answer with and the
    table.  [probe] is what the probe of the owner says, [None] when there is no probe
    or it failed in time. *)
Definition reconcile_task_liveness (now extend_seconds id : Z) (task : row) (err : string)
    (probe : option LivenessVerdict) (tbl : table) : row * table :=
  if negb (in_statuses [ACTIVE; RUNNING] task) then (task, tbl)
  else if negb (sql_lt (locked_until task) now) then (task, tbl)
  else match owner_id task, probe with
       | Some o, Some v =>
           let c := Some (timestamp (spec task)) in
           let '(acted, tbl') :=
             match decide_verdict_action v with
             | EXTEND_LEASE => heartbeat_task_if_active now id extend_seconds c tbl
             | FAIL_RETRY => fail_task cap now id now err true (Some o) c tbl
             | COMPLETE => complete_task id now (outputs task) (Some o) c tbl
             | NOOP => (false, tbl)
             end in
           if acted : bool then (default task (tbl' !! id), tbl') else (task, tbl)
       | _, _ => (task, tbl)
       end.
End dispatcher.

(** ** Follow-ons happen once *)

Section dispatcher_proofs.
Context `{PyRuntime}.
Context (cap lookback : Z) (default_title : pyval).
Context (kind_of : string -> string) (jsonb_text : pyval -> option string).
Abbreviation dispatch := (dispatch_one cap default_title kind_of jsonb_text).
Abbreviation act_on := (apply_terminal_action default_title kind_of).

Lemma update_where_fail id p f (tbl tbl' : table) : update_where id p f tbl = (false, tbl') -> tbl' = tbl.
Proof. unfold update_where. destruct (tbl !! id) as [r|]; [destruct (p r)|]; by intros [= <-]. Qed.

Lemma update_where_true id p f (tbl tbl' : table) :
  update_where id p f tbl = (true, tbl') -> exists r, tbl !! id = Some r /\ p r = true /\ tbl' = <[id := f r]> tbl.
Proof. unfold update_where. destruct (tbl !! id) as [r|]; [destruct (p r) eqn:E|]; intros [= <-]. eauto. Qed.

(** A terminal write lands only on the writer's own claim, and leaves the row to
    itself or to nobody. *)
Lemma terminal_write_landed now id owner s msg res (tbl tbl' : table) oc :
  terminal_write cap now id owner s msg res tbl = (true, tbl', oc) ->
  exists r r', tbl !! id = Some r /\ owner_id r = Some owner /\ timestamp (spec r) = timestamp s /\
    tbl' = <[id := r']> tbl /\ (owner_id r' = None \/ owner_id r' = Some owner) /\ spec r' = spec r /\
    match res with
    | RDone outs => status r' = COMPLETED /\ outputs r' = outs /\ oc = Some success
    | RTimedOut => status r' = DEAD_LETTER /\ oc = Some timeout
    | RPermanent _ => status r' = FAILED /\ oc = Some failure
    | RError _ => (status r' = PENDING \/ status r' = DEAD_LETTER) /\ oc = Some failure
    | RCancelled => (status r' = PENDING \/ status r' = DEAD_LETTER) /\ oc = None
    | RDeferred => False
    end.
Proof.
  unfold terminal_write, complete_task, fail_task, dead_letter_task.
  destruct res; try done; intros [= Hu <-]; apply update_where_true in Hu as (r & Hr & Hg & ->);
    unfold guards in Hg; simpl in Hg; apply andb_true_iff in Hg as [Ho%sql_eq_true Ht%Z.eqb_eq];
    (eexists r, _; split; [done|]; split; [done|]; split; [done|]; split; [reflexivity|]);
    unfold retry_row, fail_row, dead_letter_row; simpl; try (destruct (_ <? _); simpl); split_and!; eauto; done.
Qed.

Lemma terminal_write_lost now id owner s msg res (tbl tbl' : table) oc :
  terminal_write cap now id owner s msg res tbl = (false, tbl', oc) -> tbl' = tbl.
Proof.
  unfold terminal_write, complete_task, fail_task, dead_letter_task.
  destruct res; intros [= Hu <-]; try done; by apply update_where_fail in Hu.
Qed.

(** Under another owner the write is lost. *)
Lemma terminal_write_foreign now id owner s msg res (tbl : table) r :
  tbl !! id = Some r -> owner_id r <> Some owner -> exists oc, terminal_write cap now id owner s msg res tbl = (false, tbl, oc).
Proof.
  intros Hr Hne. destruct (terminal_write cap now id owner s msg res tbl) as [[[] tbl'] oc] eqn:E.
  - apply terminal_write_landed in E as (r' & _ & Hr' & Ho & _). congruence.
  - apply terminal_write_lost in E as ->. eauto.
Qed.

Lemma apply_terminal_action_table readable cid now new_id id s ins oc act (tbl : table) fo dr tbl' :
  act_on readable cid now new_id id s ins oc act tbl = (fo, dr, tbl') ->
  (fo = None /\ tbl' = tbl) \/
  (fo = Some new_id /\ reached_failure readable oc id tbl = true /\
   exists p pl forwarded nr, act = Some (mkAction ROUTE (Some p) pl) /\ route_inputs ins pl = Some forwarded /\
     tbl' = <[new_id := nr]> tbl /\ status nr = PENDING /\ task_type (spec nr) = p /\
     inputs (spec nr) = effective_inputs default_title INTERNAL_KEY cid
                          (mkCreate p (kind_of p) (str_or (Some (scope s)) "CATALOG") "ASYNCHRONOUS"
                             (Some (str_or (caller_id s) SYSTEM_USER_ID)) forwarded None (collection_id s) None None)).
Proof.
  unfold apply_terminal_action. set (dr0 := drain_provisioning_checklist _ _ _ _ _ _).
  destruct act as [[[] [p|] pl]|]; try (intros [= <- <- <-]; by left).
  destruct (p ==s ""); [intros [= <- <- <-]; by left|].
  destruct (reached_failure _ _ _ _) eqn:Er; simpl; [|intros [= <- <- <-]; by left].
  destruct (route_inputs ins pl) as [fw|] eqn:Ef; [|intros [= <- <- <-]; by left].
  intros [= <- <- <-]. right. split; [done|]. split; [done|]. eexists p, pl, fw, _. by split_and!.
Qed.


Definition finished (r : row) : Prop := status r = COMPLETED \/ status r = FAILED \/ status r = DEAD_LETTER.

Lemma dispatch_accepted readable as_text cid now new_id id owner s cb pa err msg bo t res st :
  dispatch readable as_text cid now new_id id owner s true cb pa err msg bo t res st =
  let '(landed, tbl, oc) := terminal_write cap now id owner s msg res (d_table st) in
  let '(fo, dr, tbl') := match oc with
                         | Some oc => if landed : bool
                                      then act_on readable cid now new_id id s (passed_inputs as_text s) oc (terminal_action t oc) tbl
                                      else (None, None, tbl)
                         | None => (None, None, tbl)
                         end in
  (mkOut fo dr (match res with RCancelled => true | _ => false end),
   mkDispatch tbl' (match res with RDeferred => register id (timestamp s) (d_owned st)
                    | _ => unregister id (register id (timestamp s) (d_owned st)) end)).
Proof. done. Qed.

(** On a finished row of another owner a dispatch has no effect and no follow-on. *)
Lemma dispatch_finished readable as_text cid now new_id id owner s acc cb pa err msg bo t res st out st' r :
  d_table st !! id = Some r -> finished r -> owner_id r <> Some owner -> d_table st !! new_id = None ->
  dispatch readable as_text cid now new_id id owner s acc cb pa err msg bo t res st = (out, st') ->
  followon out = None /\ d_table st' !! id = Some r.
Proof.
  intros Hr Hfin Hne Hnew. destruct acc.
  - rewrite dispatch_accepted. destruct (terminal_write_foreign now id owner s msg res _ r Hr Hne) as [oc ->].
    destruct oc; intros [= <- <-]; done.
  - unfold dispatch_one. simpl.
    assert (Hd : forall c, maybe_dlq_unclaimable jsonb_text pa now id s c err (d_table st) = (false, d_table st)).
    { intros c. unfold maybe_dlq_unclaimable. destruct (_ || _); [done|]. unfold dlq_unclaimable, update_where. rewrite Hr.
      rewrite (bool_decide_eq_false_2 (status r = PENDING)), andb_false_r; [done|]. by destruct Hfin as [->|[->| ->]]. }
    assert (Hreset : forall tbl, tbl !! id = Some r -> reset_task_to_pending now id bo tbl !! id = Some r).
    { intros tbl Ht. unfold reset_task_to_pending. rewrite update_where_lookup, decide_True, Ht by done. simpl.
      rewrite bool_decide_eq_false_2; [done|]. by destruct Hfin as [->|[->| ->]]. }
    destruct cb as [c|]; [destruct (c ==s ""); [|rewrite Hd]|]; intros [= <- <-]; simpl; split; auto.
Qed.

(** A terminal action fires once.  If a dispatch creates a follow-on task, then it
    held the claim, its own write finished the row, and the follow-on is a waiting task
    of the routed type; any attempt under another owner that reports afterwards, with
    whatever result, creates no follow-on and leaves the finished row as it is. *)
Theorem followon_once readable as_text cid now new_id id owner s acc cb pa err msg bo t res st out st' nid :
  dispatch readable as_text cid now new_id id owner s acc cb pa err msg bo t res st = (out, st') ->
  d_table st !! new_id = None -> followon out = Some nid ->
  nid = new_id /\
  (exists r r', d_table st !! id = Some r /\ owner_id r = Some owner /\ d_table st' !! id = Some r' /\ finished r') /\
  (status <$> d_table st' !! nid) = Some PENDING /\
  forall now2 new_id2 owner2 s2 acc2 cb2 pa2 res2 out2 st2,
    owner2 <> owner -> d_table st' !! new_id2 = None ->
    dispatch readable as_text cid now2 new_id2 id owner2 s2 acc2 cb2 pa2 err msg bo t res2 st' = (out2, st2) ->
    followon out2 = None /\ d_table st2 !! id = d_table st' !! id.
Proof.
  intros Hdisp Hnew Hfo. destruct acc.
  2:{ exfalso. revert Hdisp. unfold dispatch_one. simpl.
      destruct (match cb with Some _ => _ | None => _ end) as [[] tb]; intros [= <- <-]; done. }
  rewrite dispatch_accepted in Hdisp.
  destruct (terminal_write cap now id owner s msg res (d_table st)) as [[landed tbl] oc] eqn:Ew.
  destruct oc as [oc|]; [|by injection Hdisp as <- <-]. destruct landed; [|by injection Hdisp as <- <-].
  destruct (act_on _ _ _ _ _ _ _ _ _ _) as [[fo dr] tbl'] eqn:Ea. injection Hdisp as <- <-. simpl in Hfo. subst fo.
  apply apply_terminal_action_table in Ea as [[? _]|(Hfo & Hreach & p & pl & fw & nr & _ & _ & -> & Hnr & _)]; [done|].
  injection Hfo as ->. apply terminal_write_landed in Ew as (r & r' & Hr & Ho & _ & -> & Ho' & _ & Hres).
  assert (Hid : new_id <> id) by congruence.
  assert (Hr' : <[new_id := nr]> (<[id := r']> (d_table st)) !! id = Some r') by by rewrite lookup_insert_ne, lookup_insert_eq.
  assert (Hfin : finished r').
  { unfold finished. destruct res; destruct_and? Hres; simplify_eq; auto.
    unfold reached_failure, read_task_status in Hreach. destruct readable; [|done]. rewrite lookup_insert_eq in Hreach.
    simpl in Hreach. destruct (status r'); auto; done. }
  split_and!; [done|by exists r, r'|simpl; rewrite lookup_insert_eq; simpl; by rewrite Hnr|].
  intros now2 new2 owner2 s2 acc2 cb2 pa2 res2 out2 st2 Hne Hn2 Hd2. simpl d_table at 2. rewrite Hr'.
  eapply dispatch_finished; [|exact Hfin| |exact Hn2|exact Hd2]; [exact Hr'|]. destruct Ho' as [->| ->]; congruence.
Qed.


(** ** Chains of follow-ons end *)

(** The inputs the next hop works on: what [create_task] stores of the forwarded
    inputs, as the next dispatch passes them on. *)
Definition hop_inputs (cid : option string) (forwarded : list (string * pyval)) : list (string * pyval) :=
  dict_pop EXECUTION_OVERRIDES_KEY (dict_pop INTERNAL_KEY
    (effective_inputs default_title INTERNAL_KEY cid
       (mkCreate "" "" "" "" None forwarded None None None None))).

(** A chain of ROUTE actions, each with its payload and correlation id. *)
Fixpoint route_chain (hops : list (list (string * pyval) * option string)) (ins : list (string * pyval))
    : option (list (string * pyval)) :=
  match hops with
  | [] => Some ins
  | (pl, cid) :: hops => fw ← route_inputs ins pl; route_chain hops (hop_inputs cid fw)
  end.

Lemma dict_get_pop_ne {A} k k' (d : list (string * A)) : k <> k' -> dict_get k (dict_pop k' d) = dict_get k d.
Proof.
  intros Hne. induction d as [|[k0 v] d IH]; [done|]. simpl. destruct (String.eqb_spec k0 k') as [->|]; simpl.
  - rewrite IH. by destruct (String.eqb_spec k k') as [->|].
  - by rewrite IH.
Qed.

Lemma route_depth_get ins ins' :
  dict_get ROUTE_DEPTH_KEY ins = dict_get ROUTE_DEPTH_KEY ins' -> route_depth ins = route_depth ins'.
Proof. unfold route_depth, cfg_get_or. by intros ->. Qed.

Lemma hop_inputs_depth cid fw : route_depth (hop_inputs cid fw) = route_depth fw.
Proof.
  apply route_depth_get. unfold hop_inputs. rewrite !dict_get_pop_ne by done. unfold effective_inputs. simpl.
  destruct cid, (truthy _); rewrite ?dict_get_set_ne by done; done.
Qed.

Lemma route_inputs_depth ins pl fw :
  route_inputs ins pl = Some fw -> route_depth ins < MAX_ROUTE_DEPTH /\ route_depth fw = route_depth ins + 1.
Proof.
  unfold route_inputs. destruct (Z.leb_spec MAX_ROUTE_DEPTH (route_depth ins)) as [|Hlt]; [done|]. intros [= <-].
  split; [done|]. unfold route_depth at 1, cfg_get_or. by rewrite dict_get_set_eq.
Qed.

(** Chains of ROUTE actions end: whatever the actions' payloads carry, also the
    depth key itself, a chain from given inputs makes at most [16] hops less those
    already counted in the inputs, so routing cycles do not run forever. *)
Theorem route_chain_bounded hops ins ins' :
  route_chain hops ins = Some ins' ->
  Z.of_nat (length hops) <= Z.max 0 (MAX_ROUTE_DEPTH - route_depth ins) /\
  route_depth ins' = route_depth ins + Z.of_nat (length hops).
Proof.
  revert ins. induction hops as [|[pl cid] hops IH]; intros ins; [intros [= <-]; simpl; lia|]. cbn [route_chain length].
  destruct (route_inputs ins pl) as [fw|] eqn:E; simpl; [|done]. intros Hc%IH. rewrite hop_inputs_depth in Hc.
  apply route_inputs_depth in E. lia.
Qed.

(** ** A worker that beats keeps its tasks *)

(** Every operation comes less than a lease after the worker's last heartbeat and is
    either its next heartbeat, with the task registered, or somebody else's. *)
Fixpoint beats (owner cat : string) (id created vt : Z) (owned : registry) (last : Z) (ops : list (Z * op)) : Prop :=
  match ops with
  | [] => True
  | (now, o) :: ops =>
      last <= now < last + vt /\
      ((o = OHeartbeat (map_to_list owned) vt /\ beats owner cat id created vt owned now ops) \/
       (foreign owner cat id o /\ keeps_lease (last + vt) now o /\ beats owner cat id created vt owned last ops))
  end.

Abbreviation run0 := (run cap lookback default_title INTERNAL_KEY).
Abbreviation exec0 := (exec cap lookback default_title INTERNAL_KEY).

(** [flush] is the heartbeat operation. *)
Lemma flush_exec now vt owned (tbl : table) : owned <> ∅ -> flush now vt owned tbl = exec0 now (OHeartbeat (map_to_list owned) vt) tbl.
Proof. intros Hne. unfold flush. by rewrite decide_False. Qed.

(** A task registered with the heartbeat stays with its worker for as long as
    the worker beats: over any run in which less than a visibility timeout passes
    between two flushes, whatever the other processes do, the row remains ACTIVE under
    its owner in its current attempt, and the worker's report lands. *)
Theorem heartbeat_keeps_task owner id r created vt owned last ops (tbl : table) :
  tbl !! id = Some r -> status r = ACTIVE -> owner_id r = Some owner -> locked_until r = Some (last + vt) ->
  created = timestamp (spec r) -> owned !! id = Some created -> fresh_run cap lookback default_title INTERNAL_KEY ops tbl ->
  beats owner (catalog_id (spec r)) id created vt owned last ops ->
  exists r', run0 ops tbl !! id = Some r' /\ status r' = ACTIVE /\ owner_id r' = Some owner /\
    retry_count r' = retry_count r /\
    forall now s msg outs, timestamp s = created ->
      exists tbl', terminal_write cap now id owner s msg (RDone outs) (run0 ops tbl) = (true, tbl', Some success).
Proof.
  intros Hr Hs Ho Hl Hc Hown Hf Hb.
  assert (Hgen : forall tbl r1 last, tbl !! id = Some r1 -> held owner (last + vt) r r1 ->
            fresh_run cap lookback default_title INTERNAL_KEY ops tbl ->
            beats owner (catalog_id (spec r)) id created vt owned last ops ->
            exists r', run0 ops tbl !! id = Some r' /\ exists l, held owner l r r').
  { clear -Hc Hown. induction ops as [|[now o] ops IH]; intros tbl r1 last Hr1 Hh Hf Hb; [eauto|].
    destruct Hf as [Hf Hfs], Hb as [Hnow [[-> Hb]|(Hfo & Hk & Hb)]].
    - eapply (IH _ (extend now vt r1)); [| |exact Hfs|exact Hb].
      + simpl. unfold heartbeat_tasks. rewrite update_all_lookup, Hr1. simpl. destruct Hh as (Hsp & Hs1 & _).
        rewrite !bool_decide_eq_true_2; [done|done|]. rewrite Hsp, <-Hc. by apply elem_of_map_to_list.
      + destruct Hh as (? & ? & ? & _ & ? & ? & ?). unfold held. simpl. split_and!; eauto. by exists (now + vt).
    - destruct (exec_row cap lookback default_title INTERNAL_KEY now o tbl id r1 Hr1 Hf) as [Hsame|Hstep].
      + by eapply IH.
      + destruct (held_step cap lookback default_title owner (last + vt) r now o id r1 _ Hh ltac:(lia) Hfo Hk Hstep) as (r2 & Hr2 & Hh2). by eapply IH. }
  destruct (Hgen tbl r last Hr) as (r' & Hr' & l & Hsp & Hs' & Ho' & _ & Hrc & _); [|done..|].
  { unfold held. split_and!; eauto. by exists (last + vt). }
  exists r'. split_and!; [done..|]. intros now s msg outs Hts. eexists. unfold terminal_write, complete_task, update_where.
  rewrite Hr'. assert (guards (Some owner) (Some (timestamp s)) r' = true) as ->; [|done].
  unfold guards. simpl. rewrite Ho', Hsp, Hts, Hc. simpl. by rewrite String.eqb_refl, Z.eqb_refl.
Qed.
End dispatcher_proofs.

(** ** Examples *)

Definition demo_spec : task_spec :=
  mkSpec "c1" "CATALOG" (Some "u") "t" "task" "ASYNCHRONOUS" [("a", VInt 1)] 0 None None 3.
Definition demo_claimed : row :=
  mkRow demo_spec ACTIVE 0 None None (Some 1) None None (Some 301) (Some 1) (Some "w1") None 0.
Definition demo_state : dispatch_state := mkDispatch {[1 := demo_claimed]} ∅.
Definition route_to (p : string) : Action := mkAction ROUTE (Some p) [].
Definition demo_terminal : routing_terminal := mkTerminal (Some (route_to "next")) None None.
Definition no_answers : probe_answers := mkAnswers true true true false.

Abbreviation demo_dispatch :=
  (@dispatch_one demo_runtime 5 (VStr "Task") (fun _ => "task") (fun _ => None) true false None).

(** Witness of [followon_once]: w1 finishes the task and routes to "next"; w2 reports too late. *)
Lemma followon_once_witness :
  exists out st', demo_dispatch 10 2 1 "w1" demo_spec true None no_answers "" "" None demo_terminal (RDone None) demo_state = (out, st') /\
  followon out = Some 2 /\
  forall out2 st2,
    demo_dispatch 20 3 1 "w2" demo_spec true None no_answers "" "" None demo_terminal (RDone None) st' = (out2, st2) ->
    followon out2 = None /\ d_table st2 !! 1 = d_table st' !! 1.
Proof.
  destruct (demo_dispatch 10 2 1 "w1" demo_spec true None no_answers "" "" None demo_terminal (RDone None) demo_state) as [out st'] eqn:E.
  exists out, st'. split; [reflexivity|].
  assert (Hfo : followon out = Some 2) by (vm_compute in E; injection E as <- _; reflexivity). split; [exact Hfo|].
  intros out2 st2 E2.
  destruct (@followon_once demo_runtime 5 (VStr "Task") (fun _ => "task") (fun _ => None) _ _ _ _ _ _ _ _ _ _ _ _ _ _ _ _ _ _ _ _ E eq_refl Hfo)
    as (_ & _ & _ & Honce).
  apply (Honce 20 3 "w2" demo_spec true None no_answers (RDone None) out2 st2); [discriminate| |exact E2].
  vm_compute in E. injection E as _ <-. reflexivity.
Defined.

(** Witness of [route_chain_bounded]: sixteen hops are taken, the seventeenth is refused. *)
Lemma route_chain_bounded_witness :
  (exists ins', @route_chain demo_runtime (VStr "Task") (replicate 16 ([("_route_depth", VInt 0)], Some "x")) [] = Some ins' /\
                @route_depth demo_runtime ins' = 16) /\
  @route_chain demo_runtime (VStr "Task") (replicate 17 ([], None)) [] = None.
Proof.
  split; [|vm_compute; reflexivity].
  destruct (@route_chain demo_runtime (VStr "Task") (replicate 16 ([("_route_depth", VInt 0)], Some "x")) []) as [ins'|] eqn:E;
    [|vm_compute in E; discriminate E].
  exists ins'. split; [reflexivity|]. exact (proj2 (@route_chain_bounded demo_runtime (VStr "Task") _ _ _ E)).
Defined.

(** Witness of [heartbeat_keeps_task]: two flushes while another worker claims and the reaper runs. *)
Lemma heartbeat_keeps_task_witness :
  exists r', run 5 100000 (VStr "Task") INTERNAL_KEY
    [(200, OHeartbeat (map_to_list ({[1 := 0]} : gmap Z Z)) 300); (350, OReap []); (400, OClaimBatch ["t"] [] 300 "w2" 10 []);
     (450, OHeartbeat (map_to_list ({[1 := 0]} : gmap Z Z)) 300); (700, OReap [])] (d_table demo_state) !! 1 = Some r' /\
  status r' = ACTIVE /\ owner_id r' = Some "w1".
Proof.
  destruct (heartbeat_keeps_task 5 100000 (VStr "Task") "w1" 1 demo_claimed 0 300 {[1 := 0]} 1
    [(200, OHeartbeat (map_to_list ({[1 := 0]} : gmap Z Z)) 300); (350, OReap []); (400, OClaimBatch ["t"] [] 300 "w2" 10 []);
     (450, OHeartbeat (map_to_list ({[1 := 0]} : gmap Z Z)) 300); (700, OReap [])] (d_table demo_state)) as (r' & Hr' & Hs & Ho & _);
    [reflexivity..| | |].
  - repeat split.
  - split; [lia|]. left. split; [reflexivity|]. split; [lia|]. right. do 2 (split; [exact I|]). split; [lia|]. right. do 2 (split; [exact I|]).
    split; [lia|]. left. split; [reflexivity|]. split; [lia|]. right. repeat split.
  - exists r'. split_and!; [exact Hr'|exact Hs|exact Ho].
Defined.

(** The claim returns [inputs] as JSON text, so the follow-on of a dispatched task
    loses its inputs and starts counting hops again: at depth 1, for ever. *)
Lemma text_inputs_reset_depth `{PyRuntime} s pl :
  route_inputs (passed_inputs true s) pl = Some (dict_set ROUTE_DEPTH_KEY (VInt 1) (dict_merge [] pl)).
Proof. done. Qed.

(** The mapping the sweep consults is empty: it changes nothing. *)
Lemma sweep_is_idle jt pa now ty c err (tbl : table) : sweep_dead_capability_rows jt pa now ty c err tbl = tbl.
Proof. by destruct ty. Qed.

(** A refused task is never dead-lettered: its row is ACTIVE by then. *)
Lemma refused_never_dead_lettered jt pa now id s c err (tbl : table) r :
  tbl !! id = Some r -> status r = ACTIVE -> maybe_dlq_unclaimable jt pa now id s c err tbl = (false, tbl).
Proof.
  intros Hr Hs. unfold maybe_dlq_unclaimable. destruct (_ || _); [done|]. unfold dlq_unclaimable, update_where. rewrite Hr, Hs.
  by rewrite andb_false_r.
Qed.

(** A reconcile on read leaves a new attempt alone: if the row has changed hands since
    it was fetched, at most its lease is renewed. *)
Lemma reconcile_leaves_new_attempt cap now ext id task err probe (tbl : table) r o :
  tbl !! id = Some r -> owner_id task = Some o -> owner_id r <> Some o ->
  exists r', (reconcile_task_liveness cap now ext id task err probe tbl).2 !! id = Some r' /\
    status r' = status r /\ owner_id r' = owner_id r /\ retry_count r' = retry_count r /\ outputs r' = outputs r.
Proof.
  intros Hr Ho Hne. unfold reconcile_task_liveness. rewrite Ho.
  destruct (negb _); [by exists r|]. destruct (negb _); [by exists r|]. destruct probe as [v|]; [|by exists r].
  assert (Hg : forall c, guards (Some o) c r = false).
  { intros c. unfold guards. simpl. destruct (owner_id r) as [o'|]; [|done]. simpl. by destruct (String.eqb_spec o' o) as [->|]. }
  destruct (decide_verdict_action v).
  - destruct (heartbeat_task_if_active now id ext (Some (timestamp (spec task))) tbl) as [[] tbl'] eqn:E; simpl; [|by exists r].
    apply update_where_true in E as (r0 & Hr0 & _ & ->). rewrite lookup_insert_eq. eexists. split; [done|]. by simplify_eq.
  - unfold fail_task, update_where. rewrite Hr, Hg. by exists r.
  - unfold complete_task, update_where. rewrite Hr, Hg. by exists r.
  - by exists r.
Qed.
