(* ===== verification/TaskListing.v ===== *)
(** * Listing tasks page by page

    [list_tasks], [list_tasks_system] and [list_dead_letter_tasks] of
    [modules/tasks], and the page helper [_to_task_page] of the tasks extension.
    A cursor is the pair of timestamp and id it encodes; its base64 text is not
    modelled. *)

From S2P Require Import Prelude TaskQueue.

Abbreviation cursor := (Z * Z)%type.

Definition key (kv : Z * row) : cursor := (timestamp (spec kv.2), kv.1).

(** [(timestamp, task_id) < (c_ts, c_id)]. *)
Definition cursor_lt (a b : cursor) : bool := (a.1 <? b.1) || ((a.1 =? b.1) && (a.2 <? b.2)).

Definition newest_first (a b : Z * row) : Prop := cursor_lt (key a) (key b) = false.
Definition oldest_first (a b : Z * row) : Prop := cursor_lt (key b) (key a) = false.

#[global] Instance newest_first_dec a b : Decision (newest_first a b).
Proof. unfold newest_first. apply _. Defined.
#[global] Instance oldest_first_dec a b : Decision (oldest_first a b).
Proof. unfold oldest_first. apply _. Defined.

(** The rows that match, in order. *)
Definition sorted_rows (R : Z * row -> Z * row -> Prop) `{!forall a b, Decision (R a b)} (p : row -> bool) (tbl : table)
    : list (Z * row) :=
  merge_sort R (List.filter (fun kv => p kv.2) (map_to_list tbl)).

(** The optional filters of the routes. *)
Record task_filters : Type := mkFilters {
  f_kind : option string;
  f_status : option task_status;
  f_task_type : option string;
  f_collection_id : option string;
  f_asset_id : option string;
  f_created_before : option Z;
}.

Definition filters_match (jsonb_text : pyval -> option string) (f : task_filters) (r : row) : bool :=
  optional (f_kind f) (fun k => kind (spec r) ==s k)
  && optional (f_status f) (fun st => bool_decide (status r = st))
  && optional (f_task_type f) (fun t => task_type (spec r) ==s t)
  && optional (f_collection_id f) (sql_eq (collection_id (spec r)))
  && optional (f_asset_id f) (fun a => match dict_get "asset_id" (inputs (spec r)) with
                                       | Some v => sql_eq (jsonb_text v) a
                                       | None => false
                                       end)
  && optional (f_created_before f) (fun t => timestamp (spec r) <? t).

Definition list_tasks (jsonb_text : pyval -> option string) (schema : string) (f : task_filters) (limit offset : nat)
    (c : option cursor) (tbl : table) : list (Z * row) :=
  let rows := sorted_rows newest_first (fun r => (catalog_id (spec r) ==s schema) && filters_match jsonb_text f r) tbl in
  match c with
  | Some c => take limit (List.filter (fun kv => cursor_lt (key kv) c) rows)
  | None => take limit (drop offset rows)
  end.

Definition list_tasks_system (jsonb_text : pyval -> option string) (f : task_filters) (limit : nat)
    (c : option cursor) (tbl : table) : list (Z * row) :=
  let rows := sorted_rows newest_first (fun r => str_mem (catalog_id (spec r)) ["system"; "platform"]
                                             && filters_match jsonb_text f r) tbl in
  match c with
  | Some c => take limit (List.filter (fun kv => cursor_lt (key kv) c) rows)
  | None => take limit rows
  end.

Definition list_dead_letter_tasks (cat col ty : option string) (limit : nat) (c : option cursor) (tbl : table)
    : list (Z * row) :=
  let rows := sorted_rows oldest_first (fun r => bool_decide (status r = DEAD_LETTER) && tenant_guard cat col r
                                             && optional ty (fun t => task_type (spec r) ==s t)) tbl in
  match c with
  | Some c => take limit (List.filter (fun kv => cursor_lt c (key kv)) rows)
  | None => take limit rows
  end.

(** [_to_task_page]: the page, and the cursor of the row after it. *)
Definition to_task_page (rows : list (Z * row)) (limit : nat) : list (Z * row) * option cursor :=
  match drop limit rows with
  | next :: _ => (take limit rows, Some (key next))
  | [] => (rows, None)
  end.

(** A client that follows [next_cursor]: [fetch] is one of the listings, asked for
    [limit + 1] rows. *)
Fixpoint walk_pages (fuel limit : nat) (fetch : option cursor -> list (Z * row)) (c : option cursor) : list (Z * row) :=
  match fuel with
  | O => []
  | S fuel =>
      let '(page, next) := to_task_page (fetch c) limit in
      page ++ match next with Some c => walk_pages fuel limit fetch (Some c) | None => [] end
  end.

(** ** The order *)

Lemma cursor_lt_spec a b : cursor_lt a b = true <-> a.1 < b.1 \/ (a.1 = b.1 /\ a.2 < b.2).
Proof.
  unfold cursor_lt. rewrite orb_true_iff, andb_true_iff, Z.ltb_lt, Z.eqb_eq, Z.ltb_lt. done.
Qed.

Lemma cursor_lt_false a b : cursor_lt a b = false <-> b.1 < a.1 \/ (a.1 = b.1 /\ b.2 <= a.2).
Proof. rewrite <-not_true_iff_false, cursor_lt_spec. lia. Qed.

#[global] Instance newest_first_trans : Transitive newest_first.
Proof. intros a b c. unfold newest_first. rewrite !cursor_lt_false. lia. Qed.
#[global] Instance newest_first_total : Total newest_first.
Proof. intros a b. unfold newest_first. rewrite !cursor_lt_false. lia. Qed.
#[global] Instance oldest_first_trans : Transitive oldest_first.
Proof. intros a b c. unfold oldest_first. rewrite !cursor_lt_false. lia. Qed.
#[global] Instance oldest_first_total : Total oldest_first.
Proof. intros a b. unfold oldest_first. rewrite !cursor_lt_false. lia. Qed.

(** In a listing the keys are strictly ordered: ids are distinct. *)
Lemma listing_strict R `{!forall a b, Decision (R a b), !Transitive R, !Total R} (lt : cursor -> cursor -> Prop) p (tbl : table) :
  (forall a b, R a b -> a.1 <> b.1 -> lt (key a) (key b)) ->
  StronglySorted (fun a b => lt (key a) (key b)) (sorted_rows R p tbl).
Proof.
  intros Hlt. unfold sorted_rows. set (l := List.filter _ _).
  assert (Hnd : NoDup (map fst (merge_sort R l))).
  { rewrite merge_sort_Permutation. unfold l. pose proof (NoDup_fst_map_to_list tbl) as Hd.
    induction (map_to_list tbl) as [|x xs IH]; [constructor|]. simpl in *. apply NoDup_cons in Hd as [Hx Hd].
    destruct (p x.2); simpl; [|by apply IH]. apply NoDup_cons. split; [|by apply IH].
    intros (y & Hy & Hin)%list_elem_of_fmap. apply Hx. rewrite Hy. apply list_elem_of_fmap. exists y. split; [done|].
    apply list_elem_of_In in Hin. apply List.filter_In in Hin as [Hin _]. by apply list_elem_of_In. }
  pose proof (StronglySorted_merge_sort R l) as Hs. induction Hs as [|x xs Hs IH Hx]; [constructor|].
  simpl in Hnd. apply NoDup_cons in Hnd as [Hn Hnd]. constructor; [by apply IH|].
  apply Forall_forall. intros y Hy. apply Hlt; [by apply (proj1 (Forall_forall _ _) Hx)|].
  intros Heq. apply Hn. rewrite Heq. by apply list_elem_of_fmap_2.
Qed.

(** Filtering behind the key of a row leaves exactly the rows after it. *)
Lemma filter_after (lt : cursor -> cursor -> bool) (a b : list (Z * row)) x :
  (forall u v, lt u v = true -> lt v u = false) -> (forall u, lt u u = false) ->
  StronglySorted (fun u v => lt (key u) (key v) = true) (a ++ x :: b) ->
  List.filter (fun kv => lt (key x) (key kv)) (a ++ x :: b) = b.
Proof.
  intros Hasym Hirr Hs. rewrite List.filter_app. simpl. rewrite Hirr.
  assert (Ha : List.filter (fun kv => lt (key x) (key kv)) a = []).
  { induction a as [|y a IH]; [done|]. simpl in Hs. apply StronglySorted_inv in Hs as [Hs Hy]. simpl.
    rewrite Forall_forall in Hy. rewrite (Hasym _ _ (Hy x ltac:(apply elem_of_app; right; left))). by apply IH. }
  rewrite Ha. simpl. clear Ha.
  assert (Hb : Forall (fun kv => lt (key x) (key kv) = true) b).
  { induction a as [|y a IH]; [by apply StronglySorted_inv in Hs as [_ ?]|]. simpl in Hs. apply StronglySorted_inv in Hs as [Hs _]. by apply IH. }
  clear Hs. induction Hb as [|y b Hy _ IH]; [done|]. simpl. by rewrite Hy, IH.
Qed.

(** ** Resuming a listing *)

(** What the three listings share. *)
Definition keyset (lt : cursor -> cursor -> bool) (rows : list (Z * row)) (n : nat) (c : option cursor) : list (Z * row) :=
  match c with
  | Some c => take n (List.filter (fun kv => lt c (key kv)) rows)
  | None => take n rows
  end.

Definition cursor_gt (a b : cursor) : bool := cursor_lt b a.

Lemma cursor_asym u v : cursor_lt u v = true -> cursor_lt v u = false.
Proof. rewrite cursor_lt_spec, cursor_lt_false. lia. Qed.
Lemma cursor_irr u : cursor_lt u u = false.
Proof. rewrite cursor_lt_false. lia. Qed.

Lemma newest_strict p (tbl : table) :
  StronglySorted (fun u v => cursor_gt (key u) (key v) = true) (sorted_rows newest_first p tbl).
Proof.
  apply (listing_strict newest_first (fun a b => cursor_gt a b = true)). intros a b Hab Hne.
  unfold newest_first, cursor_gt, key in *. rewrite cursor_lt_false in Hab. rewrite cursor_lt_spec. simpl in *. lia.
Qed.

Lemma oldest_strict p (tbl : table) :
  StronglySorted (fun u v => cursor_lt (key u) (key v) = true) (sorted_rows oldest_first p tbl).
Proof.
  apply (listing_strict oldest_first (fun a b => cursor_lt a b = true)). intros a b Hab Hne.
  unfold oldest_first, key in *. rewrite cursor_lt_false in Hab. rewrite cursor_lt_spec. simpl in *. lia.
Qed.

(** A listing resumed at the cursor of one of its rows goes on with exactly the
    rows after it, in order, none lost and none repeated: for the tasks of a catalog and
    of the platform, newest first, and for the dead-letter queue, oldest first. *)
Theorem keyset_resume jt schema f n o (tbl : table) a x b :
  (sorted_rows newest_first (fun r => (catalog_id (spec r) ==s schema) && filters_match jt f r) tbl = a ++ x :: b ->
   list_tasks jt schema f n o (Some (key x)) tbl = take n b) /\
  (sorted_rows newest_first (fun r => str_mem (catalog_id (spec r)) ["system"; "platform"] && filters_match jt f r) tbl
     = a ++ x :: b ->
   list_tasks_system jt f n (Some (key x)) tbl = take n b) /\
  (forall cat col ty,
   sorted_rows oldest_first (fun r => bool_decide (status r = DEAD_LETTER) && tenant_guard cat col r
                                  && optional ty (fun t => task_type (spec r) ==s t)) tbl = a ++ x :: b ->
   list_dead_letter_tasks cat col ty n (Some (key x)) tbl = take n b).
Proof.
  split_and!; [intros Hl..|intros cat col ty Hl].
  - unfold list_tasks. rewrite Hl. f_equal. apply (filter_after cursor_gt); [intros u v; apply cursor_asym|apply cursor_irr|].
    rewrite <-Hl. apply newest_strict.
  - unfold list_tasks_system. rewrite Hl. f_equal.
    apply (filter_after cursor_gt); [intros u v; apply cursor_asym|apply cursor_irr|]. rewrite <-Hl. apply newest_strict.
  - unfold list_dead_letter_tasks. rewrite Hl. f_equal.
    apply (filter_after cursor_lt); [apply cursor_asym|apply cursor_irr|]. rewrite <-Hl. apply oldest_strict.
Qed.

(** ** Following the cursors *)

(** Pages of [limit] rows with one row left out between two pages. *)
Fixpoint pages_kept (fuel limit : nat) (l : list (Z * row)) : list (Z * row) :=
  match fuel with
  | O => []
  | S fuel => take limit l ++ match drop limit l with [] => [] | _ :: rest => pages_kept fuel limit rest end
  end.

Lemma walk_keyset lt rows limit :
  (forall u v, lt u v = true -> lt v u = false) -> (forall u, lt u u = false) ->
  StronglySorted (fun u v => lt (key u) (key v) = true) rows ->
  forall fuel a b c, rows = a ++ b -> (length b < fuel)%nat ->
    (forall n, keyset lt rows n c = take n b) ->
    walk_pages fuel limit (keyset lt rows (S limit)) c = pages_kept fuel limit b.
Proof.
  intros Hasym Hirr Hs fuel. induction fuel as [|fuel IH]; intros a b c Hrows Hlen Hc; [lia|]. cbn [walk_pages pages_kept].
  rewrite Hc. unfold to_task_page. destruct (drop limit b) as [|x rest] eqn:Ed.
  - assert (length b <= limit)%nat as Hle by (apply (f_equal length) in Ed; rewrite length_drop in Ed; simpl in Ed; lia).
    rewrite take_ge by lia. rewrite Ed. by rewrite (take_ge b) by lia.
  - assert (Hb : b = take limit b ++ x :: rest) by by rewrite <-Ed, take_drop.
    assert (Hl : length (take limit b) = limit).
    { rewrite length_take. apply (f_equal length) in Ed. rewrite length_drop in Ed. simpl in Ed. lia. }
    assert (Ht : take (S limit) b = take limit b ++ [x]).
    { rewrite Hb at 1. rewrite take_app, Hl. rewrite take_ge by lia. by replace (S limit - limit)%nat with 1%nat by lia. }
    rewrite Ht, drop_app_length' by done. rewrite take_app_length' by done. f_equal.
    apply (IH (a ++ take limit b ++ [x]) rest).
    + rewrite Hrows, Hb at 1. by rewrite <-!app_assoc.
    + apply (f_equal length) in Hb. rewrite length_app in Hb. simpl in Hb. lia.
    + intros n. unfold keyset. f_equal. rewrite Hrows, Hb, app_assoc. apply filter_after; [done|done|].
      rewrite <-app_assoc, <-Hb, <-Hrows. done.
Qed.

Lemma pages_kept_length fuel limit l : (limit < length l)%nat -> (length (pages_kept fuel limit l) < length l)%nat.
Proof.
  assert (Hle : forall fuel l, (length (pages_kept fuel limit l) <= length l)%nat).
  { clear. induction fuel as [|fuel IH]; intros l; simpl; [lia|]. rewrite length_app.
    destruct (drop limit l) as [|x rest] eqn:E; [rewrite length_take; simpl; lia|].
    specialize (IH rest). apply (f_equal length) in E. rewrite length_drop in E. simpl in E. rewrite length_take. lia. }
  intros Hl. destruct fuel as [|fuel]; simpl; [lia|]. rewrite length_app.
  destruct (drop limit l) as [|x rest] eqn:E; apply (f_equal length) in E; rewrite length_drop in E; simpl in E; [lia|].
  specialize (Hle fuel rest). rewrite length_take. lia.
Qed.

(** A client that follows the page cursors is done after finitely many requests
    and sees the listing in pages of [limit] rows with one row missing between two pages:
    the cursor names the first row of the next page, and the next request asks for rows
    strictly after it.  More than one page never shows every task. *)
Theorem task_pages_walk jt schema f limit (tbl : table) :
  let rows := sorted_rows newest_first (fun r => (catalog_id (spec r) ==s schema) && filters_match jt f r) tbl in
  walk_pages (S (length rows)) limit (fun c => list_tasks jt schema f (S limit) 0 c tbl) None
    = pages_kept (S (length rows)) limit rows /\
  ((limit < length rows)%nat ->
   (length (walk_pages (S (length rows)) limit (fun c => list_tasks jt schema f (S limit) 0 c tbl) None) < length rows)%nat).
Proof.
  intros rows.
  assert (H : walk_pages (S (length rows)) limit (fun c => list_tasks jt schema f (S limit) 0 c tbl) None
              = pages_kept (S (length rows)) limit rows).
  { apply (walk_keyset cursor_gt rows limit) with (a := []); [intros u v; apply cursor_asym|apply cursor_irr|apply newest_strict|done|lia|done]. }
  split; [done|]. intros Hl. rewrite H. by apply pages_kept_length.
Qed.

(** Five tasks, two to a page: the third is never shown. *)
Definition five_tasks : table :=
  list_to_map (map (fun i => (i, fresh_row (mkSpec "c1" "CATALOG" None "t" "task" "ASYNCHRONOUS" [] i None None 3) PENDING None None None))
                 [1; 2; 3; 4; 5]).
Definition no_filters : task_filters := mkFilters None None None None None None.

Example third_task_lost :
  map fst (walk_pages 10 2 (fun c => list_tasks (fun _ => None) "c1" no_filters 3 0 c five_tasks) None) = [5; 4; 2; 1].
Proof. vm_compute. reflexivity. Qed.

(** Witness of [keyset_resume]. *)
Lemma keyset_resume_witness :
  exists x b, map fst b = [3; 2; 1] /\ list_tasks (fun _ => None) "c1" no_filters 10 0 (Some (key x)) five_tasks = take 10 b.
Proof.
  assert (exists a x b, sorted_rows newest_first (fun r => (catalog_id (spec r) ==s "c1") && filters_match (fun _ => None) no_filters r) five_tasks
                        = a ++ x :: b /\ map fst b = [3; 2; 1]) as (a & x & b & Hl & Hb).
  { eexists [_], _, _. split; vm_compute; reflexivity. }
  exists x, b. split; [exact Hb|]. exact (proj1 (keyset_resume (fun _ => None) "c1" no_filters 10 0 five_tasks a x b) Hl).
Defined.

(** Witness of [task_pages_walk]. *)
Lemma task_pages_walk_witness :
  (length (walk_pages 6 2 (fun c => list_tasks (fun _ => None) "c1" no_filters 3 0 c five_tasks) None) < 5)%nat.
Proof.
  apply (proj2 (task_pages_walk (fun _ => None) "c1" no_filters 2 five_tasks)). vm_compute. lia.
Defined.
