(* ===== verification/StoragePlane.v ===== *)
(** * The storage plane: obligations to index

    Every write of an item leaves an obligation in the table [tasks.storage]
    ([modules/tasks/workclass_ddl.py]): a row that names the item, or the write
    batch, that a secondary index still has to take over.  This file has the
    producers ([modules/storage/storage_emit.py], the record builder and the
    item-tier enqueue of [index_dispatcher.py]) and the row-level statements of the
    drain ([tasks/workclass_drain/storage_drain_task.py]): the claim and the three
    fenced terminal writes.  [StorageDrain] has the drain itself.

    The primary key is [(day, op_id)]; op ids are UUIDv7, unique by construction.
    Each operation is one statement or one transaction; [now] is its clock in
    seconds, [locked] the keys [SKIP LOCKED] passes over. *)

From S2P Require Import Prelude TaskQueue.

(** ** Rows *)

Inductive sstatus : Type := SReady | SInFlight | SDone | SDead.

#[global] Instance sstatus_eq_dec : EqDecision sstatus.
Proof. solve_decision. Defined.

(** The columns set at insertion. *)
Record obligation : Type := mkOb {
  o_catalog : string;
  o_driver : string;
  o_collection : option string;
  o_kind : string;
  o_entity : option string;
  o_op : string;
  o_write : option string;
  o_key : option string;
  o_created : Z;
}.

Record srow : Type := mkS {
  ob : obligation;
  s_status : sstatus;
  ready_at : Z;
  claim_version : Z;
  claimed_by : option string;
  claimed_at : option Z;
  attempts : Z;
  s_finished : option Z;
}.

Abbreviation skey := (Z * Z)%type.
Abbreviation stable := (gmap (Z * Z) srow).

(** The column defaults of a new row. *)
Definition fresh_srow (now : Z) (o : obligation) : srow := mkS o SReady now 0 None None 0 None.

(** [CURRENT_DATE], in days. *)
Definition day_of (now : Z) : Z := now / 86400.

(** ** Dictionaries with tuple keys *)

Section dict.
Context {K V : Type} `{EqDecision K}.

(** [d[k] = v] keeps the position of a key that is there. *)
Fixpoint kv_set (k : K) (v : V) (d : list (K * V)) : list (K * V) :=
  match d with
  | [] => [(k, v)]
  | (k', v') :: d => if decide (k = k') then (k', v) :: d else (k', v') :: kv_set k v d
  end.

(** [d.setdefault(k, []).append(v)]. *)
Fixpoint kv_append (k : K) (v : V) (d : list (K * list V)) : list (K * list V) :=
  match d with
  | [] => [(k, [v])]
  | (k', vs) :: d => if decide (k = k') then (k', vs ++ [v]) :: d else (k', vs) :: kv_append k v d
  end.
End dict.

(** ** Producers *)

Record OutboxRecord : Type := mkOutbox {
  ob_op_id : Z;
  ob_driver : string;
  ob_instance : string;
  ob_collection : string;
  ob_op : string;
  ob_item : option string;
  ob_idem : string;
}.

Record WriteIdOutboxRecord : Type := mkWriteOutbox {
  wo_op_id : Z;
  wo_driver : string;
  wo_instance : string;
  wo_collection : string;
  wo_op : string;
  wo_write : string;
  wo_idem : string;
}.

(** [_enqueue_storage_id_only]. *)
Definition enqueue_storage_id_only (now : Z) (cat : string) (rows : list OutboxRecord) (tbl : stable) : stable :=
  fold_left (fun tbl r =>
    <[(day_of now, ob_op_id r) :=
        fresh_srow now (mkOb cat (ob_driver r) (Some (ob_collection r)) "item" (ob_item r) (ob_op r) None
                          (Some (ob_idem r)) now)]> tbl) rows tbl.

(** [_enqueue_storage_write_id]. *)
Definition enqueue_storage_write_id (now : Z) (cat : string) (rows : list WriteIdOutboxRecord) (tbl : stable) : stable :=
  fold_left (fun tbl r =>
    <[(day_of now, wo_op_id r) :=
        fresh_srow now (mkOb cat (wo_driver r) (Some (wo_collection r)) "item" None (wo_op r) (Some (wo_write r))
                          (Some (wo_idem r)) now)]> tbl) rows tbl.

Definition id_only_key (r : OutboxRecord) : string * string * option string := (ob_driver r, ob_collection r, ob_item r).
Definition write_id_key (r : WriteIdOutboxRecord) : string * string * string * string :=
  (wo_driver r, wo_collection r, wo_op r, wo_write r).

Definition coalesce_by {K V} `{EqDecision K} (key : V -> K) (rows : list V) : list V :=
  map snd (fold_left (fun d r => kv_set (key r) r d) rows []).

(** [_coalesce_id_only_rows] and [_coalesce_write_id_rows]: the last record of a
    key, at the place of the first. *)
Definition coalesce_id_only_rows : list OutboxRecord -> list OutboxRecord := coalesce_by id_only_key.
Definition coalesce_write_id_rows : list WriteIdOutboxRecord -> list WriteIdOutboxRecord := coalesce_by write_id_key.

(** The rows of the task table that keep [_enqueue_drain_trigger] from inserting.
    With a grace window, a PENDING row older than the window and an ACTIVE row
    whose lease has run out do not. *)
Definition trigger_blocked (now : Z) (wedge : option Z) (key : string) (r : row) : bool :=
  sql_eq (dedup_key (spec r)) key && (catalog_id (spec r) ==s "platform")
  && negb (in_statuses [COMPLETED; FAILED; DISMISSED; DEAD_LETTER] r)
  && match wedge with
     | None => true
     | Some grace =>
         (bool_decide (status r = PENDING) && (now - grace <? timestamp (spec r)))
         || (bool_decide (status r = ACTIVE) && match locked_until r with Some t => now <? t | None => false end)
         || negb (in_statuses [PENDING; ACTIVE] r)
     end.

(** [_enqueue_drain_trigger]. *)
Definition enqueue_drain_trigger (now new_id : Z) (wedge : option Z) (ty key : string) (tasks : table) : table :=
  if table_exists (trigger_blocked now wedge key) tasks then tasks
  else <[new_id := fresh_row (mkSpec "platform" "platform" None ty "task" "ASYNCHRONOUS" [] now None (Some key)
                                DEFAULT_MAX_RETRIES) PENDING None None None]> tasks.

(** [enqueue_storage_op_id_only] and [enqueue_storage_op_write_id]: the rows and the
    trigger, in the caller's transaction. *)
Definition enqueue_storage_op_id_only (now trigger_id : Z) (cat : string) (rows : list OutboxRecord)
    (db : stable * table) : stable * table :=
  match coalesce_id_only_rows rows with
  | [] => db
  | rs => (enqueue_storage_id_only now cat rs db.1,
           enqueue_drain_trigger now trigger_id None "storage_drain" "storage_drain" db.2)
  end.

Definition enqueue_storage_op_write_id (now trigger_id : Z) (cat : string) (rows : list WriteIdOutboxRecord)
    (db : stable * table) : stable * table :=
  match coalesce_write_id_rows rows with
  | [] => db
  | rs => (enqueue_storage_write_id now cat rs db.1,
           enqueue_drain_trigger now trigger_id None "storage_drain" "storage_drain" db.2)
  end.

(** *** The dispatcher's side *)

Record IndexOp : Type := mkIndexOp {
  op_type : string;
  entity_type : string;
  entity_id : string;
  op_write_id : option string;
}.

(** The payload is a JSON document. *)
Record IndexableOp : Type := mkOp {
  i_op_id : Z;
  i_op : string;
  i_catalog : string;
  i_collection : string;
  i_instance : string;
  i_item : option string;
  i_payload : pyval;
  i_key : string;
}.

Inductive DispatchableOp : Type := DIndexOp (o : IndexOp) | DIndexableOp (o : IndexableOp).

Definition dop_kind (o : DispatchableOp) : string :=
  match o with DIndexOp o => op_type o | DIndexableOp o => i_op o end.
Definition dop_entity_id (o : DispatchableOp) : string :=
  match o with DIndexOp o => entity_id o | DIndexableOp o => default "" (i_item o) end.
(** [_op_write_id]: only [IndexOp] has the attribute. *)
Definition dop_write_id (o : DispatchableOp) : option string :=
  match o with
  | DIndexOp o => match op_write_id o with Some w => if w ==s "" then None else Some w | None => None end
  | DIndexableOp _ => None
  end.

(** [_build_storage_plane_records]; each op comes with the id generated for it. *)
Fixpoint build_storage_plane_records (instance driver collection : string) (write_id_supported : bool)
    (ops : list (Z * DispatchableOp)) : list WriteIdOutboxRecord * list OutboxRecord :=
  match ops with
  | [] => ([], [])
  | (id, o) :: ops =>
      let '(ws, ios) := build_storage_plane_records instance driver collection write_id_supported ops in
      match if write_id_supported then dop_write_id o else None with
      | Some w => (mkWriteOutbox id driver instance collection (dop_kind o) w w :: ws, ios)
      | None => (ws, mkOutbox id driver instance collection (dop_kind o) (Some (dop_entity_id o)) (dop_entity_id o) :: ios)
      end
  end.

(** [_enqueue_storage_plane_ids]: the count it reports and the tables.  [conn] says
    whether the caller has a transaction or a factory for one, [raises] whether the
    database call raised, which undoes it. *)
Definition enqueue_storage_plane_ids (now t1 t2 : Z) (conn raises : bool) (instance driver cat collection : string)
    (write_id_supported : bool) (ops : list (Z * DispatchableOp)) (db : stable * table) : Z * (stable * table) :=
  match ops with
  | [] => (0, db)
  | _ =>
      let '(ws, ios) := build_storage_plane_records instance driver collection write_id_supported ops in
      if negb conn || raises then (0, db)
      else (Z.of_nat (length ws + length ios),
            enqueue_storage_op_id_only now t2 cat ios (enqueue_storage_op_write_id now t1 cat ws db))
  end.

(** ** The drain's statements *)

(** The condition of [_claim_batch]. *)
Definition s_claimable (now lease : Z) (r : srow) : bool :=
  (bool_decide (s_status r = SReady) && (ready_at r <=? now))
  || (bool_decide (s_status r = SInFlight) && sql_lt (claimed_at r) (now - lease)).

(** [ORDER BY ready_at, op_id]; the day separates equal op ids. *)
Definition s_order (a b : skey * srow) : Prop :=
  ready_at a.2 < ready_at b.2 \/ ready_at a.2 = ready_at b.2 /\ (a.1.2 < b.1.2 \/ a.1.2 = b.1.2 /\ a.1.1 <= b.1.1).

#[global] Instance s_order_dec a b : Decision (s_order a b).
Proof. unfold s_order. apply _. Defined.

Definition s_batch (now lease : Z) (n : nat) (locked : list skey) (tbl : stable) : list (skey * srow) :=
  take n (merge_sort s_order
            (List.filter (fun kv => s_claimable now lease kv.2 && negb (bool_decide (kv.1 ∈ locked))) (map_to_list tbl))).

Definition s_claim (now : Z) (owner : string) (r : srow) : srow :=
  mkS (ob r) SInFlight (ready_at r) (claim_version r + 1) (Some owner) (Some now) (attempts r) (s_finished r).

(** [_claim_batch]: the claimed rows as [RETURNING] gives them, and the table. *)
Definition s_claim_batch (now lease : Z) (owner : string) (n : nat) (locked : list skey) (tbl : stable)
    : list (skey * srow) * stable :=
  let rows := map (fun kv => (kv.1, s_claim now owner kv.2)) (s_batch now lease n locked tbl) in
  (rows, fold_left (fun t kv => <[kv.1 := kv.2]> t) rows tbl).
Arguments s_claim_batch : simpl never.

Definition BACKOFF_SECONDS : list Z := [1; 5; 30; 5 * 60; 30 * 60].

(** [_backoff]. *)
Definition backoff (n : Z) : Z := nth (Z.to_nat (Z.min n 4)) BACKOFF_SECONDS 0.

(** [UPDATE ... WHERE claimed_by = owner AND claim_version = v]. *)
Definition s_cas (k : skey) (owner : string) (v : Z) (f : srow -> srow) (tbl : stable) : stable :=
  match tbl !! k with
  | Some r => if sql_eq (claimed_by r) owner && (claim_version r =? v) then <[k := f r]> tbl else tbl
  | None => tbl
  end.

Definition set_s_done (now : Z) (r : srow) : srow :=
  mkS (ob r) SDone (ready_at r) (claim_version r) (claimed_by r) (claimed_at r) (attempts r) (Some now).
Definition set_s_dead (now : Z) (r : srow) : srow :=
  mkS (ob r) SDead (ready_at r) (claim_version r) (claimed_by r) (claimed_at r) (attempts r) (Some now).
Definition set_s_retry (now delay : Z) (r : srow) : srow :=
  mkS (ob r) SReady (now + delay) (claim_version r) None None (attempts r + 1) (s_finished r).

(** [_mark_done], [_mark_retry] and [_mark_dead] of a row as claimed. *)
Definition mark_done (now : Z) (owner : string) (kv : skey * srow) (tbl : stable) : stable :=
  s_cas kv.1 owner (claim_version kv.2) (set_s_done now) tbl.
Definition mark_retry (now : Z) (owner : string) (kv : skey * srow) (tbl : stable) : stable :=
  s_cas kv.1 owner (claim_version kv.2) (set_s_retry now (backoff (attempts kv.2))) tbl.
Definition mark_dead (now : Z) (owner : string) (kv : skey * srow) (tbl : stable) : stable :=
  s_cas kv.1 owner (claim_version kv.2) (set_s_dead now) tbl.

(** [_storage_backlog_exists] of the drain spawner. *)
Definition storage_backlog_exists (now : Z) (tbl : stable) : bool :=
  existsb (fun kv => s_claimable now 300 kv.2) (map_to_list tbl).

(** [_offload_drain_is_active]; a failed probe counts as inactive. *)
Definition offload_drain_is_active (now : Z) (tasks : table) : bool :=
  table_exists (fun r => sql_eq (dedup_key (spec r)) "storage_drain_offload" && (catalog_id (spec r) ==s "platform")
                         && bool_decide (status r = ACTIVE)
                         && match locked_until r with Some t => now <? t | None => false end) tasks.
