(* ===== verification/StorageIndexer.v ===== *)
(** * Writing a batch to Elasticsearch

    The classifier of bulk responses ([modules/elasticsearch/bulk_classify.py]), the
    degradation ladder for rejected geometries ([geo_shape_ladder.py]) and the
    adapter that the drain uses ([tasks/workclass_drain/es_indexer_adapter.py]).

    The cluster is the class [EsCluster]: a document lives at an index, a routing key
    and an id.  Its laws are those of the bulk API: items of the response stand in the
    order of the actions and repeat their ids, a status of 2xx without an error means
    that the action was applied, later actions on the same id see the earlier ones,
    and a document changes only by an action on its id.  Geometry functions (simplification, the rungs of
    the ladder) are arguments. *)

From S2P Require Import Prelude TaskQueue StoragePlane.

(** ** Classification of a response *)

Inductive bucket : Type := BPassed | BTransient | BPoison.

Definition MAX_REASON_LEN : nat := 2000.
Definition MAX_CAUSED_BY_DEPTH : nat := 5.

Definition TRANSIENT_ERROR_TYPES : list string :=
  ["es_rejected_execution_exception"; "cluster_block_exception"; "circuit_breaking_exception";
   "node_not_connected_exception"; "process_cluster_event_timeout_exception"].

Definition POISON_ERROR_TYPES : list string :=
  ["mapper_parsing_exception"; "illegal_argument_exception"; "version_conflict_engine_exception";
   "document_missing_exception"; "type_missing_exception"; "invalid_shape_exception"].

(** [s[:n]]. *)
Fixpoint str_take (n : nat) (s : string) : string :=
  match n, s with
  | S n, String a s => String a (str_take n s)
  | _, _ => ""
  end.

(** [raw_item.values()]'s first, for a dictionary with an entry. *)
Definition first_value (v : pyval) : pyval :=
  match v with VDict ((_, x) :: _) => x | _ => VDict [] end.

(** [entry.get(k, dflt) if isinstance(entry, dict) else dflt]. *)
Definition entry_get (entry : pyval) (k : string) (dflt : pyval) : pyval :=
  match entry with VDict d => cfg_get_or d k dflt | _ => dflt end.

(** [a or b]. *)
Definition py_or (a b : pyval) : pyval := if truthy a then a else b.

(** Whether a value can be looked up in a set or a dictionary. *)
Definition hashable (v : pyval) : bool := match v with VList _ | VDict _ => false | _ => true end.

(** [v in frozenset]: [None] is the [TypeError] of an unhashable value. *)
Definition in_types (v : pyval) (l : list string) : option bool :=
  if hashable v then Some (match v with VStr s => str_mem s l | _ => false end) else None.

Section classify.
Context `{PyRuntime}.

Fixpoint caused_by (depth : nat) (node : pyval) : list string :=
  match depth, node with
  | S depth, VDict d =>
      (py_str (cfg_get_or d "type" (VStr "unknown")) +:+ ": " +:+ py_str (cfg_get_or d "reason" (VStr "no reason")))
      :: caused_by depth (cfg_get d "caused_by")
  | _, _ => []
  end.

(** [_format_error_reason]. *)
Definition format_error_reason (error : pyval) : string :=
  match error with
  | VDict _ =>
      let text := str_join " | caused by: " (caused_by MAX_CAUSED_BY_DEPTH error) in
      if (MAX_REASON_LEN <? String.length text)%nat then str_take MAX_REASON_LEN text +:+ "...(truncated)" else text
  | VNone => "no reason"
  | _ => py_str error
  end.

(** One entry of the response; [None] where the code raises ([int(status)], an
    unhashable error type). *)
Definition classify_item (raw : option pyval) (doc_id : string) : option (bucket * pyval * string) :=
  match raw with
  | None | Some VNone => Some (BTransient, VStr doc_id, "no bulk response entry for submitted id (truncated response)")
  | Some raw =>
      let entry := first_value raw in
      let status := entry_get entry "status" (VInt 200) in
      let error := entry_get entry "error" VNone in
      let item_id := py_or (entry_get entry "_id" VNone) (VStr doc_id) in
      let rejected :=
        let err_type := entry_get error "type" (VStr "unknown") in
        let reason := format_error_reason error in
        n ← py_int status;
        if n =? 429 then Some (BTransient, item_id, "429 rate-limited: " +:+ reason)
        else
          t ← in_types err_type TRANSIENT_ERROR_TYPES;
          let text := py_str status +:+ " " +:+ reason in
          if t || (500 <=? n) then Some (BTransient, item_id, text)
          else
            p ← in_types err_type POISON_ERROR_TYPES;
            if p || ((400 <=? n) && (n <? 500)) then Some (BPoison, item_id, text)
            else Some (BTransient, item_id, text) in
      if truthy error then rejected
      else
        n ← py_int status;
        if (200 <=? n) && (n <? 300) then Some (BPassed, item_id, "") else rejected
  end.

Record classified : Type := mkClassified {
  c_passed : list pyval;
  c_transient : list (pyval * string);
  c_poison : list (pyval * string);
}.

Definition put_bucket (c : bucket * pyval * string) (r : classified) : classified :=
  match c with
  | (BPassed, i, _) => mkClassified (i :: c_passed r) (c_transient r) (c_poison r)
  | (BTransient, i, e) => mkClassified (c_passed r) ((i, e) :: c_transient r) (c_poison r)
  | (BPoison, i, e) => mkClassified (c_passed r) (c_transient r) ((i, e) :: c_poison r)
  end.

Fixpoint classify_from (items : list pyval) (ids : list string) : option classified :=
  match ids with
  | [] => Some (mkClassified [] [] [])
  | i :: ids =>
      c ← classify_item (head items) i;
      r ← classify_from (tail items) ids;
      Some (put_bucket c r)
  end.

(** [classify_bulk_response].  [items] that are not a list have no length or no
    index. *)
Definition classify_bulk_response (response : pyval) (ids : list string) : option classified :=
  let items := match response with VDict d => cfg_get_or d "items" (VList []) | _ => VList [] end in
  match items, ids with
  | VList l, _ => classify_from l ids
  | _, [] => Some (mkClassified [] [] [])
  | VDict [], _ => classify_from [] ids
  | VStr s, _ => classify_from (map (fun c => VStr (String c "")) (list_ascii_of_string s)) ids
  | _, _ => None
  end.
End classify.

(** ** The cluster *)

Inductive bulk_action : Type :=
| ADelete (index : string) (routing : option string) (id : string)
| AIndex (index : string) (routing : option string) (id : string) (doc : pyval).

Definition a_index (a : bulk_action) : string := match a with ADelete x _ _ | AIndex x _ _ _ => x end.
Definition a_routing (a : bulk_action) : option string := match a with ADelete _ r _ | AIndex _ r _ _ => r end.
Definition a_id (a : bulk_action) : string := match a with ADelete _ _ i | AIndex _ _ i _ => i end.
Definition a_effect (a : bulk_action) : option pyval := match a with ADelete _ _ _ => None | AIndex _ _ _ d => Some d end.

Class EsCluster `{PyRuntime} (E : Type) := {
  es_doc : E -> string -> option string -> string -> option pyval;
  (** [es.bulk]: the response, or the text of the exception *)
  es_bulk : E -> list bulk_action -> (string + pyval) * E;
  (** [es.index]; [false] is an exception *)
  es_index : E -> string -> option string -> string -> pyval -> bool * E;
  (** a document is as before, or as one of the actions on its id leaves it *)
  es_bulk_effect e acts res e' x r i :
    es_bulk e acts = (res, e') ->
    es_doc e' x r i = es_doc e x r i \/
    exists a, a ∈ acts /\ a_index a = x /\ a_id a = i /\ es_doc e' x r i = a_effect a;
  (** one item per action, or fewer; each repeats its id or has none *)
  es_bulk_items e acts resp e' :
    es_bulk e acts = (inr resp, e') ->
    exists d items, resp = VDict d /\ cfg_get_or d "items" (VList []) = VList items /\
      (length items <= length acts)%nat /\
      forall n a it, acts !! n = Some a -> items !! n = Some it ->
        entry_get (first_value it) "_id" VNone = VNone \/ entry_get (first_value it) "_id" VNone = VStr (a_id a);
  (** a 2xx without an error is applied, as the last action on its id left it *)
  es_bulk_applied e acts d items e' n a it i t :
    es_bulk e acts = (inr (VDict d), e') -> cfg_get_or d "items" (VList []) = VList items ->
    acts !! n = Some a -> items !! n = Some it -> classify_item (Some it) (a_id a) = Some (BPassed, i, t) ->
    (forall m b, (n < m)%nat -> acts !! m = Some b -> a_index b = a_index a -> a_id b <> a_id a) ->
    es_doc e' (a_index a) (a_routing a) (a_id a) = a_effect a;
  es_index_effect e x r i d ok e' x' r' i' :
    es_index e x r i d = (ok, e') ->
    es_doc e' x' r' i' = es_doc e x' r' i' \/ x' = x /\ i' = i /\ es_doc e' x' r' i' = Some d;
  es_index_applied e x r i d e' : es_index e x r i d = (true, e') -> es_doc e' x r i = Some d;
}.

(** ** The degradation ladder *)

(** [degrade_rungs]; a rung is [None] when it raises or has no candidate. *)
Fixpoint degrade_rungs (rungs : list (string * (pyval -> option pyval))) (current : pyval) : list (string * pyval) :=
  match rungs with
  | [] => []
  | (name, fn) :: rungs =>
      match fn current with
      | Some candidate => (name, candidate) :: degrade_rungs rungs candidate
      | None => degrade_rungs rungs current
      end
  end.

(** [doc.get(k)] and [{**doc, k: v}] of a document. *)
Definition doc_get (doc : pyval) (k : string) : pyval := entry_get doc k VNone.
Definition doc_set (doc : pyval) (k : string) (v : pyval) : pyval :=
  match doc with VDict d => VDict (dict_set k v d) | _ => doc end.

Section ladder.
Context `{HC : EsCluster E}.

Fixpoint try_rungs (x : string) (routing : option string) (i : string) (doc : pyval) (cs : list (string * pyval)) (e : E)
    : option string * E :=
  match cs with
  | [] => (None, e)
  | (name, candidate) :: cs =>
      match es_index e x routing i (doc_set doc "geometry" candidate) with
      | (true, e') => (Some name, e')
      | (false, e') => try_rungs x routing i doc cs e'
      end
  end.

(** [retry_doc_with_ladder]: the rung that was accepted. *)
Definition retry_doc_with_ladder (rungs : list (string * (pyval -> option pyval))) (x i : string) (doc : pyval)
    (routing : option string) (e : E) : option string * E :=
  let geometry := doc_get doc "geometry" in
  if truthy geometry then
    try_rungs x (match routing with Some r => if r ==s "" then None else Some r | None => None end) i doc
      (degrade_rungs rungs geometry) e
  else (None, e).
End ladder.

(** ** The adapter *)

Record BulkIndexResult : Type := mkResult {
  r_passed : list Z;
  r_transient : list (Z * string);
  r_poison : list (Z * string);
}.

(** What the wrapped driver contributes: the index of a catalog, the routing key of a
    collection, [ensure_storage] and [_simplify_payload] ([None] where it raises). *)
Record items_driver (E : Type) : Type := mkDriver {
  items_index_name : string -> string;
  collection_routing : string -> option string;
  ensure_storage : string -> E -> E;
  simplify_payload : IndexableOp -> option pyval;
}.
Arguments items_index_name {E} _ _.
Arguments collection_routing {E} _ _.
Arguments ensure_storage {E} _ _ _.
Arguments simplify_payload {E} _ _.

(** The cluster, the catalogs whose storage was ensured, and the indices that joined
    the public alias. *)
Record adapter (E : Type) : Type := mkAdapter { ad_es : E; ad_ensured : list string; ad_public : list string }.
Arguments mkAdapter {E} _ _ _.
Arguments ad_es {E} _.
Arguments ad_ensured {E} _.
Arguments ad_public {E} _.

Section adapter.
Context `{HC : EsCluster E}.
Context (rungs : list (string * (pyval -> option pyval))) (drv : items_driver E).

Definition set_es (e : E) (a : adapter E) : adapter E := mkAdapter e (ad_ensured a) (ad_public a).

(** [_ensure_storage_once]. *)
Definition ensure_storage_once (ops : list IndexableOp) (a : adapter E) : adapter E :=
  fold_left (fun a c => if str_mem c (ad_ensured a) then a
                        else mkAdapter (ensure_storage drv c (ad_es a)) (c :: ad_ensured a) (ad_public a))
    (dict_fromkeys (map i_catalog ops)) a.

(** [_action_meta] and the body line of one op; [doc] is the simplified payload. *)
Definition action_of (o : IndexableOp) (doc : pyval) : bulk_action :=
  let x := items_index_name drv (i_catalog o) in
  let r := collection_routing drv (i_collection o) in
  if i_op o ==s "delete" then ADelete x r (i_key o) else AIndex x r (i_key o) doc.

(** The simplified payloads, in the order of the ops; a delete has none. *)
Fixpoint op_docs (ops : list IndexableOp) : option (list (IndexableOp * pyval)) :=
  match ops with
  | [] => Some []
  | o :: ops =>
      d ← (if i_op o ==s "delete" then Some VNone else simplify_payload drv o);
      ds ← op_docs ops;
      Some ((o, d) :: ds)
  end.

(** [op_by_key] and [doc_by_key]: the last op and the last document of a key. *)
Definition op_by_key (ops : list IndexableOp) : list (string * IndexableOp) :=
  fold_left (fun d o => dict_set (i_key o) o d) ops [].
Definition doc_by_key (ods : list (IndexableOp * pyval)) : list (string * pyval) :=
  fold_left (fun d od => if i_op od.1 ==s "delete" then d else dict_set (i_key od.1) od.2 d) ods [].

Definition key_lookup {A} (sid : pyval) (d : list (string * A)) : option A :=
  match sid with VStr s => dict_get s d | _ => None end.

(** The recovery of the rejected documents: the recovered ids, the remaining
    pairs. *)
Fixpoint recover (ops : list (string * IndexableOp)) (docs : list (string * pyval)) (pairs : list (pyval * string)) (e : E)
    : list pyval * list (pyval * string) * E :=
  match pairs with
  | [] => ([], [], e)
  | (sid, reason) :: pairs =>
      let '(rung, e1) :=
        match key_lookup sid ops, key_lookup sid docs with
        | Some o, Some doc =>
            retry_doc_with_ladder rungs (items_index_name drv (i_catalog o)) (i_key o) doc (Some (i_collection o)) e
        | _, _ => (None, e)
        end in
      let '(rec, rest, e2) := recover ops docs pairs e1 in
      match rung with
      | Some _ => (sid :: rec, rest, e2)
      | None => (rec, (sid, reason) :: rest, e2)
      end
  end.

(** [_classify_response]; [None] where it raises, an unhashable id included. *)
Definition classify_response (ods : list (IndexableOp * pyval)) (response : pyval) (e : E) : option BulkIndexResult * E :=
  let ops := map fst ods in
  match classify_bulk_response response (map i_key ops) with
  | None => (None, e)
  | Some c =>
      let by_key := op_by_key ops in
      if negb (forallb hashable (c_passed c ++ map fst (c_transient c) ++ map fst (c_poison c))) then (None, e)
      else
        let '(recovered, poison, e') := recover by_key (doc_by_key ods) (c_poison c) e in
        let id_of sid := i_op_id <$> key_lookup sid by_key in
        let pairs l := omap (fun p => (fun i => (i, p.2)) <$> id_of p.1) l in
        (Some (mkResult (omap id_of (c_passed c ++ recovered)) (pairs (c_transient c)) (pairs poison)), e')
  end.

(** [ESBulkIndexer.index_bulk]; [None] is an exception. *)
Definition es_index_bulk (ops : list IndexableOp) (a : adapter E) : option BulkIndexResult * adapter E :=
  match ops with
  | [] => (Some (mkResult [] [] []), a)
  | _ =>
      let a := ensure_storage_once ops a in
      match op_docs ops with
      | None => (None, a)
      | Some ods =>
          let joined := map (items_index_name drv) (dict_fromkeys (map i_catalog ops)) in
          let a := mkAdapter (ad_es a) (ad_ensured a) (dict_fromkeys (ad_public a ++ joined)) in
          match es_bulk (ad_es a) (map (fun od => action_of od.1 od.2) ods) with
          | (inl exn, e) => (Some (mkResult [] (map (fun o => (i_op_id o, exn)) ops) []), set_es e a)
          | (inr response, e) => let '(r, e') := classify_response ods response e in (r, set_es e' a)
          end
      end
  end.
End adapter.
