(* ===== verification/StorageDrain.v ===== *)
(** * Draining the obligations

    [StorageDrainTask] of [tasks/workclass_drain/storage_drain_task.py]: one batch
    ([drain_once]) from the claim to the terminal write of every row, and the loop
    around it ([run_drain]).

    Arguments are what the drain asks of others: [index_bulk] per driver ([None] is an
    exception), the canonical re-read (the number of the call says which moment it
    sees; [None] is an exception), the document builders, the readers of the primary
    driver, the routing configuration and the size of a JSON text.  The clock of a
    batch is one [now]. *)

From S2P Require Import Prelude TaskQueue StoragePlane StorageIndexer.

(** ** Sizes *)

Definition UNESTIMATED_DOC_BYTES : Z := 8 * 1024 * 1024.
Definition ID_ONLY_READ_CHUNK_ROWS : Z := 50.
Definition ID_ONLY_READ_PROBE_ROWS : Z := 1.

(** [next_adaptive_chunk_rows]. *)
Definition next_adaptive_chunk_rows (chunk_bytes rows_read byte_budget current ceiling : Z) : Z :=
  if (rows_read <=? 0) || (chunk_bytes <=? 0) then current
  else
    let avg_row_bytes := Z.max 1 (chunk_bytes / rows_read) in
    Z.max 1 (Z.min ceiling (byte_budget / avg_row_bytes)).

(** ** Documents *)

(** One row of [read_canonical_index_inputs]. *)
Record canonical_input : Type := mkCI {
  ci_row : pyval;
  ci_sidecars : pyval;
  ci_geometry : pyval;
  ci_bbox : pyval;
  ci_properties : pyval;
  ci_access : pyval;
  ci_stac : pyval;
}.

(** What the drain of one run knows and asks for. *)
Record drain_env (I : Type) : Type := mkEnv {
  index_bulk : string -> list IndexableOp -> I -> option BulkIndexResult * I;
  (** drivers with a local indexer, and those that keep the access envelope *)
  resolve_indexer : string -> bool;
  envelope_driver : string -> bool;
  build_envelope_feature_doc : string -> string -> canonical_input -> option pyval;
  resolve_catalog_known_fields : string -> option pyval;
  build_canonical_index_doc : pyval -> string -> string -> canonical_input -> option pyval;
  read_canonical : nat -> string -> string -> list string -> option (list (string * canonical_input));
  (** [read_indexable_write_batch] of the primary driver, and its chunk readers:
      page of ids after an id, and the next id *)
  batch_reader : option (string -> string -> string -> string -> string -> option (list IndexableOp));
  active_reader : option (string -> string -> string -> option string -> option (list string * option string));
  tombstone_reader : option (string -> string -> string -> option string -> option (list string * option string));
  has_primary : string -> string -> bool;
  driver_instance : string -> string -> string -> string;
  uuid4 : nat -> Z;
  json_bytes : pyval -> option Z;
  routing_membership : string -> string -> option (list string);
}.
Arguments index_bulk {I} _ _ _ _.
Arguments resolve_indexer {I} _ _.
Arguments envelope_driver {I} _ _.
Arguments build_envelope_feature_doc {I} _ _ _ _.
Arguments resolve_catalog_known_fields {I} _ _.
Arguments build_canonical_index_doc {I} _ _ _ _ _.
Arguments read_canonical {I} _ _ _ _ _.
Arguments batch_reader {I} _.
Arguments active_reader {I} _.
Arguments tombstone_reader {I} _.
Arguments has_primary {I} _ _ _.
Arguments driver_instance {I} _ _ _ _.
Arguments uuid4 {I} _ _.
Arguments json_bytes {I} _ _.
Arguments routing_membership {I} _ _ _.

(** The counters of one driver's rows. *)
Record counts : Type := mkCounts { n_indexed : Z; n_auto_done : Z; n_retried : Z; n_bytes : Z }.

Definition add_counts (a b : counts) : counts :=
  mkCounts (n_indexed a + n_indexed b) (n_auto_done a + n_auto_done b) (n_retried a + n_retried b) (n_bytes a + n_bytes b).

Definition no_counts : counts := mkCounts 0 0 0 0.
Definition indexed_1 : counts := mkCounts 1 0 0 0.
Definition auto_done_1 : counts := mkCounts 0 1 0 0.
Definition retried_n (n : Z) : counts := mkCounts 0 0 n 0.

Abbreviation claimed := (skey * srow)%type.

(** The tables and the index, the pending sub-chunk, the counters, and the number of
    re-reads so far. *)
Record dstate (I : Type) : Type := mkD {
  d_tbl : stable;
  d_idx : I;
  d_ops : list IndexableOp;
  d_rows : list claimed;
  d_pending : Z;
  d_counts : counts;
  d_reads : nat;
}.
Arguments mkD {I} _ _ _ _ _ _ _.
Arguments d_tbl {I} _.
Arguments d_idx {I} _.
Arguments d_ops {I} _.
Arguments d_rows {I} _.
Arguments d_pending {I} _.
Arguments d_counts {I} _.
Arguments d_reads {I} _.

(** [row.get("collection_id") or ""]. *)
Definition collection_of (r : srow) : string := default "" (o_collection (ob r)).

(** A column that is neither NULL nor empty. *)
Definition nonempty (s : option string) : option string :=
  match s with Some s => if s ==s "" then None else Some s | None => None end.

Section drain.
Context {I : Type} (env : drain_env I).
Context (now : Z) (owner : string) (driver : string) (byte_budget : Z) (page_fuel : nat).

(** [_estimate_doc_bytes]. *)
Definition estimate_doc_bytes (doc : pyval) : Z := default UNESTIMATED_DOC_BYTES (json_bytes env doc).

(** [_row_to_op]. *)
Definition row_to_op (kv : claimed) (doc : pyval) : IndexableOp :=
  let o := ob kv.2 in
  mkOp kv.1.2 (o_op o) (o_catalog o) (collection_of kv.2)
    (driver_instance env (o_driver o) (o_catalog o) (collection_of kv.2)) (o_entity o) doc (default "" (o_key o)).

(** [_build_canonical_doc]; [None] where it raises. *)
Definition build_canonical_doc (cat col : string) (ci : canonical_input) : option pyval :=
  if envelope_driver env driver then
    if truthy (ci_access ci) then build_envelope_feature_doc env cat col ci else None
  else
    known ← resolve_catalog_known_fields env cat;
    build_canonical_index_doc env known cat col ci.

(** *** Outcomes *)

Definition set_tbl (t : stable) (st : dstate I) : dstate I :=
  mkD t (d_idx st) (d_ops st) (d_rows st) (d_pending st) (d_counts st) (d_reads st).
Definition count (c : counts) (st : dstate I) : dstate I :=
  mkD (d_tbl st) (d_idx st) (d_ops st) (d_rows st) (d_pending st) (add_counts (d_counts st) c) (d_reads st).

(** [_apply_retry_all]. *)
Definition apply_retry_all (rows : list claimed) (tbl : stable) : stable :=
  fold_left (fun t kv => mark_retry now owner kv t) rows tbl.

Fixpoint rows_get (i : Z) (d : list (Z * claimed)) : option claimed :=
  match d with
  | [] => None
  | (j, kv) :: d => if i =? j then Some kv else rows_get i d
  end.

(** One list of op ids, marked in order; an id without a row is passed over. *)
Definition mark_ids (mark : claimed -> stable -> stable) (by_id : list (Z * claimed)) (ids : list Z) (tbl : stable)
    : Z * stable :=
  fold_left (fun acc i => match rows_get i by_id with
                          | Some kv => (acc.1 + 1, mark kv acc.2)
                          | None => acc
                          end) ids (0, tbl).

(** [_apply_outcomes]: the rows indexed and retried, and the table. *)
Definition apply_outcomes (rows : list claimed) (r : BulkIndexResult) (tbl : stable) : counts * stable :=
  let by_id := fold_left (fun d kv => kv_set kv.1.2 kv d) rows [] in
  let '(n1, tbl) := mark_ids (mark_done now owner) by_id (r_passed r) tbl in
  let '(n2, tbl) := mark_ids (mark_retry now owner) by_id (map fst (r_transient r)) tbl in
  let '(_, tbl) := mark_ids (mark_dead now owner) by_id (map fst (r_poison r)) tbl in
  let categorized := r_passed r ++ map fst (r_transient r) ++ map fst (r_poison r) in
  let omitted := List.filter (fun ikv : Z * claimed => negb (bool_decide (ikv.1 ∈ categorized))) by_id in
  (mkCounts n1 0 (n2 + Z.of_nat (length omitted)) 0,
   fold_left (fun t ikv => mark_retry now owner ikv.2 t) omitted tbl).

(** [_flush] of [_process_driver_rows]. *)
Definition flush_ops (st : dstate I) : dstate I :=
  match d_ops st with
  | [] => st
  | ops =>
      let rows := d_rows st in
      let '(res, idx) := index_bulk env driver ops (d_idx st) in
      match res with
      | None =>
          mkD (apply_retry_all rows (d_tbl st)) idx [] [] 0
            (add_counts (d_counts st) (retried_n (Z.of_nat (length rows)))) (d_reads st)
      | Some r =>
          let '(c, tbl) := apply_outcomes rows r (d_tbl st) in
          mkD tbl idx [] [] 0 (add_counts (d_counts st) c) (d_reads st)
      end
  end.

(** [_append]. *)
Definition append_op (kv : claimed) (doc : pyval) (st : dstate I) : dstate I :=
  let b := estimate_doc_bytes doc in
  let st := mkD (d_tbl st) (d_idx st) (d_ops st ++ [row_to_op kv doc]) (d_rows st ++ [kv]) (d_pending st + b)
              (add_counts (d_counts st) (mkCounts 0 0 0 b)) (d_reads st) in
  if byte_budget <=? d_pending st then flush_ops st else st.

(** *** Classification of the claimed rows *)

Abbreviation id_groups := (list ((string * string) * list claimed)).
Abbreviation write_groups := (list ((string * string * string * string) * list claimed)).

(** The payload a delete is sized with. *)
Definition delete_payload : pyval := VDict [].

Definition classify_row (kv : claimed) (acc : dstate I * id_groups * write_groups) : dstate I * id_groups * write_groups :=
  let '(st, ids, ws) := acc in
  let o := ob kv.2 in
  match (if str_mem (o_op o) ["upsert"; "delete"] then nonempty (o_write o) else None), nonempty (o_entity o) with
  | Some w, _ => (st, ids, kv_append (o_catalog o, collection_of kv.2, o_op o, w) kv ws)
  | None, None => (set_tbl (mark_dead now owner kv (d_tbl st)) st, ids, ws)
  | None, Some _ =>
      if o_op o ==s "upsert" then (st, kv_append (o_catalog o, collection_of kv.2) kv ids, ws)
      else (append_op kv delete_payload st, ids, ws)
  end.

Definition classify_rows (rows : list claimed) (st : dstate I) : dstate I * id_groups * write_groups :=
  fold_left (fun acc kv => classify_row kv acc) rows (st, [], []).

(** *** Write batches *)

(** One page of upserts; a canonical row that is missing raises. *)
Fixpoint page_ops (cat col : string) (next : nat) (inputs : list (string * canonical_input)) (geoids : list string)
    : option (list IndexableOp) :=
  match geoids with
  | [] => Some []
  | g :: geoids =>
      ci ← dict_get g inputs;
      doc ← build_canonical_doc cat col ci;
      ops ← page_ops cat col (S next) inputs geoids;
      Some (mkOp (uuid4 env next) "upsert" cat col (driver_instance env driver cat col) (Some g) doc g :: ops)
  end.

(** The paging loop of the upserts; the reads and the ops so far. *)
Fixpoint read_active (fuel : nat) (reader : string -> string -> string -> option string -> option (list string * option string))
    (cat col w : string) (after : option string) (reads : nat) (acc : list IndexableOp)
    : option (list IndexableOp) * nat :=
  match fuel with
  | O => (None, reads)
  | S fuel =>
      match reader cat col w after with
      | None => (None, reads)
      | Some (geoids, next) =>
          let continue reads acc :=
            match next with
            | None => (Some acc, reads)
            | Some g => read_active fuel reader cat col w (Some g) reads acc
            end in
          match geoids with
          | [] => continue reads acc
          | _ =>
              match read_canonical env reads cat col geoids with
              | None => (None, S reads)
              | Some inputs =>
                  match page_ops cat col (length acc) inputs geoids with
                  | None => (None, S reads)
                  | Some ops => continue (S reads) (acc ++ ops)
                  end
              end
          end
      end
  end.

Definition tombstone_ops (cat col : string) (next : nat) (geoids : list string) : list IndexableOp :=
  imap (fun n g => mkOp (uuid4 env (next + n)) "delete" cat col (driver_instance env driver cat col) (Some g)
                     (VDict []) g) geoids.

Fixpoint read_tombstones (fuel : nat) (reader : string -> string -> string -> option string -> option (list string * option string))
    (cat col w : string) (after : option string) (acc : list IndexableOp) : option (list IndexableOp) :=
  match fuel with
  | O => None
  | S fuel =>
      '(geoids, next) ← reader cat col w after;
      let acc := acc ++ tombstone_ops cat col (length acc) geoids in
      match next with
      | None => Some acc
      | Some g => read_tombstones fuel reader cat col w (Some g) acc
      end
  end.

(** [_read_primary_write_batch]: the ops, or [None] where it raises, and the reads. *)
Definition read_primary_write_batch (cat col op w : string) (reads : nat) : option (list IndexableOp) * nat :=
  if negb (has_primary env cat col) then (None, reads)
  else match batch_reader env with
       | Some reader => (reader cat col w driver op, reads)
       | None =>
           if op ==s "upsert" then
             match active_reader env with
             | Some reader => read_active page_fuel reader cat col w None reads []
             | None => (None, reads)
             end
           else if op ==s "delete" then
             (match tombstone_reader env with
              | Some reader => read_tombstones page_fuel reader cat col w None []
              | None => None
              end, reads)
           else (None, reads)
       end.

Inductive write_outcome : Type := WDone | WRetry | WDead.

(** [_flush_write_id_chunk]; [None] is success. *)
Definition flush_write_id_chunk (chunk : list IndexableOp) (idx : I) : option write_outcome * I :=
  match chunk with
  | [] => (None, idx)
  | _ =>
      match index_bulk env driver chunk idx with
      | (None, idx) => (Some WRetry, idx)
      | (Some r, idx) =>
          match r_transient r, r_poison r with
          | _ :: _, _ => (Some WRetry, idx)
          | [], _ :: _ => (Some WDead, idx)
          | [], [] => if (length (r_passed r) =? length chunk)%nat then (None, idx) else (Some WRetry, idx)
          end
      end
  end.

(** The chunk loop over a hydrated batch: the outcome, the bytes, and the index. *)
Fixpoint send_write_batch (ops chunk : list IndexableOp) (bytes total : Z) (idx : I) : write_outcome * Z * I :=
  match ops with
  | [] =>
      match flush_write_id_chunk chunk idx with
      | (None, idx) => (WDone, total, idx)
      | (Some w, idx) => (w, total, idx)
      end
  | o :: ops =>
      let b := estimate_doc_bytes (i_payload o) in
      let chunk := chunk ++ [o] in
      if byte_budget <=? bytes + b then
        match flush_write_id_chunk chunk idx with
        | (None, idx) => send_write_batch ops [] 0 (total + b) idx
        | (Some w, idx) => (w, total + b, idx)
        end
      else send_write_batch ops chunk (bytes + b) (total + b) idx
  end.

Definition process_write_group (g : (string * string * string * string) * list claimed) (st : dstate I) : dstate I :=
  let '(cat, col, op, w) := g.1 in
  match last g.2 with
  | None => st
  | Some row =>
      let '(hydrated, reads) := read_primary_write_batch cat col op w (d_reads st) in
      let settle mark idx c := mkD (mark now owner row (d_tbl st)) idx (d_ops st) (d_rows st) (d_pending st)
                                 (add_counts (d_counts st) c) reads in
      match hydrated with
      | None => settle mark_retry (d_idx st) (retried_n 1)
      | Some [] => settle mark_done (d_idx st) auto_done_1
      | Some ops =>
          let '(outcome, bytes, idx) := send_write_batch ops [] 0 0 (d_idx st) in
          match outcome with
          | WDone => settle mark_done idx (mkCounts 1 0 0 bytes)
          | WDead => settle mark_dead idx (mkCounts 0 0 0 bytes)
          | WRetry => settle mark_retry idx (mkCounts 0 0 1 bytes)
          end
      end
  end.

(** *** Id-only rows *)

(** One row of a re-read chunk. *)
Definition process_id_row (cat col : string) (inputs : list (string * canonical_input)) (kv : claimed) (st : dstate I)
    : dstate I :=
  match nonempty (o_entity (ob kv.2)) ≫= fun g => dict_get g inputs with
  | None => count auto_done_1 (set_tbl (mark_done now owner kv (d_tbl st)) st)
  | Some ci =>
      match build_canonical_doc cat col ci with
      | None => count (retried_n 1) (set_tbl (mark_retry now owner kv (d_tbl st)) st)
      | Some doc => append_op kv doc st
      end
  end.

Definition bump_reads (st : dstate I) : dstate I :=
  mkD (d_tbl st) (d_idx st) (d_ops st) (d_rows st) (d_pending st) (d_counts st) (S (d_reads st)).

(** One chunk of a group. *)
Definition process_chunk (cat col : string) (chunk : list claimed) (st : dstate I) : dstate I :=
  let geoids := omap (fun kv => nonempty (o_entity (ob kv.2))) chunk in
  match read_canonical env (d_reads st) cat col geoids with
  | None =>
      count (retried_n (Z.of_nat (length chunk)))
        (bump_reads (set_tbl (apply_retry_all chunk (d_tbl st)) st))
  | Some inputs => fold_left (fun st kv => process_id_row cat col inputs kv st) chunk (bump_reads st)
  end.

(** The adaptive loop over a group; a failed re-read keeps the chunk size. *)
Fixpoint process_group_loop (fuel : nat) (cat col : string) (rows : list claimed) (chunk_rows : Z) (st : dstate I) : dstate I :=
  match fuel, rows with
  | S fuel, _ :: _ =>
      let chunk := take (Z.to_nat chunk_rows) rows in
      let before := n_bytes (d_counts st) in
      let ok := match read_canonical env (d_reads st) cat col (omap (fun kv => nonempty (o_entity (ob kv.2))) chunk) with
                | Some _ => true | None => false end in
      let st := process_chunk cat col chunk st in
      let next := if ok then next_adaptive_chunk_rows (n_bytes (d_counts st) - before) (Z.of_nat (length chunk))
                               byte_budget chunk_rows ID_ONLY_READ_CHUNK_ROWS
                  else chunk_rows in
      process_group_loop fuel cat col (drop (Z.to_nat chunk_rows) rows) next st
  | _, _ => st
  end.

Definition process_id_group (g : (string * string) * list claimed) (st : dstate I) : dstate I :=
  process_group_loop (length g.2) g.1.1 g.1.2 g.2 (Z.min ID_ONLY_READ_PROBE_ROWS ID_ONLY_READ_CHUNK_ROWS) st.

(** [_process_driver_rows]. *)
Definition process_driver_rows (rows : list claimed) (tbl : stable) (idx : I) (reads : nat) : dstate I :=
  let '(st, ids, ws) := classify_rows rows (mkD tbl idx [] [] 0 no_counts reads) in
  let st := fold_left (fun st g => process_write_group g st) ws st in
  let st := fold_left (fun st g => process_id_group g st) ids st in
  flush_ops st.

(** *** Rows without an indexer *)

(** [_unresolvable_row_exhausted]; 0 disables a cutoff. *)
Definition unresolvable_row_exhausted (max_attempts max_age : Z) (r : srow) : bool :=
  ((0 <? max_attempts) && (max_attempts <=? attempts r))
  || ((0 <? max_age) && (max_age <=? now - o_created (ob r))).

(** [_handle_unresolvable_rows]: the rows retried and dead-lettered, and the table. *)
Definition handle_unresolvable_rows (max_attempts max_age : Z) (rows : list claimed) (tbl : stable) : Z * Z * stable :=
  let groups := fold_left (fun d (kv : claimed) => kv_append (o_catalog (ob kv.2), collection_of kv.2) kv d) rows
                  ([] : id_groups) in
  fold_left (fun acc g =>
    let membership := if g.1.2 ==s "" then None else routing_membership env g.1.1 g.1.2 in
    let gone := match membership with Some refs => negb (str_mem driver refs) | None => false end in
    fold_left (fun acc kv =>
      let '(retried, dead, tbl) := acc in
      if gone || unresolvable_row_exhausted max_attempts max_age kv.2
      then (retried, dead + 1, mark_dead now owner kv tbl)
      else (retried + 1, dead, mark_retry now owner kv tbl)) g.2 acc) groups (0, 0, tbl).
End drain.

(** ** One batch *)

Record drain_config : Type := mkConfig {
  lease_seconds : Z;
  batch_size : nat;
  hydration_byte_budget : Z;
  unresolvable_max_attempts : Z;
  unresolvable_max_age : Z;
  inprocess_max_bytes : Z;
  inprocess_max_seconds : Z;
}.

(** The run's metrics. *)
Record metrics : Type := mkMetrics { m_drained : Z; m_indexed : Z; m_auto_done : Z; m_retried : Z; m_dead : Z }.

Definition add_metrics (a b : metrics) : metrics :=
  mkMetrics (m_drained a + m_drained b) (m_indexed a + m_indexed b) (m_auto_done a + m_auto_done b)
    (m_retried a + m_retried b) (m_dead a + m_dead b).

Section batch.
Context {I : Type} (env : drain_env I) (cfg : drain_config) (page_fuel : nat).
(** The order in which [RETURNING] lists the claimed rows. *)
Context (returning : list claimed -> list claimed).

Definition process_driver (now : Z) (owner : string) (g : string * list claimed) (acc : stable * I * nat * metrics * Z)
    : stable * I * nat * metrics * Z :=
  let '(tbl, idx, reads, m, bytes) := acc in
  if resolve_indexer env g.1 then
    let st := process_driver_rows env now owner g.1 (hydration_byte_budget cfg) page_fuel g.2 tbl idx reads in
    let c := d_counts st in
    (d_tbl st, d_idx st, d_reads st,
     add_metrics m (mkMetrics 0 (n_indexed c) (n_auto_done c) (n_retried c) 0), bytes + n_bytes c)
  else
    let '(retried, dead, tbl) :=
      handle_unresolvable_rows env now owner g.1 (unresolvable_max_attempts cfg) (unresolvable_max_age cfg) g.2 tbl in
    (tbl, idx, reads, add_metrics m (mkMetrics 0 0 0 retried dead), bytes).

(** [drain_once]: the rows handled, the tables and the index, the metrics and the
    hydrated bytes. *)
Definition drain_once (now : Z) (owner : string) (locked : list skey) (tbl : stable) (idx : I) (reads : nat)
    : nat * (stable * I * nat * metrics * Z) :=
  let '(rows, tbl) := s_claim_batch now (lease_seconds cfg) owner (batch_size cfg) locked tbl in
  let rows := returning rows in
  let by_driver := fold_left (fun d (kv : claimed) => kv_append (o_driver (ob kv.2)) kv d) rows
                     ([] : list (string * list claimed)) in
  (length rows,
   fold_left (fun acc g => process_driver now owner g acc) by_driver
     (tbl, idx, reads, mkMetrics (Z.of_nat (length rows)) 0 0 0 0, 0)).

Inductive run_end : Type := Drained | HandedOff | OutOfFuel.

(** The loop of [_run_drain]; [clock n] is the time of the [n]-th batch and [elapsed n]
    the time spent after it.  [inprocess] is off in [StorageDrainOffloadTask]. *)
Fixpoint drain_loop (fuel : nat) (inprocess : bool) (elapsed clock : nat -> Z) (owner : string) (n : nat)
    (bytes : Z) (tbl : stable) (idx : I) (reads : nat) (m : metrics) : run_end * stable * I * metrics :=
  match fuel with
  | O => (OutOfFuel, tbl, idx, m)
  | S fuel =>
      let '(k, (tbl, idx, reads, m', b)) := drain_once (clock n) owner [] tbl idx reads in
      let m := add_metrics m m' in
      if (k =? 0)%nat then (Drained, tbl, idx, m)
      else
        let bytes := bytes + b in
        if inprocess
           && (((0 <? inprocess_max_bytes cfg) && (inprocess_max_bytes cfg <=? bytes))
               || ((0 <? inprocess_max_seconds cfg) && (inprocess_max_seconds cfg <=? elapsed n)))
        then (HandedOff, tbl, idx, m)
        else drain_loop fuel inprocess elapsed clock owner (S n) bytes tbl idx reads m
  end.

(** [_run_drain]: an in-process run that does not get the single-flight gate, or finds
    an offloaded run at work, claims nothing; one that hands the rest over enqueues
    the trigger of the offloaded task. *)
Definition run_drain (fuel : nat) (inprocess gate : bool) (elapsed clock : nat -> Z) (trigger_id : Z) (owner : string)
    (tbl : stable) (tasks : table) (idx : I) : run_end * stable * table * I * metrics :=
  let none := mkMetrics 0 0 0 0 0 in
  if inprocess && (negb gate || offload_drain_is_active (clock 0%nat) tasks) then (Drained, tbl, tasks, idx, none)
  else
    let '(e, tbl', idx', m) := drain_loop fuel inprocess elapsed clock owner 0 0 tbl idx 0 none in
    (e, tbl', match e with
              | HandedOff => enqueue_drain_trigger (clock 0%nat) trigger_id None "storage_drain_offload" "storage_drain_offload" tasks
              | Drained | OutOfFuel => tasks
              end, idx', m).
End batch.
