(* ===== verification/StoragePlaneProofs.v ===== *)
(** * Claims and fences of the storage plane

    Facts about the statements of [StoragePlane], the fence of the terminal writes
    over every history, and the coalescing of the producers. *)

From S2P Require Import Prelude TaskQueue TaskQueueProofs StoragePlane.

(** ** Statements *)

Lemma s_cas_other k k' owner v f tbl : k' <> k -> s_cas k owner v f tbl !! k' = tbl !! k'.
Proof. intros Hne. unfold s_cas. cases. by rewrite lookup_insert_ne. Qed.

(** A fenced write changes the row of its key, or nothing. *)
Lemma s_cas_lookup k owner v f tbl :
  s_cas k owner v f tbl !! k =
  match tbl !! k with
  | Some r => Some (if sql_eq (claimed_by r) owner && (claim_version r =? v) then f r else r)
  | None => None
  end.
Proof.
  unfold s_cas. destruct (tbl !! k) as [r|] eqn:E; [|done].
  destruct (_ && _); [by rewrite lookup_insert_eq|done].
Qed.

Lemma s_batch_elem now lease n locked tbl k r :
  (k, r) ∈ s_batch now lease n locked tbl -> tbl !! k = Some r /\ s_claimable now lease r = true /\ k ∉ locked.
Proof.
  unfold s_batch. intros Hin%take_elem%merge_sort_elem%in_filter.
  destruct Hin as [Hp Hin]. apply elem_of_map_to_list in Hin. simpl in Hp. bool_hyps.
  by case_bool_decide.
Qed.

Lemma s_batch_nodup now lease n locked tbl : NoDup (map fst (s_batch now lease n locked tbl)).
Proof.
  unfold s_batch. set (l := List.filter _ _).
  assert (Hl : NoDup (map fst l)).
  { subst l. pose proof (NoDup_fst_map_to_list tbl) as Hnd. revert Hnd. change (fst <$> map_to_list tbl) with (map fst (map_to_list tbl)).
    induction (map_to_list tbl) as [|x l IH]; simpl; intros Hnd; [done|].
    apply NoDup_cons in Hnd as [Hx Hnd]. destruct (_ && _); [|auto]. simpl. apply NoDup_cons. split; [|auto].
    intros Hin. apply Hx. apply list_elem_of_fmap in Hin as (y & -> & Hy). apply list_elem_of_fmap. exists y.
    split; [done|]. by apply in_filter in Hy as [_ ?]. }
  assert (Hs : NoDup (map fst (merge_sort s_order l))).
  { eapply NoDup_Permutation_proper; [|exact Hl]. apply fmap_Permutation, merge_sort_Permutation. }
  rewrite <-(take_drop n (merge_sort s_order l)), map_app in Hs. by apply NoDup_app in Hs as [? _].
Qed.

Lemma insert_all_lookup (l : list (skey * srow)) (tbl : stable) k r :
  NoDup (map fst l) -> (k, r) ∈ l -> fold_left (fun t kv => <[kv.1 := kv.2]> t) l tbl !! k = Some r.
Proof.
  revert tbl. induction l as [|[k0 r0] l IH]; intros tbl Hnd Hin; [by apply elem_of_nil in Hin|].
  apply NoDup_cons in Hnd as [Hk0 Hnd]. apply elem_of_cons in Hin as [[= -> ->]|Hin]; [|by apply IH].
  simpl. clear IH. revert tbl. induction l as [|[k1 r1] l IH]; intros tbl; simpl; [by rewrite lookup_insert_eq|].
  apply NoDup_cons in Hnd as [_ Hnd]. apply not_elem_of_cons in Hk0 as [Hne Hk0].
  rewrite insert_insert_ne by done. auto.
Qed.

Lemma insert_all_other (l : list (skey * srow)) (tbl : stable) k :
  k ∉ map fst l -> fold_left (fun t kv => <[kv.1 := kv.2]> t) l tbl !! k = tbl !! k.
Proof.
  revert tbl. induction l as [|[k0 r0] l IH]; intros tbl Hk; [done|].
  apply not_elem_of_cons in Hk as [Hne Hk]. simpl. rewrite IH by done. by rewrite lookup_insert_ne.
Qed.

(** What a claim does: the returned rows are those of the new table, each one step
    older than before; every other row stays. *)
Lemma s_claim_batch_spec now lease owner n locked tbl rows tbl' :
  s_claim_batch now lease owner n locked tbl = (rows, tbl') ->
  NoDup (map fst rows) /\
  (forall k r, (k, r) ∈ rows -> tbl' !! k = Some r /\ exists r0, tbl !! k = Some r0 /\
     s_claimable now lease r0 = true /\ k ∉ locked /\ r = s_claim now owner r0) /\
  (forall k, k ∉ map fst rows -> tbl' !! k = tbl !! k).
Proof.
  unfold s_claim_batch. set (b := s_batch now lease n locked tbl). intros [= <- <-].
  assert (Hm : map fst (map (fun kv => (kv.1, s_claim now owner kv.2)) b) = map fst b) by (rewrite map_map; done).
  assert (Hnd : NoDup (map fst (map (fun kv => (kv.1, s_claim now owner kv.2)) b))) by (rewrite Hm; apply s_batch_nodup).
  split_and!; [done| |intros k Hk; by apply insert_all_other].
  intros k r Hin. split; [by apply insert_all_lookup|].
  apply list_elem_of_fmap in Hin as ([k0 r0] & [= -> ->] & Hin). apply s_batch_elem in Hin as (? & ? & ?). eauto 10.
Qed.

(** ** Histories *)

Inductive mark_kind : Type := MDone | MRetry | MDead.

Definition s_mark (m : mark_kind) (now : Z) (owner : string) (kv : skey * srow) (tbl : stable) : stable :=
  match m with
  | MDone => mark_done now owner kv tbl
  | MRetry => mark_retry now owner kv tbl
  | MDead => mark_dead now owner kv tbl
  end.

(** The new contents of a row under a terminal write. *)
Definition s_marked (m : mark_kind) (now : Z) (kv : skey * srow) : srow -> srow :=
  match m with
  | MDone => set_s_done now
  | MRetry => set_s_retry now (backoff (attempts kv.2))
  | MDead => set_s_dead now
  end.

Lemma s_mark_cas m now owner kv tbl : s_mark m now owner kv tbl = s_cas kv.1 owner (claim_version kv.2) (s_marked m now kv) tbl.
Proof. by destruct m. Qed.

(** The statements that run on the table: a producer's insert, a claim, and the
    terminal write of a worker for the row [kv] it was given. *)
Inductive sop : Type :=
| SInsert (k : skey) (o : obligation)
| SClaim (lease : Z) (owner : string) (n : nat) (locked : list skey)
| SMark (m : mark_kind) (owner : string) (kv : skey * srow).

(** The claims handed out: row, version and worker. *)
Abbreviation claim_log := (list (skey * Z * string)).

Definition sexec (now : Z) (o : sop) (w : stable * claim_log) : stable * claim_log :=
  match o with
  | SInsert k o => (<[k := fresh_srow now o]> w.1, w.2)
  | SClaim lease owner n locked =>
      let '(rows, tbl) := s_claim_batch now lease owner n locked w.1 in
      (tbl, w.2 ++ map (fun kv => (kv.1, claim_version kv.2, owner)) rows)
  | SMark m owner kv => (s_mark m now owner kv w.1, w.2)
  end.

Definition srun (ops : list (Z * sop)) (w : stable * claim_log) : stable * claim_log :=
  fold_left (fun w e => sexec e.1 e.2 w) ops w.

(** Inserts use fresh keys. *)
Fixpoint sfresh (ops : list (Z * sop)) (w : stable * claim_log) : Prop :=
  match ops with
  | [] => True
  | (now, o) :: ops =>
      match o with SInsert k _ => w.1 !! k = None | _ => True end /\ sfresh ops (sexec now o w)
  end.

(** ** The fence *)

(** The log and the table: a claim is at most as new as its row, and the row of its
    newest claim is held by that worker or by nobody. *)
Definition log_ok (w : stable * claim_log) : Prop :=
  NoDup (map fst w.2) /\
  forall k v o, (k, v, o) ∈ w.2 -> exists r, w.1 !! k = Some r /\ v <= claim_version r /\
    (v = claim_version r -> claimed_by r = Some o \/ claimed_by r = None).

(** A statement keeps the rows the log speaks of, and their versions do not fall. *)
Definition log_kept (tbl tbl' : stable) : Prop :=
  forall k r, tbl !! k = Some r -> exists r', tbl' !! k = Some r' /\
    (claim_version r < claim_version r' \/
     claim_version r' = claim_version r /\ (claimed_by r' = claimed_by r \/ claimed_by r' = None)).

Lemma log_ok_kept tbl tbl' log : log_kept tbl tbl' -> log_ok (tbl, log) -> log_ok (tbl', log).
Proof.
  intros Hk [Hnd Hok]. split; [done|]. intros k v o Hin. destruct (Hok k v o Hin) as (r & Hr & Hv & Ho).
  destruct (Hk k r Hr) as (r' & Hr' & Hver). exists r'. split; [done|]. destruct Hver as [Hlt|[Heq Hby]]; [split; lia|].
  rewrite Heq. split; [done|]. intros Hv'. destruct (Ho Hv') as [Hb|Hb], Hby as [Hb'|Hb']; rewrite Hb'; auto.
Qed.

Lemma s_mark_kept m now owner kv tbl : log_kept tbl (s_mark m now owner kv tbl).
Proof.
  intros k r Hr. rewrite s_mark_cas. destruct (decide (k = kv.1)) as [->|Hne].
  - rewrite s_cas_lookup, Hr. eexists. split; [done|]. right. destruct (_ && _); [|auto]. destruct m; simpl; auto.
  - rewrite s_cas_other by done. exists r. auto.
Qed.

Lemma s_claim_kept now lease owner n locked tbl rows tbl' :
  s_claim_batch now lease owner n locked tbl = (rows, tbl') -> log_kept tbl tbl'.
Proof.
  intros (Hnd & Hin & Hout)%s_claim_batch_spec k r Hr.
  destruct (decide (k ∈ map fst rows)) as [Hk|Hk]; [|rewrite Hout by done; exists r; auto].
  apply list_elem_of_fmap in Hk as ([k0 r0] & -> & Hk). destruct (Hin k0 r0 Hk) as (Hr0 & r1 & Hr1 & _ & _ & ->).
  simpl in *. simplify_eq. eexists. split; [done|]. left. simpl. lia.
Qed.

Lemma sexec_log_ok now o w :
  match o with SInsert k _ => w.1 !! k = None | _ => True end -> log_ok w -> log_ok (sexec now o w).
Proof.
  destruct w as [tbl log]. destruct o as [k ob|lease owner n locked|m owner kv]; intros Hfresh Hok; cbn [sexec fst snd] in *.
  - apply (log_ok_kept tbl); [|done]. intros k' r' Hr'. rewrite lookup_insert_ne by congruence. exists r'. auto.
  - destruct (s_claim_batch now lease owner n locked tbl) as [rows tbl'] eqn:Hc.
    pose proof (s_claim_kept _ _ _ _ _ _ _ _ Hc) as Hk. pose proof (log_ok_kept _ _ _ Hk Hok) as [Hnd' Hok'].
    destruct Hok as [Hnd Hold]. apply s_claim_batch_spec in Hc as (Hndr & Hin & _). split; simpl.
    + rewrite map_app, map_map. apply NoDup_app. split_and!; [done| |].
      * intros x Hx Hy. apply list_elem_of_fmap in Hx as ([[k v] o] & -> & Hx). simpl in *.
        apply list_elem_of_fmap in Hy as ([k0 r0] & [= -> ->] & Hy). destruct (Hin k0 r0 Hy) as (_ & r1 & Hr1 & _ & _ & ->).
        destruct (Hold _ _ _ Hx) as (r & Hr & Hv & _). simpl in *. simplify_eq. lia.
      * clear -Hndr. induction rows as [|[k r] rows IH]; simpl in *; [constructor|].
        apply NoDup_cons in Hndr as [Hk Hndr]. apply NoDup_cons. split; [|auto].
        intros Hx. apply Hk. apply list_elem_of_fmap in Hx as ([k' r'] & [= -> _] & Hx).
        apply list_elem_of_fmap. by exists (k', r').
    + intros k v o Hx. apply elem_of_app in Hx as [Hx|Hx]; [by apply Hok'|].
      apply list_elem_of_fmap in Hx as ([k0 r0] & [= -> -> ->] & Hx). destruct (Hin k0 r0 Hx) as (Hr0 & r1 & _ & _ & _ & ->).
      eexists. split; [done|]. simpl. auto with lia.
  - by apply (log_ok_kept tbl); [apply s_mark_kept|].
Qed.

Lemma srun_log_ok ops w : sfresh ops w -> log_ok w -> log_ok (srun ops w).
Proof.
  revert w. induction ops as [|[now o] ops IH]; intros w Hf Hok; [done|]. destruct Hf as [Hf Hfs]. simpl.
  apply IH; [done|]. by apply sexec_log_ok.
Qed.

(** The statements of others while worker [owner] holds the row [k] it claimed as
    [r]: no claim after its lease, no terminal write under its name and version. *)
Definition foreign_op (k : skey) (r : srow) (owner : string) (claimed : Z) (e : Z * sop) : Prop :=
  match e.2 with
  | SInsert k' _ => True
  | SClaim lease _ _ _ => e.1 - lease <= claimed
  | SMark _ o kv => kv.1 = k -> o <> owner \/ claim_version kv.2 <> claim_version r
  end.

Lemma lease_untouched ops w k r owner claimed :
  sfresh ops w -> w.1 !! k = Some r -> s_status r = SInFlight -> claimed_by r = Some owner -> claimed_at r = Some claimed ->
  Forall (foreign_op k r owner claimed) ops -> (srun ops w).1 !! k = Some r.
Proof.
  revert w. induction ops as [|[now o] ops IH]; intros w Hf Hr Hs Hb Hc Hall; [done|].
  destruct Hf as [Hf Hfs]. apply Forall_cons in Hall as [Ho Hall]. apply IH; try done.
  destruct w as [tbl log]. destruct o as [k' ob|lease o n locked|m o kv]; unfold foreign_op in Ho; cbn in *.
  - by rewrite lookup_insert_ne by congruence.
  - destruct (s_claim_batch now lease o n locked tbl) as [rows tbl'] eqn:E.
    apply s_claim_batch_spec in E as (_ & Hin & Hout). simpl. rewrite Hout; [done|].
    intros Hk. apply list_elem_of_fmap in Hk as ([k0 r0] & -> & Hk). destruct (Hin _ _ Hk) as (_ & r1 & Hr1 & Hcl & _).
    simpl in *. simplify_eq. unfold s_claimable, sql_lt in Hcl. rewrite Hs, Hc in Hcl. simpl in Hcl. lia.
  - rewrite s_mark_cas. destruct (decide (k = kv.1)) as [->|Hne]; [|by rewrite s_cas_other].
    rewrite s_cas_lookup, Hr. destruct (sql_eq (claimed_by r) o && (claim_version r =? claim_version kv.2)) eqn:E; [|done].
    rewrite Hb in E. simpl in E. bool_hyps. destruct (Ho eq_refl); congruence.
Qed.

(** Terminal writes are fenced.  Over every history of inserts, claims and
    terminal writes by any number of workers: no two claims ever hand out the same version
    of a row; a terminal write that changes a row comes from the newest claim of the row,
    and from the worker that made it; and while the lease of a claim runs, nobody but its
    worker changes the row. *)
Theorem storage_fence ops tbl :
  sfresh ops (tbl, []) ->
  NoDup (map fst (srun ops (tbl, [])).2) /\
  (forall m now owner kv v o, s_mark m now owner kv (srun ops (tbl, [])).1 <> (srun ops (tbl, [])).1 ->
     (kv.1, v, o) ∈ (srun ops (tbl, [])).2 -> v <= claim_version kv.2 /\ (v = claim_version kv.2 -> o = owner)) /\
  (forall k r owner claimed, tbl !! k = Some r -> s_status r = SInFlight -> claimed_by r = Some owner ->
     claimed_at r = Some claimed -> Forall (foreign_op k r owner claimed) ops -> (srun ops (tbl, [])).1 !! k = Some r).
Proof.
  intros Hf. assert (Hok : log_ok (srun ops (tbl, []))).
  { apply srun_log_ok; [done|]. split; [constructor|]. by intros ??? ?%elem_of_nil. }
  destruct Hok as [Hnd Hok]. split_and!; [done| |by intros; eapply lease_untouched].
  intros m now owner kv v o Hm Hin. destruct (Hok _ _ _ Hin) as (r & Hr & Hv & Ho).
  rewrite s_mark_cas in Hm. unfold s_cas in Hm. rewrite Hr in Hm.
  destruct (sql_eq (claimed_by r) owner && (claim_version r =? claim_version kv.2)) eqn:E; [|done].
  bool_hyps. destruct (claimed_by r) as [b|] eqn:Hb; simpl in *; [|done]. bool_hyps. subst.
  split; [lia|]. intros ->. destruct Ho as [Ho|Ho]; congruence.
Qed.

(** ** Coalescing *)

Section coalesce.
Context {K V : Type} `{EqDecision K} (key : V -> K).

Lemma kv_set_keys (k : K) (v : V) d : forall x, x ∈ map fst (kv_set k v d) <-> x = k \/ x ∈ map fst d.
Proof.
  induction d as [|[k' v'] d IH]; intros x; simpl; [set_solver|].
  case_decide; subst; simpl; rewrite !elem_of_cons; [naive_solver|]. rewrite IH. naive_solver.
Qed.

Lemma kv_set_nodup (k : K) (v : V) d : NoDup (map fst d) -> NoDup (map fst (kv_set k v d)).
Proof.
  induction d as [|[k' v'] d IH]; simpl; intros Hnd; [by apply NoDup_singleton|].
  apply NoDup_cons in Hnd as [Hk Hnd]. case_decide; subst; simpl; apply NoDup_cons; [done|].
  split; [|auto]. rewrite kv_set_keys. naive_solver.
Qed.

Lemma kv_set_elem (k : K) v d k' (v' : V) :
  NoDup (map fst d) -> (k', v') ∈ kv_set k v d <-> (k' = k /\ v' = v) \/ (k' <> k /\ (k', v') ∈ d).
Proof.
  induction d as [|[k0 v0] d IH]; simpl; intros Hnd.
  - rewrite list_elem_of_singleton, elem_of_nil. naive_solver.
  - apply NoDup_cons in Hnd as [Hk Hnd].
    assert (Hd : forall w, (k0, w) ∈ d -> False) by (intros w Hw; apply Hk, list_elem_of_fmap; by exists (k0, w)).
    case_decide; subst; rewrite !elem_of_cons; [naive_solver|]. rewrite IH by done. naive_solver.
Qed.

(** The dictionary of a loop [d[key(r)] = r]: the last record of each key. *)
Lemma coalesced_dict rows (k : K) (v : V) :
  let d := fold_left (fun d r => kv_set (key r) r d) rows [] in
  NoDup (map fst d) /\ ((k, v) ∈ d <-> exists a b, rows = a ++ v :: b /\ key v = k /\ Forall (fun x => key x <> k) b).
Proof.
  induction rows as [|r rows IH] using rev_ind; simpl.
  - split; [constructor|]. rewrite elem_of_nil. split; [done|]. intros (a & b & Heq & _). by destruct a.
  - rewrite fold_left_app. simpl. destruct IH as [Hnd IH]. split; [by apply kv_set_nodup|].
    rewrite kv_set_elem by done. split.
    + intros [[-> ->]|[Hne Hin]]; [by exists rows, []|]. apply IH in Hin as (a & b & -> & Hk & Hb).
      exists a, (b ++ [r]). split_and!; [by simplify_list_eq|done|]. apply Forall_app. split; [done|]. apply Forall_singleton. congruence.
    + intros (a & b & Heq & Hk & Hb). destruct b as [|y b] using rev_ind.
      * apply app_inj_tail in Heq as [-> ->]. auto.
      * clear IHb. rewrite app_comm_cons, app_assoc in Heq. apply app_inj_tail in Heq as [-> ->].
        apply Forall_app in Hb as [Hb Hy]. rewrite Forall_singleton in Hy. right. split; [congruence|]. apply IH. eauto.
Qed.
End coalesce.

(** Of the id-only records of one call, exactly the last one of each driver, collection
    and item becomes a row: a delete that follows an upsert wins, and the reverse. *)
Lemma coalesce_last_wins rows r :
  r ∈ coalesce_id_only_rows rows <->
  exists a b, rows = a ++ r :: b /\ Forall (fun x => id_only_key x <> id_only_key r) b.
Proof.
  unfold coalesce_id_only_rows, coalesce_by. rewrite list_elem_of_fmap. split.
  - intros ([k v] & -> & Hin). destruct (coalesced_dict id_only_key rows k v) as [_ Hd].
    apply Hd in Hin as (a & b & -> & <- & Hb). eauto.
  - intros (a & b & -> & Hb). exists (id_only_key r, r). split; [done|].
    apply (coalesced_dict id_only_key (a ++ r :: b)). eauto.
Qed.
