(* ===== verification/StorageDrainProofs.v ===== *)
(** * Every claimed row is settled

    Facts about [StorageDrain]: the groups of a batch, an induction principle for the
    processing of one driver's rows, the fate of every claimed row, and the end of the
    drain loop. *)

From S2P Require Import Prelude TaskQueue TaskQueueProofs StoragePlane StoragePlaneProofs StorageIndexer StorageDrain.

(** ** Groups *)

Section groups.
Context {K V : Type} `{EqDecision K} (key : V -> option K).

(** The loop [d.setdefault(key(x), []).append(x)] over the items that have a key. *)
Definition group_by (l : list V) : list (K * list V) :=
  fold_left (fun d x => match key x with Some k => kv_append k x d | None => d end) l [].

Definition has_key (k : K) (x : V) : bool := bool_decide (key x = Some k).

Lemma kv_append_elem (k k' : K) (v : V) d vs :
  NoDup (map fst d) ->
  (k', vs) ∈ kv_append k v d <->
  (k' <> k /\ (k', vs) ∈ d) \/
  (k' = k /\ ((exists us, (k, us) ∈ d /\ vs = us ++ [v]) \/ (k ∉ map fst d /\ vs = [v]))).
Proof.
  induction d as [|[k0 us0] d IH]; simpl; intros Hnd.
  - rewrite list_elem_of_singleton, elem_of_nil. split.
    + intros [= -> ->]. right. split; [done|]. right. split; [apply not_elem_of_nil|done].
    + intros [[_ []]|[-> [(us & []%elem_of_nil & _)|[_ ->]]]]. done.
  - apply NoDup_cons in Hnd as [Hk Hnd].
    assert (Hd : forall w, (k0, w) ∈ d -> False) by (intros w Hw; apply Hk, list_elem_of_fmap; by exists (k0, w)).
    case_decide as Hdec; subst.
    + rewrite !elem_of_cons. split.
      * intros [[= -> ->]|Hin]; [right; split; [done|left; exists us0; split; [by left|done]]|].
        left. split; [|auto]. intros ->. eauto.
      * intros [[Hne [[= -> ->]|Hin]]|[-> [(us & Hin & ->)|[Hnin _]]]]; [done|by right| |].
        -- apply elem_of_cons in Hin as [[= ->]|Hin]; [by left|by apply Hd in Hin].
        -- exfalso. apply Hnin. by left.
    + rewrite !elem_of_cons, IH by done. split.
      * intros [[= -> ->]|[[Hne Hin]|[-> [(us & Hin & ->)|[Hnin ->]]]]].
        -- left. split; [by intros ->|by left].
        -- left. auto.
        -- right. split; [done|]. left. exists us. split; [by right|done].
        -- right. split; [done|]. right. split; [|done]. intros [Hx|Hx]; [congruence|by apply Hnin].
      * intros [[Hne [[= -> ->]|Hin]]|[-> [(us & Hin & ->)|[Hnin ->]]]]; [by left|right; left; auto| |].
        -- apply elem_of_cons in Hin as [[= -> _]|Hin]; [done|]. right. right. split; [done|]. left. eauto.
        -- right. right. split; [done|]. right. split; [|done]. intros ?. apply Hnin. by right.
Qed.

Lemma kv_append_keys (k x : K) (v : V) d : x ∈ map fst (kv_append k v d) <-> x = k \/ x ∈ map fst d.
Proof.
  induction d as [|[k' vs] d IH]; simpl; [rewrite list_elem_of_singleton, elem_of_nil; naive_solver|].
  case_decide; subst; simpl; rewrite !elem_of_cons; [naive_solver|]. rewrite IH. naive_solver.
Qed.

Lemma kv_append_nodup (k : K) (v : V) d : NoDup (map fst d) -> NoDup (map fst (kv_append k v d)).
Proof.
  induction d as [|[k' vs] d IH]; simpl; intros Hnd; [by apply NoDup_singleton|].
  apply NoDup_cons in Hnd as [Hk Hnd]. case_decide; subst; simpl; apply NoDup_cons; [done|].
  split; [|auto]. rewrite kv_append_keys. naive_solver.
Qed.

(** The groups are the items of each key, in the order of the list. *)
Lemma group_by_spec l :
  NoDup (map fst (group_by l)) /\
  forall k vs, (k, vs) ∈ group_by l <-> vs = List.filter (has_key k) l /\ vs <> [].
Proof.
  unfold group_by. induction l as [|x l IH] using rev_ind; simpl.
  - split; [constructor|]. intros k vs. rewrite elem_of_nil. naive_solver.
  - rewrite fold_left_app. simpl. set (d := fold_left _ l []) in *. destruct IH as [Hnd IH].
    assert (Hf : forall k, List.filter (has_key k) (l ++ [x]) = List.filter (has_key k) l ++ if has_key k x then [x] else []).
    { intros k. rewrite List.filter_app. simpl. by destruct (has_key k x). }
    destruct (key x) as [k0|] eqn:Hk0.
    + split; [by apply kv_append_nodup|]. intros k vs. rewrite kv_append_elem, Hf by done. unfold has_key at 2. rewrite Hk0.
      setoid_rewrite IH. destruct (decide (k = k0)) as [->|Hne].
      * rewrite bool_decide_eq_true_2 by done. split.
        -- intros [[? _]|[_ [(us & [-> _] & ->)|[Hnin ->]]]]; [done|by split; [|destruct (List.filter _ _)]|].
           assert (List.filter (has_key k0) l = []) as ->; [|done].
           destruct (List.filter (has_key k0) l) as [|y ys] eqn:E; [done|]. exfalso. apply Hnin.
           apply list_elem_of_fmap. exists (k0, y :: ys). split; [done|]. apply IH. by rewrite E.
        -- intros [-> _]. right. split; [done|]. destruct (List.filter (has_key k0) l) as [|y ys] eqn:E.
           ++ right. split; [|done]. intros Hin. apply list_elem_of_fmap in Hin as ([k us] & -> & Hin).
              apply IH in Hin as [-> Hin]. simpl in E. by rewrite E in Hin.
           ++ left. by exists (y :: ys).
      * rewrite bool_decide_eq_false_2 by congruence. rewrite app_nil_r. split; [|naive_solver].
        intros [[_ ?]|[? _]]; done.
    + split; [done|]. intros k vs. rewrite IH, Hf. unfold has_key at 3. rewrite Hk0. simpl. by rewrite app_nil_r.
Qed.

Lemma group_by_elem l k vs x : (k, vs) ∈ group_by l -> x ∈ vs -> x ∈ l /\ key x = Some k.
Proof.
  intros [-> _]%group_by_spec [Hp Hx]%in_filter. unfold has_key in Hp. by apply bool_decide_eq_true in Hp.
Qed.

Lemma group_by_complete l k x : x ∈ l -> key x = Some k -> exists vs, (k, vs) ∈ group_by l /\ x ∈ vs.
Proof.
  intros Hx Hk. exists (List.filter (has_key k) l).
  assert (x ∈ List.filter (has_key k) l) by (apply in_filter; unfold has_key; rewrite bool_decide_eq_true; auto).
  split; [|done]. apply group_by_spec. split; [done|]. intros E. rewrite E in *. by eapply elem_of_nil.
Qed.
End groups.

(** ** The rows of one driver *)

(** The write batch a row refers to, and the keys it is grouped under. *)
Definition write_ref (r : srow) : option string :=
  if str_mem (o_op (ob r)) ["upsert"; "delete"] then nonempty (o_write (ob r)) else None.

Definition write_key (kv : claimed) : option (string * string * string * string) :=
  (fun w => (o_catalog (ob kv.2), collection_of kv.2, o_op (ob kv.2), w)) <$> write_ref kv.2.

Definition id_key (kv : claimed) : option (string * string) :=
  match write_ref kv.2, nonempty (o_entity (ob kv.2)) with
  | None, Some _ => if o_op (ob kv.2) ==s "upsert" then Some (o_catalog (ob kv.2), collection_of kv.2) else None
  | _, _ => None
  end.

Section driver.
Context {I : Type} (env : drain_env I).
Context (now : Z) (owner driver : string) (byte_budget : Z) (page_fuel : nat).

(** The first loop without its groups. *)
Definition classify_state (kv : claimed) (st : dstate I) : dstate I :=
  match write_ref kv.2, nonempty (o_entity (ob kv.2)) with
  | Some _, _ => st
  | None, None => set_tbl (mark_dead now owner kv (d_tbl st)) st
  | None, Some _ => if o_op (ob kv.2) ==s "upsert" then st else append_op env now owner driver byte_budget kv delete_payload st
  end.

Lemma classify_rows_groups rows st :
  classify_rows env now owner driver byte_budget rows st =
  (fold_left (fun st kv => classify_state kv st) rows st, group_by id_key rows, group_by write_key rows).
Proof.
  unfold classify_rows, group_by.
  assert (H : forall ids ws, fold_left (fun acc kv => classify_row env now owner driver byte_budget kv acc) rows (st, ids, ws)
    = (fold_left (fun st kv => classify_state kv st) rows st,
       fold_left (fun d x => match id_key x with Some k => kv_append k x d | None => d end) rows ids,
       fold_left (fun d x => match write_key x with Some k => kv_append k x d | None => d end) rows ws)); [|apply H].
  revert st. induction rows as [|kv rows IH]; intros st ids ws; [done|]. cbn [fold_left]. rewrite <-IH. f_equal.
  unfold classify_row, classify_state, id_key, write_key. cbv zeta.
  change (if str_mem (o_op (ob kv.2)) ["upsert"; "delete"] then nonempty (o_write (ob kv.2)) else None)
    with (write_ref kv.2).
  destruct (write_ref kv.2) as [w|]; [done|]. simpl. destruct (nonempty (o_entity (ob kv.2))); [|done].
  by destruct (_ ==s _).
Qed.

(** What can be pushed on the pending sub-chunk: a delete, or an upsert with the
    document built from a re-read that found the item. *)
Definition pushable (kv : claimed) (doc : pyval) : Prop :=
  (write_ref kv.2 = None /\ (exists g, nonempty (o_entity (ob kv.2)) = Some g) /\ o_op (ob kv.2) <> "upsert" /\
   doc = delete_payload) \/
  (exists cat col g n geoids inputs ci, id_key kv = Some (cat, col) /\ nonempty (o_entity (ob kv.2)) = Some g /\
     read_canonical env n cat col geoids = Some inputs /\ g ∈ geoids /\ dict_get g inputs = Some ci /\
     build_canonical_doc env driver cat col ci = Some doc).

(** A re-read that did not find the item of the row. *)
Definition absent (kv : claimed) : Prop :=
  exists cat col g n geoids inputs, id_key kv = Some (cat, col) /\ nonempty (o_entity (ob kv.2)) = Some g /\
    read_canonical env n cat col geoids = Some inputs /\ g ∈ geoids /\ dict_get g inputs = None.

(** A write batch that was read. *)
Definition hydrated (kv : claimed) (ops : list IndexableOp) : Prop :=
  exists cat col op w n, write_key kv = Some (cat, col, op, w) /\
    (read_primary_write_batch env driver page_fuel cat col op w n).1 = Some ops.

Definition mark_outcome (w : write_outcome) : Z -> string -> claimed -> stable -> stable :=
  match w with WDone => mark_done | WRetry => mark_retry | WDead => mark_dead end.

Definition flushed (res : option BulkIndexResult) (rows : list claimed) (tbl : stable) : stable :=
  match res with
  | None => apply_retry_all now owner rows tbl
  | Some r => (apply_outcomes now owner rows r tbl).2
  end.

(** What a property of the batch has to survive: the primitive steps. *)
Record step_closed (Q : stable -> I -> list IndexableOp -> list claimed -> Prop) (rows : list claimed) : Prop := {
  Q_retry : forall kv t i o r, kv ∈ rows -> Q t i o r -> Q (mark_retry now owner kv t) i o r;
  Q_dead : forall kv t i o r, kv ∈ rows -> write_ref kv.2 = None -> nonempty (o_entity (ob kv.2)) = None ->
             Q t i o r -> Q (mark_dead now owner kv t) i o r;
  Q_push : forall kv doc t i o r, kv ∈ rows -> pushable kv doc -> Q t i o r ->
             Q t i (o ++ [row_to_op env kv doc]) (r ++ [kv]);
  Q_flush : forall t i o r res i', Q t i o r -> o <> [] -> index_bulk env driver o i = (res, i') ->
              Q (flushed res r t) i' [] [];
  Q_absent : forall kv t i o r, kv ∈ rows -> absent kv -> Q t i o r -> Q (mark_done now owner kv t) i o r;
  Q_nothing : forall kv t i o r, kv ∈ rows -> hydrated kv [] -> Q t i o r -> Q (mark_done now owner kv t) i o r;
  Q_write : forall kv ops t i o r w b i', kv ∈ rows -> hydrated kv ops -> ops <> [] ->
              send_write_batch env driver byte_budget ops [] 0 0 i = (w, b, i') ->
              Q t i o r -> Q (mark_outcome w now owner kv t) i' o r;
}.

Section ind.
Context (Q : stable -> I -> list IndexableOp -> list claimed -> Prop) (rows : list claimed) (HC : step_closed Q rows).

Definition holds (st : dstate I) : Prop := Q (d_tbl st) (d_idx st) (d_ops st) (d_rows st).

Lemma flush_ind st : holds st -> holds (flush_ops env now owner driver st).
Proof.
  unfold holds, flush_ops. intros HQ. destruct (d_ops st) as [|o os] eqn:E; [by rewrite E|].
  destruct (index_bulk env driver (o :: os) (d_idx st)) as [res i'] eqn:Ei.
  pose proof (Q_flush _ _ HC _ _ _ _ _ _ HQ ltac:(done) Ei) as HQ'. unfold flushed in HQ'.
  destruct res as [r|]; [|done]. by destruct (apply_outcomes now owner (d_rows st) r (d_tbl st)).
Qed.

Lemma append_ind kv doc st :
  kv ∈ rows -> pushable kv doc -> holds st -> holds (append_op env now owner driver byte_budget kv doc st).
Proof.
  intros Hin Hp HQ. unfold append_op. case_goal; [apply flush_ind|]; unfold holds; simpl; by apply (Q_push _ _ HC).
Qed.

Lemma classify_ind kvs st : kvs ⊆ rows -> holds st -> holds (fold_left (fun st kv => classify_state kv st) kvs st).
Proof.
  revert st. induction kvs as [|kv kvs IH]; intros st Hsub HQ; [done|]. simpl.
  assert (Hkv : kv ∈ rows) by (apply Hsub; by left). apply IH; [set_solver|]. unfold classify_state.
  destruct (write_ref kv.2) as [w|] eqn:Ew; [done|]. destruct (nonempty (o_entity (ob kv.2))) as [g|] eqn:Eg.
  - destruct (_ ==s _) eqn:Eo; [done|]. bool_hyps. apply append_ind; [done| |done]. left. eauto.
  - unfold holds. simpl. by apply (Q_dead _ _ HC).
Qed.

Lemma write_group_ind k kvs st :
  (k, kvs) ∈ group_by write_key rows -> holds st ->
  holds (process_write_group env now owner driver byte_budget page_fuel (k, kvs) st).
Proof.
  intros Hg HQ. unfold process_write_group. destruct k as [[[cat col] op] w]. simpl.
  destruct (last kvs) as [kv|] eqn:El; [|done].
  assert (Hkv : kv ∈ rows /\ write_key kv = Some (cat, col, op, w)).
  { eapply group_by_elem; [done|]. by apply last_Some_elem_of. }
  destruct Hkv as [Hkv Hk].
  destruct (read_primary_write_batch _ _ _ _ _ _ _ _) as [[ops|] reads] eqn:Er; [|unfold holds; simpl; by apply (Q_retry _ _ HC)].
  assert (Hh : hydrated kv ops) by (exists cat, col, op, w, (d_reads st); by rewrite Er).
  destruct ops as [|o ops]; [unfold holds; simpl; by apply (Q_nothing _ _ HC)|].
  destruct (send_write_batch _ _ _ _ _ _ _ _) as [[wo b] i'] eqn:Es.
  pose proof (Q_write _ _ HC _ _ _ _ _ _ _ _ _ Hkv Hh ltac:(done) Es HQ) as HQ'. by destruct wo.
Qed.

Lemma id_row_ind cat col n geoids inputs kv st :
  kv ∈ rows -> id_key kv = Some (cat, col) -> read_canonical env n cat col geoids = Some inputs ->
  (forall g, nonempty (o_entity (ob kv.2)) = Some g -> g ∈ geoids) -> holds st ->
  holds (process_id_row env now owner driver byte_budget cat col inputs kv st).
Proof.
  intros Hkv Hk Hr Hg HQ. unfold process_id_row.
  assert (He : exists g, nonempty (o_entity (ob kv.2)) = Some g).
  { unfold id_key in Hk. destruct (write_ref kv.2); [done|]. destruct (nonempty (o_entity (ob kv.2))); [eauto|done]. }
  destruct He as [g He]. rewrite He. simpl. destruct (dict_get g inputs) as [ci|] eqn:Ec.
  - destruct (build_canonical_doc env driver cat col ci) as [doc|] eqn:Eb.
    + apply append_ind; [done| |done]. right. exists cat, col, g, n, geoids, inputs, ci. auto 10.
    + unfold holds. simpl. by apply (Q_retry _ _ HC).
  - unfold holds. simpl. apply (Q_absent _ _ HC); [done| |done]. exists cat, col, g, n, geoids, inputs. auto 10.
Qed.

Lemma retry_all_ind kvs t i o r : kvs ⊆ rows -> Q t i o r -> Q (apply_retry_all now owner kvs t) i o r.
Proof.
  unfold apply_retry_all. revert t. induction kvs as [|kv kvs IH]; intros t Hsub HQ; [done|]. simpl.
  apply IH; [set_solver|]. apply (Q_retry _ _ HC); [apply Hsub; by left|done].
Qed.

Lemma chunk_ind cat col chunk st :
  (forall kv, kv ∈ chunk -> kv ∈ rows /\ id_key kv = Some (cat, col)) -> holds st ->
  holds (process_chunk env now owner driver byte_budget cat col chunk st).
Proof.
  intros Hc HQ. unfold process_chunk. set (geoids := omap _ chunk).
  destruct (read_canonical env (d_reads st) cat col geoids) as [inputs|] eqn:Er.
  - assert (Hg : forall kv g, kv ∈ chunk -> nonempty (o_entity (ob kv.2)) = Some g -> g ∈ geoids).
    { intros kv g Hin He. subst geoids. apply list_elem_of_omap. eauto. }
    assert (Hsub : chunk ⊆ chunk) by done. revert Hsub. generalize chunk at 1 3.
    assert (HQ' : holds (bump_reads st)) by done. revert HQ'. generalize (bump_reads st).
    intros st' HQ' l. revert st' HQ'. induction l as [|kv l IH]; intros st' HQ' Hsub; [done|]. simpl.
    apply IH; [|set_solver]. assert (Hkv : kv ∈ chunk) by (apply Hsub; by left). destruct (Hc _ Hkv).
    eapply id_row_ind; eauto.
  - unfold holds. simpl. apply retry_all_ind; [|done]. intros kv Hkv. by apply Hc.
Qed.

Lemma group_loop_ind fuel cat col kvs n st :
  (forall kv, kv ∈ kvs -> kv ∈ rows /\ id_key kv = Some (cat, col)) -> holds st ->
  holds (process_group_loop env now owner driver byte_budget fuel cat col kvs n st).
Proof.
  revert kvs n st. induction fuel as [|fuel IH]; intros kvs n st Hc HQ; [done|]. cbn [process_group_loop].
  destruct kvs as [|kv kvs]; [done|]. apply IH.
  - intros x Hx. apply Hc. eapply subseteq_drop; exact Hx.
  - apply chunk_ind; [|done]. intros x Hx. apply Hc. by eapply take_elem.
Qed.

(** What the primitive steps keep, the processing of the batch keeps. *)
Lemma process_ind tbl idx reads :
  Q tbl idx [] [] -> holds (process_driver_rows env now owner driver byte_budget page_fuel rows tbl idx reads).
Proof.
  intros HQ. unfold process_driver_rows. rewrite classify_rows_groups. apply flush_ind.
  assert (H0 : holds (mkD tbl idx [] [] 0 no_counts reads)) by done. revert H0. generalize (mkD tbl idx [] [] 0 no_counts reads).
  intros st H0. apply (classify_ind rows) in H0; [|done]. revert H0. generalize (fold_left (fun st kv => classify_state kv st) rows st).
  clear st. intros st H0.
  assert (H1 : holds (fold_left (fun st g => process_write_group env now owner driver byte_budget page_fuel g st) (group_by write_key rows) st)).
  { assert (Hs : group_by write_key rows ⊆ group_by write_key rows) by done. revert Hs st H0. generalize (group_by write_key rows) at 1 3.
    intros l. induction l as [|[k kvs] l IH]; intros Hs st H0; [done|]. simpl. apply IH; [set_solver|].
    apply write_group_ind; [apply Hs; by left|done]. }
  revert H1. generalize (fold_left (fun st g => process_write_group env now owner driver byte_budget page_fuel g st) (group_by write_key rows) st).
  clear st H0. intros st H1.
  assert (Hs : group_by id_key rows ⊆ group_by id_key rows) by done. revert Hs st H1. generalize (group_by id_key rows) at 1 3.
  intros l. induction l as [|[[cat col] kvs] l IH]; intros Hs st H1; [done|]. simpl. apply IH; [set_solver|].
  unfold process_id_group. apply group_loop_ind; [|done]. intros kv Hkv. eapply group_by_elem; [|done]. apply Hs. by left.
Qed.
End ind.
End driver.

(** ** Terminal writes in sequence *)

Lemma fold_left_map {A B C} (f : C -> B -> C) (g : A -> B) l c :
  fold_left f (map g l) c = fold_left (fun c a => f c (g a)) l c.
Proof. revert c. induction l as [|a l IH]; intros c; simpl; auto. Qed.

Definition apply_marks (now : Z) (owner : string) (ms : list (mark_kind * claimed)) (tbl : stable) : stable :=
  fold_left (fun t mk => s_mark mk.1 now owner mk.2 t) ms tbl.

Definition rows_by_id (rows : list claimed) : list (Z * claimed) := fold_left (fun d kv => kv_set kv.1.2 kv d) rows [].

Definition marks_of (m : mark_kind) (by_id : list (Z * claimed)) (ids : list Z) : list (mark_kind * claimed) :=
  omap (fun i => (fun kv => (m, kv)) <$> rows_get i by_id) ids.

(** The terminal writes a bulk result leads to, in their order. *)
Definition flush_marks (res : option BulkIndexResult) (rows : list claimed) : list (mark_kind * claimed) :=
  match res with
  | None => map (pair MRetry) rows
  | Some r =>
      let by_id := rows_by_id rows in
      let categorized := r_passed r ++ map fst (r_transient r) ++ map fst (r_poison r) in
      marks_of MDone by_id (r_passed r) ++ marks_of MRetry by_id (map fst (r_transient r))
      ++ marks_of MDead by_id (map fst (r_poison r))
      ++ map (fun ikv : Z * claimed => (MRetry, ikv.2))
           (List.filter (fun ikv : Z * claimed => negb (bool_decide (ikv.1 ∈ categorized))) by_id)
  end.

Section marks.
Context (now : Z) (owner : string).

Lemma mark_ids_marks m mark by_id ids tbl :
  (forall kv t, mark kv t = s_mark m now owner kv t) ->
  (mark_ids mark by_id ids tbl).2 = apply_marks now owner (marks_of m by_id ids) tbl.
Proof.
  intros Hm. unfold mark_ids. generalize 0. revert tbl. induction ids as [|i ids IH]; intros tbl n; [done|]. simpl.
  destruct (rows_get i by_id) as [kv|]; simpl; rewrite IH; [by rewrite Hm|done].
Qed.

Lemma apply_marks_app ms ms' tbl : apply_marks now owner (ms ++ ms') tbl = apply_marks now owner ms' (apply_marks now owner ms tbl).
Proof. apply fold_left_app. Qed.

Lemma flushed_marks res rows tbl : flushed now owner res rows tbl = apply_marks now owner (flush_marks res rows) tbl.
Proof.
  destruct res as [r|]; simpl.
  - unfold apply_outcomes. fold (rows_by_id rows).
    destruct (mark_ids (mark_done now owner) (rows_by_id rows) (r_passed r) tbl) as [n1 t1] eqn:E1.
    destruct (mark_ids (mark_retry now owner) (rows_by_id rows) (map fst (r_transient r)) t1) as [n2 t2] eqn:E2.
    destruct (mark_ids (mark_dead now owner) (rows_by_id rows) (map fst (r_poison r)) t2) as [n3 t3] eqn:E3.
    rewrite !apply_marks_app, <-(mark_ids_marks MDone (mark_done now owner)), E1 by done. simpl.
    rewrite <-(mark_ids_marks MRetry (mark_retry now owner)), E2 by done. simpl.
    rewrite <-(mark_ids_marks MDead (mark_dead now owner)), E3 by done. simpl.
    unfold apply_marks. by rewrite fold_left_map.
  - unfold apply_retry_all, apply_marks. by rewrite fold_left_map.
Qed.

(** *** The fate of a row *)

(** The row is as claimed, or has been settled: done or dead, or ready again after its
    back-off with one attempt more. *)
Definition held (tbl : stable) (kv : claimed) : Prop := tbl !! kv.1 = Some kv.2.

Definition settled (tbl : stable) (kv : claimed) : Prop :=
  exists r, tbl !! kv.1 = Some r /\ ob r = ob kv.2 /\ claim_version r = claim_version kv.2 /\
    ((s_status r = SDone \/ s_status r = SDead) /\ claimed_by r = Some owner /\ attempts r = attempts kv.2 /\
       s_finished r = Some now
     \/ s_status r = SReady /\ claimed_by r = None /\ attempts r = attempts kv.2 + 1 /\
        ready_at r = now + backoff (attempts kv.2)).

Definition fresh_claim (kv : claimed) : Prop :=
  s_status kv.2 = SInFlight /\ claimed_by kv.2 = Some owner /\ claimed_at kv.2 = Some now.

Lemma s_mark_settles m kv tbl :
  fresh_claim kv -> held tbl kv \/ settled tbl kv -> settled (s_mark m now owner kv tbl) kv.
Proof.
  intros (Hs & Hb & _) Ho. unfold settled. rewrite s_mark_cas, s_cas_lookup. destruct Ho as [Hh|(r & Hr & Hob & Hv & Hcase)].
  - rewrite Hh, Hb. simpl. rewrite String.eqb_refl, Z.eqb_refl. simpl. eexists. split; [done|]. destruct m; simpl; auto 10.
  - rewrite Hr. destruct Hcase as [(Hst & Hcb & Ha & Hfin)|(Hst & Hcb & Ha & Hra)]; rewrite Hcb; simpl.
    + rewrite String.eqb_refl, Hv, Z.eqb_refl. simpl. eexists. split; [done|]. destruct m; simpl; rewrite ?Ha; auto 10.
    + eexists. split; [done|]. auto 10.
Qed.

Lemma s_mark_other m (kv kv' : claimed) tbl :
  kv'.1 <> kv.1 -> s_mark m now owner kv tbl !! kv'.1 = tbl !! kv'.1.
Proof. intros. rewrite s_mark_cas. by apply s_cas_other. Qed.

(** The claimed rows of a batch: distinct keys and op ids, freshly claimed. *)
Definition batch_ok (U : list claimed) : Prop :=
  NoDup (map fst U) /\ NoDup (map (fun kv : claimed => kv.1.2) U) /\ Forall fresh_claim U.

Lemma batch_key U (kv kv' : claimed) : batch_ok U -> kv ∈ U -> kv' ∈ U -> kv.1 = kv'.1 -> kv = kv'.
Proof.
  intros (Hnd & _ & _) Hin Hin' Heq. destruct kv as [k r], kv' as [k' r']. simpl in *. subst.
  apply list_elem_of_lookup in Hin as [i Hi], Hin' as [j Hj].
  assert (i = j) as ->; [|by rewrite Hi in Hj; injection Hj as ->].
  eapply (NoDup_lookup _ i j k' Hnd); by rewrite list_lookup_fmap, ?Hi, ?Hj.
Qed.

(** The state of the batch: every row is held or settled, other rows are as before. *)
Definition batch_state (U : list claimed) (tbl0 tbl : stable) : Prop :=
  (forall kv, kv ∈ U -> held tbl kv \/ settled tbl kv) /\ (forall k, k ∉ map fst U -> tbl !! k = tbl0 !! k).

Lemma batch_state_mark U tbl0 m kv tbl :
  batch_ok U -> kv ∈ U -> batch_state U tbl0 tbl -> batch_state U tbl0 (s_mark m now owner kv tbl).
Proof.
  intros Hok Hkv [Hin Hout]. pose proof Hok as (_ & _ & Hfr). rewrite Forall_forall in Hfr. split.
  - intros kv' Hkv'. destruct (decide (kv'.1 = kv.1)) as [Heq|Hne].
    + assert (kv' = kv) as -> by (by eapply batch_key). right. apply s_mark_settles; auto.
    + unfold held, settled. rewrite s_mark_other by done. by apply Hin.
  - intros k Hk. rewrite s_mark_cas, s_cas_other; [auto|]. intros ->. apply Hk. by apply list_elem_of_fmap_2.
Qed.

Lemma settled_mark U m kv kv' tbl :
  batch_ok U -> kv ∈ U -> kv' ∈ U -> settled tbl kv' -> settled (s_mark m now owner kv tbl) kv'.
Proof.
  intros Hok Hkv Hkv' Hs. pose proof Hok as (_ & _ & Hfr). rewrite Forall_forall in Hfr.
  destruct (decide (kv'.1 = kv.1)) as [Heq|Hne].
  - assert (kv' = kv) as -> by (by eapply batch_key). apply s_mark_settles; auto.
  - unfold settled. by rewrite s_mark_other.
Qed.

Lemma apply_marks_state U tbl0 ms tbl :
  batch_ok U -> Forall (fun mk => mk.2 ∈ U) ms -> batch_state U tbl0 tbl -> batch_state U tbl0 (apply_marks now owner ms tbl).
Proof.
  intros Hok. revert tbl. induction ms as [|[m kv] ms IH]; intros tbl Hall Hst; [done|].
  apply Forall_cons in Hall as [Hkv Hall]. apply IH; [done|]. by apply batch_state_mark.
Qed.

Lemma apply_marks_settled U ms kv tbl :
  batch_ok U -> kv ∈ U -> Forall (fun mk => mk.2 ∈ U) ms -> settled tbl kv -> settled (apply_marks now owner ms tbl) kv.
Proof.
  intros Hok Hkv. revert tbl. induction ms as [|[m kv'] ms IH]; intros tbl Hall Hs; [done|].
  apply Forall_cons in Hall as [Hkv' Hall]. apply IH; [done|]. by eapply settled_mark.
Qed.

Lemma apply_marks_settle U tbl0 ms kv tbl :
  batch_ok U -> kv ∈ U -> Forall (fun mk => mk.2 ∈ U) ms -> batch_state U tbl0 tbl -> kv ∈ map snd ms ->
  settled (apply_marks now owner ms tbl) kv.
Proof.
  intros Hok Hkv. revert tbl. induction ms as [|[m kv'] ms IH]; intros tbl Hall Hst Hin; [by apply elem_of_nil in Hin|].
  apply Forall_cons in Hall as [Hkv' Hall]. apply elem_of_cons in Hin as [->|Hin].
  - simpl. eapply apply_marks_settled; [done..|]. pose proof Hok as (_ & _ & Hfr). rewrite Forall_forall in Hfr.
    simpl in *. apply s_mark_settles; [by apply Hfr|by apply Hst].
  - simpl. apply IH; [done| |done]. by apply batch_state_mark.
Qed.

(** *** The rows of a sub-chunk *)

Lemma rows_get_elem d i kv : rows_get i d = Some kv -> (i, kv) ∈ d.
Proof.
  induction d as [|[j kv'] d IH]; simpl; [done|]. destruct (i =? j) eqn:E; [|intros; right; auto].
  bool_hyps. intros [= ->]. subst. by left.
Qed.

Lemma rows_get_nodup (d : list (Z * claimed)) i kv : NoDup (map fst d) -> (i, kv) ∈ d -> rows_get i d = Some kv.
Proof.
  induction d as [|[j kv'] d IH]; simpl; intros Hnd Hin; [by apply elem_of_nil in Hin|].
  apply NoDup_cons in Hnd as [Hj Hnd]. apply elem_of_cons in Hin as [[= <- <-]|Hin]; [by rewrite Z.eqb_refl|].
  destruct (i =? j) eqn:E; [|auto]. bool_hyps. subst. exfalso. apply Hj. apply list_elem_of_fmap. by exists (j, kv).
Qed.

Lemma rows_by_id_elem rows i (kv : claimed) :
  (i, kv) ∈ rows_by_id rows -> i = kv.1.2 /\ kv ∈ rows.
Proof.
  intros Hin. destruct (coalesced_dict (fun kv : claimed => kv.1.2) rows i kv) as [_ Hd].
  apply Hd in Hin as (a & b & -> & <- & _). split; [done|]. apply elem_of_app. right. by left.
Qed.

Lemma rows_by_id_complete rows (kv : claimed) :
  (forall kv', kv' ∈ rows -> kv'.1.2 = kv.1.2 -> kv' = kv) -> kv ∈ rows -> (kv.1.2, kv) ∈ rows_by_id rows.
Proof.
  intros Huniq Hin. destruct (coalesced_dict (fun kv : claimed => kv.1.2) rows kv.1.2 kv) as [_ Hd]. apply Hd.
  clear Hd. induction rows as [|x rows IH]; [by apply elem_of_nil in Hin|].
  destruct (decide (kv.1.2 ∈ map (fun kv : claimed => kv.1.2) rows)) as [Hr|Hr].
  - apply list_elem_of_fmap in Hr as (y & Hy & Hr). assert (y = kv) as -> by (apply Huniq; [by right|done]).
    destruct IH as (a & b & -> & Hk & Hb); [intros; apply Huniq; [by right|done]|done|]. exists (x :: a), b. auto.
  - apply elem_of_cons in Hin as [->|Hin]; [|destruct Hr; apply list_elem_of_fmap; eauto]. exists [], rows. split_and!; [done|done|].
    apply Forall_forall. intros y Hy Heq. apply Hr. apply list_elem_of_fmap. eauto.
Qed.

Lemma batch_id U (kv kv' : claimed) : batch_ok U -> kv ∈ U -> kv' ∈ U -> kv.1.2 = kv'.1.2 -> kv = kv'.
Proof.
  intros Hok Hin Hin' Heq. pose proof Hok as (_ & Hnd & _).
  apply list_elem_of_lookup in Hin as [i Hi], Hin' as [j Hj].
  assert (i = j) as ->; [|congruence].
  eapply (NoDup_lookup _ i j kv.1.2 Hnd); rewrite list_lookup_fmap; [by rewrite Hi|rewrite Hj; simpl; by f_equal].
Qed.

Lemma flush_marks_rows res rows mk : mk ∈ flush_marks res rows -> mk.2 ∈ rows.
Proof.
  assert (Hm : forall m ids mk, mk ∈ marks_of m (rows_by_id rows) ids -> mk.2 ∈ rows).
  { intros m ids [m' kv] Hin. apply list_elem_of_omap in Hin as (i & _ & Hi).
    destruct (rows_get i (rows_by_id rows)) eqn:E; simplify_eq/=. by apply rows_get_elem, rows_by_id_elem in E as [_ ?]. }
  destruct res as [r|]; simpl; intros Hin.
  - repeat (apply elem_of_app in Hin as [Hin|Hin]; [by eapply Hm|]).
    apply list_elem_of_fmap in Hin as ([i kv] & -> & [_ Hin]%in_filter). by apply rows_by_id_elem in Hin as [_ ?].
  - apply list_elem_of_fmap in Hin as (kv & -> & ?). done.
Qed.

Lemma marks_of_elem U rows kv m ids :
  batch_ok U -> rows ⊆ U -> kv ∈ rows -> kv.1.2 ∈ ids -> kv ∈ map snd (marks_of m (rows_by_id rows) ids).
Proof.
  intros Hok Hsub Hkv Hin. apply list_elem_of_fmap. exists (m, kv). split; [done|]. apply list_elem_of_omap.
  exists kv.1.2. split; [done|]. rewrite (rows_get_nodup _ _ kv); [done| |].
  - apply (coalesced_dict (fun kv : claimed => kv.1.2) rows kv.1.2 kv).
  - apply rows_by_id_complete; [|done]. intros kv' Hkv' Heq. eapply batch_id; eauto.
Qed.

Lemma flush_marks_all U res rows kv : batch_ok U -> rows ⊆ U -> kv ∈ rows -> kv ∈ map snd (flush_marks res rows).
Proof.
  intros Hok Hsub Hkv. destruct res as [r|]; simpl; [|rewrite map_map; simpl; by rewrite map_id].
  assert (Hby : (kv.1.2, kv) ∈ rows_by_id rows).
  { apply rows_by_id_complete; [|done]. intros kv' Hkv' Heq. eapply batch_id; eauto. }
  assert (Hm : forall m ids, kv.1.2 ∈ ids -> kv ∈ map snd (marks_of m (rows_by_id rows) ids)) by (intros; by eapply marks_of_elem).
  rewrite !map_app, !elem_of_app, map_map. simpl.
  destruct (decide (kv.1.2 ∈ r_passed r)); [by left; apply Hm|]. destruct (decide (kv.1.2 ∈ map fst (r_transient r))); [by right; left; apply Hm|].
  destruct (decide (kv.1.2 ∈ map fst (r_poison r))); [by right; right; left; apply Hm|]. right. right. right.
  apply list_elem_of_fmap. exists (kv.1.2, kv). split; [done|]. apply in_filter. split; [|done].
  apply negb_true_iff, bool_decide_eq_false. rewrite !elem_of_app. simpl. tauto.
Qed.
End marks.

(** ** Settlement *)

(** A row of a write batch that a later row of the claimed list stands for. *)
Definition shadowed (rows : list claimed) (kv : claimed) : Prop :=
  exists k a b kv', rows = a ++ kv :: b /\ write_key kv = Some k /\ kv' ∈ b /\ write_key kv' = Some k.

Definition unshadowed (rows : list claimed) (kv : claimed) : Prop :=
  exists a b, rows = a ++ kv :: b /\ forall x, x ∈ b -> write_key x = write_key kv -> write_key kv = None.

Lemma shadow_cases rows kv : kv ∈ rows -> shadowed rows kv \/ unshadowed rows kv.
Proof.
  intros (a & b & ->)%list_elem_of_split. destruct (write_key kv) as [k|] eqn:Hk.
  - destruct (decide (Exists (fun x => write_key x = Some k) b)) as [(x & Hx & Hkx)%Exists_exists|Hno].
    + left. exists k, a, b, x. auto.
    + right. exists a, b. split; [done|]. intros x Hx Heq. destruct Hno. apply Exists_exists. exists x. by rewrite Heq.
  - right. exists a, b. auto.
Qed.

Section settle.
Context {I : Type} (env : drain_env I).
Context (now : Z) (owner driver : string) (byte_budget : Z) (page_fuel : nat).
Context (U : list claimed) (tbl0 : stable) (rows : list claimed).
Context (HU : batch_ok now owner U) (Hsub : rows ⊆ U).

(** The batch is in order, the sub-chunk has one op per row, and [kv0] is settled or
    pending. *)
Definition tracks (kv0 : option claimed) (t : stable) (i : I) (o : list IndexableOp) (r : list claimed) : Prop :=
  batch_state now owner U tbl0 t /\ r ⊆ U /\ length o = length r /\
  match kv0 with Some kv0 => kv0 ∈ U /\ (settled now owner t kv0 \/ kv0 ∈ r) | None => True end.

Abbreviation tracked kv0 := (holds (tracks kv0)).

Lemma tracks_mark kv0 m kv t i o r : kv ∈ U -> tracks kv0 t i o r -> tracks kv0 (s_mark m now owner kv t) i o r.
Proof.
  intros Hkv (Hst & Hr & Hl & H0). split_and!; [by apply batch_state_mark|done|done|]. destruct kv0 as [kv0|]; [|done].
  destruct H0 as [H0 [Hs|Hin]]; [|auto]. split; [done|]. left. by eapply settled_mark.
Qed.

Lemma tracks_marked m kv t i o r : kv ∈ U -> tracks None t i o r -> tracks (Some kv) (s_mark m now owner kv t) i o r.
Proof.
  intros Hkv (Hst & Hr & Hl & _). split_and!; [by apply batch_state_mark|done|done|done|]. left.
  pose proof HU as (_ & _ & Hfr). rewrite Forall_forall in Hfr. apply s_mark_settles; [by apply Hfr|by apply Hst].
Qed.

Lemma tracks_weaken kv0 t i o r : tracks kv0 t i o r -> tracks None t i o r.
Proof. intros (? & ? & ? & _). by split_and!. Qed.

Lemma tracks_push kv0 kv op t i o r : kv ∈ U -> tracks kv0 t i o r -> tracks kv0 t i (o ++ [op]) (r ++ [kv]).
Proof.
  intros Hkv (Hst & Hr & Hl & H0). split_and!; [done|set_solver|rewrite !length_app; simpl; lia|].
  destruct kv0 as [kv0|]; [|done]. destruct H0 as [H0 [Hs|Hin]]; split; auto. right. apply elem_of_app. by left.
Qed.

Lemma tracks_pushed kv op t i o r : kv ∈ U -> tracks None t i o r -> tracks (Some kv) t i (o ++ [op]) (r ++ [kv]).
Proof.
  intros Hkv HQ. destruct (tracks_push None kv op _ _ _ _ Hkv HQ) as (? & ? & ? & _). split_and!; try done.
  right. apply elem_of_app. right. by left.
Qed.

Lemma tracks_flush kv0 t i o r res i' : tracks kv0 t i o r -> tracks kv0 (flushed now owner res r t) i' [] [].
Proof.
  intros (Hst & Hr & Hl & H0). rewrite flushed_marks.
  assert (Hall : Forall (fun mk : mark_kind * claimed => mk.2 ∈ U) (flush_marks res r)).
  { apply Forall_forall. intros mk Hmk. apply Hr. by eapply flush_marks_rows. }
  split_and!; [by apply apply_marks_state|set_solver|done|]. destruct kv0 as [kv0|]; [|done]. destruct H0 as [H0 Hor].
  split; [done|]. left. destruct Hor as [Hs|Hin]; [by eapply apply_marks_settled|].
  eapply apply_marks_settle; [done..|]. by eapply flush_marks_all.
Qed.

Lemma tracks_closed kv0 : step_closed env now owner driver byte_budget page_fuel (tracks kv0) rows.
Proof.
  split; intros *.
  - intros Hkv. apply (tracks_mark _ MRetry). by apply Hsub.
  - intros Hkv _ _. apply (tracks_mark _ MDead). by apply Hsub.
  - intros Hkv _. apply tracks_push. by apply Hsub.
  - intros HQ _ _. by eapply tracks_flush.
  - intros Hkv _. apply (tracks_mark _ MDone). by apply Hsub.
  - intros Hkv _. apply (tracks_mark _ MDone). by apply Hsub.
  - intros Hkv _ _ _ HQ. apply Hsub in Hkv.
    destruct w; [by apply (tracks_mark _ MDone)|by apply (tracks_mark _ MRetry)|by apply (tracks_mark _ MDead)].
Qed.

Lemma tracked_flush kv0 st : tracked kv0 st -> tracked kv0 (flush_ops env now owner driver st).
Proof. eapply flush_ind, tracks_closed. Qed.

Lemma tracked_append kv doc st :
  kv ∈ U -> tracked None st -> tracked (Some kv) (append_op env now owner driver byte_budget kv doc st).
Proof.
  intros Hkv HQ. unfold append_op. case_goal; [apply tracked_flush|]; unfold holds; simpl; by apply tracks_pushed.
Qed.

Lemma tracked_classify kv0 kvs st :
  kvs ⊆ rows -> tracked kv0 st -> tracked kv0 (fold_left (fun st kv => classify_state env now owner driver byte_budget kv st) kvs st).
Proof.
  eapply classify_ind, tracks_closed.
Qed.

Lemma tracked_write_groups kv0 gs st :
  gs ⊆ group_by write_key rows -> tracked kv0 st ->
  tracked kv0 (fold_left (fun st g => process_write_group env now owner driver byte_budget page_fuel g st) gs st).
Proof.
  revert st. induction gs as [|[k kvs] gs IH]; intros st Hs HQ; [done|]. simpl. apply IH; [set_solver|].
  eapply write_group_ind; [apply tracks_closed|apply Hs; by left|done].
Qed.

Lemma tracked_id_groups kv0 gs st :
  gs ⊆ group_by id_key rows -> tracked kv0 st ->
  tracked kv0 (fold_left (fun st g => process_id_group env now owner driver byte_budget g st) gs st).
Proof.
  revert st. induction gs as [|[[cat col] kvs] gs IH]; intros st Hs HQ; [done|]. simpl. apply IH; [set_solver|].
  unfold process_id_group. eapply group_loop_ind; [apply tracks_closed| |done].
  intros kv Hkv. eapply group_by_elem; [|done]. apply Hs. by left.
Qed.

(** *** Each row is reached *)

Lemma tracked_id_row kv0 cat col inputs kv st :
  kv ∈ U -> tracked kv0 st -> tracked kv0 (process_id_row env now owner driver byte_budget cat col inputs kv st) /\
  tracked (Some kv) (process_id_row env now owner driver byte_budget cat col inputs kv st).
Proof.
  intros Hkv HQ. unfold process_id_row. destruct (_ ≫= _) as [ci|].
  - destruct (build_canonical_doc env driver cat col ci) as [doc|].
    + split; [|apply tracked_append; [done|by eapply tracks_weaken]].
      unfold append_op. case_goal; [apply tracked_flush|]; unfold holds; simpl; by apply tracks_push.
    + unfold holds; simpl. split; [by apply (tracks_mark _ MRetry)|]. apply (tracks_marked MRetry); [done|by eapply tracks_weaken].
  - unfold holds; simpl. split; [by apply (tracks_mark _ MDone)|]. apply (tracks_marked MDone); [done|by eapply tracks_weaken].
Qed.

Lemma tracked_chunk kv cat col chunk st :
  chunk ⊆ U -> kv ∈ chunk -> tracked None st ->
  tracked (Some kv) (process_chunk env now owner driver byte_budget cat col chunk st).
Proof.
  intros Hc Hkv HQ. unfold process_chunk. destruct (read_canonical _ _ _ _ _) as [inputs|].
  - apply list_elem_of_split in Hkv as (a & b & ->). rewrite fold_left_app. simpl.
    assert (Hfold : forall kv0 l st, l ⊆ U -> tracked kv0 st ->
      tracked kv0 (fold_left (fun st kv => process_id_row env now owner driver byte_budget cat col inputs kv st) l st)).
    { intros kv0 l. induction l as [|x l IH]; intros st' Hl HQ'; [done|]. simpl. apply IH; [set_solver|].
      apply tracked_id_row; [apply Hl; by left|done]. }
    apply Hfold; [set_solver|]. eapply tracked_id_row; [set_solver|]. apply (Hfold None); [set_solver|done].
  - unfold holds; simpl.
    change (tracks (Some kv) (flushed now owner None chunk (d_tbl st)) (d_idx st) (d_ops st) (d_rows st)).
    destruct HQ as (Hst & Hr & Hl & _). rewrite flushed_marks.
    assert (Hall : Forall (fun mk : mark_kind * claimed => mk.2 ∈ U) (flush_marks None chunk)).
    { apply Forall_forall. intros mk Hmk. apply Hc. by eapply flush_marks_rows. }
    split_and!; [by apply apply_marks_state|done|done|by apply Hc|]. left.
    eapply apply_marks_settle; [done|by apply Hc|done|done|]. by eapply flush_marks_all.
Qed.

Lemma next_chunk_pos cb rr bb cur : 1 <= cur -> 1 <= next_adaptive_chunk_rows cb rr bb cur ID_ONLY_READ_CHUNK_ROWS.
Proof. intros. unfold next_adaptive_chunk_rows. case_goal; lia. Qed.

Lemma tracked_group_loop kv fuel cat col kvs n st :
  kvs ⊆ rows -> (forall x, x ∈ kvs -> id_key x = Some (cat, col)) -> kv ∈ kvs -> (length kvs <= fuel)%nat -> 1 <= n ->
  tracked None st -> tracked (Some kv) (process_group_loop env now owner driver byte_budget fuel cat col kvs n st).
Proof.
  revert kvs n st. induction fuel as [|fuel IH]; intros kvs n st Hk Hid Hkv Hf Hn HQ.
  { destruct kvs; [by apply elem_of_nil in Hkv|simpl in *; lia]. }
  cbn [process_group_loop]. destruct kvs as [|x kvs]; [by apply elem_of_nil in Hkv|].
  set (chunk := take (Z.to_nat n) (x :: kvs)). set (rest := drop (Z.to_nat n) (x :: kvs)).
  assert (Hch : chunk ⊆ x :: kvs) by (intros y Hy; by eapply take_elem).
  assert (Hre : rest ⊆ x :: kvs) by apply subseteq_drop.
  assert (Hch' : chunk ⊆ U) by set_solver.
  match goal with |- context [process_group_loop _ _ _ _ _ fuel _ _ _ ?m _] => set (n' := m) end. assert (Hn' : 1 <= n') by (subst n'; case_goal; [apply next_chunk_pos|]; done).
  rewrite <-(take_drop (Z.to_nat n) (x :: kvs)) in Hkv. apply elem_of_app in Hkv as [Hkv|Hkv].
  - eapply group_loop_ind; [apply tracks_closed| |by apply tracked_chunk].
    intros y Hy. split; [by apply Hk, Hre|by apply Hid, Hre].
  - apply IH; [set_solver|intros y Hy; by apply Hid, Hre|done| |done|].
    + subst rest. rewrite length_drop. simpl in *. lia.
    + assert (Hany : exists y, y ∈ chunk).
      { exists x. subst chunk. destruct (Z.to_nat n) eqn:E; [lia|]. by left. }
      destruct Hany as [y Hy]. eapply tracks_weaken. by apply (tracked_chunk y).
Qed.

Lemma last_filter (p : claimed -> bool) a kv b :
  p kv = true -> (forall x, x ∈ b -> p x = false) -> last (List.filter p (a ++ kv :: b)) = Some kv.
Proof.
  intros Hp Hb. rewrite List.filter_app. simpl. rewrite Hp.
  assert (List.filter p b = []) as ->; [|by rewrite last_snoc].
  induction b as [|x b IH]; [done|]. simpl. rewrite Hb by by left. apply IH. intros y Hy. apply Hb. by right.
Qed.

Lemma classify_reaches kv st :
  kv ∈ rows -> write_ref kv.2 = None -> id_key kv = None -> tracked None st ->
  tracked (Some kv) (fold_left (fun st kv => classify_state env now owner driver byte_budget kv st) rows st).
Proof.
  intros Hkv Hw Hid HQ. pose proof (Hsub _ Hkv) as HkU. pose proof Hsub as Hs. apply list_elem_of_split in Hkv as (a & b & Heq).
  assert (Hab : a ⊆ rows /\ b ⊆ rows) by set_solver. rewrite Heq at 1. rewrite fold_left_app. simpl.
  apply tracked_classify; [apply Hab|].
  assert (HQa : tracked None (fold_left (fun st kv => classify_state env now owner driver byte_budget kv st) a st)).
  { apply tracked_classify; [apply Hab|done]. }
  revert HQa. generalize (fold_left (fun st kv => classify_state env now owner driver byte_budget kv st) a st). intros st' HQa.
  unfold classify_state. unfold id_key in Hid. rewrite Hw in *. destruct (nonempty (o_entity (ob kv.2))).
  - destruct (_ ==s _); [done|]. by apply tracked_append.
  - unfold holds. simpl. by apply (tracks_marked MDead).
Qed.

Lemma write_reaches kv st :
  kv ∈ rows -> write_ref kv.2 <> None -> unshadowed rows kv -> tracked None st ->
  tracked (Some kv)
    (fold_left (fun st g => process_write_group env now owner driver byte_budget page_fuel g st) (group_by write_key rows) st).
Proof.
  intros Hkv Hw Hsh HQ. pose proof (Hsub _ Hkv) as HkU.
  assert (Hk : exists k, write_key kv = Some k) by (unfold write_key; destruct (write_ref kv.2); [eauto|done]).
  destruct Hk as [k Hk]. destruct (group_by_complete write_key rows k kv Hkv Hk) as (vs & Hg & Hv).
  assert (Hlast : last vs = Some kv).
  { apply group_by_spec in Hg as [-> _]. destruct Hsh as (a & b & -> & Hb). apply last_filter.
    - unfold has_key. by apply bool_decide_eq_true.
    - intros x Hx. unfold has_key. apply bool_decide_eq_false. intros Hx'. specialize (Hb x Hx). rewrite Hk in Hb.
      by specialize (Hb Hx'). }
  assert (Hall : group_by write_key rows ⊆ group_by write_key rows) by done.
  apply list_elem_of_split in Hg as (ga & gb & Hg). rewrite Hg in Hall at 1. rewrite Hg, fold_left_app. simpl.
  apply tracked_write_groups; [set_solver|].
  assert (HQa : tracked None (fold_left (fun st g => process_write_group env now owner driver byte_budget page_fuel g st) ga st)).
  { apply tracked_write_groups; [set_solver|done]. }
  revert HQa. generalize (fold_left (fun st g => process_write_group env now owner driver byte_budget page_fuel g st) ga st).
  intros st' HQa. unfold process_write_group. destruct k as [[[cat col] op] w]. simpl. rewrite Hlast.
  destruct (read_primary_write_batch _ _ _ _ _ _ _ _) as [[[|o ops]|] reads].
  - unfold holds. simpl. by apply (tracks_marked MDone).
  - destruct (send_write_batch _ _ _ _ _ _ _ _) as [[[] b] i']; unfold holds; simpl;
      [apply (tracks_marked MDone)|apply (tracks_marked MRetry)|apply (tracks_marked MDead)]; done.
  - unfold holds. simpl. by apply (tracks_marked MRetry).
Qed.

Lemma id_reaches kv cc st :
  kv ∈ rows -> id_key kv = Some cc -> tracked None st ->
  tracked (Some kv)
    (fold_left (fun st g => process_id_group env now owner driver byte_budget g st) (group_by id_key rows) st).
Proof.
  intros Hkv Hk HQ. destruct cc as [cat col]. destruct (group_by_complete id_key rows _ kv Hkv Hk) as (vs & Hg & Hv).
  assert (Hvs : forall x, x ∈ vs -> x ∈ rows /\ id_key x = Some (cat, col)) by (intros x; by apply group_by_elem).
  assert (Hall : group_by id_key rows ⊆ group_by id_key rows) by done.
  apply list_elem_of_split in Hg as (ga & gb & Hg). rewrite Hg in Hall at 1. rewrite Hg, fold_left_app. simpl.
  apply tracked_id_groups; [set_solver|]. unfold process_id_group. simpl.
  apply tracked_group_loop; [intros x Hx; by apply Hvs|intros x Hx; by apply Hvs|done|done|done|].
  apply tracked_id_groups; [set_solver|done].
Qed.

(** Every row of the driver is settled, unless a later row stands for it. *)
Lemma driver_settles tbl idx reads :
  batch_state now owner U tbl0 tbl ->
  let tbl' := d_tbl (process_driver_rows env now owner driver byte_budget page_fuel rows tbl idx reads) in
  batch_state now owner U tbl0 tbl' /\
  (forall kv, kv ∈ U -> settled now owner tbl kv -> settled now owner tbl' kv) /\
  (forall kv, kv ∈ rows -> unshadowed rows kv -> settled now owner tbl' kv).
Proof.
  intros Hst. cbv zeta. unfold process_driver_rows. rewrite classify_rows_groups.
  set (st0 := mkD tbl idx [] [] 0 no_counts reads).
  set (st1 := fold_left (fun st kv => classify_state env now owner driver byte_budget kv st) rows st0).
  set (st2 := fold_left (fun st g => process_write_group env now owner driver byte_budget page_fuel g st) (group_by write_key rows) st1).
  set (st3 := fold_left (fun st g => process_id_group env now owner driver byte_budget g st) (group_by id_key rows) st2).
  assert (H0 : tracked None st0) by (unfold holds; split_and!; [done|set_solver|done|done]).
  assert (Hend : forall kv, tracked (Some kv) st3 -> settled now owner (d_tbl (flush_ops env now owner driver st3)) kv).
  { intros kv Hkv. pose proof (tracked_flush _ _ Hkv) as (_ & _ & Hl & _ & Hs). destruct Hs as [|Hin]; [done|].
    exfalso. unfold flush_ops in Hl, Hin. destruct (d_ops st3) eqn:E.
    - rewrite E in Hl. destruct (d_rows st3); [by apply elem_of_nil in Hin|done].
    - destruct (index_bulk _ _ _ _) as [[r|] i']; simpl in *; [|by apply elem_of_nil in Hin].
      destruct (apply_outcomes _ _ _ _ _). by apply elem_of_nil in Hin. }
  assert (Hkeep : forall kv0, tracked kv0 st0 -> tracked kv0 st3).
  { intros kv0 Hk. apply tracked_id_groups; [done|]. apply tracked_write_groups; [done|]. by apply tracked_classify. }
  split_and!.
  - apply (tracked_flush None st3). by apply Hkeep.
  - intros kv Hkv Hs. apply Hend, Hkeep. destruct H0 as (? & ? & ? & _). split_and!; try done. by left.
  - intros kv Hkv Hsh. apply Hend. destruct (id_key kv) as [cc|] eqn:Hid.
    + eapply id_reaches; [done..|]. apply tracked_write_groups; [done|]. by apply tracked_classify.
    + apply tracked_id_groups; [done|]. destruct (write_ref kv.2) eqn:Hw.
      * apply write_reaches; [done|by rewrite Hw|done|]. by apply tracked_classify.
      * apply tracked_write_groups; [done|]. by apply classify_reaches.
Qed.
End settle.

(** ** A whole batch *)

Lemma filter_split {A} (p : A -> bool) l a x b :
  List.filter p l = a ++ x :: b -> exists a' b', l = a' ++ x :: b' /\ List.filter p b' = b.
Proof.
  revert a. induction l as [|y l IH]; intros a; simpl; [by destruct a|]. destruct (p y).
  - destruct a as [|z a]; simpl; intros [= -> H]; [by exists [], l|]. destruct (IH _ H) as (a' & b' & -> & Hb). by exists (z :: a'), b'.
  - intros H. destruct (IH _ H) as (a' & b' & -> & Hb). by exists (y :: a'), b'.
Qed.

(** A row of a write batch behind which the same driver has another row of the same
    batch in the list of claimed rows. *)
Definition overtaken (rows : list claimed) (kv : claimed) : Prop :=
  exists k a b kv', rows = a ++ kv :: b /\ write_key kv = Some k /\ kv' ∈ b /\ write_key kv' = Some k /\
    o_driver (ob kv'.2) = o_driver (ob kv.2).

Section batch.
Context {I : Type} (env : drain_env I) (cfg : drain_config) (page_fuel : nat).
Context (returning : list claimed -> list claimed) (Hret : forall l, returning l ≡ₚ l).

Abbreviation by_driver := (group_by (fun kv : claimed => Some (o_driver (ob kv.2)))).

Section one.
Context (now : Z) (owner : string) (U : list claimed) (tbl0 : stable) (HU : batch_ok now owner U).

(** The marks of the rows without an indexer. *)
Definition unresolvable_marks (driver : string) (ma age : Z) (rows : list claimed) : list (mark_kind * claimed) :=
  flat_map (fun g : (string * string) * list claimed =>
    let gone := match (if g.1.2 ==s "" then None else routing_membership env g.1.1 g.1.2) with
                | Some refs => negb (str_mem driver refs)
                | None => false
                end in
    map (fun kv => (if gone || unresolvable_row_exhausted now ma age kv.2 then MDead else MRetry, kv)) g.2)
    (group_by (fun kv : claimed => Some (o_catalog (ob kv.2), collection_of kv.2)) rows).

Lemma unresolvable_apply driver ma age rows tbl :
  (handle_unresolvable_rows env now owner driver ma age rows tbl).2 =
  apply_marks now owner (unresolvable_marks driver ma age rows) tbl.
Proof.
  unfold handle_unresolvable_rows, unresolvable_marks.
  change (fold_left (fun d kv => kv_append (o_catalog (ob kv.2), collection_of kv.2) kv d) rows [])
    with (group_by (fun kv : claimed => Some (o_catalog (ob kv.2), collection_of kv.2)) rows).
  generalize (group_by (fun kv : claimed => Some (o_catalog (ob kv.2), collection_of kv.2)) rows). intros gs.
  change tbl with ((0 : Z, 0 : Z, tbl).2) at 2. generalize (0 : Z, 0 : Z, tbl).
  induction gs as [|g gs IH]; intros acc; [done|]. cbn [fold_left flat_map]. rewrite IH, apply_marks_app. f_equal. clear IH.
  cbv zeta. generalize g.2. intros l. revert acc. induction l as [|kv l IHl]; intros [[n1 n2] t]; [done|].
  cbn [fold_left map]. rewrite IHl. unfold apply_marks. cbn [fold_left]. f_equal. by destruct (_ || _).
Qed.

Lemma unresolvable_marks_rows driver ma age rows kv : kv ∈ map snd (unresolvable_marks driver ma age rows) <-> kv ∈ rows.
Proof.
  unfold unresolvable_marks. rewrite list_elem_of_fmap. setoid_rewrite list_elem_of_In. setoid_rewrite in_flat_map.
  setoid_rewrite <-list_elem_of_In. split.
  - intros ([m kv'] & -> & [k vs] & Hg & Hkv). apply list_elem_of_fmap in Hkv as (x & [= _ ->] & Hx).
    by apply (group_by_elem _ _ _ _ _ Hg Hx).
  - intros Hkv. destruct (group_by_complete (fun kv : claimed => Some (o_catalog (ob kv.2), collection_of kv.2)) rows _ kv Hkv eq_refl) as (vs & Hg & Hv).
    eexists (_, kv). split; [done|]. eexists (_, vs). split; [exact Hg|]. apply list_elem_of_fmap. eexists. split; [|exact Hv]. done.
Qed.

Lemma unresolvable_marks_open driver ma age rows m kv : (m, kv) ∈ unresolvable_marks driver ma age rows -> m <> MDone.
Proof.
  unfold unresolvable_marks. rewrite list_elem_of_In, in_flat_map. intros (g & _ & Hin%list_elem_of_In).
  apply list_elem_of_fmap in Hin as (x & [= -> _] & _). by destruct (_ || _).
Qed.

(** Rows without an indexer are all marked. *)
Lemma unresolvable_settles driver ma age rows tbl :
  rows ⊆ U -> batch_state now owner U tbl0 tbl ->
  let tbl' := (handle_unresolvable_rows env now owner driver ma age rows tbl).2 in
  batch_state now owner U tbl0 tbl' /\
  (forall kv, kv ∈ U -> settled now owner tbl kv -> settled now owner tbl' kv) /\
  (forall kv, kv ∈ rows -> settled now owner tbl' kv).
Proof.
  intros Hsub Hst. cbv zeta. rewrite unresolvable_apply. set (ms := unresolvable_marks driver ma age rows).
  assert (Hall : Forall (fun mk : mark_kind * claimed => mk.2 ∈ U) ms).
  { apply Forall_forall. intros mk Hmk. apply Hsub. eapply unresolvable_marks_rows. apply list_elem_of_fmap. eauto. }
  split_and!; [by apply apply_marks_state|intros; by eapply apply_marks_settled|].
  intros kv Hkv. eapply apply_marks_settle; [done|by apply Hsub|done|done|]. by apply unresolvable_marks_rows.
Qed.

Lemma process_driver_settles g acc :
  g.2 ⊆ U -> batch_state now owner U tbl0 acc.1.1.1.1 ->
  let acc' := process_driver env cfg page_fuel now owner g acc in
  batch_state now owner U tbl0 acc'.1.1.1.1 /\
  (forall kv, kv ∈ U -> settled now owner acc.1.1.1.1 kv -> settled now owner acc'.1.1.1.1 kv) /\
  (forall kv, kv ∈ g.2 -> unshadowed g.2 kv -> settled now owner acc'.1.1.1.1 kv).
Proof.
  destruct acc as [[[[tbl idx] reads] m] b]. simpl. intros Hg Hst. unfold process_driver. destruct (resolve_indexer env g.1).
  - simpl. by apply driver_settles.
  - pose proof (unresolvable_settles g.1 (unresolvable_max_attempts cfg) (unresolvable_max_age cfg) g.2 tbl Hg Hst) as Hs.
    destruct (handle_unresolvable_rows _ _ _ _ _ _ _ _) as [[n1 n2] t]. simpl in *. naive_solver.
Qed.

Lemma drivers_settle gs acc :
  (forall g, g ∈ gs -> g.2 ⊆ U) -> batch_state now owner U tbl0 acc.1.1.1.1 ->
  let acc' := fold_left (fun acc g => process_driver env cfg page_fuel now owner g acc) gs acc in
  batch_state now owner U tbl0 acc'.1.1.1.1 /\
  (forall kv, kv ∈ U -> settled now owner acc.1.1.1.1 kv -> settled now owner acc'.1.1.1.1 kv) /\
  (forall g kv, g ∈ gs -> kv ∈ g.2 -> unshadowed g.2 kv -> settled now owner acc'.1.1.1.1 kv).
Proof.
  revert acc. induction gs as [|g gs IH]; intros acc Hg Hst; cbv zeta; cbn [fold_left].
  { split_and!; [done|done|]. by intros g kv Hin%elem_of_nil. }
  destruct (process_driver_settles g acc) as (H1 & H2 & H3); [apply Hg; by left|done|].
  destruct (IH (process_driver env cfg page_fuel now owner g acc)) as (H4 & H5 & H6); [intros; apply Hg; by right|done|].
  split_and!; [done|auto|]. intros g' kv Hin Hkv Hsh. apply elem_of_cons in Hin as [->|Hin]; [|by eapply H6].
  apply H5; [by eapply Hg; [left|]|]. by apply H3.
Qed.
End one.

(** Op ids are unique. *)
Definition ids_unique (tbl : stable) : Prop := forall k k', is_Some (tbl !! k) -> is_Some (tbl !! k') -> k.2 = k'.2 -> k = k'.

Lemma claim_batch_ok now lease owner n locked tbl rows tbl1 :
  ids_unique tbl -> s_claim_batch now lease owner n locked tbl = (rows, tbl1) ->
  batch_ok now owner (returning rows) /\ batch_state now owner (returning rows) tbl tbl1.
Proof.
  intros Hu (Hnd & Hin & Hout)%s_claim_batch_spec. pose proof (Hret rows) as Hp.
  assert (Hel : forall kv, kv ∈ returning rows <-> kv ∈ rows) by (intros; by rewrite Hp).
  split; [split_and!|split].
  - by rewrite Hp.
  - rewrite Hp. assert (Hd : forall kv, kv ∈ rows -> is_Some (tbl !! kv.1)).
    { intros [k r] Hkv. destruct (Hin k r Hkv) as (_ & r0 & Hr0 & _). by exists r0. }
    clear -Hnd Hd Hu. induction rows as [|kv rows IH]; simpl in *; [constructor|]. apply NoDup_cons in Hnd as [Hk Hnd].
    apply NoDup_cons. split; [|apply IH; [done|intros; apply Hd; by right]].
    intros (y & Hy & Hin)%list_elem_of_fmap. apply Hk. apply list_elem_of_fmap. exists y. split; [|done].
    apply Hu; [apply Hd; by left|apply Hd; by right|done].
  - apply Forall_forall. intros [k r] Hkv%Hel. destruct (Hin k r Hkv) as (_ & r0 & _ & _ & _ & ->). done.
  - intros [k r] Hkv%Hel. left. by apply Hin.
  - intros k Hk. apply Hout. intros Hk'. apply Hk. by rewrite Hp.
Qed.

Lemma overtaken_group rows d vs kv :
  (d, vs) ∈ by_driver rows -> shadowed vs kv -> overtaken rows kv.
Proof.
  intros Hg (k & a & b & kv' & Heq & Hk & Hin & Hk').
  assert (Hv : kv ∈ vs /\ kv' ∈ vs) by (rewrite Heq, !elem_of_app, !elem_of_cons; auto). pose proof Hg as Hg'. apply group_by_spec in Hg as [Hvs _].
  rewrite Hvs in Heq. destruct (filter_split _ _ _ _ _ Heq) as (a' & b' & -> & <-). apply in_filter in Hin as [_ Hin].
  assert (Hd : forall x, x ∈ vs -> o_driver (ob x.2) = d) by (intros x Hx; destruct (group_by_elem _ _ _ _ _ Hg' Hx) as [_ Hxd]; by injection Hxd).
  exists k, a', b', kv'. split_and!; try done. by rewrite !Hd by apply Hv.
Qed.

(** The fate of the claimed rows, for any claim. *)
Lemma drain_once_settles now owner locked tbl idx reads rows tbl1 n tbl' idx' reads' m b :
  ids_unique tbl -> s_claim_batch now (lease_seconds cfg) owner (batch_size cfg) locked tbl = (rows, tbl1) ->
  drain_once env cfg page_fuel returning now owner locked tbl idx reads = (n, (tbl', idx', reads', m, b)) ->
  n = length rows /\ batch_state now owner (returning rows) tbl tbl' /\
  (forall kv, kv ∈ rows -> settled now owner tbl' kv \/ held tbl' kv /\ overtaken (returning rows) kv).
Proof.
  intros Hu Hc. unfold drain_once. rewrite Hc. intros [= Hn Hf]. destruct (claim_batch_ok _ _ _ _ _ _ _ _ Hu Hc) as [Hok Hst].
  change (fold_left (fun d kv => kv_append (o_driver (ob kv.2)) kv d) (returning rows) []) with (by_driver (returning rows)) in Hf.
  destruct (drivers_settle now owner (returning rows) tbl Hok (by_driver (returning rows))
              (tbl1, idx, reads, mkMetrics (Z.of_nat (length (returning rows))) 0 0 0 0, 0)) as (H1 & _ & H3); [|done|].
  { intros [d vs] Hg x Hx. by apply (group_by_elem _ _ _ _ _ Hg Hx). }
  rewrite Hf in H1, H3. simpl in H1, H3. split_and!; [by rewrite <-Hn, Hret|done|].
  intros kv Hkv. assert (Hkv' : kv ∈ returning rows) by by rewrite Hret.
  destruct (group_by_complete (fun kv : claimed => Some (o_driver (ob kv.2))) (returning rows) _ kv Hkv' eq_refl) as (vs & Hg & Hv).
  destruct (shadow_cases vs kv Hv) as [Hsh|Hun].
  - destruct (proj1 H1 kv Hkv') as [Hh|Hs]; [|by left]. right. split; [done|]. by eapply overtaken_group.
  - left. by eapply H3.
Qed.

(** ** The end of the loop *)

(** The rows that can be claimed. *)
Definition backlog (now : Z) (tbl : stable) : gmap skey srow :=
  filter (fun kv => s_claimable now (lease_seconds cfg) kv.2 = true) tbl.

Lemma backoff_pos n : 1 <= backoff n.
Proof.
  unfold backoff. assert (Hn : (Z.to_nat (Z.min n 4) < 5)%nat) by lia. revert Hn. generalize (Z.to_nat (Z.min n 4)).
  intros k Hk. do 5 (destruct k as [|k]; [simpl; lia|]). lia.
Qed.

(** A settled or freshly claimed row cannot be claimed at the same time. *)
Lemma settled_unclaimable now owner lease tbl kv r :
  0 <= lease -> fresh_claim now owner kv -> held tbl kv \/ settled now owner tbl kv -> tbl !! kv.1 = Some r ->
  s_claimable now lease r = false.
Proof.
  intros Hl (Hs & _ & Hc) [Hh|(r' & Hr' & _ & _ & Hcase)] Hr.
  - unfold held in Hh. simplify_eq. unfold s_claimable. rewrite Hs, Hc. simpl. lia.
  - simplify_eq. pose proof (backoff_pos (attempts kv.2)). unfold s_claimable.
    destruct Hcase as [([->| ->] & _)|(-> & _ & _ & ->)]; simpl; try done. lia.
Qed.

Lemma drain_once_backlog now owner tbl idx reads n tbl' idx' reads' m b :
  0 <= lease_seconds cfg -> (0 < batch_size cfg)%nat -> ids_unique tbl ->
  drain_once env cfg page_fuel returning now owner [] tbl idx reads = (n, (tbl', idx', reads', m, b)) ->
  ids_unique tbl' /\ (n = 0%nat -> backlog now tbl' = ∅) /\ (n <> 0%nat -> (size (backlog now tbl') < size (backlog now tbl))%nat).
Proof.
  intros Hl Hb Hu Hd. destruct (s_claim_batch now (lease_seconds cfg) owner (batch_size cfg) [] tbl) as [rows tbl1] eqn:Hc.
  destruct (drain_once_settles _ _ _ _ _ _ _ _ _ _ _ _ _ _ Hu Hc Hd) as (Hn & [Hin Hout] & _).
  destruct (claim_batch_ok _ _ _ _ _ _ _ _ Hu Hc) as [Hok _]. pose proof Hok as (_ & _ & Hfr). rewrite Forall_forall in Hfr.
  pose proof Hc as Hc'. apply s_claim_batch_spec in Hc as (Hnd & Hrow & _).
  assert (Hel : forall kv, kv ∈ returning rows <-> kv ∈ rows) by (intros; by rewrite Hret).
  assert (Hkeys : map fst (returning rows) ≡ₚ map fst rows) by by rewrite Hret.
  assert (Hsub : backlog now tbl' ⊆ backlog now tbl).
  { apply map_subseteq_spec. intros k r Hk. unfold backlog in *. apply map_lookup_filter_Some in Hk as [Hk Hcl]. simpl in Hcl.
    apply map_lookup_filter_Some. split; [|done]. rewrite <-Hout; [done|]. intros Hkin.
    apply list_elem_of_fmap in Hkin as (kv & -> & Hkv).
    rewrite (settled_unclaimable now owner _ tbl' kv r) in Hcl; [done|done|by apply Hfr|by apply Hin|done]. }
  split_and!.
  - intros k k' Hk Hk'. assert (Hd' : forall k, is_Some (tbl' !! k) -> is_Some (tbl !! k)).
    { intros k0 Hk0. destruct (decide (k0 ∈ map fst (returning rows))) as [Hkin|Hkin]; [|by rewrite <-Hout].
      rewrite Hkeys in Hkin. apply list_elem_of_fmap in Hkin as ([k1 r1] & -> & Hkv). destruct (Hrow _ _ Hkv) as (_ & r0 & Hr0 & _).
      by exists r0. }
    apply Hu; by apply Hd'.
  - intros H0. assert (rows = []) as -> by (destruct rows; [done|simpl in *; lia]).
    apply map_empty. intros k. apply eq_None_not_Some. intros [r Hk]. unfold backlog in Hk. apply map_lookup_filter_Some in Hk as [Hk Hcl].
    rewrite Hout in Hk by (rewrite Hkeys; apply not_elem_of_nil).
    unfold s_claim_batch in Hc'. injection Hc' as Hmap _. apply map_eq_nil in Hmap. unfold s_batch in Hmap.
    set (l := List.filter _ _) in Hmap.
    assert (Hkl : (k, r) ∈ merge_sort s_order l).
    { apply merge_sort_elem. subst l. apply in_filter. split; [|by apply elem_of_map_to_list]. cbn [snd fst] in *. rewrite Hcl.
      by rewrite (bool_decide_eq_false_2 (k ∈ [])) by apply not_elem_of_nil. }
    destruct (merge_sort s_order l) as [|x xs]; [by apply elem_of_nil in Hkl|]. destruct (batch_size cfg); [lia|done].
  - intros H0. destruct rows as [|[k r] rows']; [done|]. destruct (Hrow k r ltac:(by left)) as (_ & r0 & Hr0 & Hcl & _).
    apply map_subset_size. split; [done|]. intros Hback.
    assert (Hk : backlog now tbl !! k = Some r0) by (apply map_lookup_filter_Some; done).
    apply (lookup_weaken _ _ _ _ Hk) in Hback. apply map_lookup_filter_Some in Hback as [Hk' Hcl'].
    assert (Hkv : (k, r) ∈ returning ((k, r) :: rows')) by (apply Hel; by left).
    cbn [snd] in Hcl'. by rewrite (settled_unclaimable now owner _ tbl' (k, r) r0 Hl (Hfr _ Hkv) (Hin _ Hkv) Hk') in Hcl'.
Qed.

(** A row that can be claimed can be claimed later too. *)
Lemma claimable_mono t t' lease r : t <= t' -> s_claimable t lease r = true -> s_claimable t' lease r = true.
Proof.
  unfold s_claimable. intros Ht [[-> H%Z.leb_le]%andb_true_iff|[-> H]%andb_true_iff]%orb_true_iff; apply orb_true_iff; [left|right]; simpl.
  - apply Z.leb_le. lia.
  - destruct (claimed_at r); simpl in *; [|done]. apply Z.ltb_lt in H. apply Z.ltb_lt. lia.
Qed.

Lemma backlog_dom t tbl k : k ∈ dom (backlog t tbl) <-> exists r, tbl !! k = Some r /\ s_claimable t (lease_seconds cfg) r = true.
Proof.
  rewrite elem_of_dom. unfold is_Some, backlog. setoid_rewrite map_lookup_filter_Some. done.
Qed.

Lemma claimable_backlog_mono t t' tbl : t <= t' -> (size (backlog t tbl) <= size (backlog t' tbl))%nat.
Proof.
  intros Ht. rewrite <-!size_dom. apply subseteq_size. intros k (r & Hr & Hc)%backlog_dom. apply backlog_dom.
  exists r. eauto using claimable_mono.
Qed.

(** A batch makes no row claimable earlier than it was. *)
Lemma drain_once_later now owner tbl idx reads n tbl' idx' reads' m b t :
  ids_unique tbl -> now <= t ->
  drain_once env cfg page_fuel returning now owner [] tbl idx reads = (n, (tbl', idx', reads', m, b)) ->
  (size (backlog t tbl') <= size (backlog t tbl))%nat.
Proof.
  intros Hu Ht Hd. destruct (s_claim_batch now (lease_seconds cfg) owner (batch_size cfg) [] tbl) as [rows tbl1] eqn:Hc.
  destruct (drain_once_settles _ _ _ _ _ _ _ _ _ _ _ _ _ _ Hu Hc Hd) as (_ & [_ Hout] & _).
  apply s_claim_batch_spec in Hc as (_ & Hrow & _). rewrite <-!size_dom. apply subseteq_size.
  intros k (r & Hr & Hcl)%backlog_dom. apply backlog_dom. destruct (decide (k ∈ map fst (returning rows))) as [Hk|Hk].
  - apply list_elem_of_fmap in Hk as ([k1 r1] & -> & Hkv). rewrite Hret in Hkv. destruct (Hrow _ _ Hkv) as (_ & r0 & Hr0 & Hc0 & _).
    exists r0. eauto using claimable_mono.
  - exists r. by rewrite <-Hout.
Qed.

(** The claims still possible from [now] to [h]: the claimable rows of each second. *)
Definition claims_until (h now : Z) (tbl : stable) : nat :=
  sum_list_with (fun t => size (backlog t tbl)) (seqZ now (h - now + 1)).

Lemma sum_list_with_le {A} (f g : A -> nat) l : (forall x, x ∈ l -> (f x <= g x)%nat) -> (sum_list_with f l <= sum_list_with g l)%nat.
Proof.
  induction l as [|x l IH]; intros H; simpl; [lia|]. specialize (IH (fun y Hy => H y (list_elem_of_further _ _ _ Hy))).
  specialize (H x (list_elem_of_here _ _)). lia.
Qed.

Lemma claims_until_later h now now' tbl : now <= now' -> (claims_until h now' tbl <= claims_until h now tbl)%nat.
Proof.
  intros Hn. unfold claims_until. destruct (Z.le_gt_cases (h - now' + 1) 0) as [?|?]; [rewrite (seqZ_nil now') by lia; simpl; lia|].
  replace (h - now + 1) with ((now' - now) + (h - now' + 1)) by lia. rewrite (seqZ_app now (now' - now)) by lia.
  replace (now + (now' - now)) with now' by lia. rewrite sum_list_with_app. apply Nat.le_add_l.
Qed.

Lemma claims_until_step h now owner tbl idx reads n tbl' idx' reads' m b :
  0 <= lease_seconds cfg -> (0 < batch_size cfg)%nat -> ids_unique tbl -> now <= h ->
  drain_once env cfg page_fuel returning now owner [] tbl idx reads = (n, (tbl', idx', reads', m, b)) -> n <> 0%nat ->
  (claims_until h now tbl' < claims_until h now tbl)%nat.
Proof.
  intros Hl Hb Hu Hh Hd Hn. destruct (drain_once_backlog _ _ _ _ _ _ _ _ _ _ _ Hl Hb Hu Hd) as (_ & _ & H1). specialize (H1 Hn).
  unfold claims_until. rewrite !(seqZ_cons now) by lia. simpl.
  assert (Hle : forall t, t ∈ seqZ (Z.succ now) (Z.pred (h - now + 1)) -> (size (backlog t tbl') <= size (backlog t tbl))%nat).
  { intros t Ht%elem_of_seqZ. eapply drain_once_later, Hd; [done|lia]. }
  apply sum_list_with_le in Hle. lia.
Qed.

Lemma claims_until_bound h now tbl : (claims_until h now tbl <= Z.to_nat (h - now + 1) * size (backlog h tbl))%nat.
Proof.
  unfold claims_until. transitivity (sum_list_with (fun _ => size (backlog h tbl)) (seqZ now (h - now + 1))).
  - apply sum_list_with_le. intros t Ht%elem_of_seqZ. apply claimable_backlog_mono. lia.
  - rewrite <-(length_seqZ now (h - now + 1)). generalize (size (backlog h tbl)) (seqZ now (h - now + 1)).
    clear. intros c l. induction l as [|x l IH]; simpl; lia.
Qed.

Lemma drain_loop_ends inprocess elapsed clock owner fuel h n bytes tbl idx reads m :
  0 <= lease_seconds cfg -> (0 < batch_size cfg)%nat -> ids_unique tbl ->
  (forall k, (n <= k < n + fuel)%nat -> clock k <= clock (S k) /\ clock k <= h) ->
  (claims_until h (clock n) tbl < fuel)%nat ->
  let '(e, tbl', _, _) := drain_loop env cfg page_fuel returning fuel inprocess elapsed clock owner n bytes tbl idx reads m in
  (e = Drained /\ exists k, (n <= k < n + fuel)%nat /\ backlog (clock k) tbl' = ∅) \/ (inprocess = true /\ e = HandedOff).
Proof.
  intros Hl Hb. revert n bytes tbl idx reads m. induction fuel as [|fuel IH]; intros n bytes tbl idx reads m Hu Hclock Hf; [lia|].
  cbn [drain_loop].
  destruct (drain_once env cfg page_fuel returning (clock n) owner [] tbl idx reads) as [k [[[[tbl' idx'] reads'] m'] b]] eqn:Hd.
  destruct (drain_once_backlog _ _ _ _ _ _ _ _ _ _ _ Hl Hb Hu Hd) as (Hu' & H0 & _). destruct (Hclock n ltac:(lia)) as [Hstep Hh].
  destruct (k =? 0)%nat eqn:Hk; [apply Nat.eqb_eq in Hk; left; split; [done|]; exists n; split; [lia|auto]|]. apply Nat.eqb_neq in Hk.
  pose proof (claims_until_step h _ _ _ _ _ _ _ _ _ _ _ Hl Hb Hu Hh Hd Hk) as H1.
  pose proof (claims_until_later h _ _ tbl' Hstep) as H2.
  assert (Hloop := fun by_ => IH (S n) by_ tbl' idx' reads' (add_metrics m m') Hu' ltac:(intros; apply Hclock; lia) ltac:(lia)).
  assert (Hrest : forall by_, let '(e, tbl2, _, _) := drain_loop env cfg page_fuel returning fuel inprocess elapsed clock owner (S n) by_ tbl' idx' reads' (add_metrics m m') in
    (e = Drained /\ exists k, (n <= k < n + S fuel)%nat /\ backlog (clock k) tbl2 = ∅) \/ (inprocess = true /\ e = HandedOff)).
  { intros by_. specialize (Hloop by_). destruct (drain_loop _ _ _ _ _ _ _ _ _ _ _ _ _ _ _) as [[[e tbl2] ?] ?].
    destruct Hloop as [(? & k' & ? & ?)|?]; [left; split; [done|]; exists k'; split; [lia|done]|by right]. }
  destruct inprocess; simpl; [|apply Hrest]. destruct (_ || _); [by right|]. apply Hrest.
Qed.
End batch.

(** After [_enqueue_drain_trigger] a live trigger of the key is there. *)
Lemma trigger_present now new_id ty key tasks :
  table_exists (trigger_blocked now None key) (enqueue_drain_trigger now new_id None ty key tasks) = true.
Proof.
  unfold enqueue_drain_trigger. destruct (table_exists (trigger_blocked now None key) tasks) eqn:E; [done|].
  unfold table_exists. apply existsb_exists. set (r := fresh_row _ _ _ _ _). exists (new_id, r). split.
  - apply list_elem_of_In, elem_of_map_to_list. by rewrite lookup_insert_eq.
  - unfold trigger_blocked. simpl. by rewrite String.eqb_refl.
Qed.

(** C18 (safety).  A batch settles every row it claims.  Whatever the indexers, the re-reads, the
    document builders and the primary driver answer or raise, when [drain_once] returns, each
    claimed row is done, dead, or ready again with one attempt more after its back-off, and no
    other row has changed; the only rows still in flight are those of a write batch for which
    a later row of the same driver and write batch was processed. *)
Theorem drain_settles {I} (env : drain_env I) cfg page_fuel returning now owner locked tbl idx reads
    rows tbl1 n tbl' idx' reads' m b :
  (forall l, returning l ≡ₚ l) -> ids_unique tbl ->
  s_claim_batch now (lease_seconds cfg) owner (batch_size cfg) locked tbl = (rows, tbl1) ->
  drain_once env cfg page_fuel returning now owner locked tbl idx reads = (n, (tbl', idx', reads', m, b)) ->
  n = length rows /\ (forall k, k ∉ map fst rows -> tbl' !! k = tbl !! k) /\
  (forall kv, kv ∈ rows -> settled now owner tbl' kv \/ held tbl' kv /\ overtaken (returning rows) kv).
Proof.
  intros Hret Hu Hc Hd. destruct (drain_once_settles env cfg page_fuel returning Hret _ _ _ _ _ _ _ _ _ _ _ _ _ _ Hu Hc Hd)
    as (Hn & [_ Hout] & Hs). split_and!; [done| |done]. intros k Hk. apply Hout. intros Hk'. apply Hk. by rewrite <-Hret.
Qed.

