(* ===== verification/StorageSync.v ===== *)
(** * Index and primary agree, or an obligation is open

    What a bulk indexer promises to the drain ([BulkIndexer], [IndexPlane]), what one
    batch makes of the indexed copy of an item, and the invariant of the outbox over
    every history of writes and batches. *)

From S2P Require Import Prelude TaskQueue TaskQueueProofs StoragePlane StoragePlaneProofs StorageIndexer StorageDrain StorageDrainProofs.

(** ** The contract of a bulk indexer *)

Section contract.
Context {I : Type}.

(** Whatever the ops on the key [g] may leave behind satisfies [P]; all of them belong
    to the item's catalog and collection. *)
Definition ops_respect (accepts : IndexableOp -> option pyval -> Prop) (ops : list IndexableOp) (cat col g : string)
    (P : option pyval -> Prop) : Prop :=
  forall o, o ∈ ops -> i_key o = g -> i_catalog o = cat /\ i_collection o = col /\ forall v, accepts o v -> P v.

(** [index_bulk] of the protocol: [doc_at] is the indexed copy of an item, [accepts] says
    which copies an op may leave.  A copy changes only by an op on its key; an op that is
    reported as passed and nothing else has been applied; so have all ops of a call that
    reports as many passed ops as it was given. *)
Class BulkIndexer (doc_at : I -> string -> string -> string -> option pyval)
    (accepts : IndexableOp -> option pyval -> Prop) (bulk : list IndexableOp -> I -> option BulkIndexResult * I) := {
  bulk_keeps ops i res i' cat col g P :
    bulk ops i = (res, i') -> ops_respect accepts ops cat col g P -> P (doc_at i cat col g) -> P (doc_at i' cat col g);
  bulk_passed ops i r i' cat col g P o :
    bulk ops i = (Some r, i') -> ops_respect accepts ops cat col g P -> o ∈ ops -> i_key o = g ->
    (forall o', o' ∈ ops -> i_op_id o' = i_op_id o -> i_key o' = g) ->
    i_op_id o ∈ r_passed r -> i_op_id o ∉ map fst (r_transient r) -> i_op_id o ∉ map fst (r_poison r) ->
    P (doc_at i' cat col g);
  bulk_complete ops i r i' cat col g P o :
    bulk ops i = (Some r, i') -> ops_respect accepts ops cat col g P -> o ∈ ops -> i_key o = g ->
    r_transient r = [] -> r_poison r = [] -> length (r_passed r) = length ops -> P (doc_at i' cat col g);
}.

(** The indexers of a drain: each one keeps its contract and leaves the copies of the
    others alone. *)
Class IndexPlane (doc_at : string -> I -> string -> string -> string -> option pyval)
    (accepts : string -> IndexableOp -> option pyval -> Prop) (env : drain_env I) := {
  plane_own d : BulkIndexer (doc_at d) (accepts d) (index_bulk env d);
  plane_other d d' ops i res i' cat col g :
    d' <> d -> index_bulk env d' ops i = (res, i') -> doc_at d i' cat col g = doc_at d i cat col g;
}.
End contract.

(** ** The rows that end as done *)

Section done.
Context (now : Z) (owner : string) (U : list claimed) (tbl0 : stable) (HU : batch_ok now owner U).

Definition row_done (t : stable) (kv : claimed) : Prop := exists r, t !! kv.1 = Some r /\ s_status r = SDone.

(** A terminal write of another row says nothing, one of the row itself decides. *)
Lemma done_mark m kv kv0 t :
  kv ∈ U -> kv0 ∈ U -> batch_state now owner U tbl0 t -> row_done (s_mark m now owner kv t) kv0 ->
  (kv <> kv0 /\ row_done t kv0) \/ (kv = kv0 /\ m = MDone).
Proof.
  intros Hkv Hkv0 [Hin _] (r & Hr & Hs). destruct (decide (kv0.1 = kv.1)) as [Heq|Hne].
  - assert (kv0 = kv) as -> by by eapply batch_key. right. split; [done|].
    pose proof HU as (_ & _ & Hfr). rewrite Forall_forall in Hfr. destruct (Hfr _ Hkv) as (Hst & Hb & _).
    rewrite s_mark_cas, s_cas_lookup in Hr. destruct (Hin kv Hkv) as [Hh|(r0 & Hr0 & _ & Hv & Hcase)].
    + rewrite Hh, Hb in Hr. simpl in Hr. rewrite String.eqb_refl, Z.eqb_refl in Hr. simplify_eq/=. by destruct m.
    + rewrite Hr0 in Hr. destruct Hcase as [(_ & Hcb & _)|(Hst0 & Hcb & _)]; rewrite Hcb in Hr; simpl in Hr; simplify_eq.
      * rewrite String.eqb_refl, Hv, Z.eqb_refl in Hs. simpl in Hs. by destruct m.
      * congruence.
  - left. split; [by intros ->|]. rewrite s_mark_other in Hr by done. by exists r.
Qed.

Lemma done_marks ms kv0 t :
  kv0 ∈ U -> Forall (fun mk => mk.2 ∈ U) ms -> batch_state now owner U tbl0 t ->
  row_done (apply_marks now owner ms t) kv0 ->
  (kv0 ∉ map snd ms /\ row_done t kv0) \/ (MDone, kv0) ∈ ms.
Proof.
  intros Hkv0. revert t. induction ms as [|[m kv] ms IH]; intros t Hall Hst Hd; [left; split; [apply not_elem_of_nil|done]|].
  apply Forall_cons in Hall as [Hkv Hall]. simpl in *.
  destruct (IH (s_mark m now owner kv t) Hall (batch_state_mark _ _ _ _ _ _ _ HU Hkv Hst) Hd) as [[Hn Hd']|Hin]; [|right; by right].
  destruct (done_mark _ _ _ _ Hkv Hkv0 Hst Hd') as [[Hne Hd'']|[-> ->]]; [|right; by left].
  left. split; [|done]. apply not_elem_of_cons. auto.
Qed.

(** A row that a flush marks done was reported as passed and as nothing else. *)
Lemma flush_done res rows kv0 t :
  rows ⊆ U -> kv0 ∈ U -> batch_state now owner U tbl0 t -> row_done (flushed now owner res rows t) kv0 ->
  row_done t kv0 \/ exists r, res = Some r /\ kv0 ∈ rows /\ kv0.1.2 ∈ r_passed r /\
    kv0.1.2 ∉ map fst (r_transient r) /\ kv0.1.2 ∉ map fst (r_poison r).
Proof.
  intros Hsub Hkv0 Hst Hd. rewrite flushed_marks in Hd.
  assert (Hall : Forall (fun mk : mark_kind * claimed => mk.2 ∈ U) (flush_marks res rows)).
  { apply Forall_forall. intros mk Hmk. apply Hsub. by eapply flush_marks_rows. }
  destruct res as [r|].
  - simpl in Hd, Hall. set (by_id := rows_by_id rows) in *. rewrite apply_marks_app in Hd. apply Forall_app in Hall as [Ha Hb].
    assert (Hst' : batch_state now owner U tbl0 (apply_marks now owner (marks_of MDone by_id (r_passed r)) t)) by by apply apply_marks_state.
    assert (Hkind : forall m m' ids, (m, kv0) ∈ marks_of m' by_id ids -> m = m' /\ kv0 ∈ rows /\ kv0.1.2 ∈ ids).
    { intros m m' ids (i & Hi & Hm)%list_elem_of_omap. destruct (rows_get i by_id) as [kv|] eqn:E; simplify_eq/=.
      apply rows_get_elem, rows_by_id_elem in E as [-> ?]. auto. }
    destruct (done_marks _ _ _ Hkv0 Hb Hst' Hd) as [[Hn Hd']|Hin].
    + destruct (done_marks _ _ _ Hkv0 Ha Hst Hd') as [[_ ?]|Hp]; [by left|]. right. exists r.
      destruct (Hkind _ _ _ Hp) as (_ & Hrow & Hpass). split_and!; [done..| |]; intros Hx; apply Hn;
        rewrite !map_app, !elem_of_app; [left|right; left]; by eapply marks_of_elem.
    + exfalso. rewrite !elem_of_app in Hin. destruct Hin as [Hin|[Hin|Hin]]; [by apply Hkind in Hin as [? _]..|].
      by apply list_elem_of_fmap in Hin as (x & ? & _).
  - destruct (done_marks _ _ _ Hkv0 Hall Hst Hd) as [[_ ?]|Hin]; [by left|]. simpl in Hin.
    by apply list_elem_of_fmap in Hin as (x & ? & _).
Qed.
End done.

(** ** Items *)

(** What the primary has for an item: its canonical row, none once it is deleted, and
    the write batch that touched it last. *)
Record item : Type := mkItem { it_input : option canonical_input; it_write : option string }.

Definition kind_of (it : item) : string := match it_input it with Some _ => "upsert" | None => "delete" end.

Section sync.
Context {I : Type} (doc_at : string -> I -> string -> string -> string -> option pyval).
Context (accepts : string -> IndexableOp -> option pyval -> Prop).
(** The catalog and the collection of an item, which documents stand for a canonical row
    in the index of the driver, and the driver. *)
Context (home : string -> string * string) (represents : string -> canonical_input -> pyval -> Prop) (d : string).

(** The indexed copy of an item and when it is right. *)
Definition copy (i : I) (g : string) : option pyval := doc_at d i (home g).1 (home g).2 g.

Definition good (g : string) (it : item) (v : option pyval) : Prop :=
  match it_input it, v with
  | Some ci, Some doc => represents g ci doc
  | None, None => True
  | _, _ => False
  end.

(** The row obliges the driver to bring the item up to date. *)
Definition owes (g : string) (it : item) (r : srow) : Prop :=
  o_driver (ob r) = d /\ o_catalog (ob r) = (home g).1 /\ collection_of r = (home g).2 /\ o_op (ob r) = kind_of it /\
  match write_ref r with Some w => it_write it = Some w | None => nonempty (o_entity (ob r)) = Some g end.

(** The surroundings of a batch tell the truth about an item: the re-reads return its
    canonical row; what the builders make of it stands for it; the rows with its key are
    about it, and delete it only if it is deleted; a write batch that is read has the
    current version of the item, and has it for sure if it wrote it last. *)
Record faithful (env : drain_env I) (page_fuel : nat) (rows : list claimed) (g : string) (it : item) : Prop := {
  f_read n geoids inputs :
    read_canonical env n (home g).1 (home g).2 geoids = Some inputs -> g ∈ geoids -> dict_get g inputs = it_input it;
  f_upsert ci doc o v :
    it_input it = Some ci -> build_canonical_doc env d (home g).1 (home g).2 ci = Some doc -> i_op o = "upsert" ->
    i_key o = g -> i_payload o = doc -> accepts d o v -> good g it v;
  f_delete o v : it_input it = None -> i_op o = "delete" -> i_key o = g -> accepts d o v -> good g it v;
  f_key kv : kv ∈ rows -> o_driver (ob kv.2) = d -> write_ref kv.2 = None -> nonempty (o_entity (ob kv.2)) <> None ->
    o_key (ob kv.2) = nonempty (o_entity (ob kv.2));
  f_row kv : kv ∈ rows -> o_driver (ob kv.2) = d -> write_ref kv.2 = None -> nonempty (o_entity (ob kv.2)) = Some g ->
    o_catalog (ob kv.2) = (home g).1 /\ collection_of kv.2 = (home g).2 /\
    (o_op (ob kv.2) <> "upsert" -> o_op (ob kv.2) = "delete" /\ it_input it = None);
  f_batch kv ops : kv ∈ rows -> o_driver (ob kv.2) = d -> hydrated env d page_fuel kv ops ->
    ops_respect (accepts d) ops (home g).1 (home g).2 g (good g it) /\
    (owes g it kv.2 -> exists o, o ∈ ops /\ i_key o = g);
}.

Section batch.
Context (env : drain_env I) (HP : IndexPlane doc_at accepts env) (cfg : drain_config) (page_fuel : nat).
Context (now : Z) (owner : string) (U : list claimed) (tbl0 : stable) (HU : batch_ok now owner U).
Context (g : string) (it : item) (HF : faithful env page_fuel U g it) (i0 : I).

(** The copy is right once a row that owes the item is done, and stays right. *)
Definition in_sync (t : stable) (i : I) : Prop :=
  (forall kv, kv ∈ U -> owes g it kv.2 -> row_done t kv -> good g it (copy i g)) /\
  (good g it (copy i0 g) -> good g it (copy i g)).

Lemma in_sync_mark m kv t i :
  kv ∈ U -> batch_state now owner U tbl0 t -> (m = MDone -> owes g it kv.2 -> good g it (copy i g)) ->
  in_sync t i -> in_sync (s_mark m now owner kv t) i.
Proof.
  intros Hkv Hst Hm [Hd Hk]. split; [|done]. intros kv0 Hkv0 Ho Hdone.
  destruct (done_mark now owner U tbl0 HU m kv kv0 t) as [[_ ?]|[-> ->]]; eauto.
Qed.

Section driver.
Context (e : string) (rows : list claimed) (Hsub : rows ⊆ U) (He : forall kv, kv ∈ rows -> o_driver (ob kv.2) = e).

Definition pending_ok (o : list IndexableOp) (r : list claimed) : Prop :=
  Forall2 (fun op kv => kv ∈ rows /\ exists doc, op = row_to_op env kv doc /\ pushable env e kv doc) o r.

(** The ops of a pending sub-chunk respect the item. *)
Lemma pending_respect o r :
  e = d -> pending_ok o r -> ops_respect (accepts d) o (home g).1 (home g).2 g (good g it).
Proof.
  intros Hed Hp op Hop Hk. apply list_elem_of_lookup in Hop as [n Hn].
  destruct (Forall2_lookup_l _ _ _ _ _ Hp Hn) as (kv & _ & Hkv & doc & -> & Hpush). simpl in *.
  assert (HkU : kv ∈ U) by by apply Hsub. assert (Hdr : o_driver (ob kv.2) = d) by by rewrite <-Hed; apply He.
  assert (Hpre : write_ref kv.2 = None /\ nonempty (o_entity (ob kv.2)) <> None).
  { destruct Hpush as [(? & [g' ->] & _)|(cat & col & g' & n' & gs & ins & ci & Hid & -> & _)]; [done|].
    unfold id_key in Hid. by destruct (write_ref kv.2). }
  destruct Hpre as [Hw Hne]. pose proof (f_key _ _ _ _ _ HF kv HkU Hdr Hw Hne) as Hkey. rewrite Hkey in Hk.
  destruct (nonempty (o_entity (ob kv.2))) as [g'|] eqn:Hent; [|done]. simpl in Hk. subst g'.
  destruct (f_row _ _ _ _ _ HF kv HkU Hdr Hw Hent) as (Hcat & Hcol & Hdel). split_and!; [done..|]. intros v Hv.
  destruct Hpush as [(_ & _ & Hop & ->)|(cat & col & g' & n' & gs & ins & ci & Hid & Hg & Hrd & Hin & Hget & Hb)].
  - destruct (Hdel Hop). apply (f_delete _ _ _ _ _ HF (row_to_op env kv delete_payload)); [done|done|simpl; by rewrite Hkey|done].
  - simplify_eq. unfold id_key in Hid. rewrite Hw, Hent in Hid. destruct (o_op (ob kv.2) ==s "upsert") eqn:Eop; [|done].
    bool_hyps. injection Hid as <- <-. rewrite Hcat, Hcol in *.
    rewrite (f_read _ _ _ _ _ HF _ _ _ Hrd Hin) in Hget.
    apply (f_upsert _ _ _ _ _ HF ci doc (row_to_op env kv doc)); [done|by rewrite <-Hed|done|simpl; by rewrite Hkey|done|done].
Qed.

(** One call of the indexer. *)
Lemma call_keeps ops i res i' :
  index_bulk env e ops i = (res, i') -> (e = d -> ops_respect (accepts d) ops (home g).1 (home g).2 g (good g it)) ->
  good g it (copy i g) -> good g it (copy i' g).
Proof.
  intros Hb Hr. unfold copy. destruct (decide (e = d)) as [->|Hne].
  - destruct (plane_own (env := env) d) as [Hk _ _]. apply (Hk ops i res i' _ _ g (good g it)); auto.
  - by rewrite (plane_other d e ops i res i' _ _ _ Hne Hb).
Qed.

Lemma flush_sync t i o r res i' :
  batch_state now owner U tbl0 t -> r ⊆ U -> pending_ok o r -> index_bulk env e o i = (res, i') ->
  in_sync t i -> in_sync (flushed now owner res r t) i'.
Proof.
  intros Hst Hr Hp Hb [Hd Hk].
  assert (Hc : good g it (copy i g) -> good g it (copy i' g)) by (eapply call_keeps; [done|]; intros; by eapply pending_respect).
  split; [|auto]. intros kv Hkv Ho Hdone.
  destruct (flush_done now owner U tbl0 HU _ _ _ _ Hr Hkv Hst Hdone) as [?|(br & -> & Hin & Hpass & Ht & Hx)]; [eauto|].
  apply list_elem_of_lookup in Hin as [n Hn]. destruct (Forall2_lookup_r _ _ _ _ _ Hp Hn) as (op & Hop & Hrow & doc & -> & Hpush).
  assert (Hed : e = d) by (rewrite <-(He _ Hrow); apply Ho). rewrite Hed in Hb.
  assert (Hw : write_ref kv.2 = None).
  { destruct Hpush as [(? & _)|(cat & col & g' & n' & gs & ins & ci & Hid & _)]; [done|]. unfold id_key in Hid. by destruct (write_ref kv.2). }
  pose proof Ho as (Hdr & _ & _ & _ & Hent). rewrite Hw in Hent.
  assert (Hkey : i_key (row_to_op env kv doc) = g).
  { simpl. rewrite (f_key _ _ _ _ _ HF kv Hkv Hdr Hw) by by rewrite Hent. by rewrite Hent. }
  destruct (plane_own (env := env) d) as [_ Hpa _]. 
  apply (Hpa o i br i' _ _ g (good g it) (row_to_op env kv doc)); [done|by eapply pending_respect|by eapply list_elem_of_lookup_2|done| |done..].
  intros op' Hop' Hid. apply list_elem_of_lookup in Hop' as [n' Hn'].
  destruct (Forall2_lookup_l _ _ _ _ _ Hp Hn') as (kv' & _ & Hkv' & doc' & -> & _). simpl in Hid.
  assert (kv' = kv) as -> by (eapply batch_id; eauto). done.
Qed.

(** The chunks of a write batch. *)
Lemma chunk_sync chunk i res i' :
  (e = d -> ops_respect (accepts d) chunk (home g).1 (home g).2 g (good g it)) ->
  flush_write_id_chunk env e chunk i = (res, i') ->
  (good g it (copy i g) -> good g it (copy i' g)) /\
  (res = None -> e = d -> (exists o, o ∈ chunk /\ i_key o = g) -> good g it (copy i' g)).
Proof.
  intros Hr. unfold flush_write_id_chunk. destruct chunk as [|o os]; [intros [= <- <-]; split; [done|]; by intros _ _ (? & ?%elem_of_nil & _)|].
  destruct (index_bulk env e (o :: os) i) as [br i1] eqn:Hb. intros Hf.
  assert (i1 = i') as -> by (destruct br as [br|]; [destruct (r_transient br), (r_poison br); [case_match|..]|]; by simplify_eq).
  split; [by eapply call_keeps|]. intros -> Hed (o' & Ho' & Hk). specialize (Hr Hed). rewrite Hed in Hb. destruct br as [br|]; [|done].
  destruct (r_transient br) eqn:Et, (r_poison br) eqn:Ex; try done. case_match eqn:El; [|done]. apply Nat.eqb_eq in El.
  destruct (plane_own (env := env) d) as [_ _ Hall]. apply (Hall (o :: os) i br i' _ _ g (good g it) o'); auto.
Qed.

Lemma send_sync ops chunk b tot i w tot' i' :
  (e = d -> ops_respect (accepts d) (chunk ++ ops) (home g).1 (home g).2 g (good g it)) ->
  send_write_batch env e (hydration_byte_budget cfg) ops chunk b tot i = (w, tot', i') ->
  (good g it (copy i g) -> good g it (copy i' g)) /\
  (w = WDone -> e = d -> (exists o, o ∈ chunk ++ ops /\ i_key o = g) -> good g it (copy i' g)).
Proof.
  revert chunk b tot i. induction ops as [|o ops IH]; intros chunk b tot i Hr; simpl.
  - rewrite app_nil_r in *. destruct (flush_write_id_chunk env e chunk i) as [res i1] eqn:Hf.
    destruct (chunk_sync _ _ _ _ Hr Hf) as [H1 H2]. destruct res as [w1|]; intros [= <- _ <-]; [|auto]. split; [done|].
    intros ->. exfalso. unfold flush_write_id_chunk in Hf. repeat (case_match; simplify_eq/=).
  - assert (Hr1 : e = d -> ops_respect (accepts d) (chunk ++ [o]) (home g).1 (home g).2 g (good g it)).
    { intros Hed x Hx. apply (Hr Hed). set_solver. }
    assert (Hr2 : e = d -> ops_respect (accepts d) ops (home g).1 (home g).2 g (good g it)).
    { intros Hed x Hx. apply (Hr Hed). set_solver. }
    case_match eqn:Eb.
    + destruct (flush_write_id_chunk env e (chunk ++ [o]) i) as [res i1] eqn:Hf. destruct (chunk_sync _ _ _ _ Hr1 Hf) as [H1 H2].
      destruct res as [w1|].
      * intros [= <- _ <-]. split; [done|]. intros ->. exfalso. unfold flush_write_id_chunk in Hf. repeat (case_match; simplify_eq/=).
      * intros Hs. destruct (IH [] _ _ _ Hr2 Hs) as [H3 H4]. split; [auto|]. intros Hw Hed (x & Hx & Hk).
        rewrite cons_middle, app_assoc in Hx. apply elem_of_app in Hx as [Hx|Hx]; [apply H3; eauto|]. apply H4; eauto.
    + intros Hs. destruct (IH (chunk ++ [o]) _ _ _ ltac:(by rewrite <-app_assoc) Hs) as [H3 H4]. split; [done|].
      intros Hw Hed (x & Hx & Hk). apply H4; [done..|]. exists x. by rewrite <-app_assoc.
Qed.

Definition sync_step (t : stable) (i : I) (o : list IndexableOp) (r : list claimed) : Prop :=
  tracks now owner U tbl0 None t i o r /\ pending_ok o r /\ in_sync t i.

Lemma sync_mark m kv t i o r :
  kv ∈ rows -> (m = MDone -> owes g it kv.2 -> good g it (copy i g)) -> sync_step t i o r ->
  sync_step (s_mark m now owner kv t) i o r.
Proof.
  intros Hkv Hm (Ht & Hp & Hs). split_and!; [apply tracks_mark; auto|done|]. apply in_sync_mark; [auto|apply Ht|done|done].
Qed.

Lemma sync_closed : step_closed env now owner e (hydration_byte_budget cfg) page_fuel sync_step rows.
Proof.
  split; intros *.
  - intros Hkv. by apply (sync_mark MRetry).
  - intros Hkv _ _. by apply (sync_mark MDead).
  - intros Hkv Hpush (Ht & Hp & Hs). split_and!; [apply (tracks_push _ _ _ _ rows); auto| |done].
    apply Forall2_app; [done|]. constructor; [|constructor]. eauto.
  - intros (Ht & Hp & Hs) _ Hb. split_and!; [by apply (tracks_flush _ _ _ _ rows HU Hsub _ _ i o)|constructor|]. eapply flush_sync; [apply Ht|apply Ht|done..].
  - intros Hkv Hab. apply (sync_mark MDone); [done|]. intros _ (Hdr & Hcat & Hcol & Hop & Hw). exfalso.
    destruct Hab as (cat & col & g' & n & gs & ins & Hid & Hent & Hrd & Hin & Hget). unfold id_key in Hid.
    destruct (write_ref kv.2); [done|]. rewrite Hent in Hid, Hw. injection Hw as ->.
    destruct (o_op (ob kv.2) ==s "upsert") eqn:Eop; [|done]. bool_hyps. injection Hid as <- <-. rewrite Hcat, Hcol in Hrd.
    rewrite (f_read _ _ _ _ _ HF _ _ _ Hrd Hin) in Hget. unfold kind_of in Hop. rewrite Hget in Hop. congruence.
  - intros Hkv Hh. apply (sync_mark MDone); [done|]. intros _ Ho. exfalso.
    assert (Hed : e = d) by (rewrite <-(He _ Hkv); apply Ho). rewrite Hed in Hh.
    destruct (f_batch _ _ _ _ _ HF kv []) as [_ Hno]; [auto|apply Ho|done|]. by destruct (Hno Ho) as (x & ?%elem_of_nil & _).
  - intros Hkv Hh Hne Hsend (Ht & Hp & [Hd Hk]).
    assert (Hr : e = d -> ops_respect (accepts d) ops (home g).1 (home g).2 g (good g it)).
    { intros Hed. rewrite Hed in Hh. apply (f_batch _ _ _ _ _ HF kv); [auto|by rewrite <-Hed; apply He|done]. }
    destruct (send_sync ops [] 0 0 i w b i' Hr Hsend) as [H1 H2].
    assert (Hs' : sync_step t i' o r) by (split_and!; [done|done|split; [eauto|auto]]).
    assert (Hw : w = WDone -> owes g it kv.2 -> good g it (copy i' g)).
    { intros -> Ho. assert (Hed : e = d) by (rewrite <-(He _ Hkv); apply Ho). apply H2; [done|done|]. rewrite Hed in Hh.
      destruct (f_batch _ _ _ _ _ HF kv ops) as [_ Hx]; [auto|apply Ho|done|]. by apply Hx. }
    destruct w; [apply (sync_mark MDone)|apply (sync_mark MRetry)|apply (sync_mark MDead)]; auto; done.
Qed.

Lemma driver_sync tbl idx reads :
  batch_state now owner U tbl0 tbl -> in_sync tbl idx ->
  let st := process_driver_rows env now owner e (hydration_byte_budget cfg) page_fuel rows tbl idx reads in
  in_sync (d_tbl st) (d_idx st).
Proof.
  intros Hst Hs. eapply (process_ind env now owner e (hydration_byte_budget cfg) page_fuel sync_step rows sync_closed).
  split_and!; [split_and!; [done|set_solver|done|done]|constructor|done].
Qed.
End driver.

Lemma open_marks_sync ms tbl idx :
  Forall (fun mk : mark_kind * claimed => mk.1 <> MDone /\ mk.2 ∈ U) ms -> batch_state now owner U tbl0 tbl -> in_sync tbl idx ->
  in_sync (apply_marks now owner ms tbl) idx.
Proof.
  revert tbl. induction ms as [|[m kv] ms IH]; intros tbl Hall Hst Hs; [done|]. apply Forall_cons in Hall as [[Hm Hkv] Hall].
  apply IH; [done|by apply batch_state_mark|]. by apply in_sync_mark.
Qed.

Lemma process_driver_sync gr acc :
  gr.2 ⊆ U -> (forall kv, kv ∈ gr.2 -> o_driver (ob kv.2) = gr.1) -> batch_state now owner U tbl0 acc.1.1.1.1 ->
  in_sync acc.1.1.1.1 acc.1.1.1.2 ->
  let acc' := process_driver env cfg page_fuel now owner gr acc in in_sync acc'.1.1.1.1 acc'.1.1.1.2.
Proof.
  destruct acc as [[[[tbl idx] reads] m] b]. simpl. intros Hsub He Hst Hs. unfold process_driver.
  destruct (resolve_indexer env gr.1); [by apply driver_sync|].
  pose proof (unresolvable_apply env now owner gr.1 (unresolvable_max_attempts cfg) (unresolvable_max_age cfg) gr.2 tbl) as Ha.
  destruct (handle_unresolvable_rows _ _ _ _ _ _ _ _) as [[n1 n2] t]. simpl in *. rewrite Ha. apply open_marks_sync; [|done|done].
  apply Forall_forall. intros [m' kv] Hmk. split; [by eapply unresolvable_marks_open|]. apply Hsub.
  eapply unresolvable_marks_rows. apply list_elem_of_fmap. eauto.
Qed.

Lemma drivers_sync grs acc :
  (forall gr, gr ∈ grs -> gr.2 ⊆ U /\ forall kv, kv ∈ gr.2 -> o_driver (ob kv.2) = gr.1) ->
  batch_state now owner U tbl0 acc.1.1.1.1 -> in_sync acc.1.1.1.1 acc.1.1.1.2 ->
  let acc' := fold_left (fun acc gr => process_driver env cfg page_fuel now owner gr acc) grs acc in
  in_sync acc'.1.1.1.1 acc'.1.1.1.2.
Proof.
  revert acc. induction grs as [|gr grs IH]; intros acc Hg Hst Hs; cbv zeta; [done|]. cbn [fold_left].
  destruct (Hg gr) as [Hsub He]; [by left|]. apply IH; [intros; apply Hg; by right| |by apply process_driver_sync].
  by apply process_driver_settles.
Qed.
End batch.

(** A batch in faithful surroundings: if one of the claimed rows that owe the item ends as
    done the indexed copy is right, and a copy that was right stays right. *)
Lemma drain_once_sync (env : drain_env I) (HP : IndexPlane doc_at accepts env) cfg page_fuel returning now owner locked
    tbl idx reads rows tbl1 n tbl' idx' reads' m b g it :
  (forall l, returning l ≡ₚ l) -> ids_unique tbl ->
  s_claim_batch now (lease_seconds cfg) owner (batch_size cfg) locked tbl = (rows, tbl1) ->
  drain_once env cfg page_fuel returning now owner locked tbl idx reads = (n, (tbl', idx', reads', m, b)) ->
  faithful env page_fuel rows g it ->
  (forall kv, kv ∈ rows -> owes g it kv.2 -> row_done tbl' kv -> good g it (copy idx' g)) /\
  (good g it (copy idx g) -> good g it (copy idx' g)).
Proof.
  intros Hret Hu Hc Hd HF. destruct (claim_batch_ok returning Hret _ _ _ _ _ _ _ _ Hu Hc) as [Hok Hst].
  assert (Hel : forall kv, kv ∈ returning rows <-> kv ∈ rows) by (intros; by rewrite Hret).
  assert (HF' : faithful env page_fuel (returning rows) g it).
  { destruct HF as [F1 F2 F3 F4 F5 F6].
    split; [exact F1|exact F2|exact F3|intros kv ?%Hel; by apply F4|intros kv ?%Hel; by apply F5|intros kv ops ?%Hel; by apply F6]. }
  unfold drain_once in Hd. rewrite Hc in Hd. injection Hd as _ Hf.
  match type of Hf with fold_left _ ?grs ?acc = _ => pose proof (drivers_sync env HP cfg page_fuel now owner (returning rows) tbl Hok g it HF' idx
    grs acc) as Hs end.
  rewrite Hf in Hs. simpl in Hs. destruct Hs as [H1 H2]; [|done| |split; [intros kv ?%Hel|]; eauto].
  - intros [dr vs] Hg. simpl. split; intros x Hx; destruct (group_by_elem (fun kv : claimed => Some (o_driver (ob kv.2))) _ _ _ _ Hg Hx) as [? Hxd];
      [done|by injection Hxd].
  - split; [|done]. intros kv Hkv Ho (r & Hr & Hs). destruct (proj1 Hst kv Hkv) as [Hh|(r' & Hr' & _)]; exfalso.
    + unfold held in Hh. simplify_eq. pose proof Hok as (_ & _ & Hfr). rewrite Forall_forall in Hfr. destruct (Hfr _ Hkv) as [? _]. congruence.
    + pose proof Hc as (_ & Hin & _)%s_claim_batch_spec. destruct kv as [k0 r0]. destruct (Hin k0 r0) as (Hr0 & _); [by apply Hel|].
      simpl in *. simplify_eq. pose proof Hok as (_ & _ & Hfr). rewrite Forall_forall in Hfr. destruct (Hfr _ Hkv) as [? _]. simpl in *. congruence.
Qed.

(** ** Commits *)

(** An obligation for the item is open. *)
Definition open_debt (tbl : stable) (g : string) (it : item) : Prop :=
  exists k r, tbl !! k = Some r /\ s_status r <> SDone /\ owes g it r.

(** The ops that a commit hands to the dispatcher announce the new version of the item:
    through its write batch, or by its id, and then all ops with its id say the same. *)
Definition announced (write_id_supported : bool) (ops : list (Z * DispatchableOp)) (g : string) (it : item) : Prop :=
  let ref o := if write_id_supported then dop_write_id o else None in
  exists id o, (id, o) ∈ ops /\ dop_kind o = kind_of it /\
    match ref o with
    | Some w => it_write it = Some w
    | None => g <> "" /\ dop_entity_id o = g /\
              forall id' o', (id', o') ∈ ops -> ref o' = None -> dop_entity_id o' = g -> dop_kind o' = kind_of it
    end.

(** What the primary has, the table of obligations, and the items in the seam: written, with
    their obligation still to be enqueued. *)
Record ledger : Type := mkLedger { l_truth : string -> item; l_tbl : stable; l_seam : list string }.

(** Writes go in two steps: the transaction on the primary, and then the enqueue of the
    obligations, which may be late, or never come.  The list has the items written. *)
Inductive commits : list string -> ledger -> ledger -> Prop :=
| commits_none l : commits [] l l
| commits_write touched l l' gs truth' :
    commits touched l l' -> (forall g, g ∉ gs -> truth' g = l_truth l' g) ->
    commits (gs ++ touched) l (mkLedger truth' (l_tbl l') (gs ++ l_seam l'))
| commits_enqueue touched l l' now t1 t2 instance cat col wis ops tasks n tbl' tasks' seam' :
    commits touched l l' ->
    enqueue_storage_plane_ids now t1 t2 true false instance d cat col wis ops (l_tbl l', tasks) = (n, (tbl', tasks')) ->
    NoDup (map fst ops) -> (forall id, id ∈ map fst ops -> l_tbl l' !! (day_of now, id) = None) ->
    (forall g, g ∈ l_seam l' -> g ∈ seam' \/ home g = (cat, col) /\ announced wis ops g (l_truth l' g)) ->
    commits touched l (mkLedger (l_truth l') tbl' seam').
End sync.

(** ** Rows of a commit *)

Lemma insert_all_some (l : list (skey * srow)) (tbl : stable) k r :
  (k, r) ∈ l -> (forall r', (k, r') ∈ l -> r' = r) -> fold_left (fun t kv => <[kv.1 := kv.2]> t) l tbl !! k = Some r.
Proof.
  induction l as [|[k0 r0] l IH] using rev_ind; [by intros ?%elem_of_nil|]. rewrite fold_left_app. simpl.
  intros Hin Hu. destruct (decide (k0 = k)) as [->|Hne].
  - rewrite lookup_insert_eq. f_equal. apply Hu. apply elem_of_app. right. by left.
  - rewrite lookup_insert_ne by done. apply elem_of_app in Hin as [Hin|Hin%list_elem_of_singleton]; [|congruence].
    apply IH; [done|]. intros r' Hr'. apply Hu. apply elem_of_app. by left.
Qed.

Lemma coalesce_elem {K V} `{EqDecision K} (key : V -> K) rows r : r ∈ coalesce_by key rows -> r ∈ rows.
Proof.
  unfold coalesce_by. intros ([k v] & -> & Hin)%list_elem_of_fmap. apply (coalesced_dict key rows k v) in Hin as (a & b & -> & _).
  apply elem_of_app. right. by left.
Qed.

Lemma coalesce_key {K V} `{EqDecision K} (key : V -> K) rows r :
  r ∈ rows -> exists r', r' ∈ coalesce_by key rows /\ r' ∈ rows /\ key r' = key r.
Proof.
  intros Hin. assert (Hlast : exists a v b, rows = a ++ v :: b /\ key v = key r /\ Forall (fun x => key x <> key r) b).
  { induction rows as [|x rows IH] using rev_ind; [by apply elem_of_nil in Hin|].
    destruct (decide (key x = key r)) as [Heq|Hne]; [by exists rows, x, []|].
    apply elem_of_app in Hin as [Hin|Hin%list_elem_of_singleton]; [|congruence].
    destruct (IH Hin) as (a & v & b & -> & Hk & Hb). exists a, v, (b ++ [x]). split_and!; [by rewrite <-app_assoc|done|].
    apply Forall_app. auto. }
  destruct Hlast as (a & v & b & -> & Hk & Hb). exists v. split_and!; [|apply elem_of_app; right; by left|done].
  apply list_elem_of_fmap. exists (key r, v). split; [done|]. apply (coalesced_dict key). eauto.
Qed.

Lemma build_records_elem instance driver col wis ops :
  let '(ws, ios) := build_storage_plane_records instance driver col wis ops in
  (forall r, r ∈ ws <-> exists id o w, (id, o) ∈ ops /\ (if wis then dop_write_id o else None) = Some w /\
     r = mkWriteOutbox id driver instance col (dop_kind o) w w) /\
  (forall r, r ∈ ios <-> exists id o, (id, o) ∈ ops /\ (if wis then dop_write_id o else None) = None /\
     r = mkOutbox id driver instance col (dop_kind o) (Some (dop_entity_id o)) (dop_entity_id o)).
Proof.
  induction ops as [|[id o] ops IH]; simpl.
  - split; intros r; rewrite elem_of_nil; setoid_rewrite elem_of_nil; naive_solver.
  - destruct (build_storage_plane_records instance driver col wis ops) as [ws ios]. destruct IH as [IH1 IH2].
    destruct (if wis then dop_write_id o else None) as [w|] eqn:Ew; split; intros r; rewrite ?elem_of_cons, ?IH1, ?IH2;
      setoid_rewrite elem_of_cons; naive_solver.
Qed.

Definition write_row (now : Z) (cat : string) (r : WriteIdOutboxRecord) : skey * srow :=
  ((day_of now, wo_op_id r),
   fresh_srow now (mkOb cat (wo_driver r) (Some (wo_collection r)) "item" None (wo_op r) (Some (wo_write r)) (Some (wo_idem r)) now)).
Definition id_row (now : Z) (cat : string) (r : OutboxRecord) : skey * srow :=
  ((day_of now, ob_op_id r),
   fresh_srow now (mkOb cat (ob_driver r) (Some (ob_collection r)) "item" (ob_item r) (ob_op r) None (Some (ob_idem r)) now)).

Section plane_rows.
Context (now t1 t2 : Z) (instance driver cat col : string) (wis : bool) (ops : list (Z * DispatchableOp)).

(** The rows a call of [enqueue_storage_plane_ids] inserts. *)
Definition plane_rows : list (skey * srow) :=
  let '(ws, ios) := build_storage_plane_records instance driver col wis ops in
  map (write_row now cat) (coalesce_write_id_rows ws) ++ map (id_row now cat) (coalesce_id_only_rows ios).

Lemma enqueue_rows tbl tasks n tbl' tasks' :
  enqueue_storage_plane_ids now t1 t2 true false instance driver cat col wis ops (tbl, tasks) = (n, (tbl', tasks')) ->
  tbl' = fold_left (fun t kv => <[kv.1 := kv.2]> t) plane_rows tbl.
Proof.
  assert (Hops : ops = [] -> plane_rows = []) by (unfold plane_rows; by intros ->).
  unfold enqueue_storage_plane_ids, plane_rows in *. destruct ops as [|x ops']; [intros [= _ <- _]; by rewrite Hops|].
  destruct (build_storage_plane_records _ _ _ _ _) as [ws ios]. simpl. clear Hops. intros [= _ Heq].
  rewrite fold_left_app, !fold_left_map. unfold enqueue_storage_op_id_only, enqueue_storage_op_write_id in Heq.
  destruct (coalesce_write_id_rows ws) as [|w wss] eqn:Ew, (coalesce_id_only_rows ios) as [|i ios'] eqn:Ei; by injection Heq as <- _.
Qed.

(** Each inserted row comes from one op. *)
Lemma plane_rows_elem k r :
  (k, r) ∈ plane_rows -> exists id o, (id, o) ∈ ops /\ k = (day_of now, id) /\ s_status r = SReady /\
    r = match (if wis then dop_write_id o else None) with
        | Some w => (write_row now cat (mkWriteOutbox id driver instance col (dop_kind o) w w)).2
        | None => (id_row now cat (mkOutbox id driver instance col (dop_kind o) (Some (dop_entity_id o)) (dop_entity_id o))).2
        end.
Proof.
  unfold plane_rows. pose proof (build_records_elem instance driver col wis ops) as Hb.
  destruct (build_storage_plane_records instance driver col wis ops) as [ws ios]. destruct Hb as [Hw Hi].
  intros [Hin|Hin]%elem_of_app; apply list_elem_of_fmap in Hin as (x & Heq & Hx%coalesce_elem).
  - apply Hw in Hx as (id & o & w & Ho & Hr & ->). injection Heq as -> ->. exists id, o. by rewrite Hr.
  - apply Hi in Hx as (id & o & Ho & Hr & ->). injection Heq as -> ->. exists id, o. by rewrite Hr.
Qed.

Lemma plane_rows_unique k r r' : NoDup (map fst ops) -> (k, r) ∈ plane_rows -> (k, r') ∈ plane_rows -> r' = r.
Proof.
  intros Hnd (id & o & Ho & -> & _ & ->)%plane_rows_elem (id' & o' & Ho' & [= <-] & _ & ->)%plane_rows_elem.
  assert (o' = o) as ->; [|done]. apply list_elem_of_lookup in Ho as [i Hi], Ho' as [j Hj].
  assert (i = j) as ->; [|congruence]. eapply (NoDup_lookup _ i j id Hnd); by rewrite list_lookup_fmap, ?Hi, ?Hj.
Qed.

(** A write-batch op, and the last op on an id, have a row. *)
Lemma plane_rows_write id o w :
  (id, o) ∈ ops -> (if wis then dop_write_id o else None) = Some w ->
  exists k r, (k, r) ∈ plane_rows /\ s_status r = SReady /\ exists id', ob r = mkOb cat driver (Some col) "item" None (dop_kind o) (Some w) id' now.
Proof.
  intros Ho Hr. unfold plane_rows. pose proof (build_records_elem instance driver col wis ops) as Hb.
  destruct (build_storage_plane_records instance driver col wis ops) as [ws ios]. destruct Hb as [Hw _].
  assert (Hin : mkWriteOutbox id driver instance col (dop_kind o) w w ∈ ws) by (apply Hw; eauto 10).
  destruct (coalesce_key write_id_key _ _ Hin) as ([? ? ? ? ? ? ?] & Hc & _ & [= -> -> -> ->]).
  eexists _, _. split; [apply elem_of_app; left; apply list_elem_of_fmap; eexists; split; [|exact Hc]; done|]. eauto.
Qed.

Lemma plane_rows_id id o :
  (id, o) ∈ ops -> (if wis then dop_write_id o else None) = None ->
  exists k r id' o', (k, r) ∈ plane_rows /\ s_status r = SReady /\ (id', o') ∈ ops /\ (if wis then dop_write_id o' else None) = None /\
    dop_entity_id o' = dop_entity_id o /\
    ob r = mkOb cat driver (Some col) "item" (Some (dop_entity_id o)) (dop_kind o') None (Some (dop_entity_id o)) now.
Proof.
  intros Ho Hr. unfold plane_rows. pose proof (build_records_elem instance driver col wis ops) as Hb.
  destruct (build_storage_plane_records instance driver col wis ops) as [ws ios]. destruct Hb as [_ Hi].
  assert (Hin : mkOutbox id driver instance col (dop_kind o) (Some (dop_entity_id o)) (dop_entity_id o) ∈ ios) by (apply Hi; eauto 10).
  destruct (coalesce_key id_only_key _ _ Hin) as (x & Hc & Hx & Hk). apply Hi in Hx as (id' & o' & Ho' & Hr' & ->).
  injection Hk as Hk. eexists _, _, id', o'. split; [apply elem_of_app; right; apply list_elem_of_fmap; eexists; split; [|exact Hc]; done|].
  simpl. rewrite Hk. auto 10.
Qed.
End plane_rows.

(** ** Histories *)

Section history.
Context {I : Type} (doc_at : string -> I -> string -> string -> string -> option pyval).
Context (accepts : string -> IndexableOp -> option pyval -> Prop).
Context (home : string -> string * string) (represents : string -> canonical_input -> pyval -> Prop) (d : string).
(** The items a history is looked at for. *)
Context (tracked : string -> Prop).

Abbreviation debt := (open_debt home d).
Abbreviation right g it i := (good represents g it (copy doc_at home d i g)).

(** The ledger and the index. *)
Record world : Type := mkWorld { w_ledger : ledger; w_idx : I }.
Abbreviation w_truth w := (l_truth (w_ledger w)).
Abbreviation w_tbl w := (l_tbl (w_ledger w)).
Abbreviation w_seam w := (l_seam (w_ledger w)).

(** Statements on the table that mark no row done. *)
Definition open_op (o : sop) (tbl : stable) : Prop :=
  match o with SInsert k _ => tbl !! k = None | SClaim _ _ _ _ => True | SMark m _ _ => m <> MDone end.

(** The steps: commits; statements of others, which include claims of workers that die
    and obligations of other drivers; and a batch, during which items may be written.  For
    the tracked items that are not, its surroundings are faithful. *)
Inductive wstep : world -> world -> Prop :=
| step_commit w touched l' :
    commits home d touched (w_ledger w) l' -> ids_unique (l_tbl l') -> wstep w (mkWorld l' (w_idx w))
| step_other w now o :
    open_op o (w_tbl w) -> ids_unique (sexec now o (w_tbl w, [])).1 ->
    wstep w (mkWorld (mkLedger (w_truth w) (sexec now o (w_tbl w, [])).1 (w_seam w)) (w_idx w))
| step_drain w env cfg page_fuel returning now owner locked reads rows tbl1 n tbl' idx' reads' m b touched l' :
    IndexPlane doc_at accepts env -> (forall l, returning l ≡ₚ l) ->
    s_claim_batch now (lease_seconds cfg) owner (batch_size cfg) locked (w_tbl w) = (rows, tbl1) ->
    drain_once env cfg page_fuel returning now owner locked (w_tbl w) (w_idx w) reads = (n, (tbl', idx', reads', m, b)) ->
    commits home d touched (mkLedger (w_truth w) tbl' (w_seam w)) l' -> ids_unique (l_tbl l') ->
    (forall g, tracked g -> g ∉ touched -> faithful accepts home represents d env page_fuel rows g (w_truth w g)) ->
    wstep w (mkWorld l' idx').

(** Each item is indexed as the primary has it, or an obligation for it is open, or it is
    in the seam. *)
Definition accounted (l : ledger) (i : I) (g : string) : Prop :=
  right g (l_truth l g) i \/ debt (l_tbl l) g (l_truth l g) \/ g ∈ l_seam l.

Definition synced (w : world) : Prop := ids_unique (w_tbl w) /\ forall g, tracked g -> accounted (w_ledger w) (w_idx w) g.

Definition empty_world (w : world) : Prop :=
  w_tbl w = ∅ /\ w_seam w = [] /\ forall g, it_input (w_truth w g) = None /\ copy doc_at home d (w_idx w) g = None.

Lemma debt_mono tbl tbl' g it : tbl ⊆ tbl' -> debt tbl g it -> debt tbl' g it.
Proof. intros Hsub (k & r & Hr & Hs & Ho). exists k, r. split_and!; [by eapply lookup_weaken|done..]. Qed.

Lemma commit_debt now instance cat col wis ops tbl g it :
  NoDup (map fst ops) -> home g = (cat, col) -> announced wis ops g it ->
  debt (fold_left (fun t kv => <[kv.1 := kv.2]> t) (plane_rows now instance d cat col wis ops) tbl) g it.
Proof.
  intros Hnd Hh (id & o & Ho & Hk & Hm).
  assert (Hput : forall k r, (k, r) ∈ plane_rows now instance d cat col wis ops -> s_status r = SReady -> owes home d g it r ->
    debt (fold_left (fun t kv => <[kv.1 := kv.2]> t) (plane_rows now instance d cat col wis ops) tbl) g it).
  { intros k r Hin Hs How. exists k, r. split_and!; [|by rewrite Hs|done]. apply insert_all_some; [done|].
    intros r' Hr'. by eapply plane_rows_unique. }
  assert (Hkind : str_mem (kind_of it) ["upsert"; "delete"] = true) by (unfold kind_of; by destruct (it_input it)).
  destruct (if wis then dop_write_id o else None) as [w|] eqn:Er.
  - destruct (plane_rows_write now instance d cat col wis ops id o w Ho Er) as (k & r & Hin & Hs & id' & Hob).
    assert (Hw : w <> "") by (destruct wis; [|done]; unfold dop_write_id in Er; destruct o; [|done]; destruct (op_write_id _); [|done];
      destruct (_ ==s _) eqn:E; [done|]; by bool_hyps; simplify_eq).
    assert (Hwr : write_ref r = Some w).
    { unfold write_ref. rewrite Hob. cbn [o_op o_write]. rewrite Hk, Hkind. simpl. by rewrite (proj2 (String.eqb_neq w "") Hw). }
    eapply Hput; [done..|]. unfold owes, collection_of. by rewrite Hwr, Hob, Hh.
  - destruct Hm as (Hne & Hid & Hall). destruct (plane_rows_id now instance d cat col wis ops id o Ho Er) as (k & r & id' & o' & Hin & Hs & Ho' & Hr' & Hi' & Hob).
    rewrite Hid in Hob. rewrite (Hall id' o' Ho' Hr' ltac:(congruence)) in Hob.
    assert (Hwr : write_ref r = None) by (unfold write_ref; rewrite Hob; cbn [o_op o_write]; by rewrite Hkind).
    eapply Hput; [done..|]. unfold owes, collection_of. rewrite Hwr, Hob, Hh. simpl. by rewrite (proj2 (String.eqb_neq g "") Hne).
Qed.

(** Commits keep the rows and the items they do not write; a written item is in the seam
    until a row owes it. *)
Lemma commits_spec touched l l' :
  commits home d touched l l' ->
  l_tbl l ⊆ l_tbl l' /\ (forall g, g ∉ touched -> l_truth l' g = l_truth l g) /\
  (forall g, g ∈ touched \/ g ∈ l_seam l -> debt (l_tbl l') g (l_truth l' g) \/ g ∈ l_seam l').
Proof.
  induction 1 as [l|touched l l' gs truth' Hc (IH1 & IH2 & IH3) Hgs
    |touched l l' now t1 t2 instance cat col wis ops tasks n tbl' tasks' seam' Hc (IH1 & IH2 & IH3) Henq Hnd Hfresh Hseam]; simpl.
  - split_and!; [done|done|]. intros g [[]%elem_of_nil|?]. by right.
  - split_and!; [done|intros g Hg; rewrite Hgs by set_solver; apply IH2; set_solver|]. intros g Hg.
    destruct (decide (g ∈ gs)) as [Hin|Hnin]; [right; set_solver|]. rewrite Hgs by done. destruct (IH3 g); [set_solver|by left|right; set_solver].
  - apply enqueue_rows in Henq. assert (Hsub : l_tbl l' ⊆ tbl').
    { apply map_subseteq_spec. intros k r Hr. rewrite Henq, insert_all_other; [done|]. intros ([k' r'] & -> & Hin)%list_elem_of_fmap.
      apply plane_rows_elem in Hin as (id & o & Ho & -> & _). cbn [fst] in Hr. rewrite Hfresh in Hr; [done|]. apply list_elem_of_fmap. by exists (id, o). }
    split_and!; [by etrans|done|]. intros g Hg. destruct (IH3 g Hg) as [Hd|Hs]; [left; by eapply debt_mono|].
    destruct (Hseam g Hs) as [?|[Hh Ha]]; [by right|left]. rewrite Henq. by apply commit_debt.
Qed.

Lemma commits_accounted touched l l' i :
  commits home d touched l l' -> (forall g, tracked g -> g ∉ touched -> accounted l i g) -> forall g, tracked g -> accounted l' i g.
Proof.
  intros (Hsub & Hout & Hin)%commits_spec Hacc g Ht. unfold accounted in *. destruct (decide (g ∈ touched)) as [Hg|Hg]; [right; auto|].
  destruct (Hacc g Ht Hg) as [?|[?|?]]; [left; by rewrite Hout|right; left; rewrite Hout by done; by eapply debt_mono|right; auto].
Qed.

(** A statement of others leaves an open obligation open. *)
Lemma open_op_debt now o tbl g it : open_op o tbl -> debt tbl g it -> debt (sexec now o (tbl, [])).1 g it.
Proof.
  intros Hop (k & r & Hr & Hs & Ho). destruct o as [k' ob'|lease owner n locked|m owner kv]; cbn [sexec fst snd open_op] in *.
  - exists k, r. split_and!; [|done..]. rewrite lookup_insert_ne; [done|]. intros ->. congruence.
  - destruct (s_claim_batch now lease owner n locked tbl) as [rows tbl'] eqn:Hc. simpl. apply s_claim_batch_spec in Hc as (_ & Hin & Hout).
    destruct (decide (k ∈ map fst rows)) as [Hk|Hk].
    + apply list_elem_of_fmap in Hk as ([k0 r0] & -> & Hk). destruct (Hin _ _ Hk) as (Hr' & r1 & Hr1 & _ & _ & ->). simpl in *. simplify_eq.
      exists k0, (s_claim now owner r). split; [done|]. split; [done|exact Ho].
    + exists k, r. rewrite Hout by done. by split_and!.
  - rewrite s_mark_cas. destruct (decide (k = kv.1)) as [->|Hne].
    + eexists kv.1, _. rewrite s_cas_lookup, Hr. split; [done|]. destruct (_ && _); [|done]. destruct m; [done|split; [done|exact Ho]..].
    + exists k, r. rewrite s_cas_other by done. by split_and!.
Qed.

(** A batch in faithful surroundings keeps an item in sync. *)
Lemma drain_once_synced env cfg page_fuel returning now owner locked tbl idx reads rows tbl1 n tbl' idx' reads' m b g it :
  IndexPlane doc_at accepts env -> (forall l, returning l ≡ₚ l) -> ids_unique tbl ->
  s_claim_batch now (lease_seconds cfg) owner (batch_size cfg) locked tbl = (rows, tbl1) ->
  drain_once env cfg page_fuel returning now owner locked tbl idx reads = (n, (tbl', idx', reads', m, b)) ->
  faithful accepts home represents d env page_fuel rows g it ->
  right g it idx \/ debt tbl g it -> right g it idx' \/ debt tbl' g it.
Proof.
  intros HP Hret Hu Hc Hd HF Hs.
  destruct (drain_once_sync doc_at accepts home represents d env HP _ _ _ _ _ _ _ _ _ _ _ _ _ _ _ _ _ _ _ Hret Hu Hc Hd HF) as [H1 H2].
  destruct Hs as [Hs|(k & r & Hr & Hst & Ho)]; [left; auto|].
  destruct (drain_once_settles env cfg page_fuel returning Hret _ _ _ _ _ _ _ _ _ _ _ _ _ _ Hu Hc Hd) as (_ & [Hb Hout] & _).
  destruct (decide (k ∈ map fst rows)) as [Hk|Hk].
  - apply list_elem_of_fmap in Hk as ([k0 r0] & -> & Hk). pose proof Hc as (_ & Hin & _)%s_claim_batch_spec.
    destruct (Hin _ _ Hk) as (_ & r1 & Hr1 & _ & _ & ->). simpl in *. simplify_eq.
    assert (Hrow : exists r', tbl' !! k0 = Some r' /\ ob r' = ob r).
    { destruct (Hb (k0, s_claim now owner r)) as [Hh|(r' & Hr' & Hob & _)]; [by rewrite Hret|by eexists|by exists r']. }
    destruct Hrow as (r' & Hr' & Hob). destruct (decide (s_status r' = SDone)) as [Hdone|Hnot].
    + left. apply (H1 (k0, s_claim now owner r)); [done|done|]. by exists r'.
    + right. exists k0, r'. split_and!; [done..|]. unfold owes, collection_of, write_ref in *. by rewrite Hob.
  - right. exists k, r. rewrite Hout; [done|]. intros Hk'. apply Hk. by rewrite <-Hret.
Qed.

Lemma wstep_synced w w' : wstep w w' -> synced w -> synced w'.
Proof.
  destruct 1 as [w touched l' Hc Hu'|w now o Hop Hu'|w env cfg page_fuel returning now owner locked reads rows tbl1 n tbl' idx' reads' m b
    touched l' HP Hret Hcl Hd Hc Hu' HF]; intros [Hu Hs]; (split; [done|]); simpl.
  - eapply commits_accounted; [done|]. auto.
  - intros g Ht. destruct (Hs g Ht) as [?|[?|?]]; [by left|right; left; by apply open_op_debt|by right; right].
  - eapply commits_accounted; [done|]. intros g Ht Hg. destruct (Hs g Ht) as [Hr|[Hd'|?]]; [| |by right; right].
    + destruct (drain_once_synced _ _ _ _ _ _ _ _ _ _ _ _ _ _ _ _ _ _ g _ HP Hret Hu Hcl Hd (HF g Ht Hg) (or_introl Hr)); [by left|by right; left].
    + destruct (drain_once_synced _ _ _ _ _ _ _ _ _ _ _ _ _ _ _ _ _ _ g _ HP Hret Hu Hcl Hd (HF g Ht Hg) (or_intror Hd')); [by left|by right; left].
Qed.

Lemma history_synced w w' : rtc wstep w w' -> synced w -> synced w'.
Proof. induction 1; eauto using wstep_synced. Qed.

Lemma empty_synced w : empty_world w -> synced w.
Proof.
  intros (Ht & _ & Hg). split.
  - rewrite Ht. intros k k' [r Hr]. by rewrite lookup_empty in Hr.
  - intros g _. left. destruct (Hg g) as [Hi Hc]. unfold good. by rewrite Hi, Hc.
Qed.
End history.

