(* ===== verification/StorageSweep.v ===== *)
(** * The sweep for missed obligations

    [modules/storage/obligation_sweep.py].  A write commits in the primary
    store before its obligation lands in [tasks.storage]; if the process dies in
    between (the seam of StorageSync), nothing else records that the index owes
    the item.  A periodic job re-reads the rows of every hub table that changed
    in a recent window and enqueues an id-only obligation for each row that has
    none.

    Catalogs, collections, routing and hub tables are the environment of a run;
    a collection whose sweep fails is rolled back to its savepoint.  Times are
    seconds, and one run has one clock reading [now]. *)

From S2P Require Import Prelude TaskQueue StoragePlane StoragePlaneProofs StorageDrainProofs StorageSync.

Definition GRACE_SECONDS : Z := 300.
Definition LOOKBACK_MULTIPLIER : Z := 3.
Definition ROW_LIMIT_PER_TARGET : nat := 1000.
Definition PAGE_SIZE : nat := 200.
Definition MAX_CATALOGS : nat := 200 * 50.
Definition MAX_COLLECTIONS_PER_CATALOG : nat := 200 * 50.

(** ** Hub rows *)

Record hub_row : Type := mkHub {
  h_geoid : string;
  h_transaction_time : Z;
  h_deleted_at : option Z;
  h_write_id : option string;
}.

(** [GREATEST(transaction_time, COALESCE(deleted_at, transaction_time))] *)
Definition latest_change (h : hub_row) : Z :=
  Z.max (h_transaction_time h)
        (match h_deleted_at h with Some t => t | None => h_transaction_time h end).

Definition in_sweep_window (ws we : Z) (h : hub_row) : bool :=
  ((ws <=? h_transaction_time h) && (h_transaction_time h <? we)) ||
  match h_deleted_at h with Some t => (ws <=? t) && (t <? we) | None => false end.

(** The obligation rows that cover a hub row. *)
Definition obligation_covers (cat drv col : string) (day_floor : Z) (h : hub_row) (kv : skey * srow) : bool :=
  let o := ob kv.2 in
  (o_catalog o ==s cat) && (o_driver o ==s drv) && bool_decide (o_collection o = Some col) &&
  (day_floor <=? kv.1.1) &&
  (match o_write o, h_write_id h with Some a, Some b => a ==s b | _, _ => false end ||
   (bool_decide (o_entity o = Some (h_geoid h)) && (latest_change h <=? o_created o))).

Definition has_obligation (cat drv col : string) (day_floor : Z) (tbl : stable) (h : hub_row) : bool :=
  existsb (obligation_covers cat drv col day_floor h) (map_to_list tbl).

(** ** One target *)

Definition by_latest (a b : hub_row) : Prop := latest_change a <= latest_change b.
#[global] Instance by_latest_dec a b : Decision (by_latest a b).
Proof. unfold by_latest. apply _. Defined.

Definition missing (ws we : Z) (cat drv col : string) (tbl : stable) (hub : list hub_row) : list hub_row :=
  List.filter (fun h => in_sweep_window ws we h && negb (has_obligation cat drv col (day_of (ws - 86400)) tbl h)) hub.

(** The rows the query returns. *)
Definition sweep_query (ws we : Z) (cat drv col : string) (tbl : stable) (hub : list hub_row) : list hub_row :=
  take ROW_LIMIT_PER_TARGET (merge_sort by_latest (missing ws we cat drv col tbl hub)).

Definition sweep_record (id : Z) (drv instance col : string) (h : hub_row) : OutboxRecord :=
  mkOutbox id drv instance col
    (match h_deleted_at h with Some _ => "delete" | None => "upsert" end)
    (Some (h_geoid h)) (h_geoid h).

(** Fresh op ids: the supply and the number already drawn. *)
Section ids.
Context (ids : nat -> Z).

Fixpoint records_for (n : nat) (drv instance col : string) (rows : list hub_row)
    : list OutboxRecord * nat :=
  match rows with
  | [] => ([], n)
  | h :: rows =>
      if h_geoid h ==s "" then records_for n drv instance col rows
      else let (rs, n') := records_for (S n) drv instance col rows in
           (sweep_record (ids n) drv instance col h :: rs, n')
  end.

(** The loop over the targets; every query sees the table of the call. *)
Fixpoint target_records (instance_of : string -> string) (ws we : Z) (cat col : string) (tbl : stable)
    (hub : list hub_row) (entries : list string) (n : nat) : list OutboxRecord * nat :=
  match entries with
  | [] => ([], n)
  | drv :: entries =>
      let (rs, n1) := records_for n drv (instance_of drv) col (sweep_query ws we cat drv col tbl hub) in
      let (rs', n2) := target_records instance_of ws we cat col tbl hub entries n1 in
      (rs ++ rs', n2)
  end.

(** Targets checked, obligations enqueued, ids drawn, database. *)
Definition check_and_enqueue (now : Z) (trigger_id : Z) (instance_of : string -> string) (ws we : Z)
    (cat col : string) (hub_table : option (list hub_row)) (entries : list string) (n : nat) (db : stable * table)
    : Z * Z * nat * (stable * table) :=
  match hub_table with
  | None => (0, 0, n, db)
  | Some hub =>
      let (records, n') := target_records instance_of ws we cat col db.1 hub entries n in
      let checked := Z.of_nat (length entries) in
      match records with
      | [] => (checked, 0, n', db)
      | _ => (checked, Z.of_nat (length records), n',
              enqueue_storage_op_id_only now trigger_id cat records db)
      end
  end.
End ids.

(** ** One collection *)

Inductive routing : Type :=
| RoutingInvalid
| Routing (write_entries index_entries : list string).

Record sweep_env : Type := mkSweepEnv {
  se_catalogs : list string;
  se_collections : string -> list string;
  se_routing : string -> string -> routing;
  (** the rows of the physical table; [None] when table or schema is unresolved *)
  se_hub : string -> string -> option (list hub_row);
  (** the body of the savepoint raises *)
  se_fails : string -> string -> bool;
  se_instance : string -> string -> string -> string;
}.

Definition ITEMS_POSTGRESQL_DRIVER_REF : string := "items_postgresql_driver".

(** Sweep state: collections examined, targets checked, obligations enqueued, ids
    drawn, database. *)
Record sweep_state : Type := mkSweep {
  sw_examined : Z;
  sw_checked : Z;
  sw_enqueued : Z;
  sw_ids : nat;
  sw_db : stable * table;
}.

Section run.
Context (env : sweep_env) (ids : nat -> Z) (now trigger_id : Z).

Definition sweep_collection (ws we : Z) (cat col : string) (n : nat) (db : stable * table)
    : Z * Z * nat * (stable * table) :=
  match se_routing env cat col with
  | RoutingInvalid => (0, 0, n, db)
  | Routing write_entries index_entries =>
      match index_entries, write_entries with
      | [], _ | _, [] => (0, 0, n, db)
      | _, w :: _ =>
          if negb (w ==s ITEMS_POSTGRESQL_DRIVER_REF) then (0, 0, n, db)
          else if se_fails env cat col then (0, 0, n, db)
          else check_and_enqueue ids now trigger_id (fun drv => se_instance env drv cat col) ws we cat col
                 (se_hub env cat col) index_entries n db
      end
  end.

Definition sweep_one (ws we : Z) (cat col : string) (s : sweep_state) : sweep_state :=
  match sweep_collection ws we cat col (sw_ids s) (sw_db s) with
  | (checked, enqueued, n, db) =>
      mkSweep (sw_examined s + 1) (sw_checked s + checked) (sw_enqueued s + enqueued) n db
  end.

(** ** Paged loops

    [while offset < maximum]: read the page at [offset], stop at an empty page
    or after a short one.  [pages] is the number of full pages up to the
    maximum. *)
Fixpoint paged {A} (all : list A) (body : A -> sweep_state -> sweep_state) (pages : nat) (offset : nat)
    (s : sweep_state) : sweep_state :=
  match pages with
  | O => s
  | S pages =>
      match take PAGE_SIZE (drop offset all) with
      | [] => s
      | page =>
          let s := fold_left (fun s x => body x s) page s in
          if (length page <? PAGE_SIZE)%nat then s else paged all body pages (offset + PAGE_SIZE) s
      end
  end.

Definition sweep_catalog (ws we : Z) (cat : string) (s : sweep_state) : sweep_state :=
  paged (se_collections env cat) (sweep_one ws we cat) (MAX_COLLECTIONS_PER_CATALOG / PAGE_SIZE) 0 s.

(** [protocols] says whether the catalog and configuration services are up. *)
Definition sweep_missing_obligations (protocols : bool) (interval grace : Z) (db : stable * table)
    : Z * (stable * table) :=
  let ws := now - LOOKBACK_MULTIPLIER * interval in
  let we := now - grace in
  if we <=? ws then (0, db)
  else if negb protocols then (0, db)
  else
    let s := paged (se_catalogs env) (sweep_catalog ws we) (MAX_CATALOGS / PAGE_SIZE) 0
                   (mkSweep 0 0 0 0 db) in
    (sw_enqueued s, sw_db s).
End run.

(** ** The paged loop visits the first [pages * PAGE_SIZE] elements *)

Lemma paged_fold {A} (all : list A) body pages offset s :
  paged all body pages offset s =
  fold_left (fun s x => body x s) (take (pages * PAGE_SIZE) (drop offset all)) s.
Proof.
  revert offset s. induction pages as [|pages IH]; intros offset s; [done|].
  cbn [paged]. set (l := drop offset all).
  replace (S pages * PAGE_SIZE)%nat with (PAGE_SIZE + pages * PAGE_SIZE)%nat by lia.
  rewrite <- take_take_drop, fold_left_app.
  replace (drop PAGE_SIZE l) with (drop (offset + PAGE_SIZE) all) by (unfold l; by rewrite drop_drop).
  destruct (take PAGE_SIZE l) as [|x page] eqn:E.
  - assert (drop (offset + PAGE_SIZE) all = []) as ->; [|by rewrite take_nil].
    apply nil_length_inv. apply (f_equal length) in E. unfold l in E.
    rewrite length_take, length_drop in E. rewrite length_drop. change (length []) with 0%nat in E.
    assert (0 < PAGE_SIZE)%nat by (unfold PAGE_SIZE; lia). lia.
  - cbv zeta. destruct (Nat.ltb_spec (length (x :: page)) PAGE_SIZE) as [Hlt|Hge]; [|by rewrite IH].
    assert (drop (offset + PAGE_SIZE) all = []) as ->; [|by rewrite take_nil].
    apply nil_length_inv. rewrite <- E in Hlt. unfold l in Hlt.
    rewrite length_take, length_drop in Hlt. rewrite length_drop. lia.
Qed.

(** ** Coverage *)

Lemma has_obligation_mono cat drv col fl tbl tbl' h :
  tbl ⊆ tbl' -> has_obligation cat drv col fl tbl h = true -> has_obligation cat drv col fl tbl' h = true.
Proof.
  intros Hs (kv & Hin & Hc)%existsb_elem. apply existsb_elem. exists kv. split; [|done].
  destruct kv as [k r]. apply elem_of_map_to_list in Hin. apply elem_of_map_to_list.
  by eapply lookup_weaken.
Qed.

Lemma missing_mono ws we cat drv col tbl tbl' hub :
  tbl ⊆ tbl' ->
  (length (missing ws we cat drv col tbl' hub) <= length (missing ws we cat drv col tbl hub))%nat.
Proof.
  intros Hs. unfold missing. induction hub as [|h hub IH]; [done|]. cbn.
  destruct (in_sweep_window ws we h); cbn; [|done].
  destruct (has_obligation _ _ _ _ tbl h) eqn:E; cbn.
  - by rewrite (has_obligation_mono _ _ _ _ _ _ _ Hs E).
  - destruct (has_obligation _ _ _ _ tbl' h); cbn; lia.
Qed.

(** ** Records *)

Section records.
Context (ids : nat -> Z).

(** The records drawn between two positions of the supply. *)
Record drawn (rs : list OutboxRecord) (n n' : nat) : Prop := {
  dr_le : (n <= n')%nat;
  dr_id r : r ∈ rs -> exists m, (n <= m < n')%nat /\ ob_op_id r = ids m;
  dr_unique r r' : (forall a b, ids a = ids b -> a = b) -> r ∈ rs -> r' ∈ rs -> ob_op_id r = ob_op_id r' -> r = r';
}.

Lemma drawn_nil n : drawn [] n n.
Proof. split; [done| |]; intros; set_solver. Qed.

Lemma drawn_app rs rs' n n1 n2 : drawn rs n n1 -> drawn rs' n1 n2 -> drawn (rs ++ rs') n n2.
Proof.
  intros [L1 I1 U1] [L2 I2 U2]. split; [lia| |].
  - intros r [Hr|Hr]%elem_of_app; [destruct (I1 r Hr) as (m & ? & ?)|destruct (I2 r Hr) as (m & ? & ?)];
      exists m; (split; [lia|done]).
  - intros r r' Hinj [Hr|Hr]%elem_of_app [Hr'|Hr']%elem_of_app Heq; eauto.
    + destruct (I1 r Hr) as (m & ? & E1), (I2 r' Hr') as (m' & ? & E2).
      assert (m = m') by (apply Hinj; congruence). lia.
    + destruct (I2 r Hr) as (m & ? & E1), (I1 r' Hr') as (m' & ? & E2).
      assert (m = m') by (apply Hinj; congruence). lia.
Qed.

Lemma drawn_one n r : ob_op_id r = ids n -> drawn [r] n (S n).
Proof.
  intros Hr. split; [lia| |].
  - intros r' ->%list_elem_of_singleton. exists n. split; [lia|done].
  - by intros ? ? _ ->%list_elem_of_singleton ->%list_elem_of_singleton.
Qed.

Lemma records_for_drawn drv instance col rows n rs n' :
  records_for ids n drv instance col rows = (rs, n') -> drawn rs n n'.
Proof.
  revert n rs n'. induction rows as [|h rows IH]; intros n rs n'; cbn.
  - intros [= <- <-]. apply drawn_nil.
  - destruct (h_geoid h ==s ""); [by apply IH|].
    destruct (records_for ids (S n) drv instance col rows) as [rs0 n0] eqn:E. intros [= <- <-].
    apply (drawn_app [_] rs0 n (S n) n0); [by apply drawn_one|by apply IH].
Qed.

Lemma records_for_elem drv instance col rows n h :
  h ∈ rows -> h_geoid h <> "" ->
  exists id, sweep_record id drv instance col h ∈ (records_for ids n drv instance col rows).1.
Proof.
  intros Hh Hg. revert n. induction rows as [|h' rows IH]; [by apply elem_of_nil in Hh|]. intros n. cbn.
  apply elem_of_cons in Hh as [<-|Hh].
  - destruct (String.eqb_spec (h_geoid h) "") as [|_]; [done|].
    destruct (records_for _ _ _ _ _ _). eexists. by left.
  - destruct (h_geoid h' ==s ""); [by apply IH|]. destruct (IH Hh (S n)) as [id Hid].
    destruct (records_for _ _ _ _ _ _). eexists. right. exact Hid.
Qed.

Lemma target_records_drawn instance_of ws we cat col tbl hub entries n rs n' :
  target_records ids instance_of ws we cat col tbl hub entries n = (rs, n') -> drawn rs n n'.
Proof.
  revert n rs n'. induction entries as [|drv entries IH]; intros n rs n'; cbn.
  - intros [= <- <-]. apply drawn_nil.
  - destruct (records_for _ _ _ _ _ _) as [rs1 n1] eqn:E1.
    destruct (target_records _ _ _ _ _ _ _ _ entries n1) as [rs2 n2] eqn:E2. intros [= <- <-].
    eapply drawn_app; [by eapply records_for_drawn|by apply IH].
Qed.

Lemma target_records_elem instance_of ws we cat col tbl hub entries n drv h :
  drv ∈ entries -> h ∈ sweep_query ws we cat drv col tbl hub -> h_geoid h <> "" ->
  exists id, sweep_record id drv (instance_of drv) col h
             ∈ (target_records ids instance_of ws we cat col tbl hub entries n).1.
Proof.
  intros Hd Hh Hg. revert n. induction entries as [|d entries IH]; [by apply elem_of_nil in Hd|]. intros n.
  cbn [target_records].
  destruct (records_for ids n d _ _ _) as [rs1 n1] eqn:E1.
  destruct (target_records _ _ _ _ _ _ _ _ entries n1) as [rs2 n2] eqn:E2. cbn [fst].
  apply elem_of_cons in Hd as [->|Hd].
  - destruct (records_for_elem d (instance_of d) col _ n h Hh Hg) as [id Hid]. rewrite E1 in Hid.
    exists id. apply elem_of_app. by left.
  - destruct (IH Hd n1) as [id Hid]. rewrite E2 in Hid. exists id. apply elem_of_app. by right.
Qed.
End records.

(** ** Inserting the records *)

Lemma insert_all_keys (l : list (skey * srow)) (tbl : stable) k :
  (forall kv, kv ∈ l -> kv.1 <> k) -> fold_left (fun t kv => <[kv.1 := kv.2]> t) l tbl !! k = tbl !! k.
Proof.
  induction l as [|[k0 r0] l IH] using rev_ind; [done|]. intros Hn. rewrite fold_left_app. cbn.
  rewrite lookup_insert_ne by (apply (Hn (k0, r0)); set_solver). apply IH. intros kv Hkv. apply Hn. set_solver.
Qed.

(** Rows with new keys: the table only grows. *)
Lemma insert_all_mono (l : list (skey * srow)) (tbl : stable) :
  (forall kv, kv ∈ l -> tbl !! kv.1 = None) -> tbl ⊆ fold_left (fun t kv => <[kv.1 := kv.2]> t) l tbl.
Proof.
  intros Hn. apply map_subseteq_spec. intros k r Hk.
  rewrite insert_all_keys; [done|]. intros kv Hkv <-. by rewrite (Hn kv Hkv) in Hk.
Qed.

Lemma enqueue_id_only_rows (now trig : Z) (cat : string) (rs : list OutboxRecord) (db : stable * table) :
  (enqueue_storage_op_id_only now trig cat rs db).1 =
  fold_left (fun t kv => <[kv.1 := kv.2]> t) (map (id_row now cat) (coalesce_id_only_rows rs)) db.1.
Proof.
  unfold enqueue_storage_op_id_only. rewrite fold_left_map. by destruct (coalesce_id_only_rows rs).
Qed.

Section step.
Context (ids : nat -> Z) (now trigger_id : Z) (ids_inj : forall a b, ids a = ids b -> a = b).

(** The supply is fresh from position [n] on. *)
Definition fresh_from (n : nat) (tbl : stable) : Prop :=
  forall m, (n <= m)%nat -> tbl !! (day_of now, ids m) = None.

Lemma enqueue_records_spec (cat : string) (rs : list OutboxRecord) (n n' : nat) (db : stable * table) :
  drawn ids rs n n' -> fresh_from n db.1 ->
  let tbl' := (enqueue_storage_op_id_only now trigger_id cat rs db).1 in
  db.1 ⊆ tbl' /\ fresh_from n' tbl' /\
  forall r, r ∈ rs -> exists r', r' ∈ rs /\ id_only_key r' = id_only_key r /\
    tbl' !! (id_row now cat r').1 = Some (id_row now cat r').2.
Proof.
  intros [Hle Hid Hun] Hf tbl'. unfold tbl'. rewrite enqueue_id_only_rows.
  assert (forall kv, kv ∈ map (id_row now cat) (coalesce_id_only_rows rs) ->
            exists r, r ∈ rs /\ kv = id_row now cat r) as Hkv.
  { intros kv (r & -> & Hr)%list_elem_of_fmap. exists r. split; [by eapply coalesce_elem|done]. }
  split_and!.
  - apply insert_all_mono. intros kv (r & Hr & ->)%Hkv. destruct (Hid r Hr) as (m & Hm & Heq).
    cbn. rewrite Heq. apply Hf. lia.
  - intros m Hm. rewrite insert_all_keys; [apply Hf; lia|].
    intros kv (r & Hr & ->)%Hkv. destruct (Hid r Hr) as (m' & Hm' & Heq). cbn. rewrite Heq.
    intros [= ?%ids_inj]. lia.
  - intros r Hr. destruct (coalesce_key id_only_key rs r Hr) as (r' & Hc & Hr' & Hk).
    exists r'. split_and!; [done..|]. apply insert_all_some.
    + rewrite <- surjective_pairing. apply list_elem_of_fmap. eauto.
    + intros row (r2 & Hr2 & Heq)%Hkv. assert (r2 = r') as ->; [|by rewrite <- Heq].
      apply (Hun r2 r'); [done..|]. by injection Heq as ? ?.
Qed.

Lemma sweep_query_all ws we cat drv col tbl hub h :
  h ∈ hub -> in_sweep_window ws we h = true ->
  has_obligation cat drv col (day_of (ws - 86400)) tbl h = false ->
  (length (missing ws we cat drv col tbl hub) <= ROW_LIMIT_PER_TARGET)%nat ->
  h ∈ sweep_query ws we cat drv col tbl hub.
Proof.
  intros Hh Hw Hc Hlen. unfold sweep_query.
  rewrite take_ge by by rewrite (merge_sort_Permutation by_latest).
  rewrite (merge_sort_Permutation by_latest). unfold missing. rewrite list_elem_of_In.
  apply filter_In. rewrite <- list_elem_of_In. by rewrite Hw, Hc.
Qed.

(** The row of a sweep record obligation_covers its hub row. *)
Lemma sweep_row_covers (cat drv col : string) (fl : Z) (h : hub_row) (tbl : stable) (r : OutboxRecord) :
  tbl !! (id_row now cat r).1 = Some (id_row now cat r).2 ->
  ob_driver r = drv -> ob_collection r = col -> ob_item r = Some (h_geoid h) ->
  latest_change h <= now -> fl <= day_of now ->
  has_obligation cat drv col fl tbl h = true.
Proof.
  intros Hl <- <- Hi Hlt Hfl. apply existsb_elem. exists (id_row now cat r). split.
  - destruct (id_row now cat r). by apply elem_of_map_to_list.
  - unfold obligation_covers, id_row; cbn. rewrite !String.eqb_refl, !bool_decide_true by done.
    cbn. by rewrite !(proj2 (Z.leb_le _ _)) by done.
Qed.

(** A hub row the sweep of a target must leave has_obligation. *)
Definition due (ws we : Z) (cat drv col : string) (tbl : stable) (hub : list hub_row) (h : hub_row) : Prop :=
  h ∈ hub /\ in_sweep_window ws we h = true /\ h_geoid h <> "" /\ latest_change h <= now /\
  (length (missing ws we cat drv col tbl hub) <= ROW_LIMIT_PER_TARGET)%nat.

Lemma due_mono ws we cat drv col tbl tbl' hub h :
  tbl ⊆ tbl' -> due ws we cat drv col tbl hub h -> due ws we cat drv col tbl' hub h.
Proof.
  intros Hs (? & ? & ? & ? & ?). split_and!; [done..|].
  etransitivity; [by apply missing_mono|done].
Qed.

Lemma check_and_enqueue_spec instance_of ws we cat col hub_table entries n db c e n' db' :
  ws <= now -> fresh_from n db.1 ->
  check_and_enqueue ids now trigger_id instance_of ws we cat col hub_table entries n db = (c, e, n', db') ->
  db.1 ⊆ db'.1 /\ fresh_from n' db'.1 /\
  forall hub drv h, hub_table = Some hub -> drv ∈ entries -> due ws we cat drv col db.1 hub h ->
    has_obligation cat drv col (day_of (ws - 86400)) db'.1 h = true.
Proof.
  intros Hws Hf. unfold check_and_enqueue. destruct hub_table as [hub|]; [|by intros [= <- <- <- <-]].
  destruct (target_records _ _ _ _ _ _ _ _ _ _) as [rs n1] eqn:Et.
  pose proof (target_records_drawn _ _ _ _ _ _ _ _ _ _ _ _ Et) as Hd.
  destruct (enqueue_records_spec cat rs n n1 db Hd Hf) as (Hsub & Hfr & Hrow).
  assert (match rs with [] => db | _ => enqueue_storage_op_id_only now trigger_id cat rs db end
          = enqueue_storage_op_id_only now trigger_id cat rs db) as Hdb by by destruct rs, db.
  intros Heq. assert (n' = n1 /\ db' = enqueue_storage_op_id_only now trigger_id cat rs db) as [-> ->].
  { rewrite <- Hdb. destruct rs; by injection Heq as <- <- <- <-. }
  split_and!; [done..|]. intros ? drv h [= <-] Hdrv (Hh & Hw & Hg & Hl & Hlen).
  destruct (has_obligation cat drv col (day_of (ws - 86400)) db.1 h) eqn:Ec; [by eapply has_obligation_mono|].
  destruct (target_records_elem ids instance_of ws we cat col db.1 hub entries n drv h Hdrv
              (sweep_query_all _ _ _ _ _ _ _ _ Hh Hw Ec Hlen) Hg) as [id Hin].
  rewrite Et in Hin. destruct (Hrow _ Hin) as (r' & _ & Hk & Hl').
  unfold id_only_key in Hk. cbn in Hk. injection Hk as H1 H2 H3.
  eapply sweep_row_covers; eauto. unfold day_of. apply Z.div_le_mono; lia.
Qed.

(** A collection the sweep reads, and one of its targets. *)
Definition swept (env : sweep_env) (cat col drv : string) (hub : list hub_row) : Prop :=
  se_fails env cat col = false /\ se_hub env cat col = Some hub /\
  exists ws es, se_routing env cat col = Routing (ITEMS_POSTGRESQL_DRIVER_REF :: ws) es /\ drv ∈ es.

Definition sweep_inv (s : sweep_state) : Prop := fresh_from (sw_ids s) (sw_db s).1.

Lemma sweep_one_spec env ws we cat col s :
  ws <= now -> sweep_inv s ->
  let s' := sweep_one env ids now trigger_id ws we cat col s in
  (sw_db s).1 ⊆ (sw_db s').1 /\ sweep_inv s' /\
  forall drv hub h, swept env cat col drv hub -> due ws we cat drv col (sw_db s).1 hub h ->
    has_obligation cat drv col (day_of (ws - 86400)) (sw_db s').1 h = true.
Proof.
  intros Hws Hi. unfold sweep_one, sweep_collection, swept, sweep_inv in *.
  destruct (se_routing env cat col) as [|ws' es]; cbn; [naive_solver|].
  destruct es as [|e es]; cbn; [split_and!; [done..|]; by intros drv hub h (_ & _ & ? & ? & [= _ <-] & Hd%elem_of_nil)|].
  destruct ws' as [|w ws']; cbn; [naive_solver|].
  destruct (String.eqb_spec w ITEMS_POSTGRESQL_DRIVER_REF) as [->|Hne]; cbn; [|naive_solver].
  destruct (se_fails env cat col); [naive_solver|].
  destruct (check_and_enqueue _ _ _ _ _ _ _ _ _ _ _ _) as [[[c k] n'] db'] eqn:Ec.
  destruct (check_and_enqueue_spec _ _ _ _ _ _ _ _ _ _ _ _ _ Hws Hi Ec) as (Hs & Hf & Hc). cbn.
  split_and!; [done..|]. intros drv hub h (_ & Hhub & ws2 & es2 & [= _ <-] & Hdrv) Hdue. eauto.
Qed.

Abbreviation tbl_of s := (sw_db s).1.

(** A loop of growing steps visits each element in between its ends. *)
Lemma fold_visits {A} (body : A -> sweep_state -> sweep_state) (l : list A) s :
  (forall x s, sweep_inv s -> tbl_of s ⊆ tbl_of (body x s) /\ sweep_inv (body x s)) ->
  sweep_inv s ->
  let s' := fold_left (fun s x => body x s) l s in
  tbl_of s ⊆ tbl_of s' /\ sweep_inv s' /\
  forall x, x ∈ l -> exists s1, sweep_inv s1 /\ tbl_of s ⊆ tbl_of s1 /\ tbl_of (body x s1) ⊆ tbl_of s'.
Proof.
  intros Hb. revert s. induction l as [|y l IH]; intros s Hs; cbn.
  - split_and!; [done..|]. by intros x ?%elem_of_nil.
  - destruct (Hb y s Hs) as [Hsub Hinv]. destruct (IH (body y s) Hinv) as (H1 & H2 & H3).
    split_and!; [by etransitivity|done|]. intros x [->|Hx]%elem_of_cons.
    + exists s. by split_and!.
    + destruct (H3 x Hx) as (s1 & ? & ? & ?). exists s1. split_and!; [done|by etransitivity|done].
Qed.

Section whole.
Context (env : sweep_env) (ws we : Z) (Hws : ws <= now).

Lemma sweep_one_grows cat col s :
  sweep_inv s -> tbl_of s ⊆ tbl_of (sweep_one env ids now trigger_id ws we cat col s) /\
                 sweep_inv (sweep_one env ids now trigger_id ws we cat col s).
Proof. intros Hi. by destruct (sweep_one_spec env ws we cat col s Hws Hi) as (? & ? & _). Qed.

Lemma sweep_catalog_spec cat s :
  sweep_inv s ->
  let s' := sweep_catalog env ids now trigger_id ws we cat s in
  tbl_of s ⊆ tbl_of s' /\ sweep_inv s' /\
  forall col drv hub h, col ∈ take MAX_COLLECTIONS_PER_CATALOG (se_collections env cat) ->
    swept env cat col drv hub -> due ws we cat drv col (tbl_of s) hub h ->
    has_obligation cat drv col (day_of (ws - 86400)) (tbl_of s') h = true.
Proof.
  intros Hi. cbv zeta. unfold sweep_catalog. rewrite paged_fold, drop_0.
  change (MAX_COLLECTIONS_PER_CATALOG / PAGE_SIZE * PAGE_SIZE)%nat with MAX_COLLECTIONS_PER_CATALOG.
  destruct (fold_visits (sweep_one env ids now trigger_id ws we cat)
              (take MAX_COLLECTIONS_PER_CATALOG (se_collections env cat)) s) as (H1 & H2 & H3);
    [intros; by apply sweep_one_grows|done|].
  split_and!; [done..|]. intros col drv hub h Hcol Hsw Hdue.
  destruct (H3 col Hcol) as (s1 & Hi1 & Hs1 & Hs1').
  eapply has_obligation_mono; [exact Hs1'|]. eapply sweep_one_spec; [done..|]. by eapply due_mono.
Qed.

Lemma sweep_spec db :
  fresh_from 0 db.1 ->
  let s' := paged (se_catalogs env) (sweep_catalog env ids now trigger_id ws we) (MAX_CATALOGS / PAGE_SIZE) 0
                  (mkSweep 0 0 0 0 db) in
  db.1 ⊆ tbl_of s' /\
  forall cat col drv hub h, cat ∈ take MAX_CATALOGS (se_catalogs env) ->
    col ∈ take MAX_COLLECTIONS_PER_CATALOG (se_collections env cat) ->
    swept env cat col drv hub -> due ws we cat drv col db.1 hub h ->
    has_obligation cat drv col (day_of (ws - 86400)) (tbl_of s') h = true.
Proof.
  intros Hf. cbv zeta. rewrite paged_fold, drop_0.
  change (MAX_CATALOGS / PAGE_SIZE * PAGE_SIZE)%nat with MAX_CATALOGS.
  destruct (fold_visits (sweep_catalog env ids now trigger_id ws we) (take MAX_CATALOGS (se_catalogs env))
              (mkSweep 0 0 0 0 db)) as (H1 & H2 & H3);
    [intros x s Hs; by destruct (sweep_catalog_spec x s Hs) as (? & ? & _)|done|].
  split; [done|]. intros cat col drv hub h Hcat Hcol Hsw Hdue.
  destruct (H3 cat Hcat) as (s1 & Hi1 & Hs1 & Hs1').
  eapply has_obligation_mono; [exact Hs1'|]. eapply sweep_catalog_spec; [done..|]. by eapply due_mono.
Qed.
End whole.
End step.

(** ** Windows of consecutive runs *)

(** Runs that are no further apart than the window is long: every instant falls
    into the window of the first run after its grace period. *)
Lemma window_of_instant (T : nat -> Z) interval grace t K :
  (forall k, T (S k) <= T k + (LOOKBACK_MULTIPLIER * interval - grace)) ->
  T 0%nat - grace <= t -> t < T K - grace ->
  exists k, (k <= K)%nat /\ T k - LOOKBACK_MULTIPLIER * interval <= t < T k - grace /\
            T k <= t + LOOKBACK_MULTIPLIER * interval.
Proof.
  intros Hgap H0. induction K as [|K IH]; [lia|]. intros HK.
  destruct (Z_lt_le_dec t (T K - grace)) as [Hlt|Hge].
  - destruct (IH Hlt) as (k & Hk & ?). exists k. split; [lia|done].
  - exists (S K). specialize (Hgap K). split; [lia|]. lia.
Qed.

Lemma latest_in_window ws we h :
  ws <= latest_change h < we -> in_sweep_window ws we h = true.
Proof.
  unfold latest_change, in_sweep_window. intros Hl. apply orb_true_iff.
  destruct (h_deleted_at h) as [t|]; rewrite ?andb_true_iff, ?Z.leb_le, ?Z.ltb_lt; [|left; lia].
  destruct (Z.max_spec (h_transaction_time h) t) as [[? E]|[? E]]; rewrite E in Hl; [right|left]; lia.
Qed.

(** An obligation accounts for a hub row: it carries the row's write batch, or
    its item and was recorded after the row's latest change. *)
Definition accounts_for (cat drv col : string) (h : hub_row) (o : obligation) : Prop :=
  o_catalog o = cat /\ o_driver o = drv /\ o_collection o = Some col /\
  ((exists w, o_write o = Some w /\ h_write_id h = Some w) \/
   (o_entity o = Some (h_geoid h) /\ latest_change h <= o_created o)).

Lemma has_obligation_row (cat drv col : string) (day_floor : Z) (tbl : stable) (h : hub_row) :
  has_obligation cat drv col day_floor tbl h = true ->
  exists (k : skey) (r : srow), tbl !! k = Some r /\ accounts_for cat drv col h (ob r).
Proof.
  unfold has_obligation. rewrite existsb_exists. intros ([k r] & Hin%list_elem_of_In%elem_of_map_to_list & Hc).
  exists k, r. split; [done|]. unfold obligation_covers in Hc. cbn [fst snd] in Hc.
  rewrite !andb_true_iff, orb_true_iff in Hc. destruct Hc as ((((Hcat & Hdrv) & Hcol) & _) & Hrow).
  apply String.eqb_eq in Hcat, Hdrv. apply bool_decide_eq_true in Hcol. split_and!; [done..|].
  destruct Hrow as [Hw|[He Ht]%andb_true_iff]; [left|right].
  - destruct (o_write (ob r)) as [a|], (h_write_id h) as [b|]; try done. apply String.eqb_eq in Hw as ->. by exists b.
  - apply bool_decide_eq_true in He. apply Z.leb_le in Ht. done.
Qed.

(** ** Properties *)

(** C20 (liveness).  A missed obligation is recovered: if runs of the sweep are never
    further apart than their window is long, then for every hub row there is a run, at
    most one lookback after the row's latest change, that leaves an obligation for it on
    every index target of its collection, whatever the table of obligations held before,
    provided that the run reads the collection without a failure, the catalog and the
    collection are among the first 10 000 it lists, and the target misses at most the
    1000 rows one run takes; and no run removes an obligation. *)
Theorem missed_write_recovered (T : nat -> Z) (interval grace : Z) (K : nat) (h : hub_row) :
  0 <= grace < LOOKBACK_MULTIPLIER * interval ->
  (forall k, T (S k) <= T k + (LOOKBACK_MULTIPLIER * interval - grace)) ->
  T 0%nat - grace <= latest_change h < T K - grace -> h_geoid h <> "" ->
  exists k, (k <= K)%nat /\ T k <= latest_change h + LOOKBACK_MULTIPLIER * interval /\
    forall (env : sweep_env) (ids : nat -> Z) (trigger_id : Z) (db : stable * table)
           (cat col drv : string) (hub : list hub_row),
      (forall a b, ids a = ids b -> a = b) -> fresh_from ids (T k) 0 db.1 ->
      cat ∈ take MAX_CATALOGS (se_catalogs env) ->
      col ∈ take MAX_COLLECTIONS_PER_CATALOG (se_collections env cat) ->
      swept env cat col drv hub -> h ∈ hub ->
      (length (missing (T k - LOOKBACK_MULTIPLIER * interval) (T k - grace) cat drv col db.1 hub)
         <= ROW_LIMIT_PER_TARGET)%nat ->
      let db' := (sweep_missing_obligations env ids (T k) trigger_id true interval grace db).2 in
      db.1 ⊆ db'.1 /\
      exists (key : skey) (r : srow), db'.1 !! key = Some r /\ accounts_for cat drv col h (ob r).
Proof.
  intros Hg Hgap Ht Hgeoid.
  destruct (window_of_instant T interval grace (latest_change h) K Hgap) as (k & Hk & Hw & Hle); [lia..|].
  exists k. split; [done|]. split; [done|].
  intros env ids trigger_id db cat col drv hub Hinj Hf Hcat Hcol Hsw Hh Hlen. cbv zeta.
  unfold sweep_missing_obligations. rewrite (proj2 (Z.leb_gt _ _)) by lia. cbn [negb snd].
  destruct (sweep_spec ids (T k) trigger_id Hinj env (T k - LOOKBACK_MULTIPLIER * interval) (T k - grace)
              ltac:(lia) db Hf) as [Hsub Hcov].
  split; [exact Hsub|]. eapply has_obligation_row. apply (Hcov cat col drv hub h Hcat Hcol Hsw). split_and!; [done| |done|lia|done].
  apply latest_in_window. lia.
Qed.

Definition demo_hub : list hub_row := [mkHub "g1" 500 (Some 1000) (Some "w1"); mkHub "g2" 900 None None].
Definition demo_sweep_env : sweep_env :=
  mkSweepEnv ["cat"] (fun _ => ["col"])
    (fun _ _ => Routing [ITEMS_POSTGRESQL_DRIVER_REF] ["es"]) (fun _ _ => Some demo_hub)
    (fun _ _ => false) (fun d _ _ => d).

Lemma missed_write_recovered_witness :
  exists k, (k <= 2)%nat /\
    exists (key : skey) (r : srow),
      (sweep_missing_obligations demo_sweep_env Z.of_nat (1000 + 600 * Z.of_nat k) 7 true 300 300 (∅, ∅)).2.1
        !! key = Some r /\
      accounts_for "cat" "es" "col" (mkHub "g1" 500 (Some 1000) (Some "w1")) (ob r).
Proof.
  destruct (missed_write_recovered (fun k => 1000 + 600 * Z.of_nat k) 300 300 2
              (mkHub "g1" 500 (Some 1000) (Some "w1"))) as (k & Hk & _ & Hc).
  - unfold LOOKBACK_MULTIPLIER. lia.
  - intros k. unfold LOOKBACK_MULTIPLIER. lia.
  - vm_compute. split; [intros X; discriminate X|reflexivity].
  - discriminate.
  - exists k. split; [exact Hk|].
    apply (Hc demo_sweep_env Z.of_nat 7 (∅, ∅) "cat" "col" "es" demo_hub).
    + intros a b Hab. lia.
    + intros m _. apply lookup_empty.
    + left.
    + left.
    + split; [reflexivity|]. split; [reflexivity|]. exists [], ["es"]. split; [reflexivity|left].
    + left.
    + unfold missing. etransitivity; [apply filter_length_le|]. unfold ROW_LIMIT_PER_TARGET. cbn. lia.
Defined.

(** A second run at the same instant finds nothing more to enqueue for a target
    within its row limit: the sweep is idempotent. *)
Lemma swept_rows_not_missing ws we cat drv col tbl hub :
  (forall h, h ∈ hub -> in_sweep_window ws we h = true -> has_obligation cat drv col (day_of (ws - 86400)) tbl h = true) ->
  sweep_query ws we cat drv col tbl hub = [].
Proof.
  intros Hc. unfold sweep_query. replace (missing ws we cat drv col tbl hub) with (@nil hub_row); [done|].
  unfold missing. induction hub as [|h hub IH]; [done|]. cbn.
  destruct (in_sweep_window ws we h) eqn:E; cbn; [rewrite Hc by (done || by left); cbn|];
    apply IH; intros h' Hh'; apply Hc; by right.
Qed.

(** When more rows are missing than one run takes, the run takes the ones whose
    change is oldest. *)
Lemma truncation_keeps_oldest ws we cat drv col tbl hub a b :
  a ∈ sweep_query ws we cat drv col tbl hub ->
  b ∈ drop ROW_LIMIT_PER_TARGET (merge_sort by_latest (missing ws we cat drv col tbl hub)) ->
  latest_change a <= latest_change b.
Proof.
  unfold sweep_query. set (l := merge_sort by_latest _). intros Ha Hb.
  assert (Sorted by_latest l) as Hs.
  { apply Sorted_merge_sort. intros x y. unfold by_latest. lia. }
  apply Sorted_StronglySorted in Hs; [|intros x y z; unfold by_latest; lia].
  rewrite <- (take_drop ROW_LIMIT_PER_TARGET l) in Hs.
  by apply (proj1 (StronglySorted_app _ _ _) Hs).
Qed.
