(* ===== verification/StorageEs.v ===== *)
(** * The Elasticsearch adapter keeps the contract

    Facts about [StorageIndexer]: the classifier sends every submitted id to one bucket,
    and the adapter is a [BulkIndexer] over every [EsCluster]. *)

From S2P Require Import Prelude TaskQueue TaskQueueProofs StoragePlane StorageIndexer StorageDrain StorageSync.

(** ** The classifier *)

Section classify.
Context `{PyRuntime}.

(** The items repeat the submitted ids, or have none. *)
Definition echoes (items : list pyval) (ids : list string) : Prop :=
  forall n it k, items !! n = Some it -> ids !! n = Some k ->
    entry_get (first_value it) "_id" VNone = VNone \/ entry_get (first_value it) "_id" VNone = VStr k.

Abbreviation class := (bucket * pyval * string)%type.

(** The classes of the submitted ids, in their order. *)
Lemma classify_from_classes items ids c :
  classify_from items ids = Some c ->
  exists cs : list class, c = foldr put_bucket (mkClassified [] [] []) cs /\ length cs = length ids /\
    forall n k, ids !! n = Some k -> exists x, cs !! n = Some x /\ classify_item (items !! n) k = Some x.
Proof.
  revert items c. induction ids as [|k ids IH]; intros items c; simpl.
  - intros [= <-]. exists []. by split_and!.
  - destruct (classify_item (head items) k) as [x|] eqn:Ex; [simpl|done].
    destruct (classify_from (tail items) ids) as [r|] eqn:Er; [simpl|done]. intros [= <-].
    destruct (IH _ _ Er) as (cs & -> & Hl & Hcs). exists (x :: cs). split_and!; [done|simpl; by rewrite Hl|].
    intros [|n] k' Hk; simpl in *; [simplify_eq; exists x; by destruct items|].
    destruct (Hcs n k' Hk) as (y & Hy & Hc). exists y. by destruct items.
Qed.

Lemma buckets_elem (cs : list class) :
  let c := foldr put_bucket (mkClassified [] [] []) cs in
  (forall i, i ∈ c_passed c <-> exists t, (BPassed, i, t) ∈ cs) /\
  (forall i t, (i, t) ∈ c_transient c <-> (BTransient, i, t) ∈ cs) /\
  (forall i t, (i, t) ∈ c_poison c <-> (BPoison, i, t) ∈ cs).
Proof.
  induction cs as [|[[b j] e] cs (IH1 & IH2 & IH3)]; simpl.
  - split_and!; intros; rewrite ?elem_of_nil; [|done..]. setoid_rewrite elem_of_nil. naive_solver.
  - destruct b; simpl; split_and!; intros; rewrite ?elem_of_cons, ?IH1, ?IH2, ?IH3;
      try setoid_rewrite elem_of_cons; naive_solver.
Qed.

Lemma buckets_perm (cs : list class) :
  let c := foldr put_bucket (mkClassified [] [] []) cs in
  c_passed c ++ map fst (c_transient c) ++ map fst (c_poison c) ≡ₚ map (fun x => x.1.2) cs.
Proof.
  induction cs as [|[[b j] e] cs IH]; simpl; [done|]. simpl in IH. rewrite <-IH. destruct b; simpl; [done| |].
  - by rewrite <-Permutation_middle.
  - by rewrite !app_assoc, <-Permutation_middle.
Qed.

(** The id of a class is the submitted one. *)
Lemma classify_item_id it k b i t :
  match it with
  | Some it => entry_get (first_value it) "_id" VNone = VNone \/ entry_get (first_value it) "_id" VNone = VStr k
  | None => True
  end -> classify_item it k = Some (b, i, t) -> i = VStr k.
Proof.
  intros He. destruct it as [it|]; [|by intros [= _ <- _]].
  assert (Hor : py_or (entry_get (first_value it) "_id" VNone) (VStr k) = VStr k).
  { unfold py_or. destruct He as [-> | ->]; [done|]. by destruct (truthy _). }
  unfold classify_item. destruct it; [by intros [= _ <- _]|..]; rewrite Hor; intros Hc;
    unfold mbind, option_bind in Hc; repeat (case_match; simplify_eq/=; try done).
Qed.

(** A success: a status of 2xx and no error. *)
Definition succeeded (it : pyval) : Prop :=
  it <> VNone /\ truthy (entry_get (first_value it) "error" VNone) = false /\
  exists s, py_int (entry_get (first_value it) "status" (VInt 200)) = Some s /\ 200 <= s < 300.

Lemma classify_item_passed it k : (exists i t, classify_item (Some it) k = Some (BPassed, i, t)) <-> succeeded it.
Proof.
  unfold succeeded, classify_item, mbind, option_bind. split.
  - intros (i & t & Hi). destruct it; [done|..]; (split; [done|]);
      repeat (case_match; simplify_eq/=; try done); bool_hyps; (split; [done|]); eexists; split; eauto; lia.
  - intros (Hn & He & s & Hs & Hr). destruct it; [done|..]; rewrite He, Hs;
      assert ((200 <=? s) && (s <? 300) = true) as -> by lia; eauto.
Qed.

Lemma classify_bulk_items d items ids :
  cfg_get_or d "items" (VList []) = VList items -> classify_bulk_response (VDict d) ids = classify_from items ids.
Proof. intros Hd. unfold classify_bulk_response. by rewrite Hd. Qed.

Lemma classes_ids items ids cs :
  echoes items ids -> length cs = length ids ->
  (forall n k, ids !! n = Some k -> exists x : class, cs !! n = Some x /\ classify_item (items !! n) k = Some x) ->
  map (fun x => x.1.2) cs = map VStr ids.
Proof.
  intros He Hl Hcs. apply list_eq. intros n. rewrite !list_lookup_fmap. destruct (ids !! n) as [k|] eqn:Hk.
  - destruct (Hcs n k Hk) as ([[b i] t] & -> & Hc). simpl. f_equal. eapply classify_item_id; [|done].
    destruct (items !! n) eqn:Hi; [|done]. by eapply He.
  - simpl. apply lookup_ge_None in Hk. rewrite <-Hl in Hk. apply lookup_ge_None in Hk. by rewrite Hk.
Qed.
End classify.

(** ** Dictionaries by key *)

Lemma op_by_key_snoc ops o : op_by_key (ops ++ [o]) = dict_set (i_key o) o (op_by_key ops).
Proof. unfold op_by_key. by rewrite fold_left_app. Qed.

(** The op of a key is the last one. *)
Lemma op_by_key_get ops k o :
  dict_get k (op_by_key ops) = Some o ->
  i_key o = k /\ exists n, ops !! n = Some o /\ forall m b, (n < m)%nat -> ops !! m = Some b -> i_key b <> k.
Proof.
  induction ops as [|x ops IH] using rev_ind; [done|]. rewrite op_by_key_snoc.
  destruct (decide (i_key x = k)) as [<-|Hne].
  - rewrite dict_get_set_eq. intros [= ->]. split; [done|]. exists (length ops). rewrite lookup_app_r by lia.
    rewrite Nat.sub_diag. split; [done|]. intros m b Hm Hb%lookup_lt_Some. rewrite length_app in Hb. simpl in Hb. lia.
  - rewrite dict_get_set_ne by done. intros Hg. destruct (IH Hg) as (Hk & n & Hn & Hlast). split; [done|]. exists n.
    pose proof (lookup_lt_Some _ _ _ Hn). rewrite lookup_app_l by done. split; [done|]. intros m b Hm Hb.
    apply lookup_snoc_Some in Hb as [[_ Hb]|[_ ->]]; [by eapply Hlast|done].
Qed.

Lemma op_by_key_some ops o : o ∈ ops -> exists o', dict_get (i_key o) (op_by_key ops) = Some o'.
Proof.
  induction ops as [|x ops IH] using rev_ind; [by intros ?%elem_of_nil|]. rewrite op_by_key_snoc.
  destruct (decide (i_key x = i_key o)) as [Heq|Hne]; [rewrite Heq, dict_get_set_eq; eauto|].
  rewrite dict_get_set_ne by done. rewrite elem_of_app, list_elem_of_singleton. intros [Ho| ->]; [auto|done].
Qed.

Lemma doc_by_key_get ods k doc :
  dict_get k (doc_by_key ods) = Some doc -> exists o, (o, doc) ∈ ods /\ i_key o = k /\ i_op o <> "delete".
Proof.
  unfold doc_by_key. induction ods as [|[o d] ods IH] using rev_ind; [done|]. rewrite fold_left_app. simpl.
  destruct (i_op o ==s "delete") eqn:Ho; [|destruct (decide (i_key o = k)) as [<-|Hne]].
  - intros (o' & Hin & Hk)%IH. exists o'. split; [|done]. apply elem_of_app. by left.
  - rewrite dict_get_set_eq. intros [= ->]. exists o. bool_hyps. split; [|done]. apply elem_of_app. right. by left.
  - rewrite dict_get_set_ne by done. intros (o' & Hin & Hk)%IH. exists o'. split; [|done]. apply elem_of_app. by left.
Qed.

(** ** The ladder *)

Section ladder.
Context `{HC : EsCluster E}.

Lemma try_rungs_effect x rt i doc cs (e : E) rung e' x' r' i' :
  try_rungs x rt i doc cs e = (rung, e') ->
  es_doc e' x' r' i' = es_doc e x' r' i' \/
  x' = x /\ i' = i /\ exists name cand, (name, cand) ∈ cs /\ es_doc e' x' r' i' = Some (doc_set doc "geometry" cand).
Proof.
  revert e. induction cs as [|[name cand] cs IH]; intros e; simpl; [by intros [= _ <-]; left|].
  destruct (es_index e x rt i (doc_set doc "geometry" cand)) as [ok e1] eqn:E1.
  pose proof (es_index_effect _ _ _ _ _ _ _ x' r' i' E1) as H1. destruct ok.
  - intros [= _ <-]. destruct H1 as [?|(-> & -> & H1)]; [by left|]. right. split_and!; [done..|]. exists name, cand.
    split; [by left|done].
  - intros H2. destruct (IH _ H2) as [H3|(-> & -> & n & c & Hin & H3)].
    + destruct H1 as [H1|(-> & -> & H1)]; [left; congruence|]. right. split_and!; [done..|]. exists name, cand.
      split; [by left|congruence].
    + right. split_and!; [done..|]. exists n, c. split; [by right|done].
Qed.

Lemma try_rungs_accepted x rt i doc cs (e : E) name e' :
  try_rungs x rt i doc cs e = (Some name, e') ->
  exists cand, (name, cand) ∈ cs /\ es_doc e' x rt i = Some (doc_set doc "geometry" cand).
Proof.
  revert e. induction cs as [|[n c] cs IH]; intros e; simpl; [done|].
  destruct (es_index e x rt i (doc_set doc "geometry" c)) as [[|] e1] eqn:E1.
  - intros [= -> <-]. exists c. split; [by left|]. by eapply es_index_applied.
  - intros (c' & Hin & Hd)%IH. exists c'. split; [by right|done].
Qed.

Context (rungs : list (string * (pyval -> option pyval))) (drv : items_driver E).
Context (ops : list (string * IndexableOp)) (docs : list (string * pyval)).
Context (g : string) (P : option pyval -> Prop).
Context (Hkey : forall k o, dict_get k ops = Some o -> i_key o = k).
Context (Hdoc : forall doc name cand, dict_get g docs = Some doc ->
  (name, cand) ∈ degrade_rungs rungs (doc_get doc "geometry") -> P (Some (doc_set doc "geometry" cand))).

(** One entry of the recovery. *)
Definition recover_one (sid : pyval) (e : E) : option string * E :=
  match key_lookup sid ops, key_lookup sid docs with
  | Some o, Some doc => retry_doc_with_ladder rungs (items_index_name drv (i_catalog o)) (i_key o) doc (Some (i_collection o)) e
  | _, _ => (None, e)
  end.

Lemma recover_one_keeps sid e rung e' x r :
  recover_one sid e = (rung, e') -> P (es_doc e x r g) -> P (es_doc e' x r g).
Proof.
  unfold recover_one. intros He HP. destruct (key_lookup sid ops) as [o|] eqn:Eo; [|by simplify_eq].
  destruct (key_lookup sid docs) as [doc|] eqn:Ed; [|by simplify_eq].
  destruct sid as [| | |k| |]; try done. simpl in *. unfold retry_doc_with_ladder in He.
  destruct (truthy _); [|by simplify_eq]. destruct (try_rungs_effect _ _ _ _ _ _ _ _ x r g He) as [->|(_ & -> & n & c & Hin & ->)]; [done|].
  apply Hkey in Eo. subst. by eapply Hdoc.
Qed.

Lemma recover_keeps pairs e rec rest e' x r :
  recover rungs drv ops docs pairs e = (rec, rest, e') -> P (es_doc e x r g) -> P (es_doc e' x r g).
Proof.
  revert e rec rest e'. induction pairs as [|[sid reason] pairs IH]; intros e rec rest e'; simpl; [by intros [= _ _ <-]|].
  fold (recover_one sid e). destruct (recover_one sid e) as [rung e1] eqn:E1.
  destruct (recover rungs drv ops docs pairs e1) as [[rec2 rest2] e2] eqn:E2. intros Hr HP.
  pose proof (recover_one_keeps _ _ _ _ x r E1 HP) as HP1. pose proof (IH _ _ _ _ E2 HP1). by destruct rung; simplify_eq.
Qed.

(** A rejected document stays rejected, or a rung was stored. *)
Lemma recover_fate cat col o t pairs e rec rest e' :
  rungs = [] \/ collection_routing drv col = nonempty (Some col) ->
  dict_get g ops = Some o -> i_catalog o = cat -> i_collection o = col ->
  recover rungs drv ops docs pairs e = (rec, rest, e') -> (VStr g, t) ∈ pairs ->
  (VStr g, t) ∈ rest \/ P (es_doc e' (items_index_name drv cat) (collection_routing drv col) g).
Proof.
  intros Hroute Ho Hcat Hcol. revert e rec rest e'. induction pairs as [|[sid reason] pairs IH]; intros e rec rest e'; simpl; [by intros _ ?%elem_of_nil|].
  fold (recover_one sid e). destruct (recover_one sid e) as [rung e1] eqn:E1.
  destruct (recover rungs drv ops docs pairs e1) as [[rec2 rest2] e2] eqn:E2. intros Hr Hin.
  apply elem_of_cons in Hin as [[= <- <-]|Hin].
  - destruct rung as [name|]; [|simplify_eq; left; by left]. right. simplify_eq. eapply recover_keeps; [done|].
    unfold recover_one in E1. simpl in E1. rewrite Ho in E1. destruct (dict_get g docs) as [doc|] eqn:Ed; [|done].
    unfold retry_doc_with_ladder in E1. destruct (truthy _); [|done]. apply try_rungs_accepted in E1 as (cand & Hin & He).
    destruct Hroute as [Hr | ->]; [rewrite Hr in Hin; by apply elem_of_nil in Hin|].
    rewrite (Hkey _ _ Ho) in He. unfold nonempty. rewrite He. by eapply Hdoc.
  - destruct (IH _ _ _ _ E2 Hin) as [Hrest|HP]; [left|right]; destruct rung; simplify_eq; try done. by right.
Qed.
End ladder.

(** ** The adapter *)

Section adapter.
Context `{HC : EsCluster E}.
Context (rungs : list (string * (pyval -> option pyval))) (drv : items_driver E).

(** What an op may leave: nothing for a delete, else the simplified document or one of
    its rungs. *)
Definition es_accepts (o : IndexableOp) (v : option pyval) : Prop :=
  if i_op o ==s "delete" then v = None
  else exists doc, simplify_payload drv o = Some doc /\
    (v = Some doc \/ exists name cand, (name, cand) ∈ degrade_rungs rungs (doc_get doc "geometry") /\
                                       v = Some (doc_set doc "geometry" cand)).

(** Where the searches of a collection look for an item. *)
Definition es_doc_at (a : adapter E) (cat col g : string) : option pyval :=
  es_doc (ad_es a) (items_index_name drv cat) (collection_routing drv col) g.

(** Creating the index of a catalog changes no document. *)
Context (Hensure : forall c e x r i, es_doc (ensure_storage drv c e) x r i = es_doc e x r i).
(** The ladder writes where the driver reads. *)
Context (Hroute : rungs = [] \/ forall c, collection_routing drv c = nonempty (Some c)).

Lemma ensure_storage_docs ops a x r i : es_doc (ad_es (ensure_storage_once drv ops a)) x r i = es_doc (ad_es a) x r i.
Proof.
  unfold ensure_storage_once. revert a. generalize (dict_fromkeys (map i_catalog ops)). intros l.
  induction l as [|c l IH]; intros a; [done|]. simpl. rewrite IH. destruct (str_mem c (ad_ensured a)); [done|apply Hensure].
Qed.

Lemma op_docs_spec ops ods :
  op_docs drv ops = Some ods ->
  map fst ods = ops /\ forall o d, (o, d) ∈ ods -> i_op o = "delete" \/ i_op o <> "delete" /\ simplify_payload drv o = Some d.
Proof.
  revert ods. induction ops as [|o ops IH]; intros ods; simpl.
  - intros [= <-]. split; [done|]. by intros ?? ?%elem_of_nil.
  - destruct (if i_op o ==s "delete" then Some VNone else simplify_payload drv o) as [d|] eqn:Ed; [simpl|done].
    destruct (op_docs drv ops) as [ds|]; [simpl|done]. intros [= <-]. destruct (IH ds eq_refl) as [Hm Hin]. split; [simpl; by rewrite Hm|].
    intros o' d' [[= -> ->]|Hd]%elem_of_cons; [|auto]. destruct (i_op o ==s "delete") eqn:Eo; bool_hyps; auto.
Qed.

Section call.
Context (ops : list IndexableOp) (ods : list (IndexableOp * pyval)) (cat col g : string) (P : option pyval -> Prop).
Context (Hods : op_docs drv ops = Some ods) (Hresp : ops_respect es_accepts ops cat col g P).

Lemma respects_effect o d : (o, d) ∈ ods -> i_key o = g -> P (a_effect (action_of drv o d)).
Proof.
  destruct (op_docs_spec _ _ Hods) as [Hm Hin]. intros Hod Hk.
  assert (Ho : o ∈ ops) by (rewrite <-Hm; apply list_elem_of_fmap; by exists (o, d)).
  destruct (Hresp o Ho Hk) as (_ & _ & HP). unfold action_of. destruct (Hin o d Hod) as [Hd|[Hne Hs]].
  - rewrite Hd. apply HP. unfold es_accepts. by rewrite Hd.
  - apply String.eqb_neq in Hne. rewrite Hne. simpl. apply HP. unfold es_accepts. rewrite Hne. eauto.
Qed.

Lemma respects_rungs doc name cand :
  dict_get g (doc_by_key ods) = Some doc -> (name, cand) ∈ degrade_rungs rungs (doc_get doc "geometry") ->
  P (Some (doc_set doc "geometry" cand)).
Proof.
  intros (o & Hod & Hk & Hne)%doc_by_key_get Hr. destruct (op_docs_spec _ _ Hods) as [Hm Hin].
  assert (Ho : o ∈ ops) by (rewrite <-Hm; apply list_elem_of_fmap; by exists (o, doc)).
  destruct (Hresp o Ho Hk) as (_ & _ & HP). destruct (Hin o doc Hod) as [?|[_ Hs]]; [done|]. apply HP.
  unfold es_accepts. rewrite (proj2 (String.eqb_neq _ _) Hne). exists doc. split; [done|]. right. eauto.
Qed.

Definition acts_of : list bulk_action := map (fun od => action_of drv od.1 od.2) ods.

Lemma acts_lookup n a : acts_of !! n = Some a -> exists o d, ods !! n = Some (o, d) /\ ops !! n = Some o /\ a = action_of drv o d.
Proof.
  unfold acts_of. rewrite list_lookup_fmap. intros ([o d] & Hod & ->)%fmap_Some. exists o, d.
  split_and!; [done| |done]. destruct (op_docs_spec _ _ Hods) as [<- _]. by rewrite list_lookup_fmap, Hod.
Qed.

Lemma action_id o d : a_id (action_of drv o d) = i_key o.
Proof. unfold action_of. by destruct (_ ==s _). Qed.
Lemma action_place o d : a_index (action_of drv o d) = items_index_name drv (i_catalog o) /\
  a_routing (action_of drv o d) = collection_routing drv (i_collection o).
Proof. unfold action_of. by destruct (_ ==s _). Qed.

Lemma bulk_keeps_doc (e e' : E) res x r : es_bulk e acts_of = (res, e') -> P (es_doc e x r g) -> P (es_doc e' x r g).
Proof.
  intros He HP. destruct (es_bulk_effect _ _ _ _ x r g He) as [->|(a & Ha & _ & Hid & ->)]; [done|].
  apply list_elem_of_lookup in Ha as [n Ha]. destruct (acts_lookup _ _ Ha) as (o & d & Hod & _ & ->).
  apply respects_effect; [by eapply list_elem_of_lookup_2|]. by rewrite <-Hid, action_id.
Qed.

Lemma response_keeps resp (e e' : E) r x rt :
  classify_response rungs drv ods resp e = (r, e') -> P (es_doc e x rt g) -> P (es_doc e' x rt g).
Proof.
  unfold classify_response. intros Hc HP. destruct (classify_bulk_response _ _) as [c|]; [|by simplify_eq].
  destruct (negb _); [by simplify_eq|]. destruct (recover _ _ _ _ _ _) as [[rec rest] e2] eqn:Er. simplify_eq.
  eapply recover_keeps; [|apply respects_rungs|exact Er|exact HP]. intros k o Hk. by apply op_by_key_get in Hk as [? _].
Qed.

(** The last op on the key: reported as failed, or the copy is right. *)
Lemma response_fate resp (e0 e e' : E) r o :
  es_bulk e0 acts_of = (inr resp, e) -> classify_response rungs drv ods resp e = (Some r, e') ->
  dict_get g (op_by_key ops) = Some o ->
  i_op_id o ∈ map fst (r_transient r) \/ i_op_id o ∈ map fst (r_poison r) \/
  P (es_doc e' (items_index_name drv cat) (collection_routing drv col) g).
Proof.
  intros Hb Hc Hg. destruct (op_docs_spec _ _ Hods) as [Hm _]. destruct (op_by_key_get _ _ _ Hg) as (Hk & n & Hn & Hlast).
  destruct (es_bulk_items _ _ _ _ Hb) as (d & items & -> & Hd & Hlen & Hids).
  pose proof Hc as Hc'. unfold classify_response in Hc. rewrite Hm, (classify_bulk_items _ _ _ Hd) in Hc.
  destruct (classify_from items (map i_key ops)) as [c|] eqn:Ec; [|done].
  destruct (classify_from_classes _ _ _ Ec) as (cs & -> & Hl & Hcs). set (c := foldr _ _ cs) in *.
  destruct (negb _); [done|]. destruct (recover _ _ _ _ _ _) as [[rec rest] e2] eqn:Er. injection Hc as <- <-.
  destruct (buckets_elem cs) as (Hp & Ht & Hx). fold c in Hp, Ht, Hx.
  assert (Ho : o ∈ ops) by by eapply list_elem_of_lookup_2. destruct (Hresp o Ho Hk) as (Hcat & Hcol & _).
  destruct (Hcs n g) as ([[b i] t] & Hy & Hcl); [by rewrite list_lookup_fmap, Hn; simpl; rewrite Hk|].
  assert (Ha : exists a, acts_of !! n = Some a).
  { apply lookup_lt_is_Some. unfold acts_of. rewrite length_map, <-(length_map fst), Hm. by eapply lookup_lt_Some. }
  destruct Ha as [a Ha]. destruct (acts_lookup _ _ Ha) as (o' & doc & Hod & Ho' & ->).
  rewrite Hn in Ho'. injection Ho' as <-. pose proof (action_id o doc) as Hid. rewrite Hk in Hid.
  assert (i = VStr g) as ->.
  { eapply classify_item_id; [|exact Hcl]. destruct (items !! n) as [it|] eqn:Hi; [|done]. rewrite <-Hid. by eapply Hids. }
  assert (Hin : (b, VStr g, t) ∈ cs) by by eapply list_elem_of_lookup_2.
  assert (Hpair : forall l, (VStr g, t) ∈ l ->
    i_op_id o ∈ map fst (omap (fun p => (fun i => (i, p.2)) <$> (i_op_id <$> key_lookup p.1 (op_by_key ops))) l : list (Z * string))).
  { intros l Hl'. apply list_elem_of_fmap. exists (i_op_id o, t). split; [done|]. apply list_elem_of_omap.
    exists (VStr g, t). split; [done|]. simpl. by rewrite Hg. }
  destruct b.
  - right. right. eapply response_keeps; [exact Hc'|]. destruct (items !! n) as [it|] eqn:Hi; [|done].
    destruct (action_place o doc) as [Hx1 Hx2]. rewrite <-Hcat, <-Hcol, <-Hx1, <-Hx2. rewrite <-Hid at 1.
    erewrite es_bulk_applied; [|exact Hb|exact Hd|exact Ha|exact Hi|by rewrite Hid|].
    + apply respects_effect; [by eapply list_elem_of_lookup_2|done].
    + intros m b Hlt Hm' _. destruct (acts_lookup _ _ Hm') as (o2 & d2 & _ & Ho2 & ->). rewrite Hid, action_id. by eapply Hlast.
  - left. apply Hpair. by apply Ht.
  - right. destruct (recover_fate rungs drv (op_by_key ops) (doc_by_key ods) g P) with (cat := cat)
      (col := col) (o := o) (t := t) (pairs := c_poison c) (e := e) (rec := rec) (rest := rest) (e' := e2) as [Hrest|HP]; try done.
    + intros k o1 Hk'. by apply op_by_key_get in Hk' as [? _].
    + apply respects_rungs.
    + destruct Hroute as [?|Hr]; [by left|right; apply Hr].
    + by apply Hx.
    + left. by apply Hpair.
    + by right.
Qed.
End call.

(** The parts of a call. *)
Lemma es_index_bulk_keeps ops a res a' cat col g P :
  es_index_bulk rungs drv ops a = (res, a') -> ops_respect es_accepts ops cat col g P ->
  P (es_doc_at a cat col g) -> P (es_doc_at a' cat col g).
Proof.
  unfold es_index_bulk, es_doc_at. intros Hc Hr HP. destruct ops as [|o0 ops0]; [by simplify_eq|].
  set (ops := o0 :: ops0) in *. rewrite <-(ensure_storage_docs ops) in HP.
  destruct (op_docs drv ops) as [ods|] eqn:Ed; [|by simplify_eq]. cbn [ad_es] in Hc. fold (acts_of ods) in Hc.
  destruct (es_bulk _ (acts_of ods)) as [[exn|resp] e] eqn:Eb.
  - injection Hc as <- <-. by eapply bulk_keeps_doc.
  - destruct (classify_response rungs drv ods resp e) as [r e'] eqn:Er. injection Hc as <- <-. cbn [set_es ad_es].
    eapply response_keeps; [done|done|exact Er|]. by eapply bulk_keeps_doc.
Qed.

Lemma es_index_bulk_fate ops a r a' cat col g P o :
  es_index_bulk rungs drv ops a = (Some r, a') -> ops_respect es_accepts ops cat col g P ->
  dict_get g (op_by_key ops) = Some o ->
  i_op_id o ∈ map fst (r_transient r) \/ i_op_id o ∈ map fst (r_poison r) \/ P (es_doc_at a' cat col g).
Proof.
  unfold es_index_bulk, es_doc_at. intros Hc Hr Hg. destruct ops as [|o0 ops0]; [done|]. set (ops := o0 :: ops0) in *.
  destruct (op_docs drv ops) as [ods|] eqn:Ed; [|done]. cbn [ad_es] in Hc. fold (acts_of ods) in Hc.
  destruct (es_bulk _ (acts_of ods)) as [[exn|resp] e] eqn:Eb.
  - injection Hc as <- <-. left. change (i_op_id o ∈ map fst (map (fun o => (i_op_id o, exn)) ops)).
    rewrite map_map. apply op_by_key_get in Hg as (_ & n & Hn%list_elem_of_lookup_2 & _).
    apply list_elem_of_fmap. exists o. done.
  - destruct (classify_response rungs drv ods resp e) as [r' e'] eqn:Er. injection Hc as -> <-. cbn [set_es ad_es].
    by eapply response_fate.
Qed.

(** An op id that a call reports as passed is the one of the last op on its key. *)
Lemma es_index_bulk_passed ops a r a' i :
  es_index_bulk rungs drv ops a = (Some r, a') -> i ∈ r_passed r ->
  exists o, i_op_id o = i /\ dict_get (i_key o) (op_by_key ops) = Some o.
Proof.
  unfold es_index_bulk. destruct ops as [|o0 ops0]; [intros [= <- _]; by intros ?%elem_of_nil|]. set (ops := o0 :: ops0).
  destruct (op_docs drv ops) as [ods|] eqn:Ed; [|done]. cbn [ad_es]. destruct (op_docs_spec _ _ Ed) as [Hm _].
  destruct (es_bulk _ _) as [[exn|resp] e]; [intros [= <- _]; by intros ?%elem_of_nil|].
  unfold classify_response. rewrite Hm. destruct (classify_bulk_response _ _) as [c|]; [|done].
  destruct (negb _); [done|]. destruct (recover _ _ _ _ _ _) as [[rec rest] e2]. intros [= <- _]. simpl.
  intros (sid & _ & Hs)%list_elem_of_omap. destruct sid as [| | |k| |]; try done. simpl in Hs.
  destruct (dict_get k (op_by_key ops)) as [o|] eqn:Ek; simplify_eq/=. exists o. split; [done|].
  by rewrite (proj1 (op_by_key_get _ _ _ Ek)).
Qed.
End adapter.

(** One adapter is a bulk indexer. *)
Lemma es_bulk_indexer `{HC : EsCluster E} (rungs : list (string * (pyval -> option pyval))) (drv : items_driver E) :
  (forall c e x r i, es_doc (ensure_storage drv c e) x r i = es_doc e x r i) ->
  (rungs = [] \/ forall c, collection_routing drv c = nonempty (Some c)) ->
  BulkIndexer (es_doc_at drv) (es_accepts rungs drv) (es_index_bulk rungs drv).
Proof.
  intros Hensure Hroute. split.
  - intros. by eapply es_index_bulk_keeps.
  - intros ops a r a' cat col g P o Hc Hr Ho Hk Huniq Hp Ht Hx.
    destruct (es_index_bulk_passed _ _ _ _ _ _ _ Hc Hp) as (o' & Hid & Hg).
    pose proof (op_by_key_get _ _ _ Hg) as (_ & n & Ho'%list_elem_of_lookup_2 & _). rewrite (Huniq o' Ho' Hid) in Hg.
    destruct (es_index_bulk_fate _ _ Hroute _ _ _ _ _ _ _ _ _ Hc Hr Hg) as [H1|[H1|H1]]; [..|done]; rewrite Hid in H1; done.
  - intros ops a r a' cat col g P o Hc Hr Ho Hk Ht Hx _. destruct (op_by_key_some _ _ Ho) as [o' Hg]. rewrite Hk in Hg.
    destruct (es_index_bulk_fate _ _ Hroute _ _ _ _ _ _ _ _ _ Hc Hr Hg) as [H1|[H1|H1]]; [..|done];
      rewrite ?Ht, ?Hx in H1; by apply elem_of_nil in H1.
Qed.

(** ** The adapters of a run *)

(** The cluster they share, the catalogs each driver has ensured, and the public
    alias. *)
Record es_plane (E : Type) : Type := mkPlane { pl_es : E; pl_ensured : string -> list string; pl_public : list string }.
Arguments mkPlane {E} _ _ _.
Arguments pl_es {E} _.
Arguments pl_ensured {E} _ _.
Arguments pl_public {E} _.

Section plane.
Context `{HC : EsCluster E}.
Context (rungs : list (string * (pyval -> option pyval))) (drivers : string -> items_driver E).

(** [index_bulk] of the adapter that [_resolve_indexer] keeps for a driver. *)
Definition plane_index_bulk (d : string) (ops : list IndexableOp) (pl : es_plane E) : option BulkIndexResult * es_plane E :=
  let '(r, a) := es_index_bulk rungs (drivers d) ops (mkAdapter (pl_es pl) (pl_ensured pl d) (pl_public pl)) in
  (r, mkPlane (ad_es a) (fun x => if x ==s d then ad_ensured a else pl_ensured pl x) (ad_public a)).

Definition plane_doc_at (d : string) (pl : es_plane E) (cat col g : string) : option pyval :=
  es_doc (pl_es pl) (items_index_name (drivers d) cat) (collection_routing (drivers d) col) g.

(** A call touches the indices of its driver only. *)
Lemma es_index_bulk_other drv ops a res a' x r i :
  (forall c e x r i, es_doc (ensure_storage drv c e) x r i = es_doc e x r i) -> (forall c, items_index_name drv c <> x) ->
  es_index_bulk rungs drv ops a = (res, a') -> es_doc (ad_es a') x r i = es_doc (ad_es a) x r i.
Proof.
  intros Hensure Hx. unfold es_index_bulk. destruct ops as [|o0 ops0]; [by intros [= _ <-]|]. set (ops := o0 :: ops0).
  rewrite <-(ensure_storage_docs drv Hensure ops a). destruct (op_docs drv ops) as [ods|] eqn:Ed; [|by intros [= _ <-]]. cbn [ad_es].
  destruct (es_bulk _ _) as [res1 e] eqn:Eb.
  assert (He : es_doc e x r i = es_doc (ad_es (ensure_storage_once drv ops a)) x r i).
  { destruct (es_bulk_effect _ _ _ _ x r i Eb) as [?|(act & Ha & Hi & _)]; [done|]. exfalso.
    apply list_elem_of_fmap in Ha as ([o d] & -> & _). apply (Hx (i_catalog o)).
    etrans; [symmetry; apply (action_place drv o d)|exact Hi]. }
  destruct res1 as [exn|resp]; [by intros [= _ <-]|]. unfold classify_response.
  destruct (classify_bulk_response _ _) as [c|]; [|by intros [= _ <-]]. destruct (negb _); [by intros [= _ <-]|].
  destruct (recover _ _ _ _ _ _) as [[rec rest] e2] eqn:Er. intros [= _ <-]. cbn [set_es ad_es]. rewrite <-He. clear -Er Hx.
  revert e rec rest e2 Er. induction (c_poison c) as [|[sid reason] pairs IH]; intros e rec rest e2; simpl; [by intros [= _ _ <-]|].
  set (one := match key_lookup sid _ with Some _ => _ | None => _ end). destruct one as [rung e1] eqn:E1.
  destruct (recover _ _ _ _ pairs e1) as [[rec2 rest2] e3] eqn:E2. intros Hr.
  assert (e3 = e2) as -> by (by destruct rung; simplify_eq). rewrite (IH _ _ _ _ E2). subst one.
  destruct (key_lookup sid (op_by_key _)) as [o|]; [|by simplify_eq]. destruct (key_lookup sid _) as [doc|]; [|by simplify_eq].
  unfold retry_doc_with_ladder in E1. destruct (truthy _); [|by simplify_eq].
  destruct (try_rungs_effect _ _ _ _ _ _ _ _ x r i E1) as [?|(-> & _)]; [done|]. by destruct (Hx (i_catalog o)).
Qed.

Lemma plane_bulk_indexer d :
  (forall c e x r i, es_doc (ensure_storage (drivers d) c e) x r i = es_doc e x r i) ->
  (rungs = [] \/ forall c, collection_routing (drivers d) c = nonempty (Some c)) ->
  BulkIndexer (plane_doc_at d) (es_accepts rungs (drivers d)) (plane_index_bulk d).
Proof.
  intros Hensure Hroute. destruct (es_bulk_indexer rungs (drivers d) Hensure Hroute) as [H1 H2 H3].
  split; intros *; unfold plane_index_bulk; destruct (es_index_bulk _ _ _ _) as [r0 a0] eqn:Ea; intros [= -> <-];
    [exact (H1 _ _ _ _ cat col g P Ea)|exact (H2 _ _ _ _ cat col g P o Ea)|exact (H3 _ _ _ _ cat col g P o Ea)].
Qed.

Lemma plane_bulk_other d d' ops pl res pl' cat col g :
  (forall c e x r i, es_doc (ensure_storage (drivers d') c e) x r i = es_doc e x r i) ->
  (forall c', items_index_name (drivers d') c' <> items_index_name (drivers d) cat) ->
  plane_index_bulk d' ops pl = (res, pl') -> plane_doc_at d pl' cat col g = plane_doc_at d pl cat col g.
Proof.
  intros Hensure Hsep. unfold plane_index_bulk. destruct (es_index_bulk _ _ _ _) as [r0 a0] eqn:Ea. intros [= <- <-].
  unfold plane_doc_at. cbn [pl_es]. by rewrite (es_index_bulk_other _ _ _ _ _ _ _ _ Hensure Hsep Ea).
Qed.
End plane.

(** C21 (refinement).  The Elasticsearch adapters of a drain keep the contract of the index plane,
    over every cluster.  A document changes only by an op of its driver on its key; an op whose id
    is reported as passed, and as nothing else, has been applied (a delete removed the document, an
    upsert stored the simplified document or one of its degraded geometries) as far as the last op
    on its key goes; and so has every op of a call that reports no failure.  Drivers need separate
    indices, and the ladder has to be off or every driver has to route by collection, as the
    ladder does. *)
Theorem es_plane_contract `{HC : EsCluster E} (rungs : list (string * (pyval -> option pyval)))
    (drivers : string -> items_driver E) env :
  (forall d ops pl, index_bulk env d ops pl = plane_index_bulk rungs drivers d ops pl) ->
  (forall d c e x r i, es_doc (ensure_storage (drivers d) c e) x r i = es_doc e x r i) ->
  (forall d d' c c', d' <> d -> items_index_name (drivers d') c' <> items_index_name (drivers d) c) ->
  (rungs = [] \/ forall d c, collection_routing (drivers d) c = nonempty (Some c)) ->
  IndexPlane (plane_doc_at drivers) (fun d => es_accepts rungs (drivers d)) env.
Proof.
  intros Henv Hensure Hsep Hroute. split.
  - intros d. destruct (plane_bulk_indexer rungs drivers d) as [H1 H2 H3]; [apply Hensure|destruct Hroute; [by left|right; auto]|].
    split; intros *; rewrite Henv; intros Hb; [exact (H1 _ _ _ _ cat col g P Hb)|exact (H2 _ _ _ _ cat col g P o Hb)|exact (H3 _ _ _ _ cat col g P o Hb)].
  - intros d d' ops pl res pl' cat col g Hne. rewrite Henv. apply plane_bulk_other; auto.
Qed.

(** The classifier loses no document.  For a response whose items repeat the
    submitted ids or have none, truncated responses included, the three buckets together hold
    every submitted id as often as it was submitted; an id is in [passed] exactly when the item
    at one of its places has a 2xx status and no error. *)
Theorem classify_partition `{PyRuntime} d items ids c :
  cfg_get_or d "items" (VList []) = VList items -> echoes items ids -> classify_bulk_response (VDict d) ids = Some c ->
  c_passed c ++ map fst (c_transient c) ++ map fst (c_poison c) ≡ₚ map VStr ids /\
  (forall k, VStr k ∈ c_passed c <-> exists n it, ids !! n = Some k /\ items !! n = Some it /\ succeeded it).
Proof.
  intros Hd He. rewrite (classify_bulk_items _ _ _ Hd). intros (cs & -> & Hl & Hcs)%classify_from_classes.
  pose proof (classes_ids _ _ _ He Hl Hcs) as Hids. split; [by rewrite buckets_perm, Hids|].
  intros k. rewrite (proj1 (buckets_elem cs)). split.
  - intros [t (n & Hn)%list_elem_of_lookup]. assert (Hk : ids !! n = Some k).
    { assert (Hm : map VStr ids !! n = Some (VStr k)) by by rewrite <-Hids, list_lookup_fmap, Hn.
      rewrite list_lookup_fmap in Hm. destruct (ids !! n); simplify_eq/=. done. }
    destruct (Hcs n k Hk) as (x & Hx & Hc). simplify_eq. destruct (items !! n) as [it|] eqn:Hi; [|done].
    exists n, it. split_and!; [done..|]. apply (classify_item_passed it k). eauto.
  - intros (n & it & Hk & Hi & (i & t & Hc)%(classify_item_passed it k)). exists t. destruct (Hcs n k Hk) as (x & Hx & Hc').
    rewrite Hi, Hc in Hc'. simplify_eq. assert (i = VStr k) as ->; [|by eapply list_elem_of_lookup_2].
    eapply classify_item_id; [|exact Hc]. by eapply He.
Qed.
