(* ===== verification/StorageCases.v ===== *)
(** * The storage plane on concrete inputs

    A cluster in memory, a drain with one Elasticsearch driver over it, the witnesses of
    the theorems about the storage plane, and histories that show their limits. *)

From S2P Require Import Prelude TaskQueue TaskQueueProofs StoragePlane StoragePlaneProofs StorageIndexer StorageDrain StorageDrainProofs StorageSync StorageEs.

#[local] Existing Instance demo_runtime.

(** ** A cluster *)

Abbreviation mem := (gmap (string * option string * string) pyval).

(** Documents with this geometry are refused. *)
Definition mem_refuses (doc : pyval) : bool := match doc_get doc "geometry" with VStr s => s ==s "bad" | _ => false end.

Definition mem_item (verb id : string) (st : Z) (err : list (string * pyval)) : pyval :=
  VDict [(verb, VDict ([("_id", VStr id); ("status", VInt st)] ++ err))].

Definition mem_one (a : bulk_action) (e : mem) : pyval * mem :=
  match a with
  | ADelete x r i =>
      match e !! (x, r, i) with
      | Some _ => (mem_item "delete" i 200 [], delete (x, r, i) e)
      | None => (mem_item "delete" i 404 [], e)
      end
  | AIndex x r i doc =>
      if mem_refuses doc then (mem_item "index" i 400 [("error", VDict [("type", VStr "mapper_parsing_exception")])], e)
      else (mem_item "index" i 201 [], <[(x, r, i) := doc]> e)
  end.

Fixpoint mem_run (acts : list bulk_action) (e : mem) : list pyval * mem :=
  match acts with
  | [] => ([], e)
  | a :: acts => let '(it, e1) := mem_one a e in let '(its, e2) := mem_run acts e1 in (it :: its, e2)
  end.

Definition mem_bulk (e : mem) (acts : list bulk_action) : (string + pyval) * mem :=
  let '(its, e') := mem_run acts e in (inr (VDict [("items", VList its)]), e').

Definition mem_index (e : mem) (x : string) (r : option string) (i : string) (doc : pyval) : bool * mem :=
  if mem_refuses doc then (false, e) else (true, <[(x, r, i) := doc]> e).

Definition a_key (a : bulk_action) : string * option string * string := (a_index a, a_routing a, a_id a).

Lemma mem_one_lookup a e it e1 k :
  mem_one a e = (it, e1) -> e1 !! k = e !! k \/ k = a_key a /\ e1 !! k = a_effect a.
Proof.
  destruct a as [x r i|x r i doc]; simpl.
  - destruct (e !! (x, r, i)) eqn:E; intros [= _ <-]; [|by left]. destruct (decide (k = (x, r, i))) as [->|Hne].
    + right. by rewrite lookup_delete_eq.
    + left. by rewrite lookup_delete_ne.
  - destruct (mem_refuses doc); intros [= _ <-]; [by left|]. destruct (decide (k = (x, r, i))) as [->|Hne].
    + right. by rewrite lookup_insert_eq.
    + left. by rewrite lookup_insert_ne.
Qed.

Lemma mem_run_lookup acts e its e' k :
  mem_run acts e = (its, e') -> e' !! k = e !! k \/ exists a, a ∈ acts /\ k = a_key a /\ e' !! k = a_effect a.
Proof.
  revert e its. induction acts as [|a acts IH]; intros e its; simpl; [by intros [= _ <-]; left|].
  destruct (mem_one a e) as [it e1] eqn:E1. destruct (mem_run acts e1) as [its2 e2] eqn:E2. intros [= _ <-].
  destruct (IH _ _ E2) as [->|(b & Hb & Hk & He)]; [|right; exists b; split; [by right|done]].
  destruct (mem_one_lookup _ _ _ _ k E1) as [?|[Hk He]]; [by left|right]. exists a. split; [by left|done].
Qed.

Lemma mem_run_items acts e its e' :
  mem_run acts e = (its, e') -> length its = length acts /\
  forall n a it, acts !! n = Some a -> its !! n = Some it -> entry_get (first_value it) "_id" VNone = VStr (a_id a).
Proof.
  revert e its. induction acts as [|a acts IH]; intros e its; simpl; [by intros [= <- _]|].
  destruct (mem_one a e) as [it e1] eqn:E1. destruct (mem_run acts e1) as [its2 e2] eqn:E2. intros [= <- <-].
  destruct (IH _ _ E2) as [Hl Hin]. split; [simpl; by rewrite Hl|]. intros [|n] b it'; simpl; [|by apply Hin].
  intros [= <-] [= <-]. destruct a; simpl in E1; case_match; by simplify_eq/=.
Qed.

Lemma mem_one_passed a e it e1 i t :
  mem_one a e = (it, e1) -> classify_item (Some it) (a_id a) = Some (BPassed, i, t) -> e1 !! a_key a = a_effect a.
Proof.
  destruct a as [x r j|x r j doc]; simpl; case_match; intros [= <- <-]; try done; intros _.
  - apply lookup_delete_eq.
  - apply lookup_insert_eq.
Qed.

Lemma mem_run_applied acts e its e' n a it i t :
  mem_run acts e = (its, e') -> acts !! n = Some a -> its !! n = Some it ->
  classify_item (Some it) (a_id a) = Some (BPassed, i, t) ->
  (forall m b, (n < m)%nat -> acts !! m = Some b -> a_index b = a_index a -> a_id b <> a_id a) ->
  e' !! a_key a = a_effect a.
Proof.
  revert e its n. induction acts as [|b acts IH]; intros e its n; simpl; [done|].
  destruct (mem_one b e) as [it1 e1] eqn:E1. destruct (mem_run acts e1) as [its2 e2] eqn:E2. intros [= <- <-].
  destruct n as [|n]; simpl.
  - intros [= ->] [= ->] Hc Hl. rewrite <-(mem_one_passed _ _ _ _ _ _ E1 Hc).
    destruct (mem_run_lookup _ _ _ _ (a_key a) E2) as [?|(b & [m Hm]%list_elem_of_lookup & Hk & _)]; [done|]. exfalso.
    injection Hk as Hx _ Hi. by apply (Hl (S m) b); [lia|done|..].
  - intros Ha Hit Hc Hl. eapply IH; eauto. intros m c Hm Hcm. apply (Hl (S m)); [lia|done].
Qed.

#[global] Program Instance mem_cluster : EsCluster mem := {|
  es_doc e x r i := e !! (x, r, i);
  es_bulk := mem_bulk;
  es_index := mem_index;
|}.
Next Obligation.
  intros e acts res e' x r i. unfold mem_bulk. destruct (mem_run acts e) as [its e1] eqn:E. intros [= _ <-].
  destruct (mem_run_lookup _ _ _ _ (x, r, i) E) as [?|(a & Ha & [= -> -> ->] & He)]; [by left|right]. by exists a.
Qed.
Next Obligation.
  intros e acts resp e'. unfold mem_bulk. destruct (mem_run acts e) as [its e1] eqn:E. intros [= <- _].
  destruct (mem_run_items _ _ _ _ E) as [Hl Hin]. eexists _, its. split_and!; [done|done|lia|]. intros. right. eauto.
Qed.
Next Obligation.
  intros e acts d items e' n a it i t. unfold mem_bulk. destruct (mem_run acts e) as [its e1] eqn:E. intros [= <- <-] [= <-].
  intros Ha Hit Hc Hl. by apply (mem_run_applied _ _ _ _ _ _ _ _ _ E Ha Hit Hc).
Qed.
Next Obligation.
  intros e x r i d ok e' x' r' i'. unfold mem_index. destruct (mem_refuses d); intros [= _ <-]; [by left|].
  destruct (decide ((x', r', i') = (x, r, i))) as [[= -> -> ->]|Hne]; [right; by rewrite lookup_insert_eq|left; by rewrite lookup_insert_ne].
Qed.
Next Obligation.
  intros e x r i d e'. unfold mem_index. destruct (mem_refuses d); intros [= <-]. by rewrite lookup_insert_eq.
Qed.

(** ** A drain over it *)

(** Index names that keep drivers apart. *)
Fixpoint index_name (d c : string) : string :=
  match d with "" => String "."%char c | String a d => String "-"%char (String a (index_name d c)) end.

Lemma index_name_sep d d' c c' : d' <> d -> index_name d' c' <> index_name d c.
Proof.
  revert d'. induction d as [|a d IH]; intros [|a' d'] Hne; simpl; try done. intros [= -> Heq].
  apply (IH d'); [|done]. congruence.
Qed.

Definition demo_rungs : list (string * (pyval -> option pyval)) := [("convex_hull", fun _ => Some (VStr "hull"))].

Definition demo_driver (routed : bool) (d : string) : items_driver mem :=
  mkDriver _ (index_name d) (fun c => if routed then nonempty (Some c) else None) (fun _ e => e) (fun o => Some (i_payload o)).

(** The canonical rows of the primary are [store]. *)
Definition demo_env (routed : bool) (store : list (string * canonical_input)) : drain_env (es_plane mem) :=
  mkEnv _ (plane_index_bulk demo_rungs (demo_driver routed)) (fun d => d ==s "es") (fun _ => false) (fun _ _ _ => None)
    (fun _ => Some VNone) (fun _ _ _ ci => Some (ci_row ci))
    (fun _ _ _ geoids => Some (omap (fun g => pair g <$> dict_get g store) geoids))
    None None None (fun _ _ => false) (fun _ _ _ => "i") Z.of_nat (fun _ => Some 100) (fun _ _ => None).

Lemma demo_plane store :
  IndexPlane (plane_doc_at (demo_driver true)) (fun d => es_accepts demo_rungs (demo_driver true d)) (demo_env true store).
Proof.
  split.
  - intros d. apply (plane_bulk_indexer demo_rungs (demo_driver true)); [done|by right].
  - intros d d' ops pl res pl' cat col g Hne. apply plane_bulk_other; [done|]. intros c'. by apply index_name_sep.
Qed.

Definition demo_home (g : string) : string * string := ("cat", "col").
Definition demo_represents (g : string) (ci : canonical_input) (doc : pyval) : Prop :=
  doc = ci_row ci \/ exists cand, doc = doc_set (ci_row ci) "geometry" cand.
Definition demo_truth (store : list (string * canonical_input)) (g : string) : item := mkItem (dict_get g store) None.

Lemma dict_get_omap {A} (store : list (string * A)) g geoids :
  g ∈ geoids -> dict_get g (omap (fun g => pair g <$> dict_get g store) geoids) = dict_get g store.
Proof.
  set (f := fun g => pair g <$> dict_get g store). induction geoids as [|x geoids IH]; intros Hin; [by apply elem_of_nil in Hin|].
  change (omap f (x :: geoids)) with (match f x with Some y => y :: omap f geoids | None => omap f geoids end).
  destruct (decide (x = g)) as [->|Hne].
  - destruct (f g) as [y|] eqn:Ef; unfold f in Ef.
    { destruct (dict_get g store); simplify_eq/=. by rewrite String.eqb_refl. }
    destruct (decide (g ∈ geoids)) as [Hg|Hg]; [by apply IH|]. destruct (dict_get g store) eqn:Es; [done|].
    destruct (dict_get g (omap f geoids)) as [v|] eqn:Ed; [|done]. exfalso. apply dict_get_in_keys in Ed.
    apply Hg. apply list_elem_of_fmap in Ed as ([k w] & -> & (y & Hy & Hk)%list_elem_of_omap).
    unfold f in Hk. by destruct (dict_get y store); simplify_eq/=.
  - assert (Hin' : g ∈ geoids) by (apply elem_of_cons in Hin as [?|?]; congruence).
    unfold f at 1. destruct (dict_get x store) as [v|]; simpl; [|by apply IH].
    rewrite (proj2 (String.eqb_neq g x)) by congruence. by apply IH.
Qed.

(** Id-only rows about the items of the store, with deletes for deleted items only. *)
Definition demo_row (store : list (string * canonical_input)) (kv : claimed) : Prop :=
  exists g, o_entity (ob kv.2) = Some g /\ g <> "" /\ o_key (ob kv.2) = Some g /\ o_catalog (ob kv.2) = "cat" /\
    o_collection (ob kv.2) = Some "col" /\ o_write (ob kv.2) = None /\
    (o_op (ob kv.2) = "upsert" \/ o_op (ob kv.2) = "delete" /\ dict_get g store = None).

Lemma demo_faithful store rows g :
  Forall (demo_row store) rows ->
  faithful (fun d => es_accepts demo_rungs (demo_driver true d)) demo_home demo_represents "es" (demo_env true store) 5 rows g
    (demo_truth store g).
Proof.
  intros Hrows. rewrite Forall_forall in Hrows.
  assert (Hw : forall kv, kv ∈ rows -> write_ref kv.2 = None).
  { intros kv Hkv. destruct (Hrows kv Hkv) as (x & _ & _ & _ & _ & _ & Hw & _). unfold write_ref. rewrite Hw. by destruct (str_mem _ _). }
  assert (He : forall kv, kv ∈ rows -> nonempty (o_entity (ob kv.2)) = o_entity (ob kv.2)).
  { intros kv Hkv. destruct (Hrows kv Hkv) as (x & -> & Hx & _). simpl. by rewrite (proj2 (String.eqb_neq x "") Hx). }
  split.
  - intros n geoids inputs [= <-] Hg. by apply dict_get_omap.
  - intros ci doc o v Hci [= <-] Hop Hk Hp Ha. unfold es_accepts in Ha. rewrite Hop in Ha. simpl in Ha.
    destruct Ha as (doc' & [= <-] & Ha). unfold good. rewrite Hci. rewrite Hp in Ha.
    destruct Ha as [->|(name & cand & _ & ->)]; [by left|right; by exists cand].
  - intros o v Hn Hop Hk Ha. unfold es_accepts in Ha. rewrite Hop in Ha. simpl in Ha. subst v. unfold good. by rewrite Hn.
  - intros kv Hkv _ _ _. rewrite He by done. destruct (Hrows kv Hkv) as (x & -> & _ & -> & _). done.
  - intros kv Hkv _ _ Hent. rewrite He in Hent by done. destruct (Hrows kv Hkv) as (x & Hx & _ & _ & Hc & Hl & _ & Hop).
    rewrite Hx in Hent. injection Hent as ->. unfold collection_of. rewrite Hc, Hl. split_and!; [done..|]. intros Hne.
    by destruct Hop as [?|[? ?]].
  - intros kv ops Hkv _ (cat & col & op & w & n & Hk & _). unfold write_key in Hk. by rewrite Hw in Hk.
Qed.

(** *** One item on its way *)

Definition ci_of (geometry : string) : canonical_input :=
  mkCI (VDict [("geometry", VStr geometry)]) VNone VNone VNone VNone VNone VNone.

Definition demo_cfg : drain_config := mkConfig 300 10 1000 10 0 0 0.
Definition demo_plane0 : es_plane mem := mkPlane ∅ (fun _ => []) [].

Definition commit_ops (l : list (Z * string * string)) : list (Z * DispatchableOp) :=
  map (fun x => (x.1.1, DIndexOp (mkIndexOp x.1.2 "item" x.2 None))) l.

(** The table after a commit of [ops] at [now]. *)
Definition after_commit (now : Z) (ops : list (Z * DispatchableOp)) (tbl : stable) : stable :=
  (enqueue_storage_plane_ids now 900 901 true false "i" "es" "cat" "col" false ops (tbl, ∅)).2.1.

(** One batch at [now]: the table and the index. *)
Definition after_drain (routed : bool) (now : Z) (store : list (string * canonical_input)) (tbl : stable) (pl : es_plane mem)
    : stable * es_plane mem :=
  (drain_once (demo_env routed store) demo_cfg 5 id now "w" [] tbl pl 0).2.1.1.1.

Definition demo_store : list (string * canonical_input) := [("g1", ci_of "bad"); ("g2", ci_of "fine")].
Definition demo_ops : list (Z * DispatchableOp) := commit_ops [(1, "upsert", "g1"); (3, "upsert", "g2")].
Definition demo_tbl1 : stable := after_commit 0 demo_ops ∅.
Definition demo_out : nat * (stable * es_plane mem * nat * metrics * Z) :=
  drain_once (demo_env true demo_store) demo_cfg 5 id 1 "w" [] demo_tbl1 demo_plane0 0.
Definition demo_end : stable * es_plane mem := demo_out.2.1.1.1.

Lemma demo_out_parts :
  drain_once (demo_env true demo_store) demo_cfg 5 id 1 "w" [] demo_tbl1 demo_plane0 0 =
  (demo_out.1, (demo_end.1, demo_end.2, demo_out.2.1.1.2, demo_out.2.1.2, demo_out.2.2)).
Proof. unfold demo_end. change (drain_once _ _ _ _ _ _ _ _ _ _) with demo_out. by destruct demo_out as [? [[[[? ?] ?] ?] ?]]. Qed.

Definition statuses (tbl : stable) : list (Z * sstatus) := map (fun kv => (kv.1.2, s_status kv.2)) (map_to_list tbl).
Definition docs (pl : es_plane mem) : list ((string * option string * string) * pyval) := map_to_list (pl_es pl).

(** Op ids that differ in the listing of a table are unique. *)
Lemma ids_unique_listed (tbl : stable) : NoDup (map (fun kv => kv.1.2) (map_to_list tbl)) -> ids_unique tbl.
Proof.
  intros Hnd k k' [r Hr] [r' Hr'] Heq. apply elem_of_map_to_list in Hr, Hr'.
  apply list_elem_of_lookup in Hr as [i Hi], Hr' as [j Hj].
  assert (i = j) as ->; [|congruence]. eapply (NoDup_lookup _ i j k.2 Hnd); rewrite list_lookup_fmap; [by rewrite Hi|rewrite Hj; simpl; by f_equal].
Qed.

Ltac decided := apply (bool_decide_unpack _); vm_compute; exact I.

Lemma demo_tbl1_unique : ids_unique demo_tbl1.
Proof. apply ids_unique_listed. decided. Qed.

Definition demo_claim : list claimed * stable := s_claim_batch 1 300 "w" 10 [] demo_tbl1.

(** *** Witnesses *)

Definition demo_ob : obligation := mkOb "cat" "es" (Some "col") "item" (Some "g1") "upsert" None (Some "g1") 0.
Definition demo_hist : list (Z * sop) :=
  [(0, SInsert (0, 1) demo_ob); (1, SClaim 300 "w1" 10 []); (400, SClaim 300 "w2" 10 []);
   (401, SMark MDone "w1" ((0, 1), mkS demo_ob SInFlight 0 1 (Some "w1") (Some 1) 0 None))].

(** Witness of [storage_fence]: the late write of the first worker is fenced off. *)
Lemma storage_fence_witness :
  NoDup (map fst (srun demo_hist (∅, [])).2) /\
  (srun demo_hist (∅, [])).2 = [((0, 1), 1, "w1"); ((0, 1), 2, "w2")] /\ statuses (srun demo_hist (∅, [])).1 = [(1, SInFlight)].
Proof.
  split; [|split; vm_compute; reflexivity]. apply (storage_fence demo_hist ∅). vm_compute. auto.
Defined.

(** Witness of C18. *)
Lemma drain_settles_witness :
  length demo_claim.1 = 2%nat /\
  forall kv, kv ∈ demo_claim.1 -> settled 1 "w" demo_end.1 kv \/ held demo_end.1 kv /\ overtaken demo_claim.1 kv.
Proof.
  split; [vm_compute; reflexivity|].
  apply (drain_settles (demo_env true demo_store) demo_cfg 5 id 1 "w" [] demo_tbl1 demo_plane0 0 demo_claim.1 demo_claim.2
           demo_out.1 demo_end.1 demo_end.2 demo_out.2.1.1.2 demo_out.2.1.2 demo_out.2.2); [done|exact demo_tbl1_unique|vm_compute; reflexivity|exact demo_out_parts].
Defined.


(** Witness of C21. *)
Lemma es_plane_contract_witness :
  IndexPlane (plane_doc_at (demo_driver true)) (fun d => es_accepts demo_rungs (demo_driver true d)) (demo_env true demo_store).
Proof.
  apply (es_plane_contract demo_rungs (demo_driver true) (demo_env true demo_store));
    [reflexivity|reflexivity|intros d d' c c'; apply index_name_sep|right; reflexivity].
Defined.

(** A response with a success, a rejected document and one entry too few. *)
Definition demo_items : list pyval :=
  [mem_item "index" "a" 201 []; mem_item "index" "b" 400 [("error", VDict [("type", VStr "mapper_parsing_exception")])]].
Definition demo_classes : classified :=
  mkClassified [VStr "a"] [(VStr "c", "no bulk response entry for submitted id (truncated response)")]
    [(VStr "b", "400 mapper_parsing_exception: no reason")].

(** Witness of [classify_partition]. *)
Lemma classify_partition_witness :
  c_passed demo_classes ++ map fst (c_transient demo_classes) ++ map fst (c_poison demo_classes) ≡ₚ map VStr ["a"; "b"; "c"].
Proof.
  apply (classify_partition [("items", VList demo_items)] demo_items ["a"; "b"; "c"] demo_classes); [reflexivity| |vm_compute; reflexivity].
  intros [|[|n]] it k Hit Hk; simpl in *; simplify_eq; right; reflexivity.
Defined.

Definition demo_world0 : world := mkWorld (mkLedger (demo_truth []) ∅ []) demo_plane0.
Definition demo_world1 : world := mkWorld (mkLedger (demo_truth demo_store) demo_tbl1 []) demo_plane0.
Definition demo_world : world := mkWorld (mkLedger (demo_truth demo_store) demo_end.1 []) demo_end.2.

Abbreviation demo_step :=
  (wstep (plane_doc_at (demo_driver true)) (fun d => es_accepts demo_rungs (demo_driver true d)) demo_home demo_represents "es" (fun _ => True)).

Lemma demo_history : rtc demo_step demo_world0 demo_world.
Proof.
  apply rtc_l with (y := demo_world1); [|apply rtc_once].
  - apply (step_commit _ _ _ _ _ _ demo_world0 (["g1"; "g2"] ++ []) (mkLedger (demo_truth demo_store) demo_tbl1 [])); [|exact demo_tbl1_unique].
    apply (commits_enqueue _ _ _ _ (mkLedger (demo_truth demo_store) ∅ (["g1"; "g2"] ++ [])) 0 900 901 "i" "cat" "col" false demo_ops ∅ 2 demo_tbl1
             (enqueue_storage_plane_ids 0 900 901 true false "i" "es" "cat" "col" false demo_ops (∅, ∅)).2.2).
    + apply (commits_write _ _ [] (mkLedger (demo_truth []) ∅ []) (mkLedger (demo_truth []) ∅ [])); [constructor|].
      intros g Hg. unfold demo_truth. simpl. rewrite !not_elem_of_cons in Hg. destruct Hg as (H1 & H2 & _).
      by rewrite (proj2 (String.eqb_neq _ _) H1), (proj2 (String.eqb_neq _ _) H2).
    + vm_compute. reflexivity.
    + decided.
    + done.
    + intros g Hg. right. split; [done|]. simpl in Hg. rewrite elem_of_cons, list_elem_of_singleton in Hg. destruct Hg as [-> | ->].
      * exists 1, (DIndexOp (mkIndexOp "upsert" "item" "g1" None)). split; [by left|]. split; [done|]. split_and!; [done..|].
        intros id' o' Hin. unfold demo_ops, commit_ops in Hin. simpl in Hin. rewrite elem_of_cons, list_elem_of_singleton in Hin. by destruct Hin as [[= -> ->]|[= -> ->]].
      * exists 3, (DIndexOp (mkIndexOp "upsert" "item" "g2" None)). split; [by right; left|]. split; [done|]. split_and!; [done..|].
        intros id' o' Hin. unfold demo_ops, commit_ops in Hin. simpl in Hin. rewrite elem_of_cons, list_elem_of_singleton in Hin. by destruct Hin as [[= -> ->]|[= -> ->]].
  - apply (step_drain _ _ _ _ _ _ demo_world1 (demo_env true demo_store) demo_cfg 5 id 1 "w" [] 0
             demo_claim.1 demo_claim.2 demo_out.1 demo_end.1 demo_end.2 demo_out.2.1.1.2 demo_out.2.1.2 demo_out.2.2 []); [apply demo_plane|done| | | | |].
    + vm_compute. reflexivity.
    + exact demo_out_parts.
    + constructor.
    + apply ids_unique_listed. decided.
    + intros g _ _. apply demo_faithful.
      assert (demo_claim.1 = [((0, 1), s_claim 1 "w" (fresh_srow 0 demo_ob));
        ((0, 3), s_claim 1 "w" (fresh_srow 0 (mkOb "cat" "es" (Some "col") "item" (Some "g2") "upsert" None (Some "g2") 0)))]) as ->
        by (vm_compute; reflexivity).
      repeat constructor; [exists "g1"|exists "g2"]; split_and!; auto; done.
Qed.


(** ** Limits *)

(** A delete obligation that is replayed after its delete went through is dead-lettered: the
    404 of an absent document counts as poison. *)
Lemma replayed_delete_dies :
  statuses (after_drain true 1 [] (after_commit 0 (commit_ops [(1, "delete", "g1")]) ∅) demo_plane0).1 = [(1, SDead)].
Proof. vm_compute. reflexivity. Qed.

(** Two obligations of one item in one sub-chunk: the first is never reported, and goes
    round once more. *)
Lemma twin_obligation_retried :
  let tbl := after_commit 1 (commit_ops [(2, "upsert", "g2")]) (after_commit 0 (commit_ops [(1, "upsert", "g2")]) ∅) in
  statuses (after_drain true 2 demo_store tbl demo_plane0).1 = [(2, SDone); (1, SReady)].
Proof. vm_compute. reflexivity. Qed.

(** So a delete and the re-creation of the item end, one batch later, with the live item
    missing in the index and every obligation done. *)
Lemma recreated_item_lost :
  let tbl := after_commit 1 (commit_ops [(2, "upsert", "g2")]) (after_commit 0 (commit_ops [(1, "delete", "g2")]) ∅) in
  let '(tbl1, pl1) := after_drain true 2 demo_store tbl demo_plane0 in
  let '(tbl2, pl2) := after_drain true 100 demo_store tbl1 pl1 in
  length (docs pl1) = 1%nat /\ docs pl2 = [] /\ statuses tbl2 = [(2, SDone); (1, SDone)].
Proof. vm_compute. auto. Qed.

(** The ladder writes with the collection as routing key; for a driver that does not route,
    the document is where no search of the driver finds it, and the obligation is done. *)
Lemma unrouted_ladder_misses :
  let '(tbl, pl) := after_drain false 1 demo_store (after_commit 0 (commit_ops [(1, "upsert", "g1")]) ∅) demo_plane0 in
  statuses tbl = [(1, SDone)] /\ length (docs pl) = 1%nat /\ plane_doc_at (demo_driver false) "es" pl "cat" "col" "g1" = None.
Proof. vm_compute. auto. Qed.

(** A write batch of deletes, one document per chunk, of which the first is gone already. *)
Definition tombstone_env : drain_env (es_plane mem) :=
  let env := demo_env true [] in
  mkEnv _ (index_bulk env) (resolve_indexer env) (fun _ => false) (fun _ _ _ => None) (fun _ => Some VNone) (fun _ _ _ _ => None)
    (read_canonical env) None None (Some (fun _ _ _ _ => Some (["g1"; "g2"], None))) (fun _ _ => true) (fun _ _ _ => "i") Z.of_nat
    (fun _ => Some 100) (fun _ _ => None).

Definition tombstone_tbl : stable :=
  (enqueue_storage_plane_ids 0 900 901 true false "i" "es" "cat" "col" true
     [(1, DIndexOp (mkIndexOp "delete" "item" "g1" (Some "w1")))] (∅, ∅)).2.1.

(** The batch is given up at the first 404, and the second document stays. *)
Lemma tombstone_batch_dies :
  let pl0 := mkPlane (<[(index_name "es" "cat", Some "col", "g2") := VDict []]> ∅) (fun _ => []) [] in
  let out := (drain_once tombstone_env (mkConfig 300 10 50 10 0 0 0) 5 id 1 "w" [] tombstone_tbl pl0 0).2.1.1.1 in
  statuses out.1 = [(1, SDead)] /\ length (docs out.2) = 1%nat.
Proof. vm_compute. auto. Qed.

(** Every index that an adapter writes to joins the public alias, whatever its driver. *)
Lemma adapter_publishes (rungs : list (string * (pyval -> option pyval))) (drv : items_driver mem) (ops : list IndexableOp) (a : adapter mem) r a' o :
  es_index_bulk rungs drv ops a = (Some r, a') -> o ∈ ops -> items_index_name drv (i_catalog o) ∈ ad_public a'.
Proof.
  unfold es_index_bulk. destruct ops as [|o0 ops0]; [by intros _ ?%elem_of_nil|]. set (ops := o0 :: ops0). intros Hb Ho.
  destruct (op_docs drv ops) as [ods|]; [|done]. cbn [ad_es ad_ensured ad_public] in Hb. set (pub := dict_fromkeys (_ ++ _)) in Hb.
  assert (a'.(ad_public) = pub) as ->.
  { destruct (es_bulk _ _) as [[?|?] ?]; [by injection Hb as _ <-|]. destruct (classify_response _ _ _ _ _). by injection Hb as _ <-. }
  unfold pub. apply elem_of_dict_fromkeys, elem_of_app. right. apply list_elem_of_fmap. exists (i_catalog o). split; [done|].
  apply elem_of_dict_fromkeys, list_elem_of_fmap. eauto.
Qed.
