(* ===== verification/ItemWrite.v ===== *)
(** * Writing items

    The write path of a collection: the identity rules and conflict actions of
    [ItemsWritePolicy] ([storage/driver_config.py]), the upsert of one feature and of a
    batch ([catalog/item_distributed.py]), the chunk loop of [catalog/item_service.py],
    and the statements of the attributes and geometries sidecars they run
    ([storage/drivers/pg_sidecars]).

    A collection is a hub table and the tables of its two sidecars, joined on the
    geoid; a version has a row in each.  The primary key of the attributes is the geoid
    and, with validity, the validity range.  Collections partitioned by validity are
    left out.  [hash_of], [ghash] and [ahash] are the columns PostgreSQL generates. *)

From S2P Require Import Prelude StorageDrain.

(** ** Ranges *)

(** [tstzrange(lower, upper, '[)')]; [None] is the empty range, a missing bound is
    infinite. *)
Abbreviation vrange := (option (option Z * option Z)).

(** PostgreSQL refuses a lower bound above the upper one and makes [[t, t)] empty. *)
Definition mk_range (lo hi : option Z) : option vrange :=
  match lo, hi with
  | Some a, Some b => if b <? a then None else if a =? b then Some None else Some (Some (lo, hi))
  | _, _ => Some (Some (lo, hi))
  end.
Definition range_lower (r : vrange) : option Z := r ≫= fst.
(** [upper(r)]: null for an infinite bound and for the empty range. *)
Definition range_upper (r : vrange) : option Z := r ≫= snd.

(** ** The write policy *)

Inductive WriteConflictPolicy : Type := UPDATE | NEW_VERSION | REFUSE | REFUSE_RETURN | REFUSE_FAIL.
#[export] Instance conflict_policy_eq_dec : EqDecision WriteConflictPolicy.
Proof. solve_decision. Defined.

Inductive ComputedKind : Type := EXTERNAL_ID | GEOMETRY_HASH | GEOHASH | ATTRIBUTES_HASH | OTHER_KIND.
#[export] Instance computed_kind_eq_dec : EqDecision ComputedKind.
Proof. solve_decision. Defined.

Record ComputedField : Type := mkField { cf_name : string; cf_kind : ComputedKind }.
Record IdentityRule : Type := mkIdRule { ir_match_on : list string; ir_on_match : option WriteConflictPolicy }.
Record ResolvedIdentityRule : Type := mkResolved { rr_match_on : list ComputedKind; rr_on_match : option WriteConflictPolicy }.
#[export] Instance identity_rule_eq_dec : EqDecision IdentityRule.
Proof. solve_decision. Defined.

(** [wp_batch_refuse]: [on_batch_conflict] is [refuse_batch]; [wp_validity]: a validity
    specification is set. *)
Record ItemsWritePolicy : Type := mkPolicy {
  wp_compute : list ComputedField;
  wp_content_hashes : list string;
  wp_identity : list IdentityRule;
  wp_on_conflict : WriteConflictPolicy;
  wp_batch_refuse : bool;
  wp_validity : bool;
  wp_batch_insert : bool;
}.

Definition default_identity_rules : list IdentityRule := [mkIdRule ["external_id"] None].

Definition append_geometry_hash_default (p : ItemsWritePolicy) : ItemsWritePolicy :=
  if bool_decide (wp_identity p = default_identity_rules) && str_mem "geometry" (wp_content_hashes p)
     && negb (existsb (fun r => str_mem "geometry_hash" (ir_match_on r)) (wp_identity p))
  then mkPolicy (wp_compute p) (wp_content_hashes p)
         (wp_identity p ++ [mkIdRule ["geometry_hash"] (Some REFUSE_RETURN)])
         (wp_on_conflict p) (wp_batch_refuse p) (wp_validity p) (wp_batch_insert p)
  else p.

(** [_compute_by_name]: the last field of a name wins. *)
Definition compute_by_name (p : ItemsWritePolicy) (name : string) : option ComputedField :=
  fold_left (fun acc cf => if cf_name cf ==s name then Some cf else acc) (wp_compute p) None.

Definition validate_identity_refs (p : ItemsWritePolicy) : bool :=
  forallb (fun r => forallb (fun n => (n ==s "external_id") || match compute_by_name p n with Some _ => true | None => false end)
                            (ir_match_on r)) (wp_identity p).

Definition resolve_name (p : ItemsWritePolicy) (name : string) : option ComputedKind :=
  match compute_by_name p name with
  | Some cf => Some (cf_kind cf)
  | None => if name ==s "external_id" then Some EXTERNAL_ID else None
  end.
(** [None]: a rule names a field that is not derived. *)
Definition resolved_identity (p : ItemsWritePolicy) : option (list ResolvedIdentityRule) :=
  mapM (fun r => ks ← mapM (resolve_name p) (ir_match_on r); Some (mkResolved ks (ir_on_match r))) (wp_identity p).

Definition rules_of (wp : option ItemsWritePolicy) : option (list ResolvedIdentityRule) :=
  match wp with
  | Some p => resolved_identity p
  | None => Some [mkResolved [EXTERNAL_ID] None]
  end.

Definition select_effective_on_conflict (wp : option ItemsWritePolicy) (matched : option ResolvedIdentityRule)
    : WriteConflictPolicy :=
  match wp with
  | None => UPDATE
  | Some p => match matched with
              | Some r => match rr_on_match r with Some a => a | None => wp_on_conflict p end
              | None => wp_on_conflict p
              end
  end.
(** Without a validity specification a new version is an update. *)
Definition effective_on_conflict (wp : option ItemsWritePolicy) (matched : option ResolvedIdentityRule)
    : WriteConflictPolicy :=
  match select_effective_on_conflict wp matched with
  | NEW_VERSION => if match wp with Some p => wp_validity p | None => false end then NEW_VERSION else UPDATE
  | a => a
  end.

(** ** The tables *)

Section items.
Context {D G : Type} (hash_of ghash : G -> string) (ahash : D -> string).

Record hub_row' : Type := mkHub { h_time : Z; h_deleted : bool }.
Record attr_row : Type := mkAttr { a_ext : option string; a_data : D }.
Record items_db : Type := mkItems {
  hub : gmap string hub_row';
  attrs : gmap (string * option vrange) attr_row;
  geoms : gmap string G;
}.

(** The configuration of the sidecars: whether external ids and validity have a
    column, whether a version without start is open below, JSONB attributes, and
    whether a geohash column exists. *)
Record sidecars : Type := mkSidecars {
  sc_external_id : bool;
  sc_validity : bool;
  sc_start_open : bool;
  sc_jsonb : bool;
  sc_geohash : bool;
}.

(** A prepared feature: its fresh geoid and transaction time, what the sidecars put
    in its context, its rows, the sidecar that refuses it if any, and whether the
    sidecars accept it as an update. *)
Record plan : Type := mkPlan {
  p_geoid : string;
  p_time : Z;
  p_ext : option string;
  p_hash : option string;
  p_from : option Z;
  p_to : option Z;
  p_attrs : D;
  p_geom : G;
  p_refused_by : option string;
  p_update_ok : bool;
}.

Definition truthy_str (s : option string) : option string :=
  match s with Some "" => None | _ => s end.

(** A matched row; [f_valid] is the validity when the query selects it. *)
Record found : Type := mkFound { f_geoid : string; f_valid : option vrange }.

(** ** Identity resolution *)

(** [ORDER BY transaction_time DESC LIMIT 1] *)
Definition later {K} (best : option (K * Z)) (kt : K * Z) : option (K * Z) :=
  match best with Some b => if b.2 <? kt.2 then Some kt else best | None => Some kt end.
Definition latest {K} (l : list (K * Z)) : option K := option_map fst (fold_left later l None).

Definition alive (db : items_db) (g : string) : option Z :=
  match hub db !! g with Some h => if h_deleted h then None else Some (h_time h) | None => None end.

Definition has_geom (db : items_db) (g : string) : bool := match geoms db !! g with Some _ => true | None => false end.

(** The current version of an external id. *)
Definition ext_candidate (sc : sidecars) (db : items_db) (id : string) (kv : (string * option vrange) * attr_row) : bool :=
  bool_decide (a_ext kv.2 = Some id) &&
  match alive db kv.1.1 with Some _ => true | None => false end && has_geom db kv.1.1 &&
  (negb (sc_validity sc) || match kv.1.2 with Some r => match range_upper r with None => true | Some _ => false end
                                            | None => true end).
Definition timed {K} (db : items_db) (geoid : K -> string) (k : K) : K * Z := (k, default 0 (alive db (geoid k))).
Definition resolve_ext (sc : sidecars) (db : items_db) (id : string) : option found :=
  let cands := base.filter (fun kv => ext_candidate sc db id kv = true) (attrs db) in
  k ← latest (map (fun kv => timed db fst kv.1) (map_to_list cands));
  Some (mkFound k.1 (if sc_validity sc then k.2 else None)).

(** The latest live row whose geometry satisfies [p]. *)
Definition resolve_geom (db : items_db) (p : G -> bool) : option found :=
  let cands := base.filter (fun kv => (p kv.2 && match alive db kv.1 with Some _ => true | None => false end) = true) (geoms db) in
  g ← latest (map (fun kv => timed db id kv.1) (map_to_list cands));
  Some (mkFound g None).
Definition resolve_hash (db : items_db) (h : string) : option found := resolve_geom db (fun g => hash_of g ==s h).

Definition resolve_existing_item (sc : sidecars) (db : items_db) (kind : ComputedKind) (p : plan) : option found :=
  match kind with
  | EXTERNAL_ID =>
      if sc_external_id sc then id ← truthy_str (p_ext p); resolve_ext sc db id else None
  | GEOMETRY_HASH => h ← truthy_str (p_hash p); resolve_hash db h
  | GEOHASH => if sc_geohash sc then resolve_geom db (fun g => ghash g ==s ghash (p_geom p)) else None
  | ATTRIBUTES_HASH =>
      if sc_jsonb sc then
        let cands := base.filter (fun kv : (string * option vrange) * attr_row =>
          ((ahash (a_data kv.2) ==s ahash (p_attrs p)) && has_geom db kv.1.1 &&
           match alive db kv.1.1 with Some _ => true | None => false end) = true) (attrs db) in
        k ← latest (map (fun kv => timed db fst kv.1) (map_to_list cands)); Some (mkFound k.1 None)
      else None
  | OTHER_KIND => None
  end.

(** Every field of a rule has to find the same row. *)
Definition resolve_rule (sc : sidecars) (db : items_db) (r : ResolvedIdentityRule) (p : plan) : option found :=
  match mapM (fun k => resolve_existing_item sc db k p) (rr_match_on r) with
  | Some (f :: fs) => if forallb (fun f' => f_geoid f' ==s f_geoid f) fs then Some f else None
  | _ => None
  end.

Fixpoint resolve_identity (sc : sidecars) (db : items_db) (rules : list ResolvedIdentityRule) (p : plan)
    : option (found * ResolvedIdentityRule) :=
  match rules with
  | [] => None
  | r :: rules => match resolve_rule sc db r p with
                  | Some f => Some (f, r)
                  | None => resolve_identity sc db rules p
                  end
  end.

(** ** Writes *)

(** Errors: a rejection of one feature, a conflict that aborts, and the exceptions of
    the sidecars and of the database. *)
Inductive write_error : Type :=
| SidecarRejected (geoid : option string) (reason : string)
| ConflictError
| UpdateRejected
| UnknownIdentity
| RangeError
| DuplicateKey
| NotWritten.
(** The row written, or the existing row echoed by [REFUSE_RETURN]. *)
Inductive written : Type := Row (geoid : string) | Echo (geoid : string).

Definition or_some {A} (a b : option A) : option A := match a with Some _ => a | None => b end.

(** [finalize_upsert_payload] of the attributes: the validity of a new row. *)
Definition new_validity (sc : sidecars) (p : plan) : option vrange :=
  mk_range (or_some (p_from p) (if sc_start_open sc then None else Some (p_time p))) (p_to p).
Definition attr_key (sc : sidecars) (g : string) (r : option vrange) : option (string * option vrange) :=
  if sc_validity sc then option_map (fun r => (g, Some r)) r else Some (g, None).

Definition stored_ext (sc : sidecars) (p : plan) : option string :=
  if sc_external_id sc then truthy_str (p_ext p) else None.
(** [INSERT ... ON CONFLICT (key) DO UPDATE]: a column the payload lacks is kept. *)
Definition upsert_attr (sc : sidecars) (key : string * option vrange) (p : plan) (db : items_db) : items_db :=
  let old := attrs db !! key in
  mkItems (hub db) (<[key := mkAttr (or_some (stored_ext sc p) (old ≫= a_ext)) (p_attrs p)]> (attrs db)) (geoms db).
Definition upsert_geom (g : string) (p : plan) (db : items_db) : items_db :=
  mkItems (hub db) (attrs db) (<[g := p_geom p]> (geoms db)).
Definition put_hub (g : string) (p : plan) (db : items_db) : items_db :=
  mkItems (<[g := mkHub (p_time p) false]> (hub db)) (attrs db) (geoms db).

(** The hub row and the rows of both sidecars under the geoid of [key]. *)
Definition put_item (sc : sidecars) (key : string * option vrange) (p : plan) (db : items_db) : items_db :=
  upsert_geom key.1 p (upsert_attr sc key p (put_hub key.1 p db)).

Definition insert_item (sc : sidecars) (p : plan) (db : items_db) : write_error + items_db :=
  match hub db !! p_geoid p with
  | Some _ => inl DuplicateKey
  | None =>
      match attr_key sc (p_geoid p) (new_validity sc p) with
      | None => inl RangeError
      | Some key => inr (put_item sc key p db)
      end
  end.

(** [expire_version]: every attributes row of the geoid gets the upper bound. *)
Definition expire_row (t : Z) (kv : (string * option vrange) * attr_row) : option ((string * option vrange) * attr_row) :=
  match kv.1.2 with
  | Some r => r' ← mk_range (range_lower r) (Some t); Some ((kv.1.1, Some r'), kv.2)
  | None => Some kv
  end.
Definition expire_version (sc : sidecars) (g : string) (t : Z) (db : items_db) : write_error + items_db :=
  if sc_validity sc then
    let mine := base.filter (fun kv : (string * option vrange) * attr_row => kv.1.1 = g) (attrs db) in
    let others := base.filter (fun kv : (string * option vrange) * attr_row => kv.1.1 <> g) (attrs db) in
    match mapM (expire_row t) (map_to_list mine) with
    | None => inl RangeError
    | Some rows =>
        if bool_decide (NoDup (map fst rows)) then inr (mkItems (hub db) (list_to_map rows ∪ others) (geoms db))
        else inl DuplicateKey
    end
  else inr db.

(** The validity an update writes: that of the matched row, if it was read and is not
    empty. *)
Definition update_validity (sc : sidecars) (now : Z) (f : found) (p : plan) : option vrange :=
  match f_valid f with
  | Some (Some b) => Some (Some b)
  | Some None => new_validity sc p
  | None => mk_range (or_some (p_from p) (Some now)) (p_to p)
  end.
Definition update_item (sc : sidecars) (now : Z) (f : found) (p : plan) (db : items_db) : write_error + (option written * items_db) :=
  let g := f_geoid f in
  match hub db !! g with
  | None => inr (None, db)
  | Some _ =>
      match attr_key sc g (update_validity sc now f p) with
      | None => inl RangeError
      | Some key => inr (Some (Row g), put_item sc key p db)
      end
  end.

(** What is done about a feature, in the order of the checks. *)
Inductive action : Type :=
| AReject (geoid : string) | AEcho (geoid : string) | AConflict
| AInsert | AArchiveInsert (f : found) | AUpdate (f : found).
Definition decide_action (wp : option ItemsWritePolicy) (m : option (found * ResolvedIdentityRule)) : action :=
  match m with
  | None => AInsert
  | Some (f, r) =>
      if match wp with Some p => wp_batch_refuse p | None => false end then AConflict
      else match effective_on_conflict wp (Some r) with
           | REFUSE_FAIL => AConflict
           | REFUSE_RETURN => AEcho (f_geoid f)
           | NEW_VERSION => AArchiveInsert f
           | REFUSE => AReject (f_geoid f)
           | UPDATE => AUpdate f
           end
  end.

(** [insert_or_update_distributed] *)
Definition insert_or_update (sc : sidecars) (wp : option ItemsWritePolicy) (now : Z) (p : plan) (db : items_db)
    : write_error + (option written * items_db) :=
  match p_refused_by p with
  | Some _ => inl (SidecarRejected None "sidecar_not_acceptable")
  | None =>
      match rules_of wp with
      | None => inl UnknownIdentity
      | Some rules =>
          match decide_action wp (resolve_identity sc db rules p) with
          | AConflict => inl ConflictError
          | AEcho g => inr (Some (Echo g), db)
          | AReject g => inl (SidecarRejected (Some g) "write_policy_refuse")
          | AInsert =>
              match insert_item sc p db with inl e => inl e | inr db => inr (Some (Row (p_geoid p)), db) end
          | AArchiveInsert f =>
              match expire_version sc (f_geoid f) (default (p_time p) (p_from p)) db with
              | inl e => inl e
              | inr db =>
                  match insert_item sc p db with inl e => inl e | inr db => inr (Some (Row (p_geoid p)), db) end
              end
          | AUpdate f => if p_update_ok p then update_item sc now f p db else inl UpdateRejected
          end
      end
  end.
(** ** A batch *)

Record rejection : Type := mkRej { rj_geoid : string; rj_ext : option string; rj_reason : string }.

Definition batchable (k : ComputedKind) : bool := match k with EXTERNAL_ID | GEOMETRY_HASH => true | _ => false end.

(** The two bulk lookups: one row per external id, and per hash, of the batch. *)
Definition bulk_lookup (resolve : string -> option found) (keys : list string) : gmap string found :=
  list_to_map (omap (fun k => option_map (pair k) (resolve k)) keys).
Definition batch_resolve_by_external_id (sc : sidecars) (db : items_db) (ids : list string) : gmap string found :=
  if sc_external_id sc then bulk_lookup (resolve_ext sc db) ids else ∅.
Definition batch_resolve_by_geometry_hash (db : items_db) (hs : list string) : gmap string found :=
  bulk_lookup (resolve_hash db) hs.

Definition batch_field (exts hashes : gmap string found) (p : plan) (k : ComputedKind) : option found :=
  match k with
  | EXTERNAL_ID => id ← truthy_str (p_ext p); exts !! id
  | GEOMETRY_HASH => h ← truthy_str (p_hash p); hashes !! h
  | _ => None
  end.
(** [row_by_geoid] keeps the row of the last field. *)
Definition batch_rule (exts hashes : gmap string found) (r : ResolvedIdentityRule) (p : plan) : option found :=
  match mapM (batch_field exts hashes p) (rr_match_on r) with
  | Some (f :: fs) => if forallb (fun f' => f_geoid f' ==s f_geoid f) fs then Some (List.last fs f) else None
  | _ => None
  end.
Fixpoint batch_identity (exts hashes : gmap string found) (rules : list ResolvedIdentityRule) (p : plan)
    : option (found * ResolvedIdentityRule) :=
  match rules with
  | [] => None
  | r :: rules => match batch_rule exts hashes r p with
                  | Some f => Some (f, r)
                  | None => batch_identity exts hashes rules p
                  end
  end.

Definition resolve_batch (sc : sidecars) (db : items_db) (rules : list ResolvedIdentityRule) (plans : list plan)
    : plan -> option (found * ResolvedIdentityRule) :=
  if forallb (fun r => forallb batchable (rr_match_on r)) rules then
    let exts := batch_resolve_by_external_id sc db (omap (fun p => truthy_str (p_ext p)) plans) in
    let hashes := batch_resolve_by_geometry_hash db (omap (fun p => truthy_str (p_hash p)) plans) in
    batch_identity exts hashes rules
  else resolve_identity sc db rules.

(** [batch_insert_or_update_distributed]: refusals and echoes are settled first, then
    the new features are inserted, then the rest is written one by one. *)
Record batch_out : Type := mkBatch { bo_results : list (option written); bo_rejections : list rejection; bo_db : items_db }.

Definition sidecar_rejection (p : plan) : option rejection :=
  option_map (fun _ => mkRej (p_geoid p) (p_ext p) "sidecar_not_acceptable") (p_refused_by p).

Inductive slot : Type := SDone (r : option written) (j : option rejection) | SInsert (p : plan) | SUpdate (p : plan).
Definition classify (wp : option ItemsWritePolicy) (m : plan -> option (found * ResolvedIdentityRule)) (p : plan)
    : write_error + slot :=
  match p_refused_by p with
  | Some _ => inr (SDone None None)
  | None =>
      match decide_action wp (m p) with
      | AConflict => inl ConflictError
      | AEcho g => inr (SDone (Some (Echo g)) None)
      | AReject g => inr (SDone None (Some (mkRej g (p_ext p) "write_policy_refuse")))
      | AInsert => inr (SInsert p)
      | AArchiveInsert _ | AUpdate _ => inr (SUpdate p)
      end
  end.
Fixpoint classify_all (wp : option ItemsWritePolicy) (m : plan -> option (found * ResolvedIdentityRule)) (plans : list plan)
    : write_error + list slot :=
  match plans with
  | [] => inr []
  | p :: plans =>
      match classify wp m p with
      | inl e => inl e
      | inr s => match classify_all wp m plans with inl e => inl e | inr ss => inr (s :: ss) end
      end
  end.

Fixpoint insert_all (sc : sidecars) (slots : list slot) (db : items_db) : write_error + items_db :=
  match slots with
  | [] => inr db
  | SInsert p :: slots => match insert_item sc p db with inl e => inl e | inr db => insert_all sc slots db end
  | _ :: slots => insert_all sc slots db
  end.
Fixpoint update_all (sc : sidecars) (wp : option ItemsWritePolicy) (now : Z) (slots : list slot) (db : items_db)
    : write_error + (list (option written) * items_db) :=
  match slots with
  | [] => inr ([], db)
  | s :: slots =>
      match match s with
            | SDone r _ => inr (r, db)
            | SInsert p => inr (Some (Row (p_geoid p)), db)
            | SUpdate p => insert_or_update sc wp now p db
            end with
      | inl e => inl e
      | inr (r, db) => match update_all sc wp now slots db with inl e => inl e | inr (rs, db) => inr (r :: rs, db) end
      end
  end.
Definition slot_rejection (s : slot) : option rejection := match s with SDone _ j => j | _ => None end.

Definition batch_insert_or_update (sc : sidecars) (wp : option ItemsWritePolicy) (now : Z) (plans : list plan) (db : items_db)
    : write_error + batch_out :=
  let accepted := List.filter (fun p => match p_refused_by p with None => true | Some _ => false end) plans in
  if (length accepted =? 0)%nat then inr (mkBatch (map (fun _ => None) plans) (omap sidecar_rejection plans) db) else
  match rules_of wp with
  | None => inl UnknownIdentity
  | Some rules =>
      match classify_all wp (resolve_batch sc db rules accepted) plans with
      | inl e => inl e
      | inr slots =>
          match insert_all sc slots db with
          | inl e => inl e
          | inr db => match update_all sc wp now slots db with
                      | inl e => inl e
                      | inr (rs, db) => inr (mkBatch rs (omap sidecar_rejection plans ++ omap slot_rejection slots) db)
                      end
          end
      end
  end.

(** ** Chunks *)

(** The per-row path: a rejection is recorded, any other error aborts the chunk. *)
Fixpoint write_rows (sc : sidecars) (wp : option ItemsWritePolicy) (now : Z) (plans : list plan) (db : items_db)
    : write_error + batch_out :=
  match plans with
  | [] => inr (mkBatch [] [] db)
  | p :: plans =>
      match insert_or_update sc wp now p db with
      | inl (SidecarRejected g reason) =>
          match write_rows sc wp now plans db with
          | inl e => inl e
          | inr o => inr (mkBatch (None :: bo_results o) (mkRej (default (p_geoid p) g) (p_ext p) reason :: bo_rejections o) (bo_db o))
          end
      | inl e => inl e
      | inr (None, _) => inl NotWritten
      | inr (r, db) =>
          match write_rows sc wp now plans db with
          | inl e => inl e
          | inr o => inr (mkBatch (r :: bo_results o) (bo_rejections o) (bo_db o))
          end
      end
  end.

(** One chunk in its own transaction: the batch path first, the per-row path when it
    fails with anything but a conflict. *)
Definition write_chunk (sc : sidecars) (wp : option ItemsWritePolicy) (now : Z) (plans : list plan) (db : items_db)
    : write_error + batch_out :=
  if match wp with Some p => wp_batch_insert p | None => false end && (1 <? length plans)%nat then
    match batch_insert_or_update sc wp now plans db with
    | inr o => inr o
    | inl ConflictError => inl ConflictError
    | inl _ => write_rows sc wp now plans db
    end
  else write_rows sc wp now plans db.

Definition INGEST_CHUNK_PROBE_ROWS : Z := 1.
Definition INGEST_CHUNK_BYTE_BUDGET : Z := 16 * 1024 * 1024.

(** The loop over the chunks of an ingestion; what is committed survives an error in
    a later chunk. *)
Fixpoint write_chunks (fuel : nat) (sc : sidecars) (wp : option ItemsWritePolicy) (now : Z) (bytes : plan -> Z)
    (ceiling rows : Z) (plans : list plan) (db : items_db) : option write_error * list rejection * items_db :=
  match fuel, plans with
  | O, _ | _, [] => (None, [], db)
  | S fuel, _ =>
      let n := Z.to_nat rows in
      let chunk := take n plans in
      match write_chunk sc wp now chunk db with
      | inl e => (Some e, [], db)
      | inr o =>
          let rows := next_adaptive_chunk_rows (foldr (fun p acc => bytes p + acc) 0 chunk) (Z.of_nat (length chunk))
                        INGEST_CHUNK_BYTE_BUDGET rows ceiling in
          let '(e, rejs, db) := write_chunks fuel sc wp now bytes ceiling rows (drop n plans) (bo_db o) in
          (e, bo_rejections o ++ rejs, db)
      end
  end.
Definition ingest (sc : sidecars) (wp : option ItemsWritePolicy) (now : Z) (bytes : plan -> Z) (ceiling : Z)
    (plans : list plan) (db : items_db) : option write_error * list rejection * items_db :=
  write_chunks (length plans) sc wp now bytes ceiling (Z.min INGEST_CHUNK_PROBE_ROWS ceiling) plans db.
End items.
