(* ===== verification/ItemWriteProofs.v ===== *)
(** * Writing items: theorems

    The batch path against the per-row path, the versions of an item, and the
    behaviours in which code and documentation part. *)

From S2P Require Import Prelude StorageDrain ItemWrite.

(** A policy that passed validation has its rules resolved. *)
Lemma validated_policy_resolves p : validate_identity_refs p = true -> is_Some (resolved_identity p).
Proof.
  unfold validate_identity_refs, resolved_identity. rewrite forallb_forall. intros Hv.
  apply mapM_is_Some, Forall_forall. intros r Hr. specialize (Hv r). rewrite <- list_elem_of_In, forallb_forall in Hv.
  specialize (Hv Hr). unfold compose. destruct (mapM (resolve_name p) (ir_match_on r)) eqn:Hm; [by eexists|].
  apply eq_None_not_Some in Hm as []. apply mapM_is_Some, Forall_forall. intros n Hn.
  specialize (Hv n). rewrite <- list_elem_of_In in Hv. specialize (Hv Hn). unfold compose, resolve_name.
  destruct (compute_by_name p n); [by eexists|]. rewrite orb_false_r in Hv. rewrite Hv. by eexists.
Qed.

Section proofs.
Context {D G : Type} (hash_of ghash : G -> string) (ahash : D -> string).
Abbreviation db_t := (items_db (D := D) (G := G)).
Abbreviation plan_t := (plan (D := D) (G := G)).

(** ** Well-formed collections *)

(** Attributes belong to a hub row, and the versions of a geoid share the external id. *)
Record db_ok (db : db_t) : Prop := {
  ok_hub : forall g v a, attrs db !! (g, v) = Some a -> is_Some (hub db !! g);
  ok_ext : forall g v v' a a', attrs db !! (g, v) = Some a -> attrs db !! (g, v') = Some a' -> a_ext a = a_ext a';
}.

(** [db'] differs from [db] only in the rows of [T]. *)
Record agree_off (T : gset string) (db db' : db_t) : Prop := {
  ag_hub : forall g, g ∉ T -> hub db' !! g = hub db !! g;
  ag_attrs : forall g v, g ∉ T -> attrs db' !! (g, v) = attrs db !! (g, v);
  ag_geoms : forall g, g ∉ T -> geoms db' !! g = geoms db !! g;
}.
Definition ext_on (T : gset string) (e : option string) (db : db_t) : Prop :=
  forall g v a, g ∈ T -> attrs db !! (g, v) = Some a -> a_ext a = e.

Lemma agree_refl T db : agree_off T db db.
Proof. by constructor. Qed.

Lemma agree_trans T1 T2 db1 db2 db3 :
  agree_off T1 db1 db2 -> agree_off T2 db2 db3 -> agree_off (T1 ∪ T2) db1 db3.
Proof.
  intros [H1 A1 G1] [H2 A2 G2].
  constructor; intros; [rewrite H2, H1|rewrite A2, A1|rewrite G2, G1]; set_solver.
Qed.

Lemma alive_agree T db db' g : agree_off T db db' -> g ∉ T -> alive db' g = alive db g.
Proof. intros Ha Hg. unfold alive. by rewrite (ag_hub _ _ _ Ha). Qed.

Lemma candidate_ext sc (db : db_t) id kv : ext_candidate sc db id kv = true -> a_ext kv.2 = Some id.
Proof. unfold ext_candidate. intros [[[H _]%andb_prop _]%andb_prop _]%andb_prop. by apply bool_decide_eq_true in H. Qed.

Lemma candidate_agree T sc (db db' : db_t) id kv :
  agree_off T db db' -> kv.1.1 ∉ T -> ext_candidate sc db' id kv = ext_candidate sc db id kv.
Proof. intros Ha Hg. unfold ext_candidate, has_geom. by rewrite (alive_agree T db db'), (ag_geoms _ _ _ Ha) by done. Qed.

(** Rows of other external ids do not matter to the resolution of one. *)
Lemma resolve_ext_local T e sc (db db' : db_t) id :
  agree_off T db db' -> ext_on T e db -> ext_on T e db' -> e <> Some id ->
  resolve_ext sc db' id = resolve_ext sc db id.
Proof.
  intros Ha He He' Hne. unfold resolve_ext.
  set (P1 := fun kv => ext_candidate sc db' id kv = true). set (P2 := fun kv => ext_candidate sc db id kv = true).
  assert (Hoff : forall g v a, attrs db !! (g, v) = Some a \/ attrs db' !! (g, v) = Some a -> a_ext a = Some id -> g ∉ T).
  { intros g v a [Hk|Hk] Hid Hin; [specialize (He g v a Hin Hk)|specialize (He' g v a Hin Hk)]; congruence. }
  assert (Heq : base.filter P1 (attrs db') = base.filter P2 (attrs db)).
  { apply map_eq. intros [g v]. apply option_eq. intros a. rewrite !map_lookup_filter_Some. unfold P1, P2.
    split; intros [Hk Hc]; pose proof (candidate_ext _ _ _ _ Hc) as Hid; simpl in Hid;
      assert (Hg : g ∉ T) by eauto; rewrite (ag_attrs _ _ _ Ha) in * by done;
      rewrite (candidate_agree T sc db db') in * by done; done. }
  rewrite Heq. f_equal. f_equal. apply map_ext_in. intros [[g v] a] Hin%list_elem_of_In%elem_of_map_to_list.
  apply map_lookup_filter_Some in Hin as [Hk Hc%candidate_ext]. unfold timed. simpl. rewrite (alive_agree T db db'); eauto.
Qed.

(** ** What the steps change *)

Lemma attr_key_geoid sc g r key : attr_key sc g r = Some key -> key.1 = g.
Proof. unfold attr_key. destruct (sc_validity sc), r; simpl; intros; by simplify_eq. Qed.

Lemma put_agree sc key (p : plan_t) db : agree_off {[key.1]} db (put_item sc key p db).
Proof.
  destruct key as [g0 v0]. constructor; simpl; intros.
  - rewrite lookup_insert_ne; set_solver.
  - rewrite lookup_insert_ne; [done|]. intros [= ??]. set_solver.
  - rewrite lookup_insert_ne; set_solver.
Qed.

Lemma put_comm sc key key' (p q : plan_t) db :
  key.1 <> key'.1 -> put_item sc key p (put_item sc key' q db) = put_item sc key' q (put_item sc key p db).
Proof.
  intros Hne. assert (key <> key') by congruence. unfold put_item, upsert_geom, upsert_attr, put_hub. simpl.
  rewrite !lookup_insert_ne by congruence. f_equal; by apply insert_insert_ne.
Qed.

Lemma mapM_from {X Y} (f : X -> option Y) l k y : mapM f l = Some k -> y ∈ k -> exists x, x ∈ l /\ f x = Some y.
Proof.
  intros Hm%mapM_Some_1. induction Hm as [|x y' l k Hxy _ IH]; [set_solver|].
  intros [->|Hin]%elem_of_cons; [exists x; set_solver|]. destruct (IH Hin) as (x'&?&?). exists x'. set_solver.
Qed.

Lemma other_rows_keep (g g' : string) (v : option vrange) (m : gmap (string * option vrange) (attr_row (D := D))) :
  g' <> g ->
  base.filter (fun kv : (string * option vrange) * attr_row => kv.1.1 <> g) m !! (g', v) = m !! (g', v).
Proof. intros Hne. apply option_eq. intros a. rewrite map_lookup_filter_Some. simpl. tauto. Qed.

(** The rows an expiry leaves are rows of the geoid, with another validity. *)
Lemma expire_rows_from (g : string) (t : Z) (m : gmap (string * option vrange) (attr_row (D := D)))
    (rows : list ((string * option vrange) * attr_row)) (kv : (string * option vrange) * attr_row) :
  mapM (expire_row t) (map_to_list (base.filter (fun kv : (string * option vrange) * attr_row (D := D) => kv.1.1 = g) m)) = Some rows ->
  kv ∈ rows -> kv.1.1 = g /\ exists v, m !! (g, v) = Some kv.2.
Proof.
  intros Hm Hin. destruct (mapM_from _ _ _ _ Hm Hin) as ([[g0 v] a]&Hin0&He).
  apply elem_of_map_to_list, map_lookup_filter_Some in Hin0 as [Hk Hg]. simpl in Hg. subst g0.
  unfold expire_row in He. simpl in He. destruct v as [r|]; [|simplify_eq; eauto].
  destruct (mk_range (range_lower r) (Some t)); simplify_eq/=. eauto.
Qed.

Lemma expire_put sc g t key (p : plan_t) db :
  key.1 <> g ->
  expire_version sc g t (put_item sc key p db) =
    match expire_version sc g t db with inr db' => inr (put_item sc key p db') | inl e => inl e end.
Proof.
  intros Hne. unfold expire_version. destruct (sc_validity sc); [|done].
  cbn [put_item upsert_geom upsert_attr put_hub attrs hub geoms].
  rewrite map_filter_insert_not by (simpl; done). rewrite map_filter_insert_True by (simpl; done).
  destruct (mapM (expire_row t) _) as [rows|] eqn:Hrows; [|done].
  destruct (bool_decide _); [|done]. f_equal. unfold put_item, upsert_geom, upsert_attr, put_hub. simpl.
  assert (Hnone : (list_to_map rows : gmap _ (attr_row (D := D))) !! key = None).
  { apply not_elem_of_list_to_map_1. intros (kv&->&Hin)%list_elem_of_fmap.
    by destruct (expire_rows_from _ _ _ _ _ Hrows Hin). }
  destruct key as [g' v]. rewrite lookup_union_r by done. rewrite other_rows_keep by done.
  f_equal. by rewrite insert_union_r.
Qed.

Lemma expire_effect sc g t (db db' : db_t) :
  expire_version sc g t db = inr db' ->
  hub db' = hub db /\ geoms db' = geoms db /\ agree_off {[g]} db db' /\
  forall v a, attrs db' !! (g, v) = Some a -> exists v0, attrs db !! (g, v0) = Some a.
Proof.
  unfold expire_version. destruct (sc_validity sc).
  - destruct (mapM (expire_row t) _) as [rows|] eqn:Hrows; [|done]. destruct (bool_decide _); [|done].
    intros [= <-]. simpl. split_and!; [done|done| |].
    + constructor; simpl; [done| |done]. intros g' v Hg'.
      rewrite lookup_union_r; [apply other_rows_keep; set_solver|].
      apply not_elem_of_list_to_map_1. intros (kv&Heq&Hin)%list_elem_of_fmap.
      destruct (expire_rows_from _ _ _ _ _ Hrows Hin) as [Hg _]. rewrite <- Heq in Hg. simpl in Hg. set_solver.
    + intros v a [Hl|[_ Hr]]%lookup_union_Some_raw.
      * apply elem_of_list_to_map_2 in Hl. destruct (expire_rows_from _ _ _ _ _ Hrows Hl) as [_ ?]. eauto.
      * by apply map_lookup_filter_Some in Hr as [_ ?].
  - intros [= <-]. split_and!; [done|done|apply agree_refl|eauto].
Qed.

(** ** Identity by external id *)

Lemma latest_in {K} (l : list (K * Z)) k : latest l = Some k -> exists t, (k, t) ∈ l.
Proof.
  unfold latest. intros H.
  assert (Hf : forall (l : list (K * Z)) (best : option (K * Z)), match fold_left later l best with
                              | Some m => best = Some m \/ m ∈ l | None => best = None end).
  { clear. induction l as [|x l IH]; intros best; simpl; [destruct best; auto|].
    specialize (IH (later best x)). destruct (fold_left later l (later best x)) as [m|].
    - destruct IH as [IH|IH]; [|set_solver]. destruct best as [b|]; simpl in IH; [case_match|]; simplify_eq; set_solver.
    - destruct best as [b|]; simpl in IH; [case_match|]; done. }
  specialize (Hf l None). destruct (fold_left later l None) as [[k' t]|]; simplify_eq/=.
  destruct Hf as [?|?]; [done|]. eauto.
Qed.

(** A match is a live row of the external id and, with validity, its open version. *)
Lemma resolve_ext_found sc (db : db_t) id f :
  resolve_ext sc db id = Some f ->
  exists v a, attrs db !! (f_geoid f, v) = Some a /\ a_ext a = Some id /\ is_Some (hub db !! f_geoid f) /\
    f_valid f = (if sc_validity sc then v else None) /\
    (sc_validity sc = true -> forall r, v = Some r -> range_upper r = None).
Proof.
  unfold resolve_ext. destruct (latest _) as [[g v]|] eqn:Hl; [|done]. intros [= <-]. simpl.
  apply latest_in in Hl as (t&Hin). apply list_elem_of_fmap in Hin as ([[g' v'] a]&Heq&Hin).
  unfold timed in Heq. simpl in Heq. simplify_eq.
  apply elem_of_map_to_list, map_lookup_filter_Some in Hin as [Hk Hc]. unfold ext_candidate in Hc. simpl in Hc.
  apply andb_prop in Hc as [[[Hid Ha]%andb_prop Hgm]%andb_prop Hv]. apply bool_decide_eq_true in Hid.
  exists v', a. split_and!; [done|done| |done|].
  - unfold alive in Ha. destruct (hub db !! g'); [eauto|done].
  - intros Hsc r ->. rewrite Hsc in Hv. simpl in Hv. by destruct (range_upper r).
Qed.

Definition ext_rules (rules : list ResolvedIdentityRule) : Prop :=
  Forall (fun r => rr_match_on r = [EXTERNAL_ID]) rules.
Definition ext_found (sc : sidecars) (db : db_t) (p : plan_t) : option found :=
  id ← stored_ext sc p; resolve_ext sc db id.

Abbreviation resolve_existing_item' := (resolve_existing_item hash_of ghash ahash).
Abbreviation resolve_identity' := (resolve_identity hash_of ghash ahash).
Abbreviation iou := (insert_or_update hash_of ghash ahash).

Lemma resolve_external sc db p : resolve_existing_item' sc db EXTERNAL_ID p = ext_found sc db p.
Proof. unfold ext_found, stored_ext. simpl. by destruct (sc_external_id sc). Qed.

Lemma resolve_identity_ext sc db rules p :
  ext_rules rules ->
  resolve_identity' sc db rules p = f ← ext_found sc db p; r ← head rules; Some (f, r).
Proof.
  induction 1 as [|r rules Hr _ IH]; simpl; [by destruct (ext_found sc db p)|].
  unfold resolve_rule. rewrite Hr. cbn [mapM]. rewrite resolve_external.
  destruct (ext_found sc db p) as [f|] eqn:Hf; simpl; [done|]. by rewrite IH.
Qed.

(** ** The effect of one upsert *)

Lemma insert_inv sc (p : plan_t) db db' :
  insert_item sc p db = inr db' ->
  hub db !! p_geoid p = None /\
  exists key, attr_key sc (p_geoid p) (new_validity sc p) = Some key /\ key.1 = p_geoid p /\ db' = put_item sc key p db.
Proof.
  unfold insert_item. destruct (hub db !! p_geoid p); [done|].
  destruct (attr_key sc _ _) as [key|] eqn:Hk; [|done]. intros [= <-]. split; [done|].
  exists key. by rewrite (attr_key_geoid _ _ _ _ Hk).
Qed.

Lemma put_ok sc key (p : plan_t) db :
  db_ok db ->
  (forall v a, attrs db !! (key.1, v) = Some a -> stored_ext sc p = a_ext a) ->
  db_ok (put_item sc key p db) /\ ext_on {[key.1]} (stored_ext sc p) (put_item sc key p db).
Proof.
  intros [Hh He] Hk. destruct key as [g0 v0]. simpl in *.
  assert (Hon : ext_on {[g0]} (stored_ext sc p) (put_item sc (g0, v0) p db)).
  { intros g v a Hg. apply elem_of_singleton in Hg as ->. simpl.
    intros [[_ <-]|[_ Ha]]%lookup_insert_Some; [|by rewrite (Hk v a Ha)]. simpl.
    destruct (stored_ext sc p) eqn:Hs; [done|]. destruct (attrs db !! (g0, v0)) as [old|] eqn:Ho; [|done].
    simpl. by rewrite (Hk v0 old Ho). }
  split; [|done]. constructor.
  - simpl. intros g v a [[? _]|[_ Ha]]%lookup_insert_Some; [simplify_eq; rewrite lookup_insert_eq; eauto|].
    destruct (decide (g0 = g)) as [->|]; [rewrite lookup_insert_eq; eauto|]. rewrite lookup_insert_ne by done. eauto.
  - intros g v v' a a' Ha Ha'. destruct (decide (g = g0)) as [->|Hne].
    + rewrite (Hon g0 v a), (Hon g0 v' a'); set_solver.
    + pose proof (put_agree sc (g0, v0) p db) as [_ Hag _]. simpl in Hag.
      rewrite Hag in Ha, Ha' by set_solver. eauto.
Qed.

(** A fresh geoid has no rows. *)
Lemma fresh_no_attrs db g v : db_ok db -> hub db !! g = None -> attrs db !! (g, v) = None.
Proof.
  intros Hok Hh. destruct (attrs db !! (g, v)) eqn:Ha; [|done]. apply (ok_hub _ Hok) in Ha as [? ?]. congruence.
Qed.

(** What a step on [p] may do to the tables. *)
Record step_effect (e : option string) (geoid : string) (db db' : db_t) : Prop := {
  se_ok : db_ok db';
  se_T : exists T, agree_off T db db' /\ ext_on T e db /\ ext_on T e db' /\
    forall g, g ∈ T -> g = geoid \/ is_Some (hub db !! g);
}.

Lemma insert_effect sc p (db db' : db_t) :
  db_ok db -> insert_item sc p db = inr db' -> step_effect (stored_ext sc p) (p_geoid p) db db'.
Proof.
  intros Hok (Hn&key&_&Hkg&->)%insert_inv.
  assert (Hno : forall v a, attrs db !! (key.1, v) = Some a -> stored_ext sc p = a_ext a).
  { intros v a. by rewrite Hkg, fresh_no_attrs. }
  destruct (put_ok sc key p db Hok Hno) as [Hok' Hon]. split; [done|].
  exists {[key.1]}. split_and!; [apply put_agree| |done|set_solver].
  intros g v a Hg%elem_of_singleton. subst g. rewrite Hkg. by rewrite fresh_no_attrs.
Qed.

Lemma expire_ok sc id g t (db db' : db_t) :
  db_ok db -> (forall v a, attrs db !! (g, v) = Some a -> a_ext a = Some id) -> is_Some (hub db !! g) ->
  expire_version sc g t db = inr db' -> db_ok db' /\ ext_on {[g]} (Some id) db'.
Proof.
  intros Hok Hid Hg (Hh&_&[_ Hag _]&Hrows)%expire_effect.
  assert (Hon : ext_on {[g]} (Some id) db').
  { intros g' v a Hg'%elem_of_singleton Ha. subst g'. apply Hrows in Ha as [v0 ?]. eauto. }
  split; [|done]. constructor.
  - intros g' v a Ha. rewrite Hh. destruct (decide (g' = g)) as [->|]; [done|].
    rewrite Hag in Ha by set_solver. by eapply ok_hub.
  - intros g' v v' a a' Ha Ha'. destruct (decide (g' = g)) as [->|].
    + rewrite (Hon g v a), (Hon g v' a'); set_solver.
    + rewrite Hag in Ha, Ha' by set_solver. by eapply ok_ext.
Qed.

(** ** Upserts by external id *)

Section by_external_id.
Context (sc : sidecars) (wp : option ItemsWritePolicy) (now : Z) (rules : list ResolvedIdentityRule).
Context (Hrules : rules_of wp = Some rules) (Hext : ext_rules rules).

Lemma iou_eq p (db : db_t) :
  p_refused_by p = None ->
  iou sc wp now p db =
    match decide_action wp (resolve_identity' sc db rules p) with
    | AConflict => inl ConflictError
    | AEcho g => inr (Some (Echo g), db)
    | AReject g => inl (SidecarRejected (Some g) "write_policy_refuse")
    | AInsert => match insert_item sc p db with inl e => inl e | inr db => inr (Some (Row (p_geoid p)), db) end
    | AArchiveInsert f =>
        match expire_version sc (f_geoid f) (default (p_time p) (p_from p)) db with
        | inl e => inl e
        | inr db => match insert_item sc p db with inl e => inl e | inr db => inr (Some (Row (p_geoid p)), db) end
        end
    | AUpdate f => if p_update_ok p then update_item sc now f p db else inl UpdateRejected
    end.
Proof. intros Hr. unfold insert_or_update. by rewrite Hr, Hrules. Qed.

(** The matched row of a conflict action. *)
Definition action_found (a : action) : option found :=
  match a with AArchiveInsert f | AUpdate f => Some f | _ => None end.

Lemma action_found_ext p (db : db_t) f :
  action_found (decide_action wp (resolve_identity' sc db rules p)) = Some f -> ext_found sc db p = Some f.
Proof.
  rewrite resolve_identity_ext by done. destruct (ext_found sc db p) as [f'|]; [|done].
  destruct (head rules) as [r|]; [|done]. simpl. destruct (match wp with Some _ => _ | None => _ end); [done|].
  destruct (effective_on_conflict wp (Some r)); simpl; congruence.
Qed.

(** The row a feature matches is in the hub, and every version of it has the external
    id of the feature. *)
Lemma ext_found_rows p (db : db_t) f :
  db_ok db -> ext_found sc db p = Some f ->
  is_Some (hub db !! f_geoid f) /\ is_Some (stored_ext sc p) /\
  forall v a, attrs db !! (f_geoid f, v) = Some a -> a_ext a = stored_ext sc p.
Proof.
  intros Hok. unfold ext_found. destruct (stored_ext sc p) as [id|]; [|done]. simpl. intros Hf.
  destruct (resolve_ext_found _ _ _ _ Hf) as (v&a&Ha&Hid&Hh&_). split_and!; [done|done|].
  intros v' a' Ha'. rewrite <- Hid. by eapply ok_ext.
Qed.

Lemma expire_insert_effect p (db db1 db2 : db_t) f t :
  db_ok db -> ext_found sc db p = Some f -> expire_version sc (f_geoid f) t db = inr db1 ->
  insert_item sc p db1 = inr db2 -> step_effect (stored_ext sc p) (p_geoid p) db db2.
Proof.
  intros Hok Hf He Hi. destruct (ext_found_rows _ _ _ Hok Hf) as (Hh&[id Hid]&Hv).
  rewrite Hid in Hv. destruct (expire_ok _ _ _ _ _ _ Hok Hv Hh He) as [Hok1 Hon1].
  destruct (insert_effect _ _ _ _ Hok1 Hi) as [Hok2 (T&Ha2&He1&He2&HT)].
  destruct (expire_effect _ _ _ _ _ He) as (Hhub&_&Ha1&_). split; [done|]. exists ({[f_geoid f]} ∪ T).
  rewrite Hid in *. split_and!.
  - by eapply agree_trans.
  - intros g v a Hg Ha. destruct (decide (g = f_geoid f)) as [->|Hne]; [by eapply Hv|].
    apply (He1 g v); [set_solver|]. by rewrite (ag_attrs _ _ _ Ha1) by set_solver.
  - intros g v a Hg Ha. destruct (decide (g ∈ T)) as [|Hn]; [by eapply He2|].
    apply (Hon1 g v); [set_solver|]. by rewrite <- (ag_attrs _ _ _ Ha2).
  - intros g [->%elem_of_singleton|Hg]%elem_of_union; [by right|]. rewrite <- Hhub. by apply HT.
Qed.

Lemma update_effect p (db db' : db_t) f r :
  db_ok db -> ext_found sc db p = Some f -> update_item sc now f p db = inr (r, db') ->
  step_effect (stored_ext sc p) (p_geoid p) db db' /\ is_Some r.
Proof.
  intros Hok Hf. destruct (ext_found_rows _ _ _ Hok Hf) as ([h Hh]&_&Hv). unfold update_item. rewrite Hh.
  destruct (attr_key sc _ _) as [key|] eqn:Hk; [|done]. intros [= <- <-]. apply attr_key_geoid in Hk. split; [|by eexists].
  assert (Hv' : forall v a, attrs db !! (key.1, v) = Some a -> stored_ext sc p = a_ext a) by (rewrite Hk; naive_solver).
  destruct (put_ok sc key p db Hok Hv') as [Hok' Hon]. split; [done|]. exists {[key.1]}.
  split_and!; [apply put_agree| |done|].
  - intros g v a ->%elem_of_singleton Ha. symmetry. by eapply Hv'.
  - intros g ->%elem_of_singleton. right. rewrite Hk. eauto.
Qed.

Lemma iou_effect p (db db' : db_t) r :
  db_ok db -> iou sc wp now p db = inr (r, db') ->
  step_effect (stored_ext sc p) (p_geoid p) db db' /\ is_Some r.
Proof.
  intros Hok. destruct (p_refused_by p) eqn:Href; [unfold insert_or_update; by rewrite Href|].
  rewrite iou_eq by done. pose proof (action_found_ext p db) as Hf. destruct (decide_action wp _) as [g|g| | |f|f].
  - done.
  - intros [= <- <-]. split; [|by eexists]. split; [done|]. exists ∅. split_and!; [apply agree_refl|by intros g' v a ?%elem_of_empty..|by intros g' ?%elem_of_empty].
  - done.
  - destruct (insert_item sc p db) eqn:Hi; [done|]. intros [= <- <-]. split; [by eapply insert_effect|by eexists].
  - destruct (expire_version _ _ _ _) eqn:He; [done|]. destruct (insert_item sc p _) eqn:Hi; [done|].
    intros [= <- <-]. split; [|by eexists]. eapply expire_insert_effect; eauto.
  - destruct (p_update_ok p); [|done]. intros Hu. eapply update_effect; eauto.
Qed.

(** A step leaves fresh geoids fresh and the matches of other external ids as they are. *)
Lemma effect_fresh e g0 (db db' : db_t) g :
  step_effect e g0 db db' -> g <> g0 -> hub db !! g = None -> hub db' !! g = None.
Proof.
  intros [_ (T&Ha&_&_&HT)] Hne Hg. rewrite (ag_hub _ _ _ Ha); [done|].
  intros [->|[? ?]]%HT; congruence.
Qed.

Lemma effect_resolve e g0 (db db' : db_t) q :
  step_effect e g0 db db' -> (forall id, stored_ext sc q = Some id -> e <> Some id) ->
  resolve_identity' sc db' rules q = resolve_identity' sc db rules q.
Proof.
  intros [_ (T&Ha&He&He'&_)] Hne. rewrite !resolve_identity_ext by done. unfold ext_found.
  destruct (stored_ext sc q) as [id|] eqn:Hq; [|done]. simpl. by rewrite (resolve_ext_local T e sc db db') by eauto.
Qed.

(** An insert of another feature commutes with an upsert. *)
Lemma insert_put key (p q : plan_t) (db : db_t) :
  key.1 <> p_geoid q ->
  insert_item sc q (put_item sc key p db) =
    match insert_item sc q db with inr db' => inr (put_item sc key p db') | inl e => inl e end.
Proof.
  intros Hne. unfold insert_item. cbn [put_item upsert_geom upsert_attr put_hub hub].
  rewrite lookup_insert_ne by done. destruct (hub db !! p_geoid q); [done|].
  destruct (attr_key sc _ _) as [key'|] eqn:Hk; [|done]. f_equal. apply put_comm.
  by rewrite (attr_key_geoid _ _ _ _ Hk).
Qed.

Lemma update_put key (p q : plan_t) (db : db_t) f :
  key.1 <> f_geoid f ->
  update_item sc now f q (put_item sc key p db) =
    match update_item sc now f q db with inr (r, db') => inr (r, put_item sc key p db') | inl e => inl e end.
Proof.
  intros Hne. unfold update_item. cbn [put_item upsert_geom upsert_attr put_hub hub].
  rewrite lookup_insert_ne by done. destruct (hub db !! f_geoid f); [|done].
  destruct (attr_key sc _ _) as [key'|] eqn:Hk; [|done]. do 2 f_equal. apply put_comm.
  by rewrite (attr_key_geoid _ _ _ _ Hk).
Qed.

Definition apart (p q : plan_t) : Prop :=
  p_geoid p <> p_geoid q /\ forall id, stored_ext sc q = Some id -> stored_ext sc p <> Some id.

Lemma iou_insert p q (db dbp : db_t) :
  db_ok db -> insert_item sc p db = inr dbp -> apart p q ->
  match iou sc wp now q db, iou sc wp now q dbp with
  | inl e, inl e' => e = e'
  | inr (r, db'), inr (r', dbp') => r = r' /\ insert_item sc p db' = inr dbp'
  | _, _ => False
  end.
Proof.
  intros Hok Hi [Hne Hex]. pose proof (insert_effect _ _ _ _ Hok Hi) as He.
  assert (Hres : resolve_identity' sc dbp rules q = resolve_identity' sc db rules q) by by eapply effect_resolve.
  assert (Hfresh : forall r db', iou sc wp now q db = inr (r, db') -> hub db' !! p_geoid p = None).
  { intros r db' Hq. apply iou_effect in Hq as [Hq _]; [|done]. eapply effect_fresh; [done..|]. by apply insert_inv in Hi as [? _]. }
  destruct (p_refused_by q) eqn:Href; [unfold insert_or_update; by rewrite Href|].
  apply insert_inv in Hi as (Hn&key&Hkey&Hkg&->).
  assert (Hins : forall db' : db_t, hub db' !! p_geoid p = None -> insert_item sc p db' = inr (put_item sc key p db')).
  { intros db' Hn'. unfold insert_item. by rewrite Hn', Hkey. }
  assert (Hf : forall f, action_found (decide_action wp (resolve_identity' sc db rules q)) = Some f -> key.1 <> f_geoid f).
  { intros f Hf%action_found_ext. apply ext_found_rows in Hf as ([h Hh]&_); [|done]. rewrite Hkg. congruence. }
  revert Hfresh. rewrite !iou_eq, Hres by done. destruct (decide_action wp _) as [g|g| | |f|f]; intros Hfresh.
  - done.
  - by split; [|eauto].
  - done.
  - rewrite insert_put by congruence. destruct (insert_item sc q db); [done|]. split; eauto.
  - rewrite expire_put by eauto. destruct (expire_version _ _ _ db); [done|].
    rewrite insert_put by congruence. destruct (insert_item sc q _); [done|]. split; eauto.
  - destruct (p_update_ok q); [|done]. rewrite update_put by eauto.
    destruct (update_item sc now f q db) as [|[r db']]; [done|]. split; eauto.
Qed.

Definition to_insert (s : slot (D := D) (G := G)) : option plan_t := match s with SInsert p => Some p | _ => None end.

Lemma iou_insert_all q slots (db db1 : db_t) :
  db_ok db -> Forall (fun p => apart p q) (omap to_insert slots) -> insert_all sc slots db = inr db1 ->
  match iou sc wp now q db, iou sc wp now q db1 with
  | inl e, inl e' => e = e'
  | inr (r, db'), inr (r', db1') => r = r' /\ insert_all sc slots db' = inr db1'
  | _, _ => False
  end.
Proof.
  revert db. induction slots as [|s slots IH]; intros db Hok Hap Hi.
  - simpl in Hi. simplify_eq. destruct (iou sc wp now q db1) as [|[r db']]; simpl; auto.
  - destruct s as [r j|p|p]; simpl in Hap, Hi |- *; [by apply IH| |by apply IH].
    apply Forall_cons in Hap as [Hpq Hap]. destruct (insert_item sc p db) as [|dbp] eqn:Hip; [done|].
    pose proof (insert_effect _ _ _ _ Hok Hip) as [Hokp _].
    pose proof (iou_insert _ _ _ _ Hok Hip Hpq) as Hstep. specialize (IH dbp Hokp Hap Hi).
    destruct (iou sc wp now q db) as [e|[r db']], (iou sc wp now q dbp) as [e'|[r' dbp']]; try done.
    + subst e'. done.
    + destruct Hstep as [<- Hip']. destruct (iou sc wp now q db1) as [|[r'' db1']]; [done|]. destruct IH as [<- Hall]. by rewrite Hip'.
Qed.

(** Features of a batch with their own geoids and external ids. *)
Record distinct (plans : list plan_t) (db : db_t) : Prop := {
  d_geoid : NoDup (map p_geoid plans);
  d_ext : NoDup (omap (stored_ext sc) plans);
  d_fresh : Forall (fun p => hub db !! p_geoid p = None) plans;
}.

Lemma distinct_cons p plans db :
  distinct (p :: plans) db -> distinct plans db /\ Forall (fun q => apart p q /\ apart q p) plans.
Proof.
  intros [[Hn Hg]%NoDup_cons He [Hf Hfs]%Forall_cons].
  assert (HeT : NoDup (omap (stored_ext sc) plans)) by (simpl in He; destruct (stored_ext sc p); [by apply NoDup_cons in He as [_ ?]|done]).
  split; [done|]. apply Forall_forall. intros q Hq.
  assert (Hgq : p_geoid q <> p_geoid p) by (intros Heq; apply Hn; rewrite <- Heq; apply list_elem_of_fmap; eauto).
  assert (Hpq : forall id, stored_ext sc q = Some id -> stored_ext sc p = Some id -> False).
  { intros id H1 H2. simpl in He. rewrite H2 in He. apply NoDup_cons in He as [Hni _]. apply Hni, list_elem_of_omap. eauto. }
  split; split; try congruence; intros id H1 H2; eauto.
Qed.

Lemma distinct_step e g0 plans db db' :
  distinct plans db -> step_effect e g0 db db' -> Forall (fun q => p_geoid q <> g0) plans -> distinct plans db'.
Proof.
  intros [Hg He Hf] Hs Hne. split; [done|done|]. apply Forall_forall. intros q Hq.
  rewrite Forall_forall in Hf, Hne. eapply effect_fresh; eauto.
Qed.

(** The matches [m] of the pending features are those of the tables. *)
Definition current (m : plan_t -> option (found * ResolvedIdentityRule)) (plans : list plan_t) (db : db_t) : Prop :=
  forall p, p ∈ plans -> p_refused_by p = None -> m p = resolve_identity' sc db rules p.

Lemma current_step m e g0 plans db db' :
  current m plans db -> step_effect e g0 db db' ->
  Forall (fun q => forall id, stored_ext sc q = Some id -> e <> Some id) plans -> current m plans db'.
Proof.
  intros Hm Hs Hne q Hq Hr. rewrite Forall_forall in Hne. rewrite (Hm q Hq Hr). symmetry. eapply effect_resolve; [done|]. by apply Hne.
Qed.

Lemma classify_inserts m plans slots p :
  classify_all wp m plans = inr slots -> p ∈ omap to_insert slots -> p ∈ plans.
Proof.
  revert slots. induction plans as [|q plans IH]; simpl; intros slots Hc; [simplify_eq; set_solver|].
  destruct (classify wp m q) as [|s] eqn:Hq; [done|]. destruct (classify_all wp m plans) as [|ss]; [done|].
  simplify_eq. simpl. specialize (IH ss eq_refl).
  assert (Hs : forall p', to_insert s = Some p' -> p' = q).
  { unfold classify in Hq. destruct (p_refused_by q); [by simplify_eq|].
    destruct (decide_action wp (m q)); simplify_eq; simpl; congruence. }
  destruct (to_insert s) as [p'|]; [|set_solver]. rewrite (Hs p' eq_refl). set_solver.
Qed.

Lemma apart_inserts m p plans slots :
  classify_all wp m plans = inr slots -> Forall (fun q => apart p q /\ apart q p) plans ->
  Forall (fun q => apart q p) (omap to_insert slots).
Proof.
  intros Hc Hap. rewrite Forall_forall in *. intros q Hq.
  destruct (Hap q); [by eapply classify_inserts|done].
Qed.

(** What the per-row path makes of a batch the batch path has written. *)
Definition rows_follow (plans : list plan_t) (slots : list (slot (D := D) (G := G))) (db : db_t) (u : write_error + (list (option written) * db_t)) : Prop :=
  match u with
  | inr (rs, db2) => exists rj, write_rows hash_of ghash ahash sc wp now plans db = inr (mkBatch rs rj db2) /\
                                rj ≡ₚ omap sidecar_rejection plans ++ omap slot_rejection slots
  | inl ConflictError => exists e, write_rows hash_of ghash ahash sc wp now plans db = inl e
  | inl _ => True
  end.

(** A feature ahead of a batch: the rest is still classified as it was. *)
Lemma ahead m p plans db db' r :
  db_ok db -> distinct (p :: plans) db -> current m (p :: plans) db -> iou sc wp now p db = inr (r, db') ->
  db_ok db' /\ distinct plans db' /\ current m plans db' /\ is_Some r.
Proof.
  intros Hok Hd Hm Hi. destruct (distinct_cons _ _ _ Hd) as [Hd' Hap].
  destruct (iou_effect _ _ _ _ Hok Hi) as [Hs Hr].
  split_and!; [apply Hs| | |done].
  - eapply distinct_step; [done|done|]. eapply Forall_impl; [exact Hap|]. intros q [[Hne _] _]. congruence.
  - eapply current_step; [|done|].
    + intros q Hq. apply Hm. set_solver.
    + eapply Forall_impl; [exact Hap|]. by intros q [[_ Hex] _].
Qed.

Lemma ahead_same m p plans db :
  distinct (p :: plans) db -> current m (p :: plans) db -> distinct plans db /\ current m plans db.
Proof. intros Hd Hm. split; [by apply distinct_cons in Hd as [? _]|]. intros q Hq. apply Hm. set_solver. Qed.

(** A conflict found in the batch is one the rows run into, if nothing stops them
    before. *)
Lemma conflict_rows m plans db e :
  db_ok db -> distinct plans db -> current m plans db -> classify_all wp m plans = inl e ->
  exists e', write_rows hash_of ghash ahash sc wp now plans db = inl e'.
Proof.
  revert db. induction plans as [|p plans IH]; intros db Hok Hd Hm Hc; [done|]. simpl in Hc.
  destruct (ahead_same _ _ _ _ Hd Hm) as [Hd0 Hm0]. simpl.
  assert (Hp : iou sc wp now p db = inl ConflictError \/ classify_all wp m plans = inl e).
  { destruct (classify wp m p) eqn:Hcp; [|right; destruct (classify_all wp m plans); by simplify_eq].
    left. unfold classify in Hcp. destruct (p_refused_by p) eqn:Hr; [done|].
    rewrite iou_eq by done. rewrite <- Hm by (done || set_solver). by destruct (decide_action wp (m p)). }
  destruct Hp as [->|Hrest]; [eauto|].
  destruct (iou sc wp now p db) as [e0|[r db']] eqn:Hi.
  - destruct e0; eauto. destruct (IH db Hok Hd0 Hm0 Hrest) as [e' ->]. eauto.
  - destruct (ahead _ _ _ _ _ _ Hok Hd Hm Hi) as (Hok'&Hd'&Hm'&[w ->]).
    destruct (IH db' Hok' Hd' Hm' Hrest) as [e' ->]. eauto.
Qed.

Lemma follow_rejected p plans slots (db db1 : db_t) g reason j :
  iou sc wp now p db = inl (SidecarRejected g reason) ->
  option_list (sidecar_rejection p) ++ option_list j = [mkRej (default (p_geoid p) g) (p_ext p) reason] ->
  rows_follow plans slots db (update_all hash_of ghash ahash sc wp now slots db1) ->
  rows_follow (p :: plans) (SDone None j :: slots) db (update_all hash_of ghash ahash sc wp now (SDone None j :: slots) db1).
Proof.
  intros Hi Hj Hf. simpl. unfold rows_follow in *. simpl. rewrite Hi.
  destruct (update_all _ _ _ sc wp now slots db1) as [e|[rs db2]].
  - destruct e; try done. destruct Hf as [e ->]. eauto.
  - destruct Hf as (rj&->&Hperm). eexists. split; [done|]. simpl. rewrite Hperm.
    destruct (sidecar_rejection p), j; simplify_eq/=; [done|]. by rewrite Permutation_middle.
Qed.

Lemma follow_step p plans s slots (db db' db1 db1' : db_t) w :
  iou sc wp now p db = inr (Some w, db') ->
  match s with
  | SDone r _ => inr (r, db1)
  | SInsert p => inr (Some (Row (p_geoid p)), db1)
  | SUpdate p => iou sc wp now p db1
  end = inr (Some w, db1') ->
  sidecar_rejection p = None -> slot_rejection s = None ->
  rows_follow plans slots db' (update_all hash_of ghash ahash sc wp now slots db1') ->
  rows_follow (p :: plans) (s :: slots) db (update_all hash_of ghash ahash sc wp now (s :: slots) db1).
Proof.
  intros Hi Hs Hp Hsr Hf. simpl. rewrite Hs. unfold rows_follow in *. simpl. rewrite Hi, Hp, Hsr.
  destruct (update_all _ _ _ sc wp now slots db1') as [e|[rs db2]].
  - destruct e; try done. destruct Hf as [e ->]. eauto.
  - destruct Hf as (rj&->&Hperm). by eexists.
Qed.

Lemma follow_update p plans m slots (db db1 : db_t) :
  db_ok db -> p_refused_by p = None -> distinct (p :: plans) db -> current m (p :: plans) db ->
  classify_all wp m plans = inr slots -> insert_all sc slots db = inr db1 ->
  (forall db' db1', db_ok db' -> distinct plans db' -> current m plans db' -> insert_all sc slots db' = inr db1' ->
     rows_follow plans slots db' (update_all hash_of ghash ahash sc wp now slots db1')) ->
  rows_follow (p :: plans) (SUpdate p :: slots) db (update_all hash_of ghash ahash sc wp now (SUpdate p :: slots) db1).
Proof.
  intros Hok Hr Hd Hm Hcs Hi IH. destruct (distinct_cons _ _ _ Hd) as [_ Hap].
  pose proof (iou_insert_all p slots db db1 Hok (apart_inserts _ _ _ _ Hcs Hap) Hi) as Hcomm.
  destruct (iou sc wp now p db) as [e|[r db']] eqn:Hp, (iou sc wp now p db1) as [e'|[r' db1']] eqn:Hp1; try done.
  - subst e'. simpl. rewrite Hp1. destruct e; try done. unfold rows_follow. simpl. rewrite Hp. eauto.
  - destruct Hcomm as [<- Hi']. destruct (ahead _ _ _ _ _ _ Hok Hd Hm Hp) as (Hok'&Hd'&Hm'&[w ->]).
    eapply follow_step; eauto. unfold sidecar_rejection. by rewrite Hr.
Qed.

Lemma batch_rows m plans slots (db db1 : db_t) :
  db_ok db -> distinct plans db -> current m plans db -> classify_all wp m plans = inr slots ->
  insert_all sc slots db = inr db1 ->
  rows_follow plans slots db (update_all hash_of ghash ahash sc wp now slots db1).
Proof.
  revert slots db db1. induction plans as [|p plans IH]; intros slots db db1 Hok Hd Hm Hc Hi.
  { simpl in Hc. simplify_eq. simpl in *. simplify_eq. by exists []. }
  simpl in Hc. destruct (classify wp m p) as [|s] eqn:Hcp; [done|].
  destruct (classify_all wp m plans) as [|ss] eqn:Hcs; [done|]. simplify_eq.
  destruct (ahead_same _ _ _ _ Hd Hm) as [Hd0 Hm0]. unfold classify in Hcp.
  destruct (p_refused_by p) as [by_|] eqn:Hr.
  { simplify_eq. eapply follow_rejected; [by unfold insert_or_update; rewrite Hr|by unfold sidecar_rejection; rewrite Hr|].
    by apply IH. }
  assert (Hsr : sidecar_rejection p = None) by (unfold sidecar_rejection; by rewrite Hr).
  pose proof (iou_eq p db Hr) as Hp. rewrite <- (Hm p) in Hp by (done || set_solver).
  destruct (decide_action wp (m p)) as [g|g| | |f|f] eqn:Hact; simplify_eq; simpl in Hi.
  - eapply follow_rejected; [done|by rewrite Hsr|by apply IH].
  - eapply follow_step; [done|done|done|done|by apply IH].
  - destruct (insert_item sc p db) as [|dbp] eqn:Hip; [done|].
    destruct (ahead _ _ _ _ _ _ Hok Hd Hm Hp) as (Hok'&Hd'&Hm'&_). by eapply follow_step; eauto.
  - by eapply follow_update; eauto.
  - by eapply follow_update; eauto.
Qed.

(** ** The bulk lookup *)

Lemma bulk_lookup_spec resolve (keys : list string) k :
  k ∈ keys -> bulk_lookup resolve keys !! k = resolve k.
Proof.
  unfold bulk_lookup. induction keys as [|k0 keys IH]; [set_solver|]. intros [->|Hin]%elem_of_cons; simpl.
  - destruct (resolve k0) as [f|] eqn:Hr; simpl; [by rewrite lookup_insert_eq|].
    destruct (list_to_map _ !! k0) as [f|] eqn:Hl; [|done]. apply elem_of_list_to_map_2, list_elem_of_omap in Hl as (k&_&Hk).
    destruct (resolve k) eqn:Hrk; simplify_eq/=.
  - destruct (resolve k0) as [f|] eqn:Hr; simpl; [|by apply IH].
    destruct (decide (k0 = k)) as [->|]; [by rewrite lookup_insert_eq|]. rewrite lookup_insert_ne by done. by apply IH.
Qed.

Lemma batch_identity_ext exts hashes rs (p : plan_t) :
  ext_rules rs ->
  batch_identity exts hashes rs p = f ← batch_field exts hashes p EXTERNAL_ID; r ← head rs; Some (f, r).
Proof.
  induction 1 as [|r rs Hr _ IH]; simpl; [by destruct (truthy_str (p_ext p) ≫= _)|].
  unfold batch_rule. rewrite Hr. cbn [mapM]. simpl in *.
  destruct (id ← truthy_str (p_ext p); exts !! id) as [f|] eqn:Hf; simpl; [done|]. by rewrite IH.
Qed.

Lemma resolve_batch_ext plans db p :
  p ∈ plans -> resolve_batch hash_of ghash ahash sc db rules plans p = resolve_identity' sc db rules p.
Proof.
  intros Hp. unfold resolve_batch. replace (forallb _ rules) with true.
  2:{ symmetry. apply forallb_forall. intros r Hr%list_elem_of_In. pose proof (proj1 (Forall_forall _ _) Hext r Hr) as Hon. simpl in Hon. by rewrite Hon. }
  rewrite batch_identity_ext, resolve_identity_ext by done. f_equal. unfold ext_found, stored_ext, batch_resolve_by_external_id. simpl.
  destruct (truthy_str (p_ext p)) as [id|] eqn:Hid; simpl; [|by destruct (sc_external_id sc)].
  destruct (sc_external_id sc); simpl; [|done].
  apply bulk_lookup_spec, list_elem_of_omap. eauto.
Qed.
End by_external_id.

(** What the two paths have in common: the results, the tables, and the rejections up
    to their order. *)
Definition same_write (r r' : write_error + batch_out (D := D) (G := G)) : Prop :=
  match r, r' with
  | inr o, inr o' => bo_results o = bo_results o' /\ bo_db o = bo_db o' /\ bo_rejections o ≡ₚ bo_rejections o'
  | inl _, inl _ => True
  | _, _ => False
  end.
Lemma same_write_refl r : same_write r r.
Proof. by destruct r. Qed.

Lemma all_refused m wp (plans : list plan_t) :
  List.filter (fun p => match p_refused_by p with None => true | Some _ => false end) plans = [] ->
  classify_all wp m plans = inr (map (fun _ => SDone None None) plans).
Proof.
  induction plans as [|p plans IH]; [done|]. simpl. unfold classify.
  destruct (p_refused_by p); [|done]. intros H. by rewrite IH.
Qed.

Lemma refused_slots sc wp now (plans : list plan_t) (db : db_t) (slots := map (fun _ => SDone None None) plans) :
  insert_all sc slots db = inr db /\ omap slot_rejection slots = [] /\
  update_all hash_of ghash ahash sc wp now slots db = inr (map (fun _ => None) plans, db).
Proof.
  subst slots. induction plans as [|p plans (IH1&IH2&IH3)]; [done|]. simpl. rewrite IH3. by split_and!.
Qed.

Lemma insert_all_error sc slots (db : db_t) e : insert_all sc slots db = inl e -> e = DuplicateKey \/ e = RangeError.
Proof.
  revert db. induction slots as [|s slots IH]; intros db; [done|]. destruct s as [|p|]; simpl; [apply IH| |apply IH].
  destruct (insert_item sc p db) eqn:He; [|apply IH]. unfold insert_item in He.
  destruct (hub db !! _); [|destruct (attr_key _ _ _)]; intros; simplify_eq; auto.
Qed.

Lemma batch_settles sc wp now rules plans db :
  rules_of wp = Some rules -> ext_rules rules -> db_ok db -> distinct sc plans db ->
  match batch_insert_or_update hash_of ghash ahash sc wp now plans db with
  | inr o => same_write (inr o) (write_rows hash_of ghash ahash sc wp now plans db)
  | inl ConflictError => exists e, write_rows hash_of ghash ahash sc wp now plans db = inl e
  | inl _ => True
  end.
Proof.
  intros Hr Hx Hok Hd. unfold batch_insert_or_update.
  set (acc := List.filter _ plans).
  set (m := resolve_batch hash_of ghash ahash sc db rules acc).
  assert (Hm : current sc rules m plans db).
  { intros p Hp Hpr. eapply (resolve_batch_ext sc wp); [done..|]. apply list_elem_of_In, filter_In. rewrite Hpr. split; [by apply list_elem_of_In|done]. }
  assert (Hrun : forall slots db1, classify_all wp m plans = inr slots -> insert_all sc slots db = inr db1 ->
            rows_follow sc wp now plans slots db (update_all hash_of ghash ahash sc wp now slots db1))
    by (intros; by eapply batch_rows).
  destruct (length acc =? 0)%nat eqn:Hacc.
  - apply Nat.eqb_eq, length_zero_iff_nil in Hacc. apply all_refused with (m := m) (wp := wp) in Hacc.
    destruct (refused_slots sc wp now plans db) as (H1&H2&H3). specialize (Hrun _ _ Hacc H1).
    rewrite H3 in Hrun. destruct Hrun as (rj&->&Hp). simpl. split_and!; [done|done|]. by rewrite Hp, H2, app_nil_r.
  - rewrite Hr. fold m. destruct (classify_all wp m plans) as [e|slots] eqn:Hc.
    + pose proof (conflict_rows sc wp now rules Hr Hx m plans db e Hok Hd Hm Hc). by destruct e.
    + destruct (insert_all sc slots db) as [e|db1] eqn:Hi.
      * destruct e; try done. by destruct (insert_all_error sc slots db ConflictError Hi).
      * specialize (Hrun slots db1 eq_refl Hi).
        destruct (update_all _ _ _ sc wp now slots db1) as [e|[rs db2]]; [by destruct e|].
        destruct Hrun as (rj&->&Hp). simpl. by rewrite Hp.
Qed.

(** C28: with identity by external id, writing a chunk through the batch path is writing
    its features one by one: for features with fresh geoids and no external id in
    common, one succeeds exactly when the other does, with the same results, the same
    tables and, up to their order, the same rejections. *)
Theorem batch_write_equals_rows sc wp now rules plans db :
  rules_of wp = Some rules -> ext_rules rules -> db_ok db -> distinct sc plans db ->
  same_write (write_chunk hash_of ghash ahash sc wp now plans db) (write_rows hash_of ghash ahash sc wp now plans db).
Proof.
  intros Hr Hx Hok Hd. unfold write_chunk. destruct (_ && _); [|apply same_write_refl].
  pose proof (batch_settles sc wp now rules plans db Hr Hx Hok Hd) as Hb.
  destruct (batch_insert_or_update _ _ _ sc wp now plans db) as [e|o]; [|done].
  destruct e; try apply same_write_refl. by destruct Hb as [e ->].
Qed.
End proofs.
