(* ===== verification/ItemVersions.v ===== *)
(** * Versions of items

    The history that writing with [NEW_VERSION] leaves: the validity windows of an
    external id, and the version each instant sees.  Then the chunk loop of an
    ingestion, and traces of the cases where windows and identity do not fit. *)

From S2P Require Import Prelude StorageDrain ItemWrite ItemWriteProofs.

Section versions.
Context {D G : Type} (hash_of ghash : G -> string) (ahash : D -> string).
Abbreviation db_t := (items_db (D := D) (G := G)).
Abbreviation plan_t := (plan (D := D) (G := G)).
Abbreviation iou := (insert_or_update hash_of ghash ahash).
Abbreviation rows := (write_rows hash_of ghash ahash).

(** Where the window of a feature starts. *)
Definition p_start (p : plan_t) : Z := default (p_time p) (p_from p).
Definition of_ext (e : string) (p : plan_t) : bool := bool_decide (p_ext p = Some e).
Definition version_row (p : plan_t) : attr_row (D := D) := mkAttr (p_ext p) (p_attrs p).

(** The next feature of the same external id. *)
Definition successor (q : plan_t) (later : list plan_t) : option plan_t :=
  head (List.filter (fun p => bool_decide (p_ext p = p_ext q)) later).
Definition window (q : plan_t) (later : list plan_t) : option vrange :=
  Some (Some (Some (p_start q), p_start <$> successor q later)).

(** The specification: the version an external id has at an instant is the last one
    that starts by then. *)
Definition as_of (plans : list plan_t) (e : string) (t : Z) : option plan_t :=
  last (List.filter (fun p => of_ext e p && (p_start p <=? t)) plans).
Definition in_range (t : Z) (r : vrange) : bool :=
  match r with
  | None => false
  | Some (lo, hi) => match lo with Some a => a <=? t | None => true end && match hi with Some b => t <? b | None => true end
  end.

(** The tables after the features [past]. *)
Record history (past : list plan_t) (db : db_t) : Prop := {
  hi_hub : forall q, q ∈ past -> hub db !! p_geoid q = Some (mkHub (p_time q) false);
  hi_fresh : forall g, g ∉ map p_geoid past -> hub db !! g = None;
  hi_geom : forall q, q ∈ past -> is_Some (geoms db !! p_geoid q);
  hi_attrs : forall g v a, attrs db !! (g, v) = Some a <->
    exists l1 q l2, past = l1 ++ q :: l2 /\ g = p_geoid q /\ a = version_row q /\ v = window q l2;
}.

Lemma successor_none q (later : list plan_t) :
  successor q later = None <-> forall x, x ∈ later -> p_ext x <> p_ext q.
Proof.
  unfold successor. induction later as [|x later IH]; simpl; [set_solver|].
  case_bool_decide as Hx; simpl.
  - split; [done|]. intros H. destruct (H x); set_solver.
  - rewrite IH. set_solver.
Qed.

Lemma successor_snoc q (later : list plan_t) p :
  successor q (later ++ [p]) =
    match successor q later with Some s => Some s | None => if decide (p_ext p = p_ext q) then Some p else None end.
Proof.
  unfold successor. rewrite List.filter_app. simpl. destruct (List.filter _ later) as [|s l]; simpl; [|done].
  case_bool_decide; by case_decide.
Qed.

Lemma last_version e (past : list plan_t) :
  (forall q, q ∈ past -> p_ext q <> Some e) \/
  exists l1 q l2, past = l1 ++ q :: l2 /\ p_ext q = Some e /\ forall x, x ∈ l2 -> p_ext x <> Some e.
Proof.
  induction past as [|p past IH] using rev_ind; [left; set_solver|].
  destruct (decide (p_ext p = Some e)) as [He|He].
  - right. exists past, p, []. split_and!; [done|done|set_solver].
  - destruct IH as [IH|(l1&q&l2&->&Hq&Hl)]; [left; set_solver|].
    right. exists l1, q, (l2 ++ [p]). split_and!; [by rewrite <- app_assoc|done|set_solver].
Qed.

(** A feature of the past is found by its geoid, and by being the last of its external
    id. *)
Lemma same_split (l1 l2 l1' l2' : list plan_t) q q' (Q : plan_t -> Prop) :
  l1 ++ q :: l2 = l1' ++ q' :: l2' -> Q q -> Q q' -> (forall x, x ∈ l2 -> ~ Q x) -> (forall x, x ∈ l2' -> ~ Q x) ->
  q = q' /\ l2 = l2'.
Proof.
  intros Heq Hq Hq' Hl Hl'. apply app_eq_inv in Heq as [(k&->&Hk)|(k&->&Hk)]; destruct k as [|x k]; simplify_eq/=; try done.
  - destruct (Hl' q); set_solver.
  - destruct (Hl q'); set_solver.
Qed.

Lemma geoid_split (past l1 l2 l1' l2' : list plan_t) q q' :
  NoDup (map p_geoid past) -> past = l1 ++ q :: l2 -> past = l1' ++ q' :: l2' -> p_geoid q = p_geoid q' -> q = q' /\ l2 = l2'.
Proof.
  intros Hn H1 H2 Hg.
  assert (Hlast : forall m1 x m2, past = m1 ++ x :: m2 -> p_geoid x = p_geoid q -> forall y, y ∈ m2 -> ~ p_geoid y = p_geoid q).
  { intros m1 x m2 -> Hx y Hy Hyq. rewrite map_app in Hn. simpl in Hn. apply NoDup_app in Hn as (_&_&[Hn _]%NoDup_cons).
    apply Hn. rewrite Hx, <- Hyq. by apply list_elem_of_fmap_2. }
  apply (same_split l1 l2 l1' l2' q q' (fun x => p_geoid x = p_geoid q)); [congruence|done|done| |];
    eapply Hlast; eauto.
Qed.

(** ** One more version *)

Section versioned.
Context (sc : sidecars) (wp : option ItemsWritePolicy) (now : Z) (r : ResolvedIdentityRule) (rules : list ResolvedIdentityRule).
Context (Hrules : rules_of wp = Some (r :: rules)) (Hext : ext_rules (r :: rules)).
Context (Hnew : forall f, decide_action wp (Some (f, r)) = AArchiveInsert f).
Context (Hsce : sc_external_id sc = true) (Hscv : sc_validity sc = true) (Hsco : sc_start_open sc = false).

(** A feature of an external id, accepted, with no explicit end of validity. *)
Record versionable (p : plan_t) : Prop := {
  ve_ext : is_Some (p_ext p) /\ truthy_str (p_ext p) = p_ext p;
  ve_to : p_to p = None;
  ve_accepted : p_refused_by p = None;
}.

Lemma versionable_stored p : versionable p -> stored_ext sc p = p_ext p.
Proof. intros [[_ H] _ _]. unfold stored_ext. by rewrite Hsce. Qed.

Lemma versionable_insert p (db : db_t) :
  versionable p -> hub db !! p_geoid p = None ->
  insert_item sc p db = inr (put_item sc (p_geoid p, window p []) p db).
Proof.
  intros Hv Hn. unfold insert_item, attr_key, new_validity. rewrite Hn, Hscv, Hsco, (ve_to _ Hv).
  unfold window, p_start. by destruct (p_from p).
Qed.

Lemma open_window (q : plan_t) l : match range_upper (Some (Some (p_start q), p_start <$> successor q l)) with None => true | Some _ => false end = true
  <-> successor q l = None.
Proof. unfold range_upper. simpl. by destruct (successor q l). Qed.

(** The candidates of an external id: the open window of its last version. *)
Lemma candidate_last past (db : db_t) e g v a :
  history past db ->
  (attrs db !! (g, v) = Some a /\ ext_candidate sc db e ((g, v), a) = true) <->
  exists l1 q l2, past = l1 ++ q :: l2 /\ p_ext q = Some e /\ (forall x, x ∈ l2 -> p_ext x <> Some e) /\
    g = p_geoid q /\ a = version_row q /\ v = window q l2.
Proof.
  intros Hh. unfold ext_candidate, alive, has_geom. rewrite Hscv. simpl. split.
  - intros [(l1&q&l2&Hp&->&->&->)%(hi_attrs _ _ Hh) Hc].
    apply andb_prop in Hc as [[[Hid _]%andb_prop _]%andb_prop Hup]. apply bool_decide_eq_true in Hid. simpl in Hid.
    apply open_window in Hup. rewrite successor_none, Hid in Hup. exists l1, q, l2. by split_and!.
  - intros (l1&q&l2&Hp&He&Hl&->&->&->). split; [apply (hi_attrs _ _ Hh); eauto 10|].
    assert (Hq : q ∈ past) by (rewrite Hp; set_solver).
    rewrite (hi_hub _ _ Hh q Hq). destruct (hi_geom _ _ Hh q Hq) as [gm ->]. simpl.
    rewrite bool_decide_true by done. simpl. apply open_window, successor_none. by rewrite He.
Qed.

Lemma resolve_ext_none past (db : db_t) e :
  history past db -> (forall q, q ∈ past -> p_ext q <> Some e) -> resolve_ext sc db e = None.
Proof.
  intros Hh Hno. unfold resolve_ext. replace (base.filter _ _) with (∅ : gmap (string * option vrange) (attr_row (D := D))); [done|].
  apply map_eq. intros [g v]. rewrite lookup_empty. symmetry. apply map_lookup_filter_None_2. right. intros a Ha Hc.
  destruct (proj1 (candidate_last past db e g v a Hh) (conj Ha Hc)) as (l1&q&l2&->&He&_).
  apply (Hno q); [set_solver|done].
Qed.

Lemma resolve_ext_last past (db : db_t) e l1 q l2 :
  history past db -> past = l1 ++ q :: l2 -> p_ext q = Some e -> (forall x, x ∈ l2 -> p_ext x <> Some e) ->
  resolve_ext sc db e = Some (mkFound (p_geoid q) (window q l2)).
Proof.
  intros Hh Hp He Hl. unfold resolve_ext.
  replace (base.filter _ _) with ({[(p_geoid q, window q l2) := version_row q]} : gmap (string * option vrange) (attr_row (D := D))).
  { rewrite map_to_list_singleton. simpl. by rewrite Hscv. }
  symmetry. apply map_eq. intros [g v]. apply option_eq. intros a.
  rewrite map_lookup_filter_Some, lookup_singleton_Some, (candidate_last past db e g v a Hh). split.
  - intros (l1'&q'&l2'&Hp'&He'&Hl'&->&->&->).
    destruct (same_split l1 l2 l1' l2' q q' (fun x => p_ext x = Some e)) as [<- <-]; congruence || done.
  - intros [[= <- <-] <-]. eauto 10.
Qed.

(** Closing the last version. *)
Definition closed (q : plan_t) (t : Z) : option vrange := Some (Some (Some (p_start q), Some t)).
Lemma expire_last past (db : db_t) l1 q l2 t :
  history past db -> NoDup (map p_geoid past) -> past = l1 ++ q :: l2 -> p_start q < t ->
  expire_version sc (p_geoid q) t db =
    inr (mkItems (hub db) (<[(p_geoid q, closed q t) := version_row q]> (delete (p_geoid q, window q l2) (attrs db))) (geoms db)).
Proof.
  intros Hh Hn Hp Ht. unfold expire_version. rewrite Hscv.
  assert (Hrow : forall v a, attrs db !! (p_geoid q, v) = Some a <-> v = window q l2 /\ a = version_row q).
  { intros v a. rewrite (hi_attrs _ _ Hh). split.
    - intros (l1'&q'&l2'&Hp'&Hg&->&->). by destruct (geoid_split past l1 l2 l1' l2' q q') as [<- <-].
    - intros [-> ->]. eauto 10. }
  replace (base.filter (fun kv => kv.1.1 = p_geoid q) (attrs db))
    with ({[(p_geoid q, window q l2) := version_row q]} : gmap (string * option vrange) (attr_row (D := D))).
  2:{ symmetry. apply map_eq. intros [g v]. apply option_eq. intros a.
      rewrite map_lookup_filter_Some, lookup_singleton_Some. simpl. split.
      - intros [Ha ->]. by apply Hrow in Ha as [-> ->].
      - intros [[= <- <-] <-]. by rewrite Hrow. }
  rewrite map_to_list_singleton. unfold expire_row, window, range_lower, mk_range. simpl.
  destruct (Z.ltb_spec t (p_start q)); [lia|]. destruct (Z.eqb_spec (p_start q) t); [lia|]. simpl.
  do 2 f_equal. rewrite <- insert_union_l, map_empty_union.
  apply map_eq. intros [g v]. apply option_eq. intros a. rewrite !lookup_insert_Some, map_lookup_filter_Some, lookup_delete_Some. simpl.
  split; intros [?|[Hne [H1 H2]]]; auto; right; split; try done; split; try done.
  - intros [= ? ?]. done.
  - intros ->. apply Hrow in H2 as [-> _]. done.
Qed.

(** The windows of the past once [p] follows. *)
Definition windows_before (past : list plan_t) (p : plan_t) (m : gmap (string * option vrange) (attr_row (D := D))) : Prop :=
  forall g v a, m !! (g, v) = Some a <->
    exists l1 q l2, past = l1 ++ q :: l2 /\ g = p_geoid q /\ a = version_row q /\ v = window q (l2 ++ [p]).

Lemma history_put past (db : db_t) m p :
  history past db -> windows_before past p m -> versionable p -> p_geoid p ∉ map p_geoid past ->
  history (past ++ [p]) (put_item sc (p_geoid p, window p []) p (mkItems (hub db) m (geoms db))).
Proof.
  intros Hh Hm Hv Hn.
  assert (Hold : forall q, q ∈ past -> p_geoid q <> p_geoid p).
  { intros q Hq Heq. apply Hn. rewrite <- Heq. by apply list_elem_of_fmap_2. }
  assert (Hno : forall v, m !! (p_geoid p, v) = None).
  { intros v. destruct (m !! (p_geoid p, v)) as [a|] eqn:Ha; [|done]. apply Hm in Ha as (l1&q&l2&->&Hg&_).
    destruct (Hold q); [set_solver|done]. }
  constructor; simpl.
  - intros q [Hq| ->%list_elem_of_singleton]%elem_of_app; [|by rewrite lookup_insert_eq].
    rewrite lookup_insert_ne by (apply not_eq_sym; eauto). by apply (hi_hub _ _ Hh).
  - intros g Hg. rewrite map_app in Hg. rewrite lookup_insert_ne by set_solver. apply (hi_fresh _ _ Hh). set_solver.
  - intros q [Hq| ->%list_elem_of_singleton]%elem_of_app; [|rewrite lookup_insert_eq; eauto].
    rewrite lookup_insert_ne by (apply not_eq_sym; eauto). by apply (hi_geom _ _ Hh).
  - intros g v a. rewrite Hno. simpl. rewrite lookup_insert_Some, (versionable_stored _ Hv).
    destruct (ve_ext _ Hv) as [[e He] _]. split.
    + intros [[[= <- <-] <-]|[_ (l1&q&l2&->&->&->&->)%Hm]].
      * exists past, p, []. split_and!; [done|done| |done]. unfold version_row. by rewrite He.
      * exists l1, q, (l2 ++ [p]). by rewrite <- app_assoc.
    + intros (l1&q&l2&Hp&->&->&->). destruct l2 as [|x l2 _] using rev_ind.
      * apply app_inj_tail in Hp as [-> ->]. left. split; [done|]. unfold version_row. by rewrite He.
      * rewrite app_comm_cons, app_assoc in Hp. apply app_inj_tail in Hp as [-> ->]. right. split.
        { intros [= Hg _]. destruct (Hold q); [set_solver|done]. }
        apply Hm. eauto 10.
Qed.

Lemma window_other (q p : plan_t) l : p_ext q <> p_ext p \/ successor q l <> None -> window q (l ++ [p]) = window q l.
Proof.
  intros H. unfold window. rewrite successor_snoc. destruct (successor q l); [done|].
  case_decide; [|done]. destruct H; [congruence|done].
Qed.

Lemma windows_first past (db : db_t) p :
  history past db -> (forall q, q ∈ past -> p_ext q <> p_ext p) -> windows_before past p (attrs db).
Proof.
  intros Hh Hno g v a. rewrite (hi_attrs _ _ Hh).
  split; intros (l1&q&l2&->&->&->&->); exists l1, q, l2; rewrite window_other by (left; apply Hno; set_solver); done.
Qed.

Lemma windows_close past (db : db_t) p l1 q l2 :
  history past db -> NoDup (map p_geoid past) -> past = l1 ++ q :: l2 -> p_ext q = p_ext p ->
  (forall x, x ∈ l2 -> p_ext x <> p_ext p) ->
  windows_before past p (<[(p_geoid q, closed q (p_start p)) := version_row q]> (delete (p_geoid q, window q l2) (attrs db))).
Proof.
  intros Hh Hn Hp He Hl g v a.
  assert (Hs : successor q l2 = None) by (apply successor_none; by rewrite He).
  assert (Hc : window q (l2 ++ [p]) = closed q (p_start p)).
  { unfold window. rewrite successor_snoc, Hs. by rewrite decide_True. }
  assert (Hoth : forall m1 x m2, past = m1 ++ x :: m2 -> p_geoid x <> p_geoid q -> window x (m2 ++ [p]) = window x m2).
  { intros m1 x m2 Hm Hx. apply window_other. destruct (decide (p_ext x = p_ext p)) as [Hxe|]; [right|by left].
    intros Hsx. rewrite successor_none in Hsx. eapply Hx. f_equal. symmetry.
    rewrite Hxe in Hsx. destruct (same_split l1 l2 m1 m2 q x (fun y => p_ext y = p_ext p)); congruence || done. }
  rewrite lookup_insert_Some, lookup_delete_Some, (hi_attrs _ _ Hh). split.
  - intros [[[= <- <-] <-]|[_ [Hne (m1&x&m2&Hm&->&->&->)]]]; [exists l1, q, l2; by rewrite Hc|].
    exists m1, x, m2. rewrite (Hoth m1 x m2); [done|done|]. intros Hg.
    apply Hne. by destruct (geoid_split past l1 l2 m1 m2 q x) as [<- <-].
  - intros (m1&x&m2&Hm&->&->&->). destruct (decide (p_geoid x = p_geoid q)) as [Hg|Hg].
    + destruct (geoid_split past l1 l2 m1 m2 q x) as [<- <-]; [done..|]. left. by rewrite Hc.
    + right. rewrite (Hoth m1 x m2) by done. split_and!; [congruence|congruence|]. eauto 10.
Qed.

Lemma version_step past (db : db_t) p :
  history past db -> NoDup (map p_geoid (past ++ [p])) -> versionable p ->
  (forall q, q ∈ past -> p_ext q = p_ext p -> p_start q < p_start p) ->
  exists db', iou sc wp now p db = inr (Some (Row (p_geoid p)), db') /\ history (past ++ [p]) db'.
Proof.
  intros Hh Hnd Hv Hord. rewrite map_app in Hnd. apply NoDup_app in Hnd as (Hnd&Hdis&_).
  assert (Hn : p_geoid p ∉ map p_geoid past) by (intros Hin; apply (Hdis _ Hin); set_solver).
  destruct (ve_ext _ Hv) as [[e He] _].
  rewrite (iou_eq _ _ _ sc wp now (r :: rules)) by (done || apply Hv). rewrite resolve_identity_ext by done.
  unfold ext_found. rewrite versionable_stored, He by done. simpl.
  destruct (last_version e past) as [Hno|(l1&q&l2&Hp&Hq&Hl)].
  - rewrite (resolve_ext_none past) by done. simpl.
    rewrite versionable_insert by (done || by apply (hi_fresh _ _ Hh)). eexists. split; [done|].
    destruct db as [hb at_ gm]. apply (history_put past (mkItems hb at_ gm)); [done| |done|done].
    apply (windows_first past (mkItems hb at_ gm)); [done|]. by rewrite He.
  - rewrite (resolve_ext_last past db e l1 q l2) by done. cbn [mbind option_bind head]. rewrite Hnew. cbn [f_geoid].
    assert (Hlt : p_start q < p_start p) by (apply Hord; [rewrite Hp; set_solver|congruence]).
    rewrite (expire_last past db l1 q l2) by done. cbn iota.
    rewrite versionable_insert by (done || by apply (hi_fresh _ _ Hh)). eexists. split; [done|].
    apply history_put; [done| |done|done]. apply (windows_close past db p l1); [done..|congruence|by rewrite He].
Qed.

(** Later features of an external id start later. *)
Definition ordered : list plan_t -> Prop :=
  StronglySorted (fun q p => p_ext q = p_ext p -> p_start q < p_start p).

Lemma ordered_split l1 q l2 p : ordered (l1 ++ q :: l2) -> p ∈ l2 -> p_ext q = p_ext p -> p_start q < p_start p.
Proof.
  intros Hs. induction l1 as [|x l1 IH]; simpl in Hs; apply StronglySorted_inv in Hs as [Hs Hf]; [|auto].
  intros Hp. rewrite Forall_forall in Hf. by apply Hf.
Qed.

Lemma version_rows plans : forall past (db : db_t),
  history past db -> NoDup (map p_geoid (past ++ plans)) -> Forall versionable plans -> ordered (past ++ plans) ->
  exists o, rows sc wp now plans db = inr o /\ bo_rejections o = [] /\ history (past ++ plans) (bo_db o).
Proof.
  induction plans as [|p plans IH]; intros past db Hh Hnd Hv Ho.
  { eexists. rewrite app_nil_r. by split_and!. }
  apply Forall_cons in Hv as [Hp Hv].
  assert (Hsplit : past ++ p :: plans = (past ++ [p]) ++ plans) by by rewrite <- app_assoc.
  destruct (version_step past db p Hh) as (db'&Hi&Hh'); [| done | |].
  - rewrite Hsplit, map_app in Hnd. by apply NoDup_app in Hnd as [? _].
  - intros q (m1&m2&->)%list_elem_of_split He. rewrite <- app_assoc in Ho. simpl in Ho.
    eapply ordered_split; [exact Ho|set_solver|done].
  - rewrite Hsplit in *. destruct (IH (past ++ [p]) db' Hh' Hnd Hv Ho) as (o&Ho1&Hr&Hho).
    simpl. rewrite Hi, Ho1. eexists. split_and!; [done|done|done].
Qed.
End versioned.

(** ** The version of an instant *)

Lemma as_of_Some plans e t (q : plan_t) :
  as_of plans e t = Some q <->
  exists l1 l2, plans = l1 ++ q :: l2 /\ p_ext q = Some e /\ p_start q <= t /\
    forall x, x ∈ l2 -> p_ext x = Some e -> t < p_start x.
Proof.
  unfold as_of, of_ext. induction plans as [|p plans IH] using rev_ind.
  { simpl. split; [done|]. intros (l1&l2&H&_). by destruct l1. }
  rewrite List.filter_app. simpl. destruct (bool_decide (p_ext p = Some e) && (p_start p <=? t)) eqn:Hc.
  - apply andb_prop in Hc as [He%bool_decide_eq_true Hle%Z.leb_le]. rewrite last_snoc. split.
    + intros [= ->]. exists plans, []. split_and!; [done|done|done|set_solver].
    + intros (l1&l2&Hp&_&_&Hl). destruct l2 as [|x l2 _] using rev_ind; [apply app_inj_tail in Hp as [_ ->]; done|].
      rewrite app_comm_cons, app_assoc in Hp. apply app_inj_tail in Hp as [_ ->]. specialize (Hl x). set_solver by lia.
  - rewrite app_nil_r, IH. split; intros (l1&l2&Hp&He&Hle&Hl).
    + exists l1, (l2 ++ [p]). rewrite Hp, <- app_assoc. split_and!; [done|done|done|].
      intros x [Hx| ->%list_elem_of_singleton]%elem_of_app Hxe; [eauto|].
      rewrite bool_decide_true in Hc by done. simpl in Hc. lia.
    + destruct l2 as [|x l2 _] using rev_ind.
      { apply app_inj_tail in Hp as [_ ->]. rewrite bool_decide_true in Hc by done. simpl in Hc. lia. }
      rewrite app_comm_cons, app_assoc in Hp. apply app_inj_tail in Hp as [-> ->].
      exists l1, l2. split_and!; [done|done|done|set_solver].
Qed.

Lemma successor_Some q (l : list plan_t) s :
  successor q l = Some s ->
  exists m1 m2, l = m1 ++ s :: m2 /\ p_ext s = p_ext q /\ forall x, x ∈ m1 -> p_ext x <> p_ext q.
Proof.
  unfold successor. induction l as [|x l IH]; simpl; [done|]. case_bool_decide as Hx; simpl.
  - intros [= ->]. exists [], l. split_and!; [done|done|set_solver].
  - intros (m1&m2&->&Hs&Hm)%IH. exists (x :: m1), m2. split_and!; [done|done|set_solver].
Qed.

(** A window holds an instant from its start to the next version of the external id. *)
Lemma window_holds l1 q l2 t :
  ordered (l1 ++ q :: l2) ->
  (exists r, window q l2 = Some r /\ in_range t r = true) <->
  p_start q <= t /\ forall x, x ∈ l2 -> p_ext x = p_ext q -> t < p_start x.
Proof.
  intros Ho. unfold window. destruct (successor q l2) as [s|] eqn:Hs; simpl.
  - apply successor_Some in Hs as (m1&m2&->&He&Hm). split.
    + intros (r&[= <-]&[H1 H2]%andb_prop). apply Z.leb_le in H1. apply Z.ltb_lt in H2. split; [done|].
      intros x [Hx|[->|Hx]%elem_of_cons]%elem_of_app Hxe; [by destruct (Hm x)|done|].
      assert (p_start s < p_start x); [|lia]. rewrite app_comm_cons, app_assoc in Ho. eapply ordered_split; eauto. congruence.
    + intros [H1 H2]. eexists. split; [done|]. simpl. specialize (H2 s). apply andb_true_intro. split; [lia|]. apply Z.ltb_lt. apply H2; set_solver.
  - rewrite successor_none in Hs. split.
    + intros (r&[= <-]&[H1 _]%andb_prop). split; [lia|]. intros x Hx Hxe. by destruct (Hs x).
    + intros [H1 _]. eexists. split; [done|]. simpl. lia.
Qed.

Lemma history_as_of past (db : db_t) e t g a :
  history past db -> ordered past ->
  (exists r, attrs db !! (g, Some r) = Some a /\ a_ext a = Some e /\ in_range t r = true) <->
  exists p, as_of past e t = Some p /\ g = p_geoid p /\ a = version_row p.
Proof.
  intros Hh Ho. split.
  - intros (r&(l1&q&l2&->&->&->&Hr)%(hi_attrs _ _ Hh)&He&Ht). exists q. split; [|done]. apply as_of_Some.
    destruct (proj1 (window_holds l1 q l2 t Ho)) as [H1 H2]; [eauto|]. exists l1, l2. simpl in He.
    split_and!; [done|done|done|]. intros x Hx Hxe. apply H2; congruence.
  - intros (p&(l1&l2&->&He&Hle&Hl)%as_of_Some&->&->).
    destruct (proj2 (window_holds l1 p l2 t Ho)) as (r&Hr&Ht); [split; [done|]; intros x Hx Hxe; apply Hl; congruence|].
    exists r. split_and!; [|done|done]. apply (hi_attrs _ _ Hh). eauto 10.
Qed.

(** ** Chunks *)

Lemma history_well_formed past (db : db_t) : history past db -> NoDup (map p_geoid past) -> db_ok db.
Proof.
  intros Hh Hn. constructor.
  - intros g v a (l1&q&l2&->&->&_)%(hi_attrs _ _ Hh). eexists. apply (hi_hub _ _ Hh). set_solver.
  - intros g v v' a a' (l1&q&l2&Hp&->&->&_)%(hi_attrs _ _ Hh) (l1'&q'&l2'&Hp'&Hg&->&_)%(hi_attrs _ _ Hh).
    by destruct (geoid_split past l1 l2 l1' l2' q q') as [<- _].
Qed.

Definition batching (wp : option ItemsWritePolicy) : bool := match wp with Some p => wp_batch_insert p | None => false end.

(** A chunk whose rows would be written is written, by either path. *)
Lemma chunk_of_rows sc wp now rules plans (db : db_t) o :
  rules_of wp = Some rules -> ext_rules rules -> (batching wp = false \/ (db_ok db /\ distinct sc plans db)) ->
  rows sc wp now plans db = inr o ->
  exists o', write_chunk hash_of ghash ahash sc wp now plans db = inr o' /\ bo_db o' = bo_db o /\ bo_rejections o' ≡ₚ bo_rejections o.
Proof.
  intros Hr Hx Hd Ho. unfold write_chunk. fold (batching wp).
  destruct (batching wp) eqn:Hb; simpl; [|eauto]. destruct Hd as [|[Hok Hd]]; [done|].
  destruct (1 <? length plans)%nat; [|eauto].
  pose proof (batch_settles hash_of ghash ahash sc wp now rules plans db Hr Hx Hok Hd) as Hs. rewrite Ho in Hs.
  destruct (batch_insert_or_update _ _ _ sc wp now plans db) as [e|o']; [|destruct Hs as (?&?&?); eauto].
  destruct e; eauto. by destruct Hs as [? ?].
Qed.

Section chunks.
Context (sc : sidecars) (wp : option ItemsWritePolicy) (now : Z) (r : ResolvedIdentityRule) (rules : list ResolvedIdentityRule).
Context (Hrules : rules_of wp = Some (r :: rules)) (Hext : ext_rules (r :: rules)).
Context (Hnew : forall f, decide_action wp (Some (f, r)) = AArchiveInsert f).
Context (Hsce : sc_external_id sc = true) (Hscv : sc_validity sc = true) (Hsco : sc_start_open sc = false).
Context (bytes : plan_t -> Z) (ceiling : Z).

(** The per-row path, or no external id twice. *)
Definition unrepeated (plans : list plan_t) : Prop := batching wp = false \/ NoDup (omap p_ext plans).

Lemma chunk_history past plans (db : db_t) :
  history past db -> NoDup (map p_geoid (past ++ plans)) -> Forall versionable plans -> ordered (past ++ plans) ->
  unrepeated plans ->
  exists o, write_chunk hash_of ghash ahash sc wp now plans db = inr o /\ bo_rejections o = [] /\ history (past ++ plans) (bo_db o).
Proof.
  intros Hh Hnd Hv Ho Hu.
  destruct (version_rows sc wp now r rules Hrules Hext Hnew Hsce Hscv Hsco plans past db Hh Hnd Hv Ho) as (o&Hrows&Hrj&Hh').
  rewrite map_app in Hnd. apply NoDup_app in Hnd as (Hn1&Hn2&Hn3).
  destruct (chunk_of_rows sc wp now (r :: rules) plans db o) as (o'&Hc&Hdb&Hperm); [done|done| |done|].
  - destruct Hu as [|Hu]; [by left|right]. split; [by eapply history_well_formed|]. split; [done| |].
    + replace (omap (stored_ext sc) plans) with (omap p_ext plans); [done|].
      apply list_omap_ext, Forall_Forall2_diag. eapply Forall_impl; [exact Hv|]. intros p Hp. symmetry. by apply versionable_stored.
    + apply Forall_forall. intros p Hp. apply (hi_fresh _ _ Hh). intros Hin. apply (Hn2 _ Hin). by apply list_elem_of_fmap_2.
  - rewrite Hrj in Hperm. apply Permutation_nil_r in Hperm. exists o'. rewrite Hdb. by split_and!.
Qed.

(** The loop takes at least one feature a turn, so it ends; each chunk extends the
    history. *)
Lemma chunks_history fuel : forall size past plans (db : db_t),
  1 <= size -> (length plans <= fuel)%nat ->
  history past db -> NoDup (map p_geoid (past ++ plans)) -> Forall versionable plans -> ordered (past ++ plans) ->
  unrepeated plans ->
  exists db', write_chunks hash_of ghash ahash fuel sc wp now bytes ceiling size plans db = (None, [], db') /\ history (past ++ plans) db'.
Proof.
  induction fuel as [|fuel IH]; intros size past plans db Hs Hf Hh Hnd Hv Ho Hu.
  { destruct plans; [|simpl in Hf; lia]. rewrite app_nil_r. simpl. eauto. }
  destruct plans as [|p plans]; [rewrite app_nil_r; simpl; eauto|].
  cbn [write_chunks]. set (n := Z.to_nat size). set (l := p :: plans) in *.
  assert (Hl : past ++ l = (past ++ take n l) ++ drop n l) by by rewrite <- app_assoc, take_drop.
  rewrite <- (take_drop n l) in Hv. apply Forall_app in Hv as [Hv1 Hv2].
  destruct (chunk_history past (take n l) db) as (o&->&Hrj&Hh1); [done| |done| | |].
  - rewrite Hl, map_app in Hnd. by apply NoDup_app in Hnd as [? _].
  - rewrite Hl in Ho. by eapply StronglySorted_app_1_l.
  - destruct Hu as [Hu|Hu]; [by left|right]. rewrite <- (take_drop n l), omap_app in Hu. by apply NoDup_app in Hu as [? _].
  - rewrite Hl in *. rewrite Hrj. set (size' := next_adaptive_chunk_rows _ _ _ _ _).
    destruct (IH size' (past ++ take n l) (drop n l) (bo_db o)) as (db'&->&Hh2); [| |exact Hh1|done|done|done| |by eexists].
    + subst size'. unfold next_adaptive_chunk_rows. case_match; [done|]. lia.
    + rewrite length_drop. unfold l in *. simpl in *. lia.
    + destruct Hu as [Hu|Hu]; [by left|right]. rewrite <- (take_drop n l), omap_app in Hu. by apply NoDup_app in Hu as (_&_&?).
Qed.
End chunks.

(** C27: An ingestion with [NEW_VERSION] and validity extends the history of a
    collection without gaps or overlaps: at every instant the rows of an external id
    that are valid are exactly its last feature, old or new, that starts by then. The
    identity rules go by external id only, a feature without a start of its own starts
    when it is written ([start_open] is off), the features are new, carry an external id
    and no explicit end of validity, and start in order; through the batch path no
    external id comes twice; the chunks may be cut anywhere. *)
Theorem ingest_keeps_history sc wp now r rules bytes ceiling past plans db :
  rules_of wp = Some (r :: rules) -> ext_rules (r :: rules) ->
  (forall f, decide_action wp (Some (f, r)) = AArchiveInsert f) ->
  sc_external_id sc = true -> sc_validity sc = true -> sc_start_open sc = false -> 1 <= ceiling ->
  history past db -> NoDup (map p_geoid (past ++ plans)) -> Forall versionable plans -> ordered (past ++ plans) ->
  unrepeated wp plans ->
  exists db', ingest hash_of ghash ahash sc wp now bytes ceiling plans db = (None, [], db') /\
    history (past ++ plans) db' /\
    forall e t g a,
      (exists r, attrs db' !! (g, Some r) = Some a /\ a_ext a = Some e /\ in_range t r = true) <->
      exists p, as_of (past ++ plans) e t = Some p /\ g = p_geoid p /\ a = version_row p.
Proof.
  intros Hr Hx Hnew He Hv Hs Hc Hh Hnd Hvs Ho Hu.
  destruct (chunks_history sc wp now r rules Hr Hx Hnew He Hv Hs bytes ceiling (length plans)
              (Z.min INGEST_CHUNK_PROBE_ROWS ceiling) past plans db) as (db'&Hi&Hh'); try done.
  { unfold INGEST_CHUNK_PROBE_ROWS. lia. }
  exists db'. split_and!; [done|done|]. intros. by apply history_as_of.
Qed.

Lemma history_empty : history [] (mkItems ∅ ∅ ∅).
Proof. constructor; simpl; [set_solver|done|set_solver|]. intros g v a. split; [done|]. intros ([]&?&?&?&_); done. Qed.
End versions.
