(* ===== verification/ItemCases.v ===== *)
(** * Writing items: witnesses and cases

    The theorems on concrete features, and the cases the documentation describes
    otherwise: an external id twice in a batch, refusals across chunks, the identity of
    archived versions, and windows that are empty, ended or out of order. *)

From S2P Require Import Prelude StorageDrain ItemWrite ItemWriteProofs ItemVersions.

(** Geometries are their own hash, and share a geohash with their first letter. *)
Definition demo_ghash (g : string) : string := String.substring 0 1 g.
Abbreviation demo_rows := (write_rows (D := string) (G := string) id demo_ghash id).
Abbreviation demo_chunk := (write_chunk (D := string) (G := string) id demo_ghash id).
Abbreviation demo_ingest := (ingest (D := string) (G := string) id demo_ghash id).
Abbreviation demo_one := (insert_or_update (D := string) (G := string) id demo_ghash id).
Abbreviation demo_db := (items_db (D := string) (G := string)).

Definition no_items : demo_db := mkItems ∅ ∅ ∅.
(** Sidecars with external ids; [temporal] adds the validity. *)
Definition demo_sc (temporal : bool) : sidecars := mkSidecars true temporal false true true.
Definition demo_policy (rules : list IdentityRule) (a : WriteConflictPolicy) (refuse temporal batch : bool) : option ItemsWritePolicy :=
  Some (mkPolicy [mkField "geometry_hash" GEOMETRY_HASH; mkField "geohash" GEOHASH] ["geometry"] rules a refuse temporal batch).
(** A feature: geoid, time, external id and geometry. *)
Definition feature (g : string) (t : Z) (e : string) (geom : string) : plan :=
  mkPlan g t (Some e) (Some geom) None None ("attributes of " +:+ g) geom None true.
Definition until (p : plan (D := string) (G := string)) (to : Z) : plan :=
  mkPlan (p_geoid p) (p_time p) (p_ext p) (p_hash p) (p_from p) (Some to) (p_attrs p) (p_geom p) (p_refused_by p) (p_update_ok p).

(** ** Witnesses *)

Definition update_policy : option ItemsWritePolicy := demo_policy default_identity_rules UPDATE false false true.
Definition one_item : demo_db := bo_db (default (mkBatch [] [] no_items) (match demo_rows (demo_sc false) update_policy 0 [feature "g1" 1 "a" "x"] no_items with inr o => Some o | inl _ => None end)).

Lemma one_item_ok : db_ok one_item.
Proof.
  assert (Ha : attrs one_item = {[("g1", None) := mkAttr (Some "a") "attributes of g1"]}) by (apply map_eq; by vm_compute).
  constructor; rewrite Ha.
  - intros g v a [[= <- <-] _]%lookup_singleton_Some. by eexists.
  - by intros g v v' a a' [_ <-]%lookup_singleton_Some [_ <-]%lookup_singleton_Some.
Qed.

(** One feature of the chunk updates, one is new. *)
Lemma batch_write_equals_rows_witness :
  same_write (demo_chunk (demo_sc false) update_policy 9 [feature "g2" 2 "a" "y"; feature "g3" 3 "b" "z"] one_item)
             (demo_rows (demo_sc false) update_policy 9 [feature "g2" 2 "a" "y"; feature "g3" 3 "b" "z"] one_item).
Proof.
  apply (batch_write_equals_rows id demo_ghash id) with (rules := [mkResolved [EXTERNAL_ID] None]).
  - reflexivity.
  - repeat constructor.
  - apply one_item_ok.
  - constructor.
    + apply NoDup_cons; split; [set_solver|]. apply NoDup_singleton.
    + apply NoDup_cons; split; [set_solver|]. apply NoDup_singleton.
    + repeat constructor; by vm_compute.
Defined.

Definition version_policy (batch : bool) : option ItemsWritePolicy := demo_policy default_identity_rules NEW_VERSION false true batch.
Definition first_load : list plan := [feature "g1" 1 "a" "x"; feature "g2" 2 "b" "y"; feature "g3" 5 "a" "z"].

(** Three features of two external ids; at instant 3 the first version of [a] is the one
    valid. *)
Lemma ingest_keeps_history_witness :
  exists db, demo_ingest (demo_sc true) (version_policy false) 9 (fun _ => 100) 50 first_load no_items = (None, [], db) /\
    exists r, attrs db !! ("g1", Some r) = Some (mkAttr (Some "a") "attributes of g1") /\ in_range 3 r = true.
Proof.
  destruct (ingest_keeps_history id demo_ghash id (demo_sc true) (version_policy false) 9 (mkResolved [EXTERNAL_ID] None) []
              (fun _ => 100) 50 [] first_load no_items) as (db&Hi&_&Has).
  - reflexivity.
  - repeat constructor.
  - reflexivity.
  - reflexivity.
  - reflexivity.
  - reflexivity.
  - lia.
  - apply history_empty.
  - apply (bool_decide_unpack _). by vm_compute.
  - repeat (constructor; [constructor; [split; [by eexists|done]|done|done]|]). constructor.
  - repeat (apply SSorted_cons || apply SSorted_nil); repeat (apply List.Forall_cons || apply List.Forall_nil); by vm_compute.
  - by left.
  - exists db. split; [exact Hi|]. destruct (proj2 (Has "a" 3 "g1" (mkAttr (Some "a") "attributes of g1"))) as (r&Hr&_&Ht); [|eauto].
    exists (feature "g1" 1 "a" "x"). split_and!; reflexivity.
Defined.

(** ** An external id twice in a batch *)

Definition attr_rows (db : demo_db) : list ((string * option vrange) * attr_row) := map_to_list (attrs db).
Definition twice : list plan := [feature "g1" 1 "a" "x"; feature "g2" 2 "a" "y"].
Definition rows_left (r : write_error + batch_out (D := string) (G := string)) : option nat :=
  match r with inr o => Some (length (attr_rows (bo_db o))) | inl _ => None end.

(** Two features with the same external id in one chunk: the batch path inserts both,
    while one by one the second updates the first, or is refused. *)
Lemma batch_writes_duplicates :
  rows_left (demo_chunk (demo_sc false) update_policy 9 twice no_items) = Some 2%nat /\
  rows_left (demo_rows (demo_sc false) update_policy 9 twice no_items) = Some 1%nat.
Proof. by vm_compute. Qed.
Lemma batch_misses_conflict :
  rows_left (demo_chunk (demo_sc false) (demo_policy default_identity_rules REFUSE_FAIL false false true) 9 twice no_items) = Some 2%nat /\
  rows_left (demo_rows (demo_sc false) (demo_policy default_identity_rules REFUSE_FAIL false false true) 9 twice no_items) = None.
Proof. by vm_compute. Qed.

(** ** Refusals across chunks *)

(** The first chunk is a probe of one feature; when the second one is refused as a
    batch, the first stays written. *)
Lemma refused_batch_leaves_rows :
  let '(e, _, db) := demo_ingest (demo_sc false) (demo_policy default_identity_rules UPDATE true false true) 9 (fun _ => 100) 50
                       [feature "g2" 2 "b" "y"; feature "g3" 3 "a" "z"] one_item in
  e = Some ConflictError /\ length (attr_rows db) = 2%nat.
Proof. by vm_compute. Qed.

(** ** The identity of archived versions *)

(** With the default rules, geometries hashed, an archived version still refuses a new
    feature that has its geometry: [b] is not written, [g1] is returned. *)
Definition hashed_policy : option ItemsWritePolicy :=
  option_map append_geometry_hash_default (version_policy false).
Lemma archived_geometry_refuses :
  match demo_rows (demo_sc true) hashed_policy 9 [feature "g1" 1 "a" "x"; feature "g2" 2 "a" "y"; feature "g3" 3 "b" "x"] no_items with
  | inr o => bo_results o = [Some (Row "g1"); Some (Row "g2"); Some (Echo "g1")] /\
             attrs (bo_db o) !! ("g1", Some (Some (Some 1, Some 2))) = Some (mkAttr (Some "a") "attributes of g1")
  | inl _ => False
  end.
Proof. by vm_compute. Qed.

(** An update matched by geometry does not read the validity, so it does not find the
    row it means to update: the item has two windows that are open. *)
Definition by_geometry : list IdentityRule := [mkIdRule ["geometry_hash"] None].
Lemma geometry_update_adds_a_window :
  match demo_rows (demo_sc true) (demo_policy by_geometry UPDATE false true false) 9 [feature "g1" 1 "a" "x"; feature "g2" 2 "a" "x"] no_items with
  | inr o => map fst (attr_rows (bo_db o)) ≡ₚ [("g1", Some (Some (Some 1, None))); ("g1", Some (Some (Some 9, None)))]
  | inl _ => False
  end.
Proof. vm_compute. repeat constructor. Qed.

(** ** Windows *)

(** Two versions with the same start: the window of the first becomes empty, which
    counts as open; when the third arrives the first may be closed instead of the
    second. *)
Lemma same_start_keeps_open :
  match demo_rows (demo_sc true) (version_policy false) 9 [feature "g1" 1 "a" "x"; feature "g2" 1 "a" "y"] no_items with
  | inr o => attrs (bo_db o) !! ("g1", Some None) = Some (mkAttr (Some "a") "attributes of g1") /\
             ext_candidate (demo_sc true) (bo_db o) "a" (("g1", Some None), mkAttr (Some "a") "attributes of g1") = true /\
             ext_candidate (demo_sc true) (bo_db o) "a" (("g2", Some (Some (Some 1, None))), mkAttr (Some "a") "attributes of g2") = true
  | inl _ => False
  end.
Proof. by vm_compute. Qed.

(** A version with an end is not found again: the feature is written twice, with
    overlapping windows. *)
Lemma ended_version_duplicates :
  match demo_rows (demo_sc true) (version_policy false) 9 [until (feature "g1" 1 "a" "x") 10; until (feature "g2" 2 "a" "x") 10] no_items with
  | inr o => attrs (bo_db o) !! ("g1", Some (Some (Some 1, Some 10))) = Some (mkAttr (Some "a") "attributes of g1") /\
             attrs (bo_db o) !! ("g2", Some (Some (Some 2, Some 10))) = Some (mkAttr (Some "a") "attributes of g2")
  | inl _ => False
  end.
Proof. by vm_compute. Qed.

(** A version that starts before the current one fails in the database. *)
Lemma earlier_version_fails :
  demo_rows (demo_sc true) (version_policy false) 9 [feature "g1" 5 "a" "x"; feature "g2" 1 "a" "y"] no_items = inl RangeError.
Proof. by vm_compute. Qed.

(** ** Rejections *)

(** A refused feature is a rejection of the batch, and the rest is written. *)
Lemma refuse_rejects :
  match demo_rows (demo_sc false) (demo_policy default_identity_rules REFUSE false false false) 9 [feature "g2" 2 "a" "y"; feature "g3" 3 "b" "z"] one_item with
  | inr o => bo_results o = [None; Some (Row "g3")] /\ bo_rejections o = [mkRej "g1" (Some "a") "write_policy_refuse"]
  | inl _ => False
  end.
Proof. by vm_compute. Qed.
