(* ===== verification/Routing.v ===== *)
(** * Storage routing

    [storage/routing_config.py]: the lanes of a tier's routing configuration, the
    drivers a deployment adds to them, what an operator's write pins, and validation.
    [storage/router.py]: which drivers an operation resolves to, by hints and by
    [prefer:<driver>] tokens ([storage/hints.py]).

    The drivers a deployment discovers are an argument ([registry]); the iteration
    order of the set of requested hints is that of the list that stands for it. *)

From S2P Require Import Prelude.

(** ** Data *)

Definition READ : string := "READ".
Definition WRITE : string := "WRITE".
Definition INDEX : string := "INDEX".
Definition UPLOAD : string := "UPLOAD".

Inductive FailurePolicy : Type := FATAL | WARN.
#[export] Instance failure_policy_eq_dec : EqDecision FailurePolicy.
Proof. solve_decision. Defined.
Inductive provenance : Type := operator | auto.
#[export] Instance provenance_eq_dec : EqDecision provenance.
Proof. solve_decision. Defined.

Record OperationDriverEntry : Type := mkEntry {
  driver_ref : string;
  e_hints : gset string;
  on_failure : FailurePolicy;
  source : provenance;
  input_transformers : list string;
  output_transformers : list string;
}.
Record TransformerEntry : Type := mkTransformer { t_ref : string; t_source : provenance }.

Abbreviation operations := (list (string * list OperationDriverEntry)).
Record routing_config : Type := mkRouting { ops : operations; transformers : list TransformerEntry }.

(** [operations.get(op, [])] *)
Definition lane (o : operations) (op : string) : list OperationDriverEntry := default [] (dict_get op o).

(** A registered driver: its snake-case class name and what its class declares. *)
Record driver : Type := mkDriver {
  d_ref : string;
  supported_hints : gset string;
  capabilities : list string;
  is_indexer : bool;
  index_tiers : list string;
  auto_register_for_routing : list string;
}.
(** What discovery finds, by protocol. *)
Record registry : Type := mkRegistry {
  items_stores : list driver;
  collection_stores : list driver;
  asset_stores : list driver;
  catalog_stores : list driver;
  index_tier_drivers : list driver;
  upload_drivers : list string;
  transform_drivers : list string;
}.
(** [{_to_snake(type(d).__name__): d for d in ...}]: the last driver of a name. *)
Definition index_get (ds : list driver) (ref : string) : option driver :=
  fold_left (fun acc d => if d_ref d ==s ref then Some d else acc) ds None.

Inductive tier : Type := Items | Collection | Asset | Catalog.
Definition tier_name (t : tier) : string :=
  match t with Items => "item" | Collection => "collection" | Asset => "asset" | Catalog => "catalog" end.

(** The drivers an entry of the tier may name. *)
Definition stores (t : tier) (reg : registry) : list driver :=
  match t with
  | Items => items_stores reg | Collection => collection_stores reg
  | Asset => asset_stores reg | Catalog => catalog_stores reg
  end.

Definition auto_entry (ref : string) (hints : gset string) : OperationDriverEntry := mkEntry ref hints FATAL auto [] [].
Definition default_operations (t : tier) : operations :=
  match t with
  | Items =>
      [(WRITE, [auto_entry "items_postgresql_driver" ∅]);
       (READ, [auto_entry "items_elasticsearch_driver" {["geometry_simplified"]};
               auto_entry "items_postgresql_driver" {["geometry_exact"; "tiles"; "join"; "group_by"]}]);
       (INDEX, [auto_entry "items_elasticsearch_driver" ∅])]
  | Collection =>
      [(WRITE, [auto_entry "collection_postgresql_driver" ∅]);
       (READ, [auto_entry "collection_postgresql_driver" ∅; auto_entry "collection_elasticsearch_driver" {["metadata"]}])]
  | Asset =>
      [(WRITE, [auto_entry "asset_postgresql_driver" ∅]);
       (READ, [auto_entry "asset_postgresql_driver" {["geometry_exact"]}])]
  | Catalog =>
      [(WRITE, [auto_entry "catalog_postgresql_driver" ∅]);
       (READ, [auto_entry "catalog_postgresql_driver" ∅; auto_entry "catalog_elasticsearch_driver" {["metadata"]}])]
  end.

(** ** Self-registration *)

Definition by_operator (e : OperationDriverEntry) : bool := bool_decide (source e = operator).
Definition is_operator_managed (o : operations) (op : string) : bool := existsb by_operator (lane o op).
Definition has_ref (es : list OperationDriverEntry) (ref : string) : bool := str_mem ref (map driver_ref es).

(** Appends the refs that are not listed, each once. *)
Fixpoint append_missing (refs : list string) (es : list OperationDriverEntry) : list OperationDriverEntry :=
  match refs with
  | [] => es
  | r :: refs => append_missing refs (if has_ref es r then es else es ++ [auto_entry r ∅])
  end.
(** [setdefault(op, []).append] creates the lane only when something is appended. *)
Definition extend_lane (o : operations) (op : string) (refs : list string) : operations :=
  let es := append_missing refs (lane o op) in
  match es with [] => o | _ => dict_set op es o end.

Definition opted_in (t : tier) (d : driver) : bool :=
  str_mem (tier_name t) (index_tiers d) && str_mem INDEX (auto_register_for_routing d).
(** [_self_register_indexers_into] *)
Definition self_register_indexers (reg : registry) (t : tier) (o : operations) : operations :=
  if is_operator_managed o WRITE then o
  else if match dict_get INDEX o with
          | Some [] => true
          | Some es => existsb by_operator es
          | None => false
          end then o
  else extend_lane o INDEX (map d_ref (List.filter (opted_in t) (index_tier_drivers reg))).

(** [_self_register_upload_into] *)
Definition self_register_upload (reg : registry) (o : operations) : operations :=
  if is_operator_managed o UPLOAD then o else extend_lane o UPLOAD (upload_drivers reg).

Definition derive_supported_operations (caps : list string) : list string :=
  flat_map (fun cap => if cap ==s "write" then [WRITE] else if cap ==s "read" then [READ] else []) caps.
(** [_self_register_store_drivers] *)
Definition self_register_stores (ds : list driver) (o : operations) : operations :=
  fold_left (fun o op =>
    if is_operator_managed o op then o
    else extend_lane o op (map d_ref (List.filter (fun d => str_mem op (derive_supported_operations (capabilities d))) ds)))
    [WRITE; READ] o.

Definition self_register_transformers (reg : registry) (ts : list TransformerEntry) : list TransformerEntry :=
  if existsb (fun t => bool_decide (t_source t = operator)) ts then ts
  else fold_left (fun ts r => if str_mem r (map t_ref ts) then ts else ts ++ [mkTransformer r auto]) (transform_drivers reg) ts.

(** [_self_register_drivers] of the tier. *)
Definition self_register_drivers (reg : registry) (t : tier) (o : operations) : operations :=
  match t with
  | Asset => self_register_upload reg (self_register_indexers reg Asset o)
  | _ => self_register_indexers reg t o
  end.

(** ** Validation *)

Inductive routing_error : Type :=
| SearchLane
| EmptyRead
| WarnOutsideWrite (op ref : string)
| DanglingTransformer
| UnsupportedHints (ref : string)
| UnsupportedOperation (ref op : string)
| NotAnIndexer (ref : string)
| NotRegistered (ref : string)
| NoPublicParent.

Definition warned (es : list OperationDriverEntry) : option OperationDriverEntry :=
  find (fun e => bool_decide (on_failure e = WARN)) es.
(** [_validate_lane_shape] *)
Definition validate_lane_shape (o : operations) : option routing_error :=
  match dict_get "SEARCH" o with
  | Some _ => Some SearchLane
  | None =>
      match dict_get READ o with
      | Some [] => Some EmptyRead
      | _ => match warned (lane o READ) with
             | Some e => Some (WarnOutsideWrite READ (driver_ref e))
             | None => match warned (lane o INDEX) with
                       | Some e => Some (WarnOutsideWrite INDEX (driver_ref e))
                       | None => None
                       end
             end
      end
  end.

Definition validate_transformer_attachment (c : routing_config) : option routing_error :=
  let refs := map t_ref (transformers c) in
  if forallb (fun kv => forallb (fun e => forallb (fun r => str_mem r refs) (input_transformers e ++ output_transformers e)) kv.2) (ops c)
  then None else Some DanglingTransformer.

(** One entry of [_validate_routing_entries]; drivers that are not registered are
    skipped. *)
Definition validate_entry (ds : list driver) (op : string) (e : OperationDriverEntry) : option routing_error :=
  match index_get ds (driver_ref e) with
  | None => None
  | Some d =>
      if negb (bool_decide (e_hints e ⊆ supported_hints d)) then Some (UnsupportedHints (driver_ref e))
      else if str_mem op [WRITE; READ] && negb (str_mem op (derive_supported_operations (capabilities d)))
      then Some (UnsupportedOperation (driver_ref e) op)
      else if (op ==s INDEX) && negb (is_indexer d) then Some (NotAnIndexer (driver_ref e)) else None
  end.
Fixpoint first_error {A} (f : A -> option routing_error) (l : list A) : option routing_error :=
  match l with
  | [] => None
  | x :: l => match f x with Some e => Some e | None => first_error f l end
  end.
Definition validate_routing_entries (ds : list driver) (o : operations) : option routing_error :=
  first_error (fun kv => first_error (validate_entry ds kv.1) kv.2) o.

(** ** Building a configuration *)

(** [_stamp_operator_provenance]; [None] stamps every lane. *)
Definition stamp (e : OperationDriverEntry) : OperationDriverEntry :=
  mkEntry (driver_ref e) (e_hints e) (on_failure e) operator (input_transformers e) (output_transformers e).
Definition stamp_operator_provenance (changed : option (list string)) (o : operations) : operations :=
  map (fun kv => if match changed with Some ks => str_mem kv.1 ks | None => true end then (kv.1, map stamp kv.2) else kv) o.

(** [_compute_changed_op_keys]: the lanes whose set of drivers differs from the stored
    one; [None] when nothing is stored. *)
Definition refs_of (es : list OperationDriverEntry) : gset string := list_to_set (map driver_ref es).
Definition compute_changed_op_keys (incoming : operations) (stored : option operations) : option (list string) :=
  match stored with
  | None => None
  | Some s => Some (List.filter (fun k => negb (bool_decide (refs_of (lane incoming k) = refs_of (lane s k))))
                      (map fst incoming ++ map fst s))
  end.

(** [_augment_and_validate_routing]: [external] holds the changed lanes of an
    operator's write. *)
Definition augment_and_validate (reg : registry) (t : tier) (external : option (option (list string))) (c : routing_config)
    : routing_error + routing_config :=
  let o := match external with Some changed => stamp_operator_provenance changed (ops c) | None => ops c end in
  let c := mkRouting (self_register_drivers reg t o) (self_register_transformers reg (transformers c)) in
  match validate_lane_shape (ops c) with
  | Some e => inl e
  | None => match validate_transformer_attachment c with Some e => inl e | None => inr c end
  end.
Definition load_config (reg : registry) (t : tier) (c : routing_config) : routing_error + routing_config :=
  augment_and_validate reg t None c.
(** [routing_plugin_cls()] *)
Definition default_config (reg : registry) (t : tier) : routing_error + routing_config :=
  load_config reg t (mkRouting (default_operations t) []).

(** ** Public collections *)

Definition PUBLIC_COLLECTION_ES_DRIVER_ID : string := "collection_elasticsearch_driver".
Definition PUBLIC_CATALOG_ES_DRIVER_ID : string := "catalog_elasticsearch_driver".
Definition operation_pins_driver (o : operations) (op ref : string) : bool := has_ref (lane o op) ref.
Definition collection_routing_is_public (o : operations) : bool := operation_pins_driver o INDEX PUBLIC_COLLECTION_ES_DRIVER_ID.
Definition catalog_routing_is_public (o : operations) : bool := operation_pins_driver o INDEX PUBLIC_CATALOG_ES_DRIVER_ID.
Definition public_parent_error (o : operations) (parent : option operations) : option routing_error :=
  if collection_routing_is_public o then
    if match parent with Some p => catalog_routing_is_public p | None => false end then None else Some NoPublicParent
  else None.

(** ** Writing a configuration *)

(** The collection tier names its stores, its indexers and, as transformers, item
    stores. *)
Definition validate_collection_entries (reg : registry) (c : routing_config) : option routing_error :=
  let store ref := match index_get (collection_stores reg) ref with Some _ => true | None => false end in
  let indexer ref := str_mem ref (map d_ref (List.filter (fun d => str_mem "collection" (index_tiers d)) (index_tier_drivers reg))) in
  let known e := if store (driver_ref e) || indexer (driver_ref e) then None else Some (NotRegistered (driver_ref e)) in
  let bulk e := match match index_get (collection_stores reg) (driver_ref e) with Some d => Some d | None => index_get (items_stores reg) (driver_ref e) end with
                | Some d => if is_indexer d then None else Some (NotAnIndexer (driver_ref e))
                | None => None
                end in
  match first_error known (lane (ops c) READ) with
  | Some e => Some e
  | None =>
      match first_error (fun t => match index_get (items_stores reg) (t_ref t) with Some _ => None | None => Some (NotRegistered (t_ref t)) end)
              (transformers c) with
      | Some e => Some e
      | None => match first_error known (lane (ops c) WRITE) with
                | Some e => Some e
                | None => first_error bulk (lane (ops c) INDEX)
                end
      end
  end.

Definition set_ops (o : operations) (c : routing_config) : routing_config := mkRouting o (transformers c).
(** The validate handlers, which run before the row is stored and may extend the
    object they check; [parent] is the routing of the catalog a collection is in. *)
Definition validate_handler (reg : registry) (t : tier) (parent : option (option operations)) (c : routing_config)
    : routing_error + routing_config :=
  match t with
  | Items =>
      match validate_routing_entries (items_stores reg) (ops c) with
      | Some e => inl e
      | None => inr (set_ops (self_register_indexers reg Items (ops c)) c)
      end
  | Asset =>
      match validate_routing_entries (asset_stores reg) (ops c) with
      | Some e => inl e
      | None => inr (set_ops (self_register_upload reg (self_register_indexers reg Asset (ops c))) c)
      end
  | Catalog =>
      let c := set_ops (self_register_stores (catalog_stores reg) (ops c)) c in
      match validate_routing_entries (catalog_stores reg) (ops c) with
      | Some e => inl e
      | None => inr (set_ops (self_register_indexers reg Catalog (ops c)) c)
      end
  | Collection =>
      let c := set_ops (self_register_stores (collection_stores reg) (ops c)) c in
      match validate_collection_entries reg c with
      | Some e => inl e
      | None =>
          let c := set_ops (self_register_indexers reg Collection (ops c)) c in
          match match parent with Some p => public_parent_error (ops c) p | None => None end with
          | Some e => inl e
          | None => inr c
          end
      end
  end.

(** An operator's write: what is stored and what is returned, or why it is refused.
    [set_config] serialises the configuration before it runs the handler, so what the
    handler adds is in the returned object and not in the row. *)
Definition put_config (reg : registry) (t : tier) (parent : option (option operations)) (stored : option operations) (c : routing_config)
    : routing_error + (routing_config * routing_config) :=
  match augment_and_validate reg t (Some (compute_changed_op_keys (ops c) stored)) c with
  | inl e => inl e
  | inr row => match validate_handler reg t parent row with
               | inl e => inl e
               | inr returned => inr (row, returned)
               end
  end.

(** ** Resolution *)

Definition PREFER_PREFIX : string := "prefer:".
Definition DRIVER_PREFER_ALIASES : list (string * string) :=
  [("es", "elasticsearch"); ("pg", "postgresql"); ("postgres", "postgresql"); ("bq", "bigquery"); ("duckdb", "duckdb"); ("iceberg", "iceberg")].
Definition is_prefer (h : string) : bool := String.prefix PREFER_PREFIX h.
Definition prefer_target (h : string) : string := str_lower (str_strip (str_drop 7 h)).

(** The driver refs one token adds to those seen. *)
Definition prefer_refs (target : string) (es : list OperationDriverEntry) (seen : list string) : list string :=
  if str_mem target (map driver_ref es) && negb (str_mem target seen) then [target]
  else
    let needle := default target (dict_get target DRIVER_PREFER_ALIASES) in
    fold_left (fun acc e => if str_contains needle (driver_ref e) && negb (str_mem (driver_ref e) (seen ++ acc))
                            then acc ++ [driver_ref e] else acc) es [].
(** [_resolve_driver_preferences] *)
Definition resolve_driver_preferences (hints : list string) (es : list OperationDriverEntry) : list string :=
  fold_left (fun acc h =>
    if is_prefer h then
      let target := prefer_target h in
      if target ==s "" then acc else acc ++ prefer_refs target es acc
    else acc) hints [].

(** The configured lane, or that of the tier's defaults when it is empty. *)
Definition effective_lane (reg : registry) (t : tier) (o : operations) (op : string) : list OperationDriverEntry :=
  match lane o op with
  | [] => match default_config reg t with inr c => lane (ops c) op | inl _ => [] end
  | es => es
  end.

Definition entry_surface (ds : list driver) (e : OperationDriverEntry) : gset string :=
  if bool_decide (e_hints e = ∅) then match index_get ds (driver_ref e) with Some d => supported_hints d | None => ∅ end
  else e_hints e.
Definition entry_matches (ds : list driver) (hints : gset string) (e : OperationDriverEntry) : bool :=
  bool_decide (hints ⊆ entry_surface ds e).

(** [matched.sort]: a larger surface first, then the order of the lane. *)
Definition surface_le (ds : list driver) (a b : nat * OperationDriverEntry) : Prop :=
  (size (entry_surface ds b.2) < size (entry_surface ds a.2))%nat \/
  (size (entry_surface ds a.2) = size (entry_surface ds b.2) /\ (a.1 <= b.1)%nat).
#[export] Instance surface_le_dec ds : RelDecision (surface_le ds).
Proof. intros a b. unfold surface_le. apply _. Defined.

Definition hinted (ds : list driver) (hints : gset string) (op : string) (es : list OperationDriverEntry) : list OperationDriverEntry :=
  let numbered := zip (seq 0 (length es)) es in
  let matched := merge_sort (surface_le ds) (List.filter (fun ie => entry_matches ds hints ie.2) numbered) in
  match matched with
  | [] => if op ==s READ then es else []
  | _ => if op ==s READ then map snd matched ++ List.filter (fun e => negb (entry_matches ds hints e)) es
         else map snd matched
  end.
Definition untagged (es : list OperationDriverEntry) : list OperationDriverEntry :=
  match List.filter (fun e => bool_decide (e_hints e = ∅)) es with [] => es | us => us end.

(** [_resolve_driver_ids_cached], on the entries of the lane. *)
Definition select_entries (ds : list driver) (op : string) (hints : list string) (es : list OperationDriverEntry)
    : list OperationDriverEntry :=
  let prefers := resolve_driver_preferences hints es in
  let wanted : gset string := list_to_set (List.filter (fun h => negb (is_prefer h)) hints) in
  let preferred := flat_map (fun ref => List.filter (fun e => driver_ref e ==s ref) es) prefers in
  if negb (length preferred =? 0)%nat && str_mem op [READ; INDEX] then
    if op ==s READ then preferred ++ List.filter (fun e => negb (str_mem (driver_ref e) prefers)) es else preferred
  else if bool_decide (wanted = ∅) then if op ==s READ then untagged es else es
  else hinted ds wanted op es.

Definition resolve_entries (reg : registry) (t : tier) (o : operations) (op : string) (hints : list string) : list OperationDriverEntry :=
  let ds := match t with Asset => asset_stores reg | _ => items_stores reg end in
  select_entries ds op hints (effective_lane reg t o op).

(** A resolved driver with its failure policy. *)
Record ResolvedDriver : Type := mkResolvedDriver { rd_driver : driver; rd_on_failure : FailurePolicy }.
(** [resolve_drivers]: entries whose driver is not registered are skipped. *)
Definition resolve_drivers (reg : registry) (t : tier) (o : operations) (op : string) (hints : list string) : list ResolvedDriver :=
  let ds := match t with Asset => asset_stores reg | _ => items_stores reg end in
  omap (fun e => option_map (fun d => mkResolvedDriver d (on_failure e)) (index_get ds (driver_ref e))) (resolve_entries reg t o op hints).

Definition rank_search_pool (rs : list ResolvedDriver) : list ResolvedDriver :=
  let search rd := bool_decide ("search" ∈ supported_hints (rd_driver rd)) in
  List.filter search rs ++ List.filter (fun rd => negb (search rd)) rs.
(** [get_items_search_driver] and [get_asset_search_driver]; [None] is the error. *)
Definition get_search_driver (reg : registry) (t : tier) (o : operations) (hints : list string) : option ResolvedDriver :=
  match rank_search_pool (resolve_drivers reg t o INDEX hints) with
  | rd :: _ => Some rd
  | [] => head (resolve_drivers reg t o READ hints)
  end.
(** [get_driver]; [None] is the error. *)
Definition get_driver (reg : registry) (t : tier) (o : operations) (op : string) (hints : list string) : option driver :=
  option_map rd_driver (head (resolve_drivers reg t o op hints)).
Definition get_write_drivers (reg : registry) (t : tier) (o : operations) (hints : list string) : list ResolvedDriver :=
  resolve_drivers reg t o WRITE hints.
Definition get_index_drivers (reg : registry) (t : tier) (o : operations) (hints : list string) : list ResolvedDriver :=
  resolve_drivers reg t o INDEX hints.

(** [index_entries]: one entry per driver of the lane. *)
Definition index_entries (o : operations) : list OperationDriverEntry :=
  fold_left (fun acc e => if has_ref acc (driver_ref e) then acc else acc ++ [e]) (lane o INDEX) [].

(** [get_asset_upload_driver]: the back ends that implement uploads with their
    readiness; the first configured one that is ready, the first ready one, the first. *)
Definition get_asset_upload_driver (impls : list (string * bool)) (configured : list string) : option string :=
  let impl ref := fold_left (fun acc i => if i.1 ==s ref then Some i else acc) impls None in
  match omap (fun ref => match impl ref with Some i => if i.2 : bool then Some i.1 else None | None => None end) configured with
  | ref :: _ => Some ref
  | [] => match List.filter snd impls with
          | i :: _ => Some i.1
          | [] => option_map fst (head impls)
          end
  end.

(** [patch_routing_entry_hints]; [None] when the driver is not in the lane. *)
Fixpoint patch_entry (ref : string) (hints : gset string) (merge : bool) (es : list OperationDriverEntry)
    : option (list OperationDriverEntry) :=
  match es with
  | [] => None
  | e :: es =>
      if driver_ref e ==s ref
      then Some (mkEntry (driver_ref e) (if merge then e_hints e ∪ hints else hints) (on_failure e) (source e)
                   (input_transformers e) (output_transformers e) :: es)
      else option_map (cons e) (patch_entry ref hints merge es)
  end.
Definition patch_routing_entry_hints (op ref : string) (hints : gset string) (merge : bool) (o : operations) : option operations :=
  es ← patch_entry ref hints merge (lane o op); Some (dict_set op es o).

(** [parse_request_hints], on the values of the query parameter. *)
Definition HINTS : list string :=
  ["geometry_simplified"; "geometry_exact"; "tiles"; "search"; "fulltext"; "attribute_filter"; "spatial_filter"; "aggregation";
   "count"; "statistics"; "sort"; "group_by"; "analytics"; "features"; "write"; "metadata"; "assets"; "durable"; "join"; "default"; "defer"].
Definition parse_request_hints (values : list string) : list string :=
  dict_fromkeys (List.filter (fun tok => (is_prefer tok && (7 <? String.length tok)%nat) || str_mem tok HINTS)
                   (map (fun tok => str_lower (str_strip tok)) (flat_map (str_split ",") values))).
