(* ===== verification/RoutingProofs.v ===== *)
(** * Storage routing: theorems

    What a hinted read resolves to, what strict lanes guarantee, what an operator's
    write fixes, and the configurations the router does not read as documented. *)

From S2P Require Import Prelude Routing.

(** ** The order of a hinted read *)

#[export] Instance surface_le_total ds : Total (surface_le ds).
Proof. intros a b. unfold surface_le. lia. Qed.
#[export] Instance surface_le_trans ds : Transitive (surface_le ds).
Proof. intros a b c. unfold surface_le. lia. Qed.

Section ranked.
Context (ds : list driver) (wanted : gset string).
Abbreviation matches := (entry_matches ds wanted).
Abbreviation surface := (fun e => size (entry_surface ds e)).

(** Entries with their positions. *)
Definition numbered (es : list OperationDriverEntry) (i : nat) : list (nat * OperationDriverEntry) := zip (seq i (length es)) es.

Lemma numbered_filter (f : OperationDriverEntry -> bool) es : forall i,
  map snd (List.filter (fun ie => f ie.2) (numbered es i)) = List.filter f es.
Proof. induction es as [|e es IH]; intros i; simpl; [done|]. specialize (IH (S i)). unfold numbered in IH. destruct (f e); simpl; by rewrite IH. Qed.

Lemma numbered_bound es : forall i ie, ie ∈ numbered es i -> (i <= ie.1)%nat.
Proof.
  induction es as [|e es IH]; intros i ie; unfold numbered; simpl; [set_solver|].
  intros [->|Hin]%elem_of_cons; simpl; [lia|]. apply (IH (S i)) in Hin. lia.
Qed.

Lemma numbered_sorted es : forall i, StronglySorted (fun a b : nat * OperationDriverEntry => (a.1 < b.1)%nat) (numbered es i).
Proof.
  induction es as [|e es IH]; intros i; unfold numbered; simpl; [constructor|].
  constructor; [apply (IH (S i))|]. apply Forall_forall. intros ie Hin. apply (numbered_bound es (S i)) in Hin. simpl. lia.
Qed.

Lemma sorted_filter {A} (R : A -> A -> Prop) (f : A -> bool) l : StronglySorted R l -> StronglySorted R (List.filter f l).
Proof.
  induction 1 as [|x l Hs IH Hf]; simpl; [constructor|]. destruct (f x); [|done]. constructor; [done|].
  rewrite Forall_forall in *. intros y Hy. apply Hf. by apply list_elem_of_In, filter_In, proj1, list_elem_of_In in Hy.
Qed.

Lemma sorted_weaken {A} (R R' : A -> A -> Prop) l :
  (forall x y, x ∈ l -> y ∈ l -> R x y -> R' x y) -> StronglySorted R l -> StronglySorted R' l.
Proof.
  intros H Hs. induction Hs as [|x l Hs IH Hf]; constructor.
  - apply IH. intros. apply H; set_solver.
  - rewrite Forall_forall in *. intros y Hy. apply H; set_solver.
Qed.

Definition ranked (es : list OperationDriverEntry) : list (nat * OperationDriverEntry) :=
  merge_sort (surface_le ds) (List.filter (fun ie => matches ie.2) (numbered es 0)).

Lemma perm_filter {A} (f : A -> bool) l l' : l ≡ₚ l' -> List.filter f l ≡ₚ List.filter f l'.
Proof.
  induction 1; simpl; [done| | |by etrans]; repeat case_match; try done; [by f_equiv|by constructor].
Qed.

(** Sorting does not reorder the entries of one size. *)
Lemma ranked_stable es n :
  List.filter (fun ie => (surface ie.2 =? n)%nat) (ranked es) =
  List.filter (fun ie => (surface ie.2 =? n)%nat) (List.filter (fun ie => matches ie.2) (numbered es 0)).
Proof.
  pose proof (numbered_sorted es 0) as Hn.
  apply (StronglySorted_unique_strong (fun a b : nat * OperationDriverEntry => (a.1 <= b.1)%nat)).
  - intros a b Ha Hb H1 H2. assert (Hin : a ∈ numbered es 0 /\ b ∈ numbered es 0).
    { apply list_elem_of_In, filter_In, proj1, list_elem_of_In in Ha. unfold ranked in Ha. rewrite merge_sort_Permutation in Ha.
      apply list_elem_of_In, filter_In, proj1, list_elem_of_In in Ha.
      apply list_elem_of_In, filter_In, proj1, filter_In, proj1, list_elem_of_In in Hb. done. }
    destruct Hin as [Ha' Hb']. clear -Hn Ha' Hb' H1 H2.
    induction Hn as [|x l Hs IH Hf]; [set_solver|]. rewrite Forall_forall in Hf.
    apply elem_of_cons in Ha' as [->|Ha'], Hb' as [->|Hb']; [done|apply Hf in Hb'; lia|apply Hf in Ha'; lia|auto].
  - eapply sorted_weaken; [|apply sorted_filter, (StronglySorted_merge_sort (surface_le ds))].
    intros a b [_ Ha]%list_elem_of_In%filter_In [_ Hb]%list_elem_of_In%filter_In [Hlt|[_ Hle]]; [|done].
    apply Nat.eqb_eq in Ha, Hb. simpl in *. lia.
  - apply sorted_filter, sorted_filter. eapply sorted_weaken; [|exact Hn]. simpl. lia.
  - apply perm_filter, merge_sort_Permutation.
Qed.

Lemma ranked_perm es : map snd (ranked es) ≡ₚ List.filter matches es.
Proof. unfold ranked. rewrite (merge_sort_Permutation (surface_le ds)). by rewrite numbered_filter. Qed.

Lemma hinted_read es : hinted ds wanted READ es = map snd (ranked es) ++ List.filter (fun e => negb (matches e)) es.
Proof.
  unfold hinted. fold (numbered es 0). fold (ranked es). pose proof (ranked_perm es) as Hp.
  destruct (ranked es) as [|x l] eqn:Hr; [|done]. simpl in *. apply Permutation_nil_l in Hp.
  symmetry. clear -Hp. induction es as [|e es IH]; simpl in *; [done|]. destruct (matches e); [done|]. simpl. by rewrite IH.
Qed.
End ranked.

Lemma sorted_pos {A} (R : A -> A -> Prop) l i j x y : StronglySorted R l -> (i < j)%nat -> l !! i = Some x -> l !! j = Some y -> R x y.
Proof.
  intros Hs. revert i j. induction Hs as [|z l Hs IH Hf]; intros i j Hij Hx Hy; [done|].
  destruct j as [|j]; [lia|]. simpl in Hy. destruct i as [|i]; simpl in Hx; [|by eapply (IH i j); [lia|..]].
  simplify_eq. rewrite Forall_forall in Hf. apply Hf. by apply list_elem_of_lookup_2 in Hy.
Qed.

Lemma filter_none {A} (f : A -> bool) l : (forall x, x ∈ l -> f x = false) -> List.filter f l = [].
Proof. intros H. induction l as [|x l IH]; simpl; [done|]. rewrite (H x) by set_solver. apply IH. set_solver. Qed.
Lemma filter_keeps {A} (f : A -> bool) l : (forall x, x ∈ l -> f x = true) -> List.filter f l = l.
Proof. intros H. induction l as [|x l IH]; simpl; [done|]. rewrite (H x) by set_solver. f_equal. apply IH. set_solver. Qed.
Lemma filter_filter {A} (f g : A -> bool) l : List.filter f (List.filter g l) = List.filter (fun x => g x && f x) l.
Proof. induction l as [|x l IH]; simpl; [done|]. destruct (g x); simpl; [destruct (f x)|]; by rewrite IH. Qed.
Lemma filter_map_snd {A B} (f : B -> bool) (l : list (A * B)) : List.filter f (map snd l) = map snd (List.filter (fun x => f x.2) l).
Proof. induction l as [|x l IH]; simpl; [done|]. destruct (f x.2); simpl; by rewrite IH. Qed.
Lemma filter_complement {A} (f : A -> bool) l : List.filter f l ++ List.filter (fun x => negb (f x)) l ≡ₚ l.
Proof. induction l as [|x l IH]; simpl; [done|]. destruct (f x); simpl; [by rewrite IH|]. by rewrite <- Permutation_middle, IH. Qed.

(** What the order of the resolved entries [out] of a lane [es] promises. *)
Record ranking (ds : list driver) (wanted : gset string) (es out : list OperationDriverEntry) : Prop := {
  rk_order : forall i j a b, (i < j)%nat -> out !! i = Some a -> out !! j = Some b -> entry_matches ds wanted b = true ->
    entry_matches ds wanted a = true /\ (size (entry_surface ds b) <= size (entry_surface ds a))%nat;
  rk_stable : forall n, let f e := entry_matches ds wanted e && (size (entry_surface ds e) =? n)%nat in
    List.filter f out = List.filter f es;
  rk_tail : let f e := negb (entry_matches ds wanted e) in List.filter f out = List.filter f es;
}.

Lemma ranked_matches ds wanted es ie : ie ∈ ranked ds wanted es -> entry_matches ds wanted ie.2 = true.
Proof.
  unfold ranked. rewrite merge_sort_Permutation. intros Hin. by apply list_elem_of_In, filter_In, proj2 in Hin.
Qed.

Lemma hinted_ranking ds wanted es : ranking ds wanted es (hinted ds wanted READ es).
Proof.
  rewrite hinted_read. set (L := ranked ds wanted es). set (T := List.filter (fun e => negb (entry_matches ds wanted e)) es).
  assert (HT : forall e, e ∈ T -> entry_matches ds wanted e = false).
  { intros e [_ He]%list_elem_of_In%filter_In. by destruct (entry_matches ds wanted e). }
  assert (HL : forall e, e ∈ map snd L -> entry_matches ds wanted e = true).
  { intros e (ie&->&Hin)%list_elem_of_fmap. by eapply ranked_matches. }
  constructor.
  - intros i j a b Hij Ha Hb Hm. apply lookup_app_Some in Hb as [Hb|[_ Hb]]; [|apply list_elem_of_lookup_2, HT in Hb; congruence].
    pose proof (lookup_lt_Some _ _ _ Hb). rewrite lookup_app_l in Ha by lia. split; [apply HL; by eapply list_elem_of_lookup_2|].
    apply list_lookup_fmap_Some in Ha as (ia&->&Ha), Hb as (ib&->&Hb).
    assert (Hle : surface_le ds ia ib).
    { eapply sorted_pos; [|exact Hij|exact Ha|exact Hb]. apply (StronglySorted_merge_sort (surface_le ds)). }
    destruct Hle as [?|[? _]]; lia.
  - intros n f. rewrite List.filter_app, (filter_none f T), app_nil_r by (intros e He; unfold f; by rewrite HT).
    rewrite filter_map_snd. transitivity (map snd (List.filter (fun ie => (size (entry_surface ds ie.2) =? n)%nat) L)).
    + f_equal. apply List.filter_ext_in. intros ie Hin%list_elem_of_In. unfold f. by rewrite (ranked_matches _ _ _ _ Hin).
    + unfold L. rewrite ranked_stable, filter_filter.
      exact (numbered_filter (fun e => entry_matches ds wanted e && (size (entry_surface ds e) =? n)%nat) es 0).
  - intros f. rewrite List.filter_app, filter_none, (filter_keeps f T); [done| |].
    + intros e He. unfold f. by rewrite HT.
    + intros e He. unfold f. by rewrite HL.
Qed.

Lemma hinted_perm ds wanted es : hinted ds wanted READ es ≡ₚ es.
Proof. rewrite hinted_read, ranked_perm. apply filter_complement. Qed.

(** ** Preferences *)

Lemma prefer_fold_NoDup needle (es : list OperationDriverEntry) seen : forall acc,
  NoDup (seen ++ acc) ->
  NoDup (seen ++ fold_left (fun acc e => if str_contains needle (driver_ref e) && negb (str_mem (driver_ref e) (seen ++ acc))
                                         then acc ++ [driver_ref e] else acc) es acc).
Proof.
  induction es as [|e es IH]; intros acc Hn; simpl; [done|]. apply IH.
  destruct (str_contains needle (driver_ref e)); simpl; [|done].
  destruct (str_mem (driver_ref e) (seen ++ acc)) eqn:Hm; simpl; [done|]. apply str_mem_false in Hm.
  rewrite app_assoc. apply NoDup_app. split_and!; [done|set_solver|apply NoDup_singleton].
Qed.

Lemma prefer_refs_NoDup target es seen : NoDup seen -> NoDup (seen ++ prefer_refs target es seen).
Proof.
  intros Hn. unfold prefer_refs. destruct (_ && _) eqn:Hc.
  - apply andb_prop in Hc as [_ Hm]. destruct (str_mem target seen) eqn:Hs; [done|]. apply str_mem_false in Hs.
    apply NoDup_app. split_and!; [done|set_solver|apply NoDup_singleton].
  - apply prefer_fold_NoDup. by rewrite app_nil_r.
Qed.

Lemma preferences_NoDup hints es : NoDup (resolve_driver_preferences hints es).
Proof.
  unfold resolve_driver_preferences. generalize (@NoDup_nil_2 string). generalize ([] : list string).
  induction hints as [|h hints IH]; intros acc Hn; simpl; [done|]. apply IH.
  destruct (is_prefer h); [|done]. destruct (_ ==s _); [done|]. by apply prefer_refs_NoDup.
Qed.

Lemma prefer_refs_known target es seen r : r ∈ prefer_refs target es seen -> r ∈ map driver_ref es.
Proof.
  unfold prefer_refs. destruct (_ && _) eqn:Hc.
  - apply andb_prop in Hc as [Hm%str_mem_In _]. intros ->%list_elem_of_singleton. done.
  - clear Hc. assert (Hsub : forall needle es' acc, (forall x, x ∈ acc -> x ∈ map driver_ref es) -> (forall e, e ∈ es' -> e ∈ es) ->
      r ∈ fold_left (fun acc e => if str_contains needle (driver_ref e) && negb (str_mem (driver_ref e) (seen ++ acc))
                                  then acc ++ [driver_ref e] else acc) es' acc -> r ∈ map driver_ref es).
    { intros needle es'. induction es' as [|e es' IH]; intros acc Ha He; simpl; [apply Ha|]. apply IH; [|set_solver].
      destruct (_ && _); [|exact Ha]. intros x [Hx|Hx%list_elem_of_singleton]%elem_of_app; [by apply Ha|].
      rewrite Hx. apply list_elem_of_fmap_2, He. set_solver. }
    apply Hsub; set_solver.
Qed.

Lemma preferences_known hints es r : r ∈ resolve_driver_preferences hints es -> r ∈ map driver_ref es.
Proof.
  unfold resolve_driver_preferences. assert (Hnil : forall x : string, x ∈ [] -> x ∈ map driver_ref es) by set_solver.
  revert Hnil. generalize ([] : list string). induction hints as [|h hints IH]; intros acc Ha; simpl; [apply Ha|]. apply IH.
  destruct (is_prefer h); [|exact Ha]. destruct (_ ==s _); [exact Ha|].
  intros x [Hx|Hx]%elem_of_app; [by apply Ha|]. by eapply prefer_refs_known.
Qed.

(** The entries of distinct refs, taken ref by ref, and the rest. *)
Lemma by_ref_perm (refs : list string) (es : list OperationDriverEntry) :
  NoDup refs ->
  flat_map (fun ref => List.filter (fun e => driver_ref e ==s ref) es) refs ++
    List.filter (fun e => negb (str_mem (driver_ref e) refs)) es ≡ₚ es.
Proof.
  induction 1 as [|r refs Hr Hn IH]; simpl.
  - rewrite filter_keeps; done.
  - rewrite <- app_assoc. transitivity (List.filter (fun e => driver_ref e ==s r) es ++ List.filter (fun e => negb (driver_ref e ==s r)) es);
      [|apply filter_complement].
    f_equiv. etrans; [|exact (perm_filter _ _ _ IH)]. rewrite List.filter_app, filter_filter. f_equiv.
    + symmetry. rewrite filter_keeps; [done|]. intros e He. apply list_elem_of_In, in_flat_map in He as (ref&Href&[_ He]%filter_In).
      apply String.eqb_eq in He. rewrite He. destruct (String.eqb_spec ref r) as [->|]; [|done]. by apply list_elem_of_In in Href.
    + erewrite List.filter_ext; [done|]. intros e. unfold str_mem. simpl. rewrite negb_orb. apply andb_comm.
Qed.

(** ** Reads *)

Definition wanted_hints (hints : list string) : gset string := list_to_set (List.filter (fun h => negb (is_prefer h)) hints).
Definition tier_drivers (reg : registry) (t : tier) : list driver := match t with Asset => asset_stores reg | _ => items_stores reg end.

(** C30: A read with hints or a preference loses no reader: it resolves to all entries
    of its lane. The drivers of a preference that matches come before all others; only
    when no preference matches are the entries ranked by the hints, those that serve
    every hint first, the larger declared surface before the smaller and equal ones as
    configured, then the others as configured. *)
Theorem hinted_read_complete reg t o hints (es := effective_lane reg t o READ) (out := resolve_entries reg t o READ hints)
    (prefers := resolve_driver_preferences hints es) :
  (wanted_hints hints <> ∅ \/ prefers <> []) ->
  out ≡ₚ es /\
  (prefers = [] -> ranking (tier_drivers reg t) (wanted_hints hints) es out) /\
  (forall i j a b, (i < j)%nat -> out !! i = Some a -> out !! j = Some b -> driver_ref b ∈ prefers -> driver_ref a ∈ prefers).
Proof.
  intros Hh. unfold out, resolve_entries. fold (tier_drivers reg t). fold es. unfold select_entries. fold prefers. fold (wanted_hints hints).
  set (pref := flat_map _ prefers). pose proof (by_ref_perm prefers es (preferences_NoDup hints es)) as Hp. fold pref in Hp.
  assert (Hin : forall e, e ∈ pref -> driver_ref e ∈ prefers).
  { intros e He. apply list_elem_of_In, in_flat_map in He as (ref&Href&[_ He]%filter_In). apply String.eqb_eq in He as ->. by apply list_elem_of_In. }
  assert (Hout : forall e, e ∈ List.filter (fun e => negb (str_mem (driver_ref e) prefers)) es -> driver_ref e ∉ prefers).
  { intros e [_ He]%list_elem_of_In%filter_In. apply str_mem_false. by destruct (str_mem _ _). }
  assert (Hnil : pref = [] -> prefers = []).
  { intros He. destruct prefers as [|r rs] eqn:Hpr; [done|]. exfalso.
    assert (Hr : r ∈ map driver_ref es) by (apply (preferences_known hints); fold prefers; rewrite Hpr; set_solver).
    apply list_elem_of_fmap in Hr as (e&->&He'). assert (e ∈ pref); [|rewrite He in *; set_solver].
    unfold pref. apply list_elem_of_In, in_flat_map. exists (driver_ref e). split; [by left|].
    apply filter_In. split; [by apply list_elem_of_In|apply String.eqb_refl]. }
  destruct (length pref =? 0)%nat eqn:Hl; simpl.
  - apply Nat.eqb_eq, length_zero_iff_nil in Hl. rewrite (Hnil Hl) in *. destruct Hh as [Hh|]; [|done].
    rewrite bool_decide_false by done. split_and!; [apply hinted_perm|intros _; apply hinted_ranking|set_solver].
  - split_and!; [done| |].
    + intros Hpr. apply Nat.eqb_neq in Hl. unfold pref in Hl. rewrite Hpr in Hl. done.
    + intros i j a b Hij Ha Hb Hbp. apply lookup_app_Some in Hb as [Hb|[_ Hb]].
      * pose proof (lookup_lt_Some _ _ _ Hb). rewrite lookup_app_l in Ha by lia. apply Hin. by eapply list_elem_of_lookup_2.
      * by apply list_elem_of_lookup_2, Hout in Hb.
Qed.

(** ** Strict lanes *)

Lemma hinted_strict ds wanted op es e :
  op <> READ -> e ∈ hinted ds wanted op es -> e ∈ es /\ entry_matches ds wanted e = true.
Proof.
  intros Hop. unfold hinted. fold (numbered es 0). fold (ranked ds wanted es). apply String.eqb_neq in Hop. rewrite Hop.
  assert (Hr : forall e', e' ∈ map snd (ranked ds wanted es) -> e' ∈ es /\ entry_matches ds wanted e' = true).
  { intros e'. rewrite ranked_perm. by intros [?%list_elem_of_In ?]%list_elem_of_In%filter_In. }
  destruct (ranked ds wanted es); [set_solver|apply Hr].
Qed.

Lemma first_error_none {A} (f : A -> option routing_error) l x : first_error f l = None -> x ∈ l -> f x = None.
Proof.
  induction l as [|y l IH]; simpl; [set_solver|]. destruct (f y) eqn:Hy; [done|].
  intros Hl [->|Hx]%elem_of_cons; [done|by apply IH].
Qed.

Lemma dict_get_elem {A} k (v : A) d : dict_get k d = Some v -> (k, v) ∈ d.
Proof.
  induction d as [|[k' v'] d IH]; simpl; [done|]. destruct (String.eqb_spec k k') as [->|]; [|set_solver].
  intros [= ->]. set_solver.
Qed.

Lemma validated_entry ds o op e :
  validate_routing_entries ds o = None -> e ∈ lane o op -> validate_entry ds op e = None.
Proof.
  unfold validate_routing_entries, lane. intros Hv. destruct (dict_get op o) as [es|] eqn:Hd; simpl; [|set_solver].
  apply dict_get_elem in Hd. pose proof (first_error_none _ _ _ Hv Hd) as He. simpl in He. by apply first_error_none.
Qed.

Lemma matched_supports ds op wanted e d :
  validate_entry ds op e = None -> index_get ds (driver_ref e) = Some d -> entry_matches ds wanted e = true ->
  wanted ⊆ supported_hints d.
Proof.
  unfold validate_entry, entry_matches, entry_surface. intros Hv Hd Hm. rewrite Hd in *. apply bool_decide_eq_true in Hm.
  destruct (bool_decide (e_hints e ⊆ supported_hints d)) eqn:Hs; [|done]. apply bool_decide_eq_true in Hs.
  destruct (bool_decide (e_hints e = ∅)); set_solver.
Qed.

(** A lane for writing or indexing resolves, under hints, only to registered drivers of
    the lane that declare every one of them, once the configuration is validated. *)
Theorem strict_lane_honours_hints reg t o op hints rd :
  (op = WRITE \/ (op = INDEX /\ resolve_driver_preferences hints (lane o op) = [])) ->
  validate_routing_entries (tier_drivers reg t) o = None -> lane o op <> [] -> wanted_hints hints <> ∅ ->
  rd ∈ resolve_drivers reg t o op hints ->
  wanted_hints hints ⊆ supported_hints (rd_driver rd) /\
  exists e, e ∈ lane o op /\ index_get (tier_drivers reg t) (driver_ref e) = Some (rd_driver rd) /\ on_failure e = rd_on_failure rd.
Proof.
  intros Hop Hv Hl Hw (e&He&Hd)%list_elem_of_omap. fold (tier_drivers reg t) in *.
  destruct (index_get (tier_drivers reg t) (driver_ref e)) as [d|] eqn:Hi; simplify_eq/=.
  unfold resolve_entries in He. fold (tier_drivers reg t) in He.
  assert (Heff : effective_lane reg t o op = lane o op) by (unfold effective_lane; by destruct (lane o op)).
  rewrite Heff in He. assert (Hsel : e ∈ hinted (tier_drivers reg t) (wanted_hints hints) op (lane o op)).
  { unfold select_entries in He. fold (wanted_hints hints) in He. rewrite (bool_decide_false _ Hw) in He.
    destruct Hop as [->|[-> Hpr]]; [by rewrite andb_false_r in He|]. by rewrite Hpr in He. }
  assert (op <> READ) by (by destruct Hop as [->|[-> _]]).
  apply hinted_strict in Hsel as [Hin Hm]; [|done]. split; [|eauto].
  eapply matched_supports; [by eapply validated_entry|done|done].
Qed.

(** Preferences never redirect a write. *)
Lemma write_ignores_preferences reg t o hints :
  resolve_drivers reg t o WRITE hints = resolve_drivers reg t o WRITE (List.filter (fun h => negb (is_prefer h)) hints).
Proof.
  unfold resolve_drivers, resolve_entries, select_entries. cbn [str_mem existsb]. rewrite !andb_false_r.
  by rewrite filter_filter, (List.filter_ext (fun h => negb (is_prefer h) && negb (is_prefer h)) (fun h => negb (is_prefer h)))
    by (intros h; apply andb_diag).
Qed.

(** ** Operators and discovery *)

(** A lane with an entry of an operator, or an index lane an operator emptied. *)
Definition pinned (op : string) (es : list OperationDriverEntry) : Prop := existsb by_operator es = true \/ (op = INDEX /\ es = []).

Lemma extend_lane_other o op op' refs : op <> op' -> dict_get op (extend_lane o op' refs) = dict_get op o.
Proof. intros Hne. unfold extend_lane. destruct (append_missing _ _); [done|]. by apply dict_get_set_ne. Qed.

Lemma managed_pinned o op es : dict_get op o = Some es -> existsb by_operator es = true -> is_operator_managed o op = true.
Proof. unfold is_operator_managed, lane. by intros ->. Qed.

Lemma indexers_keep_pinned reg t o op es :
  dict_get op o = Some es -> pinned op es -> dict_get op (self_register_indexers reg t o) = Some es.
Proof.
  intros Hd Hp. unfold self_register_indexers. destruct (is_operator_managed o WRITE); [done|].
  destruct (decide (op = INDEX)) as [->|Hne].
  - rewrite Hd. destruct es as [|e es]; [done|]. destruct Hp as [->|[_ ?]]; done.
  - case_match; [done|]. by rewrite extend_lane_other.
Qed.
Lemma upload_keeps_pinned reg o op es :
  dict_get op o = Some es -> pinned op es -> dict_get op (self_register_upload reg o) = Some es.
Proof.
  intros Hd Hp. unfold self_register_upload. destruct (decide (op = UPLOAD)) as [->|Hne].
  - destruct Hp as [Hp|[? _]]; [|done]. by rewrite (managed_pinned _ _ _ Hd Hp).
  - case_match; [done|]. by rewrite extend_lane_other.
Qed.
Lemma stores_keep_pinned ds o op es :
  dict_get op o = Some es -> pinned op es -> dict_get op (self_register_stores ds o) = Some es.
Proof.
  intros Hd Hp. unfold self_register_stores.
  assert (Hfold : forall l o', (INDEX ∉ l) -> dict_get op o' = Some es ->
    dict_get op (fold_left (fun o op => if is_operator_managed o op then o
      else extend_lane o op (map d_ref (List.filter (fun d => str_mem op (derive_supported_operations (capabilities d))) ds))) l o') = Some es).
  { induction l as [|k l IH]; intros o' Hk Ho; simpl; [done|]. apply IH; [set_solver|].
    destruct (decide (op = k)) as [->|Hne].
    - destruct Hp as [Hp|[-> _]]; [by rewrite (managed_pinned _ _ _ Ho Hp)|set_solver].
    - case_match; [done|]. by rewrite extend_lane_other. }
  by apply Hfold; [set_solver|].
Qed.
#[local] Hint Resolve indexers_keep_pinned upload_keeps_pinned stores_keep_pinned : core.

Lemma load_keeps_pinned reg t ext c c' op es o (Ho : o = match ext with Some ch => stamp_operator_provenance ch (ops c) | None => ops c end) :
  augment_and_validate reg t ext c = inr c' -> dict_get op o = Some es -> pinned op es -> dict_get op (ops c') = Some es.
Proof.
  unfold augment_and_validate. rewrite <- Ho. destruct (validate_lane_shape _); [done|].
  destruct (validate_transformer_attachment _); [done|]. intros [= <-] Hd Hp. simpl. destruct t; simpl; auto.
Qed.
Lemma handler_keeps_pinned reg t parent c c' op es :
  validate_handler reg t parent c = inr c' -> dict_get op (ops c) = Some es -> pinned op es -> dict_get op (ops c') = Some es.
Proof.
  unfold validate_handler. intros H Hd Hp.
  destruct t; repeat (case_match; simplify_eq); simpl; auto.
Qed.

(** What becomes of a stored configuration: it is loaded, and passed through the
    handlers again, in deployments that may discover other drivers. *)
Inductive later_config (t : tier) : routing_config -> routing_config -> Prop :=
| later_now c : later_config t c c
| later_load c c1 c2 reg : later_config t c c1 -> load_config reg t c1 = inr c2 -> later_config t c c2
| later_store c c1 c2 reg parent : later_config t c c1 -> validate_handler reg t parent c1 = inr c2 -> later_config t c c2.

Lemma later_keeps_pinned t c c' op es :
  later_config t c c' -> dict_get op (ops c) = Some es -> pinned op es -> dict_get op (ops c') = Some es.
Proof.
  intros Hl Hd Hp. induction Hl as [|c c1 c2 reg _ IH Hs|c c1 c2 reg parent _ IH Hs]; [done| |].
  - by eapply (load_keeps_pinned _ _ None); [done|exact Hs|apply IH|].
  - by eapply handler_keeps_pinned; [exact Hs|apply IH|].
Qed.

Lemma stamped_lane ks o op es :
  dict_get op o = Some es -> (match ks with Some ks => op ∈ ks | None => True end) ->
  dict_get op (stamp_operator_provenance ks o) = Some (map stamp es).
Proof.
  intros Hd Hk. induction o as [|[k v] o IH]; simpl in *; [done|].
  destruct (String.eqb_spec op k) as [->|Hne].
  - simplify_eq. destruct ks as [ks|]; [apply str_mem_In in Hk; rewrite Hk|]; simpl; by rewrite String.eqb_refl.
  - destruct (match ks with Some ks => str_mem k ks | None => true end); simpl; (destruct (String.eqb_spec op k); [done|]); auto.
Qed.

Lemma changed_key incoming stored op es :
  dict_get op incoming = Some es -> (match stored with Some s => refs_of es <> refs_of (lane s op) | None => True end) ->
  match compute_changed_op_keys incoming stored with Some ks => op ∈ ks | None => True end.
Proof.
  intros Hd Hne. unfold compute_changed_op_keys. destruct stored as [s|]; [|done].
  apply list_elem_of_In, filter_In. split.
  - apply list_elem_of_In, elem_of_app. left. apply dict_get_elem in Hd. by apply (list_elem_of_fmap_2 fst) in Hd.
  - assert (Hl : lane incoming op = es) by (unfold lane; by rewrite Hd). by rewrite bool_decide_false by (by rewrite Hl).
Qed.

(** C29: What an operator writes stays. A lane whose drivers the operator changed, with
    at least one entry or the index lane emptied, is stored and returned as written,
    marked as the operator's, and however often the stored or the returned configuration
    is loaded or passed through the handlers again, in whatever deployment, no
    discovered driver is added to it: a removed driver does not come back. (Any other
    lane that is emptied is filled again.) *)
Theorem operator_lane_kept reg t parent stored c row returned c' c'' op es :
  put_config reg t parent stored c = inr (row, returned) ->
  c' = row \/ c' = returned ->
  dict_get op (ops c) = Some es ->
  match stored with Some s => refs_of es <> refs_of (lane s op) | None => True end ->
  (es <> [] \/ op = INDEX) ->
  later_config t c' c'' ->
  dict_get op (ops c'') = Some (map stamp es).
Proof.
  unfold put_config. intros Hput Hc' Hd Hch Hes Hl.
  destruct (augment_and_validate reg t _ c) as [|c1] eqn:Ha; [done|].
  destruct (validate_handler reg t parent c1) as [|c2] eqn:Hv; [done|]. simplify_eq.
  assert (Hp : pinned op (map stamp es)).
  { destruct es as [|e es]; [right; split; [by destruct Hes|done]|by left]. }
  pose proof (stamped_lane _ _ _ _ Hd (changed_key _ _ _ _ Hd Hch)) as Hst.
  assert (Hrow : dict_get op (ops row) = Some (map stamp es)) by (by eapply load_keeps_pinned; [reflexivity|exact Ha|exact Hst|]).
  eapply later_keeps_pinned; [exact Hl| |done]. destruct Hc' as [->| ->]; [done|by eapply handler_keeps_pinned].
Qed.

(** Extending a lane keeps what it has, adds what is missing, and repeats nothing. *)
Lemma append_missing_spec refs : forall es r,
  r ∈ map driver_ref (append_missing refs es) <-> r ∈ map driver_ref es \/ r ∈ refs.
Proof.
  induction refs as [|x refs IH]; intros es r; simpl; [set_solver|]. rewrite IH. unfold has_ref.
  destruct (str_mem x (map driver_ref es)) eqn:Hx; [apply str_mem_In in Hx; set_solver|].
  rewrite map_app. set_solver.
Qed.
Lemma append_missing_NoDup refs : forall es, NoDup (map driver_ref es) -> NoDup (map driver_ref (append_missing refs es)).
Proof.
  induction refs as [|x refs IH]; intros es Hn; simpl; [done|]. apply IH. unfold has_ref.
  destruct (str_mem x (map driver_ref es)) eqn:Hx; [done|]. apply str_mem_false in Hx.
  rewrite map_app. apply NoDup_app. split_and!; [done|set_solver|apply NoDup_singleton].
Qed.

(** An index lane no operator has touched lists every indexer that opts in, once. *)
Theorem untouched_index_follows_discovery reg t o (es := default [] (dict_get INDEX o)) :
  is_operator_managed o WRITE = false -> dict_get INDEX o <> Some [] -> existsb by_operator es = false ->
  NoDup (map driver_ref es) ->
  let es' := lane (self_register_indexers reg t o) INDEX in
  NoDup (map driver_ref es') /\
  forall r, r ∈ map driver_ref es' <-> r ∈ map driver_ref es \/ exists d, d ∈ index_tier_drivers reg /\ opted_in t d = true /\ r = d_ref d.
Proof.
  intros Hw Hne Hop Hn. unfold self_register_indexers. rewrite Hw.
  set (refs := map d_ref (List.filter (opted_in t) (index_tier_drivers reg))).
  assert (Hrefs : forall r, r ∈ refs <-> exists d, d ∈ index_tier_drivers reg /\ opted_in t d = true /\ r = d_ref d).
  { intros r. unfold refs. rewrite list_elem_of_fmap. setoid_rewrite list_elem_of_In. setoid_rewrite filter_In. naive_solver. }
  assert (Hlane : lane (extend_lane o INDEX refs) INDEX = append_missing refs es).
  { unfold extend_lane, lane. fold es. destruct (append_missing refs es) as [|e l] eqn:Ha; [|by rewrite dict_get_set_eq].
    destruct es as [|e0 es0] eqn:He; [by unfold es in He; rewrite He|].
    assert (Hin : driver_ref e0 ∈ map driver_ref (append_missing refs (e0 :: es0))) by (apply append_missing_spec; left; set_solver).
    rewrite Ha in Hin. set_solver. }
  assert (Hg : match dict_get INDEX o with Some [] => true | Some l => existsb by_operator l | None => false end = false).
  { unfold es in Hop. destruct (dict_get INDEX o) as [[|e l]|]; done. }
  rewrite Hg, Hlane. split; [by apply append_missing_NoDup|]. intros r. by rewrite append_missing_spec, Hrefs.
Qed.

(** ** Cases *)

Definition items_pg : driver :=
  mkDriver "items_postgresql_driver" {["geometry_exact"; "tiles"; "join"; "group_by"; "features"]} ["read"; "write"] false [] [].
Definition items_es : driver :=
  mkDriver "items_elasticsearch_driver" {["geometry_simplified"; "search"; "fulltext"]} ["read"; "write"] true ["item"] [INDEX].
Definition items_vector : driver := mkDriver "items_vector_driver" {["search"]} ["write"] true ["item"] [INDEX].
Definition collection_pg : driver := mkDriver "collection_postgresql_driver" {["geometry_exact"; "metadata"]} ["read"; "write"] false [] [].
Definition collection_es : driver := mkDriver "collection_elasticsearch_driver" {["metadata"]} [] true ["collection"] [INDEX].
Definition catalog_pg : driver := mkDriver "catalog_postgresql_driver" {["metadata"]} ["read"; "write"] false [] [].
Definition catalog_es : driver := mkDriver "catalog_elasticsearch_driver" {["metadata"]} ["read"] true ["catalog"] [INDEX].
Definition deployment : registry :=
  mkRegistry [items_pg; items_es] [collection_pg] [] [catalog_pg; catalog_es] [items_es; collection_es; catalog_es] [] [].
(** The same with a second indexer installed. *)
Definition deployment2 : registry :=
  mkRegistry [items_pg; items_es; items_vector] [collection_pg] [] [catalog_pg; catalog_es] [items_es; items_vector; collection_es; catalog_es] [] [].

Definition refs (es : list OperationDriverEntry) : list string := map driver_ref es.
Definition resolved_refs (rs : list ResolvedDriver) : list string := map (fun rd => d_ref (rd_driver rd)) rs.
Definition items_default : operations := default_operations Items.

(** Exact geometry is read from PostgreSQL, with the index behind it. *)
Lemma hinted_read_complete_witness :
  resolve_entries deployment Items items_default READ ["geometry_exact"] ≡ₚ effective_lane deployment Items items_default READ /\
  refs (resolve_entries deployment Items items_default READ ["geometry_exact"]) = ["items_postgresql_driver"; "items_elasticsearch_driver"].
Proof.
  split; [|by vm_compute].
  apply (hinted_read_complete deployment Items items_default ["geometry_exact"]). left. by vm_compute.
Defined.

(** An operator turns indexing off; neither a reload nor a second indexer brings it
    back. *)
Definition no_index : operations := dict_set INDEX [] items_default.
Lemma operator_lane_kept_witness :
  exists row returned, put_config deployment Items None (Some items_default) (mkRouting no_index []) = inr (row, returned) /\
    exists c'', load_config deployment2 Items row = inr c'' /\ dict_get INDEX (ops c'') = Some [].
Proof.
  destruct (put_config deployment Items None (Some items_default) (mkRouting no_index [])) as [e|[row returned]] eqn:Hput; [by vm_compute in Hput|].
  exists row, returned. split; [done|]. destruct (load_config deployment2 Items row) as [e|c''] eqn:Hl.
  - vm_compute in Hput. by simplify_eq.
  - exists c''. split; [done|].
    apply (operator_lane_kept deployment Items None (Some items_default) (mkRouting no_index []) row returned row c'' INDEX []).
    + exact Hput.
    + by left.
    + reflexivity.
    + intros H. by vm_compute in H.
    + by right.
    + eapply later_load; [apply later_now|exact Hl].
Defined.

(** A lane an operator empties is read as the default one: a collection declared
    read-only is written to, and an index that was opted out of is still searched and
    rebuilt. *)
Lemma empty_write_lane_is_written :
  resolved_refs (get_write_drivers deployment Items (dict_set WRITE [] items_default) []) = ["items_postgresql_driver"].
Proof. by vm_compute. Qed.
Lemma empty_index_lane_is_searched :
  resolved_refs (get_index_drivers deployment Items no_index []) = ["items_elasticsearch_driver"] /\
  option_map (fun rd => d_ref (rd_driver rd)) (get_search_driver deployment Items no_index []) = Some "items_elasticsearch_driver" /\
  index_entries no_index = [].
Proof. by vm_compute. Qed.

(** At the collection tier the handler fills an emptied write lane again: the returned
    configuration has the store, the stored row has not. *)
Definition collection_default : operations := default_operations Collection.
Lemma emptied_write_lane_comes_back :
  match put_config deployment Collection None (Some collection_default) (mkRouting (dict_set WRITE [] collection_default) []) with
  | inr (row, returned) =>
      refs (lane (ops returned) WRITE) = ["collection_postgresql_driver"] /\ lane (ops row) WRITE = []
  | inl _ => False
  end.
Proof. by vm_compute. Qed.

(** A public collection needs a public catalog when it is stored, but the catalog may
    leave the index afterwards. *)
Definition public_collection : operations := dict_set INDEX [mkEntry "collection_elasticsearch_driver" ∅ FATAL operator [] []] collection_default.
Definition public_catalog : operations := dict_set INDEX [mkEntry "catalog_elasticsearch_driver" ∅ FATAL operator [] []] (default_operations Catalog).
Definition private_catalog : operations := dict_set INDEX [] (default_operations Catalog).
Lemma public_collection_outlives_catalog :
  (exists c, put_config deployment Collection (Some (Some public_catalog)) None (mkRouting public_collection []) = inr c) /\
  put_config deployment Collection (Some (Some private_catalog)) None (mkRouting public_collection []) = inl NoPublicParent /\
  (exists row c, put_config deployment Catalog None (Some public_catalog) (mkRouting private_catalog []) = inr (row, c) /\
             catalog_routing_is_public (ops row) = false).
Proof. split_and!; [eexists; reflexivity|by vm_compute|do 2 eexists; split; [reflexivity|by vm_compute]]. Qed.

(** A plain read skips tagged entries although nothing else is registered: with the
    index alone deployed, the untagged store is the only one considered. *)
Definition tagged_fallback : operations :=
  [(READ, [mkEntry "items_postgresql_driver" ∅ FATAL operator [] []; mkEntry "items_elasticsearch_driver" {["search"]} FATAL operator [] []])].
Lemma plain_read_finds_nothing :
  let reg := mkRegistry [items_es] [] [] [] [] [] [] in
  resolve_drivers reg Items tagged_fallback READ [] = [] /\
  resolved_refs (resolve_drivers reg Items tagged_fallback READ ["search"]) = ["items_elasticsearch_driver"].
Proof. by vm_compute. Qed.

(** With two preferences the first of an unordered set wins. *)
Lemma preferences_depend_on_order :
  refs (resolve_entries deployment Items items_default READ ["prefer:es"; "prefer:pg"]) = ["items_elasticsearch_driver"; "items_postgresql_driver"] /\
  refs (resolve_entries deployment Items items_default READ ["prefer:pg"; "prefer:es"]) = ["items_postgresql_driver"; "items_elasticsearch_driver"].
Proof. by vm_compute. Qed.

(** A preference that matches a driver drops the hints beside it. *)
Lemma preference_drops_hints :
  refs (resolve_entries deployment Items items_default READ ["geometry_exact"; "prefer:es"]) = ["items_elasticsearch_driver"; "items_postgresql_driver"].
Proof. by vm_compute. Qed.
