(* ===== verification/ConfigStore.v ===== *)
(** * Configuration service

    [catalog/config_service.py] and [db_config/platform_config_service.py]: a class of
    configuration has at most one row per tier (platform, catalog, collection) that holds
    the keys set there; reading overlays the tiers, writing checks what may still change.
    [models/mutability.py], [db_config/stored_config_read.py],
    [catalog/config_snapshot.py], [db_config/config_version.py] and the queries of
    [typed_store/config_queries.py] are the parts it is made of.

    A class is an argument: its fields with the mutability marker, the default, the
    annotation, and what pydantic makes of a value on validation ([f_parse]) and on a
    dump for the database ([f_dump]).  Validators over several fields are not modelled
    (the routing configurations, which have them, are in [Routing]).  Reads are those
    with a connection, which bypass the caches; catalog ids are the internal ones.  A
    write is one transaction: an error leaves the store as it was.  [updated_at] is the
    transaction's time, an argument; the token of a version is that time, its ISO text
    and back being the identity. *)

From S2P Require Import Prelude.

Abbreviation pydict := (list (string * pyval)).

(** ** Classes *)

Inductive mutability : Type := Mutable | WriteOnce | Immutable | Computed.
#[export] Instance mutability_eq_dec : EqDecision mutability.
Proof. solve_decision. Defined.

(** A field's type, as far as the tolerant read follows it. *)
Inductive annotation : Type :=
| ANone
| AUnion (args : list annotation)
| AList (item : option annotation)
| ADict (value : option annotation)
| AModel (forbids : bool) (fields : list (string * annotation))
| AOther.

Record field : Type := mkField {
  f_name : string;
  f_kind : mutability;
  f_default : option pyval;
  f_annotation : annotation;
  f_parse : pyval -> option pyval;
  f_dump : pyval -> pyval;
}.
(** A model instance: a value per field, and the names given explicitly. *)
Record config : Type := mkConfig { vals : pydict; fields_set : list string }.

Inductive freeze_tier : Type := FreezePlatform | FreezeCatalog | FreezeCollection.
#[export] Instance freeze_tier_eq_dec : EqDecision freeze_tier.
Proof. solve_decision. Defined.
Inductive handler_error : Type := HConfigValidationError | HImmutableConfigError | HValueError | HOtherError.
Record config_class : Type := mkClass {
  cls_name : string;
  class_key : string;
  schema_id : string;
  forbid : bool;
  fields : list field;
  freeze_at : option freeze_tier;
  is_abstract_base : bool;
  validate_handlers : list (config -> handler_error + config);
}.
Definition model_fields (cls : config_class) : list string := map f_name (fields cls).

Inductive config_error : Type :=
| ValidationError
| ConfigResolutionError
| ImmutableConfigError (field : string)
| ConfigValidationError
| ConfigVersionConflictError
| InvalidIdentifierError
| CatalogIdRequired
| CatalogNotFound
| HandlerError.
#[export] Instance config_error_eq_dec : EqDecision config_error.
Proof. solve_decision. Defined.

(** [getattr(config, name, None)] *)
Definition attr (c : config) (name : string) : pyval := cfg_get (vals c) name.

(** ** Pydantic *)

Definition field_value (data : pydict) (f : field) : option pyval :=
  match dict_get (f_name f) data with Some v => f_parse f v | None => f_default f end.
Fixpoint field_values (data : pydict) (fs : list field) : option pydict :=
  match fs with
  | [] => Some []
  | f :: fs =>
      match field_value data f, field_values data fs with
      | Some v, Some vs => Some ((f_name f, v) :: vs)
      | _, _ => None
      end
  end.
Definition key_given (data : pydict) (k : string) : bool := match dict_get k data with Some _ => true | None => false end.
Definition model_validate (cls : config_class) (data : pydict) : config_error + config :=
  if forbid cls && existsb (fun kv => negb (str_mem kv.1 (model_fields cls))) data then inl ValidationError
  else match field_values data (fields cls) with
       | Some vs => inr (mkConfig vs (List.filter (key_given data) (model_fields cls)))
       | None => inl ValidationError
       end.
(** [model_dump(mode="python")] *)
Definition model_dump (c : config) : pydict := vals c.
(** [model_dump(mode="json", context={"secret_mode": "db"})], with or without the fields
    that were not set. *)
Definition model_dump_db (exclude_unset : bool) (cls : config_class) (c : config) : pydict :=
  map (fun f => (f_name f, f_dump f (attr c (f_name f))))
    (List.filter (fun f => negb exclude_unset || str_mem (f_name f) (fields_set c)) (fields cls)).
Definition serialize_config_for_db (cls : config_class) (c : config) : pydict := model_dump_db true cls c.

(** ** Tolerant reads *)

Fixpoint strip_nested (a : annotation) (v : pyval) {struct a} : pyval :=
  match v with
  | VNone => VNone
  | _ =>
      match a with
      | AUnion args =>
          (fix first (args : list annotation) : pyval :=
             match args with
             | [] => v
             | ANone :: args => first args
             | a :: _ => strip_nested a v
             end) args
      | AList (Some item) => match v with VList l => VList (map (strip_nested item) l) | _ => v end
      | ADict (Some value) => match v with VDict d => VDict (map (fun kv => (kv.1, strip_nested value kv.2)) d) | _ => v end
      | AModel forbids fs =>
          match v with
          | VDict d =>
              let d := if forbids then List.filter (fun kv => str_mem kv.1 (map fst fs)) d else d in
              VDict ((fix go (fs : list (string * annotation)) (d : pydict) : pydict :=
                        match fs with
                        | [] => d
                        | (n, a) :: fs => go fs (match dict_get n d with Some x => dict_set n (strip_nested a x) d | None => d end)
                        end) fs d)
          | _ => v
          end
      | _ => v
      end
  end.
Definition strip_known (cls : config_class) (data : pydict) : pydict :=
  if forbid cls then List.filter (fun kv => str_mem kv.1 (model_fields cls)) data else data.
Definition strip_field (f : field) (data : pydict) : pydict :=
  match dict_get (f_name f) data with
  | Some v => dict_set (f_name f) (strip_nested (f_annotation f) v) data
  | None => data
  end.
Definition strip_extra_forbid (cls : config_class) (data : pydict) : pydict :=
  fold_left (fun d f => strip_field f d) (fields cls) (strip_known cls data).
Definition validate_stored_config (cls : config_class) (data : pydict) : config_error + config :=
  model_validate cls (strip_extra_forbid cls data).

(** ** Identifiers *)

Definition POSTGRES_RESERVED_WORDS : list string :=
  ["all"; "analyse"; "analyze"; "and"; "any"; "array"; "as"; "asc"; "asymmetric"; "both"; "case"; "cast"; "check"; "collate"; "column";
   "constraint"; "create"; "current_catalog"; "current_date"; "current_role"; "current_time"; "current_timestamp"; "current_user";
   "default"; "deferrable"; "desc"; "distinct"; "do"; "else"; "end"; "except"; "false"; "fetch"; "for"; "foreign"; "from"; "grant"; "group";
   "having"; "in"; "initially"; "intersect"; "into"; "leading"; "limit"; "localtime"; "localtimestamp"; "not"; "null"; "offset"; "on"; "only";
   "or"; "order"; "placing"; "primary"; "references"; "returning"; "select"; "session_user"; "some"; "symmetric"; "table"; "then"; "to";
   "trailing"; "true"; "union"; "unique"; "user"; "using"; "variadic"; "when"; "where"; "window"; "with"].
Definition ident_start (a : ascii) : bool :=
  let n := Z.of_N (N_of_ascii a) in ((97 <=? n) && (n <=? 122)) || (n =? 95).
Definition ident_char (a : ascii) : bool :=
  let n := Z.of_N (N_of_ascii a) in ident_start a || ((48 <=? n) && (n <=? 57)) || (n =? 46) || (n =? 62) || (n =? 45).
(** [[a-z0-9_.>-]*$], where [$] also matches before a final newline. *)
Fixpoint ident_rest (s : string) : bool :=
  match s with
  | EmptyString => true
  | String a s' => (ident_char a && ident_rest s') || (Z.of_N (N_of_ascii a) =? 10) && (s' ==s "")
  end.
Definition validate_sql_identifier (identifier : string) : option string :=
  let lower := str_lower identifier in
  if (identifier ==s "") || str_contains "{{" identifier || str_contains "}}" identifier then None
  else if 63 <? Z.of_nat (String.length lower) then None
  else if str_mem lower POSTGRES_RESERVED_WORDS then None
  else match lower with
       | String a s => if ident_start a && ident_rest s then Some lower else None
       | EmptyString => None
       end.

(** ** The store *)

Record stored_row : Type := mkRow { config_data : pydict; row_schema : string; updated_at : Z }.
Record store : Type := mkStore {
  platform_configs : gmap string stored_row;                       (** by [ref_key] *)
  catalog_configs : gmap (string * string) stored_row;             (** by catalog and [ref_key] *)
  collection_configs : gmap (string * string * string) stored_row; (** by catalog, collection and [ref_key] *)
  catalogs : gset string;
  collections : gset (string * string);
  external_ids : gmap (string * string) string;             (** the internal id of an external one *)
  with_items : gset (string * string);                      (** collections whose items table has a row *)
}.
Definition set_platform (m : gmap string stored_row) (s : store) : store :=
  mkStore m (catalog_configs s) (collection_configs s) (catalogs s) (collections s) (external_ids s) (with_items s).
Definition set_catalogs (m : gmap (string * string) stored_row) (s : store) : store :=
  mkStore (platform_configs s) m (collection_configs s) (catalogs s) (collections s) (external_ids s) (with_items s).
Definition set_collections (m : gmap (string * string * string) stored_row) (s : store) : store :=
  mkStore (platform_configs s) (catalog_configs s) m (catalogs s) (collections s) (external_ids s) (with_items s).

(** [resolve_collection_ids(..., allow_missing=True).id] *)
Definition internal_id (s : store) (cat col : string) : string := default col (external_ids s !! (cat, col)).
Definition ensure_catalog_exists (cat : string) (s : store) : store :=
  mkStore (platform_configs s) (catalog_configs s) (collection_configs s) ({[cat]} ∪ catalogs s) (collections s) (external_ids s) (with_items s).
Definition ensure_collection_exists (cat col : string) (s : store) : store :=
  mkStore (platform_configs s) (catalog_configs s) (collection_configs s) (catalogs s) ({[(cat, col)]} ∪ collections s) (external_ids s) (with_items s).

(** ** Reads *)

(** [data] of a row, or nothing when it is empty ([if not data]). *)
Definition row_delta (r : option stored_row) : option pydict :=
  match r with
  | Some r => match config_data r with [] => None | d => Some d end
  | None => None
  end.
Definition default_or_raise (cls : config_class) : config_error + config :=
  match model_validate cls [] with inr c => inr c | inl _ => inl ConfigResolutionError end.
Definition platform_get_config (s : store) (cls : config_class) : config_error + config :=
  match row_delta (platform_configs s !! class_key cls) with
  | Some d => validate_stored_config cls d
  | None => default_or_raise cls
  end.

Definition SNAPSHOT_REF_KEY : string := "__catalog_defaults_snapshot__".
Definition select_snapshot_base (snapshot : option pydict) (cls : config_class) : option config :=
  match snapshot with
  | None => None
  | Some snapshot =>
      match dict_get (class_key cls) snapshot with
      | Some (VDict entry) =>
          match cfg_get entry "schema_id" with
          | VStr id =>
              if id ==s schema_id cls then
                match cfg_get entry "data" with
                | VDict d => match model_validate cls d with inr c => Some c | inl _ => None end
                | _ => None
                end
              else None
          | _ => None
          end
      | _ => None
      end
  end.
Definition resolve_catalog_snapshot_base (s : store) (cls : config_class) (cat : string) : option config :=
  if cat ==s "" then None else select_snapshot_base (row_delta (catalog_configs s !! (cat, SNAPSHOT_REF_KEY))) cls.

(** [merged.update(delta)] *)
Definition delta_update {A} (d delta : list (string * A)) : list (string * A) := fold_left (fun d kv => dict_set kv.1 kv.2 d) delta d.
(** The overlay of the deltas that are there. *)
Definition overlay_deltas (cls : config_class) (base : config) (deltas : list (option pydict)) : config_error + config :=
  match List.filter (fun d => match d with Some _ => true | None => false end) deltas with
  | [] => inr base
  | _ => validate_stored_config cls
           (fold_left (fun m d => match d with Some d => delta_update m d | None => m end) deltas (model_dump base))
  end.
Definition inheritance_base (s : store) (cls : config_class) (cat : string) : config_error + config :=
  match platform_get_config s cls with
  | inl e => inl e
  | inr base => inr (default base (resolve_catalog_snapshot_base s cls cat))
  end.
Definition catalog_delta (s : store) (cls : config_class) (cat : string) : option pydict :=
  if bool_decide (cat ∈ catalogs s) then row_delta (catalog_configs s !! (cat, class_key cls)) else None.
Definition collection_delta (s : store) (cls : config_class) (cat col : string) : option pydict :=
  row_delta (collection_configs s !! (cat, internal_id s cat col, class_key cls)).
Definition given (id : option string) : option string := match id with Some i => if i ==s "" then None else Some i | None => None end.

Definition get_config (s : store) (cls : config_class) (snapshot : option (list (string * pydict))) (cat col : option string) : config_error + config :=
  match snapshot with
  | Some snap =>
      match dict_get (class_key cls) snap with
      | Some (kv :: d) => validate_stored_config cls (kv :: d)
      | _ => platform_get_config s cls
      end
  | None =>
      match given cat with
      | None => platform_get_config s cls
      | Some cat =>
          match inheritance_base s cls cat with
          | inl e => inl e
          | inr base =>
              match given col with
              | None => overlay_deltas cls base [catalog_delta s cls cat]
              | Some col =>
                  if bool_decide (cat ∈ catalogs s)
                  then overlay_deltas cls base [catalog_delta s cls cat; collection_delta s cls cat col]
                  else inl CatalogNotFound
              end
          end
      end
  end.

(** The batch read of many collections of one catalog. *)
Definition internal_to_external (s : store) (cat : string) (cids : list string) : list (string * string) :=
  fold_left (fun d cid => dict_set (internal_id s cat cid) cid d) cids [].
Definition select_collection_configs_batch (s : store) (cat key : string) (ids : list string) : list (string * pydict) :=
  omap (fun kr : string * string * string * stored_row =>
          let '((c, col, k), r) := kr in
          if (c ==s cat) && (k ==s key) && str_mem col ids then Some (col, config_data r) else None)
    (map_to_list (collection_configs s)).
Definition collection_delta_by_id (s : store) (cls : config_class) (cat : string) (cids : list string) : list (string * pydict) :=
  let ext := internal_to_external s cat cids in
  fold_left (fun d row => dict_set (default row.1 (dict_get row.1 ext)) row.2 d)
    (select_collection_configs_batch s cat (class_key cls) (map (internal_id s cat) cids)) [].
Definition nonempty_delta (d : option pydict) : option pydict := match d with Some [] => None | d => d end.
Fixpoint batch_results (cls : config_class) (base : config) (cdelta : option pydict) (by_id : list (string * pydict)) (cids : list string)
    (result : list (string * config)) : config_error + list (string * config) :=
  match cids with
  | [] => inr result
  | cid :: cids =>
      match overlay_deltas cls base [cdelta; nonempty_delta (dict_get cid by_id)] with
      | inl e => inl e
      | inr c => batch_results cls base cdelta by_id cids (dict_set cid c result)
      end
  end.
Definition get_configs_batch (s : store) (cls : config_class) (cat : string) (cids : list string) : config_error + list (string * config) :=
  match inheritance_base s cls cat with
  | inl e => inl e
  | inr base =>
      let by_id := if bool_decide (cat ∈ catalogs s) then collection_delta_by_id s cls cat cids else [] in
      batch_results cls base (catalog_delta s cls cat) by_id cids []
  end.

(** ** What may change *)

Definition computed_fields (cls : config_class) : list string :=
  map f_name (List.filter (fun f => bool_decide (f_kind f = Computed)) (fields cls)).
Definition discard (n : string) (l : list string) : list string := List.filter (fun m => negb (m ==s n)) l.
Definition add_name (n : string) (l : list string) : list string := if str_mem n l then l else l ++ [n].
Definition restore_field (current : option config) (c : config) (name : string) : config :=
  let v := match current with Some cur => attr cur name | None => VNone end in
  mkConfig (dict_set name v (vals c)) (if is_VNone v then discard name (fields_set c) else add_name name (fields_set c)).
Definition restore_system_assigned_fields (cls : config_class) (c : config) (current : option config) : config :=
  fold_left (restore_field current) (computed_fields cls) c.

Definition platform_is_materialized (s : store) : bool := bool_decide (catalogs s <> ∅).
Definition catalog_is_materialized (s : store) (cat : string) : bool :=
  bool_decide (cat ∈ catalogs s) && existsb (fun cc => cc.1 ==s cat) (elements (collections s)).
Definition collection_is_materialized (s : store) (cat col : string) : bool :=
  bool_decide (cat ∈ catalogs s) && bool_decide ((cat, col) ∈ with_items s).
Definition is_materialized (s : store) (cls : config_class) (cat col : option string) : bool :=
  match freeze_at cls with
  | Some FreezeCollection =>
      match given cat, given col with
      | Some cat, Some col => collection_is_materialized s cat col
      | Some cat, None => catalog_is_materialized s cat
      | None, _ => platform_is_materialized s
      end
  | Some FreezeCatalog => match given cat with Some cat => catalog_is_materialized s cat | None => platform_is_materialized s end
  | _ => platform_is_materialized s
  end.

Definition field_violation (materialized : bool) (cur new : config) (f : field) : bool :=
  let cv := attr cur (f_name f) in
  let nv := attr new (f_name f) in
  match f_kind f with
  | WriteOnce => negb (is_VNone cv) && negb (py_eq cv nv)
  | Immutable => materialized && negb (py_eq cv nv)
  | _ => false
  end.
Definition compared (restrict : option (list string)) (f : field) : bool :=
  match restrict with Some names => str_mem (f_name f) names | None => true end.
Definition enforce_config_immutability (s : store) (cls : config_class) (cur new : config) (cat col : option string)
    (restrict : option (list string)) : option config_error :=
  match List.find (fun f => compared restrict f && field_violation (is_materialized s cls cat col) cur new f) (fields cls) with
  | Some f => Some (ImmutableConfigError (f_name f))
  | None => None
  end.

Definition enforce_first_write_against_inherited (s : store) (cls : config_class) (c : config) (cat : string) (col : option string)
    : config_error + config :=
  match fields_set c with
  | [] => inr c
  | names =>
      match get_config s cls None (Some cat) col with
      | inl e => inl e
      | inr inherited =>
          match enforce_config_immutability s cls inherited c (Some cat) col (Some names) with Some e => inl e | None => inr c end
      end
  end.
(** The checked configuration, with the machine-assigned fields restored. *)
Definition enforce_write_immutability (s : store) (cls : config_class) (c : config) (current : option stored_row) (cat : string) (col : option string)
    : config_error + config :=
  match row_delta current with
  | Some d =>
      match validate_stored_config cls d with
      | inl e => inl e
      | inr cur =>
          let c := restore_system_assigned_fields cls c (Some cur) in
          match enforce_config_immutability s cls cur c (Some cat) col None with Some e => inl e | None => inr c end
      end
  | None => enforce_first_write_against_inherited s cls (restore_system_assigned_fields cls c None) cat col
  end.

Definition handler_exception (e : handler_error) : config_error :=
  match e with
  | HConfigValidationError | HValueError => ConfigValidationError
  | HImmutableConfigError => ImmutableConfigError ""
  | HOtherError => HandlerError
  end.
Fixpoint run_validate_handlers (hs : list (config -> handler_error + config)) (c : config) : config_error + config :=
  match hs with
  | [] => inr c
  | h :: hs => match h c with inl e => inl (handler_exception e) | inr c => run_validate_handlers hs c end
  end.

(** ** Writes *)

(** The upsert, or the update that compares [updated_at]. *)
Definition store_row `{Countable K} (m : gmap K stored_row) (k : K) (d : pydict) (cls : config_class) (now : Z) (expected : option Z) : option (gmap K stored_row) :=
  match expected with
  | None => Some (<[k := mkRow d (schema_id cls) now]> m)
  | Some v =>
      match m !! k with
      | Some r => if updated_at r =? v then Some (<[k := mkRow d (schema_id cls) now]> m) else None
      | None => None
      end
  end.
Definition conflict {A} (m : option A) : config_error + A := match m with Some m => inr m | None => inl ConfigVersionConflictError end.

Definition platform_set_config (s : store) (cls : config_class) (c : config) (check : bool) (now : Z) (expected : option Z) : config_error + (config * store) :=
  match serialize_config_for_db cls c with
  | [] => inr (c, s)
  | serialized =>
      match match row_delta (platform_configs s !! class_key cls) with
            | Some d => match validate_stored_config cls d with inl e => inl e | inr cur => inr (Some cur) end
            | None => inr None
            end with
      | inl e => inl e
      | inr old =>
          let c := if check then restore_system_assigned_fields cls c old else c in
          match match old with
                | Some cur => if check then enforce_config_immutability s cls cur c None None None else None
                | None => None
                end with
          | Some e => inl e
          | None =>
              match run_validate_handlers (validate_handlers cls) c with
              | inl e => inl e
              | inr c =>
                  match conflict (store_row (platform_configs s) (class_key cls) serialized cls now expected) with
                  | inl e => inl e
                  | inr m => inr (c, set_platform m s)
                  end
              end
          end
      end
  end.
Definition set_catalog_config (s : store) (cls : config_class) (c : config) (cat : string) (check : bool) (now : Z) (expected : option Z)
    : config_error + (config * store) :=
  match validate_sql_identifier cat with
  | None => inl InvalidIdentifierError
  | Some _ =>
      match serialize_config_for_db cls c with
      | [] => inr (c, s)
      | serialized =>
          let s := ensure_catalog_exists cat s in
          match if check then enforce_write_immutability s cls c (catalog_configs s !! (cat, class_key cls)) cat None else inr c with
          | inl e => inl e
          | inr c =>
              match run_validate_handlers (validate_handlers cls) c with
              | inl e => inl e
              | inr c =>
                  match conflict (store_row (catalog_configs s) (cat, class_key cls) serialized cls now expected) with
                  | inl e => inl e
                  | inr m => inr (c, set_catalogs m s)
                  end
              end
          end
      end
  end.
Definition set_collection_config (s : store) (cls : config_class) (c : config) (cat col : string) (check : bool) (now : Z) (expected : option Z)
    : config_error + (config * store) :=
  match validate_sql_identifier cat, validate_sql_identifier col with
  | Some _, Some _ =>
      match serialize_config_for_db cls c with
      | [] => inr (c, s)
      | serialized =>
          let id := internal_id s cat col in
          let s := ensure_collection_exists cat id (ensure_catalog_exists cat s) in
          match if check then enforce_write_immutability s cls c (collection_configs s !! (cat, id, class_key cls)) cat (Some id) else inr c with
          | inl e => inl e
          | inr c =>
              match run_validate_handlers (validate_handlers cls) c with
              | inl e => inl e
              | inr c =>
                  match conflict (store_row (collection_configs s) (cat, id, class_key cls) serialized cls now expected) with
                  | inl e => inl e
                  | inr m => inr (c, set_collections m s)
                  end
              end
          end
      end
  | _, _ => inl InvalidIdentifierError
  end.
Definition set_config (s : store) (cls : config_class) (c : config) (cat col : option string) (check : bool) (now : Z) (expected : option Z)
    : config_error + (config * store) :=
  match col, cat with
  | Some col, Some cat => set_collection_config s cls c cat col check now expected
  | Some _, None => inl CatalogIdRequired
  | None, Some cat => set_catalog_config s cls c cat check now expected
  | None, None => platform_set_config s cls c check now expected
  end.

(** Deleting a row: whether there was one. *)
Definition delete_config (s : store) (cls : config_class) (cat col : option string) : config_error + (bool * store) :=
  match col, cat with
  | Some col, Some cat =>
      match validate_sql_identifier cat, validate_sql_identifier col with
      | Some _, Some _ =>
          if bool_decide (cat ∈ catalogs s) then
            let k := (cat, internal_id s cat col, class_key cls) in
            inr (bool_decide (is_Some (collection_configs s !! k)), set_collections (delete k (collection_configs s)) s)
          else inl CatalogNotFound
      | _, _ => inl InvalidIdentifierError
      end
  | Some _, None => inl CatalogIdRequired
  | None, Some cat =>
      match validate_sql_identifier cat with
      | Some _ =>
          if bool_decide (cat ∈ catalogs s) then
            let k := (cat, class_key cls) in
            inr (bool_decide (is_Some (catalog_configs s !! k)), set_catalogs (delete k (catalog_configs s)) s)
          else inl CatalogNotFound
      | None => inl InvalidIdentifierError
      end
  | None, None =>
      inr (bool_decide (is_Some (platform_configs s !! class_key cls)), set_platform (delete (class_key cls) (platform_configs s)) s)
  end.

(** The token of a tier's row. *)
Definition row_version (s : store) (cls : config_class) (cat col : option string) : option Z :=
  match cat, col with
  | Some cat, Some col => if bool_decide (cat ∈ catalogs s) then updated_at <$> collection_configs s !! (cat, internal_id s cat col, class_key cls) else None
  | Some cat, None => if bool_decide (cat ∈ catalogs s) then updated_at <$> catalog_configs s !! (cat, class_key cls) else None
  | None, _ => updated_at <$> platform_configs s !! class_key cls
  end.
(** The versioned read: below the platform the configuration is resolved first, in [s],
    and the token is read afterwards, when the store is [s']. *)
Definition get_config_versioned (s s' : store) (cls : config_class) (cat col : option string) : config_error + (config * option Z) :=
  match cat, col with
  | None, None =>
      match platform_configs s' !! class_key cls with
      | None => match default_or_raise cls with inl e => inl e | inr c => inr (c, None) end
      | Some r => match validate_stored_config cls (config_data r) with inl e => inl e | inr c => inr (c, Some (updated_at r)) end
      end
  | _, _ =>
      match get_config s cls None cat col with
      | inl e => inl e
      | inr c =>
          match cat, col with
          | None, _ => inl CatalogIdRequired
          | Some ca, None => match validate_sql_identifier ca with Some _ => inr (c, row_version s' cls cat None) | None => inl InvalidIdentifierError end
          | Some ca, Some co =>
              match validate_sql_identifier ca, validate_sql_identifier co with
              | Some _, Some _ => inr (c, row_version s' cls cat col)
              | _, _ => inl InvalidIdentifierError
              end
          end
      end
  end.

(** ** The defaults a catalog is created with *)

Definition EXCLUDED_SUFFIXES : list string := ["DriverConfig"; "RoutingConfig"].
Definition str_endswith (suffix s : string) : bool :=
  (String.length suffix <=? String.length s)%nat && (str_drop (String.length s - String.length suffix) s ==s suffix).
Definition is_snapshottable_config (cls : config_class) : bool :=
  negb (is_abstract_base cls) && negb (bool_decide (freeze_at cls = Some FreezePlatform)) &&
  negb (existsb (fun suf => str_endswith suf (cls_name cls)) EXCLUDED_SUFFIXES).
Definition snapshottable_config_classes (registered : list config_class) : list config_class := List.filter is_snapshottable_config registered.
Definition serialize_for_snapshot (cls : config_class) (c : config) : config_error + pyval :=
  match model_validate cls (model_dump c) with
  | inl e => inl e
  | inr pinned => inr (VDict [("schema_id", VStr (schema_id cls)); ("data", VDict (model_dump_db false cls pinned))])
  end.
Definition snapshot_entry (s : store) (snapshot : pydict) (cls : config_class) : pydict :=
  match platform_get_config s cls with
  | inl _ => snapshot
  | inr resolved => match serialize_for_snapshot cls resolved with inl _ => snapshot | inr e => dict_set (class_key cls) e snapshot end
  end.
Definition snapshot_catalog_defaults (s : store) (registered : list config_class) (cat : string) (now : Z) : config_error + store :=
  match fold_left (snapshot_entry s) (snapshottable_config_classes registered) [] with
  | [] => inr s
  | snapshot =>
      if bool_decide (cat ∈ catalogs s)
      then inr (set_catalogs (<[(cat, SNAPSHOT_REF_KEY) := mkRow snapshot SNAPSHOT_REF_KEY now]> (catalog_configs s)) s)
      else inl CatalogNotFound
  end.
