(* ===== verification/ConfigProofs.v ===== *)
(** * Configuration service: layers, frozen fields, snapshots, versions

    What a read of [ConfigStore] returns, field by field; what a checked write cannot
    change; what the snapshot of a catalog's defaults shields it from; what a write with
    a version token cannot overwrite. *)

From S2P Require Import Prelude ConfigStore.

(** ** Classes as pydantic makes them *)

(** The tolerant read of one stored value. *)
Definition f_read (f : field) (v : pyval) : option pyval := f_parse f (strip_nested (f_annotation f) v).

(** A class can be built without arguments; a validated value is read back as itself,
    from its dump and from the dump for the database. *)
Record field_ok (f : field) : Prop := {
  fo_default : exists v, f_default f = Some v /\ f_parse f v = Some v;
  fo_python : forall v w, f_parse f v = Some w -> f_parse f w = Some w /\ f_read f w = Some w;
  fo_db : forall v w, f_parse f v = Some w -> f_parse f (f_dump f w) = Some w /\ f_read f (f_dump f w) = Some w;
}.
Record class_ok (cls : config_class) : Prop := {
  co_names : NoDup (model_fields cls);
  co_fields : Forall field_ok (fields cls);
  co_key : class_key cls <> SNAPSHOT_REF_KEY;
}.
(** An instance that validation produced. *)
Definition instance (cls : config_class) (c : config) : Prop :=
  map fst (vals c) = model_fields cls /\
  Forall (fun f => f_parse f (attr c (f_name f)) = Some (attr c (f_name f))) (fields cls).
(** A stored row that can be read: a JSON object whose value for each field of the class
    is valid. *)
Definition readable (cls : config_class) (d : pydict) : Prop :=
  NoDup (map fst d) /\ Forall (fun f => forall v, dict_get (f_name f) d = Some v -> is_Some (f_read f v)) (fields cls).

(** ** Reading a row *)

Lemma fields_distinct cls f g : class_ok cls -> f ∈ fields cls -> g ∈ fields cls -> f_name f = f_name g -> f = g.
Proof.
  intros Hok Hf Hg He. pose proof (co_names _ Hok) as Hn. unfold model_fields in Hn.
  induction (fields cls) as [|x l IH]; [set_solver|]. simpl in Hn. apply NoDup_cons in Hn as [Hx Hn].
  assert (Hin : forall y, y ∈ l -> f_name y ∈ map f_name l) by (intros y Hy; by apply (list_elem_of_fmap_2 f_name)).
  apply elem_of_cons in Hf as [->|Hf], Hg as [->|Hg]; [done| | |auto].
  - rewrite He in Hx. by apply Hin in Hg.
  - rewrite <- He in Hx. by apply Hin in Hf.
Qed.

Lemma dict_set_keys {A} k (v : A) d x : k ∈ map fst d -> x ∈ map fst (dict_set k v d) -> x ∈ map fst d.
Proof.
  induction d as [|[k' v'] d IH]; simpl; [set_solver|]. intros Hk. destruct (String.eqb_spec k k') as [<-|Hne]; simpl; [done|].
  apply elem_of_cons in Hk as [->|Hk]; [done|]. rewrite !elem_of_cons. intros [->|Hx]; auto.
Qed.

Lemma strip_field_get f n d :
  dict_get n (strip_field f d) = if n ==s f_name f then strip_nested (f_annotation f) <$> dict_get n d else dict_get n d.
Proof.
  unfold strip_field. destruct (String.eqb_spec n (f_name f)) as [->|Hne].
  - destruct (dict_get (f_name f) d) as [v|] eqn:E; [by rewrite dict_get_set_eq|by rewrite E].
  - destruct (dict_get (f_name f) d); [by rewrite dict_get_set_ne|done].
Qed.
Lemma strip_fields_get fs : forall d n,
  NoDup (map f_name fs) ->
  dict_get n (fold_left (fun d f => strip_field f d) fs d)
  = match List.find (fun f => n ==s f_name f) fs with
    | Some f => strip_nested (f_annotation f) <$> dict_get n d
    | None => dict_get n d
    end.
Proof.
  induction fs as [|f fs IH]; intros d n Hn; [done|]. simpl in Hn |- *. apply NoDup_cons in Hn as [Hf Hn].
  rewrite IH by done. rewrite strip_field_get. destruct (String.eqb_spec n (f_name f)) as [->|Hne]; [|done].
  destruct (List.find _ fs) as [g|] eqn:E; [|done]. apply List.find_some in E as [Hg He]. apply String.eqb_eq in He.
  exfalso. apply Hf. rewrite He. by apply (list_elem_of_fmap_2 f_name), list_elem_of_In.
Qed.
Lemma find_field cls f : class_ok cls -> f ∈ fields cls -> List.find (fun g => f_name f ==s f_name g) (fields cls) = Some f.
Proof.
  intros Hok Hf. destruct (List.find _ (fields cls)) as [g|] eqn:E.
  - apply List.find_some in E as [Hg He]. apply String.eqb_eq in He. f_equal. symmetry.
    by apply (fields_distinct cls); [done|done|apply list_elem_of_In|].
  - apply list_elem_of_In in Hf. apply (List.find_none _ _ E) in Hf. by rewrite String.eqb_refl in Hf.
Qed.
Lemma field_known cls f : f ∈ fields cls -> str_mem (f_name f) (model_fields cls) = true.
Proof. intros Hf. apply str_mem_In. by apply (list_elem_of_fmap_2 f_name). Qed.

Lemma strip_known_get cls f d : f ∈ fields cls -> dict_get (f_name f) (strip_known cls d) = dict_get (f_name f) d.
Proof.
  intros Hf. unfold strip_known. destruct (forbid cls); [|done].
  rewrite (dict_get_filter (fun k => str_mem k (model_fields cls))). by rewrite field_known.
Qed.
Lemma strip_get cls f d : class_ok cls -> f ∈ fields cls ->
  dict_get (f_name f) (strip_extra_forbid cls d) = strip_nested (f_annotation f) <$> dict_get (f_name f) d.
Proof.
  intros Hok Hf. unfold strip_extra_forbid. rewrite strip_fields_get by apply (co_names _ Hok).
  by rewrite find_field, strip_known_get.
Qed.
(** Stripping leaves no key the class does not declare. *)
Lemma strip_no_unknown cls d :
  forbid cls = true -> existsb (fun kv => negb (str_mem kv.1 (model_fields cls))) (strip_extra_forbid cls d) = false.
Proof.
  intros Hf. apply not_true_is_false. rewrite existsb_exists. intros ([k v] & Hin & Hk). simpl in Hk.
  assert (Hkey : k ∈ map fst (strip_extra_forbid cls d)) by (apply list_elem_of_In in Hin; by apply (list_elem_of_fmap_2 fst) in Hin).
  unfold strip_extra_forbid in Hkey.
  assert (Hkeys : forall fs d k, k ∈ map fst (fold_left (fun d f => strip_field f d) fs d) -> k ∈ map fst d).
  { clear. induction fs as [|f fs IH]; intros d k Hk; simpl in *; [done|]. apply IH in Hk. unfold strip_field in Hk.
    destruct (dict_get (f_name f) d) as [v|] eqn:E; [|done]. eapply dict_set_keys; [|exact Hk]. by eapply dict_get_in_keys. }
  apply Hkeys in Hkey. unfold strip_known in Hkey. rewrite Hf in Hkey.
  apply list_elem_of_fmap in Hkey as ([k' v'] & -> & Hin'). apply list_elem_of_In, filter_In in Hin' as [_ Hm]. simpl in *.
  by rewrite Hm in Hk.
Qed.

Lemma field_values_get data fs : forall vs f,
  field_values data fs = Some vs -> NoDup (map f_name fs) -> f ∈ fs -> dict_get (f_name f) vs = field_value data f.
Proof.
  induction fs as [|g fs IH]; intros vs f Hv Hn Hf; [set_solver|]. simpl in *. apply NoDup_cons in Hn as [Hg Hn].
  destruct (field_value data g) as [w|] eqn:Ew; [|done]. destruct (field_values data fs) as [ws|]; [|done]. simplify_eq. simpl.
  apply elem_of_cons in Hf as [->|Hf]; [by rewrite String.eqb_refl|]. destruct (String.eqb_spec (f_name f) (f_name g)) as [He|_]; [|by apply IH].
  exfalso. apply Hg. rewrite <- He. by apply (list_elem_of_fmap_2 f_name).
Qed.
Lemma field_values_keys data fs : forall vs, field_values data fs = Some vs -> map fst vs = map f_name fs.
Proof.
  induction fs as [|g fs IH]; intros vs Hv; simpl in *; [by simplify_eq|].
  destruct (field_value data g); [|done]. destruct (field_values data fs) as [ws|]; [|done]. simplify_eq. simpl. f_equal. by apply IH.
Qed.
Lemma field_values_total data fs : Forall (fun f => is_Some (field_value data f)) fs -> is_Some (field_values data fs).
Proof. induction 1 as [|f fs [v Hv] _ [vs IH]]; simpl; [by eexists|]. rewrite Hv, IH. by eexists. Qed.

(** Validation gives each field its parsed or default value, and an instance. *)
Lemma validate_attr cls d c f : class_ok cls -> model_validate cls d = inr c -> f ∈ fields cls -> field_value d f = Some (attr c (f_name f)).
Proof.
  unfold model_validate. intros Hok Hv Hf. destruct (forbid cls && _); [done|].
  destruct (field_values d (fields cls)) as [vs|] eqn:E; [|done]. simplify_eq. unfold attr, cfg_get. simpl.
  rewrite (field_values_get _ _ _ _ E (co_names _ Hok) Hf). destruct (field_value d f) eqn:Ef; [done|].
  exfalso. assert (Hs : is_Some (dict_get (f_name f) vs)).
  { assert (Hk : f_name f ∈ map fst vs) by (rewrite (field_values_keys _ _ _ E); by apply (list_elem_of_fmap_2 f_name)).
    apply in_keys_dict_get in Hk as [v ->]. by eexists. }
  rewrite (field_values_get _ _ _ _ E (co_names _ Hok) Hf), Ef in Hs. by destruct Hs.
Qed.
Lemma field_okP cls f : class_ok cls -> f ∈ fields cls -> field_ok f.
Proof. intros Hok Hf. by apply (proj1 (Forall_forall _ _) (co_fields _ Hok)). Qed.
Lemma parsed_fixed f d w : field_ok f -> field_value d f = Some w -> f_parse f w = Some w.
Proof.
  intros Hf. unfold field_value. destruct (dict_get (f_name f) d) as [v|].
  - intros Hv. by apply (fo_python _ Hf) in Hv as [].
  - intros Hd. destruct (fo_default _ Hf) as (v & Hv & Hp). rewrite Hv in Hd. by simplify_eq.
Qed.
Lemma validate_instance cls d c : class_ok cls -> model_validate cls d = inr c -> instance cls c.
Proof.
  intros Hok Hv. split.
  - unfold model_validate in Hv. destruct (forbid cls && _); [done|].
    destruct (field_values d (fields cls)) as [vs|] eqn:E; [|done]. simplify_eq. by apply field_values_keys in E.
  - apply Forall_forall. intros f Hf. eapply parsed_fixed; [by eapply field_okP|]. by apply (validate_attr cls).
Qed.

(** The value of a field in a row: what is stored, or the default. *)
Definition value_read (d : pydict) (f : field) : option pyval :=
  match dict_get (f_name f) d with Some v => f_read f v | None => f_default f end.
Lemma stripped_value cls d f : class_ok cls -> f ∈ fields cls -> field_value (strip_extra_forbid cls d) f = value_read d f.
Proof.
  intros Hok Hf. unfold field_value, value_read, f_read. rewrite strip_get by done. by destruct (dict_get (f_name f) d).
Qed.
Lemma stored_attr cls d c f : class_ok cls -> validate_stored_config cls d = inr c -> f ∈ fields cls -> value_read d f = Some (attr c (f_name f)).
Proof. intros Hok Hv Hf. rewrite <- (stripped_value cls) by done. by apply (validate_attr cls). Qed.
Lemma stored_instance cls d c : class_ok cls -> validate_stored_config cls d = inr c -> instance cls c.
Proof. apply validate_instance. Qed.
Lemma stored_total cls d :
  class_ok cls -> Forall (fun f => is_Some (value_read d f)) (fields cls) -> exists c, validate_stored_config cls d = inr c.
Proof.
  intros Hok Hr. unfold validate_stored_config, model_validate.
  destruct (forbid cls && _) eqn:Hx.
  - apply andb_true_iff in Hx as [Hf Hx]. by rewrite strip_no_unknown in Hx.
  - destruct (field_values_total (strip_extra_forbid cls d) (fields cls)) as [vs ->]; [|by eexists].
    rewrite Forall_forall in Hr |- *. intros f Hf. rewrite stripped_value by done. auto.
Qed.
Lemma readable_total cls d : class_ok cls -> readable cls d -> exists c, validate_stored_config cls d = inr c.
Proof.
  intros Hok Hr. apply stored_total; [done|]. apply Forall_forall. intros f Hf. unfold value_read.
  destruct (dict_get (f_name f) d) as [v|] eqn:E; [by eapply (proj1 (Forall_forall _ _) (proj2 Hr))|].
  destruct (fo_default _ (field_okP _ _ Hok Hf)) as (v & -> & _). by eexists.
Qed.
Lemma default_total cls : class_ok cls -> exists c, default_or_raise cls = inr c /\ instance cls c /\
  forall f, f ∈ fields cls -> f_default f = Some (attr c (f_name f)).
Proof.
  intros Hok. unfold default_or_raise. destruct (model_validate cls []) as [e|c] eqn:Hv.
  - unfold model_validate in Hv. simpl in Hv. rewrite andb_false_r in Hv.
    destruct (field_values_total [] (fields cls)) as [vs Hvs]; [|by rewrite Hvs in Hv].
    apply Forall_forall. intros f Hf. unfold field_value. simpl. destruct (fo_default _ (field_okP _ _ Hok Hf)) as (v & -> & _). by eexists.
  - exists c. split_and!; [done|by eapply validate_instance|]. intros f Hf. by rewrite <- (validate_attr _ _ _ _ Hok Hv Hf).
Qed.

(** ** Layers *)

(** The value a field has once a tier is laid over what it inherits. *)
Definition layer (f : field) (inherited : option pyval) (tier : option pydict) : option pyval :=
  match tier with
  | Some d => match dict_get (f_name f) d with Some v => f_read f v | None => inherited end
  | None => inherited
  end.
Definition base_value (s : store) (cls : config_class) (cat : string) (f : field) : option pyval :=
  match resolve_catalog_snapshot_base s cls cat with
  | Some b => Some (attr b (f_name f))
  | None => layer f (f_default f) (row_delta (platform_configs s !! class_key cls))
  end.
(** The promise of a read: the class default, the platform, the catalog and the
    collection in turn, the nearest tier that sets the field deciding. *)
Definition tier_value (s : store) (cls : config_class) (cat : string) (col : option string) (f : field) : option pyval :=
  let inherited := layer f (base_value s cls cat f) (catalog_delta s cls cat) in
  match col with
  | Some col => layer f inherited (collection_delta s cls cat col)
  | None => inherited
  end.

Definition tier_row (s : store) (cls : config_class) (cat col : option string) : option stored_row :=
  match cat, col with
  | Some cat, Some col => collection_configs s !! (cat, internal_id s cat col, class_key cls)
  | Some cat, None => catalog_configs s !! (cat, class_key cls)
  | None, _ => platform_configs s !! class_key cls
  end.
Definition tier_readable (s : store) (cls : config_class) (cat col : option string) : Prop :=
  forall d, row_delta (tier_row s cls cat col) = Some d -> readable cls d.
Record rows_readable (s : store) (cls : config_class) (cat : string) (col : option string) : Prop := {
  rr_platform : tier_readable s cls None None;
  rr_catalog : tier_readable s cls (Some cat) None;
  rr_tier : tier_readable s cls (Some cat) col;
}.

Lemma delta_update_get {A} k (delta : list (string * A)) : forall d, NoDup (map fst delta) ->
  dict_get k (delta_update d delta) = match dict_get k delta with Some v => Some v | None => dict_get k d end.
Proof.
  induction delta as [|[k' v] delta IH]; intros d Hn; [done|]. simpl in Hn |- *. apply NoDup_cons in Hn as [Hk Hn].
  unfold delta_update in *. simpl. rewrite IH by done. destruct (String.eqb_spec k k') as [<-|Hne].
  - destruct (dict_get k delta) eqn:E; [by apply dict_get_in_keys in E|by rewrite dict_get_set_eq].
  - by rewrite dict_get_set_ne by done.
Qed.

Lemma instance_get cls c f : instance cls c -> f ∈ fields cls -> dict_get (f_name f) (vals c) = Some (attr c (f_name f)).
Proof.
  intros [Hk _] Hf. unfold attr, cfg_get.
  assert (Hin : f_name f ∈ map fst (vals c)) by (rewrite Hk; by apply (list_elem_of_fmap_2 f_name)).
  by apply in_keys_dict_get in Hin as [v ->].
Qed.
Lemma instance_read cls c f : class_ok cls -> instance cls c -> f ∈ fields cls -> f_read f (attr c (f_name f)) = Some (attr c (f_name f)).
Proof.
  intros Hok [_ Hc] Hf. apply (proj1 (Forall_forall _ _)) with (x := f) in Hc; [|done].
  by apply (fo_python _ (field_okP _ _ Hok Hf)) in Hc as [].
Qed.

Lemma merged_value f deltas : forall m r,
  Forall (fun d : option pydict => forall d', d = Some d' -> NoDup (map fst d')) deltas -> dict_get (f_name f) m = Some r ->
  exists r', dict_get (f_name f) (fold_left (fun m d => match d with Some d => delta_update m d | None => m end) deltas m) = Some r' /\
    f_read f r' = fold_left (layer f) deltas (f_read f r).
Proof.
  induction deltas as [|[d|] deltas IH]; intros m r Hd Hm; simpl; [by eexists| |].
  - apply Forall_cons in Hd as [Hd1 Hd]. specialize (Hd1 d eq_refl).
    destruct (dict_get (f_name f) d) as [v|] eqn:E.
    + apply IH; [done|]. by rewrite delta_update_get, E.
    + apply IH; [done|]. by rewrite delta_update_get, E.
  - apply Forall_cons in Hd as [_ Hd]. by apply IH.
Qed.
Lemma layers_some f cls deltas : forall x,
  f ∈ fields cls -> Forall (fun d => forall d', d = Some d' -> readable cls d') deltas -> is_Some x -> is_Some (fold_left (layer f) deltas x).
Proof.
  induction deltas as [|d deltas IH]; intros x Hf Hd Hx; simpl; [done|]. apply Forall_cons in Hd as [Hd1 Hd]. apply IH; [done..|].
  destruct d as [d|]; simpl; [|done]. destruct (dict_get (f_name f) d) as [v|] eqn:E; [|done].
  destruct (Hd1 d eq_refl) as [_ Hr]. by eapply (proj1 (Forall_forall _ _) Hr).
Qed.
Lemma no_deltas f deltas : forall x,
  List.filter (fun d : option pydict => match d with Some _ => true | None => false end) deltas = [] -> fold_left (layer f) deltas x = x.
Proof. induction deltas as [|[d|] deltas IH]; intros x H; simpl in *; [done..|auto]. Qed.

(** Merging gives each field the value of the last delta that sets it. *)
Lemma merge_layers cls base deltas :
  class_ok cls -> instance cls base -> Forall (fun d => forall d', d = Some d' -> readable cls d') deltas ->
  exists c, overlay_deltas cls base deltas = inr c /\ instance cls c /\
    forall f, f ∈ fields cls -> fold_left (layer f) deltas (Some (attr base (f_name f))) = Some (attr c (f_name f)).
Proof.
  intros Hok Hb Hd. unfold overlay_deltas. destruct (List.filter _ deltas) as [|x xs] eqn:E.
  - exists base. split_and!; [done..|]. intros f Hf. by rewrite no_deltas.
  - clear E x xs. set (m := fold_left _ deltas _).
    assert (Hm : forall f, f ∈ fields cls -> value_read m f = fold_left (layer f) deltas (Some (attr base (f_name f)))).
    { intros f Hf. destruct (merged_value f deltas (vals base) (attr base (f_name f))) as (r & Hr & Hl).
      - eapply Forall_impl; [exact Hd|]. intros d H d' ->. by destruct (H d' eq_refl).
      - by eapply instance_get.
      - unfold value_read. change (dict_get (f_name f) m = Some r) in Hr. rewrite Hr, Hl. by rewrite (instance_read cls). }
    destruct (stored_total cls m) as [c Hc]; [done| |].
    + apply Forall_forall. intros f Hf. rewrite Hm by done. by apply (layers_some _ cls).
    + exists c. split_and!; [done|by eapply stored_instance|]. intros f Hf. rewrite <- Hm by done. by apply (stored_attr cls).
Qed.

Lemma platform_layers s cls : class_ok cls -> tier_readable s cls None None ->
  exists base, platform_get_config s cls = inr base /\ instance cls base /\
    forall f, f ∈ fields cls -> layer f (f_default f) (row_delta (platform_configs s !! class_key cls)) = Some (attr base (f_name f)).
Proof.
  intros Hok Hr. unfold platform_get_config. unfold tier_readable in Hr. simpl in Hr.
  destruct (row_delta (platform_configs s !! class_key cls)) as [d|] eqn:E; [|by apply default_total].
  destruct (readable_total cls d Hok (Hr d eq_refl)) as [c Hc]. exists c. split_and!; [done|by eapply stored_instance|].
  intros f Hf. rewrite <- (stored_attr _ _ _ _ Hok Hc Hf). unfold value_read. simpl. by destruct (dict_get (f_name f) d).
Qed.
Lemma snapshot_instance snap cls b : class_ok cls -> select_snapshot_base snap cls = Some b -> instance cls b.
Proof.
  intros Hok. unfold select_snapshot_base. intros H. repeat (case_match; simplify_eq). by eapply validate_instance.
Qed.
Lemma base_layers s cls cat : class_ok cls -> tier_readable s cls None None ->
  exists base, inheritance_base s cls cat = inr base /\ instance cls base /\
    forall f, f ∈ fields cls -> base_value s cls cat f = Some (attr base (f_name f)).
Proof.
  intros Hok Hr. destruct (platform_layers s cls Hok Hr) as (p & Hp & Hi & Hv). unfold inheritance_base, base_value. rewrite Hp.
  destruct (resolve_catalog_snapshot_base s cls cat) as [b|] eqn:E; simpl; [|eauto].
  exists b. split_and!; [done| |done]. unfold resolve_catalog_snapshot_base in E. destruct (cat ==s ""); [done|].
  by eapply snapshot_instance.
Qed.

Lemma catalog_delta_readable s cls cat d : tier_readable s cls (Some cat) None -> catalog_delta s cls cat = Some d -> readable cls d.
Proof. unfold catalog_delta. intros Hr Hd. case_bool_decide; [by apply Hr|done]. Qed.
Lemma given_nonempty id : id <> "" -> given (Some id) = Some id.
Proof. intros H. simpl. by rewrite (proj2 (String.eqb_neq _ _) H). Qed.

(** The layered read, on any readable store. *)
Lemma get_config_layers s cls cat col :
  class_ok cls -> cat ∈ catalogs s -> cat <> "" -> col <> Some "" -> rows_readable s cls cat col ->
  exists c, get_config s cls None (Some cat) col = inr c /\ instance cls c /\
    forall f, f ∈ fields cls -> tier_value s cls cat col f = Some (attr c (f_name f)).
Proof.
  intros Hok Hcat Hne Hcol [Hp Hc Ht]. unfold get_config. rewrite given_nonempty by done.
  destruct (base_layers s cls cat Hok Hp) as (base & -> & Hb & Hv). unfold tier_value.
  destruct col as [col|]; [rewrite given_nonempty by congruence; rewrite bool_decide_true by done|change (given None) with (@None string); cbv iota].
  - destruct (merge_layers cls base [catalog_delta s cls cat; collection_delta s cls cat col]) as (c & Hm & Hi & Hl); [done|done| |].
    + apply Forall_cons. split; [intros d Hd; by eapply catalog_delta_readable|]. apply Forall_singleton. intros d Hd. by apply Ht.
    + exists c. split_and!; [done..|]. intros f Hf. rewrite Hv by done. by apply Hl.
  - destruct (merge_layers cls base [catalog_delta s cls cat]) as (c & Hm & Hi & Hl); [done|done| |].
    + apply Forall_singleton. intros d Hd. by eapply catalog_delta_readable.
    + exists c. split_and!; [done..|]. intros f Hf. rewrite Hv by done. by apply Hl.
Qed.

(** C32: a configuration is what its tiers say.  On a store whose rows are readable a read
    at a catalog or a collection always returns; each field has the value of the nearest
    tier that sets it (collection, catalog, then the catalog's snapshot of defaults or
    else the platform), and the class default when none does, whatever unknown keys the
    rows carry. *)
Theorem config_is_layered s cls cat col :
  class_ok cls -> cat ∈ catalogs s -> cat <> "" -> col <> Some "" -> rows_readable s cls cat col ->
  exists c, get_config s cls None (Some cat) col = inr c /\
    forall f, f ∈ fields cls -> tier_value s cls cat col f = Some (attr c (f_name f)).
Proof. intros Hok Hcat Hne Hcol Hr. destruct (get_config_layers s cls cat col) as (c & Hg & _ & Hv); eauto. Qed.

(** ** Writes *)

Lemma serialize_get cls c f : class_ok cls -> f ∈ fields cls ->
  dict_get (f_name f) (serialize_config_for_db cls c)
  = if str_mem (f_name f) (fields_set c) then Some (f_dump f (attr c (f_name f))) else None.
Proof.
  intros Hok Hf. unfold serialize_config_for_db, model_dump_db. simpl. pose proof (co_names _ Hok) as Hn. unfold model_fields in Hn.
  induction (fields cls) as [|g fs IH]; [set_solver|]. simpl in Hn |- *. apply NoDup_cons in Hn as [Hg Hn].
  destruct (String.eqb_spec (f_name f) (f_name g)) as [He|Hne].
  - assert (f = g) as <-.
    { apply elem_of_cons in Hf as [->|Hf]; [done|]. exfalso. apply Hg. rewrite <- He. by apply (list_elem_of_fmap_2 f_name). }
    destruct (str_mem (f_name f) (fields_set c)) eqn:E; simpl; [by rewrite String.eqb_refl|].
    destruct (dict_get (f_name f) _) eqn:Eg; [|done]. apply dict_get_in_keys in Eg. exfalso. apply Hg.
    rewrite map_map in Eg. simpl in Eg. apply list_elem_of_fmap in Eg as (h & -> & Hh).
    apply list_elem_of_In, filter_In in Hh as [Hh _]. by apply (list_elem_of_fmap_2 f_name), list_elem_of_In.
  - assert (Hf' : f ∈ fs) by (apply elem_of_cons in Hf as [->|Hf]; done).
    destruct (str_mem (f_name g) (fields_set c)); simpl; [rewrite (proj2 (String.eqb_neq _ _) Hne)|]; by apply IH.
Qed.
Lemma filter_NoDup_map {A B} (g : A -> B) (p : A -> bool) l : NoDup (map g l) -> NoDup (map g (List.filter p l)).
Proof.
  induction l as [|x l IH]; simpl; [done|]. intros [Hx Hn]%NoDup_cons. destruct (p x); simpl; [|auto].
  apply NoDup_cons. split; [|auto]. intros Hin. apply Hx. apply list_elem_of_fmap in Hin as (y & Hy & Hin).
  apply list_elem_of_In, filter_In in Hin as [Hin _]. rewrite Hy. by apply (list_elem_of_fmap_2 g), list_elem_of_In.
Qed.
Lemma dump_NoDup b cls c : class_ok cls -> NoDup (map fst (model_dump_db b cls c)).
Proof. intros Hok. unfold model_dump_db. rewrite map_map. simpl. apply filter_NoDup_map, (co_names _ Hok). Qed.
(** What is stored of an instance is read back as it was. *)
Lemma serialize_read cls c f : class_ok cls -> instance cls c -> f ∈ fields cls ->
  f_read f (f_dump f (attr c (f_name f))) = Some (attr c (f_name f)).
Proof.
  intros Hok [_ Hi] Hf. apply (proj1 (Forall_forall _ _)) with (x := f) in Hi; [|done].
  by apply (fo_db _ (field_okP _ _ Hok Hf)) in Hi as [].
Qed.
Lemma serialize_readable cls c : class_ok cls -> instance cls c -> readable cls (serialize_config_for_db cls c).
Proof.
  intros Hok Hi. split; [by apply dump_NoDup|]. apply Forall_forall. intros f Hf v. rewrite serialize_get by done.
  destruct (str_mem _ _); [|done]. intros [= <-]. rewrite (serialize_read cls); eauto.
Qed.

Lemma str_mem_discard n m l : n <> m -> str_mem n (discard m l) = str_mem n l.
Proof.
  intros Hne. unfold discard, str_mem. induction l as [|x l IH]; [done|]. simpl. destruct (String.eqb_spec x m) as [->|Hx]; simpl; rewrite IH; [|done].
  by rewrite (proj2 (String.eqb_neq _ _) Hne).
Qed.
Lemma str_mem_add n m l : n <> m -> str_mem n (add_name m l) = str_mem n l.
Proof.
  intros Hne. unfold add_name. destruct (str_mem m l); [done|]. rewrite str_mem_app. simpl.
  rewrite (proj2 (String.eqb_neq _ _) Hne). by rewrite orb_false_r.
Qed.
Lemma restore_other cur names : forall c n, n ∉ names ->
  attr (fold_left (restore_field cur) names c) n = attr c n /\
  str_mem n (fields_set (fold_left (restore_field cur) names c)) = str_mem n (fields_set c).
Proof.
  induction names as [|m names IH]; intros c n Hn; [done|]. apply not_elem_of_cons in Hn as [Hne Hn]. simpl.
  destruct (IH (restore_field cur c m) n Hn) as [-> ->]. unfold attr, cfg_get. simpl.
  rewrite dict_get_set_ne by congruence. split; [done|]. destruct (is_VNone _); [by apply str_mem_discard|by apply str_mem_add].
Qed.
(** Restoring the machine-assigned fields touches no other. *)
Lemma restore_keeps cls c cur f : class_ok cls -> f ∈ fields cls -> f_kind f <> Computed ->
  attr (restore_system_assigned_fields cls c cur) (f_name f) = attr c (f_name f) /\
  str_mem (f_name f) (fields_set (restore_system_assigned_fields cls c cur)) = str_mem (f_name f) (fields_set c).
Proof.
  intros Hok Hf Hk. apply restore_other. unfold computed_fields. intros Hin. apply list_elem_of_fmap in Hin as (g & Hn & Hg).
  apply list_elem_of_In, filter_In in Hg as [Hg Hc]. apply bool_decide_eq_true in Hc.
  assert (f = g) as ->; [|done]. apply (fields_distinct cls); [done|done|by apply list_elem_of_In|done].
Qed.

Lemma enforced s cls cur new cat col restrict f :
  enforce_config_immutability s cls cur new cat col restrict = None -> f ∈ fields cls -> compared restrict f = true ->
  f_kind f = Immutable -> is_materialized s cls cat col = true -> py_eq (attr cur (f_name f)) (attr new (f_name f)) = true.
Proof.
  unfold enforce_config_immutability. destruct (List.find _ _) as [g|] eqn:E; [done|]. intros _ Hf Hc Hk Hm.
  apply list_elem_of_In in Hf. apply (List.find_none _ _ E) in Hf. rewrite Hc in Hf. unfold field_violation in Hf.
  rewrite Hk, Hm in Hf. simpl in Hf. by apply negb_false_iff in Hf.
Qed.

(** What a checked write has compared. *)
Lemma write_compared s cls c c' current cat col f :
  class_ok cls -> enforce_write_immutability s cls c current cat col = inr c' -> f ∈ fields cls -> f_kind f = Immutable ->
  is_materialized s cls (Some cat) col = true ->
  match row_delta current with
  | Some d => exists v, value_read d f = Some v /\ py_eq v (attr c (f_name f)) = true
  | None => str_mem (f_name f) (fields_set c) = true ->
            exists inh, get_config s cls None (Some cat) col = inr inh /\ py_eq (attr inh (f_name f)) (attr c (f_name f)) = true
  end.
Proof.
  unfold enforce_write_immutability. intros Hok H Hf Hk Hm.
  destruct (row_delta current) as [d|].
  - destruct (validate_stored_config cls d) as [|cur] eqn:Hv; [done|].
    destruct (enforce_config_immutability _ _ _ _ _ _ _) eqn:He; [done|]. exists (attr cur (f_name f)). split; [by apply (stored_attr cls)|].
    apply (enforced _ _ _ _ _ _ _ f) in He; [|done..]. destruct (restore_keeps cls c (Some cur) f) as [Ha _]; [done..|congruence|].
    by rewrite Ha in He.
  - intros Hs. destruct (restore_keeps cls c None f) as [Ha Hset]; [done..|congruence|].
    unfold enforce_first_write_against_inherited in H. rewrite Hs in Hset.
    destruct (fields_set (restore_system_assigned_fields cls c None)) as [|x xs] eqn:El; [done|].
    destruct (get_config s cls None (Some cat) col) as [|inh]; [done|].
    destruct (enforce_config_immutability _ _ _ _ _ _ _) eqn:He; [done|].
    exists inh. split; [done|]. rewrite <- Ha. by eapply enforced.
Qed.

(** ** Frozen fields *)

(** An external id names an internal one, which names itself. *)
Definition ids_ok (s : store) : Prop :=
  forall cat col id, external_ids s !! (cat, col) = Some id -> id <> "" /\ external_ids s !! (cat, id) = None.
Lemma internal_id_idem s cat col : ids_ok s -> internal_id s cat (internal_id s cat col) = internal_id s cat col.
Proof.
  intros Hids. unfold internal_id at 2 3. destruct (external_ids s !! (cat, col)) as [id|] eqn:E; simpl.
  - unfold internal_id. destruct (Hids _ _ _ E) as [_ ->]. done.
  - unfold internal_id. by rewrite E.
Qed.
Lemma internal_id_nonempty s cat col : ids_ok s -> col <> "" -> internal_id s cat col <> "".
Proof. intros Hids Hne. unfold internal_id. destruct (external_ids s !! (cat, col)) as [id|] eqn:E; [by destruct (Hids _ _ _ E)|done]. Qed.

(** What a field inherits at a tier. *)
Definition inherited_value (s : store) (cls : config_class) (cat : string) (col : option string) (f : field) : option pyval :=
  match col with Some _ => layer f (base_value s cls cat f) (catalog_delta s cls cat) | None => base_value s cls cat f end.
Lemma tier_value_row s cls cat col f : cat ∈ catalogs s ->
  tier_value s cls cat col f = layer f (inherited_value s cls cat col f) (row_delta (tier_row s cls (Some cat) col)).
Proof. intros Hc. unfold tier_value, inherited_value, catalog_delta. destruct col; simpl; [done|]. by rewrite bool_decide_true. Qed.

(** The store a write starts from, and the one it leaves. *)
Definition ensured (s : store) (cat : string) (col : option string) : store :=
  match col with
  | Some col => ensure_collection_exists cat (internal_id s cat col) (ensure_catalog_exists cat s)
  | None => ensure_catalog_exists cat s
  end.
Definition put_row (s : store) (cls : config_class) (cat : string) (col : option string) (r : stored_row) : store :=
  match col with
  | Some col => set_collections (<[(cat, internal_id s cat col, class_key cls) := r]> (collection_configs s)) s
  | None => set_catalogs (<[(cat, class_key cls) := r]> (catalog_configs s)) s
  end.

Lemma identifier_nonempty id i : validate_sql_identifier id = Some i -> id <> "".
Proof. unfold validate_sql_identifier. intros H ->. done. Qed.
Lemma store_row_spec `{Countable K} (m m' : gmap K stored_row) k d cls now expected :
  conflict (store_row m k d cls now expected) = inr m' -> m' = <[k := mkRow d (schema_id cls) now]> m.
Proof. unfold conflict, store_row. intros H1. repeat (case_match; simplify_eq); done. Qed.

Lemma set_config_inv s cls c cat col check now expected ret s' :
  set_config s cls c (Some cat) col check now expected = inr (ret, s') ->
  cat <> "" /\ col <> Some "" /\
  (s' = s /\ serialize_config_for_db cls c = [] \/
   s' = put_row (ensured s cat col) cls cat col (mkRow (serialize_config_for_db cls c) (schema_id cls) now) /\
   serialize_config_for_db cls c <> [] /\
   (check = true ->
    exists c', enforce_write_immutability (ensured s cat col) cls c (tier_row (ensured s cat col) cls (Some cat) col) cat (internal_id s cat <$> col) = inr c')).
Proof.
  unfold set_config, set_collection_config, set_catalog_config. intros H.
  destruct col as [col|].
  - destruct (validate_sql_identifier cat) eqn:Hi; [|done]. destruct (validate_sql_identifier col) eqn:Hj; [|done].
    apply identifier_nonempty in Hi, Hj. split; [done|]. split; [congruence|].
    destruct (serialize_config_for_db cls c) as [|kv d] eqn:Es; [left; split; congruence|]. right.
    destruct (if check then _ else _) as [|c'] eqn:Hen in H; [done|]. destruct (run_validate_handlers _ c') as [|c'']; [done|].
    destruct (conflict _) as [|m] eqn:Hst in H; [done|]. apply store_row_spec in Hst. simplify_eq.
    split_and!; [done..|]. intros ->. eauto.
  - destruct (validate_sql_identifier cat) eqn:Hi; [|done].
    apply identifier_nonempty in Hi. split; [done|]. split; [done|].
    destruct (serialize_config_for_db cls c) as [|kv d] eqn:Es; [left; split; congruence|]. right.
    destruct (if check then _ else _) as [|c'] eqn:Hen in H; [done|]. destruct (run_validate_handlers _ c') as [|c'']; [done|].
    destruct (conflict _) as [|m] eqn:Hst in H; [done|]. apply store_row_spec in Hst. simplify_eq.
    split_and!; [done..|]. intros ->. eauto.
Qed.

(** Rows elsewhere, and what a field inherits, are as before the write. *)
Lemma ensured_same s cls cat col f : cat ∈ catalogs s ->
  inherited_value (ensured s cat col) cls cat col f = inherited_value s cls cat col f /\
  tier_row (ensured s cat col) cls (Some cat) col = tier_row s cls (Some cat) col /\
  tier_row (ensured s cat col) cls (Some cat) None = tier_row s cls (Some cat) None /\
  tier_row (ensured s cat col) cls None None = tier_row s cls None None.
Proof.
  intros Hc. assert (Hd : catalog_delta (ensured s cat col) cls cat = catalog_delta s cls cat).
  { unfold catalog_delta. rewrite (bool_decide_true (cat ∈ catalogs s)) by done. rewrite bool_decide_true; destruct col; simpl; try done; set_solver. }
  unfold inherited_value. rewrite Hd. by destruct col.
Qed.
Lemma row_delta_some d sid now : d <> [] -> row_delta (Some (mkRow d sid now)) = Some d.
Proof. by destruct d. Qed.
Lemma put_row_tier s cls cat col r : tier_row (put_row s cls cat col r) cls (Some cat) col = Some r.
Proof. destruct col; simpl; [unfold internal_id; simpl|]; by rewrite lookup_insert_eq. Qed.
Lemma put_row_inherited s cls cat col r f : class_ok cls -> inherited_value (put_row s cls cat col r) cls cat col f = inherited_value s cls cat col f.
Proof.
  intros Hok. destruct col; simpl; [done|]. unfold base_value, resolve_catalog_snapshot_base. simpl.
  rewrite lookup_insert_ne; [done|]. pose proof (co_key _ Hok). congruence.
Qed.
Lemma put_row_readable s cls cat col d now : class_ok cls -> rows_readable s cls cat col -> readable cls d ->
  rows_readable (put_row s cls cat col (mkRow d (schema_id cls) now)) cls cat col.
Proof.
  intros Hok [Hp Hc Ht] Hd.
  assert (Hrow : tier_readable (put_row s cls cat col (mkRow d (schema_id cls) now)) cls (Some cat) col).
  { intros d' Hd'. rewrite put_row_tier in Hd'. simpl in Hd'. destruct d; by simplify_eq. }
  split; [destruct col; exact Hp| |done]. destruct col; [exact Hc|exact Hrow].
Qed.
Lemma ensured_readable s cls cat col : cat ∈ catalogs s -> rows_readable s cls cat col -> rows_readable (ensured s cat col) cls cat col.
Proof. intros _ [Hp Hc Ht]. by destruct col; split. Qed.
Lemma ensured_materialized s cls cat col id :
  is_materialized s cls (Some cat) id = true -> is_materialized (ensured s cat col) cls (Some cat) id = true.
Proof.
  assert (Hcat : forall x, x ∈ catalogs s -> x ∈ catalogs (ensured s cat col)) by (intros x Hx; destruct col; simpl; set_solver).
  assert (Hcol : forall x, x ∈ collections s -> x ∈ collections (ensured s cat col)) by (intros x Hx; destruct col; simpl; set_solver).
  assert (Hits : with_items (ensured s cat col) = with_items s) by (by destruct col).
  assert (H1 : platform_is_materialized s = true -> platform_is_materialized (ensured s cat col) = true).
  { unfold platform_is_materialized. rewrite !bool_decide_eq_true. set_solver. }
  assert (H2 : forall x, catalog_is_materialized s x = true -> catalog_is_materialized (ensured s cat col) x = true).
  { intros x. unfold catalog_is_materialized. rewrite !andb_true_iff, !bool_decide_eq_true, !existsb_exists.
    intros [Hx (y & Hy & He)]. split; [auto|]. exists y. split; [|done]. apply list_elem_of_In, elem_of_elements, Hcol.
    by apply list_elem_of_In, elem_of_elements in Hy. }
  assert (H3 : forall x y, collection_is_materialized s x y = true -> collection_is_materialized (ensured s cat col) x y = true).
  { intros x y. unfold collection_is_materialized. rewrite !andb_true_iff, !bool_decide_eq_true, Hits. intros []. auto. }
  unfold is_materialized. destruct (freeze_at cls) as [[]|]; repeat case_match; auto.
Qed.

Lemma internal_tier s cls cat col f : ids_ok s ->
  tier_row s cls (Some cat) (internal_id s cat <$> col) = tier_row s cls (Some cat) col /\
  tier_value s cls cat (internal_id s cat <$> col) f = tier_value s cls cat col f.
Proof. intros Hids. destruct col as [col|]; [|done]. unfold tier_value, collection_delta. simpl. by rewrite internal_id_idem. Qed.

(** The caller's instance: what it does not set has its default. *)
Lemma unset_default cls body c f : class_ok cls -> model_validate cls body = inr c -> f ∈ fields cls ->
  str_mem (f_name f) (fields_set c) = false -> f_default f = Some (attr c (f_name f)).
Proof.
  intros Hok Hv Hf Hs. rewrite <- (validate_attr cls body c f) by done. unfold field_value.
  destruct (dict_get (f_name f) body) as [v|] eqn:E; [|done]. exfalso. unfold model_validate in Hv. destruct (forbid cls && _); [done|].
  destruct (field_values body (fields cls)); [|done]. simplify_eq. simpl in Hs. apply str_mem_false in Hs. apply Hs.
  apply list_elem_of_In, filter_In. split; [apply list_elem_of_In; by apply (list_elem_of_fmap_2 f_name)|]. unfold key_given. by rewrite E.
Qed.

(** When a write at a tier that has a row compares what the field effectively is: the
    write and the row both set the field or both leave it, or no other tier gives it a
    value of its own. *)
Definition same_footing (s : store) (cls : config_class) (cat : string) (col : option string) (c : config) (f : field) : Prop :=
  match row_delta (tier_row s cls (Some cat) col) with
  | Some d => key_given d (f_name f) = str_mem (f_name f) (fields_set c) \/ inherited_value s cls cat col f = f_default f
  | None => True
  end.

(** The value before and the value after the row is replaced. *)
Lemma replaced_value cls c f (x vb va : pyval) (d : option pydict) :
  class_ok cls -> instance cls c -> f ∈ fields cls ->
  layer f (Some x) d = Some vb -> layer f (Some x) (Some (serialize_config_for_db cls c)) = Some va ->
  (str_mem (f_name f) (fields_set c) = false -> f_default f = Some (attr c (f_name f))) ->
  match d with
  | Some d => key_given d (f_name f) = str_mem (f_name f) (fields_set c) \/ Some x = f_default f
  | None => True
  end ->
  match d with
  | Some d => exists v, value_read d f = Some v /\ py_eq v (attr c (f_name f)) = true
  | None => str_mem (f_name f) (fields_set c) = true -> py_eq vb (attr c (f_name f)) = true
  end ->
  va = vb \/ py_eq vb va = true.
Proof.
  intros Hok Hi Hf Hb Ha Hdef Hfoot Hcmp. simpl in Ha. rewrite serialize_get in Ha by done.
  destruct (str_mem (f_name f) (fields_set c)) eqn:Hs.
  - rewrite (serialize_read cls) in Ha by done. simplify_eq. right. destruct d as [d|]; [|auto].
    destruct Hcmp as (v & Hv & He). unfold value_read, key_given in *. simpl in Hb.
    destruct (dict_get (f_name f) d) as [r|]; [congruence|]. destruct Hfoot as [?|Hx]; [done|]. congruence.
  - simplify_eq. destruct d as [d|]; simpl in Hb; [|left; congruence]. unfold value_read, key_given in *.
    destruct (dict_get (f_name f) d) as [r|]; [|left; congruence]. destruct Hfoot as [?|Hx]; [done|].
    destruct Hcmp as (v & Hv & He). right. rewrite Hdef in Hx by done. congruence.
Qed.

Lemma inherited_some s cls cat col f : class_ok cls -> rows_readable s cls cat col -> f ∈ fields cls -> is_Some (inherited_value s cls cat col f).
Proof.
  intros Hok Hr Hf. destruct (base_layers s cls cat Hok (rr_platform _ _ _ _ Hr)) as (base & _ & _ & Hbase).
  unfold inherited_value. rewrite (Hbase f Hf). destruct col; [|by eexists].
  apply (layers_some f cls [catalog_delta s cls cat]); [done| |by eexists].
  apply Forall_singleton. intros d Hd. by eapply catalog_delta_readable; [apply (rr_catalog _ _ _ _ Hr)|].
Qed.
(** The baseline of a first write is what the tier inherits. *)
Lemma first_write_baseline s cls cat col f inh :
  class_ok cls -> ids_ok s -> cat ∈ catalogs s -> cat <> "" -> col <> Some "" -> rows_readable s cls cat col -> f ∈ fields cls ->
  row_delta (tier_row s cls (Some cat) col) = None ->
  get_config s cls None (Some cat) (internal_id s cat <$> col) = inr inh ->
  inherited_value s cls cat col f = Some (attr inh (f_name f)).
Proof.
  intros Hok Hids Hcat Hne Hcne [H1 H2 H3] Hf Ed Hg. destruct (internal_tier s cls cat col f Hids) as [Htr Htv].
  destruct (get_config_layers s cls cat (internal_id s cat <$> col)) as (inh' & Hg' & _ & Hv'); [done..| | |].
  - destruct col as [col|]; simpl; [|done]. intros [= Hx]. by apply internal_id_nonempty in Hx; [|done|congruence].
  - split; [done..|]. intros d. rewrite Htr. apply H3.
  - rewrite Hg in Hg'. simplify_eq. specialize (Hv' f Hf). rewrite Htv, tier_value_row in Hv' by done. by rewrite Ed in Hv'.
Qed.
Lemma ensured_ids s cat col : ids_ok s -> ids_ok (ensured s cat col) /\ internal_id (ensured s cat col) cat <$> col = internal_id s cat <$> col.
Proof. by destruct col. Qed.

(** C31: what data depends on does not change.  Once the resource a class governs has been
    materialised, a checked write at a catalog or a collection leaves the effective value
    of every immutable field as it was (or equal to it), before the tier has a row and,
    once it has one, for writes on the same footing as the row: the read before and the
    read after the write both return, and agree on the field. *)
Theorem frozen_field_kept s cls body c cat col now expected ret s' f :
  class_ok cls -> ids_ok s -> cat ∈ catalogs s -> rows_readable s cls cat col ->
  model_validate cls body = inr c ->
  set_config s cls c (Some cat) col true now expected = inr (ret, s') ->
  f ∈ fields cls -> f_kind f = Immutable ->
  is_materialized s cls (Some cat) (internal_id s cat <$> col) = true ->
  same_footing s cls cat col c f ->
  exists before after,
    get_config s cls None (Some cat) col = inr before /\ get_config s' cls None (Some cat) col = inr after /\
    (attr after (f_name f) = attr before (f_name f) \/ py_eq (attr before (f_name f)) (attr after (f_name f)) = true).
Proof.
  intros Hok Hids Hcat Hr Hbody Hset Hf Hk Hm Hfoot.
  destruct (set_config_inv _ _ _ _ _ _ _ _ _ _ Hset) as (Hne & Hcne & Hcase).
  destruct (get_config_layers s cls cat col) as (b & Hb & _ & Hbv); [done..|].
  destruct Hcase as [[-> _]|(-> & Hser & Hen)]; [exists b, b; auto|]. destruct (Hen eq_refl) as [c' Henf]. clear Hset Hen.
  pose proof (validate_instance _ _ _ Hok Hbody) as Hi.
  set (s1 := ensured s cat col) in *. set (r := mkRow _ _ now).
  destruct (ensured_same s cls cat col f Hcat) as (Hinh & Hrow & _). change (ensured s cat col) with s1 in Hinh, Hrow.
  assert (Hc1 : cat ∈ catalogs s1) by (unfold s1; destruct col; simpl; set_solver).
  assert (Hr1 : rows_readable s1 cls cat col) by (by apply ensured_readable).
  destruct (get_config_layers (put_row s1 cls cat col r) cls cat col) as (a & Ha & _ & Hav); [done|by destruct col|done..| |].
  { apply put_row_readable; [done..|by apply serialize_readable]. }
  exists b, a. split; [done|]. split; [done|].
  specialize (Hbv f Hf). specialize (Hav f Hf). rewrite tier_value_row in Hbv by done.
  rewrite tier_value_row in Hav by (by destruct col). rewrite put_row_tier, put_row_inherited, Hinh in Hav by done.
  unfold r in Hav. rewrite row_delta_some in Hav by done.
  destruct (inherited_some s cls cat col f Hok Hr Hf) as [x Ex]. rewrite Ex in Hbv, Hav.
  eapply (replaced_value cls c f x); [done..|exact Hbv|exact Hav|by apply (unset_default cls body)| |].
  - unfold same_footing in Hfoot. by rewrite Ex in Hfoot.
  - pose proof (write_compared _ _ _ _ _ _ _ f Hok Henf Hf Hk (ensured_materialized _ _ _ col _ Hm)) as Hw.
    change (ensured s cat col) with s1 in Hw. rewrite Hrow in Hw.
    destruct (row_delta (tier_row s cls (Some cat) col)) as [d|] eqn:Ed; [exact Hw|].
    intros Hs. destruct (Hw Hs) as (inh & Hg & He). destruct (ensured_ids s cat col Hids) as [Hids1 Hid].
    change (ensured s cat col) with s1 in Hids1, Hid. rewrite <- Hid in Hg.
    apply (first_write_baseline _ _ _ _ f) in Hg; [|by rewrite ?Hrow..]. rewrite Hinh, Ex in Hg. simpl in Hbv. congruence.
Qed.

(** A write is read back: at its tier every field that was sent has the value sent, and
    every other field what the tier inherits, whatever the row held before. *)
Theorem written_then_read s cls body c cat col check now expected ret s' :
  class_ok cls -> cat ∈ catalogs s -> rows_readable s cls cat col -> model_validate cls body = inr c ->
  set_config s cls c (Some cat) col check now expected = inr (ret, s') -> serialize_config_for_db cls c <> [] ->
  exists a, get_config s' cls None (Some cat) col = inr a /\
    forall f, f ∈ fields cls ->
      (if str_mem (f_name f) (fields_set c) then Some (attr c (f_name f)) else inherited_value s cls cat col f) = Some (attr a (f_name f)).
Proof.
  intros Hok Hcat Hr Hbody Hset Hser. destruct (set_config_inv _ _ _ _ _ _ _ _ _ _ Hset) as (Hne & Hcne & [[_ ?]|(-> & _)]); [done|].
  pose proof (validate_instance _ _ _ Hok Hbody) as Hi.
  destruct (get_config_layers (put_row (ensured s cat col) cls cat col (mkRow (serialize_config_for_db cls c) (schema_id cls) now)) cls cat col)
    as (a & Ha & _ & Hav); [done|destruct col; simpl; set_solver|done..| |].
  { apply put_row_readable; [done|by apply ensured_readable|by apply serialize_readable]. }
  exists a. split; [done|]. intros f Hf. specialize (Hav f Hf). destruct (ensured_same s cls cat col f Hcat) as (Hinh & _).
  rewrite tier_value_row in Hav by (destruct col; simpl; set_solver). rewrite put_row_tier, put_row_inherited, Hinh in Hav by done.
  rewrite row_delta_some in Hav by done. simpl in Hav. rewrite serialize_get in Hav by done.
  destruct (str_mem (f_name f) (fields_set c)); [|done]. by rewrite (serialize_read cls) in Hav.
Qed.
