(* ===== verification/ConfigVersions.v ===== *)
(** * Configuration service: batches, snapshots of defaults, version tokens

    The batch read against the single one; the defaults a catalog was created with
    against later writes elsewhere; the token of a versioned read against the writes
    that follow it. *)

From S2P Require Import Prelude ConfigStore ConfigProofs.

(** ** The batch read *)

(** The loop over single reads. *)
Fixpoint each_config (s : store) (cls : config_class) (cat : string) (cids : list string) (result : list (string * config))
    : config_error + list (string * config) :=
  match cids with
  | [] => inr result
  | cid :: cids =>
      match get_config s cls None (Some cat) (Some cid) with
      | inl e => inl e
      | inr c => each_config s cls cat cids (dict_set cid c result)
      end
  end.

Lemma dict_get_NoDup {A} k (v : A) d : NoDup (map fst d) -> (k, v) ∈ d -> dict_get k d = Some v.
Proof.
  induction d as [|[k' v'] d IH]; simpl; [set_solver|]. intros [Hk Hn]%NoDup_cons Hin. apply elem_of_cons in Hin as [[= <- <-]|Hin].
  - by rewrite String.eqb_refl.
  - destruct (String.eqb_spec k k') as [<-|_]; [|auto]. exfalso. apply Hk. by apply (list_elem_of_fmap_2 fst) in Hin.
Qed.

Section batch.
Context (s : store) (cls : config_class) (cat : string) (cids : list string).
(** No two ids of the request name one collection. *)
Hypothesis no_alias : forall c1 c2, c1 ∈ cids -> c2 ∈ cids -> internal_id s cat c1 = internal_id s cat c2 -> c1 = c2.

Lemma external_get l : forall d cid, (forall c, c ∈ l -> c ∈ cids) -> cid ∈ cids ->
  dict_get (internal_id s cat cid) (fold_left (fun d cid => dict_set (internal_id s cat cid) cid d) l d)
  = if str_mem cid l then Some cid else dict_get (internal_id s cat cid) d.
Proof.
  induction l as [|x l IH]; intros d cid Hl Hcid; [done|]. simpl. rewrite IH by set_solver.
  destruct (str_mem cid l); [by rewrite orb_true_r|]. rewrite orb_false_r. destruct (String.eqb_spec cid x) as [<-|Hne].
  - by rewrite dict_get_set_eq.
  - rewrite dict_get_set_ne; [done|]. intros He. apply Hne. symmetry. apply no_alias; [set_solver|done|done].
Qed.
Lemma selected_rows col d :
  (col, d) ∈ select_collection_configs_batch s cat (class_key cls) (map (internal_id s cat) cids) <->
  col ∈ map (internal_id s cat) cids /\ exists r, collection_configs s !! (cat, col, class_key cls) = Some r /\ d = config_data r.
Proof.
  unfold select_collection_configs_batch. rewrite list_elem_of_omap. split.
  - intros ([[[c x] k] r] & Hin & H). apply elem_of_map_to_list in Hin.
    destruct (c ==s cat) eqn:E1; [|done]. destruct (k ==s class_key cls) eqn:E2; [|done]. destruct (str_mem x _) eqn:E3; [|done].
    simpl in H. simplify_eq. apply String.eqb_eq in E1 as ->. apply String.eqb_eq in E2 as ->. apply str_mem_In in E3. eauto.
  - intros [Hin (r & Hr & ->)]. exists ((cat, col, class_key cls), r). split; [by apply elem_of_map_to_list|].
    rewrite !String.eqb_refl. apply str_mem_In in Hin. by rewrite Hin.
Qed.
Lemma selected_rows_NoDup : NoDup (map fst (select_collection_configs_batch s cat (class_key cls) (map (internal_id s cat) cids))).
Proof.
  unfold select_collection_configs_batch. pose proof (NoDup_fst_map_to_list (collection_configs s)) as Hn.
  induction (map_to_list (collection_configs s)) as [|[[[c x] k] r] l IH]; simpl; [constructor|].
  simpl in Hn. apply NoDup_cons in Hn as [Hx Hn].
  destruct (c ==s cat) eqn:E1; simpl; [|auto]. destruct (k ==s class_key cls) eqn:E2; simpl; [|auto].
  destruct (str_mem x _); simpl; [|auto]. apply String.eqb_eq in E1 as ->. apply String.eqb_eq in E2 as ->.
  apply NoDup_cons. split; [|auto]. intros Hin. apply Hx. apply list_elem_of_fmap in Hin as ([y d] & -> & Hin).
  apply list_elem_of_omap in Hin as ([[[c' y'] k'] r'] & Hin & H).
  destruct (c' ==s cat) eqn:E1; [|done]. destruct (k' ==s class_key cls) eqn:E2; [|done]. destruct (str_mem y' _); [|done].
  simpl in H. simplify_eq. apply String.eqb_eq in E1 as ->. apply String.eqb_eq in E2 as ->. simpl.
  by apply (list_elem_of_fmap_2 fst) in Hin.
Qed.
(** The batch gives each id the delta the single read gives it. *)
Lemma batch_delta cid : cid ∈ cids -> nonempty_delta (dict_get cid (collection_delta_by_id s cls cat cids)) = collection_delta s cls cat cid.
Proof.
  intros Hcid. unfold collection_delta_by_id.
  set (rows := select_collection_configs_batch _ _ _ _). set (g := fun col => default col (dict_get col (internal_to_external s cat cids))).
  assert (Hg : forall c, c ∈ cids -> g (internal_id s cat c) = c).
  { intros c Hc. unfold g, internal_to_external. rewrite external_get by done. apply str_mem_In in Hc. by rewrite Hc. }
  assert (Hrows : forall col d, (col, d) ∈ rows -> exists c, c ∈ cids /\ col = internal_id s cat c).
  { intros col d Hin. apply selected_rows in Hin as [Hin _]. apply list_elem_of_fmap in Hin as (c & -> & Hc). eauto. }
  assert (Hfold : fold_left (fun d row => dict_set (g row.1) row.2 d) rows [] = delta_update [] (map (fun row => (g row.1, row.2)) rows)).
  { unfold delta_update. generalize (@nil (string * pydict)). induction rows as [|x l IH]; intros a; simpl; [done|]. apply IH.
    intros col d Hin. apply (Hrows col d). set_solver. }
  change (fun d row => _) with (fun d (row : string * pydict) => dict_set (g row.1) row.2 d). rewrite Hfold.
  assert (Hn : NoDup (map fst (map (fun row => (g row.1, row.2)) rows))).
  { pose proof selected_rows_NoDup as Hn. fold rows in Hn. clear Hfold. induction rows as [|[x d] l IH]; simpl in *; [constructor|].
    apply NoDup_cons in Hn as [Hx Hn]. apply NoDup_cons. split; [|apply IH; [intros y e Hy; apply (Hrows y e); set_solver|done]].
    intros Hin. apply Hx. rewrite map_map in Hin. simpl in Hin. apply list_elem_of_fmap in Hin as ([y d'] & He & Hin). simpl in He.
    destruct (Hrows x d) as (c1 & Hc1 & ->); [set_solver|]. destruct (Hrows y d') as (c2 & Hc2 & ->); [set_solver|].
    rewrite !Hg in He by done. subst c2. by apply (list_elem_of_fmap_2 fst) in Hin. }
  rewrite delta_update_get by done. unfold collection_delta, row_delta.
  destruct (collection_configs s !! (cat, internal_id s cat cid, class_key cls)) as [r|] eqn:Er.
  - rewrite (dict_get_NoDup cid (config_data r)); [by destruct (config_data r)|done|].
    apply list_elem_of_fmap. exists (internal_id s cat cid, config_data r). simpl. rewrite Hg by done. split; [done|].
    apply selected_rows. split; [by apply (list_elem_of_fmap_2 (internal_id s cat))|eauto].
  - destruct (dict_get cid (map _ rows)) as [d|] eqn:Ed; [|done]. exfalso. apply dict_get_in_keys in Ed. rewrite map_map in Ed. simpl in Ed.
    apply list_elem_of_fmap in Ed as ([x d'] & He & Hin). simpl in He. destruct (Hrows x d' Hin) as (c & Hc & ->).
    rewrite Hg in He by done. subst c. apply selected_rows in Hin as [_ (r & Hr & _)]. congruence.
Qed.
End batch.

(** The batch read returns, for each collection, what the single read returns, and
    fails with the first error the single reads would raise. *)
Theorem batch_equals_single_reads s cls cat cids :
  cat ∈ catalogs s -> cat <> "" -> cids <> [] -> Forall (fun c => c <> "") cids ->
  (forall c1 c2, c1 ∈ cids -> c2 ∈ cids -> internal_id s cat c1 = internal_id s cat c2 -> c1 = c2) ->
  get_configs_batch s cls cat cids = each_config s cls cat cids [].
Proof.
  intros Hcat Hne Hcids Hall Hal. unfold get_configs_batch. rewrite bool_decide_true by done.
  destruct (inheritance_base s cls cat) as [e|base] eqn:Hb.
  - destruct cids as [|cid cids]; [done|]. simpl. by rewrite (proj2 (String.eqb_neq _ _) Hne), Hb.
  - pose proof (batch_delta s cls cat cids Hal) as Hd. clear Hcids Hal.
    generalize (@nil (string * config)). revert Hd Hall. generalize (collection_delta_by_id s cls cat cids). intros by_id.
    induction cids as [|cid cids IH]; intros Hd Hall res; simpl; [done|]. apply Forall_cons in Hall as [Hc Hall].
    rewrite (proj2 (String.eqb_neq _ _) Hne), Hb. rewrite (proj2 (String.eqb_neq _ _) Hc), bool_decide_true by done.
    rewrite Hd by set_solver. destruct (overlay_deltas _ _ _); [done|]. apply IH; [|done]. intros x Hin. apply Hd. set_solver.
Qed.

(** ** The defaults of a catalog *)

(** Validating a dump of an instance gives its values back. *)
Lemma validate_dump cls c d : class_ok cls -> map fst d = model_fields cls ->
  (forall f, f ∈ fields cls -> exists v, dict_get (f_name f) d = Some v /\ f_parse f v = Some (attr c (f_name f))) ->
  exists b, model_validate cls d = inr b /\ forall f, f ∈ fields cls -> attr b (f_name f) = attr c (f_name f).
Proof.
  intros Hok Hk Hd.
  assert (Hval : forall f, f ∈ fields cls -> field_value d f = Some (attr c (f_name f))).
  { intros f Hf. unfold field_value. by destruct (Hd f Hf) as (v & -> & Hv). }
  destruct (model_validate cls d) as [e|b] eqn:Hv.
  - exfalso. unfold model_validate in Hv. destruct (forbid cls && _) eqn:Hx.
    + apply andb_true_iff in Hx as [_ Hx]. apply existsb_exists in Hx as ([k v] & Hin & Hx). simpl in Hx.
      assert (Hin' : k ∈ model_fields cls) by (rewrite <- Hk; apply list_elem_of_In in Hin; by apply (list_elem_of_fmap_2 fst) in Hin).
      apply str_mem_In in Hin'. by rewrite Hin' in Hx.
    + destruct (field_values_total d (fields cls)) as [vs Hvs]; [|by rewrite Hvs in Hv].
      apply Forall_forall. intros f Hf. rewrite Hval by done. by eexists.
  - exists b. split; [done|]. intros f Hf. pose proof (validate_attr _ _ _ _ Hok Hv Hf) as Ha. rewrite Hval in Ha by done. congruence.
Qed.
Lemma python_dump cls c : class_ok cls -> instance cls c ->
  exists b, model_validate cls (model_dump c) = inr b /\ forall f, f ∈ fields cls -> attr b (f_name f) = attr c (f_name f).
Proof.
  intros Hok Hi. apply validate_dump; [done|apply Hi|]. intros f Hf. exists (attr c (f_name f)). split; [by apply (instance_get cls)|].
  by apply (proj1 (Forall_forall _ _) (proj2 Hi)).
Qed.
Lemma full_dump_keys cls c : map fst (model_dump_db false cls c) = model_fields cls.
Proof. unfold model_dump_db, model_fields. rewrite map_map. simpl. induction (fields cls); simpl; congruence. Qed.
Lemma db_dump cls c : class_ok cls -> instance cls c ->
  exists b, model_validate cls (model_dump_db false cls c) = inr b /\ forall f, f ∈ fields cls -> attr b (f_name f) = attr c (f_name f).
Proof.
  intros Hok Hi. apply validate_dump; [done|apply full_dump_keys|]. intros f Hf. exists (f_dump f (attr c (f_name f))). split.
  - apply dict_get_NoDup; [by apply dump_NoDup|]. unfold model_dump_db. simpl. apply list_elem_of_fmap. exists f. split; [done|].
    apply list_elem_of_In, filter_In. split; [by apply list_elem_of_In|done].
  - assert (Hp : f_parse f (attr c (f_name f)) = Some (attr c (f_name f))) by (by apply (proj1 (Forall_forall _ _) (proj2 Hi))).
    by apply (fo_db _ (field_okP _ _ Hok Hf)) in Hp as [].
Qed.

(** The entry a class gets in the snapshot gives back the platform's value of the time. *)
Lemma snapshot_fold s cls e l : forall acc,
  snapshot_entry s [] cls = [(class_key cls, e)] -> (forall c, c ∈ l -> class_key c = class_key cls -> c = cls) ->
  (cls ∈ l \/ dict_get (class_key cls) acc = Some e) -> dict_get (class_key cls) (fold_left (snapshot_entry s) l acc) = Some e.
Proof.
  induction l as [|x l IH]; intros acc He Hkey Hin; simpl; [by destruct Hin as [?%not_elem_of_nil|]|].
  assert (Hset : forall a, snapshot_entry s a cls = dict_set (class_key cls) e a).
  { intros a. unfold snapshot_entry in *. destruct (platform_get_config s cls); [done|].
    destruct (serialize_for_snapshot cls c); [done|]. simpl in He. by simplify_eq. }
  apply IH; [done|intros c Hc; apply Hkey; set_solver|].
  destruct (decide (class_key x = class_key cls)) as [Hk|Hk].
  - apply Hkey in Hk; [|set_solver]. subst x. right. by rewrite Hset, dict_get_set_eq.
  - destruct Hin as [Hin|Hin]; [apply elem_of_cons in Hin as [->|Hin]; [done|by left]|]. right. unfold snapshot_entry.
    destruct (platform_get_config s x); [done|]. destruct (serialize_for_snapshot x c); [done|]. by rewrite dict_get_set_ne.
Qed.
Lemma snapshot_base s registered cat now s1 cls base :
  class_ok cls -> instance cls base -> cls ∈ registered -> is_snapshottable_config cls = true ->
  (forall c, c ∈ registered -> class_key c = class_key cls -> c = cls) ->
  platform_get_config s cls = inr base -> snapshot_catalog_defaults s registered cat now = inr s1 -> cat <> "" ->
  exists r b, s1 = set_catalogs (<[(cat, SNAPSHOT_REF_KEY) := r]> (catalog_configs s)) s /\ cat ∈ catalogs s /\
    select_snapshot_base (row_delta (Some r)) cls = Some b /\ forall f, f ∈ fields cls -> attr b (f_name f) = attr base (f_name f).
Proof.
  intros Hok Hi Hreg Hsn Hkey Hp Hs Hne.
  destruct (python_dump cls base Hok Hi) as (pin & Hpin & Hpv). pose proof (validate_instance _ _ _ Hok Hpin) as Hpi.
  destruct (db_dump cls pin Hok Hpi) as (b & Hb & Hbv).
  set (e := VDict [("schema_id", VStr (schema_id cls)); ("data", VDict (model_dump_db false cls pin))]).
  assert (Hentry : snapshot_entry s [] cls = [(class_key cls, e)]).
  { unfold snapshot_entry, serialize_for_snapshot. by rewrite Hp, Hpin. }
  assert (Hget : dict_get (class_key cls) (fold_left (snapshot_entry s) (snapshottable_config_classes registered) []) = Some e).
  { apply snapshot_fold; [done| |].
    - intros c Hc. apply Hkey. apply list_elem_of_In, filter_In in Hc as [Hc _]. by apply list_elem_of_In.
    - left. apply list_elem_of_In, filter_In. split; [by apply list_elem_of_In|done]. }
  unfold snapshot_catalog_defaults in Hs. destruct (fold_left _ _ _) as [|kv snap]; [done|].
  case_bool_decide as Hc; [|done]. simplify_eq. eexists _, b. split_and!; [reflexivity|done| |].
  - simpl row_delta. unfold select_snapshot_base. rewrite Hget. unfold e.
    change (cfg_get _ "schema_id") with (VStr (schema_id cls)). cbv iota. rewrite String.eqb_refl.
    change (cfg_get _ "data") with (VDict (model_dump_db false cls pin)). cbv iota. by rewrite Hb.
  - intros f Hf. rewrite Hbv by done. by apply Hpv.
Qed.

(** Everything that happens outside a catalog: writes and deletions at the platform, by
    whatever class, and at other catalogs and their collections. *)
Inductive elsewhere (cls : config_class) (cat : string) : store -> store -> Prop :=
| el_now s : elsewhere cls cat s s
| el_platform s s1 s2 cls' body c check now expected ret :
    elsewhere cls cat s s1 -> class_ok cls' -> (class_key cls' = class_key cls -> cls' = cls) -> model_validate cls' body = inr c ->
    set_config s1 cls' c None None check now expected = inr (ret, s2) -> elsewhere cls cat s s2
| el_platform_delete s s1 s2 cls' b : elsewhere cls cat s s1 -> delete_config s1 cls' None None = inr (b, s2) -> elsewhere cls cat s s2
| el_other s s1 s2 cls' c cat' col check now expected ret :
    elsewhere cls cat s s1 -> cat' <> cat -> set_config s1 cls' c (Some cat') col check now expected = inr (ret, s2) -> elsewhere cls cat s s2
| el_other_delete s s1 s2 cls' cat' col b :
    elsewhere cls cat s s1 -> cat' <> cat -> delete_config s1 cls' (Some cat') col = inr (b, s2) -> elsewhere cls cat s s2.

(** Case analysis of a write up to the statement that stores the row. *)
Ltac peel H :=
  repeat (match type of H with
          | match conflict _ with _ => _ end = _ => fail 1
          | match ?x with _ => _ end = _ => destruct x eqn:?; try done
          end).
Lemma platform_set_inv s cls c check now expected ret s' :
  set_config s cls c None None check now expected = inr (ret, s') ->
  s' = s \/ s' = set_platform (<[class_key cls := mkRow (serialize_config_for_db cls c) (schema_id cls) now]> (platform_configs s)) s.
Proof.
  unfold set_config, platform_set_config. intros H.
  peel H; try (left; congruence); right; (destruct (conflict _) as [|m] eqn:Hst in H; [done|]); apply store_row_spec in Hst; by simplify_eq.
Qed.

(** What the catalog's reads depend on. *)
Record untouched (cls : config_class) (cat : string) (s s' : store) : Prop := {
  ut_catalog : forall k, catalog_configs s' !! (cat, k) = catalog_configs s !! (cat, k);
  ut_collection : forall col k, collection_configs s' !! (cat, col, k) = collection_configs s !! (cat, col, k);
  ut_ids : external_ids s' = external_ids s;
  ut_present : cat ∈ catalogs s -> cat ∈ catalogs s';
  ut_platform : tier_readable s cls None None -> tier_readable s' cls None None;
}.
Lemma untouched_trans cls cat s1 s2 s3 : untouched cls cat s1 s2 -> untouched cls cat s2 s3 -> untouched cls cat s1 s3.
Proof. intros [] []. split; intros; [etransitivity; eauto..|congruence|auto|auto]. Qed.
Lemma platform_set_untouched s cls cat cls' body c check now expected ret s' :
  class_ok cls' -> (class_key cls' = class_key cls -> cls' = cls) -> model_validate cls' body = inr c ->
  set_config s cls' c None None check now expected = inr (ret, s') -> untouched cls cat s s'.
Proof.
  intros Hok Hk Hb Hs. apply platform_set_inv in Hs as [->| ->]; [by split|]. split; try done. intros Hr d. simpl.
  destruct (decide (class_key cls' = class_key cls)) as [He|He].
  - pose proof (Hk He) as ->. rewrite lookup_insert_eq. simpl.
    pose proof (serialize_readable cls c Hok (validate_instance _ _ _ Hok Hb)) as Hread.
    destruct (serialize_config_for_db cls c); [done|]. intros [= <-]. done.
  - rewrite lookup_insert_ne by done. apply Hr.
Qed.
Lemma platform_delete_untouched s cls cat cls' b s' : delete_config s cls' None None = inr (b, s') -> untouched cls cat s s'.
Proof.
  intros [= <- <-]. split; try done. intros Hr d. simpl. destruct (decide (class_key cls' = class_key cls)) as [<-|He].
  - by rewrite lookup_delete_eq.
  - rewrite lookup_delete_ne by done. apply Hr.
Qed.
Lemma other_set_untouched s cls cat cls' c cat' col check now expected ret s' :
  cat' <> cat -> set_config s cls' c (Some cat') col check now expected = inr (ret, s') -> untouched cls cat s s'.
Proof.
  intros Hne Hs. apply set_config_inv in Hs as (_ & _ & [[-> _]|(-> & _)]); [by split|].
  destruct col; simpl; split; simpl; intros; try done; try set_solver; by rewrite lookup_insert_ne by congruence.
Qed.
Lemma other_delete_untouched s cls cat cls' cat' col b s' :
  cat' <> cat -> delete_config s cls' (Some cat') col = inr (b, s') -> untouched cls cat s s'.
Proof.
  intros Hne Hs. unfold delete_config in Hs. destruct col as [col|]; repeat (case_match; simplify_eq);
    split; simpl; intros; try done; by rewrite lookup_delete_ne by congruence.
Qed.
Lemma elsewhere_untouched cls cat s s' : elsewhere cls cat s s' -> untouched cls cat s s'.
Proof.
  induction 1; [by split|..]; (eapply untouched_trans; [eassumption|]);
    eauto using platform_set_untouched, platform_delete_untouched, other_set_untouched, other_delete_untouched.
Qed.

(** C33: Defaults are frozen with the catalog, for the classes the snapshot covers. Once
    the snapshot of its defaults is taken, nothing written or deleted at the platform or
    at other catalogs changes what the catalog and its collections read of a registered
    class that is snapshottable (driver and routing configurations are not) and keeps
    its schema: every field has the value its collection's row, its catalog's row, or
    else the platform of the time of the snapshot gave it. The rows of the catalog must
    be readable. *)
Theorem snapshot_shields_catalog s registered cat now s1 s2 cls base col :
  class_ok cls -> cls ∈ registered -> is_snapshottable_config cls = true ->
  (forall c, c ∈ registered -> class_key c = class_key cls -> c = cls) ->
  cat <> "" -> col <> Some "" -> rows_readable s cls cat col ->
  platform_get_config s cls = inr base ->
  snapshot_catalog_defaults s registered cat now = inr s1 ->
  elsewhere cls cat s1 s2 ->
  exists c, get_config s2 cls None (Some cat) col = inr c /\
    forall f, f ∈ fields cls ->
      fold_left (layer f) (catalog_delta s cls cat :: match col with Some col => [collection_delta s cls cat col] | None => [] end)
        (Some (attr base (f_name f))) = Some (attr c (f_name f)).
Proof.
  intros Hok Hreg Hsn Hkey Hne Hcne [Hrp Hrc Hrt] Hp Hs Hel.
  assert (Hi : instance cls base) by (destruct (platform_layers s cls Hok Hrp) as (b & Hb & Hbi & _); congruence).
  destruct (snapshot_base _ _ _ _ _ _ _ Hok Hi Hreg Hsn Hkey Hp Hs Hne) as (r & b & -> & Hcat & Hsel & Hbv).
  destruct (elsewhere_untouched _ _ _ _ Hel) as [Hc Hk Hid Hpres Hpl]. simpl in Hc, Hk, Hid, Hpres, Hpl.
  assert (Hrow : forall k, k <> SNAPSHOT_REF_KEY -> catalog_configs s2 !! (cat, k) = catalog_configs s !! (cat, k)).
  { intros k Hkk. rewrite Hc. by rewrite lookup_insert_ne by congruence. }
  assert (Hcd : catalog_delta s2 cls cat = catalog_delta s cls cat).
  { unfold catalog_delta. rewrite !bool_decide_true by auto. by rewrite Hrow by apply (co_key _ Hok). }
  assert (Htr : forall col, tier_row s2 cls (Some cat) col = tier_row s cls (Some cat) col).
  { intros [co|]; simpl; [|by apply Hrow, (co_key _ Hok)]. unfold internal_id. by rewrite Hk, Hid. }
  assert (Hbase : forall f, f ∈ fields cls -> base_value s2 cls cat f = Some (attr base (f_name f))).
  { intros f Hf. unfold base_value, resolve_catalog_snapshot_base. rewrite (proj2 (String.eqb_neq _ _) Hne), Hc, lookup_insert_eq, Hsel.
    by rewrite Hbv. }
  destruct (get_config_layers s2 cls cat col) as (c & Hg & _ & Hv); [done|auto|done|done| |].
  - split; [by apply Hpl|intros d; rewrite Htr; apply Hrc|intros d; rewrite Htr; apply Hrt].
  - exists c. split; [done|]. intros f Hf. rewrite <- Hv by done. unfold tier_value. rewrite Hbase, Hcd by done.
    destruct col as [co|]; [|done]. simpl. f_equal. unfold collection_delta. specialize (Htr (Some co)). simpl in Htr. by rewrite Htr.
Qed.

(** ** Version tokens *)

(** Writes of any kind after a moment, none of which carries the token's time. *)
Inductive writes_since (tok : Z) : store -> store -> Prop :=
| ws_now s : writes_since tok s s
| ws_set s s1 s2 cls c cat col check now expected ret :
    writes_since tok s s1 -> now <> tok -> set_config s1 cls c cat col check now expected = inr (ret, s2) -> writes_since tok s s2
| ws_delete s s1 s2 cls cat col b : writes_since tok s s1 -> delete_config s1 cls cat col = inr (b, s2) -> writes_since tok s s2
| ws_snapshot s s1 s2 registered cat now :
    writes_since tok s s1 -> now <> tok -> snapshot_catalog_defaults s1 registered cat now = inr s2 -> writes_since tok s s2.

(** Each row is as it was, was written at another time, or is gone. *)
Definition moved_on (tok : Z) (s s' : store) : Prop :=
  external_ids s' = external_ids s /\
  forall cls cat col, tier_row s' cls cat col = tier_row s cls cat col \/ forall r, tier_row s' cls cat col = Some r -> updated_at r <> tok.
Lemma moved_on_trans tok s1 s2 s3 : moved_on tok s1 s2 -> moved_on tok s2 s3 -> moved_on tok s1 s3.
Proof.
  intros [Hi1 H1] [Hi2 H2]. split; [congruence|]. intros cls cat col.
  destruct (H2 cls cat col) as [E|E]; [|by right]. destruct (H1 cls cat col) as [E1|E1]; [left; congruence|]. right. intros r. rewrite E. apply E1.
Qed.
Lemma inserted_row `{Countable K} (m : gmap K stored_row) k k' r tok : updated_at r <> tok ->
  <[k := r]> m !! k' = m !! k' \/ forall r', <[k := r]> m !! k' = Some r' -> updated_at r' <> tok.
Proof. intros Hr. destruct (decide (k = k')) as [->|Hne]; [right|left]; [rewrite lookup_insert_eq; by intros r' [= <-]|by rewrite lookup_insert_ne]. Qed.
Lemma deleted_row `{Countable K} (m : gmap K stored_row) k k' tok :
  delete k m !! k' = m !! k' \/ forall r', delete k m !! k' = Some r' -> updated_at r' <> tok.
Proof. destruct (decide (k = k')) as [->|Hne]; [right|left]; [by rewrite lookup_delete_eq|by rewrite lookup_delete_ne]. Qed.
Lemma set_moved tok s cls c cat col check now expected ret s' :
  now <> tok -> set_config s cls c cat col check now expected = inr (ret, s') -> moved_on tok s s'.
Proof.
  intros Hn Hs. destruct cat as [cat|].
  - apply set_config_inv in Hs as (_ & _ & [[-> _]|(-> & _)]); [by split; [|left]|].
    split; [by destruct col|]. intros cls' cat' col'. destruct col as [col|], cat' as [cat'|], col' as [col'|]; simpl; try (by left);
      by apply inserted_row.
  - destruct col; [done|]. apply platform_set_inv in Hs as [->| ->]; [by split; [|left]|].
    split; [done|]. intros cls' cat' col'. destruct cat' as [cat'|], col' as [col'|]; simpl; try (by left); by apply inserted_row.
Qed.
Lemma delete_moved tok s cls cat col b s' : delete_config s cls cat col = inr (b, s') -> moved_on tok s s'.
Proof.
  unfold delete_config. intros Hs. destruct cat as [cat|], col as [col|]; repeat case_match; simplify_eq; (split; [done|]);
    intros cls' cat' col'; destruct cat' as [cat'|], col' as [col'|]; simpl; try (by left); apply deleted_row.
Qed.
Lemma snapshot_moved tok s registered cat now s' :
  now <> tok -> snapshot_catalog_defaults s registered cat now = inr s' -> moved_on tok s s'.
Proof.
  unfold snapshot_catalog_defaults. intros Hn Hs. repeat (case_match; simplify_eq); (split; [done|]); intros cls' cat' col'; [by left|].
  destruct cat' as [cat'|], col' as [col'|]; simpl; try (by left); by apply inserted_row.
Qed.
Lemma writes_moved tok s s' : writes_since tok s s' -> moved_on tok s s'.
Proof.
  induction 1; [by split; [|left]|..]; (eapply moved_on_trans; [eassumption|]); eauto using set_moved, delete_moved, snapshot_moved.
Qed.

(** A write with a token lands only on the row that carries it. *)
Lemma store_row_cas `{Countable K} (m m' : gmap K stored_row) k d cls now tok :
  conflict (store_row m k d cls now (Some tok)) = inr m' -> exists r, m !! k = Some r /\ updated_at r = tok.
Proof.
  unfold conflict, store_row. intros Hm. destruct (m !! k) as [r|]; [|done]. destruct (updated_at r =? tok) eqn:E; [|done].
  apply Z.eqb_eq in E. eauto.
Qed.
Lemma cas_row s cls c cat col check now tok ret s' :
  set_config s cls c cat col check now (Some tok) = inr (ret, s') ->
  s' = s \/ exists r, tier_row s cls cat col = Some r /\ updated_at r = tok.
Proof.
  unfold set_config, set_collection_config, set_catalog_config, platform_set_config. intros H.
  destruct cat as [cat|], col as [col|]; [| |done|];
    peel H; try (left; congruence); right;
    (destruct (conflict _) as [|m] eqn:Hst in H; [done|]); by apply store_row_cas in Hst.
Qed.
Lemma version_row s0 s cls cat col c tok :
  get_config_versioned s0 s cls cat col = inr (c, Some tok) -> exists r, tier_row s cls cat col = Some r /\ updated_at r = tok.
Proof.
  unfold get_config_versioned, row_version. intros H.
  destruct cat as [cat|], col as [col|]; repeat (case_match; simplify_eq); simpl; eauto;
    match goal with Hv : _ <$> _ = Some _ |- _ => apply fmap_Some in Hv as (r & Hr & ->) end; eauto.
Qed.

(** C34: a write with a token overwrites nothing unseen.  Take the token of a versioned read,
    and then any writes, deletions and snapshots, none in the instant the token names: a
    write with that token is refused, or writes nothing, or replaces the very row the
    token was read from. *)
Theorem cas_overwrites_nothing_unseen s0 s s2 s3 cls cat col c c2 tok check now ret :
  get_config_versioned s0 s cls cat col = inr (c, Some tok) ->
  writes_since tok s s2 ->
  set_config s2 cls c2 cat col check now (Some tok) = inr (ret, s3) ->
  s3 = s2 \/ exists r, tier_row s cls cat col = Some r /\ tier_row s2 cls cat col = Some r.
Proof.
  intros Hv Hw Hs. apply cas_row in Hs as [->|(r & Hr & Ht)]; [by left|]. right.
  destruct (writes_moved _ _ _ Hw) as [_ Hm]. destruct (version_row _ _ _ _ _ _ _ Hv) as (r0 & H0 & _).
  exists r0. split; [done|]. destruct (Hm cls cat col) as [E|E]; [congruence|]. by apply E in Hr.
Qed.
