(* ===== verification/ConfigCases.v ===== *)
(** * Configuration service: a class, witnesses and limits

    A driver-like class with a field of each kind, stores in which the theorems of
    [ConfigProofs] and [ConfigVersions] apply, and what happens just outside them. *)

From S2P Require Import Prelude ConfigStore ConfigProofs ConfigVersions.

(** ** A class *)

(** A field of a plain type: a value of the type is its own dump. *)
Definition typed (name : string) (kind : mutability) (dflt : pyval) (p : pyval -> bool) : field :=
  mkField name kind (Some dflt) AOther (fun v => if p v then Some v else None) (fun v => v).
Lemma strip_other v : strip_nested AOther v = v.
Proof. by destruct v. Qed.
Lemma typed_read name kind dflt p v : f_read (typed name kind dflt p) v = if p v then Some v else None.
Proof. change (f_parse (typed name kind dflt p) (strip_nested AOther v) = if p v then Some v else None). by rewrite strip_other. Qed.
Lemma typed_ok name kind dflt p : p dflt = true -> field_ok (typed name kind dflt p).
Proof.
  intros Hd. split.
  - exists dflt. simpl. by rewrite Hd.
  - intros v w. rewrite typed_read. simpl. destruct (p v) eqn:E; [|done]. intros [= <-]. by rewrite E.
  - intros v w. rewrite typed_read. simpl. destruct (p v) eqn:E; [|done]. intros [= <-]. by rewrite E.
Qed.
Definition is_int (v : pyval) : bool := match v with VInt _ => true | _ => false end.
Definition is_str (v : pyval) : bool := match v with VStr _ => true | _ => false end.
Definition is_opt_str (v : pyval) : bool := match v with VStr _ | VNone => true | _ => false end.

Definition srid : field := typed "srid" Immutable (VInt 4326) is_int.
Definition title : field := typed "title" Mutable (VStr "") is_str.
Definition engine_ref : field := typed "engine_ref" WriteOnce VNone is_opt_str.
Definition physical_table : field := typed "physical_table" Computed VNone is_opt_str.
Definition layout : config_class :=
  mkClass "LayoutConfig" "layout_config" "sha256:1" true [srid; title; engine_ref; physical_table] (Some FreezeCollection) false [].
Lemma layout_ok : class_ok layout.
Proof.
  split; [|repeat (constructor; [by apply typed_ok|]); constructor|by vm_compute].
  apply (bool_decide_unpack _). by vm_compute.
Qed.

(** ** Stores *)

Definition row_at (now : Z) (d : pydict) : stored_row := mkRow d "sha256:1" now.
(** A catalog that sets the layout, and a collection with items that sets its title. *)
Definition populated : store :=
  mkStore {["layout_config" := row_at 1 [("title", VStr "platform")]]}
    {[("cat", "layout_config") := row_at 2 [("srid", VInt 3857)]]}
    {[("cat", "col_1", "layout_config") := row_at 3 [("title", VStr "forest")]]}
    {["cat"]} {[("cat", "col_1")]} {[("cat", "forest") := "col_1"]} {[("cat", "col_1")]}.
(** The same before the collection has a row. *)
Definition fresh : store := set_collections ∅ populated.
(** The platform alone sets something. *)
Definition plain : store := set_catalogs ∅ fresh.

(** Readability, decided. *)
Definition readable_b (cls : config_class) (d : pydict) : bool :=
  bool_decide (NoDup (map fst d)) &&
  forallb (fun f => match dict_get (f_name f) d with Some v => match f_read f v with Some _ => true | None => false end | None => true end) (fields cls).
Lemma readable_b_ok cls d : readable_b cls d = true -> readable cls d.
Proof.
  unfold readable_b. rewrite andb_true_iff, bool_decide_eq_true, forallb_forall. intros [Hn Hf]. split; [done|].
  apply Forall_forall. intros f Hin v Hv. apply list_elem_of_In, Hf in Hin. rewrite Hv in Hin. destruct (f_read f v); [by eexists|done].
Qed.
Definition tier_readable_b (s : store) (cls : config_class) (cat col : option string) : bool :=
  match row_delta (tier_row s cls cat col) with Some d => readable_b cls d | None => true end.
Definition rows_readable_b (s : store) (cls : config_class) (cat : string) (col : option string) : bool :=
  tier_readable_b s cls None None && tier_readable_b s cls (Some cat) None && tier_readable_b s cls (Some cat) col.
Lemma tier_readable_b_ok s cls cat col : tier_readable_b s cls cat col = true -> tier_readable s cls cat col.
Proof. unfold tier_readable_b. intros H d Hd. rewrite Hd in H. by apply readable_b_ok. Qed.
Lemma rows_readable_b_ok s cls cat col : rows_readable_b s cls cat col = true -> rows_readable s cls cat col.
Proof. unfold rows_readable_b. rewrite !andb_true_iff. intros [[? ?] ?]. split; by apply tier_readable_b_ok. Qed.
Lemma present : "cat" ∈ catalogs populated.
Proof. set_solver. Qed.
Lemma populated_ids : ids_ok populated.
Proof.
  intros cat col id H. simpl in H. apply lookup_singleton_Some in H as [[= <- <-] <-]. by vm_compute.
Qed.
Lemma title_in : title ∈ fields layout.
Proof. set_solver. Qed.
Lemma srid_in : srid ∈ fields layout.
Proof. set_solver. Qed.

(** ** Witnesses *)

Lemma config_is_layered_witness :
  exists c, get_config populated layout None (Some "cat") (Some "forest") = inr c /\
    attr c "srid" = VInt 3857 /\ attr c "title" = VStr "forest" /\ attr c "engine_ref" = VNone.
Proof.
  destruct (config_is_layered populated layout "cat" (Some "forest")) as (c & Hc & Hv).
  - exact layout_ok.
  - exact present.
  - done.
  - done.
  - apply rows_readable_b_ok. by vm_compute.
  - exists c. split; [done|]. pose proof (Hv srid srid_in) as H1. pose proof (Hv title title_in) as H2.
    assert (He : engine_ref ∈ fields layout) by set_solver. pose proof (Hv engine_ref He) as H3.
    vm_compute in H1, H2, H3. injection H1 as H1. injection H2 as H2. injection H3 as H3.
    split_and!; [symmetry; exact H1|symmetry; exact H2|symmetry; exact H3].
Defined.

(** What a caller sends. *)
Definition sent (body : pydict) : config := match model_validate layout body with inr c => c | inl _ => mkConfig [] [] end.
Definition stored_after (r : config_error + (config * store)) : store := match r with inr (_, s) => s | inl _ => populated end.
Definition refused (r : config_error + (config * store)) : option config_error := match r with inl e => Some e | inr _ => None end.
Definition effective (s : store) (col : option string) (name : string) : option pyval :=
  match get_config s layout None (Some "cat") col with inr c => Some (attr c name) | inl _ => None end.

(** The first row of a collection with items keeps the layout the catalog gave it. *)
Definition first_write : config_error + (config * store) :=
  set_config fresh layout (sent [("title", VStr "lake"); ("srid", VInt 3857)]) (Some "cat") (Some "forest") true 9 None.
Lemma frozen_field_kept_witness :
  exists before after,
    get_config fresh layout None (Some "cat") (Some "forest") = inr before /\
    get_config (stored_after first_write) layout None (Some "cat") (Some "forest") = inr after /\
    (attr after "srid" = attr before "srid" \/ py_eq (attr before "srid") (attr after "srid") = true).
Proof.
  destruct first_write as [e|[ret s']] eqn:Hw; [by vm_compute in Hw|].
  apply (frozen_field_kept fresh layout [("title", VStr "lake"); ("srid", VInt 3857)] (sent [("title", VStr "lake"); ("srid", VInt 3857)])
           "cat" (Some "forest") 9 None ret s' srid).
  - exact layout_ok.
  - exact populated_ids.
  - exact present.
  - apply rows_readable_b_ok. by vm_compute.
  - reflexivity.
  - exact Hw.
  - exact srid_in.
  - reflexivity.
  - by vm_compute.
  - exact I.
Defined.

(** The platform changes its layout after the catalog froze its defaults. *)
Definition frozen_defaults : config_error + store := snapshot_catalog_defaults plain [layout] "cat" 5.
Definition platform_write (s : store) : config_error + (config * store) :=
  set_config s layout (sent [("title", VStr "new"); ("srid", VInt 2154)]) None None false 6 None.
Lemma snapshot_shields_catalog_witness :
  exists s1 ret s2 c, frozen_defaults = inr s1 /\ platform_write s1 = inr (ret, s2) /\
    get_config s2 layout None (Some "cat") (Some "forest") = inr c /\ attr c "title" = VStr "platform" /\ attr c "srid" = VInt 4326.
Proof.
  destruct frozen_defaults as [e|s1] eqn:Hs; [by vm_compute in Hs|].
  destruct (platform_write s1) as [e|[ret s2]] eqn:Hw; [vm_compute in Hs; simplify_eq; by vm_compute in Hw|].
  destruct (platform_get_config plain layout) as [e|base] eqn:Hp; [by vm_compute in Hp|].
  destruct (snapshot_shields_catalog plain [layout] "cat" 5 s1 s2 layout base (Some "forest")) as (c & Hc & Hv).
  - exact layout_ok.
  - set_solver.
  - by vm_compute.
  - intros c Hc _. set_solver.
  - done.
  - done.
  - apply rows_readable_b_ok. by vm_compute.
  - exact Hp.
  - exact Hs.
  - eapply (el_platform _ _ _ _ _ layout [("title", VStr "new"); ("srid", VInt 2154)]); [apply el_now|exact layout_ok|done|reflexivity|exact Hw].
  - exists s1, ret, s2, c. split_and!; [done..| |].
    + pose proof (Hv title title_in) as H. vm_compute in Hp. simplify_eq. vm_compute in H. injection H as H. symmetry. exact H.
    + pose proof (Hv srid srid_in) as H. vm_compute in Hp. simplify_eq. vm_compute in H. injection H as H. symmetry. exact H.
Defined.

(** A reader takes a token, another writer replaces the row of another collection, and
    the reader's write lands on the row it saw. *)
Definition coast_write : config_error + (config * store) :=
  set_config populated layout (sent [("title", VStr "sea")]) (Some "cat") (Some "coast") true 8 None.
Lemma cas_overwrites_nothing_unseen_witness :
  exists c ret1 s2 ret s3,
    get_config_versioned populated populated layout (Some "cat") (Some "forest") = inr (c, Some 3) /\
    coast_write = inr (ret1, s2) /\
    set_config s2 layout (sent [("title", VStr "wood")]) (Some "cat") (Some "forest") true 9 (Some 3) = inr (ret, s3) /\
    (s3 = s2 \/ exists r, tier_row populated layout (Some "cat") (Some "forest") = Some r /\ tier_row s2 layout (Some "cat") (Some "forest") = Some r).
Proof.
  destruct (get_config_versioned populated populated layout (Some "cat") (Some "forest")) as [e|[c t]] eqn:Hv; [by vm_compute in Hv|].
  assert (Ht : t = Some 3) by (vm_compute in Hv; congruence). subst t.
  destruct coast_write as [e|[ret1 s2]] eqn:Ho; [by vm_compute in Ho|].
  destruct (set_config s2 layout (sent [("title", VStr "wood")]) (Some "cat") (Some "forest") true 9 (Some 3)) as [e|[ret s3]] eqn:Hs.
  - vm_compute in Ho. by simplify_eq.
  - exists c, ret1, s2, ret, s3. split_and!; [done..|].
    apply (cas_overwrites_nothing_unseen populated populated s2 s3 layout (Some "cat") (Some "forest") c
             (sent [("title", VStr "wood")]) 3 true 9 ret).
    + exact Hv.
    + eapply ws_set; [apply ws_now| |exact Ho]. done.
    + exact Hs.
Defined.

(** ** Limits *)

(** The check compares with the row of the tier alone: over a catalog that set the layout,
    a collection whose row leaves it may be given the class default, although its items
    were stored with the catalog's value; repeating that value is refused. *)
Lemma frozen_field_changed_by_default :
  let put v := set_config populated layout (sent [("srid", VInt v)]) (Some "cat") (Some "forest") true 9 None in
  effective populated (Some "forest") "srid" = Some (VInt 3857) /\
  effective (stored_after (put 4326)) (Some "forest") "srid" = Some (VInt 4326) /\
  refused (put 3857) = Some (ImmutableConfigError "srid").
Proof. by vm_compute. Qed.

(** Deleting a row is not checked. *)
Lemma frozen_field_changed_by_deletion :
  effective populated (Some "forest") "srid" = Some (VInt 3857) /\
  match delete_config populated layout (Some "cat") None with
  | inr (found, s) => found = true /\ effective s (Some "forest") "srid" = Some (VInt 4326)
  | inl _ => False
  end.
Proof. by vm_compute. Qed.

(** The first row of the platform is not compared with the class defaults. *)
Definition empty_platform : store := set_platform ∅ plain.
Lemma frozen_field_changed_by_platform :
  let put := set_config empty_platform layout (sent [("srid", VInt 2154)]) None None true 9 None in
  is_materialized empty_platform layout None None = true /\
  effective empty_platform (Some "forest") "srid" = Some (VInt 4326) /\
  effective (stored_after put) (Some "forest") "srid" = Some (VInt 2154).
Proof. by vm_compute. Qed.

(** The row is serialised before the machine-assigned fields are restored: a table name a
    caller sends is stored, and one the provisioner stored is lost to any later write. *)
Definition table_of (s : store) : option pyval := effective s (Some "forest") "physical_table".
Definition provisioned : store :=
  stored_after (set_config populated layout (sent [("physical_table", VStr "t_1")]) (Some "cat") (Some "forest") false 4 None).
Definition operator_write (body : pydict) : config_error + (config * store) :=
  set_config provisioned layout (sent body) (Some "cat") (Some "forest") true 9 None.
Lemma machine_assigned_field_overwritten :
  table_of provisioned = Some (VStr "t_1") /\
  table_of (stored_after (operator_write [("physical_table", VStr "other_tenant")])) = Some (VStr "other_tenant") /\
  table_of (stored_after (operator_write [("title", VStr "lake")])) = Some VNone.
Proof. by vm_compute. Qed.
(** The object returned by the same write has the provisioner's value. *)
Lemma returned_object_differs :
  match operator_write [("title", VStr "lake")] with inr (c, _) => attr c "physical_table" = VStr "t_1" | inl _ => False end.
Proof. by vm_compute. Qed.

(** Below the platform the configuration is read before the token: a write in between is
    not seen and is overwritten all the same. *)
Lemma versioned_read_misses_write :
  let between := stored_after (set_config populated layout (sent [("title", VStr "marsh")]) (Some "cat") (Some "forest") true 8 None) in
  match get_config_versioned populated between layout (Some "cat") (Some "forest") with
  | inr (c, Some tok) =>
      attr c "title" = VStr "forest" /\
      effective between (Some "forest") "title" = Some (VStr "marsh") /\
      refused (set_config between layout (sent [("title", attr c "title"); ("engine_ref", VStr "pg")]) (Some "cat") (Some "forest") true 9 (Some tok)) = None
  | _ => False
  end.
Proof. by vm_compute. Qed.

(** Asked for a collection under both its ids, the batch gives the stored row to one. *)
Lemma batch_aliases_lose_row :
  match get_configs_batch populated layout "cat" ["forest"; "col_1"] with
  | inr res => (fun c => attr c "title") <$> dict_get "forest" res = Some (VStr "platform") /\ (fun c => attr c "title") <$> dict_get "col_1" res = Some (VStr "forest")
  | inl _ => False
  end.
Proof. by vm_compute. Qed.

(** A changed code default is a changed schema, so it is not shielded. *)
Definition layout_v2 : config_class :=
  mkClass "LayoutConfig" "layout_config" "sha256:2" true [typed "srid" Immutable (VInt 3035) is_int; title; engine_ref; physical_table]
    (Some FreezeCollection) false [].
Lemma code_default_not_shielded :
  match frozen_defaults with
  | inr s1 => effective s1 (Some "forest") "srid" = Some (VInt 4326) /\
              match get_config s1 layout_v2 None (Some "cat") (Some "forest") with inr c => attr c "srid" = VInt 3035 | inl _ => False end
  | inl _ => False
  end.
Proof. by vm_compute. Qed.

(** A final newline passes the identifier check. *)
Lemma identifier_with_newline : validate_sql_identifier (String "a" (String "010" "")) = Some (String "a" (String "010" "")).
Proof. by vm_compute. Qed.

(** A write that sets nothing is skipped, and leaves the row it was to replace. *)
Lemma empty_write_keeps_row :
  match set_config populated layout (sent []) (Some "cat") (Some "forest") true 9 None with
  | inr (_, s) => effective s (Some "forest") "title" = Some (VStr "forest")
  | inl _ => False
  end.
Proof. by vm_compute. Qed.
