(* ===== verification/IamStore.v ===== *)
(** * Identities, roles and grants

    [iam/postgres_iam_storage.py] with the statements of [iam/iam_queries.py]: the roles,
    the hierarchy of roles and the grants of a scope (the platform's schema ["iam"] or a
    catalog's), the principals and the identities linked to them.  [iam/iam_service.py]
    and [iam/oidc_role_sync.py]: what an authenticated identity resolves to, the
    reconciliation of its roles with those of its token, and its registration.

    A statement is a function on the tables; [now] is the transaction's NOW().  Rows that
    the code turns into a set are a set, so their order is not modelled; nor is the order
    the database's collation gives to the policies of a role.  The schema of a request is
    what [resolve_schema] returned for its catalog, ["iam"] when it has none; a claim that
    the token lacks is the empty string.  The caches in
    front of these reads are in [BindingCache]; the memo of role hierarchies, which has
    the same keys, is left out. *)

From S2P Require Import Prelude.

(** ** Tables *)

(** A row of [grants], without its id and who granted it when. *)
Record grant_rec : Type := mkGrant {
  g_subject_kind : string;
  g_subject_ref : string;
  g_object_kind : string;
  g_object_ref : string;
  g_effect : string;
  g_resource_kind : option string;
  g_resource_ref : option string;
  g_valid_from : Z;
  g_valid_until : option Z;
  g_conditions : option pyval;
  g_quota : option pyval;
  g_predicates : list pyval;      (** [attribute_predicates] *)
}.
Record role_rec : Type := mkRole { r_id : string; r_name : string; r_policies : list string }.
Record scope_tables : Type := mkScope { t_roles : list role_rec; t_edges : list (string * string); t_grants : list grant_rec }.
Record principal_rec : Type := mkPrincipal { p_id : string; p_identifier : string; p_display : string; p_active : bool; p_until : option Z }.
Record iam_db : Type := mkIamDb {
  scopes : gmap string scope_tables;
  principals : list principal_rec;
  identity_links : gmap (string * string) string;
}.
Inductive iam_error : Type := TableMissing | SelfLoop | CycleError | ForeignKeyViolation | RoleExists | PlatformSchemaRefused | UniqueViolation | NotFound.
#[export] Instance iam_error_eq_dec : EqDecision iam_error.
Proof. solve_decision. Defined.

Definition PLATFORM : string := "iam".
Definition SUBJECT_PRINCIPAL : string := "principal".
Definition SUBJECT_COLLECTION : string := "collection".
Definition OBJECT_ROLE : string := "role".
Definition EFFECT_ALLOW : string := "allow".

(** A catalog's schema that is not there reads as empty tables ([except
    TableNotFoundError]); the platform's is there. *)
Definition scope_of (db : iam_db) (schema : string) : scope_tables := default (mkScope [] [] []) (scopes db !! schema).
Definition set_scope (schema : string) (t : scope_tables) (db : iam_db) : iam_db :=
  mkIamDb (<[schema := t]> (scopes db)) (principals db) (identity_links db).
Definition set_grants (g : list grant_rec) (t : scope_tables) : scope_tables := mkScope (t_roles t) (t_edges t) g.
Definition set_edges (e : list (string * string)) (t : scope_tables) : scope_tables := mkScope (t_roles t) e (t_grants t).
Definition write_scope (schema : string) (f : scope_tables -> iam_error + scope_tables) (db : iam_db) : iam_error + iam_db :=
  match scopes db !! schema with
  | None => inl TableMissing
  | Some t => match f t with inl e => inl e | inr t => inr (set_scope schema t db) end
  end.

(** ** Grants *)

(** The columns of the unique index. *)
Definition grant_key (g : grant_rec) : list string :=
  [g_subject_kind g; g_subject_ref g; g_object_kind g; g_object_ref g; g_effect g; default "" (g_resource_kind g); default "" (g_resource_ref g)].
(** INSERT ... ON CONFLICT DO UPDATE *)
Fixpoint insert_grant (g : grant_rec) (rows : list grant_rec) : list grant_rec :=
  match rows with
  | [] => [g]
  | r :: rows =>
      if bool_decide (grant_key r = grant_key g) then
        mkGrant (g_subject_kind r) (g_subject_ref r) (g_object_kind r) (g_object_ref r) (g_effect r) (g_resource_kind r) (g_resource_ref r)
          (g_valid_from g) (g_valid_until g) (g_conditions g) (g_quota g) (g_predicates g) :: rows
      else r :: insert_grant g rows
  end.
Definition delete_grants_by_match (key : list string) (rows : list grant_rec) : list grant_rec :=
  List.filter (fun r => negb (bool_decide (grant_key r = key))) rows.
Definition grant (schema : string) (g : grant_rec) (db : iam_db) : iam_error + iam_db :=
  write_scope schema (fun t => inr (set_grants (insert_grant g (t_grants t)) t)) db.
Definition revoke_by_match (schema : string) (key : list string) (db : iam_db) : iam_error + iam_db :=
  write_scope schema (fun t => inr (set_grants (delete_grants_by_match key (t_grants t)) t)) db.

(** A grant of a role to a principal from now on, whole-scope or for one collection. *)
Definition role_grant (now : Z) (pid role : string) (collection : option string) : grant_rec :=
  mkGrant SUBJECT_PRINCIPAL pid OBJECT_ROLE role EFFECT_ALLOW 
    (match collection with Some c => if c ==s "" then None else Some SUBJECT_COLLECTION | None => None end) collection now None None None [].
Definition grant_platform_role (now : Z) (pid role : string) (db : iam_db) : iam_error + iam_db := grant PLATFORM (role_grant now pid role None) db.
Definition revoke_platform_role (pid role : string) (db : iam_db) : iam_error + iam_db :=
  revoke_by_match PLATFORM (grant_key (role_grant 0 pid role None)) db.
Definition grant_catalog_role (now : Z) (pid role schema : string) (collection : option string) (db : iam_db) : iam_error + iam_db :=
  if schema ==s PLATFORM then inl PlatformSchemaRefused else grant schema (role_grant now pid role collection) db.
Definition revoke_catalog_role (pid role schema : string) (collection : option string) (db : iam_db) : iam_error + iam_db :=
  if schema ==s PLATFORM then inl PlatformSchemaRefused else revoke_by_match schema (grant_key (role_grant 0 pid role collection)) db.

Definition time_active (now : Z) (g : grant_rec) : bool :=
  (g_valid_from g <=? now) && match g_valid_until g with None => true | Some u => now <? u end.
(** The WHERE clause of LIST_ROLE_NAMES_FOR_PRINCIPAL. *)
Definition is_role_grant (now : Z) (pid : string) (g : grant_rec) : bool :=
  (g_subject_kind g ==s SUBJECT_PRINCIPAL) && (g_subject_ref g ==s pid) && (g_object_kind g ==s OBJECT_ROLE) && (g_effect g ==s EFFECT_ALLOW) && time_active now g.
Definition list_role_names (db : iam_db) (now : Z) (schema pid : string) : list string :=
  map g_object_ref (List.filter (is_role_grant now pid) (t_grants (scope_of db schema))).
Definition list_platform_roles (db : iam_db) (now : Z) (pid : string) : list string := list_role_names db now PLATFORM pid.

(** The columns of the SELECT, in a dictionary. *)
Definition grant_columns (g : grant_rec) : list (string * pyval) :=
  let text o := match o with Some s => VStr s | None => VNone end in
  let value o := match o with Some v => v | None => VNone end in
  [("subject_kind", VStr (g_subject_kind g)); ("subject_ref", VStr (g_subject_ref g)); ("object_kind", VStr (g_object_kind g));
   ("object_ref", VStr (g_object_ref g)); ("effect", VStr (g_effect g)); ("valid_from", VInt (g_valid_from g));
   ("valid_until", match g_valid_until g with Some u => VInt u | None => VNone end); ("conditions", value (g_conditions g));
   ("quota", value (g_quota g)); ("resource_kind", text (g_resource_kind g)); ("resource_ref", text (g_resource_ref g))].
(** The grants the resolver hands to the policy engine. *)
Definition resolve_effective_grants (db : iam_db) (now : Z) (pid : string) (schema : option string) (collection : option string)
    : list (list (string * pyval)) :=
  let of_principal g := (g_subject_kind g ==s SUBJECT_PRINCIPAL) && (g_subject_ref g ==s pid) && time_active now g in
  let in_scope g := match collection, g_resource_kind g with
                    | None, _ | _, None => true
                    | Some col, Some k => (k ==s SUBJECT_COLLECTION) && match g_resource_ref g with Some r => r ==s col | None => false end
                    end in
  map grant_columns (List.filter of_principal (t_grants (scope_of db PLATFORM)) ++
  match schema with
  | Some s => if (s ==s "") || (s ==s PLATFORM) then [] else List.filter (fun g => of_principal g && in_scope g) (t_grants (scope_of db s))
  | None => []
  end).

(** [get_identity_roles]: the platform's and the catalog's. *)
Definition get_identity_roles (db : iam_db) (now : Z) (provider subject : string) (schema : option string) : gset string :=
  match identity_links db !! (provider, subject) with
  | None => ∅
  | Some pid =>
      list_to_set (list_role_names db now PLATFORM pid) ∪
      match schema with
      | Some s => if (s ==s "") || (s ==s PLATFORM) then ∅ else list_to_set (list_role_names db now s pid)
      | None => ∅
      end
  end.

(** ** Roles and their hierarchy *)

(** [children]: the rows a frontier of roles joins with. *)
Definition children (edges : list (string * string)) (frontier : gset string) : gset string :=
  list_to_set (map snd (List.filter (fun e => bool_decide (e.1 ∈ frontier)) edges)).
(** The recursive part of the query: rows already in the result are dropped (UNION). *)
Fixpoint descend (fuel : nat) (edges : list (string * string)) (found frontier : gset string) : gset string :=
  match fuel with
  | O => found
  | S n =>
      let next := children edges frontier ∖ found in
      if bool_decide (next = ∅) then found else descend n edges (found ∪ next) next
  end.
Definition full_role_hierarchy (edges : list (string * string)) (roles : gset string) : gset string :=
  let base := children edges roles in
  descend (length edges) edges base base.
Definition get_role_hierarchy (db : iam_db) (roles : gset string) (schema : string) : gset string :=
  if bool_decide (roles = ∅) then ∅ else roles ∪ full_role_hierarchy (t_edges (scope_of db schema)) roles.

Definition has_role (t : scope_tables) (id : string) : bool := existsb (fun r => r_id r ==s id) (t_roles t).
(** The INSERT with its foreign keys, CHECK and ON CONFLICT DO NOTHING. *)
Definition insert_role_hierarchy (parent child : string) (t : scope_tables) : iam_error + scope_tables :=
  if parent ==s child then inl SelfLoop
  else if negb (has_role t parent && has_role t child) then inl ForeignKeyViolation
  else if bool_decide ((parent, child) ∈ t_edges t) then inr t
  else inr (set_edges (t_edges t ++ [(parent, child)]) t).
(** [IamService.add_role_hierarchy], with the check for a cycle. *)
Definition add_role_hierarchy (schema parent child : string) (db : iam_db) : iam_error + iam_db :=
  if parent ==s child then inl SelfLoop
  else if bool_decide (parent ∈ get_role_hierarchy db {[child]} schema) then inl CycleError
  else write_scope schema (insert_role_hierarchy parent child) db.
Definition remove_role_hierarchy (schema parent child : string) (db : iam_db) : iam_error + iam_db :=
  write_scope schema (fun t => inr (set_edges (List.filter (fun e => negb ((e.1 ==s parent) && (e.2 ==s child))) (t_edges t)) t)) db.

Fixpoint insert_role (r : role_rec) (rows : list role_rec) : list role_rec :=
  match rows with
  | [] => [r]
  | x :: rows =>
      if r_id x ==s r_id r then mkRole (r_id x) (r_name r) (dict_fromkeys (r_policies x ++ r_policies r)) :: rows
      else x :: insert_role r rows
  end.
Definition named (name : string) (r : role_rec) : bool := (r_id r ==s name) || (r_name r ==s name).
Definition set_roles (rs : list role_rec) (t : scope_tables) : scope_tables := mkScope rs (t_edges t) (t_grants t).
Definition create_role (schema : string) (r : role_rec) (db : iam_db) : iam_error + iam_db :=
  write_scope schema (fun t => if existsb (named (r_name r)) (t_roles t) then inl RoleExists else inr (set_roles (insert_role r (t_roles t)) t)) db.
Definition update_role (schema : string) (r : role_rec) (db : iam_db) : iam_error + iam_db :=
  write_scope schema (fun t => inr (set_roles (map (fun x => if named (r_name r) x then mkRole (r_id x) (r_name x) (r_policies r) else x) (t_roles t)) t)) db.
Definition bind_policy_to_role (schema name policy : string) (db : iam_db) : iam_error + iam_db :=
  write_scope schema (fun t => inr (set_roles (map (fun x => if named name x then
    mkRole (r_id x) (r_name x) (List.filter (fun p => negb (p ==s policy)) (r_policies x) ++ [policy]) else x) (t_roles t)) t)) db.
Definition unbind_policy_from_role (schema name policy : string) (db : iam_db) : iam_error + iam_db :=
  write_scope schema (fun t => inr (set_roles (map (fun x => if named name x then
    mkRole (r_id x) (r_name x) (List.filter (fun p => negb (p ==s policy)) (r_policies x)) else x) (t_roles t)) t)) db.
(** DELETE, with the edges that ON DELETE CASCADE removes. *)
Definition delete_role (schema name : string) (db : iam_db) : iam_error + iam_db :=
  write_scope schema (fun t =>
    let gone := map r_id (List.filter (named name) (t_roles t)) in
    inr (mkScope (List.filter (fun r => negb (named name r)) (t_roles t))
           (List.filter (fun e => negb (str_mem e.1 gone || str_mem e.2 gone)) (t_edges t)) (t_grants t))) db.

(** ** Principals *)

(** The identifier a principal is stored under; [Principal] takes its display name for a
    subject it lacks. *)
Definition identifier_of (provider subject display : string) : string :=
  let subject := if subject ==s "" then display else subject in
  if (provider ==s "") || (subject ==s "") then display else (provider ++ ":" ++ subject)%string.
(** INSERT ... ON CONFLICT (identifier) DO UPDATE; the id of the row. *)
Fixpoint insert_principal (p : principal_rec) (rows : list principal_rec) : string * list principal_rec :=
  match rows with
  | [] => (p_id p, [p])
  | r :: rows =>
      if p_identifier r ==s p_identifier p then (p_id r, mkPrincipal (p_id r) (p_identifier r) (p_display p) (p_active p) (p_until p) :: rows)
      else let '(id, rows) := insert_principal p rows in (id, r :: rows)
  end.
Definition set_principals (rows : list principal_rec) (db : iam_db) : iam_db := mkIamDb (scopes db) rows (identity_links db).
Definition create_principal (p : principal_rec) (db : iam_db) : string * iam_db :=
  let '(id, rows) := insert_principal p (principals db) in (id, set_principals rows db).
(** The UPDATE writes the display name as the identifier, and no expiry: the model of a
    principal has no identifier of its own. *)
Definition update_principal (id display : string) (active : bool) (db : iam_db) : iam_error + iam_db :=
  if negb (existsb (fun r => p_id r ==s id) (principals db)) then inl NotFound
  else if existsb (fun r => negb (p_id r ==s id) && (p_identifier r ==s display)) (principals db) then inl UniqueViolation
  else inr (set_principals (map (fun r => if p_id r ==s id then mkPrincipal id display display active (p_until r) else r) (principals db)) db).
Definition set_links (l : gmap (string * string) string) (db : iam_db) : iam_db := mkIamDb (scopes db) (principals db) l.
(** DELETE, with the links that ON DELETE CASCADE removes. *)
Definition delete_principal (id : string) (db : iam_db) : iam_db :=
  set_links (filter (fun kv => kv.2 <> id) (identity_links db)) (set_principals (List.filter (fun r => negb (p_id r ==s id)) (principals db)) db).
Definition create_identity_link (provider subject pid : string) (db : iam_db) : iam_db := set_links (<[(provider, subject) := pid]> (identity_links db)) db.
Definition delete_identity_link (provider subject : string) (db : iam_db) : iam_db := set_links (delete (provider, subject) (identity_links db)) db.

(** ** Identities *)

Record identity : Type := mkIdentity {
  id_provider : string;
  id_sub : string;
  id_email : option string;
  id_roles : list string;         (** the normalised roles of the token *)
  id_realm_roles : list string;
  id_issuer : option string;
}.
Record OidcRoleSyncConfig : Type := mkSync {
  reconcile_enabled : bool;
  role_mapping : list (string * string);
  issuer_whitelist : option (list string);
}.
Record IamRolesConfig : Type := mkRolesCfg { role_names : list string; default_user_role_name : string }.
(** What the service reads: the stored configurations, and the roles it was started with. *)
Record service_config : Type := mkService { roles_config : IamRolesConfig; sync_config : OidcRoleSyncConfig; started_with : IamRolesConfig }.

(** The principal of an identity, with the roles granted to it on the platform and in the
    catalog. *)
Record principal_view : Type := mkView { v_id : string; v_active : bool; v_until : option Z; v_roles : gset string }.
Definition get_principal_by_identity (db : iam_db) (provider subject : string) : option principal_rec :=
  match identity_links db !! (provider, subject) with
  | Some pid => List.find (fun p => p_id p ==s pid) (principals db)
  | None => None
  end.
Definition get_effective_permissions (db : iam_db) (now : Z) (i : identity) (schema : string) : option principal_view :=
  if (id_provider i ==s "") || (id_sub i ==s "") then None
  else match get_principal_by_identity db (id_provider i) (id_sub i) with
       | None => None
       | Some p => Some (mkView (p_id p) (p_active p) (p_until p)
                     (get_identity_roles db now (id_provider i) (id_sub i) (if schema ==s PLATFORM then None else Some schema)))
       end.

(** ** Roles of the token *)

Inductive role_action : Type := GrantRole (role : string) | RevokeRole (role : string).
Definition mapped_internal (mapping : list (string * string)) : gset string := list_to_set (map snd mapping).
Definition desired_roles (mapping : list (string * string)) (oidc_roles : list string) : gset string :=
  list_to_set (omap (fun r => dict_get r mapping) oidc_roles).
(** [diff]; the order of the actions, which is sorted, is that of the set. *)
Definition diff (oidc_roles : list string) (current : gset string) (mapping : list (string * string)) : list role_action :=
  let desired := desired_roles mapping oidc_roles in
  let current := current ∩ mapped_internal mapping in
  map GrantRole (elements (desired ∖ current)) ++ map RevokeRole (elements (current ∖ desired)).
Definition is_issuer_allowed (issuer : option string) (whitelist : option (list string)) : bool :=
  match whitelist with
  | None | Some [] => true
  | Some l => match issuer with Some i => str_mem i l | None => false end
  end.
Definition initial_role_overlay (oidc_roles base_roles : list string) (cfg : OidcRoleSyncConfig) (issuer : option string) : list string :=
  if reconcile_enabled cfg && is_issuer_allowed issuer (issuer_whitelist cfg) then
    List.filter (fun r => negb (bool_decide (r ∈ mapped_internal (role_mapping cfg)))) base_roles ++
    elements (desired_roles (role_mapping cfg) oidc_roles)
  else base_roles.

(** One action, and whether any was carried out; a failure is logged and the others go on. *)
Definition apply_action (now : Z) (pid : string) (st : bool * iam_db) (a : role_action) : bool * iam_db :=
  match match a with GrantRole r => grant_platform_role now pid r st.2 | RevokeRole r => revoke_platform_role pid r st.2 end with
  | inr db => (true, db)
  | inl _ => st
  end.
(** [_reconcile_oidc_roles]: whether anything changed; [gate] says whether the throttle of
    the principal lets it run. *)
Definition reconcile_oidc_roles (cfg : OidcRoleSyncConfig) (gate : bool) (db : iam_db) (now : Z) (pid : string) (i : identity) : bool * iam_db :=
  if negb (reconcile_enabled cfg) || bool_decide (role_mapping cfg = []) then (false, db)
  else if negb gate then (false, db)
  else if negb (is_issuer_allowed (id_issuer i) (issuer_whitelist cfg)) then (false, db)
  else
    let current := list_to_set (list_platform_roles db now pid) ∩ mapped_internal (role_mapping cfg) in
    fold_left (apply_action now pid) (diff (id_roles i) current (role_mapping cfg)) (false, db).

(** ** Registration *)

(** The first grant that fails ends it; those before it stay. *)
Fixpoint apply_role_grants (now : Z) (pid schema : string) (roles : list string) (db : iam_db) : option iam_error * iam_db :=
  match roles with
  | [] => (None, db)
  | r :: roles =>
      match if schema ==s PLATFORM then grant_platform_role now pid r db else grant_catalog_role now pid r schema None db with
      | inl e => (Some e, db)
      | inr db => apply_role_grants now pid schema roles db
      end
  end.
Definition assigned_roles (roles_cfg : IamRolesConfig) (cfg : OidcRoleSyncConfig) (db : iam_db) (i : identity) : list string :=
  let known := role_names roles_cfg ++ map r_name (t_roles (scope_of db PLATFORM)) in
  let realm := List.filter (fun r => str_mem r known) (id_realm_roles i) in
  initial_role_overlay (id_roles i) (match realm with [] => [default_user_role_name roles_cfg] | _ => realm end) cfg (id_issuer i).
Definition auto_register_principal (cfg : service_config) (fresh : string) (db : iam_db) (now : Z) (i : identity) (schema : string)
    : (iam_error + principal_view) * iam_db :=
  let roles := assigned_roles (roles_config cfg) (sync_config cfg) db i in
  let email := default (id_sub i ++ "@" ++ id_provider i)%string (id_email i) in
  let '(pid, db) := create_principal (mkPrincipal fresh (identifier_of (id_provider i) (id_sub i) email) email true None) db in
  let db := create_identity_link (id_provider i) (id_sub i) pid db in
  match apply_role_grants now pid schema roles db with
  | (Some e, db) => (inl e, db)
  | (None, db) => (inr (mkView pid true None (list_to_set roles)), db)
  end.

(** ** Authentication *)

Definition expired (now : Z) (v : principal_view) : bool := match v_until v with Some u => u <? now | None => false end.
Definition authenticate_and_get_principal (cfg : service_config) (gate auto_register : bool) (fresh : string)
    (db : iam_db) (now : Z) (i : identity) (schema : string) : (iam_error + option principal_view) * iam_db :=
  match get_effective_permissions db now i schema with
  | Some v =>
      if negb (v_active v) then (inr None, db)
      else if expired now v then (inr None, db)
      else
        let '(changed, db) := reconcile_oidc_roles (sync_config cfg) gate db now (v_id v) i in
        (inr (Some (if changed then default v (get_effective_permissions db now i schema) else v)), db)
  | None =>
      if auto_register then
        match auto_register_principal cfg fresh db now i schema with
        | (inl e, db) => (inl e, db)
        | (inr v, db) => (inr (Some v), db)
        end
      else (inr None, db)
  end.
Definition normalize_authenticated_roles (baseline : string) (roles : gset string) : gset string := {[baseline]} ∪ roles.
Definition expand_role_hierarchy_dual_scope (db : iam_db) (roles : gset string) (schema : string) : gset string :=
  get_role_hierarchy db roles PLATFORM ∪
  (if (schema ==s "") || (schema ==s PLATFORM) then ∅ else get_role_hierarchy db roles schema).
Definition resolve_effective_identity (cfg : service_config) (gate : bool) (fresh : string)
    (db : iam_db) (now : Z) (i : identity) (schema : string) : (iam_error + option (gset string * principal_view)) * iam_db :=
  match authenticate_and_get_principal cfg gate true fresh db now i schema with
  | (inl e, db) => (inl e, db)
  | (inr None, db) => (inr None, db)
  | (inr (Some v), db) =>
      let roles := normalize_authenticated_roles (default_user_role_name (started_with cfg)) (v_roles v) in
      (inr (Some (expand_role_hierarchy_dual_scope db roles schema, v)), db)
  end.
