(* ===== verification/IamStoreProofs.v ===== *)
(** * Identities, roles and grants: theorems, witnesses and limits

    The hierarchy of roles is the closure of its edges and stays acyclic; the roles of an
    authenticated identity are exactly those granted to it and what they include; the
    reconciliation with a token leaves exactly the mapped roles the token has; what is
    written in one catalog does not reach another. *)

From S2P Require Import Prelude IamStore.

(** ** The hierarchy *)

Definition includes (edges : list (string * string)) (a b : string) : Prop := (a, b) ∈ edges.

Lemma elem_of_children edges F x : x ∈ children edges F <-> exists a, a ∈ F /\ includes edges a x.
Proof.
  unfold children, includes. rewrite elem_of_list_to_set, list_elem_of_fmap. split.
  - intros ([a b] & -> & Hin). apply list_elem_of_In, filter_In in Hin as [Hin Ha]. apply bool_decide_eq_true in Ha.
    exists a. split; [done|]. by apply list_elem_of_In.
  - intros (a & Ha & Hin). exists (a, x). split; [done|]. apply list_elem_of_In, filter_In. split; [by apply list_elem_of_In|].
    by apply bool_decide_eq_true.
Qed.
(** Everything that is included in something. *)
Definition all_children (edges : list (string * string)) : gset string := list_to_set (map snd edges).
Lemma children_all edges F : children edges F ⊆ all_children edges.
Proof.
  intros x Hx. apply elem_of_children in Hx as (a & _ & Hin). apply elem_of_list_to_set. by apply (list_elem_of_fmap_2 snd) in Hin.
Qed.
Lemma size_all_children edges : (size (all_children edges) <= length edges)%nat.
Proof.
  unfold all_children. induction edges as [|e edges IH]; [done|]. simpl. rewrite size_union_alt, size_singleton.
  assert (Hs : (size ((list_to_set (map snd edges) : gset string) ∖ {[e.2]}) <= size (list_to_set (map snd edges) : gset string))%nat)
    by (apply subseteq_size; set_solver).
  lia.
Qed.

Lemma found_or_next (A B : gset string) x : x ∈ A -> x ∈ B \/ x ∈ A ∖ B.
Proof. intros H. destruct (decide (x ∈ B)); [by left|right]. by apply elem_of_difference. Qed.
(** The children of what was found are among it or come next. *)
Lemma children_split edges found frontier x :
  children edges (found ∖ frontier) ⊆ found -> x ∈ children edges found -> x ∈ found \/ x ∈ children edges frontier ∖ found.
Proof.
  intros Hc Hx. apply elem_of_children in Hx as (a & Ha & He). destruct (found_or_next found frontier a Ha) as [Hf|Hf].
  - apply found_or_next, elem_of_children. eauto.
  - left. apply Hc, elem_of_children. eauto.
Qed.

(** The loop of the recursive query ends with a set closed under the edges. *)
Lemma descend_closed edges n : forall found frontier,
  frontier ⊆ found -> children edges (found ∖ frontier) ⊆ found -> (size (all_children edges ∖ found) <= n)%nat ->
  found ⊆ descend n edges found frontier /\ children edges (descend n edges found frontier) ⊆ descend n edges found frontier.
Proof.
  induction n as [|n IH]; intros found frontier Hf Hc Hs; simpl.
  - split; [done|]. intros x Hx. apply children_all in Hx. destruct (found_or_next _ found x Hx) as [|Hn]; [done|].
    apply non_empty_inhabited_L in Hn. by apply Nat.le_0_r, size_empty_iff, leibniz_equiv in Hs.
  - case_bool_decide as Hn.
    + split; [done|]. intros x Hx. destruct (children_split _ _ _ _ Hc Hx) as [|Hx']; [done|]. rewrite Hn in Hx'. by apply not_elem_of_empty in Hx'.
    + assert (Hsub : children edges frontier ∖ found ⊆ all_children edges).
      { intros x Hx. apply elem_of_difference in Hx as [Hx _]. by apply children_all in Hx. }
      assert (Hdis : (found ∪ children edges frontier ∖ found) ∖ (children edges frontier ∖ found) ⊆ found) by (clear; set_solver).
      assert (Hnew : children edges frontier ∖ found ## found) by (clear; set_solver).
      set (next := children edges frontier ∖ found) in *. destruct (IH (found ∪ next) next) as [H1 H2].
      * apply union_subseteq_r.
      * intros x Hx. apply elem_of_union. apply children_split; [done|]. apply elem_of_children in Hx as (a & Ha & He).
        apply elem_of_children. eauto.
      * apply set_choose_L in Hn as [x Hx].
        assert (Hlt : (size (all_children edges ∖ (found ∪ next)) < size (all_children edges ∖ found))%nat); [|lia].
        apply subset_size. clear - Hx Hsub Hnew. set_solver.
      * split; [|done]. etransitivity; [apply union_subseteq_l|done].
Qed.
Lemma descend_sound edges n (P : string -> Prop) : forall found frontier,
  (forall x, x ∈ found -> P x) -> (forall x, x ∈ frontier -> P x) -> (forall a b, P a -> includes edges a b -> P b) ->
  forall x, x ∈ descend n edges found frontier -> P x.
Proof.
  induction n as [|n IH]; intros found frontier Hf Hr Hc x Hx; simpl in Hx; [auto|]. case_bool_decide; [auto|].
  assert (Hn : forall y, y ∈ children edges frontier ∖ found -> P y).
  { intros y Hy. apply elem_of_difference in Hy as [Hy _]. apply elem_of_children in Hy as (a & Ha & He). eauto. }
  eapply IH; [| |exact Hc|exact Hx]; [|exact Hn]. intros y Hy. apply elem_of_union in Hy as [Hy|Hy]; auto.
Qed.

(** The query returns exactly what the roles include, directly or through others, also
    when the edges have cycles. *)
Theorem full_role_hierarchy_exact edges roles x :
  x ∈ full_role_hierarchy edges roles <-> exists r, r ∈ roles /\ tc (includes edges) r x.
Proof.
  unfold full_role_hierarchy. split.
  - apply (descend_sound edges _ (fun x => exists r, r ∈ roles /\ tc (includes edges) r x)).
    + intros y Hy. apply elem_of_children in Hy as (a & Ha & He). exists a. split; [done|by apply tc_once].
    + intros y Hy. apply elem_of_children in Hy as (a & Ha & He). exists a. split; [done|by apply tc_once].
    + intros a b (r & Hr & Ht) He. exists r. split; [done|by eapply tc_r].
  - intros (r & Hr & Ht). destruct (descend_closed edges (length edges) (children edges roles) (children edges roles)) as [Hin Hcl].
    + done.
    + intros y Hy. apply elem_of_children in Hy as (a & Ha & _). by apply elem_of_difference in Ha as [Ha ?].
    + etransitivity; [|apply size_all_children]. apply subseteq_size. clear. set_solver.
    + induction Ht as [r x He|r y x He Ht IH].
      * apply Hin, elem_of_children. eauto.
      * assert (Hy : y ∈ descend (length edges) edges (children edges roles) (children edges roles)) by (apply Hin, elem_of_children; eauto).
        clear IH Hr He r. induction Ht as [y x He|y z x He Ht IH]; [apply Hcl, elem_of_children; eauto|].
        apply IH, Hcl, elem_of_children. eauto.
Qed.
Lemma role_hierarchy_exact db roles schema x :
  x ∈ get_role_hierarchy db roles schema <-> exists r, r ∈ roles /\ rtc (includes (t_edges (scope_of db schema))) r x.
Proof.
  unfold get_role_hierarchy. case_bool_decide as He; [subst; set_solver|]. rewrite elem_of_union, full_role_hierarchy_exact. split.
  - intros [Hx|(r & Hr & Ht)]; [exists x; split; [done|apply rtc_refl]|]. exists r. split; [done|by apply tc_rtc].
  - intros (r & Hr & Ht). apply rtc_tc in Ht as [<-|Ht]; eauto.
Qed.

(** ** No cycles *)

Definition acyclic (edges : list (string * string)) : Prop := forall x, ~ tc (includes edges) x x.
Lemma tc_sub edges edges' a b : (forall e, e ∈ edges' -> e ∈ edges) -> tc (includes edges') a b -> tc (includes edges) a b.
Proof.
  intros Hsub. induction 1 as [a b He|a b c He Ht IH]; [apply tc_once; exact (Hsub _ He)|]. eapply tc_l; [exact (Hsub _ He)|done].
Qed.
Lemma acyclic_sub edges edges' : (forall e, e ∈ edges' -> e ∈ edges) -> acyclic edges -> acyclic edges'.
Proof. intros Hsub Ha x Ht. apply (Ha x). by eapply tc_sub. Qed.
Lemma added_path edges p c a b :
  tc (includes (edges ++ [(p, c)])) a b -> tc (includes edges) a b \/ rtc (includes edges) a p /\ rtc (includes edges) c b.
Proof.
  assert (Hstep : forall x y, includes (edges ++ [(p, c)]) x y -> includes edges x y \/ x = p /\ y = c).
  { intros x y Hxy. unfold includes in *. apply elem_of_app in Hxy as [Hxy|Hxy]; [by left|]. right. apply list_elem_of_singleton in Hxy. by simplify_eq. }
  induction 1 as [a b He|a m b He Ht IH].
  - apply Hstep in He as [He|[-> ->]]; [left; by apply tc_once|right; split; apply rtc_refl].
  - apply Hstep in He as [He|[-> ->]].
    + destruct IH as [IH|[H1 H2]]; [left; by eapply tc_l|right; split; [by eapply rtc_l|done]].
    + destruct IH as [IH|[H1 H2]]; [right; split; [apply rtc_refl|by apply tc_rtc]|right; split; [apply rtc_refl|done]].
Qed.
Lemma added_acyclic edges p c : acyclic edges -> p <> c -> ~ rtc (includes edges) c p -> acyclic (edges ++ [(p, c)]).
Proof.
  intros Ha Hne Hr x Ht. apply added_path in Ht as [Ht|[H1 H2]]; [by apply (Ha x)|]. apply Hr. by etransitivity.
Qed.

(** The administration of roles and grants, in any scope. *)
Inductive admin_step : iam_db -> iam_db -> Prop :=
| ad_create schema r db db' : create_role schema r db = inr db' -> admin_step db db'
| ad_update schema r db db' : update_role schema r db = inr db' -> admin_step db db'
| ad_bind schema name policy db db' : bind_policy_to_role schema name policy db = inr db' -> admin_step db db'
| ad_unbind schema name policy db db' : unbind_policy_from_role schema name policy db = inr db' -> admin_step db db'
| ad_delete schema name db db' : delete_role schema name db = inr db' -> admin_step db db'
| ad_include schema parent child db db' : add_role_hierarchy schema parent child db = inr db' -> admin_step db db'
| ad_exclude schema parent child db db' : remove_role_hierarchy schema parent child db = inr db' -> admin_step db db'
| ad_grant schema g db db' : grant schema g db = inr db' -> admin_step db db'
| ad_revoke schema key db db' : revoke_by_match schema key db = inr db' -> admin_step db db'.

Lemma write_scope_inv schema f db db' : write_scope schema f db = inr db' ->
  exists t t', scopes db !! schema = Some t /\ f t = inr t' /\ db' = set_scope schema t' db.
Proof. unfold write_scope. destruct (scopes db !! schema) as [t|]; [|done]. destruct (f t) eqn:E; [done|]. intros [= <-]. eauto. Qed.
Lemma scope_of_set schema t db s : scope_of (set_scope schema t db) s = if s ==s schema then t else scope_of db s.
Proof.
  unfold scope_of, set_scope. simpl. destruct (String.eqb_spec s schema) as [->|Hne]; [by rewrite lookup_insert_eq|by rewrite lookup_insert_ne].
Qed.
(** A write whose new edges are acyclic when the old ones are. *)
Lemma write_keeps_acyclic schema f db db' :
  write_scope schema f db = inr db' ->
  (forall t t', scope_of db schema = t -> f t = inr t' -> acyclic (t_edges t) -> acyclic (t_edges t')) ->
  (forall s, acyclic (t_edges (scope_of db s))) -> forall s, acyclic (t_edges (scope_of db' s)).
Proof.
  intros Hw Hf Ha s. apply write_scope_inv in Hw as (t & t' & Ht & Hft & ->). rewrite scope_of_set.
  destruct (s ==s schema); [|done]. apply (Hf t); [unfold scope_of; by rewrite Ht|done|]. specialize (Ha schema).
  unfold scope_of in Ha. by rewrite Ht in Ha.
Qed.

(** Over any sequence of administrative calls no role comes to include itself. *)
Theorem hierarchy_stays_acyclic db db' :
  (forall s, acyclic (t_edges (scope_of db s))) -> rtc admin_step db db' -> forall s, acyclic (t_edges (scope_of db' s)).
Proof.
  intros Ha Hs. induction Hs as [|db db1 db' Hstep _ IH]; [done|]. apply IH. clear IH.
  destruct Hstep as [? ? ? ? H|? ? ? ? H|? ? ? ? ? H|? ? ? ? ? H|? ? ? ? H|schema p c db db1 H|? ? ? ? ? H|? ? ? ? H|? ? ? ? H];
    try (eapply write_keeps_acyclic; [exact H| |exact Ha]; intros t t' _ Ht Hac; simpl in Ht;
         try (case_match; [done|]); simplify_eq; simpl;
         first [done|eapply acyclic_sub; [|exact Hac]; intros e He; apply list_elem_of_In, filter_In in He as [He _]; by apply list_elem_of_In]).
  unfold add_role_hierarchy in H. destruct (String.eqb_spec p c) as [|Hne]; [done|]. case_bool_decide as Hc; [done|].
  eapply write_keeps_acyclic; [exact H| |exact Ha]. intros t t' Ht Hins Hac. unfold insert_role_hierarchy in Hins.
  repeat (case_match; simplify_eq); [done..|]. simpl. apply added_acyclic; [done|done|]. intros Hr. apply Hc.
  apply role_hierarchy_exact. exists c. split; [set_solver|done].
Qed.

(** ** Roles granted *)

(** A row in force grants the role to the principal. *)
Definition granted (now : Z) (rows : list grant_rec) (pid role : string) : Prop :=
  exists g, g ∈ rows /\ is_role_grant now pid g = true /\ g_object_ref g = role.
(** No role of the principal is restricted to a resource, as on the platform. *)
Definition unscoped (now : Z) (pid : string) (rows : list grant_rec) : Prop :=
  forall g, g ∈ rows -> is_role_grant now pid g = true -> default "" (g_resource_kind g) = "" /\ default "" (g_resource_ref g) = "".

Lemma listed_granted db now schema pid role : role ∈ list_role_names db now schema pid <-> granted now (t_grants (scope_of db schema)) pid role.
Proof.
  unfold list_role_names, granted. rewrite list_elem_of_fmap. split.
  - intros (g & -> & Hg). apply list_elem_of_In, filter_In in Hg as [Hin Hg]. exists g. split; [by apply list_elem_of_In|done].
  - intros (g & Hin & Hg & <-). exists g. split; [done|]. apply list_elem_of_In, filter_In. split; [by apply list_elem_of_In|done].
Qed.
Lemma is_role_grant_inv now pid g : is_role_grant now pid g = true ->
  g_subject_kind g = SUBJECT_PRINCIPAL /\ g_subject_ref g = pid /\ g_object_kind g = OBJECT_ROLE /\ g_effect g = EFFECT_ALLOW /\ time_active now g = true.
Proof. unfold is_role_grant. rewrite !andb_true_iff, !String.eqb_eq. naive_solver. Qed.
Lemma is_role_grant_intro now pid g :
  g_subject_kind g = SUBJECT_PRINCIPAL -> g_subject_ref g = pid -> g_object_kind g = OBJECT_ROLE -> g_effect g = EFFECT_ALLOW -> time_active now g = true ->
  is_role_grant now pid g = true.
Proof. unfold is_role_grant. rewrite !andb_true_iff, !String.eqb_eq. naive_solver. Qed.
(** A row with the key of a grant of a role to a principal. *)
Lemma key_of_role_grant now pid role g : grant_key g = grant_key (role_grant now pid role None) ->
  g_subject_kind g = SUBJECT_PRINCIPAL /\ g_subject_ref g = pid /\ g_object_kind g = OBJECT_ROLE /\ g_object_ref g = role /\
  g_effect g = EFFECT_ALLOW /\ default "" (g_resource_kind g) = "" /\ default "" (g_resource_ref g) = "".
Proof. unfold grant_key. simpl. intros [=]. naive_solver. Qed.
Lemma key_unscoped now pid g role : is_role_grant now pid g = true -> g_object_ref g = role ->
  default "" (g_resource_kind g) = "" -> default "" (g_resource_ref g) = "" -> grant_key g = grant_key (role_grant 0 pid role None).
Proof. intros (H1 & H2 & H3 & H4 & _)%is_role_grant_inv H5 H6 H7. unfold grant_key. simpl. by rewrite H1, H2, H3, H4, H5, H6, H7. Qed.

Lemma granted_cons now g rows pid role :
  granted now (g :: rows) pid role <-> (is_role_grant now pid g = true /\ g_object_ref g = role) \/ granted now rows pid role.
Proof.
  unfold granted. split.
  - intros (x & Hx & Hg). apply elem_of_cons in Hx as [->|Hx]; [by left|right; eauto].
  - intros [Hg|(x & Hx & Hg)]; [exists g|exists x]; (split; [|done]); apply elem_of_cons; auto.
Qed.
Lemma grant_is_active now pid role : is_role_grant now pid (role_grant now pid role None) = true.
Proof. apply is_role_grant_intro; [done..|]. unfold time_active. simpl. by rewrite Z.leb_refl. Qed.

(** Granting a role adds it for the principal, whatever row of it there was before. *)
Lemma insert_granted now pid role rows pid' role' :
  granted now (insert_grant (role_grant now pid role None) rows) pid' role' <-> granted now rows pid' role' \/ (pid' = pid /\ role' = role).
Proof.
  induction rows as [|x rows IH]; simpl.
  - rewrite granted_cons. split; [intros [[Hg Hr]|Hg]; [right|by left]|intros [Hg|[-> ->]]; [by right|left]].
    + apply is_role_grant_inv in Hg as (_ & Hp & _). simpl in *. by subst.
    + split; [apply grant_is_active|done].
  - case_bool_decide as Hk.
    + apply key_of_role_grant in Hk as (K1 & K2 & K3 & K4 & K5 & _ & _). rewrite !granted_cons.
      assert (Hnew : is_role_grant now pid (mkGrant (g_subject_kind x) (g_subject_ref x) (g_object_kind x) (g_object_ref x) (g_effect x)
                (g_resource_kind x) (g_resource_ref x) now None None None []) = true).
      { apply is_role_grant_intro; try done. unfold time_active. simpl. by rewrite Z.leb_refl. }
      split.
      * intros [[Hg Hr]|Hg]; [|by left; right]. apply is_role_grant_inv in Hg as (_ & Hp & _). simpl in *. right. by subst.
      * intros [[[Hg Hr]|Hg]|[-> ->]]; [|by right|by left].
        left. apply is_role_grant_inv in Hg as (_ & Hp & _). by subst.
    + rewrite !granted_cons, IH. tauto.
Qed.
Lemma insert_unscoped now pid role rows : unscoped now pid rows -> unscoped now pid (insert_grant (role_grant now pid role None) rows).
Proof.
  unfold unscoped. induction rows as [|x rows IH]; simpl; intros Hu g Hin Hg.
  - apply list_elem_of_singleton in Hin. by subst.
  - case_bool_decide as Hk; apply elem_of_cons in Hin as [->|Hin].
    + apply key_of_role_grant in Hk as (_ & _ & _ & _ & _ & K6 & K7). done.
    + apply Hu; [by apply elem_of_cons; right|done].
    + apply Hu; [by apply elem_of_cons; left|done].
    + apply IH; [|done|done]. intros y Hy. apply Hu. apply elem_of_cons. by right.
Qed.
Lemma delete_elem key rows g : g ∈ delete_grants_by_match key rows <-> g ∈ rows /\ grant_key g <> key.
Proof.
  unfold delete_grants_by_match. rewrite !list_elem_of_In, filter_In, negb_true_iff, bool_decide_eq_false. done.
Qed.
(** Revoking a role takes it from the principal, and nothing else. *)
Lemma delete_granted now pid role rows pid' role' : unscoped now pid rows ->
  granted now (delete_grants_by_match (grant_key (role_grant 0 pid role None)) rows) pid' role' <->
  granted now rows pid' role' /\ ~ (pid' = pid /\ role' = role).
Proof.
  intros Hu. unfold granted. split.
  - intros (g & Hin & Hg & Hr). apply delete_elem in Hin as [Hin Hk]. split; [eauto|]. intros [-> ->]. apply Hk.
    destruct (Hu g Hin Hg) as [U1 U2]. by eapply key_unscoped.
  - intros [(g & Hin & Hg & Hr) Hne]. exists g. split; [|done]. apply delete_elem. split; [done|]. intros Hk. apply Hne.
    apply key_of_role_grant in Hk as (_ & K2 & _ & K4 & _). apply is_role_grant_inv in Hg as (_ & Hp & _). by subst.
Qed.
Lemma delete_unscoped now pid key rows : unscoped now pid rows -> unscoped now pid (delete_grants_by_match key rows).
Proof. intros Hu g Hin. apply delete_elem in Hin as [Hin _]. by apply Hu. Qed.

(** ** Reconciliation *)

(** What an action does to the rows of the platform. *)
Definition act_rows (now : Z) (pid : string) (rows : list grant_rec) (a : role_action) : list grant_rec :=
  match a with
  | GrantRole r => insert_grant (role_grant now pid r None) rows
  | RevokeRole r => delete_grants_by_match (grant_key (role_grant 0 pid r None)) rows
  end.
Lemma apply_action_rows now pid b db t a : scopes db !! PLATFORM = Some t ->
  apply_action now pid (b, db) a = (true, set_scope PLATFORM (set_grants (act_rows now pid (t_grants t) a) t) db).
Proof.
  intros Ht. unfold apply_action, grant_platform_role, revoke_platform_role, grant, revoke_by_match, write_scope.
  destruct a; simpl; by rewrite Ht.
Qed.
Lemma set_scope_twice schema t t' db : set_scope schema t (set_scope schema t' db) = set_scope schema t db.
Proof. unfold set_scope. simpl. by rewrite insert_insert_eq. Qed.
Lemma apply_actions_rows now pid actions : forall b db t, scopes db !! PLATFORM = Some t ->
  fold_left (apply_action now pid) actions (b, db) =
  (match actions with [] => b | _ => true end,
   match actions with [] => db | _ => set_scope PLATFORM (set_grants (fold_left (act_rows now pid) actions (t_grants t)) t) db end).
Proof.
  induction actions as [|a actions IH]; intros b db t Ht; [done|]. cbn [fold_left]. rewrite (apply_action_rows _ _ _ _ t) by done.
  rewrite (IH _ _ (set_grants (act_rows now pid (t_grants t) a) t)); [|unfold set_scope; simpl; by rewrite lookup_insert_eq].
  destruct actions; [done|]. by rewrite set_scope_twice.
Qed.
(** The actions, all grants before all revocations, on the roles granted. *)
Lemma grants_then_revokes now pid (gs rs : list string) rows pid' role : unscoped now pid rows ->
  granted now (fold_left (act_rows now pid) (map GrantRole gs ++ map RevokeRole rs) rows) pid' role <->
  (granted now rows pid' role \/ (pid' = pid /\ role ∈ gs)) /\ ~ (pid' = pid /\ role ∈ rs).
Proof.
  revert rows. induction gs as [|g gs IH]; intros rows Hu; simpl.
  - revert rows Hu. induction rs as [|r rs IH]; intros rows Hu; simpl.
    + setoid_rewrite elem_of_nil. tauto.
    + rewrite IH by by apply delete_unscoped. rewrite delete_granted by done. setoid_rewrite elem_of_cons. setoid_rewrite elem_of_nil. tauto.
  - rewrite IH by by apply insert_unscoped. rewrite insert_granted. setoid_rewrite elem_of_cons. tauto.
Qed.

(** What a reconciliation that goes through leaves on the platform. *)
Lemma reconcile_platform cfg db now pid i t :
  reconcile_enabled cfg = true -> role_mapping cfg <> [] -> is_issuer_allowed (id_issuer i) (issuer_whitelist cfg) = true ->
  scopes db !! PLATFORM = Some t ->
  exists t', scopes (reconcile_oidc_roles cfg true db now pid i).2 = <[PLATFORM := t']> (scopes db) /\ t_edges t' = t_edges t /\ t_roles t' = t_roles t /\
    t_grants t' = fold_left (act_rows now pid) (diff (id_roles i) (list_to_set (list_platform_roles db now pid) ∩ mapped_internal (role_mapping cfg)) (role_mapping cfg)) (t_grants t).
Proof.
  intros He Hm Hi Ht. unfold reconcile_oidc_roles. rewrite He, Hi, bool_decide_false by done. simpl.
  rewrite (apply_actions_rows _ _ _ _ _ t) by done. destruct (diff _ _ _) as [|a actions]; simpl.
  - exists t. by rewrite insert_id.
  - eexists. split; [reflexivity|done].
Qed.
Lemma apply_action_frame now pid st a : principals (apply_action now pid st a).2 = principals st.2 /\ identity_links (apply_action now pid st a).2 = identity_links st.2.
Proof.
  unfold apply_action. destruct a; simpl; unfold grant_platform_role, revoke_platform_role, grant, revoke_by_match, write_scope;
    by destruct (scopes st.2 !! PLATFORM).
Qed.
Lemma apply_actions_frame now pid actions : forall st,
  principals (fold_left (apply_action now pid) actions st).2 = principals st.2 /\ identity_links (fold_left (apply_action now pid) actions st).2 = identity_links st.2.
Proof.
  induction actions as [|a actions IH]; intros st; [done|]. simpl. destruct (IH (apply_action now pid st a)) as [-> ->]. apply apply_action_frame.
Qed.
Lemma reconcile_frame cfg gate db now pid i :
  principals (reconcile_oidc_roles cfg gate db now pid i).2 = principals db /\ identity_links (reconcile_oidc_roles cfg gate db now pid i).2 = identity_links db.
Proof. unfold reconcile_oidc_roles. repeat (case_match; [done|]). apply apply_actions_frame. Qed.
(** Nothing is written when it reports no change. *)
Lemma apply_actions_unchanged now pid actions : forall st, (fold_left (apply_action now pid) actions st).1 = false -> fold_left (apply_action now pid) actions st = st.
Proof.
  induction actions as [|a actions IH]; intros st H; [done|]. simpl in *. rewrite (IH _ H). apply IH in H as Heq. rewrite Heq in H.
  unfold apply_action in *. destruct a; by case_match.
Qed.
Lemma reconcile_unchanged cfg gate db now pid i :
  (reconcile_oidc_roles cfg gate db now pid i).1 = false -> (reconcile_oidc_roles cfg gate db now pid i).2 = db.
Proof. unfold reconcile_oidc_roles. repeat (case_match; [done|]). intros Hf. by rewrite apply_actions_unchanged. Qed.

Lemma desired_mapped mapping roles : desired_roles mapping roles ⊆ mapped_internal mapping.
Proof.
  intros r Hr. unfold desired_roles in Hr. apply elem_of_list_to_set, list_elem_of_omap in Hr as (o & _ & Ho). apply elem_of_list_to_set.
  induction mapping as [|[k v] mapping IH]; [done|]. simpl in *. destruct (_ ==s _); [simplify_eq; by left|right; auto].
Qed.

(** C36: After a reconciliation that the throttle and the issuer let through, the platform
    roles of the principal are, among the roles of the mapping, exactly those its token
    maps to, and outside the mapping exactly those it had; the roles of every other
    principal, the catalogs, the hierarchy, the principals and the links are as before. *)
Theorem oidc_sync_exact cfg db now pid i t :
  reconcile_enabled cfg = true -> role_mapping cfg <> [] -> is_issuer_allowed (id_issuer i) (issuer_whitelist cfg) = true ->
  scopes db !! PLATFORM = Some t -> unscoped now pid (t_grants t) ->
  let db' := (reconcile_oidc_roles cfg true db now pid i).2 in
  (forall role, role ∈ list_platform_roles db' now pid <->
     if bool_decide (role ∈ mapped_internal (role_mapping cfg)) then role ∈ desired_roles (role_mapping cfg) (id_roles i)
     else role ∈ list_platform_roles db now pid) /\
  (forall other role, other <> pid -> role ∈ list_platform_roles db' now other <-> role ∈ list_platform_roles db now other) /\
  (forall schema, schema <> PLATFORM -> scopes db' !! schema = scopes db !! schema) /\
  t_edges (scope_of db' PLATFORM) = t_edges (scope_of db PLATFORM) /\
  principals db' = principals db /\ identity_links db' = identity_links db.
Proof.
  intros He Hm Hi Ht Hu db'. destruct (reconcile_platform cfg db now pid i t) as (t' & Hs & Hedge & _ & Hg); [done..|]. fold db' in Hs.
  destruct (reconcile_frame cfg true db now pid i) as [Hp Hl].
  assert (Hdb : scope_of db PLATFORM = t) by (unfold scope_of; by rewrite Ht).
  assert (Hdb' : scope_of db' PLATFORM = t') by (unfold scope_of; by rewrite Hs, lookup_insert_eq).
  assert (Hroles : forall pid' role, role ∈ list_platform_roles db' now pid' <->
    (role ∈ list_platform_roles db now pid' \/ (pid' = pid /\ role ∈ desired_roles (role_mapping cfg) (id_roles i))) /\
    ~ (pid' = pid /\ role ∈ mapped_internal (role_mapping cfg) /\ role ∉ desired_roles (role_mapping cfg) (id_roles i))).
  { intros pid' role. unfold list_platform_roles. rewrite !listed_granted, Hdb, Hdb', Hg. unfold diff. rewrite grants_then_revokes by done.
    rewrite !elem_of_elements, !elem_of_difference, !elem_of_intersection, elem_of_list_to_set.
    unfold list_platform_roles. rewrite listed_granted, Hdb.
    destruct (decide (role ∈ desired_roles (role_mapping cfg) (id_roles i))) as [Hd|Hd]; [|destruct (decide (pid' = pid)) as [->|]; tauto].
    pose proof (desired_mapped _ _ _ Hd). destruct (decide (pid' = pid)) as [->|]; [|tauto].
    assert (Hdec : granted now (t_grants t) pid role \/ ~ granted now (t_grants t) pid role);
      [destruct (decide (role ∈ list_role_names db now PLATFORM pid)) as [Hin|Hin]; rewrite listed_granted, Hdb in Hin; tauto|tauto]. }
  split; [|split; [|split; [|split; [by rewrite Hdb, Hdb'|done]]]].
  - intros role. rewrite Hroles. pose proof (desired_mapped (role_mapping cfg) (id_roles i) role) as Hsub.
    case_bool_decide as Hd; [|tauto]. destruct (decide (role ∈ desired_roles (role_mapping cfg) (id_roles i))); tauto.
  - intros other role Hne. rewrite Hroles. tauto.
  - intros schema Hne. rewrite Hs. by rewrite lookup_insert_ne.
Qed.

(** A principal with a mapped role its token lost, one its token has, and an unmapped one. *)
Definition base_roles_rows : list role_rec := [mkRole "sysadmin" "sysadmin" []; mkRole "editor" "editor" []; mkRole "viewer" "viewer" []].
Definition sample_db : iam_db :=
  mkIamDb {[PLATFORM := mkScope base_roles_rows [("sysadmin", "editor"); ("editor", "viewer")]
              [role_grant 1 "p1" "sysadmin" None; role_grant 1 "p1" "curator" None; role_grant 1 "p2" "sysadmin" None];
            "s_cat" := mkScope base_roles_rows [("curator", "reader")] [role_grant 1 "p1" "owner" None]]}
    [mkPrincipal "p1" "oidc:alice" "alice@x" true None; mkPrincipal "p2" "oidc:bob" "bob@x" true (Some 5)]
    {[("oidc", "alice") := "p1"; ("oidc", "bob") := "p2"]}.
Definition sample_sync : OidcRoleSyncConfig := mkSync true [("geoid.sysadmin", "sysadmin"); ("geoid.editor", "editor")] (Some ["https://kc"]).
Definition alice : identity := mkIdentity "oidc" "alice" None ["geoid.editor"] [] (Some "https://kc").

(** Decides a membership, or its negation, in a concrete set or list. *)
Ltac by_member := first [refine (bool_decide_eq_true_1 _ _); vm_compute; reflexivity | refine (bool_decide_eq_false_1 _ _); vm_compute; reflexivity].

Lemma oidc_sync_exact_witness :
  let db' := (reconcile_oidc_roles sample_sync true sample_db 9 "p1" alice).2 in
  ~ "sysadmin" ∈ list_platform_roles db' 9 "p1" /\ "editor" ∈ list_platform_roles db' 9 "p1" /\ "curator" ∈ list_platform_roles db' 9 "p1" /\
  "sysadmin" ∈ list_platform_roles db' 9 "p2".
Proof.
  destruct (oidc_sync_exact sample_sync sample_db 9 "p1" alice (scope_of sample_db PLATFORM)) as (H1 & H2 & _); [reflexivity|done|reflexivity|reflexivity| |].
  - intros g Hg _. apply list_elem_of_In in Hg. vm_compute in Hg. by destruct Hg as [<-|[<-|[<-|[]]]].
  - cbv zeta in H1, H2. cbv zeta. split; [|split; [|split]].
    + rewrite H1, bool_decide_true by by_member. by_member.
    + apply H1. rewrite bool_decide_true by by_member. by_member.
    + apply H1. rewrite bool_decide_false by by_member. by_member.
    + apply H2; [done|]. by_member.
Defined.
