(* ===== verification/IamIdentity.v ===== *)
(** * Identities: what an authenticated identity resolves to

    The roles of an identity are exactly those in force for its principal, the baseline
    and what they include; a principal that is inactive or expired resolves to nothing;
    what is in another catalog plays no part.  Then the cases at the edges. *)

From S2P Require Import Prelude Policies IamStore IamStoreProofs.

(** A catalog's schema, as opposed to the platform's. *)
Definition tenant (schema : string) : Prop := schema <> "" /\ schema <> PLATFORM.
Lemma tenant_dec schema : (schema ==s "") || (schema ==s PLATFORM) = false <-> tenant schema.
Proof. rewrite orb_false_iff, !String.eqb_neq. done. Qed.

(** ** Resolution *)

(** The roles in force for a principal on the platform or in the catalog. *)
Definition in_force (db : iam_db) (now : Z) (pid schema role : string) : Prop :=
  granted now (t_grants (scope_of db PLATFORM)) pid role \/ (tenant schema /\ granted now (t_grants (scope_of db schema)) pid role).

Lemma identity_roles_exact db now i schema pid role : identity_links db !! (id_provider i, id_sub i) = Some pid ->
  role ∈ get_identity_roles db now (id_provider i) (id_sub i) (if schema ==s PLATFORM then None else Some schema) <-> in_force db now pid schema role.
Proof.
  intros Hl. unfold get_identity_roles, in_force. rewrite Hl, elem_of_union, elem_of_list_to_set, listed_granted.
  destruct (String.eqb_spec schema PLATFORM) as [->|Hne].
  - unfold tenant. rewrite elem_of_empty. tauto.
  - destruct (_ || _) eqn:Ht.
    + assert (~ tenant schema) by (intros Hn; apply tenant_dec in Hn; congruence). rewrite elem_of_empty. tauto.
    + apply tenant_dec in Ht. rewrite elem_of_list_to_set, listed_granted. tauto.
Qed.
Lemma dual_scope_exact db roles schema role :
  role ∈ expand_role_hierarchy_dual_scope db roles schema <->
  exists held, held ∈ roles /\
    (rtc (includes (t_edges (scope_of db PLATFORM))) held role \/ (tenant schema /\ rtc (includes (t_edges (scope_of db schema))) held role)).
Proof.
  unfold expand_role_hierarchy_dual_scope. rewrite elem_of_union, role_hierarchy_exact. destruct (_ || _) eqn:Ht.
  - assert (~ tenant schema) by (intros Hn; apply tenant_dec in Hn; congruence). rewrite elem_of_empty. naive_solver.
  - apply tenant_dec in Ht. rewrite role_hierarchy_exact. naive_solver.
Qed.
Lemma linked_pid db i p : get_principal_by_identity db (id_provider i) (id_sub i) = Some p -> identity_links db !! (id_provider i, id_sub i) = Some (p_id p).
Proof.
  unfold get_principal_by_identity. destruct (identity_links db !! _) as [pid|]; [|done]. intros [_ Hp]%find_some. by apply String.eqb_eq in Hp as ->.
Qed.
Lemma effective_permissions_linked db now i schema p : id_provider i <> "" -> id_sub i <> "" -> get_principal_by_identity db (id_provider i) (id_sub i) = Some p ->
  exists roles, get_effective_permissions db now i schema = Some (mkView (p_id p) (p_active p) (p_until p) roles) /\
    forall role, role ∈ roles <-> in_force db now (p_id p) schema role.
Proof.
  intros Hp Hs Hl. unfold get_effective_permissions. apply String.eqb_neq in Hp as ->, Hs as ->. simpl. rewrite Hl. eexists. split; [reflexivity|].
  intros role. apply identity_roles_exact. by apply linked_pid.
Qed.
Definition unexpired (now : Z) (p : principal_rec) : Prop := match p_until p with Some u => now <= u | None => True end.

(** An active principal is the one its identity resolves to, with the roles in force once
    its token has been reconciled. *)
Lemma authenticated_roles cfg gate auto fresh db now i schema p :
  id_provider i <> "" -> id_sub i <> "" -> get_principal_by_identity db (id_provider i) (id_sub i) = Some p -> p_active p = true -> unexpired now p ->
  let db' := (reconcile_oidc_roles (sync_config cfg) gate db now (p_id p) i).2 in
  exists v, authenticate_and_get_principal cfg gate auto fresh db now i schema = (inr (Some v), db') /\ v_id v = p_id p /\
    forall role, role ∈ v_roles v <-> in_force db' now (p_id p) schema role.
Proof.
  intros Hp Hs Hl Ha Hu db'. unfold authenticate_and_get_principal.
  destruct (effective_permissions_linked db now i schema p) as (roles & -> & Hr); [done..|]. cbn [v_active v_until v_id]. rewrite Ha. simpl.
  assert (Hex : expired now (mkView (p_id p) true (p_until p) roles) = false).
  { unfold expired, unexpired in *. simpl. destruct (p_until p); [|done]. by apply Z.ltb_ge. }
  rewrite Hex. destruct (reconcile_frame (sync_config cfg) gate db now (p_id p) i) as [Hpr Hli].
  assert (Hl' : get_principal_by_identity db' (id_provider i) (id_sub i) = Some p) by (unfold get_principal_by_identity; unfold db'; by rewrite Hpr, Hli).
  destruct (effective_permissions_linked db' now i schema p) as (roles' & He & Hr'); [done..|].
  pose proof (reconcile_unchanged (sync_config cfg) gate db now (p_id p) i) as Hun. fold db' in Hun. unfold db' in *.
  destruct (reconcile_oidc_roles _ _ _ _ _ _) as [[] db1]; simpl in *.
  - rewrite He. simpl. eexists. split; [reflexivity|]. split; [done|exact Hr'].
  - rewrite Hun in * by done. eexists. split; [reflexivity|]. split; [done|exact Hr].
Qed.

(** C35: An identity linked to an active principal that has not expired resolves, in a
    catalog or on the platform, to that principal and to exactly the roles that the
    baseline and the grants in force for it, on the platform and in that catalog, include
    through the hierarchy of either; the grants are those left by the reconciliation with
    its token, and nothing else is written. *)
Theorem effective_roles_exact cfg gate fresh db now i schema p :
  id_provider i <> "" -> id_sub i <> "" -> get_principal_by_identity db (id_provider i) (id_sub i) = Some p -> p_active p = true -> unexpired now p ->
  let db' := (reconcile_oidc_roles (sync_config cfg) gate db now (p_id p) i).2 in
  exists roles v, resolve_effective_identity cfg gate fresh db now i schema = (inr (Some (roles, v)), db') /\ v_id v = p_id p /\
    forall role, role ∈ roles <-> exists held,
      (held = default_user_role_name (started_with cfg) \/ in_force db' now (p_id p) schema held) /\
      (rtc (includes (t_edges (scope_of db' PLATFORM))) held role \/ (tenant schema /\ rtc (includes (t_edges (scope_of db' schema))) held role)).
Proof.
  intros Hp Hs Hl Ha Hu db'. unfold resolve_effective_identity.
  destruct (authenticated_roles cfg gate true fresh db now i schema p) as (v & -> & Hv & Hr); [done..|]. fold db' in Hr |- *.
  eexists _, v. split; [reflexivity|]. split; [done|]. intros role. rewrite dual_scope_exact. unfold normalize_authenticated_roles.
  apply exist_proper. intros held. rewrite elem_of_union, elem_of_singleton, Hr. done.
Qed.
(** An inactive or expired principal resolves to nothing, and nothing is written. *)
Theorem blocked_principal cfg gate fresh db now i schema p :
  id_provider i <> "" -> id_sub i <> "" -> get_principal_by_identity db (id_provider i) (id_sub i) = Some p -> p_active p = false \/ ~ unexpired now p ->
  resolve_effective_identity cfg gate fresh db now i schema = (inr None, db).
Proof.
  intros Hp Hs Hl Hb. unfold resolve_effective_identity, authenticate_and_get_principal.
  destruct (effective_permissions_linked db now i schema p) as (roles & -> & _); [done..|]. cbn [v_active]. destruct (p_active p); [|done]. simpl.
  destruct Hb as [|Hb]; [done|]. unfold expired, unexpired in *. simpl. destruct (p_until p) as [u|]; [|tauto].
  assert (u <? now = true) as -> by (apply Z.ltb_lt; lia). done.
Qed.

(** ** Catalogs apart *)

(** Two databases that differ at most in the schemas of other catalogs. *)
Definition agree (schema : string) (a b : iam_db) : Prop :=
  principals a = principals b /\ identity_links a = identity_links b /\ scopes a !! PLATFORM = scopes b !! PLATFORM /\ scopes a !! schema = scopes b !! schema.
Definition agree_result (schema : string) (a b : iam_error + iam_db) : Prop :=
  match a, b with inl e, inl e' => e = e' | inr a, inr b => agree schema a b | _, _ => False end.

Lemma agree_scopes schema a b : agree schema a b -> scope_of a PLATFORM = scope_of b PLATFORM /\ scope_of a schema = scope_of b schema.
Proof. intros (_ & _ & H1 & H2). unfold scope_of. by rewrite H1, H2. Qed.
Lemma agree_roles schema a b now i : agree schema a b ->
  get_identity_roles a now (id_provider i) (id_sub i) (if schema ==s PLATFORM then None else Some schema) =
  get_identity_roles b now (id_provider i) (id_sub i) (if schema ==s PLATFORM then None else Some schema).
Proof.
  intros H. pose proof (agree_scopes _ _ _ H) as [H1 H2]. destruct H as (_ & Hl & _). unfold get_identity_roles, list_role_names.
  rewrite Hl, H1. destruct (schema ==s PLATFORM); [done|]. by rewrite H2.
Qed.
Lemma agree_permissions schema a b now i : agree schema a b -> get_effective_permissions a now i schema = get_effective_permissions b now i schema.
Proof.
  intros H. unfold get_effective_permissions, get_principal_by_identity. rewrite (agree_roles schema a b) by done. by destruct H as (-> & -> & _).
Qed.
Lemma agree_expand schema a b roles : agree schema a b -> expand_role_hierarchy_dual_scope a roles schema = expand_role_hierarchy_dual_scope b roles schema.
Proof. intros [H1 H2]%agree_scopes. unfold expand_role_hierarchy_dual_scope, get_role_hierarchy. by rewrite H1, H2. Qed.
(** A write in the platform's schema or in the catalog's. *)
Lemma agree_write schema s f a b : agree schema a b -> s = PLATFORM \/ s = schema -> agree_result schema (write_scope s f a) (write_scope s f b).
Proof.
  intros (H1 & H2 & H3 & H4) Hs. assert (Heq : scopes a !! s = scopes b !! s) by (destruct Hs as [-> | ->]; done).
  unfold write_scope. rewrite Heq. destruct (scopes b !! s) as [t|]; [|done]. destruct (f t) as [e|t']; [done|]. simpl. unfold agree, set_scope. simpl.
  split; [done|]. split; [done|]. rewrite !lookup_insert. by split; case_decide.
Qed.
Lemma agree_action schema now pid act flag a b : agree schema a b ->
  (apply_action now pid (flag, a) act).1 = (apply_action now pid (flag, b) act).1 /\ agree schema (apply_action now pid (flag, a) act).2 (apply_action now pid (flag, b) act).2.
Proof.
  intros H. unfold apply_action, grant_platform_role, revoke_platform_role, grant, revoke_by_match. cbn [snd].
  destruct act; match goal with |- context [write_scope PLATFORM ?f a] => pose proof (agree_write schema PLATFORM f a b H (or_introl eq_refl)) as Hw end;
    destruct (write_scope _ _ a), (write_scope _ _ b); done.
Qed.
Lemma agree_actions schema now pid actions : forall flag a b, agree schema a b ->
  (fold_left (apply_action now pid) actions (flag, a)).1 = (fold_left (apply_action now pid) actions (flag, b)).1 /\
  agree schema (fold_left (apply_action now pid) actions (flag, a)).2 (fold_left (apply_action now pid) actions (flag, b)).2.
Proof.
  induction actions as [|act actions IH]; intros flag a b H; [done|]. simpl. destruct (agree_action schema now pid act flag a b H) as [H1 H2].
  destruct (apply_action now pid (flag, a) act) as [f1 a1], (apply_action now pid (flag, b) act) as [f2 b1]. simpl in *. subst. by apply IH.
Qed.
Lemma agree_reconcile schema cfg gate a b now pid i : agree schema a b ->
  (reconcile_oidc_roles cfg gate a now pid i).1 = (reconcile_oidc_roles cfg gate b now pid i).1 /\
  agree schema (reconcile_oidc_roles cfg gate a now pid i).2 (reconcile_oidc_roles cfg gate b now pid i).2.
Proof.
  intros H. unfold reconcile_oidc_roles, list_platform_roles, list_role_names. destruct (agree_scopes _ _ _ H) as [-> _].
  repeat (case_match; [done|]). by apply agree_actions.
Qed.
Lemma agree_grants schema now pid roles : forall a b, agree schema a b ->
  (apply_role_grants now pid schema roles a).1 = (apply_role_grants now pid schema roles b).1 /\
  agree schema (apply_role_grants now pid schema roles a).2 (apply_role_grants now pid schema roles b).2.
Proof.
  induction roles as [|r roles IH]; intros a b H; [done|]. simpl.
  assert (Hw : agree_result schema (if schema ==s PLATFORM then grant_platform_role now pid r a else grant_catalog_role now pid r schema None a)
                 (if schema ==s PLATFORM then grant_platform_role now pid r b else grant_catalog_role now pid r schema None b)).
  { unfold grant_platform_role, grant_catalog_role, grant. destruct (schema ==s PLATFORM); apply agree_write; auto. }
  destruct (if schema ==s PLATFORM then grant_platform_role now pid r a else _) as [e|a1], (if schema ==s PLATFORM then grant_platform_role now pid r b else _) as [e'|b1];
    simpl in Hw; [by subst|done|done|by apply IH].
Qed.
Lemma agree_register schema cfg fresh a b now i : agree schema a b ->
  (auto_register_principal cfg fresh a now i schema).1 = (auto_register_principal cfg fresh b now i schema).1 /\
  agree schema (auto_register_principal cfg fresh a now i schema).2 (auto_register_principal cfg fresh b now i schema).2.
Proof.
  intros H. unfold auto_register_principal, create_principal, assigned_roles. destruct (agree_scopes _ _ _ H) as [-> _]. destruct H as (Hp & Hl & Hs).
  rewrite Hp. destruct (insert_principal _ _) as [pid rows].
  match goal with |- context [apply_role_grants now pid schema ?roles (create_identity_link ?x ?y pid (set_principals rows a))] =>
    destruct (agree_grants schema now pid roles (create_identity_link x y pid (set_principals rows a)) (create_identity_link x y pid (set_principals rows b))) as [H1 H2] end.
  { unfold agree, create_identity_link, set_links, set_principals. simpl. by rewrite Hl. }
  destruct (apply_role_grants _ _ _ _ (create_identity_link _ _ _ (set_principals rows a))) as [[] a1],
    (apply_role_grants _ _ _ _ (create_identity_link _ _ _ (set_principals rows b))) as [[] b1]; simpl in *; simplify_eq; done.
Qed.
(** What an identity resolves to in a catalog, and what that leaves there and on the
    platform, does not depend on what is in any other catalog. *)
Theorem tenant_isolation schema cfg gate fresh a b now i : agree schema a b ->
  (resolve_effective_identity cfg gate fresh a now i schema).1 = (resolve_effective_identity cfg gate fresh b now i schema).1 /\
  agree schema (resolve_effective_identity cfg gate fresh a now i schema).2 (resolve_effective_identity cfg gate fresh b now i schema).2.
Proof.
  intros H. unfold resolve_effective_identity, authenticate_and_get_principal. rewrite (agree_permissions schema a b) by done.
  destruct (get_effective_permissions b now i schema) as [v|].
  - destruct (negb _); [done|]. destruct (expired _ _); [done|]. destruct (agree_reconcile schema (sync_config cfg) gate a b now (v_id v) i H) as [H1 H2].
    destruct (reconcile_oidc_roles _ _ a _ _ _) as [f1 a1], (reconcile_oidc_roles _ _ b _ _ _) as [f2 b1]. simpl in *. subst.
    by rewrite (agree_permissions schema a1 b1), (agree_expand schema a1 b1).
  - destruct (agree_register schema cfg fresh a b now i H) as [H1 H2].
    destruct (auto_register_principal _ _ a _ _ _) as [[] a1], (auto_register_principal _ _ b _ _ _) as [[] b1]; simpl in *; simplify_eq; [done|].
    by rewrite (agree_expand schema a1 b1).
Qed.

(** ** Witnesses *)

Definition sample_service : service_config := mkService (mkRolesCfg ["sysadmin"] "user") sample_sync (mkRolesCfg ["sysadmin"] "user").

Lemma effective_roles_exact_witness :
  exists roles v db', resolve_effective_identity sample_service true "f" sample_db 9 alice "s_cat" = (inr (Some (roles, v)), db') /\
    "reader" ∈ roles /\ "viewer" ∈ roles.
Proof.
  destruct (effective_roles_exact sample_service true "f" sample_db 9 alice "s_cat" (mkPrincipal "p1" "oidc:alice" "alice@x" true None))
    as (roles & v & Heq & _ & Hr); [done|done|reflexivity|reflexivity|exact I|].
  exists roles, v. eexists. split; [exact Heq|]. split; apply Hr.
  - exists "curator". split; [right; left; apply listed_granted; by_member|]. right. split; [split; discriminate|].
    eapply rtc_l; [|apply rtc_refl]. unfold includes. by_member.
  - exists "editor". split; [right; left; apply listed_granted; by_member|]. left. eapply rtc_l; [|apply rtc_refl]. unfold includes. by_member.
Defined.

(** ** At the edges *)

(** The rows the resolver returns lack the column of the attribute predicates: whatever
    is stored there, the read filter has no clause from it. *)
Theorem grant_predicates_never_compiled reg (decode : pyval -> option (list raw_predicate)) db now pid schema cat col :
  compile_grant_attribute_clauses reg
    (Some (map (fun row => dict_get "attribute_predicates" row ≫= decode) (resolve_effective_grants db now pid schema col))) cat col = ([], false).
Proof.
  unfold resolve_effective_grants. rewrite map_map. match goal with |- context [map _ ?l] => induction l as [|g rows IH] end; [done|].
  simpl in *. by rewrite IH.
Qed.

Definition run (r : iam_error + iam_db) : iam_db := match r with inr db => db | inl _ => mkIamDb ∅ [] ∅ end.
Definition roles_in (cfg : service_config) (db : iam_db) (i : identity) (schema : string) : gset string :=
  match (resolve_effective_identity cfg true "f" db 9 i schema).1 with inr (Some (roles, _)) => roles | _ => ∅ end.

(** A role granted for one collection is a role in the whole catalog for what is read from
    the role names, while the resolver of grants keeps it to the collection. *)
Example collection_role_in_whole_catalog :
  let db := run (grant_catalog_role 2 "p1" "editor_c1" "s_cat" (Some "c1") sample_db) in
  "editor_c1" ∈ roles_in sample_service db alice "s_cat" /\
  length (resolve_effective_grants db 9 "p1" (Some "s_cat") (Some "c2")) = 3%nat /\
  length (resolve_effective_grants db 9 "p1" (Some "s_cat") (Some "c1")) = 4%nat.
Proof. cbv zeta. split; [by_member|by vm_compute]. Qed.
Definition carol : identity := mkIdentity "oidc" "carol" None ["geoid.sysadmin"] [] (Some "https://kc").
Definition carol_after : identity := mkIdentity "oidc" "carol" None [] [] (Some "https://kc").
(** A first login on a catalog grants the mapped roles there, where reconciliation does
    not look: the catalog's grant outlives the role in the token. *)
Example first_login_role_survives :
  let db := (resolve_effective_identity sample_service true "p3" sample_db 9 carol "s_cat").2 in
  "sysadmin" ∈ roles_in sample_service db carol_after "s_cat" /\ "sysadmin" ∉ roles_in sample_service db carol_after PLATFORM.
Proof. cbv zeta. split; by_member. Qed.
(** The two hierarchies are expanded side by side: what a role includes on the platform
    is not expanded in the catalog. *)
Example hierarchies_do_not_compose :
  let db := run (add_role_hierarchy "s_cat" "viewer" "auditor" (run (create_role "s_cat" (mkRole "auditor" "auditor" []) sample_db))) in
  expand_role_hierarchy_dual_scope db {["sysadmin"]} "s_cat" = {["sysadmin"; "editor"; "viewer"]} /\
  expand_role_hierarchy_dual_scope db {["viewer"]} "s_cat" = {["viewer"; "auditor"]}.
Proof. by vm_compute. Qed.
(** An edge of a catalog's hierarchy to its own role of that name gives the platform's
    administrator by name. *)
Example catalog_edge_to_sysadmin :
  let db := run (add_role_hierarchy "s_cat" "owner" "sysadmin" (run (create_role "s_cat" (mkRole "owner" "owner" []) sample_db))) in
  "sysadmin" ∈ roles_in sample_service db alice "s_cat" /\ "sysadmin" ∉ roles_in sample_service sample_db alice "s_cat".
Proof. cbv zeta. split; by_member. Qed.
(** An update stores the display name as the identifier: deactivated, unlinked and logged
    in again, the person is another principal, active; and an expiry is never stored. *)
Example update_loses_identifier :
  let db := delete_identity_link "oidc" "alice" (run (update_principal "p1" "alice@x" false sample_db)) in
  let db' := (resolve_effective_identity sample_service true "p9" db 9 alice PLATFORM).2 in
  map p_id (principals db') = ["p1"; "p2"; "p9"] /\ map p_identifier (principals db') = ["alice@x"; "oidc:bob"; "oidc:alice"] /\
  map p_active (principals db') = [false; true; true].
Proof. by vm_compute. Qed.
(** Without that update, the row is found by its identifier and made active again. *)
Example registration_reactivates :
  let db := mkIamDb (scopes sample_db) [mkPrincipal "p1" "oidc:alice" "alice@x" false (Some 3)] ∅ in
  let db' := (resolve_effective_identity sample_service true "p9" db 9 alice PLATFORM).2 in
  map p_id (principals db') = ["p1"] /\ map p_active (principals db') = [true] /\ map p_until (principals db') = [None] /\
  "curator" ∈ list_platform_roles db' 9 "p1".
Proof. cbv zeta. split; [by vm_compute|]. split; [by vm_compute|]. split; [by vm_compute|by_member]. Qed.
(** A registration whose grant fails leaves the principal and its link without a role. *)
Example failed_registration_stays :
  let r := resolve_effective_identity sample_service true "p9" sample_db 9 carol "s_missing" in
  r.1 = inl TableMissing /\ map p_id (principals r.2) = ["p1"; "p2"; "p9"] /\ identity_links r.2 !! ("oidc", "carol") = Some "p9".
Proof. by vm_compute. Qed.
